(* ===== verification/_CoqProject ===== *)
-Q . S2P
Prelude.v
Smt.v
Z3Api.v
Interface.v
ByteSeq.v
BitArrays.v
Arith.v
SimpleBackend.v
SimpleSpec.v
PathConstraints.v
Config.v
State.v
Shadow.v
Memory.v
GarbageCollection.v
LibcWrappers.v
LibcSpec.v
Startup.v
Qsym.v
QsymSpec.v
Dispatch.v
Symbolizer.v
SymbolizerSem.v
Signatures.v
Generated.v
Typing.v
Cfg.v
ShortCircuit.v
Computations.v
Simulation.v
Phi.v
Visitors.v
VisitScalar.v
VisitAddress.v
VisitEffects.v
VisitSwitch.v
VisitMemory.v
Processed.v
VisitCall.v
SymbolizerSpec.v
FunctionSpec.v
CfgSpec.v
CfgSim.v
Dominance.v
FunctionSim.v
Program.v
Linking.v
BranchReport.v
Ieee.v
Ir.v
Lockstep.v
OverflowChecker.v
OverflowSpec.v
Instrument.v
Reporting.v
FPOverflow.v
FPOverflowSpec.v
Passes.v
PassSpec.v
Pipeline.v
Scenarios.v
RuntimeProps.v
BackendProps.v
QsymProps.v
CompilerProps.v
PassProps.v
SymbolizerProps.v
LinkingProps.v
