(* ===== verification/Prelude.v ===== *)
(** * A verification development of the SymCC / SYMROS symbolic execution tool

    The repository instruments a program at compile time (compiler/) so that,
    while it runs, a run-time library (runtime/) builds a solver expression for
    every value that depends on the input and reports every branch that does.
    The tool is right when, at every moment, each expression the library holds
    for a value evaluates, on the input the program was started with, to the
    concrete value the program computes.  This development models the run-time
    library with its simple (Z3) and QSYM backends, the Symbolizer that
    generates the calls of the library, and the integer and floating-point
    overflow checkers with the passes that run them, and proves that agreement
    and the behaviour of the operations that maintain it.

    ** The parts of the program, and the files that model them

    - [Prelude] (this file): effects of C++ code as a state and error monad
      [M], with [wp] (total correctness: the call returns and the postcondition
      holds), machine words as integers with explicit wrap-around.

    The run-time library (runtime/):

    - [Smt], [Z3Api]: the solver library, which is not part of the repository:
      its values, the documented meaning of the operators the backend uses, and
      the class [Z3] of its calls with their laws [Z3Laws].  [Z3Api.Term]
      (syntax trees) satisfies the laws; the examples compute with it.
    - [Interface]: runtime/include/RuntimeCommon.h, the functions a backend
      offers to the rest of the library (class [Backend]), their contract
      ([BackendSpec]) and the contract of symbolic input ([InputSpec]).
    - [ByteSeq], [BitArrays], [Arith]: the backend-independent builders of
      runtime/src/RuntimeCommon.cpp for byte arrays (extract, insert, byte swap)
      and saturating or checked arithmetic, proved against [BackendSpec].
    - [SimpleBackend], [SimpleSpec]: runtime/src/backends/simple/Runtime.cpp,
      with reference counts, recorded expressions, solver scopes and the query
      log in the state; [simple_backend_spec] and [simple_input_spec] prove the
      contracts.  Their invariant [run_inv] also says that every constraint of
      every logged query holds for the input of the run ([RunInput]).
      [PathConstraints]: [_sym_push_path_constraint_with_loc] of the same file.
    - [Config]: runtime/src/Config.cpp.  [State]: the globals of the library.
    - [Shadow]: runtime/include/Shadow.h, the page table of shadow memory with
      its iterators, and the standard algorithms that the library applies to
      them; [shadow_inv] is the invariant of shadow memory.
    - [Memory]: the memory operations of RuntimeCommon.cpp ([_sym_memcpy],
      [_sym_read_memory], [_sym_make_symbolic], ...), parameter and return
      slots; [consistent] is the agreement of shadow and memory, [mem_step] the
      program's memory operations with their instrumentation.
    - [GarbageCollection]: runtime/src/GarbageCollection.cpp and the collection
      of the simple backend.  [LibcWrappers], [LibcSpec]:
      runtime/src/LibcWrappers.cpp.  [Startup]: [_sym_initialize].
    - [Qsym], [QsymSpec]: runtime/src/backends/qsym/Runtime.cpp over a class of
      the calls of QSYM's expression library, with the proof that the backend
      meets the same contracts.

    The Symbolizer (compiler/):

    - [Dispatch]: the tables of compiler/Runtime.cpp and the choice of handlers.
      [Signatures]: the functions that the same file asks the module for, in its
      order, and the declarations that the module ends up with; what LLVM requires
      of well-typed functions.  [Generated]: in such functions all generated calls
      match the types that they are made with.
    - [Symbolizer]: compiler/Symbolizer.cpp, one definition per visitor, with
      [finalizePHINodes], [shortCircuitExpressionUses] and [instrumentFunction]
      of compiler/Pass.cpp, with its final assertion, for which LLVM's verifier
      is a parameter (class [Verifier]); the state [symbolizer] holds the code generated so
      far, the map from variables to expressions, the registered computations
      and the phi nodes to be finished.
    - [SymbolizerSem], [Cfg]: the meaning of instructions, blocks and functions,
      original and instrumented.  [Typing]: which builders may be applied to
      expressions of which sorts.
    - [ShortCircuit], [Computations], [Phi]: what the two finishing functions
      make of the code.  [Simulation], [Processed]: what has to be shown of a
      visitor; [Visitors], [VisitScalar], [VisitAddress], [VisitEffects],
      [VisitMemory], [VisitCall], [VisitSwitch] show it.  [SymbolizerSpec],
      [FunctionSpec]: straight-line code, and that the pass succeeds on
      functions.  [CfgSpec], [CfgSim], [Dominance], [FunctionSim]: the
      simulation along the control flow of one function.  [Program]: programs,
      whose functions call each other; their code is the one that the pass leaves
      when the verifier accepts it.  [BranchReport]: the finished code of one
      branch, the conditions of loops included.
    - [Linking]: [instrumentModule] of compiler/Pass.cpp, which renames the
      functions that the library wraps and adds the module constructor, and the
      proof that the wrappers of memcpy, memmove, bcopy, memcmp, bcmp, bzero and
      ntohl meet the contract of called functions.

    The overflow checkers (compiler/):

    - [Ir], [Ieee]: the fragment of LLVM IR, in which operations with the flags
      nsw, nuw and exact may give poison, and the floating-point formats that
      the checkers use.  [OverflowChecker], [OverflowSpec]:
      compiler/Overflow.cpp.  [FPOverflow], [FPOverflowSpec]:
      compiler/FPOverflow.cpp.
    - [Lockstep], [Instrument], [Reporting]: chains of generated blocks, and the
      specification of a pass that inserts checks, as an interface that both
      checkers implement.  [Passes], [PassSpec]: the passes of compiler/Pass.cpp
      that run the checkers.  [Pipeline]: the rest of that file, with
      compiler/Unroll.cpp and the order of the passes in compiler/Main.cpp.

    [Scenarios] has concrete states for the examples.  The main theorems, each
    followed by an example that applies it, are in [RuntimeProps],
    [BackendProps], [QsymProps], [CompilerProps], [PassProps],
    [SymbolizerProps] and [LinkingProps].

    ** How the parts interact

    Instrumented code calls the library at each load, store, memory copy and
    computation.  The memory operations (Memory, LibcWrappers) move expressions
    through shadow memory (Shadow) and call the backend through [Interface];
    the builders of BitArrays and Arith do the same.  Clients are proved against
    the contract [BackendSpec], so their theorems hold for every backend that
    meets it.  A handle is an optional term; null stands for a concrete value.
    [rep rho s h v] says that in backend state [s] the handle [h] is alive and
    evaluates to [v] under the input [rho].  The theorems about the Symbolizer
    use those of the library: [exec_item] runs a generated call by running the
    model of the library function.

    ** What the theorems show

    - The Symbolizer ([program_simulates], [function_simulates],
      [instrument_succeeds], [instrument_simulates], [instrument_returns]): the
      pass gets to its final assertion on every function of covered instructions,
      and the instrumented function takes the same path, computes the same variables
      and memory, keeps the shadow in agreement with memory, and passes on
      expressions of arguments and results; so do whole programs, with
      recursive calls and calls of code that is not instrumented.
      [run_from_start] puts the parts together: from [_sym_initialize] to the
      end of the program, with the truth of everything that has been logged.
      [linked_program_simulates] shows that redirecting calls of the seven
      functions above to the wrappers is transparent, and
      [branch_reports_direction] what a branch, visited by itself, tells the
      library, and when.  [instrument_well_typed] holds of all well-typed
      functions, with instructions that the simulation does not cover too:
      generated calls match their types, and the declarations of the library but
      for reports of path constraints, which are declared with three parameters
      instead of six.
    - The overflow passes ([fp_pass_refines] for the legacy floating-point pass;
      [tolerance_undefined_in_passes] for the others, which read a member that is
      never set): instrumentation does not change the program, and each inserted
      check decides its condition, for every control flow; which conditions are
      exact ([add_sub_conditions_exact],
      [mul_condition_exact_or_traps], [fp_tolerance_bounds]).  (The lemmas
      [int_pass_refines] and [overflow_checks_run] are about a checker with both
      settings stored, which no pass has.)
    - Agreement of shadow and memory ([run_time_agreement], [qsym_agreement],
      [initialize_establishes], [collect_garbage_keeps_shadow], [qsym_garbage],
      [SYM_read_agreement]): from start-up on, through
      every sequence of operations, collections and wrapped calls.
    - Operations, on every branch and with termination ([read_memory_value],
      [write_read_roundtrip], [memmove_copies_shadow],
      [make_symbolic_input_bytes], [isConcrete_decides],
      [all_equal_decides_memcmp], ...).
    - Builders and handlers ([binary_handler_value], [int_comparison_value],
      [float_comparison_value], [insert_replaces_bytes],
      [extract_selects_bytes], saturation and overflow pairs): equivalence with
      the LLVM semantics, exact flags and clamping; [builder_typing]: well-sorted
      calls are accepted and their results have the announced sort.
    - Path constraints ([path_constraint_query]; [path_constraint_decided] for
      constraints that simplify to a constant) and configuration
      ([loadConfig_result], [threshold_roundtrip]), which differs from
      docs/Configuration.txt for an empty file name and for conflicting options.
    - Deviations that the model exhibits ([mul_overflow_pair],
      [unsigned_shift_saturation], [string_size_check_leaks_scope],
      [string_constraints_dangle], [tolerance_undefined_in_passes]): see the
      statements.

    ** Conventions, bounds and fuel

    Integers are [Z] with the wrap-around of their C++ type written out; an
    out-of-range shift, a null dereference or a negative reference count is the
    error [Undefined], a failing assertion [Assert] (the model is of builds
    without NDEBUG), an exception [Throw], the end of the process [Exit].
    [SolverError] is an error raised by Z3, whose handler only logs it and after
    which no result is documented.  Loops over shadow memory run as many
    iterations as the region has bytes, which the theorems prove to be enough;
    the string functions of LibcWrappers take a bound on the length of strings
    as fuel.  Runs of functions are bounded by a number of blocks that is the
    same for the original and the instrumented function: whatever the original
    does in [k] blocks, the instrumented function does in [k] blocks.  Runs of
    programs are bounded by the depth [n] of calls and the blocks [k] of each
    activation, in the same way.  Functions outside of the program are
    relations with the contract [CalleesOk]: they keep what a call of an
    instrumented function keeps.  The flags that guard the branches of loops
    are stack slots of the instrumented function, set to false on entry.  The
    addresses of the program's own stack variables are an argument, per call
    depth and function ([stack]), and the same in both programs.
    Addresses are 64-bit; regions end below 2^64.  The standard library
    (vectors, maps, strings, [std::copy], [std::stoul]) and the wrapped C
    functions are modelled by their documented effect; the results of system
    calls are arguments.

    The meaning of LLVM's instructions in SymbolizerSem and Cfg is that of its
    language reference, where [None] is undefined behaviour: accesses outside
    of the address space, division by zero, poison.  The control-flow edges and
    the sets of dominating variables are parameters; [scope_ok] states the
    closure properties of dominance that are used.

    ** Not modelled

    Output to the log other than the queries, the context and parameters of
    Z3, time measurement; threads (the library's globals are not
    thread-safe); string rendering of expressions.  QSYM's own expression
    library and solver, which are not in the repository, are a class with laws.
    Of the Symbolizer, invoke instructions (they split critical edges) and
    warnings; LLVM's verifier and the other parts of LLVM are parameters.  The
    simulation theorems do not cover aggregates and the
    intrinsics that return them, indirect branches, the unsigned saturating
    shift and the funnel shifts (whose builders deviate from LLVM, see the
    findings), which are modelled in Symbolizer.  The wrapper of memset does not
    keep the contract of callees, and those of functions that read input change
    the state of files, which programs do not have; linking covers neither.  The two visitors for
    conversions of floating-point numbers to integers that LLVM's dispatcher
    does not call.  The lowering of intrinsics and of inline assembly, loop
    unrolling and the analyses are LLVM's, and arguments of Pipeline.  The
    unused hash functions of the simple backend.  The formats
    x86_fp80 and ppc_fp128.  The status of every part is listed with the
    components. *)

From stdpp Require Export base numbers list gmap strings.
From Stdlib Require Export ZArith Lia.

#[global] Open Scope Z_scope.
#[export] Set Warnings "-clear-no-such-hyp".

(** ** The effects of the C++ code

    [err] lists the ways in which the execution of a C++ function does not
    return: a failing [assert] (builds without NDEBUG), an uncaught exception,
    behaviour that the C++ standard leaves undefined, an error raised by the
    solver library, and (in models of loops only) an exhausted iteration bound. *)
Inductive err : Type :=
| Assert (what : string)
| Throw (msg : string)
| Undefined (what : string)
| SolverError (what : string)
| Exit (code : Z)
| OutOfFuel.

#[global] Instance err_eq_dec : EqDecision err.
Proof. solve_decision. Defined.

(** The outcome of running a function: a value and the next state, or an error. *)
Inductive outcome (S A : Type) : Type :=
| Ok (a : A) (s : S)
| Err (e : err).
Arguments Ok {S A} a s.
Arguments Err {S A} e.

(** The state and error monad in which all stateful code is translated. *)
Definition M (S A : Type) : Type := S → outcome S A.

Section monad_ops.
Context {S : Type}.

Definition ret {A} (a : A) : M S A := λ s, Ok a s.

Definition bind {A B} (m : M S A) (k : A → M S B) : M S B :=
  λ s, match m s with
       | Ok a s' => k a s'
       | Err e => Err e
       end.

Definition fail {A} (e : err) : M S A := λ _, Err e.

Definition get : M S S := λ s, Ok s s.

Definition gets {A} (f : S → A) : M S A := λ s, Ok (f s) s.

Definition modify (f : S → S) : M S unit := λ s, Ok tt (f s).

(** [assert(cond && what)], in a build without NDEBUG. *)
Definition assert_ (cond : bool) (what : string) : M S unit :=
  if cond then ret tt else fail (Assert what).

End monad_ops.

Declare Scope sym_scope.
Delimit Scope sym_scope with sym.
#[global] Open Scope sym_scope.

Notation "x <- m ;; k" := (bind m (λ x, k))
  (at level 100, m at next level, right associativity) : sym_scope.
Notation "m ;;; k" := (bind m (λ _, k))
  (at level 100, right associativity) : sym_scope.

(** Running a computation on a component of a larger state. *)
Definition zoom {S T A} (proj : S → T) (upd : T → S → S) (m : M T A) : M S A :=
  λ s, match m (proj s) with
       | Ok a t => Ok a (upd t s)
       | Err e => Err e
       end.

(** [for (i = lo; i < lo + n; i++) a = body(i, a)], and the value of [a] after
    the loop. *)
Fixpoint for_ {S A} (n : nat) (lo : Z) (body : Z → A → M S A) (a : A) : M S A :=
  match n with
  | O => ret a
  | Datatypes.S n' => a' <- body lo a ;; for_ n' (lo + 1) body a'
  end.

(** ** Machine integers

    An unsigned [w]-bit integer is a [Z] in [0, 2^w); the wrap-around of the
    C++ type is written where the source has a conversion or an operation. *)
Definition u8 (z : Z) : Z := z mod 2 ^ 8.
Definition u32 (z : Z) : Z := z mod 2 ^ 32.
Definition u64 (z : Z) : Z := z mod 2 ^ 64.

(** [(uint64_t)x << n]: undefined unless the count is in [0, 64). *)
Definition shl_u64 {S} (x n : Z) : M S Z :=
  if (0 <=? n) && (n <? 64) then ret (u64 (x * 2 ^ n))
  else fail (Undefined "shift count out of range").

(** The [w]-bit pattern [x] read as a two's-complement integer. *)
Definition sgn (w x : Z) : Z := if x <? 2 ^ (w - 1) then x else x - 2 ^ w.

(** The [w]-bit pattern of the integer [z]. *)
Definition wrap (w z : Z) : Z := z mod 2 ^ w.

(** ** Outcomes: elementary facts *)
Section monad_laws.
Context {S : Type}.

Lemma bind_Ok {A B} (m : M S A) (k : A → M S B) s a s' :
  m s = Ok a s' → bind m k s = k a s'.
Proof. unfold bind. by intros ->. Qed.

Lemma bind_Err {A B} (m : M S A) (k : A → M S B) s e :
  m s = Err e → bind m k s = Err e.
Proof. unfold bind. by intros ->. Qed.

Lemma bind_inv {A B} (m : M S A) (k : A → M S B) s b s' :
  bind m k s = Ok b s' → ∃ a s1, m s = Ok a s1 ∧ k a s1 = Ok b s'.
Proof. unfold bind. destruct (m s) eqn:?; [eauto|done]. Qed.

Lemma bind_assoc {A B C} (m : M S A) (k : A → M S B) (k' : B → M S C) s :
  bind (bind m k) k' s = bind m (λ a, bind (k a) k') s.
Proof. unfold bind. by destruct (m s). Qed.

Lemma assert_true (what : string) (s : S) : assert_ true what s = Ok tt s.
Proof. done. Qed.

Lemma shl_u64_ok x n (s : S) :
  0 ≤ n < 64 → shl_u64 x n s = Ok (u64 (x * 2 ^ n)) s.
Proof.
  intros ?. unfold shl_u64.
  by replace ((0 <=? n) && (n <? 64)) with true by lia.
Qed.

Lemma shl_u64_undefined x n (s : S) :
  (n < 0 ∨ 64 ≤ n) →
  shl_u64 x n s = Err (Undefined "shift count out of range").
Proof.
  intros ?. unfold shl_u64.
  by replace ((0 <=? n) && (n <? 64)) with false by lia.
Qed.

End monad_laws.

(** [m], run in [s], returns normally and establishes [Q]. *)
Definition wp {S A} (m : M S A) (s : S) (Q : A → S → Prop) : Prop :=
  ∃ a s', m s = Ok a s' ∧ Q a s'.

Section wp_rules.
Context {S : Type}.

Lemma wp_ret {A} (a : A) (s : S) (Q : A → S → Prop) : Q a s → wp (ret a) s Q.
Proof. intros. by exists a, s. Qed.

Lemma wp_bind {A C} (m : M S A) (k : A → M S C) s (Q : C → S → Prop) :
  wp m s (λ a s', wp (k a) s' Q) → wp (bind m k) s Q.
Proof.
  intros (a&s1&E&c&s2&E2&HQ). exists c, s2. by rewrite (bind_Ok _ _ _ _ _ E).
Qed.

Lemma wp_impl {A} (m : M S A) s (P Q : A → S → Prop) :
  wp m s P → (∀ a s', P a s' → Q a s') → wp m s Q.
Proof. intros (a&s1&E&HP) HQ. exists a, s1. eauto. Qed.

Lemma wp_and {A} (m : M S A) s (P Q : A → S → Prop) :
  wp m s P → wp m s Q → wp m s (λ a s', P a s' ∧ Q a s').
Proof.
  intros (a&s1&E1&HP) (a'&s2&E2&HQ). rewrite E1 in E2. injection E2 as <- <-. by exists a, s1.
Qed.

(** The rule for sequencing with a chosen intermediate assertion. *)
Lemma wp_seq {A C} (m : M S A) (k : A → M S C) s P (Q : C → S → Prop) :
  wp m s P → (∀ a s', P a s' → wp (k a) s' Q) → wp (bind m k) s Q.
Proof. intros Hm Hk. apply wp_bind. by eapply wp_impl. Qed.

Lemma wp_get s (Q : S → S → Prop) : Q s s → wp get s Q.
Proof. intros. by exists s, s. Qed.
Lemma wp_gets {A} (f : S → A) s (Q : A → S → Prop) : Q (f s) s → wp (gets f) s Q.
Proof. intros. by exists (f s), s. Qed.
Lemma wp_modify (f : S → S) s (Q : unit → S → Prop) : Q tt (f s) → wp (modify f) s Q.
Proof. intros. by exists tt, (f s). Qed.
Lemma wp_assert b what s (Q : unit → S → Prop) :
  b = true → Q tt s → wp (assert_ b what) s Q.
Proof. intros -> ?. by exists tt, s. Qed.

Lemma wp_elim {A} (m : M S A) s a s' (Q : A → S → Prop) :
  wp m s Q → m s = Ok a s' → Q a s'.
Proof. intros (b&t&E&HQ) E'. rewrite E in E'. by injection E' as -> ->. Qed.

Lemma wp_Ok {A} (m : M S A) s a s' (Q : A → S → Prop) :
  m s = Ok a s' → Q a s' → wp m s Q.
Proof. intros. by exists a, s'. Qed.

End wp_rules.

Lemma u64_small z : 0 ≤ z < 2 ^ 64 → u64 z = z.
Proof. apply Z.mod_small. Qed.
Lemma u32_small z : 0 ≤ z < 2 ^ 32 → u32 z = z.
Proof. apply Z.mod_small. Qed.
Lemma u8_small z : 0 ≤ z < 2 ^ 8 → u8 z = z.
Proof. apply Z.mod_small. Qed.

(** ** Arithmetic on bit patterns *)
Create HintDb words.

(** Side conditions on widths and bounds. *)
Ltac word := solve [auto with words; lia].

Lemma pow2_pos w : 0 ≤ w → 0 < 2 ^ w.
Proof. intros. apply Z.pow_pos_nonneg; lia. Qed.
#[export] Hint Resolve pow2_pos : words.

Lemma pow2_split a b : 0 ≤ a → 0 ≤ b → 2 ^ (a + b) = 2 ^ a * 2 ^ b.
Proof. intros. by apply Z.pow_add_r. Qed.

Lemma pow2_half w : 0 < w → 2 ^ w = 2 * 2 ^ (w - 1).
Proof. intros. rewrite <-Z.pow_succ_r by lia. f_equal. lia. Qed.

Lemma pow2_le a b : 0 ≤ a ≤ b → 2 ^ a ≤ 2 ^ b.
Proof. intros. apply Z.pow_le_mono_r; lia. Qed.

Lemma pow2_lt a b : 0 ≤ a < b → 2 ^ a < 2 ^ b.
Proof. intros. apply Z.pow_lt_mono_r; lia. Qed.

Lemma wrap_bound w z : 0 ≤ w → 0 ≤ wrap w z < 2 ^ w.
Proof. intros. apply Z.mod_pos_bound. auto with words. Qed.
#[export] Hint Resolve wrap_bound : words.

Lemma wrap_small w z : 0 ≤ z < 2 ^ w → wrap w z = z.
Proof. intros. by apply Z.mod_small. Qed.

Lemma wrap_wrap w z : wrap w (wrap w z) = wrap w z.
Proof. apply Zmod_mod. Qed.

Lemma sgn_bound w x :
  0 < w → 0 ≤ x < 2 ^ w → - 2 ^ (w - 1) ≤ sgn w x < 2 ^ (w - 1).
Proof.
  intros Hw ?. pose proof (pow2_half w Hw). unfold sgn.
  destruct (Z.ltb_spec x (2 ^ (w - 1))); lia.
Qed.

(** [z] is recovered from its bit pattern when it fits. *)
Lemma sgn_wrap w z :
  0 < w → - 2 ^ (w - 1) ≤ z < 2 ^ (w - 1) → sgn w (wrap w z) = z.
Proof.
  intros Hw ?. pose proof (pow2_half w Hw). unfold sgn, wrap.
  destruct (decide (0 ≤ z)).
  - rewrite Z.mod_small by lia. by destruct (Z.ltb_spec z (2 ^ (w - 1))); lia.
  - replace (z mod 2 ^ w) with (z + 2 ^ w).
    + destruct (Z.ltb_spec (z + 2 ^ w) (2 ^ (w - 1))); lia.
    + apply Zmod_unique with (-1); lia.
Qed.

Lemma wrap_sgn w x : 0 < w → 0 ≤ x < 2 ^ w → wrap w (sgn w x) = x.
Proof.
  intros Hw ?. unfold sgn, wrap. destruct (Z.ltb_spec x (2 ^ (w - 1))).
  - by apply Z.mod_small.
  - symmetry. apply Zmod_unique with (-1); lia.
Qed.

Lemma sgn_inj w x y :
  0 < w → 0 ≤ x < 2 ^ w → 0 ≤ y < 2 ^ w → sgn w x = sgn w y → x = y.
Proof.
  intros ??? E. rewrite <-(wrap_sgn w x), <-(wrap_sgn w y) by done. by rewrite E.
Qed.

(** Congruence of wrapped arithmetic: the wrapped sum, difference and product
    of patterns depend on the operands only up to wrapping. *)
Lemma wrap_add w a b : wrap w (wrap w a + wrap w b) = wrap w (a + b).
Proof. unfold wrap. by rewrite <-Zplus_mod. Qed.
Lemma wrap_sub w a b : wrap w (wrap w a - wrap w b) = wrap w (a - b).
Proof. unfold wrap. by rewrite <-Zminus_mod. Qed.
Lemma wrap_mul w a b : wrap w (wrap w a * wrap w b) = wrap w (a * b).
Proof. unfold wrap. by rewrite <-Zmult_mod. Qed.

Lemma wrap_add_sgn w a b :
  0 < w → 0 ≤ a < 2 ^ w → 0 ≤ b < 2 ^ w →
  wrap w (a + b) = wrap w (sgn w a + sgn w b).
Proof.
  intros. rewrite <-(wrap_add w (sgn w a)), !wrap_sgn by done. done.
Qed.
Lemma wrap_sub_sgn w a b :
  0 < w → 0 ≤ a < 2 ^ w → 0 ≤ b < 2 ^ w →
  wrap w (a - b) = wrap w (sgn w a - sgn w b).
Proof.
  intros. rewrite <-(wrap_sub w (sgn w a)), !wrap_sgn by done. done.
Qed.
Lemma wrap_mul_sgn w a b :
  0 < w → 0 ≤ a < 2 ^ w → 0 ≤ b < 2 ^ w →
  wrap w (a * b) = wrap w (sgn w a * sgn w b).
Proof.
  intros. rewrite <-(wrap_mul w (sgn w a)), !wrap_sgn by done. done.
Qed.
