(* ===== verification/Smt.v ===== *)
(** * Sorts, values and operators of the solver's expression language

    The run-time library hands every computation of the program under test to
    a solver library as a term over bit vectors, Booleans, integers and
    floating-point numbers.  This file is the documented meaning (SMT-LIB 2.6,
    as the Z3 C API refers to it) of the operators the library uses: the
    values, the sort of each operator and its denotation.  [smt_denote]
    answers [None] for ill-sorted arguments and for results the standard
    leaves open (division of integers by zero, NaN bit patterns, the
    floating-point conversions that are not used in a statement). *)

From S2P Require Import Prelude.
From Stdlib Require Import SpecFloat.

Inductive sort : Type :=
| SBool
| SBV (w : Z)
| SInt
| SFP (is_double : bool).

Inductive value : Type :=
| VBool (b : bool)
| VBV (w x : Z)
| VInt (z : Z)
| VFP (is_double : bool) (f : spec_float).

Definition value_sort (v : value) : sort :=
  match v with
  | VBool _ => SBool
  | VBV w _ => SBV w
  | VInt _ => SInt
  | VFP d _ => SFP d
  end.

(** Bit patterns are canonical and widths positive. *)
Definition value_wf (v : value) : Prop :=
  match v with
  | VBV w x => 0 < w ∧ 0 ≤ x < 2 ^ w
  | _ => True
  end.

(** The operators, one per [Z3_mk_*] function the simple backend calls;
    rounding is always to nearest, ties to even, or towards zero where the
    backend says so. *)
Inductive z3op : Type :=
| Bvneg | Bvnot
| Bvadd | Bvsub | Bvmul | Bvudiv | Bvsdiv | Bvurem | Bvsrem
| Bvshl | Bvlshr | Bvashr | Bvand | Bvor | Bvxor
| Bvslt | Bvsle | Bvsgt | Bvsge | Bvult | Bvule | Bvugt | Bvuge
| Eq | Not | And | Or | Xor | Ite
| Concat | Extract (hi lo : Z) | Sign_ext (n : Z) | Zero_ext (n : Z)
| Bv2int (is_signed : bool)
| Iadd | Isub | Imul | Idiv | Imod | Irem | Ilt | Ile | Igt | Ige
| Fpa_add | Fpa_sub | Fpa_mul | Fpa_div | Fpa_rem | Fpa_abs | Fpa_neg
| Fpa_is_nan | Fpa_gt | Fpa_geq | Fpa_lt | Fpa_leq | Fpa_eq
| Fpa_to_fp_signed (d : bool) | Fpa_to_fp_unsigned (d : bool)
| Fpa_to_fp_float (d : bool) | Fpa_to_fp_bv (d : bool)
| Fpa_to_ieee_bv | Fpa_to_sbv (n : Z) | Fpa_to_ubv (n : Z).

(** ** Bit-vector arithmetic *)
Definition bv_udiv (w x y : Z) : Z := if y =? 0 then 2 ^ w - 1 else x / y.
Definition bv_urem (w x y : Z) : Z := if y =? 0 then x else x mod y.

Definition bv_sdiv (w x y : Z) : Z :=
  if y =? 0 then (if sgn w x <? 0 then wrap w 1 else 2 ^ w - 1)
  else wrap w (Z.quot (sgn w x) (sgn w y)).

Definition bv_srem (w x y : Z) : Z :=
  if y =? 0 then x else wrap w (Z.rem (sgn w x) (sgn w y)).

Definition bv_shl (w x y : Z) : Z := if w <=? y then 0 else wrap w (x * 2 ^ y).
Definition bv_lshr (w x y : Z) : Z := if w <=? y then 0 else x / 2 ^ y.
Definition bv_ashr (w x y : Z) : Z :=
  if w <=? y then (if sgn w x <? 0 then 2 ^ w - 1 else 0)
  else wrap w (sgn w x / 2 ^ y).

(** Bits [hi..lo] of [x]. *)
Definition bv_extract (hi lo x : Z) : Z := (x / 2 ^ lo) mod 2 ^ (hi - lo + 1).

(** ** Floating-point formats *)
Definition fp_prec (d : bool) : Z := if d then 53 else 24.
Definition fp_emax (d : bool) : Z := if d then 1024 else 128.
Definition fp_width (d : bool) : Z := if d then 64 else 32.

(** Rounding an integer, or a number of another format, to format [d]. *)
Definition fp_of_Z (d : bool) (z : Z) : spec_float :=
  binary_normalize (fp_prec d) (fp_emax d) z 0 false.

Definition fp_convert (d : bool) (f : spec_float) : spec_float :=
  match f with
  | S754_finite s m e =>
      binary_normalize (fp_prec d) (fp_emax d) (if s then Zneg m else Zpos m) e s
  | _ => f
  end.

Definition fp_is_nan (f : spec_float) : bool :=
  match f with S754_nan => true | _ => false end.

#[global] Instance spec_float_eq_dec : EqDecision spec_float.
Proof. solve_decision. Defined.
#[global] Instance sort_eq_dec : EqDecision sort.
Proof. solve_decision. Defined.
#[global] Instance value_eq_dec : EqDecision value.
Proof. solve_decision. Defined.
#[global] Instance z3op_eq_dec : EqDecision z3op.
Proof. solve_decision. Defined.

(** ** The sort of an application *)
Definition bv_pair (s : list sort) : option Z :=
  match s with
  | [SBV w; SBV w'] => if w =? w' then Some w else None
  | _ => None
  end.

Definition fp_pair (s : list sort) : option bool :=
  match s with
  | [SFP d; SFP d'] => if Bool.eqb d d' then Some d else None
  | _ => None
  end.

Definition smt_sort (op : z3op) (s : list sort) : option sort :=
  match op with
  | Bvneg | Bvnot =>
      match s with [SBV w] => Some (SBV w) | _ => None end
  | Bvadd | Bvsub | Bvmul | Bvudiv | Bvsdiv | Bvurem | Bvsrem
  | Bvshl | Bvlshr | Bvashr | Bvand | Bvor | Bvxor => SBV <$> bv_pair s
  | Bvslt | Bvsle | Bvsgt | Bvsge | Bvult | Bvule | Bvugt | Bvuge =>
      (λ _, SBool) <$> bv_pair s
  | Eq => match s with
          | [a; b] => if decide (a = b) then Some SBool else None
          | _ => None
          end
  | Not => match s with [SBool] => Some SBool | _ => None end
  | And | Or => if decide (Forall (λ a, a = SBool) s) then Some SBool else None
  | Xor => match s with [SBool; SBool] => Some SBool | _ => None end
  | Ite => match s with
           | [SBool; a; b] => if decide (a = b) then Some a else None
           | _ => None
           end
  | Concat => match s with [SBV a; SBV b] => Some (SBV (a + b)) | _ => None end
  | Extract hi lo =>
      match s with
      | [SBV w] => if (0 <=? lo) && (lo <=? hi) && (hi <? w)
                   then Some (SBV (hi - lo + 1)) else None
      | _ => None
      end
  | Sign_ext n | Zero_ext n =>
      match s with
      | [SBV w] => if 0 <=? n then Some (SBV (w + n)) else None
      | _ => None
      end
  | Bv2int _ => match s with [SBV _] => Some SInt | _ => None end
  | Iadd | Isub | Imul | Idiv | Imod | Irem =>
      match s with [SInt; SInt] => Some SInt | _ => None end
  | Ilt | Ile | Igt | Ige =>
      match s with [SInt; SInt] => Some SBool | _ => None end
  | Fpa_add | Fpa_sub | Fpa_mul | Fpa_div | Fpa_rem => SFP <$> fp_pair s
  | Fpa_abs | Fpa_neg => match s with [SFP d] => Some (SFP d) | _ => None end
  | Fpa_is_nan => match s with [SFP _] => Some SBool | _ => None end
  | Fpa_gt | Fpa_geq | Fpa_lt | Fpa_leq | Fpa_eq => (λ _, SBool) <$> fp_pair s
  | Fpa_to_fp_signed d | Fpa_to_fp_unsigned d =>
      match s with [SBV _] => Some (SFP d) | _ => None end
  | Fpa_to_fp_float d => match s with [SFP _] => Some (SFP d) | _ => None end
  | Fpa_to_fp_bv d =>
      match s with
      | [SBV w] => if w =? fp_width d then Some (SFP d) else None
      | _ => None
      end
  | Fpa_to_ieee_bv =>
      match s with [SFP d] => Some (SBV (fp_width d)) | _ => None end
  | Fpa_to_sbv n | Fpa_to_ubv n =>
      match s with [SFP _] => if 0 <? n then Some (SBV n) else None | _ => None end
  end.

(** ** The denotation of an application *)
Definition bv_arith (f : Z → Z → Z → Z) (vs : list value) : option value :=
  match vs with
  | [VBV w x; VBV w' y] => if w =? w' then Some (VBV w (f w x y)) else None
  | _ => None
  end.

Definition bv_rel (f : Z → Z → Z → bool) (vs : list value) : option value :=
  match vs with
  | [VBV w x; VBV w' y] => if w =? w' then Some (VBool (f w x y)) else None
  | _ => None
  end.

Definition int_arith (f : Z → Z → option Z) (vs : list value) : option value :=
  match vs with [VInt x; VInt y] => VInt <$> f x y | _ => None end.

Definition int_rel (f : Z → Z → bool) (vs : list value) : option value :=
  match vs with [VInt x; VInt y] => Some (VBool (f x y)) | _ => None end.

Definition fp_arith (f : Z → Z → spec_float → spec_float → spec_float)
    (vs : list value) : option value :=
  match vs with
  | [VFP d x; VFP d' y] =>
      if Bool.eqb d d' then Some (VFP d (f (fp_prec d) (fp_emax d) x y)) else None
  | _ => None
  end.

Definition fp_rel (f : spec_float → spec_float → bool) (vs : list value) : option value :=
  match vs with
  | [VFP d x; VFP d' y] => if Bool.eqb d d' then Some (VBool (f x y)) else None
  | _ => None
  end.

Definition as_bool (v : value) : option bool :=
  match v with VBool b => Some b | _ => None end.

(** Integer division of SMT-LIB: the remainder is never negative. *)
Definition int_div (x y : Z) : option Z :=
  if y =? 0 then None else Some (Z.sgn y * (x / Z.abs y)).
Definition int_mod (x y : Z) : option Z :=
  if y =? 0 then None else Some (x mod Z.abs y).
Definition int_rem (x y : Z) : option Z :=
  if y =? 0 then None else Some (Z.sgn y * (x mod Z.abs y)).

Definition smt_denote (op : z3op) (vs : list value) : option value :=
  match op with
  | Bvneg => match vs with [VBV w x] => Some (VBV w (wrap w (- x))) | _ => None end
  | Bvnot => match vs with [VBV w x] => Some (VBV w (2 ^ w - 1 - x)) | _ => None end
  | Bvadd => bv_arith (λ w x y, wrap w (x + y)) vs
  | Bvsub => bv_arith (λ w x y, wrap w (x - y)) vs
  | Bvmul => bv_arith (λ w x y, wrap w (x * y)) vs
  | Bvudiv => bv_arith bv_udiv vs
  | Bvsdiv => bv_arith bv_sdiv vs
  | Bvurem => bv_arith bv_urem vs
  | Bvsrem => bv_arith bv_srem vs
  | Bvshl => bv_arith bv_shl vs
  | Bvlshr => bv_arith bv_lshr vs
  | Bvashr => bv_arith bv_ashr vs
  | Bvand => bv_arith (λ _, Z.land) vs
  | Bvor => bv_arith (λ _, Z.lor) vs
  | Bvxor => bv_arith (λ _, Z.lxor) vs
  | Bvslt => bv_rel (λ w x y, sgn w x <? sgn w y) vs
  | Bvsle => bv_rel (λ w x y, sgn w x <=? sgn w y) vs
  | Bvsgt => bv_rel (λ w x y, sgn w y <? sgn w x) vs
  | Bvsge => bv_rel (λ w x y, sgn w y <=? sgn w x) vs
  | Bvult => bv_rel (λ _ x y, x <? y) vs
  | Bvule => bv_rel (λ _ x y, x <=? y) vs
  | Bvugt => bv_rel (λ _ x y, y <? x) vs
  | Bvuge => bv_rel (λ _ x y, y <=? x) vs
  | Eq => match vs with
          | [a; b] => if decide (value_sort a = value_sort b)
                      then Some (VBool (bool_decide (a = b))) else None
          | _ => None
          end
  | Not => match vs with [VBool b] => Some (VBool (negb b)) | _ => None end
  | And => (λ bs, VBool (forallb id bs)) <$> mapM as_bool vs
  | Or => (λ bs, VBool (existsb id bs)) <$> mapM as_bool vs
  | Xor => match vs with [VBool a; VBool b] => Some (VBool (xorb a b)) | _ => None end
  | Ite => match vs with
           | [VBool c; a; b] => if decide (value_sort a = value_sort b)
                                then Some (if c then a else b) else None
           | _ => None
           end
  | Concat => match vs with
              | [VBV wa a; VBV wb b] => Some (VBV (wa + wb) (a * 2 ^ wb + b))
              | _ => None
              end
  | Extract hi lo =>
      match vs with
      | [VBV w x] => if (0 <=? lo) && (lo <=? hi) && (hi <? w)
                     then Some (VBV (hi - lo + 1) (bv_extract hi lo x)) else None
      | _ => None
      end
  | Sign_ext n =>
      match vs with
      | [VBV w x] => if 0 <=? n then Some (VBV (w + n) (wrap (w + n) (sgn w x))) else None
      | _ => None
      end
  | Zero_ext n =>
      match vs with
      | [VBV w x] => if 0 <=? n then Some (VBV (w + n) x) else None
      | _ => None
      end
  | Bv2int sg => match vs with
                 | [VBV w x] => Some (VInt (if sg then sgn w x else x))
                 | _ => None
                 end
  | Iadd => int_arith (λ x y, Some (x + y)) vs
  | Isub => int_arith (λ x y, Some (x - y)) vs
  | Imul => int_arith (λ x y, Some (x * y)) vs
  | Idiv => int_arith int_div vs
  | Imod => int_arith int_mod vs
  | Irem => int_arith int_rem vs
  | Ilt => int_rel Z.ltb vs
  | Ile => int_rel Z.leb vs
  | Igt => int_rel (λ x y, y <? x) vs
  | Ige => int_rel (λ x y, y <=? x) vs
  | Fpa_add => fp_arith SFadd vs
  | Fpa_sub => fp_arith SFsub vs
  | Fpa_mul => fp_arith SFmul vs
  | Fpa_div => fp_arith SFdiv vs
  | Fpa_abs => match vs with [VFP d x] => Some (VFP d (SFabs x)) | _ => None end
  | Fpa_neg => match vs with [VFP d x] => Some (VFP d (SFopp x)) | _ => None end
  | Fpa_is_nan => match vs with [VFP _ x] => Some (VBool (fp_is_nan x)) | _ => None end
  | Fpa_gt => fp_rel (λ x y, SFltb y x) vs
  | Fpa_geq => fp_rel (λ x y, SFleb y x) vs
  | Fpa_lt => fp_rel SFltb vs
  | Fpa_leq => fp_rel SFleb vs
  | Fpa_eq => fp_rel SFeqb vs
  | Fpa_to_fp_signed d =>
      match vs with [VBV w x] => Some (VFP d (fp_of_Z d (sgn w x))) | _ => None end
  | Fpa_to_fp_unsigned d =>
      match vs with [VBV w x] => Some (VFP d (fp_of_Z d x)) | _ => None end
  | Fpa_to_fp_float d =>
      match vs with [VFP _ x] => Some (VFP d (fp_convert d x)) | _ => None end
  | Fpa_rem | Fpa_to_fp_bv _ | Fpa_to_ieee_bv | Fpa_to_sbv _ | Fpa_to_ubv _ => None
  end.

(** An assignment of values to the symbolic variables (the input bytes), and
    the value of a variable of a given sort. *)
Definition env : Type := string → Z.

Definition env_value (ρ : env) (name : string) (τ : sort) : value :=
  match τ with
  | SBool => VBool (negb (ρ name =? 0))
  | SBV w => VBV w (wrap w (ρ name))
  | SInt => VInt (ρ name)
  | SFP d => VFP d (fp_of_Z d (ρ name))
  end.

(** ** Facts *)
Lemma env_value_sort ρ n τ : value_sort (env_value ρ n τ) = τ.
Proof. by destruct τ. Qed.

Lemma mapM_as_bool vs bs :
  mapM as_bool vs = Some bs → vs = VBool <$> bs.
Proof.
  revert bs. induction vs as [|v vs IH]; intros bs; cbn; [by intros [= <-]|].
  destruct v; cbn; try done. destruct (mapM as_bool vs) eqn:E; cbn; [|done].
  intros [= <-]. cbn. f_equal. by apply IH.
Qed.

Lemma mapM_as_bool_fmap bs : mapM as_bool (VBool <$> bs) = Some bs.
Proof. induction bs as [|b bs IH]; cbn; [done|]. by rewrite IH. Qed.

(** The denotation of an application has the sort [smt_sort] announces. *)
Lemma smt_denote_sort op vs v :
  smt_denote op vs = Some v → smt_sort op (value_sort <$> vs) = Some (value_sort v).
Proof.
  assert (∀ bs, Forall (λ a, a = SBool) (value_sort <$> (VBool <$> bs))) as HB.
  { intros bs. rewrite <-list_fmap_compose. apply Forall_forall.
    intros ? Hx. by apply list_elem_of_fmap in Hx as (?&->&?). }
  intros H. destruct op; cbn in H |- *;
    unfold bv_arith, bv_rel, int_arith, int_rel, fp_arith, fp_rel in H;
    lazymatch type of H with
    | _ <$> mapM as_bool vs = _ =>
        destruct (mapM as_bool vs) as [bs|] eqn:E; [|done]; simplify_eq/=;
        apply mapM_as_bool in E as ->; by rewrite decide_True by apply HB
    | _ => destruct vs as [|[] [|[] [|[] []]]]
    end; simplify_option_eq; repeat case_match; simplify_option_eq; try done.
Qed.

(** ** Operations stay within their bit width *)
Definition sort_wf (τ : sort) : Prop :=
  match τ with SBV w => 0 < w | _ => True end.

Lemma value_wf_sort v : value_wf v → sort_wf (value_sort v).
Proof. destruct v; cbn; [done|intros []; done|done|done]. Qed.

Lemma testbit_high w x i : 0 ≤ w → 0 ≤ x < 2 ^ w → w ≤ i → Z.testbit x i = false.
Proof.
  intros. rewrite <-(Z.mod_small x (2 ^ w)) by done.
  by apply Z.mod_pow2_bits_high.
Qed.

(** A number without bits at or above position [w] is below [2^w]. *)
Lemma bound_of_testbit w x :
  0 ≤ w → (∀ i, w ≤ i → Z.testbit x i = false) → 0 ≤ x < 2 ^ w.
Proof.
  intros Hw Hb. replace x with (x mod 2 ^ w).
  - apply Z.mod_pos_bound, pow2_pos. done.
  - apply Z.bits_inj'. intros i Hi. destruct (decide (i < w)).
    + by apply Z.mod_pow2_bits_low.
    + rewrite Z.mod_pow2_bits_high by lia. symmetry. apply Hb. lia.
Qed.

Section bitwise_bounds.
Variables (w x y : Z).
Hypotheses (Hw : 0 < w) (Hx : 0 ≤ x < 2 ^ w) (Hy : 0 ≤ y < 2 ^ w).

Lemma land_bound : 0 ≤ Z.land x y < 2 ^ w.
Proof.
  apply bound_of_testbit; [lia|]. intros i ?.
  by rewrite Z.land_spec, (testbit_high w x), (testbit_high w y) by lia.
Qed.
Lemma lor_bound : 0 ≤ Z.lor x y < 2 ^ w.
Proof.
  apply bound_of_testbit; [lia|]. intros i ?.
  by rewrite Z.lor_spec, (testbit_high w x), (testbit_high w y) by lia.
Qed.
Lemma lxor_bound : 0 ≤ Z.lxor x y < 2 ^ w.
Proof.
  apply bound_of_testbit; [lia|]. intros i ?.
  by rewrite Z.lxor_spec, (testbit_high w x), (testbit_high w y) by lia.
Qed.
Lemma bv_udiv_bound : 0 ≤ bv_udiv w x y < 2 ^ w.
Proof.
  unfold bv_udiv. destruct (Z.eqb_spec y 0); [lia|]. split.
  - apply Z.div_pos; lia.
  - apply Z.le_lt_trans with x; [|lia]. apply Z.div_le_upper_bound; nia.
Qed.
Lemma bv_urem_bound : 0 ≤ bv_urem w x y < 2 ^ w.
Proof.
  unfold bv_urem. destruct (Z.eqb_spec y 0); [lia|].
  pose proof (Z.mod_pos_bound x y). lia.
Qed.
Lemma bv_sdiv_bound : 0 ≤ bv_sdiv w x y < 2 ^ w.
Proof.
  unfold bv_sdiv. repeat case_match; [apply wrap_bound; lia|lia|apply wrap_bound; lia].
Qed.
Lemma bv_srem_bound : 0 ≤ bv_srem w x y < 2 ^ w.
Proof. unfold bv_srem. case_match; [lia|apply wrap_bound; lia]. Qed.
Lemma bv_shl_bound : 0 ≤ bv_shl w x y < 2 ^ w.
Proof. unfold bv_shl. case_match; [lia|apply wrap_bound; lia]. Qed.
Lemma bv_lshr_bound : 0 ≤ bv_lshr w x y < 2 ^ w.
Proof.
  unfold bv_lshr. case_match; [lia|]. pose proof (pow2_pos y). split.
  - apply Z.div_pos; lia.
  - apply Z.le_lt_trans with x; [|lia]. apply Z.div_le_upper_bound; nia.
Qed.
Lemma bv_ashr_bound : 0 ≤ bv_ashr w x y < 2 ^ w.
Proof. unfold bv_ashr. repeat case_match; [lia|lia|apply wrap_bound; lia]. Qed.
End bitwise_bounds.

Lemma wrap_wf w z : 0 < w → 0 ≤ wrap w z < 2 ^ w.
Proof. intros. apply wrap_bound. lia. Qed.

#[export] Hint Resolve wrap_wf land_bound lor_bound lxor_bound bv_udiv_bound
  bv_urem_bound bv_sdiv_bound bv_srem_bound bv_shl_bound bv_lshr_bound
  bv_ashr_bound : words.

Lemma concat_bound wa wb a b :
  0 < wa → 0 < wb → 0 ≤ a < 2 ^ wa → 0 ≤ b < 2 ^ wb →
  0 ≤ a * 2 ^ wb + b < 2 ^ (wa + wb).
Proof. intros. rewrite pow2_split by lia. nia. Qed.

Lemma bv_arith_wf f vs v :
  (∀ w x y, 0 < w → 0 ≤ x < 2 ^ w → 0 ≤ y < 2 ^ w → 0 ≤ f w x y < 2 ^ w) →
  Forall value_wf vs → bv_arith f vs = Some v → value_wf v.
Proof.
  intros Hf Hvs H. unfold bv_arith in H.
  destruct vs as [|[] [|[] []]]; try done. case_match eqn:E; [|done].
  apply Z.eqb_eq in E as <-. rewrite !Forall_cons in Hvs. cbn in Hvs.
  destruct Hvs as ([??]&[??]&_). simplify_eq. cbn. auto.
Qed.

Lemma smt_denote_wf op vs v :
  Forall value_wf vs → smt_denote op vs = Some v → value_wf v.
Proof.
  intros Hvs H.
  destruct op; cbn in H;
    try (eapply bv_arith_wf; [|exact Hvs|exact H]; cbn; solve [auto with words]);
    unfold bv_rel, int_arith, int_rel, fp_arith, fp_rel in H;
    repeat case_match; simplify_option_eq;
    repeat match goal with H : Forall _ (_ :: _) |- _ => inversion H; subst; clear H end;
    cbn in *; destruct_and?; try done.
  - auto with words.
  - lia.
  - split; [lia|]. apply concat_bound; lia.
  - split; [lia|]. apply Z.mod_pos_bound, pow2_pos. lia.
  - split; [lia|]. apply wrap_wf. lia.
  - split; [lia|]. pose proof (pow2_le w (w + n)). lia.
Qed.

Lemma smt_sort_wf op ss τ :
  Forall sort_wf ss → smt_sort op ss = Some τ → sort_wf τ.
Proof.
  intros Hs H. destruct op; cbn in H; unfold bv_pair, fp_pair in H;
    repeat case_match; simplify_option_eq;
    repeat match goal with H : Forall _ (_ :: _) |- _ => inversion H; subst; clear H end;
    cbn in *; try done; try lia.
  all: destruct is_double; cbn; lia.
Qed.

(** Some value of each sort, for results the standard leaves open. *)
Definition default_value (τ : sort) : value :=
  match τ with
  | SBool => VBool false
  | SBV w => VBV w 0
  | SInt => VInt 0
  | SFP d => VFP d S754_nan
  end.

Lemma default_value_sort τ : value_sort (default_value τ) = τ.
Proof. by destruct τ. Qed.

Lemma default_value_wf τ : sort_wf τ → value_wf (default_value τ).
Proof. destruct τ; cbn; try done. intros. split; [done|]. pose proof (pow2_pos w). lia. Qed.

Lemma env_value_wf ρ n τ : sort_wf τ → value_wf (env_value ρ n τ).
Proof. destruct τ; cbn; try done. intros. split; [done|]. by apply wrap_wf. Qed.
