(* ===== verification/Z3Api.v ===== *)
(** * The solver library (Z3) as an interface

    Z3 is not part of the repository.  [Z3] lists the functions of its C API
    that the simple backend calls, over an abstract type [ast] of terms (the
    handles [Z3_ast]; Z3 shares structurally equal terms, so handle equality
    is decidable), and [Z3Laws] states what their documentation promises:
    every well-sorted application succeeds and has the SMT-LIB meaning of
    [Smt.smt_denote], an ill-sorted one raises an error, [Z3_simplify] keeps
    the meaning.  [Term] is a concrete implementation (plain syntax trees), so
    the laws can hold and the development computes. *)

From S2P Require Import Prelude Smt.
From Stdlib Require Import SpecFloat.

(** Encodings of Booleans and sorts, for countability. *)
Definition bz (b : bool) : Z := if b then 1 else 0.
Definition zb (z : Z) : bool := negb (z =? 0).

Definition sort_code (τ : sort) : Z * Z :=
  match τ with
  | SBool => (0, 0) | SBV w => (1, w) | SInt => (2, 0) | SFP d => (3, bz d)
  end.
Definition sort_decode (c : Z * Z) : sort :=
  match c with
  | (0, _) => SBool | (1, w) => SBV w | (2, _) => SInt | (_, d) => SFP (zb d)
  end.

#[global] Instance sort_countable : Countable sort.
Proof. by apply (inj_countable' sort_code sort_decode); intros [| | |[]]. Defined.

Class Z3 : Type := {
  ast : Type;
  ast_eq_dec :: EqDecision ast;
  ast_countable :: Countable ast;
  (** [Z3_mk op args] is the call [Z3_mk_<op>(ctx, args...)]; [None] when the
      call raises an error and returns no term. *)
  Z3_mk : z3op → list ast → option ast;
  Z3_mk_true : ast;
  Z3_mk_false : ast;
  Z3_mk_numeral : Z → sort → ast;   (* Z3_mk_unsigned_int64, Z3_mk_int *)
  Z3_mk_fpa_numeral_double : spec_float → bool → ast;
  Z3_mk_const : string → sort → ast;
  Z3_simplify : ast → ast;
  Z3_get_sort : ast → sort;
  (** [Z3_solver_check] on the asserted terms: [Some] sat or unsat, [None]
      unknown. *)
  Z3_check : list ast → option bool;
}.

Class Z3Laws (Z : Z3) : Type := {
  Z3_eval : env → ast → value;
  Z3_eval_sort ρ a : value_sort (Z3_eval ρ a) = Z3_get_sort a;
  Z3_eval_wf ρ a : value_wf (Z3_eval ρ a);
  Z3_mk_ok op args τ :
    smt_sort op (Z3_get_sort <$> args) = Some τ → is_Some (Z3_mk op args);
  Z3_mk_bad op args :
    smt_sort op (Z3_get_sort <$> args) = None → Z3_mk op args = None;
  Z3_mk_sort op args e :
    Z3_mk op args = Some e → smt_sort op (Z3_get_sort <$> args) = Some (Z3_get_sort e);
  Z3_mk_eval ρ op args e v :
    Z3_mk op args = Some e →
    smt_denote op (Z3_eval ρ <$> args) = Some v → Z3_eval ρ e = v;
  Z3_true_eval ρ : Z3_eval ρ Z3_mk_true = VBool true;
  Z3_false_eval ρ : Z3_eval ρ Z3_mk_false = VBool false;
  Z3_numeral_eval ρ n w :
    0 < w → Z3_eval ρ (Z3_mk_numeral n (SBV w)) = VBV w (wrap w n);
  Z3_fpa_numeral_eval ρ f d :
    Z3_eval ρ (Z3_mk_fpa_numeral_double f d) = VFP d (fp_convert d f);
  Z3_const_eval ρ n τ :
    sort_wf τ → Z3_eval ρ (Z3_mk_const n τ) = env_value ρ n τ;
  Z3_simplify_eval ρ a : Z3_eval ρ (Z3_simplify a) = Z3_eval ρ a;
  (** A check that answers "satisfiable" has a model. *)
  Z3_check_sat (l : list ast) :
    Z3_check l = Some true → ∃ ρ, Forall (λ a, Z3_eval ρ a = VBool true) l;
  Z3_check_unsat (l : list ast) :
    Z3_check l = Some false → ¬ ∃ ρ, Forall (λ a, Z3_eval ρ a = VBool true) l;
}.

(** ** What the laws give *)
Section laws.
Context `{ZL : Z3Laws}.

Lemma Z3_sorts_eval ρ (args : list ast) : Z3_get_sort <$> args = value_sort <$> (Z3_eval ρ <$> args).
Proof.
  rewrite <-list_fmap_compose. apply list_fmap_ext. intros i a _. cbn.
  by rewrite Z3_eval_sort.
Qed.

(** An application with a denotation succeeds and evaluates to it. *)
Lemma Z3_mk_denote ρ op (args : list ast) v :
  smt_denote op (Z3_eval ρ <$> args) = Some v →
  ∃ e, Z3_mk op args = Some e ∧ Z3_eval ρ e = v.
Proof.
  intros H. pose proof (smt_denote_sort _ _ _ H) as Hs.
  rewrite <-Z3_sorts_eval in Hs. destruct (Z3_mk_ok _ _ _ Hs) as [e He].
  exists e. eauto using Z3_mk_eval.
Qed.

Lemma Z3_mk_ill_sorted ρ op (args : list ast) :
  smt_sort op (value_sort <$> (Z3_eval ρ <$> args)) = None → Z3_mk op args = None.
Proof. intros H. apply Z3_mk_bad. by rewrite (Z3_sorts_eval ρ). Qed.

End laws.

(** ** Terms as syntax trees *)
Module Term.

#[warnings="-register-all"]
Inductive term : Type :=
| TBool (b : bool)
| TNum (n : Z) (w : positive)
| TFp (f : spec_float) (d : bool)
| TConst (name : string) (τ : sort)
| TApp (op : z3op) (args : list term).

(** Sorts of variables, with the width 1 in place of one that is no width. *)
Definition norm_sort (τ : sort) : sort :=
  match τ with SBV w => SBV (if 0 <? w then w else 1) | _ => τ end.

(** Ill-sorted syntax, which [mk] never builds, is given the sort Bool. *)
Fixpoint sort_of (t : term) : sort :=
  match t with
  | TBool _ => SBool
  | TNum _ w => SBV (Zpos w)
  | TFp _ d => SFP d
  | TConst _ τ => norm_sort τ
  | TApp op args => default SBool (smt_sort op (map sort_of args))
  end.

Fixpoint eval (ρ : env) (t : term) : value :=
  match t with
  | TBool b => VBool b
  | TNum n w => VBV (Zpos w) (wrap (Zpos w) n)
  | TFp f d => VFP d (fp_convert d f)
  | TConst n τ => env_value ρ n (norm_sort τ)
  | TApp op args =>
      match smt_denote op (map (eval ρ) args) with
      | Some v => v
      | None => default_value (default SBool (smt_sort op (map sort_of args)))
      end
  end.

Definition mk (op : z3op) (args : list term) : option term :=
  match smt_sort op (sort_of <$> args) with
  | Some _ => Some (TApp op args)
  | None => None
  end.

Definition mk_numeral (n : Z) (τ : sort) : term :=
  match τ with SBV (Zpos w) => TNum n w | _ => TNum n 1 end.

(** Induction over syntax trees, arguments included. *)
Fixpoint term_ind' (P : term → Prop)
  (HB : ∀ b, P (TBool b)) (HN : ∀ n w, P (TNum n w)) (HF : ∀ f d, P (TFp f d))
  (HC : ∀ n τ, P (TConst n τ))
  (HA : ∀ op args, Forall P args → P (TApp op args)) (t : term) : P t :=
  match t with
  | TBool b => HB b
  | TNum n w => HN n w
  | TFp f d => HF f d
  | TConst n τ => HC n τ
  | TApp op args =>
      HA op args ((fix go (l : list term) : Forall P l :=
        match l with
        | [] => Forall_nil_2 P
        | x :: l' => Forall_cons_2 P x l' (term_ind' P HB HN HF HC HA x) (go l')
        end) args)
  end.

#[export] Instance term_eq_dec : EqDecision term.
Proof.
  refine (fix go (x y : term) : Decision (x = y) :=
    match x, y with
    | TBool a, TBool b => cast_if (decide (a = b))
    | TNum n w, TNum n' w' => cast_if_and (decide (n = n')) (decide (w = w'))
    | TFp f d, TFp f' d' => cast_if_and (decide (f = f')) (decide (d = d'))
    | TConst n τ, TConst n' τ' => cast_if_and (decide (n = n')) (decide (τ = τ'))
    | TApp o l, TApp o' l' =>
        cast_if_and (decide (o = o')) (@list_eq_dec _ go l l')
    | _, _ => right _
    end); clear go; abstract intuition congruence.
Defined.

Definition op_code (op : z3op) : Z * Z * Z :=
  match op with
  | Bvneg => (0,0,0) | Bvnot => (1,0,0) | Bvadd => (2,0,0) | Bvsub => (3,0,0)
  | Bvmul => (4,0,0) | Bvudiv => (5,0,0) | Bvsdiv => (6,0,0) | Bvurem => (7,0,0)
  | Bvsrem => (8,0,0) | Bvshl => (9,0,0) | Bvlshr => (10,0,0) | Bvashr => (11,0,0)
  | Bvand => (12,0,0) | Bvor => (13,0,0) | Bvxor => (14,0,0) | Bvslt => (15,0,0)
  | Bvsle => (16,0,0) | Bvsgt => (17,0,0) | Bvsge => (18,0,0) | Bvult => (19,0,0)
  | Bvule => (20,0,0) | Bvugt => (21,0,0) | Bvuge => (22,0,0) | Eq => (23,0,0)
  | Not => (24,0,0) | And => (25,0,0) | Or => (26,0,0) | Xor => (27,0,0)
  | Ite => (28,0,0) | Concat => (29,0,0) | Extract h l => (30,h,l)
  | Sign_ext n => (31,n,0) | Zero_ext n => (32,n,0) | Bv2int b => (33,bz b,0)
  | Iadd => (34,0,0) | Isub => (35,0,0) | Imul => (36,0,0) | Idiv => (37,0,0)
  | Imod => (38,0,0) | Irem => (39,0,0) | Ilt => (40,0,0) | Ile => (41,0,0)
  | Igt => (42,0,0) | Ige => (43,0,0) | Fpa_add => (44,0,0) | Fpa_sub => (45,0,0)
  | Fpa_mul => (46,0,0) | Fpa_div => (47,0,0) | Fpa_rem => (48,0,0)
  | Fpa_abs => (49,0,0) | Fpa_neg => (50,0,0) | Fpa_is_nan => (51,0,0)
  | Fpa_gt => (52,0,0) | Fpa_geq => (53,0,0) | Fpa_lt => (54,0,0)
  | Fpa_leq => (55,0,0) | Fpa_eq => (56,0,0) | Fpa_to_fp_signed d => (57,bz d,0)
  | Fpa_to_fp_unsigned d => (58,bz d,0) | Fpa_to_fp_float d => (59,bz d,0)
  | Fpa_to_fp_bv d => (60,bz d,0) | Fpa_to_ieee_bv => (61,0,0)
  | Fpa_to_sbv n => (62,n,0) | Fpa_to_ubv n => (63,n,0)
  end.

Definition ops0 : list z3op :=
  [Bvneg; Bvnot; Bvadd; Bvsub; Bvmul; Bvudiv; Bvsdiv; Bvurem; Bvsrem; Bvshl;
   Bvlshr; Bvashr; Bvand; Bvor; Bvxor; Bvslt; Bvsle; Bvsgt; Bvsge; Bvult; Bvule;
   Bvugt; Bvuge; Eq; Not; And; Or; Xor; Ite; Concat; Concat; Concat; Concat; Concat;
   Iadd; Isub; Imul; Idiv; Imod; Irem; Ilt; Ile; Igt; Ige; Fpa_add; Fpa_sub;
   Fpa_mul; Fpa_div; Fpa_rem; Fpa_abs; Fpa_neg; Fpa_is_nan; Fpa_gt; Fpa_geq;
   Fpa_lt; Fpa_leq; Fpa_eq].

Definition op_decode (c : Z * Z * Z) : z3op :=
  match c with
  | (30, h, l) => Extract h l
  | (31, n, _) => Sign_ext n
  | (32, n, _) => Zero_ext n
  | (33, b, _) => Bv2int (zb b)
  | (57, d, _) => Fpa_to_fp_signed (zb d)
  | (58, d, _) => Fpa_to_fp_unsigned (zb d)
  | (59, d, _) => Fpa_to_fp_float (zb d)
  | (60, d, _) => Fpa_to_fp_bv (zb d)
  | (61, _, _) => Fpa_to_ieee_bv
  | (62, n, _) => Fpa_to_sbv n
  | (63, n, _) => Fpa_to_ubv n
  | (k, _, _) => nth (Z.to_nat k) ops0 Bvneg
  end.

Lemma op_decode_code op : op_decode (op_code op) = op.
Proof. destruct op as [| | | | | | | | | | | | | | | | | | | | | | | | | | | | | | | | |b| | | | | | | | | | | | | | | | | | | | | | | |b|b|b|b| | |]; try destruct b; reflexivity. Qed.

Definition float_code (f : spec_float) : Z * Z * Z * Z :=
  match f with
  | S754_zero s => (0, bz s, 0, 0)
  | S754_infinity s => (1, bz s, 0, 0)
  | S754_nan => (2, 0, 0, 0)
  | S754_finite s m e => (3, bz s, Zpos m, e)
  end.
Definition float_decode (c : Z * Z * Z * Z) : spec_float :=
  match c with
  | (0, s, _, _) => S754_zero (zb s)
  | (1, s, _, _) => S754_infinity (zb s)
  | (2, _, _, _) => S754_nan
  | (_, s, m, e) => S754_finite (zb s) (Z.to_pos m) e
  end.

(** The leaves of the generic tree that encodes a term. *)
Abbreviation leaf := (bool + (Z * positive) + (Z * Z * Z * Z * bool) + (string * (Z * Z)) + (Z * Z * Z))%type.

Fixpoint term_code (t : term) : gen_tree leaf :=
  match t with
  | TBool b => GenLeaf (inl (inl (inl (inl b))))
  | TNum n w => GenLeaf (inl (inl (inl (inr (n, w)))))
  | TFp f d => GenLeaf (inl (inl (inr (float_code f, d))))
  | TConst n τ => GenLeaf (inl (inr (n, sort_code τ)))
  | TApp op args => GenNode 0 (GenLeaf (inr (op_code op)) :: map term_code args)
  end.

Fixpoint term_decode (g : gen_tree leaf) : term :=
  match g with
  | GenLeaf (inl (inl (inl (inl b)))) => TBool b
  | GenLeaf (inl (inl (inl (inr (n, w))))) => TNum n w
  | GenLeaf (inl (inl (inr (f, d)))) => TFp (float_decode f) d
  | GenLeaf (inl (inr (n, τ))) => TConst n (sort_decode τ)
  | GenNode _ (GenLeaf (inr c) :: args) => TApp (op_decode c) (map term_decode args)
  | _ => TBool false
  end.

Lemma term_decode_code t : term_decode (term_code t) = t.
Proof.
  induction t as [|n w|f d|n τ|op args IH] using term_ind'; cbn.
  - done.
  - done.
  - by destruct f as [[]|[]| |[]]; cbn.
  - by destruct τ as [| | |[]]; cbn.
  - rewrite op_decode_code. f_equal. rewrite map_map.
    induction IH as [|x l Hx _ IHl]; cbn; [done|]. by rewrite Hx, IHl.
Qed.

#[export] Instance term_countable : Countable term.
Proof. apply (inj_countable' term_code term_decode), term_decode_code. Defined.

(** ** The syntax trees satisfy the laws *)
Lemma norm_sort_wf τ : sort_wf (norm_sort τ).
Proof. destruct τ; cbn; try done. destruct (Z.ltb_spec 0 w); cbn; lia. Qed.

Lemma norm_sort_id τ : sort_wf τ → norm_sort τ = τ.
Proof. destruct τ; cbn; try done. intros. by destruct (Z.ltb_spec 0 w); [|lia]. Qed.

Lemma sort_of_wf t : sort_wf (sort_of t).
Proof.
  induction t as [|n w|f d|n τ|op args IH] using term_ind'; try done.
  - apply norm_sort_wf.
  - cbn. destruct (smt_sort op (map sort_of args)) eqn:E; cbn; [|done].
    eapply smt_sort_wf; [|exact E]. clear E. induction IH; cbn; constructor; auto.
Qed.

Lemma eval_wf ρ t : value_wf (eval ρ t).
Proof.
  induction t as [|n w|f d|n τ|op args IH] using term_ind'; try done.
  - cbn. split; [lia|]. apply wrap_wf. lia.
  - cbn. apply env_value_wf, norm_sort_wf.
  - cbn. case_match eqn:E.
    + eapply smt_denote_wf; [|exact E]. clear E. induction IH; cbn; constructor; auto.
    + apply default_value_wf, (sort_of_wf (TApp op args)).
Qed.

Lemma eval_sort ρ t : value_sort (eval ρ t) = sort_of t.
Proof.
  induction t as [|n w|f d|n τ|op args IH] using term_ind'; try done.
  - cbn. apply env_value_sort.
  - cbn. case_match eqn:E; [|apply default_value_sort].
    apply smt_denote_sort in E. replace (map sort_of args) with (value_sort <$> map (eval ρ) args).
    { by rewrite E. }
    clear E. induction IH as [|x l Hx _ IHl]; cbn; [done|]. by rewrite Hx, IHl.
Qed.

(** Terms as an implementation of the library. [check] answers from the
    constant terms alone: unsatisfiable when one of them is false, satisfiable
    when all of them are true, unknown otherwise. *)
Definition check (l : list term) : option bool :=
  if decide (TBool false ∈ l) then Some false
  else if decide (Forall (λ t, t = TBool true) l) then Some true
  else None.

#[export] Instance term_z3 : Z3 := {|
  ast := term;
  Z3_mk := mk;
  Z3_mk_true := TBool true;
  Z3_mk_false := TBool false;
  Z3_mk_numeral := mk_numeral;
  Z3_mk_fpa_numeral_double := TFp;
  Z3_mk_const := TConst;
  Z3_simplify := id;
  Z3_get_sort := sort_of;
  Z3_check := check;
|}.

Lemma mk_spec op args e :
  mk op args = Some e → e = TApp op args.
Proof. unfold mk. case_match; intros; by simplify_eq. Qed.

#[export] Instance term_z3_laws : Z3Laws term_z3.
Proof.
  refine {| Z3_eval := (eval : env → @ast term_z3 → value) |}; cbn.
  - apply eval_sort.
  - apply eval_wf.
  - intros op args τ H. unfold mk. by rewrite H.
  - intros op args H. unfold mk. by rewrite H.
  - intros op args e He. pose proof He as Ee%mk_spec. subst e. unfold mk in He.
    destruct (smt_sort op (sort_of <$> args)) eqn:E; [|done]. change (map sort_of args) with (sort_of <$> args).
    cbn. change (map sort_of args) with (sort_of <$> args). by rewrite E.
  - intros ρ op args e v He Hv. apply mk_spec in He as ->. cbn.
    by change (map (eval ρ) args) with (eval ρ <$> args); rewrite Hv.
  - done.
  - done.
  - intros ρ n w Hw. destruct w; done.
  - done.
  - intros ρ n τ Hτ. by rewrite norm_sort_id.
  - done.
  - intros l H. exists (λ _, 0). unfold check in H. repeat case_decide; simplify_eq.
    eapply Forall_impl; [eassumption|]. by intros ? ->.
  - intros l H [ρ Hρ]. unfold check in H. repeat case_decide; simplify_eq.
    rewrite Forall_forall in Hρ. by specialize (Hρ _ H0).
Defined.

End Term.
