(* ===== verification/Interface.v ===== *)
(** * The interface of a symbolic backend

    Models the part of runtime/include/RuntimeCommon.h that a backend
    implements (backends/simple and backends/qsym) and on which the code
    shared by all backends (RuntimeCommon.cpp, Shadow.h, LibcWrappers.cpp) is
    built: the class [Backend] is the list of functions, the class
    [BackendSpec] the contract of the integer and Boolean builders that the
    shared code relies on.  Clients are verified against the contract;
    SimpleBackend.v proves it for the Z3-based backend.

    [SymExpr] is a possibly null handle.  [rep ρ s h v] says that in backend
    state [s] the handle [h] denotes an expression whose value is [v] when the
    input bytes are given by [ρ]. *)

From S2P Require Import Prelude Smt.
From Stdlib Require Import SpecFloat.

(** The binary expression builders; the constructor names are those of
    [_sym_build_<name>]. *)
Inductive sym_binop : Type :=
| B_add | B_sub | B_mul | B_unsigned_div | B_signed_div | B_unsigned_rem
| B_signed_rem | B_shift_left | B_logical_shift_right | B_arithmetic_shift_right
| B_signed_less_than | B_signed_less_equal | B_signed_greater_than
| B_signed_greater_equal | B_unsigned_less_than | B_unsigned_less_equal
| B_unsigned_greater_than | B_unsigned_greater_equal | B_equal | B_not_equal
| B_and | B_or | B_xor | B_bool_and | B_bool_or | B_bool_xor.

Class Backend : Type := {
  handle : Type;
  handle_eq_dec :: EqDecision handle;
  handle_countable :: Countable handle;
  (** The global state of the backend. *)
  bstate : Type;
  _sym_build_integer : Z → Z → M bstate (option handle);
  _sym_build_bool : bool → M bstate (option handle);
  sym_build_binary : sym_binop → option handle → option handle → M bstate (option handle);
  _sym_build_neg : option handle → M bstate (option handle);
  _sym_build_not : option handle → M bstate (option handle);
  _sym_build_ite : option handle → option handle → option handle → M bstate (option handle);
  _sym_build_sext : option handle → Z → M bstate (option handle);
  _sym_build_zext : option handle → Z → M bstate (option handle);
  _sym_build_trunc : option handle → Z → M bstate (option handle);
  _sym_build_bool_to_bit : option handle → M bstate (option handle);
  _sym_concat_helper : option handle → option handle → M bstate (option handle);
  _sym_extract_helper : option handle → Z → Z → M bstate (option handle);
  _sym_bits_helper : option handle → M bstate Z;
  _sym_push_path_constraint : option handle → bool → Z → M bstate unit;
  _sym_get_input_byte : Z → Z → M bstate (option handle);
  _sym_get_input_byte_with_prefix : string → Z → Z → M bstate (option handle);
  _sym_get_integer : string → M bstate (option handle);
}.

Abbreviation SymExpr := (option handle).

Section builders.
Context {B : Backend}.
Definition _sym_build_add := sym_build_binary B_add.
Definition _sym_build_sub := sym_build_binary B_sub.
Definition _sym_build_mul := sym_build_binary B_mul.
Definition _sym_build_unsigned_rem := sym_build_binary B_unsigned_rem.
Definition _sym_build_shift_left := sym_build_binary B_shift_left.
Definition _sym_build_logical_shift_right := sym_build_binary B_logical_shift_right.
Definition _sym_build_arithmetic_shift_right := sym_build_binary B_arithmetic_shift_right.
Definition _sym_build_signed_less_equal := sym_build_binary B_signed_less_equal.
Definition _sym_build_signed_greater_equal := sym_build_binary B_signed_greater_equal.
Definition _sym_build_unsigned_greater_equal := sym_build_binary B_unsigned_greater_equal.
Definition _sym_build_equal := sym_build_binary B_equal.
Definition _sym_build_not_equal := sym_build_binary B_not_equal.
Definition _sym_build_bool_and := sym_build_binary B_bool_and.
End builders.

(** The meaning the interface gives to each binary builder. *)
Definition binop_sem (op : sym_binop) (u v : value) : option value :=
  let arith f := match u, v with
                 | VBV w x, VBV w' y => if w =? w' then Some (VBV w (f w x y)) else None
                 | _, _ => None
                 end in
  let rel f := match u, v with
               | VBV w x, VBV w' y => if w =? w' then Some (VBool (f w x y)) else None
               | _, _ => None
               end in
  let bool2 f := match u, v with
                 | VBool a, VBool b => Some (VBool (f a b))
                 | _, _ => None
                 end in
  match op with
  | B_add => arith (λ w x y, wrap w (x + y))
  | B_sub => arith (λ w x y, wrap w (x - y))
  | B_mul => arith (λ w x y, wrap w (x * y))
  | B_unsigned_div => arith bv_udiv
  | B_signed_div => arith bv_sdiv
  | B_unsigned_rem => arith bv_urem
  | B_signed_rem => arith bv_srem
  | B_shift_left => arith bv_shl
  | B_logical_shift_right => arith bv_lshr
  | B_arithmetic_shift_right => arith bv_ashr
  | B_signed_less_than => rel (λ w x y, sgn w x <? sgn w y)
  | B_signed_less_equal => rel (λ w x y, sgn w x <=? sgn w y)
  | B_signed_greater_than => rel (λ w x y, sgn w y <? sgn w x)
  | B_signed_greater_equal => rel (λ w x y, sgn w y <=? sgn w x)
  | B_unsigned_less_than => rel (λ _ x y, x <? y)
  | B_unsigned_less_equal => rel (λ _ x y, x <=? y)
  | B_unsigned_greater_than => rel (λ _ x y, y <? x)
  | B_unsigned_greater_equal => rel (λ _ x y, y <=? x)
  | B_equal => if decide (value_sort u = value_sort v)
               then Some (VBool (bool_decide (u = v))) else None
  | B_not_equal => if decide (value_sort u = value_sort v)
                   then Some (VBool (negb (bool_decide (u = v)))) else None
  | B_and => arith (λ _, Z.land)
  | B_or => arith (λ _, Z.lor)
  | B_xor => arith (λ _, Z.lxor)
  | B_bool_and => bool2 andb
  | B_bool_or => bool2 orb
  | B_bool_xor => bool2 xorb
  end.

(** [m], run in [s], returns a value and a state related by [P]; the backend
    invariant is kept and earlier expressions keep their meaning. *)
Definition returns {S A} (inv : S → Prop) (ext : S → S → Prop)
    (m : M S A) (s : S) (P : A → S → Prop) : Prop :=
  ∃ a s', m s = Ok a s' ∧ inv s' ∧ ext s s' ∧ P a s'.

Class BackendSpec (B : Backend) : Type := {
  binv : bstate → Prop;
  rep : env → bstate → handle → value → Prop;
  bext : bstate → bstate → Prop;
  bext_preorder :: PreOrder bext;
  rep_mono ρ s s' h v : bext s s' → rep ρ s h v → rep ρ s' h v;
  rep_wf ρ s h v : rep ρ s h v → value_wf v;
  rep_fun ρ s h v v' : rep ρ s h v → rep ρ s h v' → v = v';

  build_integer_spec ρ s value bits :
    binv s → 0 < bits < 2 ^ 8 →
    returns binv bext (_sym_build_integer value bits) s
      (λ e s', ∃ h, e = Some h ∧ rep ρ s' h (VBV bits (wrap bits (u64 value))));
  build_bool_spec ρ s b :
    binv s →
    returns binv bext (_sym_build_bool b) s
      (λ e s', ∃ h, e = Some h ∧ rep ρ s' h (VBool b));
  build_binary_spec ρ s op a b u v r :
    binv s → rep ρ s a u → rep ρ s b v → binop_sem op u v = Some r →
    returns binv bext (sym_build_binary op (Some a) (Some b)) s
      (λ e s', ∃ h, e = Some h ∧ rep ρ s' h r);
  build_ite_spec ρ s c a b bv u v :
    binv s → rep ρ s c (VBool bv) → rep ρ s a u → rep ρ s b v →
    value_sort u = value_sort v →
    returns binv bext (_sym_build_ite (Some c) (Some a) (Some b)) s
      (λ e s', ∃ h, e = Some h ∧ rep ρ s' h (if bv then u else v));
  build_sext_spec ρ s a w x k :
    binv s → rep ρ s a (VBV w x) → 0 ≤ k < 2 ^ 8 →
    returns binv bext (_sym_build_sext (Some a) k) s
      (λ e s', ∃ h, e = Some h ∧ rep ρ s' h (VBV (w + k) (wrap (w + k) (sgn w x))));
  build_zext_spec ρ s a w x k :
    binv s → rep ρ s a (VBV w x) → 0 ≤ k < 2 ^ 8 →
    returns binv bext (_sym_build_zext (Some a) k) s
      (λ e s', ∃ h, e = Some h ∧ rep ρ s' h (VBV (w + k) x));
  build_trunc_spec ρ s a w x k :
    binv s → rep ρ s a (VBV w x) → 0 < k < 2 ^ 8 → k ≤ w →
    returns binv bext (_sym_build_trunc (Some a) k) s
      (λ e s', ∃ h, e = Some h ∧ rep ρ s' h (VBV k (wrap k x)));
  build_bool_to_bit_spec ρ s a b :
    binv s → rep ρ s a (VBool b) →
    returns binv bext (_sym_build_bool_to_bit (Some a)) s
      (λ e s', ∃ h, e = Some h ∧ rep ρ s' h (VBV 1 (if b then 1 else 0)));
  concat_helper_spec ρ s a b wa wb x y :
    binv s → rep ρ s a (VBV wa x) → rep ρ s b (VBV wb y) →
    returns binv bext (_sym_concat_helper (Some a) (Some b)) s
      (λ e s', ∃ h, e = Some h ∧ rep ρ s' h (VBV (wa + wb) (x * 2 ^ wb + y)));
  extract_helper_spec ρ s a w x hi lo :
    binv s → rep ρ s a (VBV w x) → 0 ≤ lo ≤ hi → hi < w → w < 2 ^ 32 →
    returns binv bext (_sym_extract_helper (Some a) hi lo) s
      (λ e s', ∃ h, e = Some h ∧ rep ρ s' h (VBV (hi - lo + 1) (bv_extract hi lo x)));
  bits_helper_spec ρ s a w x :
    binv s → rep ρ s a (VBV w x) →
    returns binv bext (_sym_bits_helper (Some a)) s (λ n s', n = w);
  (** The casts, which the compiler pass applies to unchecked values, map null
      to null. *)
  build_cast_null s k :
    binv s →
    _sym_build_sext None k s = Ok None s ∧ _sym_build_zext None k s = Ok None s ∧
    _sym_build_trunc None k s = Ok None s ∧ _sym_build_bool_to_bit None s = Ok None s;
  push_path_constraint_spec s c taken site :
    binv s →
    (c = None ∨ ∃ ρ h b, c = Some h ∧ rep ρ s h (VBool b)) →
    returns binv bext (_sym_push_path_constraint c taken site) s (λ _ _, True);
}.

(** The input of the program as a sequence of 8-bit variables: [input_name i]
    is the variable of byte [i], and [inputs_read s n] says that the first [n]
    bytes, and no others, have been requested. *)
Class InputSpec (B : Backend) (BS : BackendSpec B) : Type := {
  input_name : nat → string;
  inputs_read : bstate → Z → Prop;
  input_name_inj i j : input_name i = input_name j → i = j;
  get_input_byte_spec ρ s n offset v :
    binv s → inputs_read s n → 0 ≤ offset ≤ n →
    returns binv bext (_sym_get_input_byte offset v) s (λ e s',
      (∃ h, e = Some h ∧ rep ρ s' h (VBV 8 (wrap 8 (ρ (input_name (Z.to_nat offset)))))) ∧
      inputs_read s' (Z.max n (offset + 1)));
  inputs_read_mono s s' n :
    bext s s' → inputs_read s n → ∃ n', n ≤ n' ∧ inputs_read s' n';
}.

(** ** Reasoning about sequences of builder calls *)
Section logic.
Context {B : Backend} {BS : BackendSpec B}.
Implicit Types (s : bstate) (ρ : env).

(** [m] builds an expression with value [v]. *)
Definition builds ρ (m : M bstate SymExpr) s (v : value) : Prop :=
  returns binv bext m s (λ e s', ∃ h, e = Some h ∧ rep ρ s' h v).

Lemma returns_ret {A} (a : A) s (P : A → bstate → Prop) :
  binv s → P a s → returns binv bext (ret a) s P.
Proof. intros. exists a, s. split_and!; done || reflexivity. Qed.

Lemma returns_bind {A C} (m : M bstate A) (k : A → M bstate C) s P Q :
  returns binv bext m s P →
  (∀ a s', binv s' → bext s s' → P a s' → returns binv bext (k a) s' Q) →
  returns binv bext (bind m k) s Q.
Proof.
  intros (a&s1&E1&I1&X1&HP) Hk. destruct (Hk a s1 I1 X1 HP) as (c&s2&E2&I2&X2&HQ).
  exists c, s2. rewrite (bind_Ok _ _ _ _ _ E1). split_and!; try done.
  by etransitivity.
Qed.

Lemma returns_bind_ret {A C} (a : A) (k : A → M bstate C) s Q :
  returns binv bext (k a) s Q → returns binv bext (bind (ret a) k) s Q.
Proof. done. Qed.

Lemma returns_assert {C} cond what (k : M bstate C) s Q :
  cond = true → returns binv bext k s Q →
  returns binv bext (assert_ cond what ;;; k) s Q.
Proof. by intros ->. Qed.

Lemma returns_impl {A} (m : M bstate A) s (P Q : A → bstate → Prop) :
  returns binv bext m s P → (∀ a s', bext s s' → P a s' → Q a s') →
  returns binv bext m s Q.
Proof. intros (a&s1&E1&I1&X1&HP) HQ. exists a, s1. eauto. Qed.

Lemma builds_ret ρ h s v : binv s → rep ρ s h v → builds ρ (ret (Some h)) s v.
Proof. intros. apply returns_ret; eauto. Qed.

Lemma builds_eq ρ m s v v' : builds ρ m s v → v = v' → builds ρ m s v'.
Proof. by intros ? ->. Qed.

(** The rule for a builder call followed by the rest of the computation. *)
Lemma builds_bind {C} ρ (m : M bstate SymExpr) (k : SymExpr → M bstate C) s v Q :
  builds ρ m s v →
  (∀ h s', binv s' → bext s s' → rep ρ s' h v → returns binv bext (k (Some h)) s' Q) →
  returns binv bext (bind m k) s Q.
Proof.
  intros Hm Hk. eapply returns_bind; [exact Hm|].
  intros e s' ? ? (h&->&?). by apply Hk.
Qed.

(** A computation that fails behind calls that return. *)
Lemma returns_bind_Err {A C} (m : M bstate A) (k : A → M bstate C) s P er :
  returns binv bext m s P →
  (∀ a s', binv s' → bext s s' → P a s' → k a s' = Err er) → bind m k s = Err er.
Proof.
  intros (a&s1&E&I&X&HP) Hk. rewrite (bind_Ok _ _ _ _ _ E). by apply Hk.
Qed.

Lemma builds_bind_Err {C} ρ (m : M bstate SymExpr) (k : SymExpr → M bstate C) s v er :
  builds ρ m s v →
  (∀ h s', binv s' → bext s s' → rep ρ s' h v → k (Some h) s' = Err er) → bind m k s = Err er.
Proof.
  intros Hm Hk. eapply returns_bind_Err; [exact Hm|]. intros e s' ? ? (h&->&?). by apply Hk.
Qed.

Lemma rep_bits ρ s h w x : rep ρ s h (VBV w x) → 0 < w ∧ 0 ≤ x < 2 ^ w.
Proof. intros H. exact (rep_wf _ _ _ _ H). Qed.

(** The contracts in the form used by the automation: one per builder. *)
Section contracts.
Variables (ρ : env) (s : bstate) (a b : handle) (w x y : Z).
Hypotheses (Hs : binv s) (Ha : rep ρ s a (VBV w x)) (Hb : rep ρ s b (VBV w y)).

Ltac contract := eapply build_binary_spec; eauto; cbn; by rewrite Z.eqb_refl.

Lemma add_ok : builds ρ (_sym_build_add (Some a) (Some b)) s (VBV w (wrap w (x + y))).
Proof. contract. Qed.
Lemma sub_ok : builds ρ (_sym_build_sub (Some a) (Some b)) s (VBV w (wrap w (x - y))).
Proof. contract. Qed.
Lemma mul_ok : builds ρ (_sym_build_mul (Some a) (Some b)) s (VBV w (wrap w (x * y))).
Proof. contract. Qed.
Lemma shift_left_ok :
  builds ρ (_sym_build_shift_left (Some a) (Some b)) s (VBV w (bv_shl w x y)).
Proof. contract. Qed.
Lemma arithmetic_shift_right_ok :
  builds ρ (_sym_build_arithmetic_shift_right (Some a) (Some b)) s (VBV w (bv_ashr w x y)).
Proof. contract. Qed.
Lemma signed_less_equal_ok :
  builds ρ (_sym_build_signed_less_equal (Some a) (Some b)) s (VBool (sgn w x <=? sgn w y)).
Proof. contract. Qed.
Lemma signed_greater_equal_ok :
  builds ρ (_sym_build_signed_greater_equal (Some a) (Some b)) s (VBool (sgn w y <=? sgn w x)).
Proof. contract. Qed.
Lemma unsigned_greater_equal_ok :
  builds ρ (_sym_build_unsigned_greater_equal (Some a) (Some b)) s (VBool (y <=? x)).
Proof. contract. Qed.
Lemma equal_ok :
  builds ρ (_sym_build_equal (Some a) (Some b)) s (VBool (x =? y)).
Proof.
  eapply builds_eq; [eapply build_binary_spec; eauto; cbn; by rewrite decide_True|].
  f_equal. destruct (Z.eqb_spec x y) as [->|]; [by apply bool_decide_eq_true|].
  apply bool_decide_eq_false. congruence.
Qed.
Lemma not_equal_ok :
  builds ρ (_sym_build_not_equal (Some a) (Some b)) s (VBool (negb (x =? y))).
Proof.
  eapply builds_eq; [eapply build_binary_spec; eauto; cbn; by rewrite decide_True|].
  do 2 f_equal. destruct (Z.eqb_spec x y) as [->|]; [by apply bool_decide_eq_true|].
  apply bool_decide_eq_false. congruence.
Qed.
Lemma sext_ok k :
  0 ≤ k < 2 ^ 8 →
  builds ρ (_sym_build_sext (Some a) k) s (VBV (w + k) (wrap (w + k) (sgn w x))).
Proof. intros. by apply build_sext_spec. Qed.
Lemma zext_ok k : 0 ≤ k < 2 ^ 8 → builds ρ (_sym_build_zext (Some a) k) s (VBV (w + k) x).
Proof. intros. by apply build_zext_spec. Qed.
Lemma extract_ok hi lo :
  0 ≤ lo ≤ hi → hi < w → w < 2 ^ 32 →
  builds ρ (_sym_extract_helper (Some a) hi lo) s
    (VBV (hi - lo + 1) (bv_extract hi lo x)).
Proof. intros. by eapply extract_helper_spec. Qed.
End contracts.

Lemma integer_ok ρ s v bits :
  binv s → 0 < bits < 2 ^ 8 →
  builds ρ (_sym_build_integer v bits) s (VBV bits (wrap bits (u64 v))).
Proof. intros. by apply build_integer_spec. Qed.

Lemma ite_ok ρ s c a b (t : bool) u v :
  binv s → rep ρ s c (VBool t) → rep ρ s a u → rep ρ s b v →
  value_sort u = value_sort v →
  builds ρ (_sym_build_ite (Some c) (Some a) (Some b)) s (if t then u else v).
Proof. intros. by apply build_ite_spec. Qed.

End logic.

Create HintDb sym.
#[export] Hint Resolve add_ok sub_ok mul_ok shift_left_ok arithmetic_shift_right_ok
  signed_less_equal_ok signed_greater_equal_ok unsigned_greater_equal_ok
  equal_ok not_equal_ok sext_ok zext_ok extract_ok integer_ok ite_ok builds_ret : sym.
#[export] Hint Extern 4 (_ ≤ _ < _) => lia : sym.
#[export] Hint Extern 4 (_ < _ < _) => lia : sym.
#[export] Hint Extern 4 (_ ≤ _ ≤ _) => lia : sym.
#[export] Hint Extern 4 (_ < _) => lia : sym.
#[export] Hint Extern 4 (value_sort _ = value_sort _) =>
  first [reflexivity|repeat case_match; reflexivity] : sym.

(** Carries the representation facts of the context over to the state reached
    by the last call. *)
Ltac sym_mono :=
  repeat match goal with
  | X : bext ?s ?s', H : rep _ ?s _ _ |- _ =>
      lazymatch s with
      | s' => fail
      | _ => apply (rep_mono _ _ _ _ _ X) in H
      end
  end.

(** One builder call: [sym_call lem] applies the contract [lem] of the call at
    the head of the computation and names the expression it returns. *)
Ltac sym_after h :=
  let s := fresh "s" in
  let I := fresh "I" in
  let X := fresh "X" in
  intros h s I X ?; sym_mono; cbn beta iota.

Tactic Notation "sym_call" uconstr(lem) "as" ident(h) :=
  eapply builds_bind; [eapply lem; eauto; try done; try lia|sym_after h].

Tactic Notation "sym_bits" ident(n) :=
  eapply returns_bind;
  [eapply bits_helper_spec; eauto
  |let s := fresh "s" in let I := fresh "I" in let X := fresh "X" in
   intros n s I X ->; sym_mono; cbn beta iota].

(** The next builder call, its contract found in the hint database. *)
Ltac with_env tac :=
  lazymatch goal with
  | |- builds ?r _ _ _ => tac r
  | |- context [rep ?r _ _ _] => tac r
  end.

Tactic Notation "sym_step" ident(h) :=
  with_env ltac:(fun r => eapply (builds_bind r)); [solve [eauto 6 with sym]|sym_after h].

(** The last builder call; leaves the equation between its value and the
    expected one. *)
Ltac sym_last :=
  with_env ltac:(fun r => eapply (builds_eq r)); [solve [eauto 6 with sym]|].
