(* ===== verification/ByteSeq.v ===== *)
(** * Byte sequences

    An expression for [n] bytes of memory is one bit vector of [8 * n] bits
    whose most significant byte describes the first byte.  This file is the
    correspondence between such bit vectors and lists of bytes: [of_be] and
    [to_be] convert, and concatenation and extraction of bits become
    concatenation and slicing of lists. *)

From S2P Require Import Prelude Smt.

Definition is_byte (b : Z) : Prop := 0 ≤ b < 256.
#[global] Instance is_byte_dec b : Decision (is_byte b).
Proof. unfold is_byte. apply _. Defined.

(** Number of bits of a list of bytes. *)
Definition nbits (l : list Z) : Z := 8 * Z.of_nat (length l).

(** The number whose bytes, most significant first, are [l]. *)
Fixpoint of_be (l : list Z) : Z :=
  match l with
  | [] => 0
  | b :: l' => b * 2 ^ nbits l' + of_be l'
  end.

Definition of_le (l : list Z) : Z := of_be (rev l).

(** The [n] low bytes of [x], most significant first. *)
Fixpoint to_be (n : nat) (x : Z) : list Z :=
  match n with
  | O => []
  | S n' => (x / 2 ^ (8 * Z.of_nat n')) mod 256 :: to_be n' x
  end.

Definition to_le (n : nat) (x : Z) : list Z := rev (to_be n x).

(** The value of an expression that describes the bytes [l]. *)
Definition bytes_value (l : list Z) : value := VBV (nbits l) (of_be l).

Definition slice (off len : nat) (l : list Z) : list Z := take len (drop off l).

(** ** Lists and numbers *)
Lemma nbits_nil : nbits [] = 0.
Proof. done. Qed.
Lemma nbits_cons b l : nbits (b :: l) = 8 + nbits l.
Proof. unfold nbits. cbn [length]. lia. Qed.
Lemma nbits_app l k : nbits (l ++ k) = nbits l + nbits k.
Proof. unfold nbits. rewrite length_app. lia. Qed.
Lemma nbits_rev l : nbits (rev l) = nbits l.
Proof. unfold nbits. by rewrite length_rev. Qed.
Lemma nbits_nonneg l : 0 ≤ nbits l.
Proof. unfold nbits. lia. Qed.
#[export] Hint Resolve nbits_nonneg : words.

Lemma of_be_app l k : of_be (l ++ k) = of_be l * 2 ^ nbits k + of_be k.
Proof.
  induction l as [|b l IH]; cbn [of_be app]; [lia|].
  rewrite IH, nbits_app, pow2_split by word. ring.
Qed.

Lemma of_be_single b : of_be [b] = b.
Proof. cbn [of_be]. rewrite nbits_nil, Z.pow_0_r. lia. Qed.

Lemma of_be_snoc l b : of_be (l ++ [b]) = of_be l * 256 + b.
Proof. by rewrite of_be_app, of_be_single. Qed.

Lemma of_be_bound l : Forall is_byte l → 0 ≤ of_be l < 2 ^ nbits l.
Proof.
  induction 1 as [|b l Hb _ IH]; cbn [of_be]; [rewrite nbits_nil; lia|].
  unfold is_byte in Hb. rewrite nbits_cons, pow2_split by word. change (2 ^ 8) with 256. nia.
Qed.

Lemma of_be_zeroes n : of_be (replicate n 0) = 0.
Proof. induction n as [|n IH]; cbn; [done|]. by rewrite IH. Qed.

Lemma length_to_be n x : length (to_be n x) = n.
Proof. induction n; cbn; congruence. Qed.

Lemma nbits_to_be n x : nbits (to_be n x) = 8 * Z.of_nat n.
Proof. unfold nbits. by rewrite length_to_be. Qed.

Lemma to_be_bytes n x : Forall is_byte (to_be n x).
Proof.
  induction n; cbn; constructor; [|done]. unfold is_byte. apply Z.mod_pos_bound. lia.
Qed.

Lemma of_be_to_be n x : of_be (to_be n x) = x mod 2 ^ (8 * Z.of_nat n).
Proof.
  induction n as [|n IH]; cbn [to_be of_be]; [by rewrite Z.mod_1_r|].
  rewrite IH, nbits_to_be. rewrite Nat2Z.inj_succ.
  replace (8 * Z.succ (Z.of_nat n)) with (8 * Z.of_nat n + 8) by lia.
  rewrite pow2_split by lia. rewrite Z.rem_mul_r; [|lia..].
  change (2 ^ 8) with 256. lia.
Qed.


(** The low bytes do not see what lies above them. *)
Lemma to_be_low n a x :
  to_be n (a * 2 ^ (8 * Z.of_nat n) + x) = to_be n x.
Proof.
  assert (∀ m, (m ≤ n)%nat → to_be m (a * 2 ^ (8 * Z.of_nat n) + x) = to_be m x) as H;
    [|by apply H].
  induction m as [|m IH]; intros Hm; cbn [to_be]; [done|].
  rewrite IH by lia. f_equal.
  replace (8 * Z.of_nat n) with ((8 * (Z.of_nat n - Z.of_nat m - 1) + 8) + 8 * Z.of_nat m) by lia.
  rewrite !pow2_split by lia. rewrite !Z.mul_assoc, Z.add_comm, Z.div_add by lia.
  change (2 ^ 8) with 256. by rewrite Z.mod_add by lia.
Qed.

Lemma to_be_of_be l : Forall is_byte l → to_be (length l) (of_be l) = l.
Proof.
  induction 1 as [|b l Hb Hl IH]; cbn [length to_be of_be]; [done|].
  pose proof (of_be_bound l Hl). unfold nbits in *. f_equal.
  - rewrite Z.add_comm, Z.div_add by lia. rewrite Z.div_small by lia.
    apply Z.mod_small. unfold is_byte in Hb. lia.
  - by rewrite to_be_low.
Qed.

Lemma length_slice off len l :
  (off + len ≤ length l)%nat → length (slice off len l) = len.
Proof. intros. unfold slice. rewrite length_take, length_drop. lia. Qed.

Lemma slice_bytes off len l : Forall is_byte l → Forall is_byte (slice off len l).
Proof. intros. unfold slice. auto using Forall_take, Forall_drop. Qed.

Lemma slice_split off len l :
  (off + len ≤ length l)%nat →
  l = take off l ++ slice off len l ++ drop (off + len) l.
Proof.
  intros. unfold slice. rewrite <-drop_drop, take_drop. by rewrite take_drop.
Qed.

Lemma slice_snoc off len l b :
  l !! (off + len)%nat = Some b → slice off (S len) l = slice off len l ++ [b].
Proof. intros H. unfold slice. apply take_S_r. by rewrite lookup_drop. Qed.

Lemma slice_all l : slice 0 (length l) l = l.
Proof. unfold slice. by rewrite drop_0, take_ge. Qed.

(** Bits of the number are bytes of the list. *)
Lemma bv_extract_slice off len l :
  Forall is_byte l → (off + len ≤ length l)%nat →
  bv_extract (nbits l - 8 * Z.of_nat off - 1) (nbits l - 8 * Z.of_nat (off + len)) (of_be l)
  = of_be (slice off len l).
Proof.
  intros Hl Hlen. rewrite (slice_split off len l) at 3 by done.
  assert (Forall is_byte (slice off len l)) as Hs by by apply slice_bytes.
  assert (Forall is_byte (drop (off + len) l)) as Hd by by apply Forall_drop.
  apply of_be_bound in Hs, Hd.
  assert (nbits (drop (off + len) l) = nbits l - 8 * Z.of_nat (off + len)) as E1.
  { unfold nbits. rewrite length_drop. lia. }
  assert (nbits (slice off len l) = 8 * Z.of_nat len) as E2.
  { unfold nbits. by rewrite length_slice. }
  unfold bv_extract. rewrite !of_be_app, nbits_app.
  rewrite E1 in *. rewrite E2 in *.
  replace (nbits l - 8 * Z.of_nat off - 1 - (nbits l - 8 * Z.of_nat (off + len)) + 1)
    with (8 * Z.of_nat len) by lia.
  assert (0 ≤ nbits l - 8 * Z.of_nat (off + len)) by (unfold nbits; lia).
  rewrite (Z.add_comm (8 * Z.of_nat len)), pow2_split by lia.
  set (p := 2 ^ (nbits l - 8 * Z.of_nat (off + len))) in *.
  replace (of_be (take off l) * (p * 2 ^ (8 * Z.of_nat len)) + (of_be (slice off len l) * p + of_be (drop (off + len) l)))
    with (of_be (drop (off + len) l) + (of_be (slice off len l) + of_be (take off l) * 2 ^ (8 * Z.of_nat len)) * p) by ring.
  rewrite Z.div_add by lia. rewrite Z.div_small by lia. rewrite Z.add_0_l.
  rewrite Z.mod_add by lia. by apply Z.mod_small.
Qed.

Lemma bytes_value_to_be n x :
  0 ≤ x < 2 ^ (8 * Z.of_nat n) → bytes_value (to_be n x) = VBV (8 * Z.of_nat n) x.
Proof.
  intros. unfold bytes_value. rewrite nbits_to_be, of_be_to_be. by rewrite Z.mod_small.
Qed.

Lemma bytes_value_byte b : bytes_value [b] = VBV 8 b.
Proof. unfold bytes_value. by rewrite of_be_single. Qed.

Lemma bytes_value_zeroes n : bytes_value (replicate n 0) = VBV (8 * Z.of_nat n) 0.
Proof. unfold bytes_value, nbits. by rewrite of_be_zeroes, length_replicate. Qed.

(** The byte sequence of a value is determined by the value. *)
Lemma bytes_value_inj l k :
  Forall is_byte l → Forall is_byte k → bytes_value l = bytes_value k → l = k.
Proof.
  intros Hl Hk [= Hn Hv]. unfold nbits in Hn.
  rewrite <-(to_be_of_be l), <-(to_be_of_be k) by done. rewrite Hv. f_equal. lia.
Qed.

#[export] Hint Resolve to_be_bytes slice_bytes : words.

Lemma of_le_snoc l b : of_le (l ++ [b]) = b * 2 ^ nbits l + of_le l.
Proof. unfold of_le. rewrite rev_app_distr. cbn [rev app of_be]. by rewrite nbits_rev. Qed.

Lemma rev_bytes l : Forall is_byte l → Forall is_byte (rev l).
Proof. intros. by apply Forall_rev. Qed.
#[export] Hint Resolve rev_bytes : words.
