(* ===== verification/BitArrays.v ===== *)
(** * Bit arrays: aggregates as byte sequences

    Models the byte-level builders of runtime/src/RuntimeCommon.cpp:
    [_sym_build_extract], [_sym_build_insert], [_sym_build_bswap],
    [_sym_build_zero_bytes] and [buildOverflowResult].  An aggregate is a bit
    vector describing its bytes in memory order; the theorems state the
    functions on lists of bytes ([ByteSeq.bytes_value]). *)

From S2P Require Import Prelude Smt Interface ByteSeq.

Section defs.
Context {B : Backend}.

Definition _sym_build_extract (expr : SymExpr) (offset length : Z)
    (little_endian : bool) : M bstate SymExpr :=
  totalBits <- _sym_bits_helper expr ;;
  assert_ (totalBits mod 8 =? 0) "Aggregate type contains partial bytes" ;;;
  if little_endian then
    result <- _sym_extract_helper expr (u64 (totalBits - offset * 8 - 1))
                (u64 (totalBits - offset * 8 - 8)) ;;
    for_ (Z.to_nat (length - 1)) 1 (λ i result,
      byte <- _sym_extract_helper expr
                (u64 (totalBits - (offset + i) * 8 - 1))
                (u64 (totalBits - (offset + i + 1) * 8)) ;;
      _sym_concat_helper byte result) result
  else
    _sym_extract_helper expr (u64 (totalBits - offset * 8 - 1))
      (u64 (totalBits - (offset + length) * 8)).

Definition _sym_build_bswap (expr : SymExpr) : M bstate SymExpr :=
  bits <- _sym_bits_helper expr ;;
  assert_ (bits mod 16 =? 0) "bswap is not applicable" ;;;
  _sym_build_extract expr 0 (bits / 8) true.

Definition _sym_build_insert (target to_insert : SymExpr) (offset : Z)
    (little_endian : bool) : M bstate SymExpr :=
  bitsToInsert <- _sym_bits_helper to_insert ;;
  assert_ (bitsToInsert mod 8 =? 0) "Expression to insert contains partial bytes" ;;;
  beforeInsert <- (if offset =? 0 then ret None
                   else _sym_build_extract target 0 offset false) ;;
  newPiece <- (if little_endian && (8 <? bitsToInsert)
               then _sym_build_bswap to_insert else ret to_insert) ;;
  targetBits <- _sym_bits_helper target ;;
  let afterLen := u64 (targetBits / 8 - offset - bitsToInsert / 8) in
  afterInsert <- (if afterLen =? 0 then ret None
                  else _sym_build_extract target (u64 (offset + bitsToInsert / 8))
                         afterLen false) ;;
  result <- (match beforeInsert with
             | None => ret newPiece
             | Some _ => _sym_concat_helper beforeInsert newPiece
             end) ;;
  match afterInsert with
  | None => ret result
  | Some _ => _sym_concat_helper result afterInsert
  end.

Definition _sym_build_zero_bytes (length : Z) : M bstate SymExpr :=
  zero_byte <- _sym_build_integer 0 8 ;;
  for_ (Z.to_nat (length - 1)) 1 (λ _ result, _sym_concat_helper result zero_byte)
    zero_byte.

Definition buildOverflowResult (result_expr overflow : SymExpr)
    (little_endian : bool) : M bstate SymExpr :=
  result_bits <- _sym_bits_helper result_expr ;;
  assert_ (result_bits mod 8 =? 0)
    "Arithmetic with overflow on integers of invalid length" ;;;
  result_expr_mem <- (if little_endian then _sym_build_bswap result_expr
                      else ret result_expr) ;;
  overflow_byte <- (bit <- _sym_build_bool_to_bit overflow ;;
                    _sym_build_zext bit 7) ;;
  if result_bits =? 8 then _sym_concat_helper result_expr_mem overflow_byte
  else
    padding <- _sym_build_zero_bytes (result_bits / 8 - 1) ;;
    tail <- (if little_endian then _sym_concat_helper overflow_byte padding
             else _sym_concat_helper padding overflow_byte) ;;
    _sym_concat_helper result_expr_mem tail.

End defs.

(** The loops and branches of the code are kept by the contracts below. *)
Section proofs.
Context {B : Backend} {BS : BackendSpec B}.
Implicit Types (s : bstate) (ρ : env) (l : list Z).

Lemma nbits_mod8 l : nbits l mod 8 = 0.
Proof. unfold nbits. rewrite Z.mul_comm. apply Z.mod_mul. lia. Qed.

(** Concatenating the expressions of two byte sequences. *)
Lemma concat_bytes ρ s a b l k :
  binv s → rep ρ s a (bytes_value l) → rep ρ s b (bytes_value k) →
  builds ρ (_sym_concat_helper (Some a) (Some b)) s (bytes_value (l ++ k)).
Proof.
  intros. eapply builds_eq; [by apply concat_helper_spec|].
  unfold bytes_value. by rewrite nbits_app, of_be_app.
Qed.

(** Extracting whole bytes. *)
Lemma extract_bytes ρ s a l off len :
  binv s → Forall is_byte l → rep ρ s a (bytes_value l) → nbits l < 2 ^ 32 →
  (0 < len)%nat → (off + len ≤ length l)%nat →
  builds ρ (_sym_extract_helper (Some a) (u64 (nbits l - Z.of_nat off * 8 - 1))
              (u64 (nbits l - (Z.of_nat off + Z.of_nat len) * 8))) s
    (bytes_value (slice off len l)).
Proof.
  intros ? Hl ? Hn ??. assert (nbits l = 8 * Z.of_nat (length l)) as El by done.
  rewrite !u64_small by lia. eapply builds_eq.
  - apply extract_helper_spec with (w := nbits l) (x := of_be l) (ρ := ρ); try done; lia.
  - unfold bytes_value. rewrite <-bv_extract_slice by done. f_equal.
    + unfold nbits at 3. rewrite length_slice by done. lia.
    + f_equal; lia.
Qed.

(** A single byte. *)
Lemma extract_byte ρ s a l off b :
  binv s → Forall is_byte l → rep ρ s a (bytes_value l) → nbits l < 2 ^ 32 →
  l !! off = Some b →
  builds ρ (_sym_extract_helper (Some a) (u64 (nbits l - Z.of_nat off * 8 - 1))
              (u64 (nbits l - (Z.of_nat off + 1) * 8))) s (bytes_value [b]).
Proof.
  intros ???? Hb. pose proof (lookup_lt_Some _ _ _ Hb).
  eapply builds_eq; [apply (extract_bytes ρ s a l off 1); auto; lia|].
  unfold slice. by rewrite (drop_S _ _ _ Hb).
Qed.

(** The little-endian loop: each round prepends the next byte. *)
Lemma extract_loop ρ a l off n m s r :
  binv s → Forall is_byte l → rep ρ s a (bytes_value l) → nbits l < 2 ^ 32 →
  (0 < m)%nat → (off + m + n ≤ length l)%nat →
  rep ρ s r (bytes_value (rev (slice off m l))) →
  builds ρ (for_ n (Z.of_nat m) (λ i result,
      byte <- _sym_extract_helper (Some a)
                (u64 (nbits l - (Z.of_nat off + i) * 8 - 1))
                (u64 (nbits l - (Z.of_nat off + i + 1) * 8)) ;;
      _sym_concat_helper byte result) (Some r)) s
    (bytes_value (rev (slice off (m + n) l))).
Proof.
  revert m s r. induction n as [|n IH]; intros m s r ? ? ? ? ? ? Hr; cbn [for_].
  - rewrite Nat.add_0_r. by apply builds_ret.
  - destruct (lookup_lt_is_Some_2 l (off + m)) as [b Hb]; [lia|].
    eapply builds_bind.
    + eapply builds_bind.
      * eapply builds_eq; [|reflexivity].
        replace (Z.of_nat off + Z.of_nat m) with (Z.of_nat (off + m)) by lia.
        by apply (extract_byte ρ s a l (off + m) b).
      * intros h s' ???; sym_mono. by apply (concat_bytes ρ s' h r [b]).
    + intros h s' ???; sym_mono.
      replace (Z.of_nat m + 1) with (Z.of_nat (S m)) by lia.
      replace (m + S n)%nat with (S m + n)%nat by lia.
      apply IH; try done; try lia.
      rewrite (slice_snoc _ _ _ b), rev_app_distr by done. done.
Qed.

(** [_sym_build_extract] selects [len] bytes at offset [off], in reverse order
    when the element is little-endian. *)
Lemma build_extract_bytes ρ s a l off len le :
  binv s → Forall is_byte l → rep ρ s a (bytes_value l) → nbits l < 2 ^ 32 →
  (0 < len)%nat → (off + len ≤ length l)%nat →
  builds ρ (_sym_build_extract (Some a) (Z.of_nat off) (Z.of_nat len) le) s
    (bytes_value (if le then rev (slice off len l) else slice off len l)).
Proof.
  intros ??????. unfold _sym_build_extract. sym_bits n.
  apply returns_assert; [by rewrite nbits_mod8|]. rename s0 into s1. destruct le.
  - destruct (lookup_lt_is_Some_2 l off) as [b Hb]; [lia|].
    eapply builds_bind.
    + replace (nbits l - Z.of_nat off * 8 - 8)
        with (nbits l - (Z.of_nat off + 1) * 8) by lia.
      by apply (extract_byte ρ s1 a l off b).
    + intros h s' ???; sym_mono.
      replace (Z.to_nat (Z.of_nat len - 1)) with (len - 1)%nat by lia.
      eapply builds_eq; [apply (extract_loop ρ a l off (len - 1) 1 s' h)|]; try done; try lia.
      * unfold slice. by rewrite (drop_S _ _ _ Hb).
      * by replace (1 + (len - 1))%nat with len by lia.
  - by apply extract_bytes.
Qed.

(** [_sym_build_bswap] reverses the bytes; it accepts an even number of them. *)
Lemma build_bswap_bytes ρ s a l :
  binv s → Forall is_byte l → rep ρ s a (bytes_value l) → nbits l < 2 ^ 32 →
  l ≠ [] → nbits l mod 16 = 0 →
  builds ρ (_sym_build_bswap (Some a)) s (bytes_value (rev l)).
Proof.
  intros ?? Ha ? Hl Hm. unfold _sym_build_bswap. sym_bits n.
  apply returns_assert; [by rewrite Hm|].
  replace (nbits l / 8) with (Z.of_nat (length l)) by (unfold nbits; rewrite Z.mul_comm, Z.div_mul; lia).
  eapply builds_eq; [apply (build_extract_bytes ρ s0 a l 0 (length l) true)|]; try done; try lia.
  - destruct l; [done|]. cbn. lia.
  - by rewrite slice_all.
Qed.

Lemma zero_loop ρ z n m s r :
  binv s → rep ρ s z (VBV 8 0) → rep ρ s r (bytes_value (replicate m 0)) →
  ∀ i, builds ρ (for_ n i (λ _ result, _sym_concat_helper result (Some z)) (Some r)) s
    (bytes_value (replicate (m + n) 0)).
Proof.
  revert m s r. induction n as [|n IH]; intros m s r ? Hz Hr i; cbn [for_].
  - rewrite Nat.add_0_r. by apply builds_ret.
  - rewrite <-(bytes_value_byte 0) in Hz. eapply builds_bind.
    + by apply (concat_bytes ρ s r z (replicate m 0) [0]).
    + intros h s' ???; sym_mono. rewrite bytes_value_byte in *.
      replace (m + S n)%nat with (S m + n)%nat by lia. apply IH; try done.
      by rewrite replicate_S_end.
Qed.

(** [_sym_build_zero_bytes] describes [n] zero bytes (at least one). *)
Lemma build_zero_bytes_spec ρ s n :
  binv s → (0 < n)%nat →
  builds ρ (_sym_build_zero_bytes (Z.of_nat n)) s (bytes_value (replicate n 0)).
Proof.
  intros ??. unfold _sym_build_zero_bytes.
  eapply builds_bind; [by apply (build_integer_spec ρ s 0 8)|].
  intros z s' ???. replace (Z.to_nat (Z.of_nat n - 1)) with (n - 1)%nat by lia.
  eapply builds_eq; [apply (zero_loop ρ z (n - 1) 1 s' z)|]; try done.
  by replace (1 + (n - 1))%nat with n by lia.
Qed.

Lemma nbits_div8 l : nbits l / 8 = Z.of_nat (length l).
Proof. unfold nbits. rewrite Z.mul_comm. apply Z.div_mul. lia. Qed.

Lemma u64_of_nat n : Z.of_nat n < 2 ^ 64 → u64 (Z.of_nat n) = Z.of_nat n.
Proof. intros. apply u64_small. lia. Qed.

(** What [_sym_build_insert] puts in place of the old bytes. *)
Definition inserted (le : bool) (l : list Z) : list Z :=
  if le && (8 <? nbits l) then rev l else l.

Lemma length_inserted le l : length (inserted le l) = length l.
Proof. unfold inserted. case_match; [apply length_rev|done]. Qed.

Lemma inserted_bytes le l : Forall is_byte l → Forall is_byte (inserted le l).
Proof. intros. unfold inserted. case_match; auto with words. Qed.

(** The optional parts of an insertion: nothing to concatenate, or bytes. *)
Definition rep_bytes_opt ρ s (e : SymExpr) l : Prop :=
  match e with
  | None => l = []
  | Some h => rep ρ s h (bytes_value l)
  end.

Lemma extract_opt ρ s a l off len (c : bool) :
  binv s → Forall is_byte l → rep ρ s a (bytes_value l) → nbits l < 2 ^ 32 →
  (off + len ≤ length l)%nat → c = (Z.of_nat len =? 0) →
  returns binv bext
    (if c then ret None
     else _sym_build_extract (Some a) (Z.of_nat off) (Z.of_nat len) false) s
    (λ e s', rep_bytes_opt ρ s' e (slice off len l)).
Proof.
  intros ? ? ? ? ? ->. destruct (Z.eqb_spec (Z.of_nat len) 0).
  - apply returns_ret; [done|]. by replace len with 0%nat by lia.
  - eapply returns_impl; [eapply (build_extract_bytes ρ s a l off len false); eauto; lia|].
    by intros ? ? ? (h&->&?).
Qed.

Lemma new_piece ρ s b l le :
  binv s → Forall is_byte l → rep ρ s b (bytes_value l) → nbits l < 2 ^ 32 →
  (le = true → 8 < nbits l → nbits l mod 16 = 0) →
  builds ρ (if le && (8 <? nbits l) then _sym_build_bswap (Some b) else ret (Some b)) s
    (bytes_value (inserted le l)).
Proof.
  intros. unfold inserted. destruct le; cbn [andb]; [|by apply builds_ret].
  destruct (Z.ltb_spec 8 (nbits l)); [|by apply builds_ret].
  apply build_bswap_bytes; auto. intros ->. unfold nbits in *. cbn in *. lia.
Qed.

(** [_sym_build_insert] replaces the bytes at the offset and keeps the rest. *)
Lemma build_insert_bytes ρ s a b l k off le :
  binv s → Forall is_byte l → Forall is_byte k →
  rep ρ s a (bytes_value l) → rep ρ s b (bytes_value k) → nbits l < 2 ^ 32 →
  (off + length k ≤ length l)%nat →
  (le = true → 8 < nbits k → nbits k mod 16 = 0) →
  builds ρ (_sym_build_insert (Some a) (Some b) (Z.of_nat off) le) s
    (bytes_value (take off l ++ inserted le k ++ drop (off + length k) l)).
Proof.
  intros ? Hl Hk Ha Hb Hn Hlen Hle. unfold _sym_build_insert.
  assert (nbits k ≤ nbits l) by (unfold nbits; lia). sym_bits n.
  apply returns_assert; [by rewrite nbits_mod8|].
  eapply returns_bind.
  { apply (extract_opt ρ s0 a l 0 off); auto; lia. }
  intros before s1 ? ? Hbef; sym_mono. eapply builds_bind.
  { by apply (new_piece ρ s1 b k le); auto; lia. }
  intros np s2 ? X2 ?; sym_mono. sym_bits tb.
  rewrite !nbits_div8.
  replace (Z.of_nat (length l) - Z.of_nat off - Z.of_nat (length k))
    with (Z.of_nat (length l - off - length k)) by lia.
  replace (Z.of_nat off + Z.of_nat (length k)) with (Z.of_nat (off + length k)) by lia.
  unfold nbits in Hn. rewrite !u64_of_nat by lia. fold (nbits l) in Hn.
  eapply returns_bind.
  { apply (extract_opt ρ s3 a l (off + length k)); auto; lia. }
  intros after s4 ? X4 Haft; sym_mono.
  replace (slice (off + length k) (length l - off - length k) l)
    with (drop (off + length k) l) in Haft.
  2:{ unfold slice. symmetry. apply take_ge. rewrite length_drop. lia. }
  assert (slice 0 off l = take off l) as Es by by unfold slice; rewrite drop_0.
  rewrite Es in Hbef. clear Es.
  eapply builds_bind with (ρ := ρ) (v := bytes_value (take off l ++ inserted le k)).
  { destruct before as [h|]; cbn [rep_bytes_opt] in Hbef.
    - sym_mono. by apply concat_bytes.
    - rewrite Hbef. by apply builds_ret. }
  intros r s5 ? X5 ?; sym_mono. rewrite app_assoc.
  destruct after as [h|]; cbn [rep_bytes_opt] in Haft.
  - sym_mono. by apply concat_bytes.
  - rewrite Haft, app_nil_r. by apply builds_ret.
Qed.

(** The in-memory form of the pair (result, overflow flag). *)
Definition overflow_bytes (l : list Z) (ov le : bool) : list Z :=
  let flag := if ov then 1 else 0 in
  let pad := replicate (length l - 1) 0 in
  if le then rev l ++ flag :: pad else l ++ pad ++ [flag].

Lemma flag_byte ρ s o ov :
  binv s → rep ρ s o (VBool ov) →
  builds ρ (bit <- _sym_build_bool_to_bit (Some o) ;; _sym_build_zext bit 7) s
    (bytes_value [if ov then 1 else 0]).
Proof.
  intros. eapply builds_bind; [by apply build_bool_to_bit_spec|].
  intros h s' ? ? ?. eapply builds_eq; [by apply build_zext_spec|].
  by rewrite bytes_value_byte.
Qed.

Lemma buildOverflowResult_bytes ρ s r o l ov le :
  binv s → Forall is_byte l → rep ρ s r (bytes_value l) → rep ρ s o (VBool ov) →
  nbits l < 2 ^ 32 → l ≠ [] → (le = true → nbits l mod 16 = 0) →
  builds ρ (buildOverflowResult (Some r) (Some o) le) s
    (bytes_value (overflow_bytes l ov le)).
Proof.
  intros ? Hl Hr Ho Hn Hnil Hle. unfold buildOverflowResult. sym_bits n.
  apply returns_assert; [by rewrite nbits_mod8|].
  eapply builds_bind with (ρ := ρ) (v := bytes_value (if le then rev l else l)).
  { destruct le; [apply build_bswap_bytes; auto|by apply builds_ret]. }
  intros m s1 ? ? ?; sym_mono.
  eapply builds_bind; [by apply flag_byte|]. intros f s2 ? ? ?; sym_mono.
  unfold overflow_bytes. rewrite nbits_div8.
  assert (length l ≠ 0%nat) by by destruct l.
  destruct (Z.eqb_spec (nbits l) 8) as [E|E].
  { assert (length l = 1)%nat as -> by (unfold nbits in E; lia).
    destruct le; [|by apply concat_bytes]. by rewrite E in Hle; specialize (Hle eq_refl). }
  replace (Z.of_nat (length l) - 1) with (Z.of_nat (length l - 1)) by lia.
  eapply builds_bind; [apply build_zero_bytes_spec; [done|unfold nbits in E; lia]|].
  intros pd s3 ? ? ?; sym_mono. destruct le.
  - eapply builds_bind; [by apply concat_bytes|]. intros t s4 ? ? ?; sym_mono.
    by apply (concat_bytes ρ s4 m t).
  - eapply builds_bind; [by apply concat_bytes|]. intros t s4 ? ? ?; sym_mono.
    by apply concat_bytes.
Qed.

(** Bytes cannot be swapped in an odd number of bytes. *)
Lemma overflow_result_misaligned ρ s r o w z :
  binv s → rep ρ s r (VBV w z) → w mod 16 = 8 →
  buildOverflowResult (Some r) o true s = Err (Assert "bswap is not applicable").
Proof.
  intros I Hr Hw. unfold buildOverflowResult.
  eapply returns_bind_Err; [eapply bits_helper_spec; eauto|]. intros ? s1 I1 X1 ->.
  assert (w mod 8 = 0) as -> by (Z.div_mod_to_equations; lia). cbn [Z.eqb assert_]. change (bind (ret tt) ?K s1) with (K tt s1).
  apply bind_Err. unfold _sym_build_bswap. sym_mono.
  eapply returns_bind_Err; [eapply bits_helper_spec; eauto|]. intros ? s2 I2 X2 ->.
  rewrite Hw. done.
Qed.
End proofs.
