(* ===== verification/Arith.v ===== *)
(** * Saturating, overflow-reporting and funnel-shift arithmetic

    Models the arithmetic part of runtime/src/RuntimeCommon.cpp: the bounds
    [buildMinSignedInt] and friends, [_sym_build_*_sat],
    [_sym_build_*_overflow], the funnel shifts, [_sym_build_abs] and
    [_sym_build_bit_to_bool].  The contracts give the integer each expression
    evaluates to, for the widths for which the C++ code is defined. *)

From S2P Require Import Prelude Smt Interface ByteSeq BitArrays.

Section defs.
Context {B : Backend}.

Definition buildMinSignedInt (bits : Z) : M bstate SymExpr :=
  let bits := u8 bits in
  value <- shl_u64 1 (bits - 1) ;;
  _sym_build_integer value bits.

Definition buildMaxSignedInt (bits : Z) : M bstate SymExpr :=
  let bits := u8 bits in
  shifted <- shl_u64 1 bits ;;
  let mask := u64 (shifted - 1) in
  _sym_build_integer (Z.shiftr (Z.land (u64 (Z.lnot 0)) mask) 1) bits.

Definition buildMaxUnsignedInt (bits : Z) : M bstate SymExpr :=
  let bits := u8 bits in
  shifted <- shl_u64 1 bits ;;
  let mask := u64 (shifted - 1) in
  _sym_build_integer (Z.land (u64 (Z.lnot 0)) mask) bits.

Definition _sym_build_bit_to_bool (expr : SymExpr) : M bstate SymExpr :=
  match expr with
  | None => ret None
  | Some _ =>
      bits <- _sym_bits_helper expr ;;
      zero <- _sym_build_integer 0 (u8 bits) ;;
      _sym_build_not_equal expr zero
  end.

Definition _sym_build_sadd_sat (a b : SymExpr) : M bstate SymExpr :=
  bits <- _sym_bits_helper a ;;
  min <- buildMinSignedInt bits ;;
  max <- buildMaxSignedInt bits ;;
  a1 <- _sym_build_sext a 1 ;;
  b1 <- _sym_build_sext b 1 ;;
  add_sext <- _sym_build_add a1 b1 ;;
  min1 <- _sym_build_sext min 1 ;;
  below <- _sym_build_signed_less_equal add_sext min1 ;;
  max1 <- _sym_build_sext max 1 ;;
  above <- _sym_build_signed_greater_equal add_sext max1 ;;
  sum <- _sym_build_add a b ;;
  inner <- _sym_build_ite above max sum ;;
  _sym_build_ite below min inner.

Definition _sym_build_uadd_sat (a b : SymExpr) : M bstate SymExpr :=
  bits <- _sym_bits_helper a ;;
  max <- buildMaxUnsignedInt bits ;;
  a1 <- _sym_build_zext a 1 ;;
  b1 <- _sym_build_zext b 1 ;;
  add_zext <- _sym_build_add a1 b1 ;;
  top <- _sym_extract_helper add_zext bits bits ;;
  carry <- _sym_build_bit_to_bool top ;;
  sum <- _sym_build_add a b ;;
  _sym_build_ite carry max sum.

Definition _sym_build_ssub_sat (a b : SymExpr) : M bstate SymExpr :=
  bits <- _sym_bits_helper a ;;
  min <- buildMinSignedInt bits ;;
  max <- buildMaxSignedInt bits ;;
  a1 <- _sym_build_sext a 1 ;;
  b1 <- _sym_build_sext b 1 ;;
  sub_sext <- _sym_build_sub a1 b1 ;;
  min1 <- _sym_build_sext min 1 ;;
  below <- _sym_build_signed_less_equal sub_sext min1 ;;
  max1 <- _sym_build_sext max 1 ;;
  above <- _sym_build_signed_greater_equal sub_sext max1 ;;
  diff <- _sym_build_sub a b ;;
  inner <- _sym_build_ite above max diff ;;
  _sym_build_ite below min inner.

Definition _sym_build_usub_sat (a b : SymExpr) : M bstate SymExpr :=
  bits <- _sym_bits_helper a ;;
  geq <- _sym_build_unsigned_greater_equal a b ;;
  diff <- _sym_build_sub a b ;;
  zero <- _sym_build_integer 0 (u8 bits) ;;
  _sym_build_ite geq diff zero.

Definition _sym_build_shift_left_overflow (a b : SymExpr) : M bstate SymExpr :=
  shifted <- _sym_build_shift_left a b ;;
  back <- _sym_build_arithmetic_shift_right shifted b ;;
  _sym_build_not_equal back a.

Definition _sym_build_sshl_sat (a b : SymExpr) : M bstate SymExpr :=
  bits <- _sym_bits_helper a ;;
  overflow <- _sym_build_shift_left_overflow a b ;;
  sign <- _sym_extract_helper a (u64 (bits - 1)) (u64 (bits - 1)) ;;
  negative <- _sym_build_bit_to_bool sign ;;
  min <- buildMinSignedInt bits ;;
  max <- buildMaxSignedInt bits ;;
  bound <- _sym_build_ite negative min max ;;
  shifted <- _sym_build_shift_left a b ;;
  _sym_build_ite overflow bound shifted.

Definition _sym_build_ushl_sat (a b : SymExpr) : M bstate SymExpr :=
  bits <- _sym_bits_helper a ;;
  overflow <- _sym_build_shift_left_overflow a b ;;
  max <- buildMaxUnsignedInt bits ;;
  shifted <- _sym_build_shift_left a b ;;
  _sym_build_ite overflow max shifted.

Definition _sym_build_add_overflow (a b : SymExpr) (is_signed little_endian : bool)
    : M bstate SymExpr :=
  bits <- _sym_bits_helper a ;;
  overflow <-
    (if is_signed then
       a1 <- _sym_build_sext a 1 ;;
       b1 <- _sym_build_sext b 1 ;;
       add_sext <- _sym_build_add a1 b1 ;;
       add <- _sym_build_add a b ;;
       add1 <- _sym_build_sext add 1 ;;
       _sym_build_not_equal add_sext add1
     else
       a1 <- _sym_build_zext a 1 ;;
       b1 <- _sym_build_zext b 1 ;;
       add_zext <- _sym_build_add a1 b1 ;;
       top <- _sym_extract_helper add_zext bits bits ;;
       one <- _sym_build_integer 1 1 ;;
       _sym_build_equal top one) ;;
  result <- _sym_build_add a b ;;
  buildOverflowResult result overflow little_endian.

Definition _sym_build_sub_overflow (a b : SymExpr) (is_signed little_endian : bool)
    : M bstate SymExpr :=
  bits <- _sym_bits_helper a ;;
  overflow <-
    (if is_signed then
       a1 <- _sym_build_sext a 1 ;;
       b1 <- _sym_build_sext b 1 ;;
       sub_sext <- _sym_build_sub a1 b1 ;;
       sub <- _sym_build_sub a b ;;
       sub1 <- _sym_build_sext sub 1 ;;
       _sym_build_not_equal sub_sext sub1
     else
       a1 <- _sym_build_zext a 1 ;;
       b1 <- _sym_build_zext b 1 ;;
       sub_zext <- _sym_build_sub a1 b1 ;;
       top <- _sym_extract_helper sub_zext bits bits ;;
       one <- _sym_build_integer 1 1 ;;
       _sym_build_equal top one) ;;
  result <- _sym_build_sub a b ;;
  buildOverflowResult result overflow little_endian.

Definition _sym_build_mul_overflow (a b : SymExpr) (is_signed little_endian : bool)
    : M bstate SymExpr :=
  bits <- _sym_bits_helper a ;;
  overflow <-
    (if is_signed then
       a1 <- _sym_build_sext a (u8 bits) ;;
       b1 <- _sym_build_sext b (u8 bits) ;;
       mul_sext <- _sym_build_mul a1 b1 ;;
       mul <- _sym_build_mul a b ;;
       mul1 <- _sym_build_sext mul (u8 bits) ;;
       _sym_build_not_equal mul_sext mul1
     else
       a1 <- _sym_build_zext a (u8 bits) ;;
       b1 <- _sym_build_zext b (u8 bits) ;;
       mul_zext <- _sym_build_mul a1 b1 ;;
       top <- _sym_extract_helper mul_zext (u64 (2 * bits - 1)) (u64 (2 * bits - 1)) ;;
       one <- _sym_build_integer 1 1 ;;
       _sym_build_equal top one) ;;
  result <- _sym_build_mul a b ;;
  buildOverflowResult result overflow little_endian.

Definition _sym_build_funnel_shift_left (a b c : SymExpr) : M bstate SymExpr :=
  bits <- _sym_bits_helper c ;;
  concat <- _sym_concat_helper a b ;;
  width <- _sym_build_integer bits (u8 bits) ;;
  shift <- _sym_build_unsigned_rem c width ;;
  shifted <- _sym_build_shift_left concat shift ;;
  _sym_extract_helper shifted 0 bits.

Definition _sym_build_funnel_shift_right (a b c : SymExpr) : M bstate SymExpr :=
  bits <- _sym_bits_helper c ;;
  concat <- _sym_concat_helper a b ;;
  width <- _sym_build_integer bits (u8 bits) ;;
  shift <- _sym_build_unsigned_rem c width ;;
  shifted <- _sym_build_logical_shift_right concat shift ;;
  _sym_extract_helper shifted 0 bits.

Definition _sym_build_abs (expr : SymExpr) : M bstate SymExpr :=
  bits <- _sym_bits_helper expr ;;
  zero <- _sym_build_integer 0 (u8 bits) ;;
  nonneg <- _sym_build_signed_greater_equal expr zero ;;
  zero' <- _sym_build_integer 0 (u8 bits) ;;
  neg <- _sym_build_sub zero' expr ;;
  _sym_build_ite nonneg expr neg.

End defs.

(** ** The integers the expressions stand for *)
Definition clamp (lo hi z : Z) : Z := Z.max lo (Z.min hi z).

(** Saturation to the signed and unsigned [w]-bit ranges. *)
Definition ssat (w z : Z) : Z := clamp (- 2 ^ (w - 1)) (2 ^ (w - 1) - 1) z.
Definition usat (w z : Z) : Z := clamp 0 (2 ^ w - 1) z.

(** [z] is not representable in [w] bits. *)
Definition soverflows (w z : Z) : bool :=
  negb ((- 2 ^ (w - 1) <=? z) && (z <? 2 ^ (w - 1))).
Definition uoverflows (w z : Z) : bool := negb ((0 <=? z) && (z <? 2 ^ w)).

Lemma sgn_sext w k x :
  0 < w → 0 ≤ k → 0 ≤ x < 2 ^ w → sgn (w + k) (wrap (w + k) (sgn w x)) = sgn w x.
Proof.
  intros. pose proof (sgn_bound w x). pose proof (pow2_le (w - 1) (w + k - 1)).
  apply sgn_wrap; lia.
Qed.

Lemma sgn_wrap_congr w z : 0 ≤ w → ∃ k, sgn w (wrap w z) = z + k * 2 ^ w.
Proof.
  intros. pose proof (pow2_pos w). unfold sgn, wrap. rewrite Z.mod_eq by lia. case_match.
  - exists (- (z / 2 ^ w)). lia.
  - exists (- (z / 2 ^ w) - 1). lia.
Qed.

Lemma soverflows_false w z :
  soverflows w z = false ↔ - 2 ^ (w - 1) ≤ z < 2 ^ (w - 1).
Proof. unfold soverflows. lia. Qed.

(** Comparing an extended result with the extension of the wrapped result
    detects overflow. *)
Lemma sext_ne_overflow w k z :
  0 < w → 0 ≤ k → - 2 ^ (w + k - 1) ≤ z < 2 ^ (w + k - 1) →
  negb (wrap (w + k) z =? wrap (w + k) (sgn w (wrap w z))) = soverflows w z.
Proof.
  intros ? ? Hz. pose proof (wrap_wf w z) as Hb. pose proof (pow2_le (w - 1) (w + k - 1)).
  pose proof (sgn_bound w (wrap w z)).
  destruct (Z.eqb_spec (wrap (w + k) z) (wrap (w + k) (sgn w (wrap w z)))) as [Ew|Ew];
    cbn; symmetry.
  - apply (f_equal (sgn (w + k))) in Ew.
    rewrite (sgn_wrap (w + k) z), (sgn_wrap (w + k)) in Ew by lia.
    apply soverflows_false. lia.
  - destruct (soverflows w z) eqn:E; [done|]. apply soverflows_false in E.
    by rewrite sgn_wrap in Ew by lia.
Qed.

Lemma bv_extract_bit i x :
  bv_extract i i x = (x / 2 ^ i) mod 2.
Proof. unfold bv_extract. by replace (i - i + 1) with 1 by lia. Qed.

(** The top bit of a number below [2^(i+1)] tells whether it reaches [2^i]. *)
Lemma top_bit i x :
  0 ≤ i → 0 ≤ x < 2 ^ (i + 1) → bv_extract i i x = if 2 ^ i <=? x then 1 else 0.
Proof.
  intros Hi Hx. rewrite bv_extract_bit. rewrite Z.pow_add_r in Hx by lia.
  pose proof (pow2_pos i Hi). destruct (Z.leb_spec (2 ^ i) x).
  - replace (x / 2 ^ i) with 1; [done|]. apply Z.div_unique with (x - 2 ^ i); lia.
  - by rewrite Z.div_small by lia.
Qed.

(** ** Contracts *)
Section proofs.
Context {B : Backend} {BS : BackendSpec B}.
Implicit Types (s : bstate) (ρ : env).

Lemma buildMinSignedInt_ok ρ s w :
  binv s → 1 ≤ w ≤ 64 →
  builds ρ (buildMinSignedInt w) s (VBV w (2 ^ (w - 1))).
Proof.
  intros. pose proof (pow2_le (w - 1) 63). pose proof (pow2_pos (w - 1)).
  pose proof (pow2_half w). unfold buildMinSignedInt. rewrite u8_small by lia.
  unfold builds, returns. erewrite bind_Ok by (apply shl_u64_ok; lia).
  eapply builds_eq; [apply build_integer_spec; auto; lia|].
  by rewrite Z.mul_1_l, !(u64_small (2 ^ (w - 1))), wrap_small by lia.
Qed.

Lemma mask_eq w : 1 ≤ w ≤ 63 →
  Z.land (u64 (Z.lnot 0)) (u64 (u64 (1 * 2 ^ w) - 1)) = 2 ^ w - 1.
Proof.
  intros. pose proof (pow2_le w 63). pose proof (pow2_pos w).
  rewrite Z.mul_1_l, (u64_small (2 ^ w)), (u64_small (2 ^ w - 1)) by lia.
  change (u64 (Z.lnot 0)) with (Z.ones 64). rewrite Z.land_comm, Z.land_ones by lia.
  apply Z.mod_small. lia.
Qed.

Lemma buildMaxSignedInt_ok ρ s w :
  binv s → 1 ≤ w ≤ 63 →
  builds ρ (buildMaxSignedInt w) s (VBV w (2 ^ (w - 1) - 1)).
Proof.
  intros. pose proof (pow2_le w 63). pose proof (pow2_pos (w - 1)).
  pose proof (pow2_half w). unfold buildMaxSignedInt. rewrite u8_small by lia.
  unfold builds, returns. erewrite bind_Ok by (apply shl_u64_ok; lia).
  rewrite mask_eq by lia. eapply builds_eq; [apply build_integer_spec; auto; lia|].
  rewrite Z.shiftr_div_pow2, Z.pow_1_r by lia.
  replace ((2 ^ w - 1) / 2) with (2 ^ (w - 1) - 1)
    by (apply Z.div_unique with 1; lia).
  rewrite u64_small, wrap_small by lia. done.
Qed.

Lemma buildMaxUnsignedInt_ok ρ s w :
  binv s → 1 ≤ w ≤ 63 →
  builds ρ (buildMaxUnsignedInt w) s (VBV w (2 ^ w - 1)).
Proof.
  intros. pose proof (pow2_le w 63). pose proof (pow2_pos w).
  unfold buildMaxUnsignedInt. rewrite u8_small by lia.
  unfold builds, returns. erewrite bind_Ok by (apply shl_u64_ok; lia).
  rewrite mask_eq by lia. eapply builds_eq; [apply build_integer_spec; auto; lia|].
  rewrite u64_small, wrap_small by lia. done.
Qed.

(** The bounds of 64-bit integers are computed with a shift by 64. *)
Lemma buildMax_undefined s w :
  64 ≤ w < 256 →
  buildMaxSignedInt w s = Err (Undefined "shift count out of range") ∧
  buildMaxUnsignedInt w s = Err (Undefined "shift count out of range").
Proof.
  intros. unfold buildMaxSignedInt, buildMaxUnsignedInt. rewrite u8_small by lia.
  by erewrite !bind_Err by (apply shl_u64_undefined; lia).
Qed.

#[local] Hint Resolve buildMinSignedInt_ok buildMaxSignedInt_ok
  buildMaxUnsignedInt_ok : sym.

Lemma bit_to_bool_ok ρ s a w x :
  binv s → rep ρ s a (VBV w x) → w < 2 ^ 8 →
  builds ρ (_sym_build_bit_to_bool (Some a)) s (VBool (negb (x =? 0))).
Proof.
  intros ? Ha ?. pose proof (rep_bits _ _ _ _ _ Ha) as [??].
  unfold _sym_build_bit_to_bool. sym_bits n. rewrite u8_small by lia.
  sym_step z. sym_last. by rewrite wrap_small by (rewrite u64_small; lia).
Qed.
#[local] Hint Resolve bit_to_bool_ok : sym.

(** Signed saturation of a sum or difference [z] computed with one extra bit. *)
Lemma ssat_select w z r :
  0 < w → - 2 ^ w ≤ z < 2 ^ w → r = wrap w z →
  (if sgn (w + 1) (wrap (w + 1) z)
      <=? sgn (w + 1) (wrap (w + 1) (sgn w (2 ^ (w - 1))))
   then VBV w (2 ^ (w - 1))
   else if sgn (w + 1) (wrap (w + 1) (sgn w (2 ^ (w - 1) - 1)))
           <=? sgn (w + 1) (wrap (w + 1) z)
        then VBV w (2 ^ (w - 1) - 1) else VBV w r)
  = VBV w (wrap w (ssat w z)).
Proof.
  intros Hw Hz ->. pose proof (pow2_half w Hw) as H2. pose proof (pow2_pos (w - 1)).
  rewrite !(sgn_sext w 1) by lia.
  rewrite sgn_wrap by (replace (w + 1 - 1) with w by lia; lia).
  assert (sgn w (2 ^ (w - 1)) = - 2 ^ (w - 1)) as ->.
  { unfold sgn. rewrite Z.ltb_irrefl. lia. }
  assert (sgn w (2 ^ (w - 1) - 1) = 2 ^ (w - 1) - 1) as ->.
  { unfold sgn. destruct (Z.ltb_spec (2 ^ (w - 1) - 1) (2 ^ (w - 1))); lia. }
  unfold ssat, clamp. destruct (Z.leb_spec z (- 2 ^ (w - 1))).
  - f_equal. replace (Z.max _ _) with (- 2 ^ (w - 1)) by lia. unfold wrap.
    apply Zmod_unique with (-1); lia.
  - destruct (Z.leb_spec (2 ^ (w - 1) - 1) z); do 2 f_equal; [|lia].
    replace (Z.max _ _) with (2 ^ (w - 1) - 1) by lia. symmetry. apply wrap_small. lia.
Qed.

Lemma sadd_sat_ok ρ s a b w x y :
  binv s → rep ρ s a (VBV w x) → rep ρ s b (VBV w y) → w ≤ 63 →
  builds ρ (_sym_build_sadd_sat (Some a) (Some b)) s
    (VBV w (wrap w (ssat w (sgn w x + sgn w y)))).
Proof.
  intros ? Ha Hb ?. pose proof (rep_bits _ _ _ _ _ Ha) as [??].
  pose proof (rep_bits _ _ _ _ _ Hb) as [??].
  unfold _sym_build_sadd_sat. sym_bits n.
  sym_step mn. sym_step mx. sym_step a1. sym_step b1. sym_step sm. sym_step mn1.
  sym_step lo. sym_step mx1. sym_step hi. sym_step su. sym_step inner.
  sym_last. rewrite wrap_add. apply ssat_select; [done| |by apply wrap_add_sgn].
  pose proof (sgn_bound w x). pose proof (sgn_bound w y). pose proof (pow2_half w). lia.
Qed.

Lemma ssub_sat_ok ρ s a b w x y :
  binv s → rep ρ s a (VBV w x) → rep ρ s b (VBV w y) → w ≤ 63 →
  builds ρ (_sym_build_ssub_sat (Some a) (Some b)) s
    (VBV w (wrap w (ssat w (sgn w x - sgn w y)))).
Proof.
  intros ? Ha Hb ?. pose proof (rep_bits _ _ _ _ _ Ha) as [??].
  pose proof (rep_bits _ _ _ _ _ Hb) as [??].
  unfold _sym_build_ssub_sat. sym_bits n.
  sym_step mn. sym_step mx. sym_step a1. sym_step b1. sym_step sm. sym_step mn1.
  sym_step lo. sym_step mx1. sym_step hi. sym_step su. sym_step inner.
  sym_last. rewrite wrap_sub. apply ssat_select; [done| |by apply wrap_sub_sgn].
  pose proof (sgn_bound w x). pose proof (sgn_bound w y). pose proof (pow2_half w). lia.
Qed.

Lemma uadd_sat_ok ρ s a b w x y :
  binv s → rep ρ s a (VBV w x) → rep ρ s b (VBV w y) → w ≤ 63 →
  builds ρ (_sym_build_uadd_sat (Some a) (Some b)) s (VBV w (usat w (x + y))).
Proof.
  intros ? Ha Hb ?. pose proof (rep_bits _ _ _ _ _ Ha) as [??].
  pose proof (rep_bits _ _ _ _ _ Hb) as [??].
  unfold _sym_build_uadd_sat. sym_bits n.
  sym_step mx. sym_step a1. sym_step b1. sym_step sm. sym_step top. sym_step carry.
  sym_step su. sym_last. pose proof (pow2_half (w + 1)) as Hh.
  replace (w + 1 - 1) with w in Hh by lia.
  rewrite (wrap_small (w + 1)), top_bit by lia. unfold usat, clamp.
  destruct (Z.leb_spec (2 ^ w) (x + y)); cbn [Z.eqb negb]; f_equal; [lia|].
  rewrite wrap_small; lia.
Qed.

Lemma usub_sat_ok ρ s a b w x y :
  binv s → rep ρ s a (VBV w x) → rep ρ s b (VBV w y) → w < 2 ^ 8 →
  builds ρ (_sym_build_usub_sat (Some a) (Some b)) s (VBV w (usat w (x - y))).
Proof.
  intros ? Ha Hb ?. pose proof (rep_bits _ _ _ _ _ Ha) as [??].
  pose proof (rep_bits _ _ _ _ _ Hb) as [??].
  unfold _sym_build_usub_sat. sym_bits n. rewrite u8_small by lia.
  sym_step ge. sym_step df. sym_step ze. sym_last. unfold usat, clamp.
  destruct (Z.leb_spec y x); f_equal; rewrite wrap_small; rewrite ?u64_small; lia.
Qed.

Lemma abs_ok ρ s a w x :
  binv s → rep ρ s a (VBV w x) → w < 2 ^ 8 →
  builds ρ (_sym_build_abs (Some a)) s (VBV w (wrap w (Z.abs (sgn w x)))).
Proof.
  intros ? Ha ?. pose proof (rep_bits _ _ _ _ _ Ha) as [??].
  unfold _sym_build_abs. sym_bits n. rewrite u8_small by lia.
  sym_step z1. sym_step nn. sym_step z2. sym_step ng. sym_last.
  rewrite u64_small, wrap_small by lia.
  assert (sgn w 0 = 0) as ->.
  { unfold sgn. pose proof (pow2_pos (w - 1)). by destruct (Z.ltb_spec 0 (2 ^ (w - 1))); [|lia]. }
  destruct (Z.leb_spec 0 (sgn w x)); f_equal.
  - by rewrite Z.abs_eq, wrap_sgn.
  - rewrite Z.abs_neq by lia. rewrite <-(wrap_sgn w x) at 1 by done.
    pose proof (wrap_sub w 0 (sgn w x)) as E. rewrite (wrap_small w 0) in E by lia.
    by rewrite E.
Qed.

(** ** Shifts *)
Lemma wrap_sgn_mul w x k :
  0 < w → 0 ≤ x < 2 ^ w → wrap w (sgn w x * k) = wrap w (x * k).
Proof.
  intros. rewrite <-(wrap_mul w x), <-(wrap_mul w (sgn w x)), wrap_sgn,
    (wrap_small w x) by done. done.
Qed.

Lemma shl_back w x y :
  0 < w → 0 ≤ x < 2 ^ w → 0 ≤ y < w →
  (bv_ashr w (bv_shl w x y) y =? x) = negb (soverflows w (sgn w x * 2 ^ y)).
Proof.
  intros Hw Hx Hy. unfold bv_ashr, bv_shl.
  destruct (Z.leb_spec w y); [lia|].
  pose proof (pow2_pos y ltac:(lia)) as Hp.
  rewrite <-(wrap_sgn_mul w x) by done.
  set (z := sgn w x * 2 ^ y). pose proof (wrap_wf w z Hw) as Hz.
  pose proof (sgn_bound w _ Hw Hz) as Hb. pose proof (sgn_bound w x Hw Hx).
  (* the wrapped product is still a multiple of 2^y *)
  assert (∃ q, sgn w (wrap w z) = q * 2 ^ y) as [q Hq].
  { assert (∃ k, sgn w (wrap w z) = z + k * 2 ^ w) as [k ->].
    { apply sgn_wrap_congr. lia. }
    exists (sgn w x + k * 2 ^ (w - y)). unfold z.
    replace (2 ^ w) with (2 ^ (w - y) * 2 ^ y) by (rewrite <-pow2_split; [f_equal|..]; lia).
    ring. }
  rewrite Hq, Z.div_mul by lia. rewrite Hq in Hb.
  assert (- 2 ^ (w - 1) ≤ q < 2 ^ (w - 1)) by nia.
  destruct (soverflows w z) eqn:E; cbn [negb].
  - apply Z.eqb_neq. intros Ex. apply (f_equal (sgn w)) in Ex. rewrite sgn_wrap in Ex by lia.
    subst q. fold z in Hb. assert (soverflows w z = false); [|congruence].
    by apply soverflows_false.
  - apply soverflows_false in E. rewrite sgn_wrap in Hq by lia.
    assert (q = sgn w x) as -> by (unfold z in Hq; nia). rewrite wrap_sgn by done. apply Z.eqb_refl.
Qed.

Lemma shift_left_overflow_ok ρ s a b w x y :
  binv s → rep ρ s a (VBV w x) → rep ρ s b (VBV w y) → 0 ≤ y < w →
  builds ρ (_sym_build_shift_left_overflow (Some a) (Some b)) s
    (VBool (soverflows w (sgn w x * 2 ^ y))).
Proof.
  intros ? Ha Hb ?. pose proof (rep_bits _ _ _ _ _ Ha) as [??].
  unfold _sym_build_shift_left_overflow. sym_step sh. sym_step bk. sym_last.
  rewrite shl_back by done. by rewrite negb_involutive.
Qed.
#[local] Hint Resolve shift_left_overflow_ok : sym.

Lemma sshl_select w x y :
  0 < w → 0 ≤ x < 2 ^ w → 0 ≤ y < w →
  (if soverflows w (sgn w x * 2 ^ y)
   then if negb (bv_extract (w - 1) (w - 1) x =? 0)
        then VBV w (2 ^ (w - 1)) else VBV w (2 ^ (w - 1) - 1)
   else VBV w (bv_shl w x y))
  = VBV w (wrap w (ssat w (sgn w x * 2 ^ y))).
Proof.
  intros Hw Hx Hy. pose proof (pow2_half w Hw) as Hh.
  pose proof (pow2_pos (w - 1) ltac:(lia)). pose proof (pow2_pos y ltac:(lia)).
  rewrite (top_bit (w - 1)) by (replace (w - 1 + 1) with w by lia; lia).
  unfold bv_shl. destruct (Z.leb_spec w y); [lia|].
  rewrite <-(wrap_sgn_mul w x) by done.
  destruct (soverflows w (sgn w x * 2 ^ y)) eqn:E.
  - assert (¬ (- 2 ^ (w - 1) ≤ sgn w x * 2 ^ y < 2 ^ (w - 1))) as Hno.
    { intros ?%soverflows_false. congruence. }
    unfold ssat, clamp, sgn in *. destruct (Z.leb_spec (2 ^ (w - 1)) x); cbn [Z.eqb negb];
      destruct (Z.ltb_spec x (2 ^ (w - 1))); try lia; f_equal.
    + replace (Z.max _ _) with (- 2 ^ (w - 1)) by nia.
      unfold wrap. apply Zmod_unique with (-1); lia.
    + replace (Z.max _ _) with (2 ^ (w - 1) - 1) by nia. symmetry. apply wrap_small. lia.
  - apply soverflows_false in E. do 2 f_equal. unfold ssat, clamp. lia.
Qed.

Lemma sshl_sat_ok ρ s a b w x y :
  binv s → rep ρ s a (VBV w x) → rep ρ s b (VBV w y) → w ≤ 63 → 0 ≤ y < w →
  builds ρ (_sym_build_sshl_sat (Some a) (Some b)) s
    (VBV w (wrap w (ssat w (sgn w x * 2 ^ y)))).
Proof.
  intros ? Ha Hb ? ?. pose proof (rep_bits _ _ _ _ _ Ha) as [??].
  pose proof (pow2_le w 63).
  unfold _sym_build_sshl_sat. sym_bits n. rewrite u64_small by lia.
  sym_step ov. sym_step sg. sym_step ng. sym_step mn. sym_step mx. sym_step bd.
  sym_step sh. sym_last. by apply sshl_select.
Qed.

(** What the code computes for the unsigned saturating shift. *)
Lemma ushl_sat_ok ρ s a b w x y :
  binv s → rep ρ s a (VBV w x) → rep ρ s b (VBV w y) → w ≤ 63 → 0 ≤ y < w →
  builds ρ (_sym_build_ushl_sat (Some a) (Some b)) s
    (VBV w (if soverflows w (sgn w x * 2 ^ y) then 2 ^ w - 1 else wrap w (x * 2 ^ y))).
Proof.
  intros ? Ha Hb ? ?. pose proof (rep_bits _ _ _ _ _ Ha) as [??].
  unfold _sym_build_ushl_sat. sym_bits n.
  sym_step ov. sym_step mx. sym_step sh. sym_last.
  unfold bv_shl. destruct (Z.leb_spec w y); [lia|]. by case_match.
Qed.

(** The bound for operands of 64 bits and more is not defined. *)
Lemma ushl_sat_undefined ρ s a b w x y :
  binv s → rep ρ s a (VBV w x) → rep ρ s b (VBV w y) → 64 ≤ w < 256 → 0 ≤ y < w →
  _sym_build_ushl_sat (Some a) (Some b) s = Err (Undefined "shift count out of range").
Proof.
  intros I Ha Hb Hw Hy. unfold _sym_build_ushl_sat.
  eapply returns_bind_Err; [eapply bits_helper_spec; eauto|]. intros ? s1 I1 X1 ->. sym_mono.
  eapply builds_bind_Err; [by apply (shift_left_overflow_ok ρ)|]. sym_after ov.
  by apply bind_Err, buildMax_undefined.
Qed.

(** ** Arithmetic with overflow *)
Lemma overflow_result_ok ρ s r o n z ov le :
  binv s → rep ρ s r (VBV (8 * Z.of_nat n) z) → rep ρ s o (VBool ov) →
  8 * Z.of_nat n < 2 ^ 32 → (le = true → Nat.even n = true) →
  builds ρ (buildOverflowResult (Some r) (Some o) le) s
    (bytes_value (overflow_bytes (to_be n z) ov le)).
Proof.
  intros ? Hr ? ? Hle. pose proof (rep_bits _ _ _ _ _ Hr) as [??].
  rewrite <-bytes_value_to_be in Hr by done.
  apply buildOverflowResult_bytes; auto using to_be_bytes.
  - by rewrite nbits_to_be.
  - intros E. apply (f_equal length) in E. rewrite length_to_be in E. cbn in E. lia.
  - intros ->. rewrite nbits_to_be. specialize (Hle eq_refl).
    apply Nat.even_spec in Hle as [m ->]. replace (8 * Z.of_nat (2 * m)) with (Z.of_nat m * 16) by lia.
    apply Z.mod_mul. lia.
Qed.

Lemma top_is_set i x :
  0 ≤ i → 0 ≤ x < 2 ^ (i + 1) → (bv_extract i i x =? wrap 1 (u64 1)) = (2 ^ i <=? x).
Proof. intros. rewrite top_bit by done. by case_match. Qed.

(** The flag of the signed and unsigned variants, [z] being the exact result. *)
Definition overflow_flag (is_signed : bool) (w x y : Z) (f : Z → Z → Z) : bool :=
  if is_signed then soverflows w (f (sgn w x) (sgn w y)) else uoverflows w (f x y).

Lemma add_flag_ok ρ s a b w x y (sg : bool) :
  binv s → rep ρ s a (VBV w x) → rep ρ s b (VBV w y) → w < 2 ^ 8 →
  builds ρ
    (if sg then
       a1 <- _sym_build_sext (Some a) 1 ;; b1 <- _sym_build_sext (Some b) 1 ;;
       add_sext <- _sym_build_add a1 b1 ;; add <- _sym_build_add (Some a) (Some b) ;;
       add1 <- _sym_build_sext add 1 ;; _sym_build_not_equal add_sext add1
     else
       a1 <- _sym_build_zext (Some a) 1 ;; b1 <- _sym_build_zext (Some b) 1 ;;
       add_zext <- _sym_build_add a1 b1 ;;
       top <- _sym_extract_helper add_zext w w ;;
       one <- _sym_build_integer 1 1 ;; _sym_build_equal top one) s
    (VBool (overflow_flag sg w x y Z.add)).
Proof.
  intros ? Ha Hb ?. pose proof (rep_bits _ _ _ _ _ Ha) as [??].
  pose proof (rep_bits _ _ _ _ _ Hb) as [??]. pose proof (pow2_half w).
  destruct sg; sym_step a1; sym_step b1; sym_step sm.
  - sym_step su. sym_step su1. sym_last. cbn. f_equal.
    pose proof (sgn_bound w x). pose proof (sgn_bound w y).
    rewrite wrap_add, (wrap_add_sgn w x y) by done.
    apply sext_ne_overflow; try done; replace (w + 1 - 1) with w by lia; lia.
  - sym_step top. sym_step one. replace (w - w + 1) with 1 in * by lia. sym_last. cbn.
    pose proof (pow2_half (w + 1)) as Hh. replace (w + 1 - 1) with w in Hh by lia.
    f_equal. rewrite wrap_small, top_is_set by lia. unfold uoverflows. lia.
Qed.

Lemma sub_flag_ok ρ s a b w x y (sg : bool) :
  binv s → rep ρ s a (VBV w x) → rep ρ s b (VBV w y) → w < 2 ^ 8 →
  builds ρ
    (if sg then
       a1 <- _sym_build_sext (Some a) 1 ;; b1 <- _sym_build_sext (Some b) 1 ;;
       sub_sext <- _sym_build_sub a1 b1 ;; sub <- _sym_build_sub (Some a) (Some b) ;;
       sub1 <- _sym_build_sext sub 1 ;; _sym_build_not_equal sub_sext sub1
     else
       a1 <- _sym_build_zext (Some a) 1 ;; b1 <- _sym_build_zext (Some b) 1 ;;
       sub_zext <- _sym_build_sub a1 b1 ;;
       top <- _sym_extract_helper sub_zext w w ;;
       one <- _sym_build_integer 1 1 ;; _sym_build_equal top one) s
    (VBool (overflow_flag sg w x y Z.sub)).
Proof.
  intros ? Ha Hb ?. pose proof (rep_bits _ _ _ _ _ Ha) as [??].
  pose proof (rep_bits _ _ _ _ _ Hb) as [??]. pose proof (pow2_half w).
  destruct sg; sym_step a1; sym_step b1; sym_step sm.
  - sym_step su. sym_step su1. sym_last. cbn. f_equal.
    pose proof (sgn_bound w x). pose proof (sgn_bound w y).
    rewrite wrap_sub, (wrap_sub_sgn w x y) by done.
    apply sext_ne_overflow; try done; replace (w + 1 - 1) with w by lia; lia.
  - sym_step top. sym_step one. replace (w - w + 1) with 1 in * by lia. sym_last. cbn.
    pose proof (pow2_half (w + 1)) as Hh. replace (w + 1 - 1) with w in Hh by lia.
    f_equal. rewrite top_is_set by (auto using wrap_wf || lia || (apply wrap_wf; lia)).
    unfold uoverflows, wrap. destruct (Z.leb_spec 0 (x - y)).
    + rewrite Z.mod_small by lia. lia.
    + replace ((x - y) mod 2 ^ (w + 1)) with (x - y + 2 ^ (w + 1)); [lia|].
      apply Zmod_unique with (-1); lia.
Qed.

Lemma mul_flag_ok ρ s a b w x y (sg : bool) :
  binv s → rep ρ s a (VBV w x) → rep ρ s b (VBV w y) → w < 2 ^ 8 →
  builds ρ
    (if sg then
       a1 <- _sym_build_sext (Some a) w ;; b1 <- _sym_build_sext (Some b) w ;;
       mul_sext <- _sym_build_mul a1 b1 ;; mul <- _sym_build_mul (Some a) (Some b) ;;
       mul1 <- _sym_build_sext mul w ;; _sym_build_not_equal mul_sext mul1
     else
       a1 <- _sym_build_zext (Some a) w ;; b1 <- _sym_build_zext (Some b) w ;;
       mul_zext <- _sym_build_mul a1 b1 ;;
       top <- _sym_extract_helper mul_zext (u64 (2 * w - 1)) (u64 (2 * w - 1)) ;;
       one <- _sym_build_integer 1 1 ;; _sym_build_equal top one) s
    (VBool (if sg then soverflows w (sgn w x * sgn w y) else 2 ^ (2 * w - 1) <=? x * y)).
Proof.
  intros ? Ha Hb ?. pose proof (rep_bits _ _ _ _ _ Ha) as [??].
  pose proof (rep_bits _ _ _ _ _ Hb) as [??]. pose proof (pow2_half w).
  rewrite ?(u64_small (2 * w - 1)) by lia.
  destruct sg; sym_step a1; sym_step b1; sym_step sm.
  - sym_step su. sym_step su1. sym_last. cbn. f_equal.
    pose proof (sgn_bound w x). pose proof (sgn_bound w y).
    rewrite wrap_mul, (wrap_mul_sgn w x y) by done.
    apply sext_ne_overflow; try lia. replace (w + w - 1) with (w + (w - 1)) by lia.
    rewrite pow2_split by lia. nia.
  - sym_step top. sym_step one. replace (2 * w - 1 - (2 * w - 1) + 1) with 1 in * by lia.
    sym_last. f_equal. assert (x * y < 2 ^ (w + w)) by (rewrite pow2_split by lia; nia).
    rewrite wrap_small by nia. apply top_is_set; [lia|].
    replace (2 * w - 1 + 1) with (w + w) by lia. nia.
Qed.

Lemma even_if_little_endian (le : bool) n :
  le && Nat.odd n = false → le = true → Nat.even n = true.
Proof. intros H ->. by apply negb_false_iff. Qed.

Section overflow_ops.
Variables (ρ : env) (s : bstate) (a b : handle) (n : nat) (x y : Z) (sg le : bool).
#[local] Abbreviation w := (8 * Z.of_nat n).
Hypotheses (Hs : binv s) (Ha : rep ρ s a (VBV w x)) (Hb : rep ρ s b (VBV w y))
  (Hw : w < 2 ^ 8) (Hle : le = true → Nat.even n = true).

Lemma add_overflow_ok :
  builds ρ (_sym_build_add_overflow (Some a) (Some b) sg le) s
    (bytes_value (overflow_bytes (to_be n (wrap w (x + y))) (overflow_flag sg w x y Z.add) le)).
Proof.
  unfold _sym_build_add_overflow. sym_bits k.
  eapply (builds_bind ρ); [by apply add_flag_ok|]. sym_after ov.
  sym_step r. apply overflow_result_ok; auto. lia.
Qed.

Lemma sub_overflow_ok :
  builds ρ (_sym_build_sub_overflow (Some a) (Some b) sg le) s
    (bytes_value (overflow_bytes (to_be n (wrap w (x - y))) (overflow_flag sg w x y Z.sub) le)).
Proof.
  unfold _sym_build_sub_overflow. sym_bits k.
  eapply (builds_bind ρ); [by apply sub_flag_ok|]. sym_after ov.
  sym_step r. apply overflow_result_ok; auto. lia.
Qed.

Lemma mul_overflow_ok :
  builds ρ (_sym_build_mul_overflow (Some a) (Some b) sg le) s
    (bytes_value (overflow_bytes (to_be n (wrap w (x * y)))
      (if sg then soverflows w (sgn w x * sgn w y) else 2 ^ (2 * w - 1) <=? x * y) le)).
Proof.
  unfold _sym_build_mul_overflow. sym_bits k. rewrite u8_small by lia.
  eapply (builds_bind ρ); [by apply mul_flag_ok|]. sym_after ov.
  sym_step r. apply overflow_result_ok; auto. lia.
Qed.
End overflow_ops.

(** On little-endian targets the builders fail for an odd number of bytes. *)
Section overflow_misaligned.
Variables (ρ : env) (s : bstate) (a b : handle) (n : nat) (x y : Z) (sg : bool).
#[local] Abbreviation w := (8 * Z.of_nat n).
Hypotheses (Hs : binv s) (Ha : rep ρ s a (VBV w x)) (Hb : rep ρ s b (VBV w y))
  (Hw : w < 2 ^ 8) (Hn : Nat.odd n = true).
#[local] Abbreviation misaligned := (Err (Assert "bswap is not applicable")).

#[local] Ltac misaligned_step lem h :=
  eapply builds_bind_Err; [apply lem; eauto; lia|sym_after h].
#[local] Ltac misaligned_last :=
  eapply overflow_result_misaligned; [done|eassumption|];
  apply Nat.odd_spec in Hn as [m ->]; Z.div_mod_to_equations; lia.

Lemma add_overflow_misaligned : _sym_build_add_overflow (Some a) (Some b) sg true s = misaligned.
Proof.
  unfold _sym_build_add_overflow.
  eapply returns_bind_Err; [eapply bits_helper_spec; eauto|]. intros ? s1 I1 X1 ->. sym_mono.
  misaligned_step (add_flag_ok ρ) ov. misaligned_step (add_ok ρ) r. misaligned_last.
Qed.

Lemma sub_overflow_misaligned : _sym_build_sub_overflow (Some a) (Some b) sg true s = misaligned.
Proof.
  unfold _sym_build_sub_overflow.
  eapply returns_bind_Err; [eapply bits_helper_spec; eauto|]. intros ? s1 I1 X1 ->. sym_mono.
  misaligned_step (sub_flag_ok ρ) ov. misaligned_step (sub_ok ρ) r. misaligned_last.
Qed.

Lemma mul_overflow_misaligned : _sym_build_mul_overflow (Some a) (Some b) sg true s = misaligned.
Proof.
  unfold _sym_build_mul_overflow.
  eapply returns_bind_Err; [eapply bits_helper_spec; eauto|]. intros ? s1 I1 X1 ->. sym_mono.
  rewrite u8_small by (pose proof (rep_bits _ _ _ _ _ Ha); lia).
  misaligned_step (mul_flag_ok ρ) ov. misaligned_step (mul_ok ρ) r. misaligned_last.
Qed.
End overflow_misaligned.

End proofs.
