(* ===== verification/SimpleBackend.v ===== *)
(** * The simple backend

    Models runtime/src/backends/simple/Runtime.cpp: the expression builders on
    top of the solver library, the bookkeeping of references and of the
    expressions handed out ([registerExpression]), the symbolic input bytes,
    the solver scopes used by the path constraints, and the log of queries.
    [simple_backend] makes it an instance of [Interface.Backend]. *)

From S2P Require Import Prelude Smt Z3Api Interface.
From stdpp Require Import pretty.
From Stdlib Require Import SpecFloat.

#[local] Open Scope Z_scope.

Section defs.
Context `{Z3I : Z3}.

(** A line the backend writes to its log: a query with its location. *)
Record query : Type := {
  q_slot : Z;
  q_taken : Z;
  q_file : string;
  q_line : Z;
  q_smt : list ast;
}.

(** The globals of the file. [refs] counts the references the run-time library
    holds to each solver object (terms and sorts). [solver] is the stack of
    assertion scopes, innermost first. *)
Record state : Type := {
  g_initialized : bool;
  refs : gmap (ast + sort) Z;
  allocatedExpressions : gset ast;
  stdinBytes : list (option ast);
  prefixBytes : list (option ast);
  solver : list (list ast);
  string_eq_constraints : list ast;
  string_not_eq_constraints : list ast;
  string_taken : bool;
  log : list query;
}.

#[local] Abbreviation SymExpr := (option ast).
#[local] Abbreviation M := (M state).

Definition set_initialized (s : state) : state := {|
  g_initialized := true; refs := refs s; allocatedExpressions := allocatedExpressions s;
  stdinBytes := stdinBytes s; prefixBytes := prefixBytes s; solver := solver s;
  string_eq_constraints := string_eq_constraints s;
  string_not_eq_constraints := string_not_eq_constraints s;
  string_taken := string_taken s; log := log s |}.
Definition set_refs r (s : state) : state := {|
  g_initialized := g_initialized s; refs := r;
  allocatedExpressions := allocatedExpressions s;
  stdinBytes := stdinBytes s; prefixBytes := prefixBytes s; solver := solver s;
  string_eq_constraints := string_eq_constraints s;
  string_not_eq_constraints := string_not_eq_constraints s;
  string_taken := string_taken s; log := log s |}.
Definition set_allocated al (s : state) : state := {|
  g_initialized := g_initialized s; refs := refs s; allocatedExpressions := al;
  stdinBytes := stdinBytes s; prefixBytes := prefixBytes s; solver := solver s;
  string_eq_constraints := string_eq_constraints s;
  string_not_eq_constraints := string_not_eq_constraints s;
  string_taken := string_taken s; log := log s |}.
Definition set_stdin l (s : state) : state := {|
  g_initialized := g_initialized s; refs := refs s;
  allocatedExpressions := allocatedExpressions s;
  stdinBytes := l; prefixBytes := prefixBytes s; solver := solver s;
  string_eq_constraints := string_eq_constraints s;
  string_not_eq_constraints := string_not_eq_constraints s;
  string_taken := string_taken s; log := log s |}.
Definition set_prefix l (s : state) : state := {|
  g_initialized := g_initialized s; refs := refs s;
  allocatedExpressions := allocatedExpressions s;
  stdinBytes := stdinBytes s; prefixBytes := l; solver := solver s;
  string_eq_constraints := string_eq_constraints s;
  string_not_eq_constraints := string_not_eq_constraints s;
  string_taken := string_taken s; log := log s |}.
Definition set_solver sv (s : state) : state := {|
  g_initialized := g_initialized s; refs := refs s;
  allocatedExpressions := allocatedExpressions s;
  stdinBytes := stdinBytes s; prefixBytes := prefixBytes s; solver := sv;
  string_eq_constraints := string_eq_constraints s;
  string_not_eq_constraints := string_not_eq_constraints s;
  string_taken := string_taken s; log := log s |}.
Definition set_strings eqs neqs taken (s : state) : state := {|
  g_initialized := g_initialized s; refs := refs s;
  allocatedExpressions := allocatedExpressions s;
  stdinBytes := stdinBytes s; prefixBytes := prefixBytes s; solver := solver s;
  string_eq_constraints := eqs;
  string_not_eq_constraints := neqs;
  string_taken := taken; log := log s |}.
Definition add_log q (s : state) : state := {|
  g_initialized := g_initialized s; refs := refs s;
  allocatedExpressions := allocatedExpressions s;
  stdinBytes := stdinBytes s; prefixBytes := prefixBytes s; solver := solver s;
  string_eq_constraints := string_eq_constraints s;
  string_not_eq_constraints := string_not_eq_constraints s;
  string_taken := string_taken s; log := log s ++ [q] |}.

(** ** Calls of the solver library *)

(** A term argument of a solver function must not be null. *)
Definition nonnull (e : SymExpr) : M ast :=
  match e with
  | Some a => ret a
  | None => fail (Undefined "null term passed to the solver")
  end.

Fixpoint nonnull_all (es : list SymExpr) : M (list ast) :=
  match es with
  | [] => ret []
  | e :: es' => a <- nonnull e ;; l <- nonnull_all es' ;; ret (a :: l)
  end.

Definition z3_call (op : z3op) (args : list SymExpr) : M SymExpr :=
  l <- nonnull_all args ;;
  match Z3_mk op l with
  | Some e => ret (Some e)
  | None => fail (SolverError "ill-sorted application")
  end.

Definition ref_count (n : ast + sort) (s : state) : Z := default 0 (refs s !! n).

Definition z3_inc_ref (n : ast + sort) : M unit :=
  modify (λ s, set_refs (<[n := ref_count n s + 1]> (refs s)) s).

(** The count of an object nobody holds is not stored. *)
Definition z3_dec_ref (n : ast + sort) : M unit :=
  s <- get ;;
  if ref_count n s <=? 0 then fail (Undefined "reference count below zero")
  else if ref_count n s =? 1 then modify (λ s, set_refs (delete n (refs s)) s)
  else modify (λ s, set_refs (<[n := ref_count n s - 1]> (refs s)) s).

Definition inc_ref (e : SymExpr) : M unit := a <- nonnull e ;; z3_inc_ref (inl a).
Definition dec_ref (e : SymExpr) : M unit := a <- nonnull e ;; z3_dec_ref (inl a).

(** [Z3_mk_bv_sort]: a bit vector has at least one bit. *)
Definition z3_mk_bv_sort (bits : Z) : M sort :=
  if 0 <? bits then ret (SBV bits) else fail (SolverError "bit vector of width 0").

Definition z3_solver_push : M unit := modify (λ s, set_solver ([] :: solver s) s).
Definition z3_solver_assert (a : ast) : M unit :=
  modify (λ s, match solver s with
               | top :: rest => set_solver ((a :: top) :: rest) s
               | [] => set_solver [[a]] s
               end).
Definition z3_solver_pop : M unit :=
  s <- get ;;
  match solver s with
  | _ :: ((_ :: _) as rest) => modify (set_solver rest)
  | _ => fail (SolverError "pop without push")
  end.

(** All assertions in force, outermost scope first. *)
Definition assertions (s : state) : list ast := concat (reverse (reverse <$> solver s)).

(** ** The builders *)
Definition registerExpression (expr : SymExpr) : M SymExpr :=
  a <- nonnull expr ;;
  s <- get ;;
  if decide (a ∈ allocatedExpressions s) then ret expr
  else
    modify (λ s, set_allocated ({[a]} ∪ allocatedExpressions s) s) ;;;
    z3_inc_ref (inl a) ;;;
    ret expr.

(** [registerExpression(Z3_mk_<op>(g_context, args...))]. *)
Definition reg_call (op : z3op) (args : list SymExpr) : M SymExpr :=
  e <- z3_call op args ;; registerExpression e.

Definition g_null_pointer : ast := Z3_mk_numeral 0 (SBV 64).
Definition g_true : ast := Z3_mk_true.
Definition g_false : ast := Z3_mk_false.

(** The part of [_sym_initialize] that creates the solver and the constants. *)
Definition init_solver : M unit :=
  modify (set_solver [[]]) ;;;
  pointerSort <- z3_mk_bv_sort (8 * 8) ;;
  z3_inc_ref (inr pointerSort) ;;;
  z3_inc_ref (inl g_null_pointer) ;;;
  z3_dec_ref (inr pointerSort) ;;;
  z3_inc_ref (inl g_true) ;;;
  z3_inc_ref (inl g_false).

Definition build_variable (name : string) (bits : Z) : M SymExpr :=
  sort <- z3_mk_bv_sort (u8 bits) ;;
  z3_inc_ref (inr sort) ;;;
  let result := Z3_mk_const name sort in
  z3_inc_ref (inl result) ;;;
  z3_dec_ref (inr sort) ;;;
  ret (Some result).

Definition build_variable_int (name : string) : M SymExpr :=
  z3_inc_ref (inr SInt) ;;;
  let result := Z3_mk_const name SInt in
  z3_inc_ref (inl result) ;;;
  z3_dec_ref (inr SInt) ;;;
  ret (Some result).

Definition sym_build_integer (value bits : Z) : M SymExpr :=
  sort <- z3_mk_bv_sort (u8 bits) ;;
  z3_inc_ref (inr sort) ;;;
  result <- registerExpression (Some (Z3_mk_numeral (u64 value) sort)) ;;
  z3_dec_ref (inr sort) ;;;
  ret result.

Definition sym_build_integer128 (high low : Z) : M SymExpr :=
  h <- sym_build_integer high 64 ;;
  l <- sym_build_integer low 64 ;;
  reg_call Concat [h; l].

Definition sym_build_float (value : spec_float) (is_double : bool) : M SymExpr :=
  let sort := SFP is_double in
  z3_inc_ref (inr sort) ;;;
  result <- registerExpression (Some (Z3_mk_fpa_numeral_double value is_double)) ;;
  z3_dec_ref (inr sort) ;;;
  ret result.

(** The vector of input bytes, extended to [offset] with null entries. *)
Definition resize_push (l : list SymExpr) (offset : Z) (v : SymExpr) : list SymExpr :=
  take (Z.to_nat offset) (l ++ replicate (Z.to_nat offset - length l) None) ++ [v].

Definition sym_get_input_byte (offset _value : Z) : M SymExpr :=
  s <- get ;;
  if offset <? Z.of_nat (length (stdinBytes s)) then
    ret (default None (stdinBytes s !! Z.to_nat offset))
  else
    let varName := ("stdin" +:+ pretty (length (stdinBytes s)))%string in
    var <- build_variable varName 8 ;;
    modify (λ s, set_stdin (resize_push (stdinBytes s) offset var) s) ;;;
    ret var.

Definition sym_get_input_byte_with_prefix (prefix : string) (offset _value : Z)
    : M SymExpr :=
  s <- get ;;
  if offset <? Z.of_nat (length (prefixBytes s)) then
    ret (default None (prefixBytes s !! Z.to_nat offset))
  else
    let varName := (prefix +:+ "__" +:+ pretty (length (prefixBytes s)))%string in
    var <- build_variable varName 8 ;;
    modify (λ s, set_prefix (resize_push (prefixBytes s) offset var) s) ;;;
    ret var.

Definition sym_get_integer (name : string) : M SymExpr := build_variable_int name.

Definition sym_build_null_pointer : M SymExpr := ret (Some g_null_pointer).
Definition sym_build_true : M SymExpr := ret (Some g_true).
Definition sym_build_false : M SymExpr := ret (Some g_false).
Definition sym_build_bool (value : bool) : M SymExpr :=
  ret (Some (if value then g_true else g_false)).

(** The macro DEF_BINARY_EXPR_BUILDER and its uses, for the operators that are
    a single solver function. *)
Definition binary_table (op : sym_binop) : option z3op :=
  match op with
  | B_add => Some Bvadd
  | B_sub => Some Bvsub
  | B_mul => Some Bvmul
  | B_unsigned_div => Some Bvudiv
  | B_signed_div => Some Bvsdiv
  | B_unsigned_rem => Some Bvurem
  | B_signed_rem => Some Bvsrem
  | B_shift_left => Some Bvshl
  | B_logical_shift_right => Some Bvlshr
  | B_arithmetic_shift_right => Some Bvashr
  | B_signed_less_than => Some Bvslt
  | B_signed_less_equal => Some Bvsle
  | B_signed_greater_than => Some Bvsgt
  | B_signed_greater_equal => Some Bvsge
  | B_unsigned_less_than => Some Bvult
  | B_unsigned_less_equal => Some Bvule
  | B_unsigned_greater_than => Some Bvugt
  | B_unsigned_greater_equal => Some Bvuge
  | B_equal => Some Eq
  | B_and => Some Bvand
  | B_or => Some Bvor
  | B_bool_xor => Some Xor
  | B_xor => Some Bvxor
  | B_not_equal | B_bool_and | B_bool_or => None
  end.

Definition sym_build_not_equal (a b : SymExpr) : M SymExpr :=
  e <- z3_call Eq [a; b] ;; reg_call Not [e].
Definition sym_build_bool_and (a b : SymExpr) : M SymExpr := reg_call And [a; b].
Definition sym_build_bool_or (a b : SymExpr) : M SymExpr := reg_call Or [a; b].

Definition build_binary (op : sym_binop) (a b : SymExpr) : M SymExpr :=
  match binary_table op with
  | Some f => reg_call f [a; b]
  | None =>
      match op with
      | B_bool_and => sym_build_bool_and a b
      | B_bool_or => sym_build_bool_or a b
      | _ => sym_build_not_equal a b
      end
  end.

Definition sym_build_neg (expr : SymExpr) : M SymExpr := reg_call Bvneg [expr].
Definition sym_build_not (expr : SymExpr) : M SymExpr := reg_call Bvnot [expr].
Definition sym_build_ite (cond a b : SymExpr) : M SymExpr := reg_call Ite [cond; a; b].

Definition sym_build_sext (expr : SymExpr) (bits : Z) : M SymExpr :=
  match expr with
  | None => ret None
  | Some _ => reg_call (Sign_ext (u8 bits)) [expr]
  end.
Definition sym_build_zext (expr : SymExpr) (bits : Z) : M SymExpr :=
  match expr with
  | None => ret None
  | Some _ => reg_call (Zero_ext (u8 bits)) [expr]
  end.
Definition sym_build_trunc (expr : SymExpr) (bits : Z) : M SymExpr :=
  match expr with
  | None => ret None
  | Some _ => reg_call (Extract (u32 (u8 bits - 1)) 0) [expr]
  end.

Definition sym_build_bool_to_bit (expr : SymExpr) : M SymExpr :=
  match expr with
  | None => ret None
  | Some _ =>
      one <- sym_build_integer 1 1 ;;
      zero <- sym_build_integer 0 1 ;;
      sym_build_ite expr one zero
  end.

Definition sym_concat_helper (a b : SymExpr) : M SymExpr := reg_call Concat [a; b].
Definition sym_extract_helper (expr : SymExpr) (first_bit last_bit : Z) : M SymExpr :=
  reg_call (Extract (u32 first_bit) (u32 last_bit)) [expr].

Definition sym_bits_helper (expr : SymExpr) : M Z :=
  a <- nonnull expr ;;
  let sort := Z3_get_sort a in
  z3_inc_ref (inr sort) ;;;
  result <- (match sort with
             | SBV w => ret w
             | _ => fail (SolverError "not a bit vector")
             end) ;;
  z3_dec_ref (inr sort) ;;;
  ret result.

(** ** Floating-point builders *)
Definition sym_build_fp_add (a b : SymExpr) : M SymExpr := reg_call Fpa_add [a; b].
Definition sym_build_fp_sub (a b : SymExpr) : M SymExpr := reg_call Fpa_sub [a; b].
Definition sym_build_fp_mul (a b : SymExpr) : M SymExpr := reg_call Fpa_mul [a; b].
Definition sym_build_fp_div (a b : SymExpr) : M SymExpr := reg_call Fpa_div [a; b].
Definition sym_build_fp_rem (a b : SymExpr) : M SymExpr := reg_call Fpa_rem [a; b].
Definition sym_build_fp_abs (a : SymExpr) : M SymExpr := reg_call Fpa_abs [a].
Definition sym_build_fp_neg (a : SymExpr) : M SymExpr := reg_call Fpa_neg [a].

Definition sym_build_float_ordered_greater_than (a b : SymExpr) := reg_call Fpa_gt [a; b].
Definition sym_build_float_ordered_greater_equal (a b : SymExpr) := reg_call Fpa_geq [a; b].
Definition sym_build_float_ordered_less_than (a b : SymExpr) := reg_call Fpa_lt [a; b].
Definition sym_build_float_ordered_less_equal (a b : SymExpr) := reg_call Fpa_leq [a; b].
Definition sym_build_float_ordered_equal (a b : SymExpr) := reg_call Fpa_eq [a; b].

Definition sym_build_float_ordered_not_equal (a b : SymExpr) : M SymExpr :=
  e <- sym_build_float_ordered_equal a b ;; reg_call Not [e].

Definition sym_build_float_unordered (a b : SymExpr) : M SymExpr :=
  check0 <- z3_call Fpa_is_nan [a] ;;
  inc_ref check0 ;;;
  check1 <- z3_call Fpa_is_nan [b] ;;
  inc_ref check1 ;;;
  result <- z3_call Or [check0; check1] ;;
  dec_ref check0 ;;;
  dec_ref check1 ;;;
  registerExpression result.

Definition sym_build_float_ordered (a b : SymExpr) : M SymExpr :=
  e <- sym_build_float_unordered a b ;; reg_call Not [e].

(** The common text of the unordered comparisons: NaN, NaN, or the ordered
    comparison. *)
Definition float_unordered_or (cmp : SymExpr → SymExpr → M SymExpr) (a b : SymExpr)
    : M SymExpr :=
  check0 <- z3_call Fpa_is_nan [a] ;;
  inc_ref check0 ;;;
  check1 <- z3_call Fpa_is_nan [b] ;;
  inc_ref check1 ;;;
  check2 <- cmp a b ;;
  inc_ref check2 ;;;
  result <- z3_call Or [check0; check1; check2] ;;
  dec_ref check0 ;;;
  dec_ref check1 ;;;
  dec_ref check2 ;;;
  registerExpression result.

Definition sym_build_float_unordered_greater_than :=
  float_unordered_or sym_build_float_ordered_greater_than.
Definition sym_build_float_unordered_greater_equal :=
  float_unordered_or sym_build_float_ordered_greater_equal.
Definition sym_build_float_unordered_less_than :=
  float_unordered_or sym_build_float_ordered_less_than.
Definition sym_build_float_unordered_less_equal :=
  float_unordered_or sym_build_float_ordered_less_equal.
Definition sym_build_float_unordered_equal :=
  float_unordered_or sym_build_float_ordered_equal.
Definition sym_build_float_unordered_not_equal (a b : SymExpr) : M SymExpr :=
  match a, b with
  | None, _ | _, None => ret None
  | _, _ => float_unordered_or sym_build_float_ordered_not_equal a b
  end.

(** Conversions; the sort of the target format is held during the call. *)
Definition with_fsort (is_double : bool) (m : M SymExpr) : M SymExpr :=
  let sort := SFP is_double in
  z3_inc_ref (inr sort) ;;;
  result <- m ;;
  z3_dec_ref (inr sort) ;;;
  ret result.

Definition sym_build_int_to_float (value : SymExpr) (is_double is_signed : bool) : M SymExpr :=
  with_fsort is_double
    (reg_call (if is_signed then Fpa_to_fp_signed is_double
               else Fpa_to_fp_unsigned is_double) [value]).
Definition sym_build_float_to_float (expr : SymExpr) (to_double : bool) : M SymExpr :=
  with_fsort to_double (reg_call (Fpa_to_fp_float to_double) [expr]).
Definition sym_build_bits_to_float (expr : SymExpr) (to_double : bool) : M SymExpr :=
  match expr with
  | None => ret None
  | Some _ => with_fsort to_double (reg_call (Fpa_to_fp_bv to_double) [expr])
  end.
Definition sym_build_float_to_bits (expr : SymExpr) : M SymExpr :=
  match expr with
  | None => ret None
  | Some _ => reg_call Fpa_to_ieee_bv [expr]
  end.
Definition sym_build_float_to_signed_integer (expr : SymExpr) (bits : Z) : M SymExpr :=
  reg_call (Fpa_to_sbv (u8 bits)) [expr].
Definition sym_build_float_to_unsigned_integer (expr : SymExpr) (bits : Z) : M SymExpr :=
  reg_call (Fpa_to_ubv (u8 bits)) [expr].

(** ** Builders over unbounded integers *)
Definition sym_build_bits_to_int (expr : SymExpr) (is_signed : bool) : M SymExpr :=
  reg_call (Bv2int is_signed) [expr].

Inductive int_binop : Type :=
| I_add | I_sub | I_mul | I_and | I_or
| I_unsigned_div | I_signed_div | I_unsigned_mod | I_signed_rem | I_unsigned_rem
| I_signed_less_than | I_signed_less_equal | I_signed_greater_than
| I_signed_greater_equal | I_unsigned_less_than | I_unsigned_less_equal
| I_unsigned_greater_than | I_unsigned_greater_equal | I_equal | I_xor | I_bool_xor.

(** DEF_INT_NARY_EXPR_BUILDER and DEF_INT_BINARY_EXPR_BUILDER: the solver
    function and the signedness of the operands. *)
Definition int_table (op : int_binop) : z3op * bool :=
  match op with
  | I_add => (Iadd, false) | I_sub => (Isub, false) | I_mul => (Imul, false)
  | I_and => (And, false) | I_or => (Or, false)
  | I_unsigned_div => (Idiv, false) | I_signed_div => (Idiv, true)
  | I_unsigned_mod => (Imod, false)
  | I_signed_rem => (Irem, true) | I_unsigned_rem => (Irem, false)
  | I_signed_less_than => (Ilt, true) | I_signed_less_equal => (Ile, true)
  | I_signed_greater_than => (Igt, true) | I_signed_greater_equal => (Ige, true)
  | I_unsigned_less_than => (Ilt, false) | I_unsigned_less_equal => (Ile, false)
  | I_unsigned_greater_than => (Igt, false) | I_unsigned_greater_equal => (Ige, false)
  | I_equal => (Eq, false) | I_xor => (Xor, false) | I_bool_xor => (Xor, false)
  end.

Definition sym_build_int (op : int_binop) (a b : SymExpr) : M SymExpr :=
  let (f, is_signed) := int_table op in
  a_int <- sym_build_bits_to_int a is_signed ;;
  b_int <- sym_build_bits_to_int b is_signed ;;
  reg_call f [a_int; b_int].

(** ** Solver queries *)
Definition sym_feasible (expr : SymExpr) : M bool :=
  a <- nonnull expr ;;
  let a := Z3_simplify a in
  z3_inc_ref (inl a) ;;;
  z3_solver_push ;;;
  z3_solver_assert a ;;;
  s <- get ;;
  let feasible := Z3_check (assertions s) in
  z3_solver_pop ;;;
  z3_dec_ref (inl a) ;;;
  ret (bool_decide (feasible = Some true)).

Definition symcc_reset_constraints : M unit := modify (set_solver [[]]).

(** The sweep of the garbage collector: the expressions that are not reachable
    are forgotten. *)
Definition collect_garbage (threshold : Z) (reachable : gset ast) : M unit :=
  s <- get ;;
  if Z.of_nat (size (allocatedExpressions s)) <? threshold then ret tt
  else modify (λ s, set_allocated
         (filter (λ a, a ∈ reachable) (allocatedExpressions s)) s).

(** Without location, path constraints are ignored. *)
Definition sym_push_path_constraint (_constraint : SymExpr) (_taken : bool)
    (_site_id : Z) : M unit := ret tt.

End defs.

(** ** Reference accounting

    [surplus n s] is the number of references to [n] beyond the one that
    [registerExpression] takes for an expression it has recorded. A builder is
    [balanced] when it changes the surplus of no object and touches nothing
    but the reference counts and the set of recorded expressions. *)
Section accounting.
Context {Z3I : Z3}.
Implicit Types (s : state) (n : ast + sort).

Definition registered n s : Z :=
  match n with
  | inl a => if decide (a ∈ allocatedExpressions s) then 1 else 0
  | inr _ => 0
  end.

Definition surplus n s : Z := ref_count n s - registered n s.

Definition alive (a : ast) s : Prop := 0 < ref_count (inl a) s.

Definition balanced s s' : Prop :=
  (∀ n, surplus n s' = surplus n s) ∧
  allocatedExpressions s ⊆ allocatedExpressions s' ∧
  s' = set_refs (refs s') (set_allocated (allocatedExpressions s') s).

Definition held (e : option ast) s : Prop :=
  match e with Some a => 1 ≤ surplus (inl a) s | None => True end.
(** The invariant of the backend after [_sym_initialize]. *)
Definition binv s : Prop :=
  g_initialized s = true ∧ solver s ≠ [] ∧
  (∀ n, 0 ≤ surplus n s) ∧
  1 ≤ surplus (inl g_true) s ∧ 1 ≤ surplus (inl g_false) s ∧
  Forall (λ e, held e s) (stdinBytes s) ∧ Forall (λ e, held e s) (prefixBytes s) ∧
  1 ≤ surplus (inl g_null_pointer) s.

(** No reference is lost. *)
Definition refs_ext s s' : Prop :=
  ∀ n, ref_count n s ≤ ref_count n s' ∧ surplus n s ≤ surplus n s'.

Definition stdin_name (i : nat) : string := "stdin" +:+ pretty i.
Definition stdin_const (i : nat) : option ast := Some (Z3_mk_const (stdin_name i) (SBV 8)).

(** The first [k] input bytes have been requested, in order. *)
Definition inputs_read s (k : Z) : Prop :=
  0 ≤ k ∧ stdinBytes s = stdin_const <$> seq 0 (Z.to_nat k).

(** How the state of the backend may evolve. *)
Definition bext s s' : Prop :=
  refs_ext s s' ∧ ∀ k, inputs_read s k → ∃ k', k ≤ k' ∧ inputs_read s' k'.

(** [owing l s0 s]: [s] differs from [s0] by the references [l] and by newly
    recorded expressions only. *)
Definition occ (n : ast + sort) (l : list (ast + sort)) : Z :=
  Z.of_nat (length (filter (λ m, m = n) l)).

Definition owing (l : list (ast + sort)) s0 s : Prop :=
  (∀ n, surplus n s = surplus n s0 + occ n l) ∧
  allocatedExpressions s0 ⊆ allocatedExpressions s ∧
  s = set_refs (refs s) (set_allocated (allocatedExpressions s) s0).

(** [m] returns normally and establishes [P]. *)
Definition post {A} (m : M state A) s (P : A → state → Prop) : Prop :=
  ∃ a s', m s = Ok a s' ∧ P a s'.

(** The result of a builder: recorded, and of value [v]. *)
Definition built {ZL : Z3Laws Z3I} ρ v (e : option ast) s : Prop :=
  ∃ h, e = Some h ∧ h ∈ allocatedExpressions s ∧ Z3_eval ρ h = v.

End accounting.

#[export] Instance simple_backend {Z3I : Z3} : Backend := {|
  handle := ast;
  bstate := state;
  _sym_build_integer := sym_build_integer;
  _sym_build_bool := sym_build_bool;
  sym_build_binary := build_binary;
  _sym_build_neg := sym_build_neg;
  _sym_build_not := sym_build_not;
  _sym_build_ite := sym_build_ite;
  _sym_build_sext := sym_build_sext;
  _sym_build_zext := sym_build_zext;
  _sym_build_trunc := sym_build_trunc;
  _sym_build_bool_to_bit := sym_build_bool_to_bit;
  _sym_concat_helper := sym_concat_helper;
  _sym_extract_helper := sym_extract_helper;
  _sym_bits_helper := sym_bits_helper;
  _sym_push_path_constraint := sym_push_path_constraint;
  _sym_get_input_byte := sym_get_input_byte;
  _sym_get_input_byte_with_prefix := sym_get_input_byte_with_prefix;
  _sym_get_integer := sym_get_integer;
|}.

(** The globals before [_sym_initialize]. *)
Definition uninitialized {Z3I : Z3} : state := {|
  g_initialized := false; refs := ∅; allocatedExpressions := ∅;
  stdinBytes := []; prefixBytes := []; solver := [];
  string_eq_constraints := []; string_not_eq_constraints := [];
  string_taken := false; log := [] |}.
