(* ===== verification/SimpleSpec.v ===== *)
(** * The simple backend keeps its contract

    Reference accounting of the builders of SimpleBackend.v, the value each
    of them computes, and the instance [simple_backend_spec] of
    [Interface.BackendSpec]. *)

From S2P Require Import Prelude Smt Z3Api Interface SimpleBackend.
From stdpp Require Import pretty.
From Stdlib Require Import SpecFloat.

#[local] Open Scope Z_scope.
Section accounting.
Context {Z3I : Z3}.
Implicit Types (s : state) (n : ast + sort).

#[export] Instance bext_preorder : PreOrder bext.
Proof.
  split.
  - intros s. split; [intros n; lia|]. intros k ?. by exists k.
  - intros s1 s2 s3 [H1 K1] [H2 K2]. split.
    + intros n. destruct (H1 n), (H2 n). lia.
    + intros k (k'&?&(k''&?&?)%K2)%K1. exists k''. split; [lia|done].
Qed.

(** States with the same input bytes. *)
Lemma bext_intro s s' : refs_ext s s' → stdinBytes s' = stdinBytes s → bext s s'.
Proof.
  intros H E. split; [done|]. intros k [? Hk]. exists k. split; [done|].
  split; [done|]. by rewrite E.
Qed.

#[export] Instance balanced_preorder : PreOrder balanced.
Proof.
  split.
  - intros s. split_and!; [done|done|by destruct s].
  - intros s1 s2 s3 (A1&B1&C1) (A2&B2&C2). split_and!.
    + intros n. by rewrite A2, A1.
    + by etransitivity.
    + rewrite C2, C1. done.
Qed.

Lemma balanced_bext s s' : balanced s s' → bext s s'.
Proof.
  intros (A&B&C). apply bext_intro; [|by rewrite C].
  intros n. specialize (A n). unfold surplus in *.
  enough (registered n s ≤ registered n s') by lia.
  destruct n as [a|]; cbn; [|done]. repeat case_decide; set_solver || lia.
Qed.

Lemma bext_alive s s' a : bext s s' → alive a s → alive a s'.
Proof. unfold alive. intros [H _] ?. destruct (H (inl a)). lia. Qed.

Lemma held_ext s s' e : bext s s' → held e s → held e s'.
Proof. destruct e; cbn; [|done]. intros [H _] ?. destruct (H (inl a)). lia. Qed.

Lemma held_alive s a : held (Some a) s → alive a s.
Proof. unfold held, alive, surplus. cbn. case_decide; lia. Qed.

(** The invariant is kept by every step that loses no reference and does not
    touch the other globals. *)
Lemma binv_ext s s' :
  binv s → bext s s' → g_initialized s' = true → solver s' ≠ [] →
  stdinBytes s' = stdinBytes s → prefixBytes s' = prefixBytes s → binv s'.
Proof.
  intros (?&?&Hs&?&?&H1&H2&?) X ?? E1 E2. unfold binv. rewrite E1, E2.
  split_and!; try done.
  - intros n. destruct (proj1 X n). specialize (Hs n). lia.
  - destruct (proj1 X (inl g_true)). lia.
  - destruct (proj1 X (inl g_false)). lia.
  - eapply Forall_impl; [exact H1|]. eauto using held_ext.
  - eapply Forall_impl; [exact H2|]. eauto using held_ext.
  - destruct (proj1 X (inl g_null_pointer)). lia.
Qed.

Lemma balanced_binv s s' : balanced s s' → binv s → binv s'.
Proof.
  intros X I. eapply binv_ext; [exact I|by apply balanced_bext|..];
    destruct X as (_&_&->), I as (?&?&_); done.
Qed.

(** *** Taking and dropping references *)
Lemma ref_count_inc n n' s :
  ref_count n' (set_refs (<[n := ref_count n s + 1]> (refs s)) s) =
  ref_count n' s + (if decide (n' = n) then 1 else 0).
Proof.
  unfold ref_count. cbn. case_decide; subst.
  - by rewrite lookup_insert_eq.
  - rewrite lookup_insert_ne by done. lia.
Qed.

Lemma inc_surplus n n' s s' :
  z3_inc_ref n s = Ok tt s' →
  surplus n' s' = surplus n' s + (if decide (n' = n) then 1 else 0).
Proof.
  intros [= <-]. unfold surplus. rewrite ref_count_inc.
  destruct n'; cbn; lia.
Qed.

Lemma inc_state n s s' : z3_inc_ref n s = Ok tt s' → s' = set_refs (refs s') s.
Proof. by intros [= <-]. Qed.

Lemma dec_surplus n s :
  0 < ref_count n s →
  ∃ s', z3_dec_ref n s = Ok tt s' ∧ s' = set_refs (refs s') s ∧
    ∀ n', surplus n' s' = surplus n' s - (if decide (n' = n) then 1 else 0).
Proof.
  intros H. unfold z3_dec_ref, get, bind.
  replace (ref_count n s <=? 0) with false by lia.
  destruct (Z.eqb_spec (ref_count n s) 1) as [E|E]; eexists; (split_and!; [done..|]);
    intros n'; unfold surplus; cbn;
    (replace (registered n' _) with (registered n' s) by (by destruct n')).
  - enough (ref_count n' (set_refs (delete n (refs s)) s) =
            ref_count n' s - (if decide (n' = n) then 1 else 0)) as -> by lia.
    unfold ref_count in *. cbn. case_decide; subst.
    + rewrite lookup_delete_eq. cbn. lia.
    + rewrite lookup_delete_ne by done. lia.
  - enough (ref_count n' (set_refs (<[n := ref_count n s - 1]> (refs s)) s) =
            ref_count n' s - (if decide (n' = n) then 1 else 0)) as -> by lia.
    unfold ref_count in *. cbn. case_decide; subst.
    + rewrite lookup_insert_eq. cbn. lia.
    + rewrite lookup_insert_ne by done. lia.
Qed.


(** *** Computations that hold references for a while *)
Lemma post_ret {A} (a : A) s (P : A → state → Prop) : P a s → post (ret a) s P.
Proof. intros. by exists a, s. Qed.

Lemma post_bind {A C} (m : M state A) (k : A → M state C) s P Q :
  post m s P → (∀ a s', P a s' → post (k a) s' Q) → post (bind m k) s Q.
Proof.
  intros (a&s1&E&HP) Hk. destruct (Hk a s1 HP) as (c&s2&E2&HQ).
  exists c, s2. by rewrite (bind_Ok _ _ _ _ _ E).
Qed.

Lemma post_impl {A} (m : M state A) s (P Q : A → state → Prop) :
  post m s P → (∀ a s', P a s' → Q a s') → post m s Q.
Proof. intros (a&s1&E&HP) HQ. exists a, s1. eauto. Qed.

Lemma occ_cons n m l : occ n (m :: l) = (if decide (n = m) then 1 else 0) + occ n l.
Proof. unfold occ. rewrite filter_cons. repeat case_decide; cbn; subst; try done; lia. Qed.

Lemma occ_app n l1 l2 : occ n (l1 ++ l2) = occ n l1 + occ n l2.
Proof. unfold occ. rewrite filter_app, length_app. lia. Qed.

Lemma owing_nil s : owing [] s s.
Proof. split_and!; [intros; cbn; unfold occ; cbn; lia|done|by destruct s]. Qed.

Lemma owing_balanced s s' : owing [] s s' ↔ balanced s s'.
Proof.
  split; intros (H&?&?); split_and!; try done; intros n; specialize (H n);
    unfold occ in *; cbn in *; lia.
Qed.

Lemma owing_surplus l s0 s n : binv s0 → owing l s0 s → surplus n s0 ≤ surplus n s ∧ 0 ≤ surplus n s.
Proof.
  intros (_&_&I&_) (H&_). rewrite H. specialize (I n). unfold occ. lia.
Qed.

Lemma post_inc l s0 s a :
  owing l s0 s → post (z3_inc_ref a) s (λ _ s', owing (a :: l) s0 s').
Proof.
  intros (H1&H2&H3). eexists tt, _. split; [done|]. split_and!; [|done|cbn; by rewrite H3].
  intros n. erewrite (inc_surplus a n s) by done. rewrite occ_cons, H1. lia.
Qed.

Lemma post_dec_nonneg l1 l2 n s0 s :
  (∀ n, 0 ≤ surplus n s0) → owing (l1 ++ n :: l2) s0 s →
  post (z3_dec_ref n) s (λ _ s', owing (l1 ++ l2) s0 s' ∧
    allocatedExpressions s' = allocatedExpressions s).
Proof.
  intros I O. pose proof O as (H1&H2&H3).
  assert (0 < ref_count n s) as Hc.
  { specialize (H1 n). specialize (I n).
    rewrite occ_app, occ_cons, decide_True in H1 by done. unfold surplus in *.
    assert (0 ≤ registered n s) by (destruct n; cbn; repeat case_decide; lia).
    unfold occ in *. lia. }
  destruct (dec_surplus n s Hc) as (s'&E&Es&Hs').
  exists tt, s'. split; [done|]. split; [|by rewrite Es]. split_and!.
  - intros m. rewrite Hs', H1, !occ_app, occ_cons. repeat case_decide; lia.
  - by rewrite Es.
  - rewrite Es. cbn. rewrite H3. done.
Qed.

Lemma post_dec l1 l2 n s0 s :
  binv s0 → owing (l1 ++ n :: l2) s0 s →
  post (z3_dec_ref n) s (λ _ s', owing (l1 ++ l2) s0 s' ∧
    allocatedExpressions s' = allocatedExpressions s).
Proof. intros (_&_&I&_). by apply post_dec_nonneg. Qed.

Lemma post_inc_ref l s0 s a :
  owing l s0 s → post (inc_ref (Some a)) s (λ _ s', owing (inl a :: l) s0 s').
Proof. exact (post_inc l s0 s (inl a)). Qed.

Lemma post_dec_ref l1 l2 a s0 s :
  binv s0 → owing (l1 ++ inl a :: l2) s0 s →
  post (dec_ref (Some a)) s (λ _ s', owing (l1 ++ l2) s0 s' ∧
    allocatedExpressions s' = allocatedExpressions s).
Proof. exact (post_dec l1 l2 (inl a) s0 s). Qed.

Lemma post_register l s0 s a :
  owing l s0 s →
  post (registerExpression (Some a)) s
    (λ e s', e = Some a ∧ owing l s0 s' ∧ a ∈ allocatedExpressions s').
Proof.
  intros (H1&H2&H3). unfold post, registerExpression, get, bind, nonnull, ret. cbn.
  case_decide as Ha.
  - exists (Some a), s. done.
  - eexists _, _. split; [done|]. cbn. split; [done|]. split; [|set_solver].
    split_and!; [|cbn; set_solver|cbn; by rewrite H3].
    intros n. rewrite <-H1.
    erewrite (inc_surplus (inl a) n (set_allocated _ s)) by done. unfold surplus.
    change (ref_count n (set_allocated _ s)) with (ref_count n s).
    destruct n as [b|b]; cbn; repeat destruct (decide _); simplify_eq; (lia || set_solver).
Qed.

Lemma nonnull_all_ok (args : list ast) s : nonnull_all (Some <$> args) s = Ok args s.
Proof. induction args as [|a l IH]; cbn; [done|]. unfold bind in *. cbn. by rewrite IH. Qed.

Section calls.
Context {ZL : Z3Laws Z3I}.

Lemma post_call ρ op (args : list ast) v s :
  smt_denote op (Z3_eval ρ <$> args) = Some v →
  post (z3_call op (Some <$> args)) s
    (λ e s', s' = s ∧ ∃ h, e = Some h ∧ Z3_eval ρ h = v).
Proof.
  intros H. destruct (Z3_mk_denote _ _ _ _ H) as (e&He&Hv).
  unfold post, z3_call, bind. rewrite nonnull_all_ok, He. exists (Some e), s. eauto.
Qed.

Lemma post_reg_call ρ op (args : list ast) v l s0 s :
  owing l s0 s →
  smt_denote op (Z3_eval ρ <$> args) = Some v →
  post (reg_call op (Some <$> args)) s (λ e s', owing l s0 s' ∧ built ρ v e s').
Proof.
  intros O H. eapply post_bind; [by apply post_call|].
  intros ? ? (->&h&->&?). eapply post_impl; [by apply post_register|].
  intros e s' (->&?&?). split; [done|]. exists h. eauto.
Qed.

(** *** The builders *)
Lemma built_rep ρ v e l s0 s :
  binv s0 → owing l s0 s → built ρ v e s → ∃ h, e = Some h ∧ alive h s ∧ Z3_eval ρ h = v.
Proof.
  intros I O (h&->&Hh&Hv). exists h. split_and!; [done| |done].
  destruct (owing_surplus _ _ _ (inl h) I O) as [_ Hs].
  unfold alive, surplus in *. cbn in Hs. rewrite decide_True in Hs by done. lia.
Qed.

Definition rep ρ s (h : ast) (v : value) : Prop := alive h s ∧ Z3_eval ρ h = v.

(** What a builder promises: a balanced computation that returns an expression
    of value [v]. *)
Definition makes ρ (m : M state (option ast)) s (v : value) : Prop :=
  returns binv balanced m s (λ e s', ∃ h, e = Some h ∧ rep ρ s' h v).

Lemma post_makes ρ m s v :
  binv s → post m s (λ e s', owing [] s s' ∧ built ρ v e s') → makes ρ m s v.
Proof.
  intros I (e&s'&E&O&Hb). exists e, s'. pose proof O as X%owing_balanced.
  split_and!; [done|by eapply balanced_binv|done|].
  destruct (built_rep _ _ _ _ _ _ I O Hb) as (h&?&?&?). by exists h.
Qed.

Lemma reg_call_makes ρ op (args : list ast) s v :
  binv s → smt_denote op (Z3_eval ρ <$> args) = Some v →
  makes ρ (reg_call op (Some <$> args)) s v.
Proof.
  intros I H. apply post_makes; [done|]. eapply post_reg_call; [apply owing_nil|done].
Qed.

(** A balanced computation under a reference to a sort. *)
Lemma post_bracket ρ v τ (m : M state (option ast)) l s0 s :
  binv s0 → owing l s0 s →
  (∀ s1, owing (inr τ :: l) s0 s1 →
    post m s1 (λ e s', owing (inr τ :: l) s0 s' ∧ built ρ v e s')) →
  post (z3_inc_ref (inr τ) ;;; r <- m ;; z3_dec_ref (inr τ) ;;; ret r) s
    (λ e s', owing l s0 s' ∧ built ρ v e s').
Proof.
  intros I O Hm. eapply post_bind; [by apply post_inc|].
  intros [] s1 O1. eapply post_bind; [by apply Hm|].
  intros e s2 [O2 Hb]. eapply post_bind; [by eapply (post_dec [])|].
  intros [] s3 [O3 E3]. apply post_ret. split; [done|].
  destruct Hb as (h&?&?&?). exists h. by rewrite E3.
Qed.

Lemma post_build_integer ρ value bits l s0 s :
  binv s0 → owing l s0 s → 0 < bits < 2 ^ 8 →
  post (sym_build_integer value bits) s
    (λ e s', owing l s0 s' ∧ built ρ (VBV bits (wrap bits (u64 value))) e s').
Proof.
  intros I O Hb. unfold sym_build_integer, z3_mk_bv_sort. rewrite u8_small by lia.
  replace (0 <? bits) with true by lia. cbn.
  apply (post_bracket _ _ (SBV bits)); [done..|]. intros s1 O1.
  eapply post_impl; [by apply post_register|].
  intros e s' (->&?&?). split; [done|]. eexists. split_and!; [done..|].
  apply Z3_numeral_eval. lia.
Qed.

Lemma post_build_float ρ f d l s0 s :
  binv s0 → owing l s0 s →
  post (sym_build_float f d) s
    (λ e s', owing l s0 s' ∧ built ρ (VFP d (fp_convert d f)) e s').
Proof.
  intros I O. apply post_bracket; [done..|]. intros s1 O1.
  eapply post_impl; [by apply post_register|].
  intros e s' (->&?&?). split; [done|]. eexists. split_and!; [done..|].
  apply Z3_fpa_numeral_eval.
Qed.

Ltac reg_call ρ args := apply (reg_call_makes ρ _ args); [assumption|].

Lemma binary_denote op f u v r :
  binary_table op = Some f → binop_sem op u v = Some r → smt_denote f [u; v] = Some r.
Proof.
  intros Hf Hr. destruct op; cbn in Hf; simplify_eq; cbn in *; try done;
    unfold bv_arith, bv_rel; destruct u, v; done.
Qed.

Lemma build_binary_makes ρ op a b u v r s :
  binv s → Z3_eval ρ a = u → Z3_eval ρ b = v → binop_sem op u v = Some r →
  makes ρ (build_binary op (Some a) (Some b)) s r.
Proof.
  intros I Ha Hb Hr. unfold build_binary. destruct (binary_table op) as [f|] eqn:E.
  { reg_call ρ [a; b]. cbn [fmap list_fmap]. rewrite Ha, Hb. by eapply binary_denote. }
  destruct op; try done; cbn in Hr.
  - destruct (decide (value_sort u = value_sort v)) as [Hs|]; [|done]. simplify_eq.
    apply post_makes; [done|]. eapply post_bind.
    { apply (post_call ρ Eq [a; b]). cbn. by rewrite decide_True. }
    intros ? ? (->&h&->&Hh). apply (post_reg_call ρ Not [h]); [apply owing_nil|].
    cbn. by rewrite Hh.
  - destruct u, v; simplify_eq. reg_call ρ [a; b]. cbn. rewrite Ha, Hb. cbn.
    by rewrite andb_true_r.
  - destruct u, v; simplify_eq. reg_call ρ [a; b]. cbn. rewrite Ha, Hb. cbn.
    by rewrite orb_false_r.
Qed.

Lemma build_ite_makes ρ c a b (t : bool) u v s :
  binv s → Z3_eval ρ c = VBool t → Z3_eval ρ a = u → Z3_eval ρ b = v →
  value_sort u = value_sort v →
  makes ρ (sym_build_ite (Some c) (Some a) (Some b)) s (if t then u else v).
Proof.
  intros I Hc Ha Hb Hs. reg_call ρ [c; a; b]. cbn. rewrite Hc, Ha, Hb.
  by rewrite decide_True.
Qed.

Section one.
Context (ρ : env) (a : ast) (w x : Z) (s : state).
Context (I : binv s) (Ha : Z3_eval ρ a = VBV w x).

Lemma build_sext_makes k : 0 ≤ k < 2 ^ 8 →
  makes ρ (sym_build_sext (Some a) k) s (VBV (w + k) (wrap (w + k) (sgn w x))).
Proof.
  intros ?. unfold sym_build_sext. rewrite u8_small by lia. reg_call ρ [a].
  cbn. rewrite Ha. by replace (0 <=? k) with true by lia.
Qed.
Lemma build_zext_makes k : 0 ≤ k < 2 ^ 8 →
  makes ρ (sym_build_zext (Some a) k) s (VBV (w + k) x).
Proof.
  intros ?. unfold sym_build_zext. rewrite u8_small by lia. reg_call ρ [a].
  cbn. rewrite Ha. by replace (0 <=? k) with true by lia.
Qed.
Lemma extract_helper_makes hi lo : 0 ≤ lo ≤ hi → hi < w → w < 2 ^ 32 →
  makes ρ (sym_extract_helper (Some a) hi lo) s (VBV (hi - lo + 1) (bv_extract hi lo x)).
Proof.
  intros. unfold sym_extract_helper. rewrite !u32_small by lia. reg_call ρ [a].
  cbn. rewrite Ha. by replace ((0 <=? lo) && (lo <=? hi) && (hi <? w)) with true by lia.
Qed.
Lemma build_trunc_makes k : 0 < k < 2 ^ 8 → k ≤ w →
  makes ρ (sym_build_trunc (Some a) k) s (VBV k (wrap k x)).
Proof.
  intros. unfold sym_build_trunc. rewrite u8_small, u32_small by lia. reg_call ρ [a].
  cbn. rewrite Ha. replace ((0 <=? k - 1) && (k - 1 <? w)) with true by lia.
  unfold bv_extract, wrap. rewrite Z.div_1_r. by replace (k - 1 - 0 + 1) with k by lia.
Qed.
Lemma build_neg_makes : makes ρ (sym_build_neg (Some a)) s (VBV w (wrap w (- x))).
Proof. reg_call ρ [a]. cbn. by rewrite Ha. Qed.
Lemma build_not_makes : makes ρ (sym_build_not (Some a)) s (VBV w (2 ^ w - 1 - x)).
Proof. reg_call ρ [a]. cbn. by rewrite Ha. Qed.
Lemma concat_helper_makes b wb y : Z3_eval ρ b = VBV wb y →
  makes ρ (sym_concat_helper (Some a) (Some b)) s (VBV (w + wb) (x * 2 ^ wb + y)).
Proof. intros Hb. reg_call ρ [a; b]. cbn. by rewrite Ha, Hb. Qed.
Lemma bits_helper_returns :
  returns binv balanced (sym_bits_helper (Some a)) s (λ k _, k = w).
Proof.
  assert (Z3_get_sort a = SBV w) as Hs by (by rewrite <-(Z3_eval_sort ρ), Ha).
  assert (post (sym_bits_helper (Some a)) s (λ k s', k = w ∧ owing [] s s'))
    as (n&s'&E&->&O%owing_balanced).
  { eapply post_bind; [by apply post_ret with (P := λ b s', b = a ∧ s' = s)|].
    intros ? ? [-> ->]. rewrite Hs. eapply post_bind; [apply post_inc, owing_nil|].
    intros [] s1 O1. eapply post_bind; [by apply post_ret with (P := λ b s', b = w ∧ s' = s1)|].
    intros ? ? [-> ->]. eapply post_bind; [by eapply (post_dec [])|].
    intros [] s2 [O2 _]. by apply post_ret. }
  exists w, s'. split_and!; eauto using balanced_binv.
Qed.
End one.

Lemma build_bool_to_bit_makes ρ a b s :
  binv s → Z3_eval ρ a = VBool b →
  makes ρ (sym_build_bool_to_bit (Some a)) s (VBV 1 (if b then 1 else 0)).
Proof.
  intros I Ha. apply post_makes; [done|]. unfold sym_build_bool_to_bit.
  eapply post_bind; [by apply (post_build_integer ρ 1 1 _ _ _ I (owing_nil s))|].
  intros ? s1 [O1 (one&->&_&H1)].
  eapply post_bind; [by apply (post_build_integer ρ 0 1 _ _ _ I O1)|].
  intros ? s2 [O2 (zero&->&_&H0)].
  apply (post_reg_call ρ Ite [a; one; zero]); [done|]. cbn. rewrite Ha, H1, H0. by destruct b.
Qed.

Lemma build_integer_makes ρ value bits s :
  binv s → 0 < bits < 2 ^ 8 →
  makes ρ (sym_build_integer value bits) s (VBV bits (wrap bits (u64 value))).
Proof. intros. apply post_makes; [done|]. apply post_build_integer; [done|apply owing_nil|done]. Qed.

Lemma build_integer128_makes ρ high low s :
  binv s →
  makes ρ (sym_build_integer128 high low) s (VBV 128 (u64 high * 2 ^ 64 + u64 low)).
Proof.
  intros I. apply post_makes; [done|]. unfold sym_build_integer128.
  eapply post_bind; [by apply (post_build_integer ρ high 64 _ _ _ I (owing_nil s))|].
  intros ? s1 [O1 (h&->&_&H1)].
  eapply post_bind; [by apply (post_build_integer ρ low 64 _ _ _ I O1)|].
  intros ? s2 [O2 (l&->&_&H0)].
  apply (post_reg_call ρ Concat [h; l]); [done|]. cbn. rewrite H1, H0. cbn.
  unfold wrap, u64. by rewrite !Zmod_mod.
Qed.

Lemma build_bool_makes ρ b s : binv s → makes ρ (sym_build_bool b) s (VBool b).
Proof.
  intros I. exists (Some (if b then g_true else g_false)), s.
  split_and!; [done..|reflexivity|]. eexists. split; [done|]. split.
  - pose proof I as (_&_&_&?&?&_). by destruct b; apply held_alive.
  - destruct b; [apply Z3_true_eval|apply Z3_false_eval].
Qed.

(** *** Floating point *)
Lemma post_fp_rel ρ op f a b d x y l s0 s :
  owing l s0 s → Z3_eval ρ a = VFP d x → Z3_eval ρ b = VFP d y →
  (∀ vs, smt_denote op vs = fp_rel f vs) →
  post (reg_call op [Some a; Some b]) s
    (λ e s', owing l s0 s' ∧ built ρ (VBool (f x y)) e s').
Proof.
  intros O Ha Hb Hop. apply (post_reg_call ρ op [a; b]); [done|].
  rewrite Hop. cbn. by rewrite Ha, Hb, Bool.eqb_reflx.
Qed.

Section floats.
Context (ρ : env) (a b : ast) (d : bool) (x y : spec_float) (s0 : state).
Context (I : binv s0) (Ha : Z3_eval ρ a = VFP d x) (Hb : Z3_eval ρ b = VFP d y).

(** A comparison that can be called in the middle of another builder. *)
Definition compares (m : M state (option ast)) (r : bool) : Prop :=
  ∀ l s, owing l s0 s → post m s (λ e s', owing l s0 s' ∧ built ρ (VBool r) e s').

Lemma ordered_not_equal_compares :
  compares (sym_build_float_ordered_not_equal (Some a) (Some b)) (negb (SFeqb x y)).
Proof.
  intros l s O. eapply post_bind; [by eapply post_fp_rel|].
  intros ? s1 [O1 (h&->&_&Hh)]. apply (post_reg_call ρ Not [h]); [done|]. cbn. by rewrite Hh.
Qed.

Lemma post_nan_check e f s :
  Z3_eval ρ e = VFP d f →
  post (z3_call Fpa_is_nan [Some e]) s
    (λ r s', s' = s ∧ ∃ h, r = Some h ∧ Z3_eval ρ h = VBool (fp_is_nan f)).
Proof. intros H. apply (post_call ρ Fpa_is_nan [e]). cbn. by rewrite H. Qed.

Lemma unordered_compares :
  compares (sym_build_float_unordered (Some a) (Some b)) (fp_is_nan x || fp_is_nan y).
Proof.
  intros l s O. eapply post_bind; [by apply post_nan_check|].
  intros ? ? (->&h0&->&H0). eapply post_bind; [by apply post_inc_ref|].
  intros [] s1 O1. eapply post_bind; [by apply (post_nan_check b y)|].
  intros ? ? (->&h1&->&H1). eapply post_bind; [by apply post_inc_ref|].
  intros [] s2 O2. eapply post_bind.
  { apply (post_call ρ Or [h0; h1] (VBool (fp_is_nan x || fp_is_nan y))).
    cbn. rewrite H0, H1. cbn. by rewrite orb_false_r. }
  intros ? ? (->&r&->&Hr). eapply post_bind; [by eapply (post_dec_ref [_] l)|].
  intros [] s3 [O3 _]. eapply post_bind; [by eapply (post_dec_ref [] l)|].
  intros [] s4 [O4 _]. eapply post_impl; [by apply post_register|].
  intros ? s5 (->&O5&?). split; [done|]. by exists r.
Qed.

Lemma ordered_compares :
  compares (sym_build_float_ordered (Some a) (Some b)) (negb (fp_is_nan x || fp_is_nan y)).
Proof.
  intros l s O. eapply post_bind; [by apply unordered_compares|].
  intros ? s1 [O1 (h&->&_&Hh)]. apply (post_reg_call ρ Not [h]); [done|]. cbn. by rewrite Hh.
Qed.

Lemma unordered_or_compares cmp r :
  compares (cmp (Some a) (Some b)) r →
  compares (float_unordered_or cmp (Some a) (Some b)) (fp_is_nan x || fp_is_nan y || r).
Proof.
  intros Hc l s O. eapply post_bind; [by apply post_nan_check|].
  intros ? ? (->&h0&->&H0). eapply post_bind; [by apply post_inc_ref|].
  intros [] s1 O1. eapply post_bind; [by apply (post_nan_check b y)|].
  intros ? ? (->&h1&->&H1). eapply post_bind; [by apply post_inc_ref|].
  intros [] s2 O2. eapply post_bind; [by apply Hc|].
  intros ? s3 [O3 (h2&->&_&H2)]. eapply post_bind; [by apply post_inc_ref|].
  intros [] s4 O4. eapply post_bind.
  { apply (post_call ρ Or [h0; h1; h2] (VBool (fp_is_nan x || fp_is_nan y || r))).
    cbn. rewrite H0, H1, H2. cbn. by rewrite orb_false_r, orb_assoc. }
  intros ? ? (->&q&->&Hq).
  eapply post_bind; [apply (post_dec_ref [inl h2; inl h1] l h0 s0); [done|exact O4]|].
  intros [] s5 [O5 _]. eapply post_bind; [by eapply (post_dec_ref [_] l)|].
  intros [] s6 [O6 _]. eapply post_bind; [by eapply (post_dec_ref [] l)|].
  intros [] s7 [O7 _]. eapply post_impl; [by apply post_register|].
  intros ? s8 (->&O8&?). split; [done|]. by exists q.
Qed.

Lemma compares_makes m r : compares m r → makes ρ m s0 (VBool r).
Proof. intros H. apply post_makes; [done|]. apply H, owing_nil. Qed.
End floats.

(** *** Unbounded integers *)
Lemma sym_build_int_makes ρ op a b w x y v s :
  binv s → Z3_eval ρ a = VBV w x → Z3_eval ρ b = VBV w y →
  let int z := VInt (if (int_table op).2 then sgn w z else z) in
  smt_denote (int_table op).1 [int x; int y] = Some v →
  makes ρ (sym_build_int op (Some a) (Some b)) s v.
Proof.
  intros I Ha Hb int Hd. unfold sym_build_int. destruct (int_table op) as [f sg].
  cbn in int, Hd. apply post_makes; [done|].
  eapply post_bind.
  { apply (post_reg_call ρ (Bv2int sg) [a] (int x)); [apply owing_nil|]. cbn. by rewrite Ha. }
  intros ? s1 [O1 (ia&->&_&H1)]. eapply post_bind.
  { apply (post_reg_call ρ (Bv2int sg) [b] (int y)); [done|]. cbn. by rewrite Hb. }
  intros ? s2 [O2 (ib&->&_&H2)].
  apply (post_reg_call ρ f [ia; ib]); [done|]. cbn [fmap list_fmap]. by rewrite H1, H2.
Qed.

(** Applications the library refuses. *)
Lemma reg_call_ill_sorted ρ op (args : list ast) s :
  smt_sort op (value_sort <$> (Z3_eval ρ <$> args)) = None →
  reg_call op (Some <$> args) s = Err (SolverError "ill-sorted application").
Proof.
  intros H%Z3_mk_ill_sorted. unfold reg_call, z3_call, bind.
  by rewrite nonnull_all_ok, H.
Qed.

Lemma sym_build_int_ill_sorted ρ op a b w x y s :
  binv s → op ∈ [I_and; I_or; I_xor; I_bool_xor] →
  Z3_eval ρ a = VBV w x → Z3_eval ρ b = VBV w y →
  sym_build_int op (Some a) (Some b) s = Err (SolverError "ill-sorted application").
Proof.
  intros I Hop Ha Hb. unfold sym_build_int. destruct (int_table op) as [f sg] eqn:E.
  destruct (post_reg_call ρ (Bv2int sg) [a] (VInt (if sg then sgn w x else x)) [] s s)
    as (?&s1&E1&O1&ia&->&_&H1); [apply owing_nil|cbn; by rewrite Ha|].
  cbn in E1. unfold sym_build_bits_to_int. rewrite (bind_Ok _ _ _ _ _ E1).
  destruct (post_reg_call ρ (Bv2int sg) [b] (VInt (if sg then sgn w y else y)) [] s s1)
    as (?&s2&E2&O2&ib&->&_&H2); [done|cbn; by rewrite Hb|].
  cbn in E2. rewrite (bind_Ok _ _ _ _ _ E2).
  apply (reg_call_ill_sorted ρ f [ia; ib]). cbn [fmap list_fmap]. rewrite H1, H2.
  set_unfold in Hop. by destruct Hop as [->|[->|[->|[->|[]]]]]; cbn in E; simplify_eq.
Qed.

(** *** Solver scopes *)
Lemma push_assert_pop {A C} a s (f : state → A) (k : A → M state C) :
  solver s ≠ [] →
  (z3_solver_push ;;; z3_solver_assert a ;;; s' <- get ;; z3_solver_pop ;;; k (f s')) s =
  k (f (set_solver ([a] :: solver s) s)) s.
Proof. destruct s as [? ? ? ? ? []]; done. Qed.

Lemma assertions_push a s :
  assertions (set_solver ([a] :: solver s) s) = assertions s ++ [a].
Proof.
  unfold assertions.
  change (solver (set_solver ([a] :: solver s) s)) with ([a] :: solver s).
  by rewrite fmap_cons, reverse_cons, concat_app.
Qed.

(** [_sym_feasible] asks the solver about the constraints in force and the
    expression, and leaves the backend as it was. *)
Lemma sym_feasible_returns ρ a b s :
  binv s → Z3_eval ρ a = VBool b →
  ∃ s', sym_feasible (Some a) s =
          Ok (bool_decide (Z3_check (assertions s ++ [Z3_simplify a]) = Some true)) s' ∧
        binv s' ∧ balanced s s' ∧ allocatedExpressions s' = allocatedExpressions s.
Proof.
  intros I Ha. unfold sym_feasible. cbn [nonnull].
  destruct (post_inc [] s s (inl (Z3_simplify a)) (owing_nil s)) as ([]&s1&E1&O1).
  assert (assertions s1 = assertions s ∧ solver s1 ≠ [] ∧
          allocatedExpressions s1 = allocatedExpressions s) as (EA&NE&EL).
  { rewrite (inc_state _ _ _ E1). pose proof I as (_&?&_). done. }
  destruct (post_dec [] [] _ s s1 I O1) as ([]&s2&E2&O2&E2').
  exists s2. cbn [app] in O2. apply owing_balanced in O2.
  split_and!; [|by eapply balanced_binv|done|congruence].
  rewrite (bind_Ok _ _ _ _ _ (eq_refl : ret a s = Ok a s)).
  rewrite (bind_Ok _ _ _ _ _ E1).
  etransitivity.
  { exact (push_assert_pop (Z3_simplify a) s1 (λ s, Z3_check (assertions s))
      (λ f, z3_dec_ref (inl (Z3_simplify a)) ;;; ret (bool_decide (f = Some true))) NE). }
  cbn beta. rewrite assertions_push, EA. by rewrite (bind_Ok _ _ _ _ _ E2).
Qed.

(** *** The log of solver queries *)

(** The constraints of a query hold for the input [ρ]. *)
Definition query_holds ρ (q : query) : Prop := Forall (λ a, Z3_eval ρ a = VBool true) (q_smt q).

(** Every query in the log, and the constraints that the solver has in force,
    hold for [ρ]. *)
Definition log_holds ρ s : Prop :=
  Forall (query_holds ρ) (log s) ∧ Forall (λ a, Z3_eval ρ a = VBool true) (assertions s).

Definition same_log s s' : Prop := log s' = log s ∧ solver s' = solver s.

Lemma same_log_holds ρ s s' : same_log s s' → log_holds ρ s → log_holds ρ s'.
Proof. intros [E1 E2]. unfold log_holds, assertions. by rewrite E1, E2. Qed.

Lemma balanced_log s s' : balanced s s' → same_log s s'.
Proof. intros (_&_&->). done. Qed.

Lemma owing_log l s s' : owing l s s' → same_log s s'.
Proof. intros (_&_&->). done. Qed.

(** *** Symbolic variables and input bytes *)
Lemma build_variable_post name s :
  binv s →
  post (build_variable name 8) s
    (λ e s', e = Some (Z3_mk_const name (SBV 8)) ∧
             owing [inl (Z3_mk_const name (SBV 8))] s s').
Proof.
  intros I. unfold build_variable, z3_mk_bv_sort. cbn.
  eapply post_bind; [by apply post_ret with (P := λ τ s', τ = SBV 8 ∧ owing [] s s');
    split; [|apply owing_nil]|].
  intros ? s1 [-> O1]. eapply post_bind; [by apply post_inc|].
  intros [] s2 O2. eapply post_bind; [by apply post_inc|].
  intros [] s3 O3. eapply post_bind; [apply (post_dec [inl (Z3_mk_const name (SBV 8))] [] _ s); [done|exact O3]|].
  intros [] s4 [O4 _]. by apply post_ret.
Qed.

Lemma owing_bext l s0 s : owing l s0 s → bext s0 s.
Proof.
  intros (H&B&C). apply bext_intro; [|by rewrite C].
  intros n. specialize (H n). unfold surplus, occ in *.
  enough (registered n s0 ≤ registered n s) by lia.
  destruct n as [a|]; cbn; [|done]. repeat destruct (decide _); set_solver || lia.
Qed.

Lemma resize_push_end l (v : option ast) :
  resize_push l (Z.of_nat (length l)) v = l ++ [v].
Proof.
  unfold resize_push. rewrite Nat2Z.id, Nat.sub_diag. cbn.
  by rewrite app_nil_r, firstn_all.
Qed.

Lemma get_input_byte_returns ρ s (n : Z) offset v :
  binv s → inputs_read s n → 0 ≤ offset ≤ n →
  returns binv bext (sym_get_input_byte offset v) s (λ e s',
    (∃ h, e = Some h ∧ rep ρ s' h (VBV 8 (wrap 8 (ρ (stdin_name (Z.to_nat offset)))))) ∧
    inputs_read s' (Z.max n (offset + 1)) ∧ same_log s s').
Proof.
  intros I [Hn Hseq] Ho. unfold sym_get_input_byte.
  assert (length (stdinBytes s) = Z.to_nat n) as Hlen
    by (by rewrite Hseq, length_fmap, length_seq).
  unfold returns. rewrite (bind_Ok _ _ _ _ _ (eq_refl : get s = Ok s s)), Hlen.
  rewrite Z2Nat.id by done. destruct (Z.ltb_spec offset n).
  - exists (stdin_const (Z.to_nat offset)), s.
    assert (stdinBytes s !! Z.to_nat offset = Some (stdin_const (Z.to_nat offset))) as E.
    { rewrite Hseq, list_lookup_fmap, lookup_seq_lt by lia. done. }
    rewrite E. split_and!; [done|done|reflexivity| | |].
    + eexists. split; [done|]. split; [|by apply Z3_const_eval; cbn; lia].
      apply held_alive. pose proof I as (_&_&_&_&_&F&_).
      rewrite Forall_forall in F. apply (F (stdin_const _)). by eapply list_elem_of_lookup_2.
    + by rewrite Z.max_l by lia.
    + done.
  - assert (offset = n) as -> by lia.
    destruct (build_variable_post (stdin_name (Z.to_nat n)) s I) as (?&s1&E1&->&O1).
    unfold stdin_name in E1. rewrite (bind_Ok _ _ _ _ _ E1). fold (stdin_name (Z.to_nat n)).
    assert (stdinBytes s1 = stdinBytes s) as Es by (by destruct O1 as (_&_&->)).
    pose proof (owing_bext _ _ _ O1) as X1.
    eexists _, _. split; [done|].
    assert (1 ≤ surplus (inl (Z3_mk_const (stdin_name (Z.to_nat n)) (SBV 8))) s1) as Hc.
    { destruct O1 as (Hs&_). rewrite Hs, occ_cons, decide_True by done.
      pose proof I as (_&_&I0&_). specialize (I0 (inl (Z3_mk_const (stdin_name (Z.to_nat n)) (SBV 8)))).
      unfold occ. cbn. lia. }
    assert (resize_push (stdinBytes s1) n (stdin_const (Z.to_nat n)) =
            stdinBytes s ++ [stdin_const (Z.to_nat n)]) as Er.
    { rewrite Es. replace n with (Z.of_nat (length (stdinBytes s))) at 1 by lia.
      apply resize_push_end. }
    assert (∀ t, stdinBytes t = stdinBytes s ++ [stdin_const (Z.to_nat n)] →
             inputs_read t (n + 1)) as Hread.
    { intros t Ht. split; [lia|]. rewrite Ht, Hseq.
      replace (Z.to_nat (n + 1)) with (S (Z.to_nat n)) by lia. by rewrite seq_S, fmap_app. }
    unfold stdin_const in Er at 1. rewrite Er. split_and!; [| | | |].
    + assert (binv s1) as (A1&A2&A3&A4&A5&A6&A7&A8).
      { eapply binv_ext; [exact I|done|..]; destruct O1 as (_&_&->);
          pose proof I as (?&?&_); done. }
      split_and!; try done. cbn. rewrite <-Es. apply Forall_app. split; [exact A6|].
      by constructor.
    + split; [exact (proj1 X1)|]. intros k [Hk Hkseq]. exists (n + 1).
      assert (k = n) as ->.
      { apply (f_equal length) in Hkseq. rewrite Hlen, length_fmap, length_seq in Hkseq. lia. }
      split; [lia|]. by apply Hread.
    + eexists. split; [done|]. split; [by apply held_alive in Hc|].
      apply Z3_const_eval. cbn. lia.
    + rewrite Z.max_r by lia. by apply Hread.
    + exact (owing_log _ _ _ O1).
Qed.

Lemma stdin_name_inj i j : stdin_name i = stdin_name j → i = j.
Proof. unfold stdin_name. intros H%(inj _). by apply (inj pretty) in H. Qed.

(** *** The contract *)

(** The input on which the program runs, a parameter of the invariant: every
    query that has been logged holds for it; and the input is read in order. *)
Class RunInput : Type := run_input : env.

Definition run_state {R : RunInput} s : Prop := log_holds run_input s ∧ ∃ k, inputs_read s k.

Definition run_inv {R : RunInput} s : Prop := binv s ∧ run_state s.

Lemma run_state_ext {R : RunInput} s s' :
  bext s s' → (log_holds run_input s → log_holds run_input s') → run_state s → run_state s'.
Proof. intros [_ X] Hl [L (k&(k'&_&Hk')%X)]. split; [by apply Hl|by exists k']. Qed.

Lemma returns_logged {R : RunInput} {A} (m : M state A) s (P : A → state → Prop) :
  run_state s → returns binv bext m s (λ a s', P a s' ∧ same_log s s') →
  returns run_inv bext m s P.
Proof.
  intros L (a&s'&E&I&X&H&SL). exists a, s'. split; [done|]. split; [|done]. split; [done|].
  eapply run_state_ext; [done| |exact L]. by apply same_log_holds.
Qed.

Lemma makes_returns {R : RunInput} ρ m s v :
  run_state s → makes ρ m s v →
  returns run_inv bext m s (λ e s', ∃ h, e = Some h ∧ rep ρ s' h v).
Proof.
  intros L (e&s'&E&I&X&H). apply returns_logged; [done|].
  exists e, s'. split_and!; try done; [by apply balanced_bext|by apply balanced_log].
Qed.

#[export] Instance simple_backend_spec {R : RunInput} : BackendSpec simple_backend.
Proof.
  refine {| Interface.binv := (run_inv : @bstate simple_backend → Prop);
            Interface.bext := (bext : relation (@bstate simple_backend));
            Interface.rep := (rep : _ → @bstate simple_backend → @handle simple_backend → _ → _) |}.
  - intros ρ s s' h v X [Ha Hv]. split; [by eapply bext_alive|done].
  - intros ρ s h v [_ <-]. apply Z3_eval_wf.
  - intros ρ s h v v' [_ <-] [_ <-]. done.
  - intros ρ s value bits [I L] ?. by apply makes_returns, build_integer_makes.
  - intros ρ s b [I L]. by apply makes_returns, build_bool_makes.
  - intros ρ s op a b u v r [I L] [_ ?] [_ ?] ?. eapply makes_returns, build_binary_makes; done.
  - intros ρ s c a b t u v [I L] [_ ?] [_ ?] [_ ?] ?. by apply makes_returns, build_ite_makes.
  - intros ρ s a w x k [I L] [_ ?] ?. by apply makes_returns, build_sext_makes.
  - intros ρ s a w x k [I L] [_ ?] ?. by apply makes_returns, build_zext_makes.
  - intros ρ s a w x k [I L] [_ ?] ? ?. by eapply makes_returns, build_trunc_makes.
  - intros ρ s a b [I L] [_ ?]. by apply makes_returns, build_bool_to_bit_makes.
  - intros ρ s a b wa wb x y [I L] [_ ?] [_ ?]. by apply makes_returns, concat_helper_makes.
  - intros ρ s a w x hi lo [I L] [_ ?] ? ? ?. by eapply makes_returns, extract_helper_makes.
  - intros ρ s a w x [I L] [_ ?].
    destruct (bits_helper_returns ρ a w x s) as (k&s'&?&?&Hb&?); try done.
    apply returns_logged; [done|]. exists k, s'. split_and!; try done.
    + by apply balanced_bext.
    + by apply balanced_log.
  - done.
  - intros s c taken site I _. exists tt, s. by split_and!.
Defined.

#[export] Instance simple_input_spec {R : RunInput} : InputSpec simple_backend simple_backend_spec.
Proof.
  refine {| Interface.input_name := stdin_name;
            Interface.inputs_read := (inputs_read : @bstate simple_backend → _) |}.
  - exact stdin_name_inj.
  - intros ρ s n offset v [I L] H Ho. apply returns_logged; [done|].
    destruct (get_input_byte_returns ρ s n offset v I H Ho) as (a&s'&?&?&?&?&?&?).
    exists a, s'. by split_and!.
  - intros s s' k [_ H] ?. by apply H.
Defined.
End calls.

(** *** Initialisation and garbage collection *)
Lemma init_solver_post :
  post init_solver (set_initialized uninitialized) (λ _ s, binv s ∧
    s = set_refs (refs s) (set_allocated (allocatedExpressions s)
          (set_solver [[]] (set_initialized uninitialized)))).
Proof.
  set (s0 := set_solver [[]] (set_initialized uninitialized)).
  assert (∀ n, 0 ≤ surplus n s0) as H0.
  { intros []; unfold surplus, ref_count; cbn; rewrite lookup_empty; cbn; [|done].
    by rewrite decide_False by set_solver. }
  eapply post_impl with (P := λ _ s, owing [inl g_false; inl g_true; inl g_null_pointer] s0 s).
  - change (post (z3_inc_ref (inr (SBV 64)) ;;; z3_inc_ref (inl g_null_pointer) ;;;
      z3_dec_ref (inr (SBV 64)) ;;; z3_inc_ref (inl g_true) ;;; z3_inc_ref (inl g_false)) s0
      (λ _ s, owing [inl g_false; inl g_true; inl g_null_pointer] s0 s)).
    eapply post_bind; [apply post_inc, owing_nil|]. intros [] s1 O1.
    eapply post_bind; [by apply post_inc|]. intros [] s2 O2.
    eapply post_bind; [by eapply (post_dec_nonneg [inl g_null_pointer] [])|]. intros [] s3 [O3 _].
    eapply post_bind; [by apply post_inc|]. intros [] s4 O4. by apply post_inc.
  - intros _ s (H1&H2&Hs). split; [|exact Hs].
    assert (∀ n, occ n [inl g_false; inl g_true; inl g_null_pointer] ≤ surplus n s) as H.
    { intros n. specialize (H0 n). rewrite H1. lia. }
    pose proof (H (inl g_true)) as HT. pose proof (H (inl g_false)) as HF.
    pose proof (H (inl g_null_pointer)) as HN.
    rewrite !occ_cons in HT. rewrite !occ_cons in HF. rewrite !occ_cons in HN.
    change (occ _ []) with 0 in HT. change (occ _ []) with 0 in HF. change (occ _ []) with 0 in HN.
    unfold binv. split_and!; try (rewrite Hs; done).
    + intros n. specialize (H n). unfold occ in H. lia.
    + repeat case_decide; try done; lia.
    + repeat case_decide; try done; lia.
    + repeat case_decide; try done; lia.
Qed.

(** The sweep forgets expressions and keeps every reference. *)
Lemma collect_garbage_spec threshold reachable s :
  ∃ s', collect_garbage threshold reachable s = Ok tt s' ∧ refs s' = refs s ∧
    allocatedExpressions s' =
      (if Z.of_nat (size (allocatedExpressions s)) <? threshold
       then allocatedExpressions s
       else filter (λ a, a ∈ reachable) (allocatedExpressions s)).
Proof.
  unfold collect_garbage, bind, get. case_match; eexists; split_and!; done.
Qed.

Lemma collect_garbage_inv threshold reachable s s' :
  binv s → collect_garbage threshold reachable s = Ok tt s' →
  binv s' ∧ bext s s' ∧ same_log s s' ∧ ∀ h, alive h s → alive h s'.
Proof.
  intros I E. destruct (collect_garbage_spec threshold reachable s) as (?&E'&Hr&Ha).
  rewrite E in E'. injection E' as <-.
  assert (stdinBytes s' = stdinBytes s) as Es.
  { unfold collect_garbage, bind, get in E. case_match; by injection E as <-. }
  assert (bext s s') as X.
  { apply bext_intro; [|done]. intros n. unfold surplus, ref_count. rewrite Hr. split; [lia|].
    enough (registered n s' ≤ registered n s) by lia.
    destruct n as [a|]; cbn; [|done]. rewrite Ha.
    repeat destruct (decide _); case_match; lia || set_solver. }
  split_and!; [|done| |].
  - unfold collect_garbage, bind, get in E. case_match; injection E as <-; [done|].
    eapply binv_ext; [exact I|exact X|..]; pose proof I as (?&?&_); done.
  - unfold collect_garbage, bind, get in E. by case_match; injection E as <-.
  - intros h. by apply bext_alive.
Qed.
End accounting.
