(* ===== verification/PathConstraints.v ===== *)
(** * Path constraints with source locations

    Models [_sym_push_path_constraint_with_loc] of
    runtime/src/backends/simple/Runtime.cpp: every branch on symbolic data is
    written to the log as a solver query together with its location, except
    that the branches inside the instrumented string class (its header is
    recognised by name) are collected into one query per string comparison. *)

From S2P Require Import Prelude Smt Z3Api Interface SimpleBackend SimpleSpec.

#[local] Open Scope Z_scope.

Section defs.
Context {Z3I : Z3}.
#[local] Abbreviation M := (M state).

(** [strstr(filename, target) != NULL]. *)
Definition strstr (filename target : string) : bool :=
  match String.index 0 target filename with Some _ => true | None => false end.

Definition string_size_check_line : Z := 13.
Definition strcmp_start_line : Z := 23.
Definition target : string := "symros_string.hpp".

(** The terms of a C array handed to the solver library must be referenced by
    someone; a term without references has been freed. *)
Fixpoint live_terms (l : list ast) : M unit :=
  match l with
  | [] => ret tt
  | a :: l' =>
      s <- get ;;
      if 0 <? ref_count (inl a) s then live_terms l'
      else fail (Undefined "use of a term after its last reference is dropped")
  end.

Definition mk_array (op : z3op) (l : list ast) : M (option ast) :=
  live_terms l ;;; z3_call op (Some <$> l).

(** [fprintf(g_log, "Trying to solve: ...")]. *)
Definition log_query (slot taken : Z) (file : string) (line : Z) : M unit :=
  s <- get ;;
  modify (add_log {| q_slot := slot; q_taken := taken; q_file := file;
                     q_line := line; q_smt := assertions s |}).

(** [string_eq_constraints.push_back(not_constraint);
    string_not_eq_constraints.push_back(constraint)]. *)
Definition push_string_constraints (c not_c : ast) : M unit :=
  modify (λ s, set_strings (string_eq_constraints s ++ [not_c])
                           (string_not_eq_constraints s ++ [c]) (string_taken s) s).

Definition set_string_taken (b : bool) : M unit :=
  modify (λ s, set_strings (string_eq_constraints s) (string_not_eq_constraints s) b s).

Definition clear_string_constraints : M unit := modify (set_strings [] [] true).

(** The query for a whole string comparison. *)
Definition solve_string (final : M (option ast)) (slot : Z) (file : string) (line : Z)
    : M unit :=
  final_constraint <- final ;;
  inc_ref final_constraint ;;;
  f <- nonnull final_constraint ;;
  z3_solver_assert f ;;;
  b <- gets string_taken ;;
  log_query slot (if b then 1 else 0) file line ;;;
  z3_solver_pop ;;;
  dec_ref final_constraint.

Definition string_branch (c not_c : ast) (taken : Z) (file : string) (line slot : Z)
    : M unit :=
  if line =? string_size_check_line then
    clear_string_constraints ;;;
    (if taken =? 1 then set_string_taken false else ret tt) ;;;
    push_string_constraints c not_c
  else
    let cond_num := u64 (line - strcmp_start_line + 1) in
    (if taken =? 1 then set_string_taken false else ret tt) ;;;
    push_string_constraints c not_c ;;;
    s <- get ;;
    if Z.of_nat (length (string_eq_constraints s)) =? cond_num then
      if string_taken s
      then solve_string (mk_array And (string_eq_constraints s)) slot file line
      else solve_string (mk_array Or (string_not_eq_constraints s)) slot file line
    else ret tt.

Definition _sym_push_path_constraint_with_loc (constraint : option ast) (taken : Z)
    (site_id : Z) (filename : string) (line slot_id : Z) : M unit :=
  match constraint with
  | None => ret tt
  | Some c0 =>
      let constraint := Z3_simplify c0 in
      z3_inc_ref (inl constraint) ;;;
      if decide (constraint = g_true) then
        assert_ (negb (taken =? 0)) "We have taken an impossible branch" ;;;
        z3_dec_ref (inl constraint)
      else if decide (constraint = g_false) then
        assert_ (taken =? 0) "We have taken an impossible branch" ;;;
        z3_dec_ref (inl constraint)
      else
        neg <- z3_call Not [Some constraint] ;;
        n <- nonnull neg ;;
        let not_constraint := Z3_simplify n in
        z3_inc_ref (inl not_constraint) ;;;
        z3_solver_push ;;;
        (if strstr filename target
         then string_branch constraint not_constraint taken filename line slot_id
         else
           z3_solver_assert (if taken =? 0 then not_constraint else constraint) ;;;
           log_query slot_id taken filename line ;;;
           z3_solver_pop) ;;;
        z3_dec_ref (inl constraint) ;;;
        z3_dec_ref (inl not_constraint)
  end.

(** A run of branches of the string class that are not taken, each with its
    line. *)
Fixpoint string_branches (site_id : Z) (filename : string) (slot_id : Z)
    (l : list (ast * Z)) : M unit :=
  match l with
  | [] => ret tt
  | (c, line) :: l' =>
      _sym_push_path_constraint_with_loc (Some c) 0 site_id filename line slot_id ;;;
      string_branches site_id filename slot_id l'
  end.

End defs.

(** ** Facts *)
Section facts.
Context {Z3I : Z3} {ZL : Z3Laws Z3I}.
Implicit Types (s : state) (a c n : ast).

Lemma eval_bool ρ a : Z3_get_sort a = SBool → ∃ b, Z3_eval ρ a = VBool b.
Proof.
  intros H. rewrite <-(Z3_eval_sort ρ) in H. destruct (Z3_eval ρ a) as [b| | |]; by eauto.
Qed.

Lemma bool_sort ρ a b : Z3_eval ρ a = VBool b → Z3_get_sort a = SBool.
Proof. intros H. by rewrite <-(Z3_eval_sort ρ), H. Qed.

(** The globals that reference counting does not touch. *)
Lemma owing_globals l s0 s :
  owing l s0 s →
  solver s = solver s0 ∧ log s = log s0 ∧ assertions s = assertions s0 ∧
  string_eq_constraints s = string_eq_constraints s0 ∧
  string_not_eq_constraints s = string_not_eq_constraints s0 ∧
  string_taken s = string_taken s0.
Proof. intros (_&_&->). done. Qed.

(** A change of the globals that no reference depends on. *)
Definition frame (f : state → state) : Prop :=
  ∀ s, refs (f s) = refs s ∧ allocatedExpressions (f s) = allocatedExpressions s ∧
    ∀ r al, f (set_refs r (set_allocated al s)) = set_refs r (set_allocated al (f s)).

Lemma frame_surplus f (n : ast + sort) s : frame f → surplus n (f s) = surplus n s.
Proof.
  intros H. destruct (H s) as (E1&E2&_). unfold surplus, ref_count. rewrite E1.
  by destruct n; cbn; rewrite ?E2.
Qed.

Lemma frame_alive f a s : frame f → alive a (f s) ↔ alive a s.
Proof. intros H. destruct (H s) as (E&_). unfold alive, ref_count. by rewrite E. Qed.

Lemma frame_owing f l s0 s : frame f → owing l s0 s → owing l (f s0) (f s).
Proof.
  intros F (H1&H2&H3). destruct (F s) as (R&A&_), (F s0) as (R0&A0&C). split_and!.
  - intros n. by rewrite !frame_surplus.
  - by rewrite A, A0.
  - rewrite R, A, <-C. by rewrite <-H3.
Qed.

Lemma frame_add_log q : frame (add_log q).
Proof. done. Qed.
Lemma frame_set_solver sv : frame (set_solver sv).
Proof. done. Qed.
Lemma frame_set_strings eqs neqs b : frame (set_strings eqs neqs b).
Proof. done. Qed.

(** The prologue of a branch that is not decided by simplification: references
    to the condition and to its negation are taken and a scope is opened. *)
Definition negation c n : Prop := ∃ e, Z3_mk Not [Z3_simplify c] = Some e ∧ n = Z3_simplify e.

Lemma negation_exists c : Z3_get_sort c = SBool → ∃ n, negation c n.
Proof.
  intros H. destruct (eval_bool (λ _, 0) c H) as [b Hb].
  destruct (Z3_mk_denote (λ _, 0) Not [Z3_simplify c] (VBool (negb b))) as (e&?&_).
  { cbn. by rewrite Z3_simplify_eval, Hb. }
  by exists (Z3_simplify e), e.
Qed.

Lemma negation_eval ρ c n b :
  negation c n → Z3_eval ρ c = VBool b → Z3_eval ρ n = VBool (negb b).
Proof.
  intros (e&He&->) Hb. rewrite Z3_simplify_eval.
  eapply Z3_mk_eval; [exact He|]. cbn. by rewrite Z3_simplify_eval, Hb.
Qed.

Definition undecided c : Prop := Z3_simplify c ≠ g_true ∧ Z3_simplify c ≠ g_false.

(** The branch between the two [inc_ref]s and the two [dec_ref]s. *)
Definition branch_body (c n : ast) (taken : Z) (file : string) (line slot : Z)
    : M state unit :=
  if strstr file target then string_branch (Z3_simplify c) n taken file line slot
  else z3_solver_assert (if taken =? 0 then n else Z3_simplify c) ;;;
       log_query slot taken file line ;;; z3_solver_pop.

Lemma with_loc_split c n taken site file line slot s :
  binv s → undecided c → negation c n →
  ∃ s2, owing [inl n; inl (Z3_simplify c)] s s2 ∧
    allocatedExpressions s2 = allocatedExpressions s ∧
    _sym_push_path_constraint_with_loc (Some c) taken site file line slot s =
    (branch_body c n taken file line slot ;;;
     z3_dec_ref (inl (Z3_simplify c)) ;;; z3_dec_ref (inl n))
      (set_solver ([] :: solver s) s2).
Proof.
  intros I [H1 H2] (e&He&->).
  destruct (post_inc [] s s (inl (Z3_simplify c)) (owing_nil s)) as ([]&s1&E1&O1).
  destruct (post_inc _ s s1 (inl (Z3_simplify e)) O1) as ([]&s2&E2&O2).
  exists s2. split; [done|]. split.
  { by rewrite (inc_state _ _ _ E2), (inc_state _ _ _ E1). }
  unfold _sym_push_path_constraint_with_loc.
  rewrite (bind_Ok _ _ _ _ _ E1), decide_False, decide_False by done.
  assert (z3_call Not [Some (Z3_simplify c)] s1 = Ok (Some e) s1) as Ec.
  { unfold z3_call, bind. cbn. by rewrite He. }
  rewrite (bind_Ok _ _ _ _ _ Ec).
  rewrite (bind_Ok _ _ _ _ _ (eq_refl : nonnull (Some e) s1 = Ok e s1)).
  rewrite (bind_Ok _ _ _ _ _ E2).
  rewrite (bind_Ok _ _ _ _ _ (eq_refl : z3_solver_push s2 = Ok tt (set_solver ([] :: solver s2) s2))).
  by destruct (owing_globals _ _ _ O2) as (->&_).
Qed.

(** When the body returns, the references are dropped again: the state differs
    from what the body made of the globals in no count. *)
Lemma with_loc_finish f c n s s2 taken file line slot :
  binv s → frame f →
  post (branch_body c n taken file line slot) (set_solver ([] :: solver s) s2)
    (λ _ s3, owing [inl n; inl (Z3_simplify c)] (f s) s3) →
  ∃ s', (branch_body c n taken file line slot ;;;
         z3_dec_ref (inl (Z3_simplify c)) ;;; z3_dec_ref (inl n))
          (set_solver ([] :: solver s) s2) = Ok tt s' ∧ balanced (f s) s'.
Proof.
  intros I F ([]&s3&E&O). rewrite (bind_Ok _ _ _ _ _ E).
  assert (∀ m : ast + sort, 0 ≤ surplus m (f s)) as NN.
  { intros m. rewrite frame_surplus by done. apply I. }
  destruct (post_dec_nonneg [inl n] [] _ _ _ NN O) as ([]&s4&E4&O4&_).
  destruct (post_dec_nonneg [] [] _ _ _ NN O4) as ([]&s5&E5&O5&_).
  exists s5. rewrite (bind_Ok _ _ _ _ _ E4). split; [done|]. by apply owing_balanced.
Qed.

Section branch.
Context (c n : ast) (taken site line slot : Z) (file : string) (s : state).
Context (I : binv s) (U : undecided c) (N : negation c n).

#[local] Abbreviation run :=
  (_sym_push_path_constraint_with_loc (Some c) taken site file line slot s).

Lemma with_loc_frame f :
  frame f →
  (∀ s2, owing [inl n; inl (Z3_simplify c)] s s2 →
    post (branch_body c n taken file line slot) (set_solver ([] :: solver s) s2)
      (λ _ s3, owing [inl n; inl (Z3_simplify c)] (f s) s3)) →
  ∃ s', run = Ok tt s' ∧ balanced (f s) s'.
Proof.
  intros F Hb. destruct (with_loc_split c n taken site file line slot s I U N) as (s2&O&_&->).
  by apply with_loc_finish, Hb.
Qed.

Lemma with_loc_exact f :
  frame f →
  (∀ s2, owing [inl n; inl (Z3_simplify c)] s s2 →
    branch_body c n taken file line slot (set_solver ([] :: solver s) s2) = Ok tt (f s2)) →
  ∃ s', run = Ok tt s' ∧ balanced (f s) s'.
Proof.
  intros F Hb. apply with_loc_frame; [done|]. intros s2 O.
  exists tt, (f s2). split; [by apply Hb|by apply frame_owing].
Qed.

(** *** Branches outside the string class *)
Lemma with_loc_plain :
  strstr file target = false →
  let k := if taken =? 0 then n else Z3_simplify c in
  let q := {| q_slot := slot; q_taken := taken; q_file := file; q_line := line;
              q_smt := assertions s ++ [k] |} in
  ∃ s', run = Ok tt s' ∧ balanced (add_log q s) s'.
Proof.
  intros Hf k q. apply with_loc_exact; [done|]. intros s2 O.
  unfold branch_body. rewrite Hf. destruct (owing_globals _ _ _ O) as (Es&_&Ea&_).
  pose proof I as (_&NE&_). unfold log_query, get, bind, z3_solver_assert, modify. cbn.
  fold k. f_equal. subst q. rewrite <-Ea, <-assertions_push, Es.
  destruct s2; cbn in *; subst. by destruct (solver s).
Qed.

(** *** Branches of the string class *)
Section strings.
Context (Hf : strstr file target = true).

Definition still_taken (b : bool) : bool := b && negb (taken =? 1).

Lemma with_loc_size_check :
  line = string_size_check_line →
  ∃ s', run = Ok tt s' ∧
    balanced (set_solver ([] :: solver s)
      (set_strings [n] [Z3_simplify c] (still_taken true) s)) s'.
Proof.
  intros Hl. apply (with_loc_exact (λ t, set_solver ([] :: solver s)
      (set_strings [n] [Z3_simplify c] (still_taken true) t))); [done|].
  intros s2 O.
  unfold branch_body, string_branch, still_taken. rewrite Hf, Hl. cbn.
  unfold bind, clear_string_constraints, modify. by destruct (taken =? 1).
Qed.

#[local] Abbreviation eqs := (string_eq_constraints s ++ [n]).
#[local] Abbreviation neqs := (string_not_eq_constraints s ++ [Z3_simplify c]).
#[local] Abbreviation flag := (still_taken (string_taken s)).

(** The common part of a comparison of characters. *)
Lemma string_branch_push s2 :
  owing [inl n; inl (Z3_simplify c)] s s2 → line ≠ string_size_check_line →
  branch_body c n taken file line slot (set_solver ([] :: solver s) s2) =
  (if Z.of_nat (length eqs) =? u64 (line - strcmp_start_line + 1)
   then if flag then solve_string (mk_array And eqs) slot file line
        else solve_string (mk_array Or neqs) slot file line
   else ret tt) (set_strings eqs neqs flag (set_solver ([] :: solver s) s2)).
Proof.
  intros O Hl. destruct (owing_globals _ _ _ O) as (_&_&_&E1&E2&E3).
  unfold branch_body, string_branch, still_taken. rewrite Hf.
  replace (line =? string_size_check_line) with false by lia.
  unfold bind, modify, push_string_constraints. rewrite <-E1, <-E2, <-E3.
  destruct (taken =? 1); cbn; unfold get; cbn;
    rewrite ?andb_true_r, ?andb_false_r; by repeat case_match.
Qed.

Lemma with_loc_partial :
  line ≠ string_size_check_line →
  Z.of_nat (length eqs) ≠ u64 (line - strcmp_start_line + 1) →
  ∃ s', run = Ok tt s' ∧
    balanced (set_solver ([] :: solver s) (set_strings eqs neqs flag s)) s'.
Proof.
  intros Hl Hc. apply (with_loc_exact (λ t, set_solver ([] :: solver s)
      (set_strings eqs neqs flag t))); [done|].
  intros s2 O.
  rewrite string_branch_push by done.
  by replace (_ =? _) with false by lia.
Qed.

(** The query of a complete comparison: [op] is [And] or [Or]. *)
Definition string_query op l s' : Prop :=
  ∃ e, Z3_mk op l = Some e ∧
    let q := {| q_slot := slot; q_taken := (if flag then 1 else 0); q_file := file;
                q_line := line; q_smt := assertions s ++ [e] |} in
    balanced (add_log q (set_strings eqs neqs flag s)) s'.

Lemma owing_alive l s2 a : owing l s s2 → alive a s ∨ inl a ∈ l → alive a s2.
Proof.
  intros O [Ha|Ha]; [by eapply bext_alive, Ha; eapply owing_bext|].
  apply held_alive. cbn. destruct O as (H&_). rewrite H.
  pose proof I as (_&_&I0&_). specialize (I0 (inl a)).
  apply list_elem_of_split in Ha as (l1&l2&->). rewrite occ_app, occ_cons, decide_True by done.
  unfold occ. lia.
Qed.

Lemma live_terms_ok l s2 : Forall (λ a, alive a s2) l → live_terms l s2 = Ok tt s2.
Proof.
  induction 1 as [|a l Ha _ IH]; [done|]. cbn. unfold bind, get, alive in *.
  by replace (0 <? ref_count (inl a) s2) with true by lia.
Qed.

Lemma z3_call_ok op (l : list ast) e s2 :
  Z3_mk op l = Some e → z3_call op (Some <$> l) s2 = Ok (Some e) s2.
Proof.
  intros He. unfold z3_call, bind. by rewrite nonnull_all_ok, He.
Qed.

Lemma assertions_cons e s2 :
  solver s2 = [e] :: solver s → assertions s2 = assertions s ++ [e].
Proof. unfold assertions. intros ->. by rewrite fmap_cons, reverse_cons, concat_app. Qed.

Lemma assert_log_pop e s2 :
  solver s2 = [] :: solver s → string_taken s2 = flag → solver s ≠ [] →
  let q := {| q_slot := slot; q_taken := (if flag then 1 else 0); q_file := file;
              q_line := line; q_smt := assertions s ++ [e] |} in
  (z3_solver_assert e ;;; b <- gets string_taken ;;
   log_query slot (if b then 1 else 0) file line ;;; z3_solver_pop ;;;
   dec_ref (Some e)) s2 =
  dec_ref (Some e) (add_log q (set_solver (solver s) s2)).
Proof.
  intros E1 E2 NE. destruct s2; cbn in E1, E2; subst.
  unfold bind, z3_solver_assert, modify, log_query, get, gets.
  cbn -[assertions still_taken dec_ref]. erewrite assertions_cons by done.
  unfold z3_solver_pop, bind, get. cbn -[assertions still_taken dec_ref].
  by destruct (solver s).
Qed.

Lemma solve_string_post op l e s2 :
  owing [inl n; inl (Z3_simplify c)] s s2 →
  Forall (λ a, alive a s2) l → Z3_mk op l = Some e →
  let q := {| q_slot := slot; q_taken := (if flag then 1 else 0); q_file := file;
              q_line := line; q_smt := assertions s ++ [e] |} in
  post (solve_string (mk_array op l) slot file line)
    (set_strings eqs neqs flag (set_solver ([] :: solver s) s2))
    (λ _ s3, owing [inl n; inl (Z3_simplify c)]
               (add_log q (set_strings eqs neqs flag s)) s3).
Proof.
  intros O Hl He q.
  pose (g := λ t, set_strings eqs neqs flag (set_solver ([] :: solver s) t)).
  assert (frame g) as Fg by done. apply (frame_owing g) in O; [|done].
  change (set_strings _ _ _ (set_solver _ s2)) with (g s2).
  assert (mk_array op l (g s2) = Ok (Some e) (g s2)) as Em.
  { unfold mk_array. rewrite (bind_Ok _ _ _ tt (g s2)); [by apply z3_call_ok|].
    apply live_terms_ok. eapply Forall_impl; [exact Hl|]. intros a. by apply frame_alive. }
  unfold solve_string, post. rewrite (bind_Ok _ _ _ _ _ Em).
  destruct (post_inc_ref _ _ _ e O) as ([]&t1&E1&O1). rewrite (bind_Ok _ _ _ _ _ E1).
  rewrite (bind_Ok _ _ _ _ _ (eq_refl : nonnull (Some e) t1 = Ok e t1)).
  destruct (owing_globals _ _ _ O1) as (S1&_&_&_&_&T1). pose proof I as (_&NE&I0&_).
  rewrite (assert_log_pop e t1) by done. fold q.
  pose (h := λ t, add_log q (set_solver (solver s) t)).
  assert (frame h) as Fh by done. apply (frame_owing h) in O1; [|done].
  assert (∀ m : ast + sort, 0 ≤ surplus m (h (g s))) as NN
    by (intros m; rewrite (frame_surplus h), (frame_surplus g) by done; apply I0).
  destruct (post_dec_nonneg [] _ _ _ _ NN O1) as ([]&t2&E2&O2&_).
  exists tt, t2. split; [exact E2|]. clear -O2. by destruct s.
Qed.

Lemma with_loc_complete op l :
  line ≠ string_size_check_line →
  Z.of_nat (length eqs) = u64 (line - strcmp_start_line + 1) →
  (op, l) = (if flag then (And, eqs) else (Or, neqs)) →
  Forall (λ a, alive a s) (string_eq_constraints s ++ string_not_eq_constraints s) →
  Forall (λ a, Z3_get_sort a = SBool) l →
  ∃ s', run = Ok tt s' ∧ string_query op l s'.
Proof.
  intros Hl Hc Hop [Ha1 Ha2]%Forall_app Hs.
  assert (is_Some (Z3_mk op l)) as [e He].
  { apply (Z3_mk_ok _ _ SBool).
    assert (Forall (λ τ, τ = SBool) (Z3_get_sort <$> l)) by (by apply Forall_fmap).
    destruct flag; simplify_eq; cbn; by rewrite decide_True. }
  destruct (with_loc_frame (add_log {| q_slot := slot;
      q_taken := (if flag then 1 else 0); q_file := file;
      q_line := line; q_smt := assertions s ++ [e] |} ∘ set_strings eqs neqs flag))
    as (s'&E&Hb); [done| |by exists s'; split; [|exists e]].
  intros s2 O. unfold post. rewrite string_branch_push, Hc, Z.eqb_refl by done.
  assert (Forall (λ a, alive a s2) l) as Hlive.
  { assert (alive n s2 ∧ alive (Z3_simplify c) s2) as [].
    { split; eapply owing_alive; try exact O; right; set_solver. }
    assert (∀ l, Forall (λ a, alive a s) l → Forall (λ a, alive a s2) l).
    { intros l0 Hl0. eapply Forall_impl; [exact Hl0|]. intros a Ha. eapply owing_alive; eauto. }
    destruct flag; simplify_eq; apply Forall_app; split; auto. }
  pose proof (solve_string_post op l e s2 O Hlive He) as P.
  destruct flag; injection Hop as -> ->; exact P.
Qed.


(** A stored constraint that nobody references any more makes the query of a
    complete comparison use a freed term. *)
Lemma live_terms_dead l a s2 :
  a ∈ l → ¬ alive a s2 →
  live_terms l s2 = Err (Undefined "use of a term after its last reference is dropped").
Proof.
  intros Ha Hd. induction l as [|b l IH]; [by set_solver|]. cbn. unfold bind, get.
  destruct (Z.ltb_spec 0 (ref_count (inl b) s2)); [|done].
  set_unfold in Ha. destruct Ha as [->|Ha]; [by destruct Hd|by apply IH].
Qed.

Lemma with_loc_dangling a :
  line ≠ string_size_check_line →
  Z.of_nat (length eqs) = u64 (line - strcmp_start_line + 1) →
  flag = true → a ∈ string_eq_constraints s → ¬ alive a s → a ≠ n → a ≠ Z3_simplify c →
  run = Err (Undefined "use of a term after its last reference is dropped").
Proof.
  intros Hl Hc Ht Ha Hd Hn Hsc.
  destruct (with_loc_split c n taken site file line slot s I U N) as (s2&O&Ea&->).
  unfold bind at 1. rewrite string_branch_push, Hc, Z.eqb_refl, Ht by done.
  unfold solve_string, bind at 1, mk_array, bind at 1.
  erewrite live_terms_dead with (a := a); [done|set_solver|].
  intros Halive. apply Hd. revert Halive. unfold alive.
  change (ref_count (inl a) (set_strings _ _ _ _)) with (ref_count (inl a) s2).
  destruct O as (H&_). specialize (H (inl a)). rewrite !occ_cons, !decide_False in H by congruence.
  unfold surplus, occ in H. cbn in H. rewrite Ea in H. lia.
Qed.
End strings.
End branch.

(** *** Nothing is recorded *)
Definition records_nothing {A} (m : M state A) : Prop :=
  ∀ s x s', m s = Ok x s' → allocatedExpressions s' = allocatedExpressions s.

Lemma nothing_ret {A} (x : A) : records_nothing (ret x).
Proof. by intros s y s' [= _ <-]. Qed.
Lemma nothing_fail {A} er : records_nothing (fail er : M state A).
Proof. done. Qed.
Lemma nothing_bind {A C} (m : M state A) (k : A → M state C) :
  records_nothing m → (∀ x, records_nothing (k x)) → records_nothing (bind m k).
Proof. intros Hm Hk s c s' (a&s1&E1&E2)%bind_inv. by rewrite (Hk _ _ _ _ E2), (Hm _ _ _ E1). Qed.
Lemma nothing_modify f :
  (∀ s, allocatedExpressions (f s) = allocatedExpressions s) → records_nothing (modify f).
Proof. intros Hf s a s' [= _ <-]. apply Hf. Qed.
Lemma nothing_gets {A} (f : state → A) : records_nothing (gets f).
Proof. by intros s a s' [= _ <-]. Qed.
Lemma nothing_get : records_nothing (get : M state state).
Proof. by intros s a s' [= _ <-]. Qed.
Lemma nothing_assert b what : records_nothing (assert_ b what : M state unit).
Proof. destruct b; [apply nothing_ret|apply nothing_fail]. Qed.

Create HintDb nothing discriminated.
#[local] Hint Resolve nothing_ret nothing_fail nothing_get nothing_gets nothing_assert : nothing.

#[local] Ltac nothing :=
  repeat first
    [progress eauto with nothing nocore | apply nothing_bind; [|intros ?]
    |apply nothing_modify; intros ?; repeat case_match; match goal with s : state |- _ => by destruct s end
    |progress case_match | progress case_decide].

Lemma nothing_nonnull e : records_nothing (nonnull e).
Proof. destruct e; cbn; nothing. Qed.
#[local] Hint Resolve nothing_nonnull : nothing.

Lemma nothing_nonnull_all l : records_nothing (nonnull_all l).
Proof. induction l as [|e l IH]; cbn; nothing. Qed.
#[local] Hint Resolve nothing_nonnull_all : nothing.

Lemma nothing_call op l : records_nothing (z3_call op l).
Proof. unfold z3_call. nothing. Qed.

Lemma nothing_live l : records_nothing (live_terms l).
Proof. induction l as [|a l IH]; cbn; nothing. Qed.
#[local] Hint Resolve nothing_call nothing_live : nothing.

Lemma nothing_solve op l slot file line : records_nothing (solve_string (mk_array op l) slot file line).
Proof.
  unfold solve_string, mk_array, log_query, inc_ref, dec_ref, z3_inc_ref, z3_dec_ref,
    z3_solver_assert, z3_solver_pop. nothing.
Qed.
#[local] Hint Resolve nothing_solve : nothing.

Lemma with_loc_records_nothing (c : option ast) taken site file line slot :
  records_nothing (_sym_push_path_constraint_with_loc c taken site file line slot).
Proof.
  unfold _sym_push_path_constraint_with_loc, string_branch, clear_string_constraints,
    set_string_taken, push_string_constraints, log_query, z3_inc_ref, z3_dec_ref,
    z3_solver_push, z3_solver_assert, z3_solver_pop. nothing.
Qed.

(** *** The constraints of a comparison dangle *)
Section dangling.
Context (site slot : Z) (file : string) (Hf : strstr file target = true) (n0 : ast).

(** [k] constraints are stored, one of them [n0], to which nobody holds a
    reference. *)
Record unreferenced (k : nat) s : Prop := {
  unreferenced_binv : binv s;
  unreferenced_stored : n0 ∈ string_eq_constraints s;
  unreferenced_length : length (string_eq_constraints s) = k;
  unreferenced_taken : string_taken s = true;
  unreferenced_dead : ¬ alive n0 s;
}.

Lemma dead_kept s s' :
  binv s → surplus (inl n0) s' = surplus (inl n0) s →
  allocatedExpressions s' = allocatedExpressions s → ¬ alive n0 s → ¬ alive n0 s'.
Proof. unfold alive, surplus. intros _ H E. cbn in H. rewrite E in H. lia. Qed.

Lemma size_check_unreferenced c0 s :
  binv s → undecided c0 → negation c0 n0 → ¬ alive n0 s →
  ∃ s', _sym_push_path_constraint_with_loc (Some c0) 0 site file string_size_check_line slot s = Ok tt s' ∧
    unreferenced 1 s'.
Proof.
  intros I U N Hd.
  destruct (with_loc_size_check c0 n0 0 site string_size_check_line slot file s I U N Hf eq_refl) as (s'&E&X).
  pose proof (with_loc_records_nothing _ _ _ _ _ _ _ _ _ E) as Ea. exists s'. split; [done|].
  pose proof X as (X1&_&X3). split.
  - eapply balanced_binv; [exact X|]. destruct I as (A&_&C). split; [exact A|split; [done|exact C]].
  - rewrite X3. cbn. by apply list_elem_of_singleton.
  - by rewrite X3.
  - by rewrite X3.
  - eapply (dead_kept s); [done|by rewrite X1|exact Ea|exact Hd].
Qed.

Lemma comparison_unreferenced k c line s :
  unreferenced k s → undecided c → Z3_get_sort c = SBool → line ≠ string_size_check_line →
  Z.of_nat (S k) ≠ u64 (line - strcmp_start_line + 1) →
  ∃ s', _sym_push_path_constraint_with_loc (Some c) 0 site file line slot s = Ok tt s' ∧
    unreferenced (S k) s'.
Proof.
  intros [I Hin Hk Ht Hd] U Hs Hl Hc. destruct (negation_exists c Hs) as [n N].
  destruct (with_loc_partial c n 0 site line slot file s I U N Hf Hl) as (s'&E&X).
  { rewrite length_app, Hk. cbn. by rewrite Nat.add_1_r. }
  pose proof (with_loc_records_nothing _ _ _ _ _ _ _ _ _ E) as Ea. exists s'. split; [done|].
  pose proof X as (X1&_&X3). split.
  - eapply balanced_binv; [exact X|]. destruct I as (A&_&C). split; [exact A|split; [done|exact C]].
  - rewrite X3. cbn. apply elem_of_app. by left.
  - rewrite X3. cbn. rewrite length_app, Hk. cbn. lia.
  - rewrite X3. cbn. by rewrite Ht.
  - eapply (dead_kept s); [done|by rewrite X1|exact Ea|exact Hd].
Qed.

Lemma comparisons_dangle l c n line k s :
  unreferenced k s → undecided c → negation c n → n0 ≠ n → n0 ≠ Z3_simplify c →
  line ≠ string_size_check_line →
  Forall (λ p, undecided p.1 ∧ Z3_get_sort p.1 = SBool ∧ p.2 ≠ string_size_check_line) l →
  (∀ i p, l !! i = Some p → Z.of_nat (S (k + i)) ≠ u64 (p.2 - strcmp_start_line + 1)) →
  Z.of_nat (S (k + length l)) = u64 (line - strcmp_start_line + 1) →
  string_branches site file slot (l ++ [(c, line)]) s =
  Err (Undefined "use of a term after its last reference is dropped").
Proof.
  intros H U N Hn Hc Hl Hall. revert k s H. induction Hall as [|[c' line'] l (U'&S'&L') _ IH]; intros k s H Hi Hlen.
  - destruct H as [I Hin Hk Ht Hd]. cbn. apply bind_Err.
    apply (with_loc_dangling c n 0 site line slot file s I U N Hf n0); try done.
    + rewrite length_app, Hk. cbn in Hlen |- *. by rewrite Nat.add_1_r, <-Hlen, Nat.add_0_r.
    + by rewrite Ht.
  - destruct (comparison_unreferenced k c' line' s H U' S' L') as (s'&E&H').
    { specialize (Hi 0%nat _ eq_refl). by rewrite Nat.add_0_r in Hi. }
    cbn [app string_branches]. rewrite (bind_Ok _ _ _ _ _ E). apply (IH (S k) s' H').
    + intros i p Hp. specialize (Hi (S i) p Hp). by rewrite <-plus_n_Sm in Hi.
    + cbn [length] in Hlen. by rewrite <-plus_n_Sm in Hlen.
Qed.
End dangling.

(** *** Branches decided by simplification, and null conditions *)
Lemma true_ne_false : g_true ≠ g_false.
Proof.
  intros E. pose proof (Z3_true_eval (λ _, 0)) as H. unfold g_true, g_false in E.
  rewrite E, Z3_false_eval in H. done.
Qed.

Lemma with_loc_null taken site file line slot s :
  _sym_push_path_constraint_with_loc None taken site file line slot s = Ok tt s.
Proof. done. Qed.

Lemma with_loc_decided c (b : bool) taken site file line slot s :
  binv s → Z3_simplify c = (if b then g_true else g_false) →
  if Bool.eqb b (negb (taken =? 0)) then
    ∃ s', _sym_push_path_constraint_with_loc (Some c) taken site file line slot s = Ok tt s' ∧
      balanced s s'
  else _sym_push_path_constraint_with_loc (Some c) taken site file line slot s =
       Err (Assert "We have taken an impossible branch").
Proof.
  intros I Hc. unfold _sym_push_path_constraint_with_loc.
  destruct (post_inc [] s s (inl (Z3_simplify c)) (owing_nil s)) as ([]&s1&E1&O1).
  rewrite (bind_Ok _ _ _ _ _ E1).
  destruct (post_dec [] [] _ _ _ I O1) as ([]&s2&E2&O2&_).
  apply owing_balanced in O2.
  destruct b; [rewrite decide_True by done
              |rewrite decide_False, decide_True by (rewrite ?Hc; done || apply not_eq_sym, true_ne_false)];
    destruct (taken =? 0); cbn; try done; unfold bind; cbn; eauto.
Qed.
(** *** What a branch reports *)

Lemma decided_or c : (∃ v : bool, Z3_simplify c = if v then g_true else g_false) ∨ undecided c.
Proof.
  destruct (decide (Z3_simplify c = g_true)) as [E|N1]; [left; by exists true|].
  destruct (decide (Z3_simplify c = g_false)) as [E|N2]; [left; by exists false|]. by right.
Qed.

(** The condition [c] had the value [b]: unless it simplifies to a constant, the
    log gets one query, for the inputs on which it has the same value. *)
Definition reports (c : ast) (b : bool) (file : string) (line slot : Z) s s' : Prop :=
  solver s' = solver s ∧
  (log s' = log s ∧ ¬ undecided c ∨
   undecided c ∧ ∃ k, log s' = log s ++ [{| q_slot := slot; q_taken := if b then 1 else 0; q_file := file;
                                           q_line := line; q_smt := assertions s ++ [k] |}] ∧
     ∀ ρ v, Z3_eval ρ c = VBool v → Z3_eval ρ k = VBool (Bool.eqb v b)).

Lemma reports_holds ρ c b file line slot s s' :
  reports c b file line slot s s' → Z3_eval ρ c = VBool b → log_holds ρ s → log_holds ρ s'.
Proof.
  intros [Es El] Hb [L A].
  assert (assertions s' = assertions s) as Ea by (unfold assertions; by rewrite Es).
  split; [|by rewrite Ea]. destruct El as [[-> _]|(_&k&->&Hk)]; [done|].
  apply Forall_app. split; [done|]. constructor; [|done]. apply Forall_app. split; [done|].
  constructor; [|done]. rewrite (Hk _ _ Hb). by destruct b.
Qed.

(** A branch outside of the string class that takes the direction given by the
    value of its condition. *)
Lemma push_reports ρ c (b : bool) site file line slot s :
  binv s → Z3_eval ρ c = VBool b → strstr file target = false →
  ∃ s', _sym_push_path_constraint_with_loc (Some c) (if b then 1 else 0) site file line slot s = Ok tt s' ∧
    binv s' ∧ bext s s' ∧ reports c b file line slot s s'.
Proof.
  intros I Hb Hf. destruct (decided_or c) as [[v E]|U].
  - assert (v = b) as ->.
    { pose proof (Z3_simplify_eval ρ c) as Es. rewrite E, Hb in Es.
      destruct v; [rewrite Z3_true_eval in Es|rewrite Z3_false_eval in Es]; by injection Es. }
    pose proof (with_loc_decided c b (if b then 1 else 0) site file line slot s I E) as W.
    assert (∃ s', _sym_push_path_constraint_with_loc (Some c) (if b then 1 else 0) site file line slot s =
      Ok tt s' ∧ balanced s s') as (s'&E'&X) by (by destruct b).
    exists s'. split_and!; [done|by eapply balanced_binv|by apply balanced_bext|].
    destruct (balanced_log _ _ X) as [El Es]. split; [done|]. left. split; [done|].
    intros [U1 U2]. destruct b; done.
  - destruct (negation_exists c (bool_sort _ _ _ Hb)) as (n&N).
    destruct (with_loc_plain c n (if b then 1 else 0) site line slot file s I U N Hf) as (s'&E&X).
    match type of X with balanced ?t _ => set (t0 := t) in X end.
    exists s'. split_and!; [done|by eapply (balanced_binv t0)| |].
    { etransitivity; [|by apply balanced_bext]. apply bext_intro; [|done]. intros m. split; by destruct m. }
    destruct (balanced_log _ _ X) as [El Es]. split; [done|]. right. split; [done|].
    eexists. split; [exact El|]. intros ρ' v Hv. destruct b; cbn.
    + rewrite Z3_simplify_eval, Hv. by destruct v.
    + rewrite (negation_eval _ _ _ _ N Hv). by destruct v.
Qed.

(** The invariant of a run is kept. *)
Lemma push_returns {R : RunInput} c (b : bool) site file line slot s :
  run_inv s → Z3_eval run_input c = VBool b → strstr file target = false →
  returns run_inv bext
    (_sym_push_path_constraint_with_loc (Some c) (if b then 1 else 0) site file line slot) s
    (λ _ s', reports c b file line slot s s').
Proof.
  intros [I L] Hb Hf. destruct (push_reports run_input c b site file line slot s I Hb Hf) as (s'&E&I'&X&Rp).
  exists tt, s'. split; [done|]. split; [|done]. split; [done|].
  eapply run_state_ext; [done| |exact L]. by apply (reports_holds _ c b file line slot).
Qed.
End facts.
