(* ===== verification/Config.v ===== *)
(** * The configuration of the run-time library

    Models runtime/include/Config.h and runtime/src/Config.cpp: the record
    [Config], the parser of flags and [loadConfig], which reads the
    configuration from the environment (an argument of the model). *)

From S2P Require Import Prelude.
From Stdlib Require Import Ascii.

#[local] Open Scope Z_scope.

(** [std::variant<NoInput, StdinInput, MemoryInput, FileInput>]. *)
Inductive InputConfig : Type :=
| NoInput
| StdinInput
| MemoryInput
| FileInput (fileName : string).

#[export] Instance InputConfig_eq_dec : EqDecision InputConfig.
Proof. solve_decision. Defined.

#[export] Instance no_file_dec i : Decision (∀ f, i ≠ FileInput f).
Proof. destruct i as [| | |f]; [left; done..|]. right. intros H. by destruct (H f). Defined.

#[projections(primitive)]
Record Config : Type := {
  input : InputConfig;
  outputDir : string;
  logFile : string;
  pruning : bool;
  aflCoverageMap : string;
  garbageCollectionThreshold : Z;
}.

Definition default_config : Config := {|
  input := StdinInput;
  outputDir := "/tmp/output";
  logFile := "";
  pruning := false;
  aflCoverageMap := "";
  garbageCollectionThreshold := 5000000;
|}.

#[local] Abbreviation M := (M Config).

Definition with_input v (c : Config) : Config := {|
  input := v; outputDir := outputDir c; logFile := logFile c; pruning :=
  pruning c; aflCoverageMap := aflCoverageMap c; garbageCollectionThreshold
  := garbageCollectionThreshold c |}.
Definition with_outputDir v (c : Config) : Config := {|
  input := input c; outputDir := v; logFile := logFile c; pruning := pruning
  c; aflCoverageMap := aflCoverageMap c; garbageCollectionThreshold :=
  garbageCollectionThreshold c |}.
Definition with_logFile v (c : Config) : Config := {|
  input := input c; outputDir := outputDir c; logFile := v; pruning :=
  pruning c; aflCoverageMap := aflCoverageMap c; garbageCollectionThreshold
  := garbageCollectionThreshold c |}.
Definition with_pruning v (c : Config) : Config := {|
  input := input c; outputDir := outputDir c; logFile := logFile c; pruning
  := v; aflCoverageMap := aflCoverageMap c; garbageCollectionThreshold :=
  garbageCollectionThreshold c |}.
Definition with_aflCoverageMap v (c : Config) : Config := {|
  input := input c; outputDir := outputDir c; logFile := logFile c; pruning
  := pruning c; aflCoverageMap := v; garbageCollectionThreshold :=
  garbageCollectionThreshold c |}.
Definition with_garbageCollectionThreshold v (c : Config) : Config := {|
  input := input c; outputDir := outputDir c; logFile := logFile c; pruning
  := pruning c; aflCoverageMap := aflCoverageMap c;
  garbageCollectionThreshold := v |}.

Definition set_input v : M unit := modify (with_input v).
Definition set_outputDir v : M unit := modify (with_outputDir v).
Definition set_logFile v : M unit := modify (with_logFile v).
Definition set_pruning v : M unit := modify (with_pruning v).
Definition set_aflCoverageMap v : M unit := modify (with_aflCoverageMap v).
Definition set_garbageCollectionThreshold v : M unit := modify (with_garbageCollectionThreshold v).

(** ** Flags *)
Definition ascii_z (c : ascii) : Z := Z.of_N (N_of_ascii c).

(** [std::tolower] in the "C" locale. *)
Definition tolower (c : ascii) : ascii :=
  if (65 <=? ascii_z c) && (ascii_z c <=? 90)
  then ascii_of_N (Z.to_N (ascii_z c + 32)) else c.

Fixpoint string_map (f : ascii → ascii) (s : string) : string :=
  match s with
  | EmptyString => EmptyString
  | String c s' => String (f c) (string_map f s')
  end.

Definition checkFlagString (value : string) : M bool :=
  let value := string_map tolower value in
  if bool_decide (value = "1" ∨ value = "on" ∨ value = "yes") then ret true
  else if bool_decide (value = "" ∨ value = "0" ∨ value = "off" ∨ value = "no") then ret false
  else fail (Throw ("Unknown flag value " +:+ value)).

(** ** [std::stoul] (base 10): white space, an optional sign, the longest run
    of digits; what follows is ignored. A minus sign negates modulo [2^64]. *)
Definition isspace (c : ascii) : bool :=
  (ascii_z c =? 32) || ((9 <=? ascii_z c) && (ascii_z c <=? 13)).
Definition isdigit (c : ascii) : bool := (48 <=? ascii_z c) && (ascii_z c <=? 57).

Fixpoint skip_spaces (s : string) : string :=
  match s with
  | String c s' => if isspace c then skip_spaces s' else s
  | EmptyString => s
  end.

(** The value of the leading digits, given the value so far. *)
Fixpoint digits (s : string) (acc : Z) : Z :=
  match s with
  | String c s' => if isdigit c then digits s' (10 * acc + (ascii_z c - 48)) else acc
  | EmptyString => acc
  end.

Definition starts_with_digit (s : string) : bool :=
  match s with String c _ => isdigit c | EmptyString => false end.

Inductive stoul_result : Type := invalid_argument | out_of_range | number (n : Z).

Definition stoul (s : string) : stoul_result :=
  let s := skip_spaces s in
  let '(negative, s) :=
    match s with
    | String "-" s' => (true, s')
    | String "+" s' => (false, s')
    | _ => (false, s)
    end in
  if starts_with_digit s then
    let n := digits s 0 in
    if n <? 2 ^ 64 then number (if negative then u64 (- n) else n) else out_of_range
  else invalid_argument.

(** ** [loadConfig] *)
Section load.
Context (getenv : string → option string).

(** [auto *v = getenv(name); if (v != nullptr) k(v)]. *)
Definition if_set (name : string) (k : string → M unit) : M unit :=
  match getenv name with
  | Some v => k v
  | None => ret tt
  end.

Definition load_memory_input (v : string) : M unit :=
  b <- checkFlagString v ;;
  if b then
    i <- gets input ;;
    match i with
    | FileInput _ => fail (Throw "Can't enable file and memory input at the same time")
    | _ => set_input MemoryInput
    end
  else ret tt.

Definition load_no_input (v : string) : M unit :=
  b <- checkFlagString v ;; if b then set_input NoInput else ret tt.

Definition load_threshold (v : string) : M unit :=
  match stoul v with
  | number n => set_garbageCollectionThreshold n
  | invalid_argument => fail (Throw ("Can't convert " +:+ v +:+ " to an integer"))
  | out_of_range =>
      fail (Throw "The GC threshold must be between 0 and 18446744073709551615")
  end.

Definition loadConfig : M unit :=
  if_set "SYMCC_OUTPUT_DIR" set_outputDir ;;;
  if_set "SYMCC_INPUT_FILE" (λ f, set_input (FileInput f)) ;;;
  if_set "SYMCC_MEMORY_INPUT" load_memory_input ;;;
  if_set "SYMCC_NO_SYMBOLIC_INPUT" load_no_input ;;;
  if_set "SYMCC_LOG_FILE" set_logFile ;;;
  if_set "SYMCC_ENABLE_LINEARIZATION" (λ v, b <- checkFlagString v ;; set_pruning b) ;;;
  if_set "SYMCC_AFL_COVERAGE_MAP" set_aflCoverageMap ;;;
  if_set "SYMCC_GC_THRESHOLD" load_threshold.

End load.

(** ** What the functions compute *)

(** A flag as the documentation describes it. *)
Inductive flag : Type := On | Off | Unknown.

#[export] Instance flag_eq_dec : EqDecision flag.
Proof. solve_decision. Defined.

Definition flag_of (value : string) : flag :=
  if decide (string_map tolower value ∈ ["1"; "on"; "yes"]) then On
  else if decide (string_map tolower value ∈ [""; "0"; "off"; "no"]) then Off
  else Unknown.

Lemma checkFlagString_spec value c :
  checkFlagString value c =
  match flag_of value with
  | On => Ok true c
  | Off => Ok false c
  | Unknown => Err (Throw ("Unknown flag value " +:+ string_map tolower value))
  end.
Proof.
  unfold checkFlagString, flag_of.
  set (v := string_map tolower value).
  rewrite (bool_decide_ext (v = "1" ∨ _) (v ∈ ["1"; "on"; "yes"])) by set_solver.
  rewrite (bool_decide_ext (v = "" ∨ _) (v ∈ [""; "0"; "off"; "no"])) by set_solver.
  destruct (decide (v ∈ ["1"; "on"; "yes"])) as [H|H];
    [by rewrite bool_decide_eq_true_2|rewrite bool_decide_eq_false_2 by done].
  destruct (decide (v ∈ [""; "0"; "off"; "no"])) as [H'|H'];
    [by rewrite bool_decide_eq_true_2|by rewrite bool_decide_eq_false_2].
Qed.

(** [tolower] is idempotent, so flags are insensitive to case. *)
Lemma tolower_idemp c : tolower (tolower c) = tolower c.
Proof. destruct c as [[] [] [] [] [] [] [] []]; reflexivity. Qed.

Lemma string_map_tolower_idemp s :
  string_map tolower (string_map tolower s) = string_map tolower s.
Proof. induction s as [|c s IH]; cbn; [done|]. by rewrite tolower_idemp, IH. Qed.

Lemma flag_of_case s : flag_of (string_map tolower s) = flag_of s.
Proof. unfold flag_of. by rewrite string_map_tolower_idemp. Qed.

(** The digits of a number in decimal notation. *)
Definition digit (d : Z) : ascii := ascii_of_N (Z.to_N (48 + d)).

Lemma digit_range d : 0 ≤ d < 10 → isdigit (digit d) = true ∧ ascii_z (digit d) = 48 + d.
Proof.
  intros. assert (ascii_z (digit d) = 48 + d) as E.
  { unfold ascii_z, digit. rewrite N_ascii_embedding by lia. lia. }
  split; [|done]. unfold isdigit. rewrite E. lia.
Qed.

Fixpoint decimal_aux (fuel : nat) (n : Z) (acc : string) : string :=
  match fuel with
  | O => acc
  | S f => let acc := String (digit (n mod 10)) acc in
           if n <? 10 then acc else decimal_aux f (n / 10) acc
  end.

(** Decimal notation of a 64-bit number (at most 20 digits). *)
Definition decimal (n : Z) : string := decimal_aux 20 n "".

(** Reading [decimal_aux fuel n acc] is reading [acc] after [n]. *)
Lemma digits_decimal_aux fuel n :
  0 ≤ n < 10 ^ Z.of_nat fuel →
  ∃ k, 0 ≤ k ∧ ∀ m acc, digits (decimal_aux fuel n acc) m = digits acc (m * 10 ^ k + n).
Proof.
  revert n. induction fuel as [|f IH]; intros n Hn.
  { exists 0. split; [done|]. intros. cbn in *. f_equal. lia. }
  pose proof (Z.mod_pos_bound n 10) as Hm. pose proof (Z.div_mod n 10) as Hd.
  destruct (digit_range (n mod 10)) as [Hg Hv]; [lia|].
  cbn [decimal_aux]. destruct (Z.ltb_spec n 10).
  - exists 1. split; [done|]. intros m acc. cbn [digits]. rewrite Hg, Hv. f_equal.
    rewrite Z.mod_small by lia. lia.
  - rewrite Nat2Z.inj_succ, Z.pow_succ_r in Hn by lia.
    destruct (IH (n / 10)) as (k&Hk&E).
    { split; [apply Z.div_pos; lia|]. apply Z.div_lt_upper_bound; lia. }
    exists (k + 1). split; [lia|]. intros m acc. rewrite E. cbn [digits]. rewrite Hg, Hv.
    f_equal. rewrite Z.pow_add_r by lia. lia.
Qed.

Lemma starts_decimal_aux fuel n acc :
  0 ≤ n → (0 < fuel)%nat ∨ starts_with_digit acc = true →
  starts_with_digit (decimal_aux fuel n acc) = true.
Proof.
  revert n acc. induction fuel as [|f IH]; intros n acc Hn H.
  { destruct H as [H|H]; [lia|done]. }
  pose proof (Z.mod_pos_bound n 10) as Hm.
  destruct (digit_range (n mod 10)) as [Hg _]; [lia|].
  cbn [decimal_aux]. case_match; [done|]. apply IH; [by apply Z.div_pos|]. by right.
Qed.

Lemma stoul_digits s :
  starts_with_digit s = true →
  stoul s = if digits s 0 <? 2 ^ 64 then number (digits s 0) else out_of_range.
Proof.
  intros H. unfold stoul. destruct s as [|c s]; [done|].
  assert (isspace c = false) as E.
  { cbn in H. unfold isspace, isdigit in *. lia. }
  cbn [skip_spaces]. rewrite E. clear E.
  destruct c as [[] [] [] [] [] [] [] []]; try done; by rewrite H.
Qed.

Lemma stoul_decimal n :
  0 ≤ n < 10 ^ 20 → stoul (decimal n) = if n <? 2 ^ 64 then number n else out_of_range.
Proof.
  intros Hn. unfold decimal. rewrite stoul_digits by (apply starts_decimal_aux; lia).
  destruct (digits_decimal_aux 20 n) as (k&Hk&E); [lia|]. rewrite E. cbn [digits].
  by replace (0 * 10 ^ k + n) with n by lia.
Qed.

(** ** The configuration read from an environment *)
Section result.
Context (getenv : string → option string).

(** A variable that holds a flag, if set, holds a known one. *)
Definition flag_var (name : string) : option flag := flag_of <$> getenv name.

Definition input_of (i : InputConfig) : InputConfig :=
  if decide (flag_var "SYMCC_NO_SYMBOLIC_INPUT" = Some On) then NoInput
  else if decide (flag_var "SYMCC_MEMORY_INPUT" = Some On) then MemoryInput
  else match getenv "SYMCC_INPUT_FILE" with Some f => FileInput f | None => i end.

Definition config_of (c : Config) : Config := {|
  input := input_of (input c);
  outputDir := default (outputDir c) (getenv "SYMCC_OUTPUT_DIR");
  logFile := default (logFile c) (getenv "SYMCC_LOG_FILE");
  pruning := match flag_var "SYMCC_ENABLE_LINEARIZATION" with
             | Some On => true | None => pruning c | _ => false end;
  aflCoverageMap := default (aflCoverageMap c) (getenv "SYMCC_AFL_COVERAGE_MAP");
  garbageCollectionThreshold :=
    match stoul <$> getenv "SYMCC_GC_THRESHOLD" with
    | Some (number n) => n
    | _ => garbageCollectionThreshold c
    end;
|}.

(** The environments [loadConfig] accepts, for a program that has not been
    configured for file input before. *)
Definition env_ok : Prop :=
  flag_var "SYMCC_MEMORY_INPUT" ≠ Some Unknown ∧
  flag_var "SYMCC_NO_SYMBOLIC_INPUT" ≠ Some Unknown ∧
  flag_var "SYMCC_ENABLE_LINEARIZATION" ≠ Some Unknown ∧
  (flag_var "SYMCC_MEMORY_INPUT" = Some On → getenv "SYMCC_INPUT_FILE" = None) ∧
  (∀ v, getenv "SYMCC_GC_THRESHOLD" = Some v → ∃ n, stoul v = number n).

#[export] Instance env_ok_dec : Decision env_ok.
Proof.
  unfold env_ok. repeat apply and_dec; try apply _.
  destruct (getenv "SYMCC_GC_THRESHOLD") as [v|].
  - destruct (stoul v) as [| |n] eqn:E.
    + right. intros H. destruct (H v) as [m Hm]; [done|congruence].
    + right. intros H. destruct (H v) as [m Hm]; [done|congruence].
    + left. intros v' [= <-]. by exists n.
  - by left.
Defined.

(** [m], run in [c], ends in [c'] if [P] holds and throws otherwise. *)
Definition runs (m : M unit) (c : Config) (P : Prop) (c' : Config) : Prop :=
  (P → m c = Ok tt c') ∧ (¬ P → ∃ msg, m c = Err (Throw msg)).

Lemma runs_bind m1 m2 c c1 c2 P1 P2 `{Decision P1} :
  runs m1 c P1 c1 → runs m2 c1 P2 c2 → runs (m1 ;;; m2) c (P1 ∧ P2) c2.
Proof.
  intros [A1 B1] [A2 B2]. split.
  - intros [p1 p2]. rewrite (bind_Ok _ _ _ _ _ (A1 p1)). auto.
  - intros Hn. destruct (decide P1) as [p1|p1].
    + rewrite (bind_Ok _ _ _ _ _ (A1 p1)). tauto.
    + destruct (B1 p1) as [msg E]. exists msg. by apply bind_Err.
Qed.

Lemma runs_set {A} name (k : string → A) (w : A → Config → Config) (get : Config → A) c :
  w (get c) c = c →
  runs (if_set getenv name (λ v, modify (w (k v)))) c True
    (w (default (get c) (k <$> getenv name)) c).
Proof. intros E. unfold if_set. split; [|done]. intros _.
  destruct (getenv name); cbn; [done|]. by rewrite E.
Qed.

Lemma runs_memory_input c :
  runs (if_set getenv "SYMCC_MEMORY_INPUT" load_memory_input) c
    (flag_var "SYMCC_MEMORY_INPUT" ≠ Some Unknown ∧
     (flag_var "SYMCC_MEMORY_INPUT" = Some On → ∀ f, input c ≠ FileInput f))
    (with_input (if decide (flag_var "SYMCC_MEMORY_INPUT" = Some On)
                 then MemoryInput else input c) c).
Proof.
  unfold if_set, runs, flag_var, load_memory_input.
  destruct (getenv _) as [v|]; cbn; [|split; [done|intros []; split; congruence]].
  unfold bind. rewrite checkFlagString_spec. destruct (flag_of v); cbn.
  - split.
    + intros [_ H]. rewrite decide_True by done.
      destruct c as [[| | |f] ? ? ? ? ?]; [done..|]. by destruct (H eq_refl f).
    + intros H. destruct c as [[| | |f] ? ? ? ? ?]; [..|unfold gets; cbn; eauto];
        exfalso; by apply H.
  - split; [done|]. intros H. exfalso. by apply H.
  - split; [by intros [? _]|]. eauto.
Qed.

Lemma runs_no_input c :
  runs (if_set getenv "SYMCC_NO_SYMBOLIC_INPUT" load_no_input) c
    (flag_var "SYMCC_NO_SYMBOLIC_INPUT" ≠ Some Unknown)
    (with_input (if decide (flag_var "SYMCC_NO_SYMBOLIC_INPUT" = Some On)
                 then NoInput else input c) c).
Proof.
  unfold if_set, runs, flag_var, load_no_input.
  destruct (getenv _) as [v|]; cbn; [|split; [done|intros []; congruence]].
  unfold bind. rewrite checkFlagString_spec. destruct (flag_of v); cbn; split; try done; eauto.
  - intros []. congruence.
  - intros []. congruence.
Qed.

Lemma runs_pruning c :
  runs (if_set getenv "SYMCC_ENABLE_LINEARIZATION" (λ v, b <- checkFlagString v ;; set_pruning b)) c
    (flag_var "SYMCC_ENABLE_LINEARIZATION" ≠ Some Unknown)
    (with_pruning (match flag_var "SYMCC_ENABLE_LINEARIZATION" with
                   | Some On => true | None => pruning c | _ => false end) c).
Proof.
  unfold if_set, runs, flag_var.
  destruct (getenv _) as [v|]; cbn; [|split; [done|intros []; congruence]].
  unfold bind. rewrite checkFlagString_spec. destruct (flag_of v); cbn; split; try done; eauto.
  - intros []. congruence.
  - intros []. congruence.
Qed.

Lemma runs_threshold c :
  runs (if_set getenv "SYMCC_GC_THRESHOLD" load_threshold) c
    (∀ v, getenv "SYMCC_GC_THRESHOLD" = Some v → ∃ n, stoul v = number n)
    (with_garbageCollectionThreshold
      (match stoul <$> getenv "SYMCC_GC_THRESHOLD" with
       | Some (number n) => n
       | _ => garbageCollectionThreshold c
       end) c).
Proof.
  unfold if_set, runs, load_threshold.
  destruct (getenv _) as [v|]; cbn; [|split; [done|intros []; congruence]].
  destruct (stoul v) eqn:E; split; try done; eauto.
  - intros H. destruct (H v eq_refl) as [? ?]. congruence.
  - intros H. destruct (H v eq_refl) as [? ?]. congruence.
  - intros []. intros ? [= <-]. eauto.
Qed.

Lemma runs_iff m c P Q c1 c2 :
  runs m c P c1 → (P ↔ Q) → (Q → c1 = c2) → runs m c Q c2.
Proof. intros [A B] H E. split; [intros q; rewrite <-E by done; tauto|tauto]. Qed.

(** [loadConfig] succeeds exactly on the accepted environments, and computes
    [config_of]. *)
Lemma loadConfig_spec c :
  (∀ f, input c ≠ FileInput f) → runs (loadConfig getenv) c env_ok (config_of c).
Proof.
  intros Hc. unfold loadConfig. eapply runs_iff.
  { repeat (eapply @runs_bind; [shelve|
      first [apply runs_memory_input|apply runs_no_input|apply runs_pruning
            |apply (runs_set _ id with_outputDir outputDir); reflexivity
            |apply (runs_set _ FileInput with_input input); reflexivity
            |apply (runs_set _ id with_logFile logFile); reflexivity
            |apply (runs_set _ id with_aflCoverageMap aflCoverageMap); reflexivity]|]).
    apply runs_threshold. }
  - unfold env_ok. split.
    + intros (_&_&(H1&H2)&H3&_&H4&_&H5). split_and!; try done.
      intros Hm. specialize (H2 Hm).
      destruct (getenv "SYMCC_INPUT_FILE") as [f|]; [|done]. by destruct (H2 f).
    + intros (H1&H2&H3&H4&H5). split_and!; try done. intros Hm f.
      rewrite (H4 Hm). by destruct (getenv "SYMCC_OUTPUT_DIR"); apply Hc.
  - intros _. unfold config_of, input_of. rewrite !option_fmap_id.
    destruct (getenv "SYMCC_INPUT_FILE"); repeat case_decide; reflexivity.
  Unshelve. all: apply _.
Qed.
End result.
