(* ===== verification/State.v ===== *)
(** * The state of the run-time library

    The globals of RuntimeCommon.cpp, Shadow.cpp, GarbageCollection.cpp,
    Config.cpp and LibcWrappers.cpp in one record, over the state of the
    backend, together with the memory of the program under test as far as the
    library looks at it. *)

From S2P Require Import Prelude Interface Config.

#[local] Open Scope Z_scope.

Section state.
Context {B : Backend}.

Record rt : Type := {
  (** The backend's globals. *)
  rt_backend : bstate;
  (** [std::map<uintptr_t, SymExpr *> g_shadow_pages]: page address to the
      array of the page's shadow. *)
  g_shadow_pages : gmap Z (list SymExpr);
  (** The program's memory: the byte at each address. *)
  memory : Z → Z;
  (** The program's variables of type [SymExpr], by address. *)
  expr_memory : Z → SymExpr;
  g_return_value : SymExpr;
  (** [std::array<SymExpr, kMaxFunctionArguments>]. *)
  g_function_arguments : list SymExpr;
  (** Address and length of each region. *)
  expressionRegions : list (Z * Z);
  g_config : Config;
  (** The [static] offsets of the three [symcc_make_symbolic*] functions. *)
  memoryInputOffset : Z;
  memoryInputOffset_type : Z;
  memoryInputOffset_prefix : Z;
  (** LibcWrappers.cpp: the file that delivers the symbolic input, or -1, and
      the position in it. *)
  inputFileDescriptor : Z;
  inputOffset : Z;
}.

Definition set_backend b (s : rt) : rt := {|
  rt_backend := b; g_shadow_pages := g_shadow_pages s; memory := memory s;
  expr_memory := expr_memory s; g_return_value := g_return_value s;
  g_function_arguments := g_function_arguments s; expressionRegions := expressionRegions s;
  g_config := g_config s; memoryInputOffset := memoryInputOffset s;
  memoryInputOffset_type := memoryInputOffset_type s;
  memoryInputOffset_prefix := memoryInputOffset_prefix s;
  inputFileDescriptor := inputFileDescriptor s; inputOffset := inputOffset s |}.
Definition set_pages p (s : rt) : rt := {|
  rt_backend := rt_backend s; g_shadow_pages := p; memory := memory s;
  expr_memory := expr_memory s; g_return_value := g_return_value s;
  g_function_arguments := g_function_arguments s; expressionRegions := expressionRegions s;
  g_config := g_config s; memoryInputOffset := memoryInputOffset s;
  memoryInputOffset_type := memoryInputOffset_type s;
  memoryInputOffset_prefix := memoryInputOffset_prefix s;
  inputFileDescriptor := inputFileDescriptor s; inputOffset := inputOffset s |}.
Definition set_memory m (s : rt) : rt := {|
  rt_backend := rt_backend s; g_shadow_pages := g_shadow_pages s; memory := m;
  expr_memory := expr_memory s; g_return_value := g_return_value s;
  g_function_arguments := g_function_arguments s; expressionRegions := expressionRegions s;
  g_config := g_config s; memoryInputOffset := memoryInputOffset s;
  memoryInputOffset_type := memoryInputOffset_type s;
  memoryInputOffset_prefix := memoryInputOffset_prefix s;
  inputFileDescriptor := inputFileDescriptor s; inputOffset := inputOffset s |}.
Definition set_calls r args (s : rt) : rt := {|
  rt_backend := rt_backend s; g_shadow_pages := g_shadow_pages s; memory := memory s;
  expr_memory := expr_memory s; g_return_value := r;
  g_function_arguments := args; expressionRegions := expressionRegions s;
  g_config := g_config s; memoryInputOffset := memoryInputOffset s;
  memoryInputOffset_type := memoryInputOffset_type s;
  memoryInputOffset_prefix := memoryInputOffset_prefix s;
  inputFileDescriptor := inputFileDescriptor s; inputOffset := inputOffset s |}.
Definition set_regions r (s : rt) : rt := {|
  rt_backend := rt_backend s; g_shadow_pages := g_shadow_pages s; memory := memory s;
  expr_memory := expr_memory s; g_return_value := g_return_value s;
  g_function_arguments := g_function_arguments s; expressionRegions := r;
  g_config := g_config s; memoryInputOffset := memoryInputOffset s;
  memoryInputOffset_type := memoryInputOffset_type s;
  memoryInputOffset_prefix := memoryInputOffset_prefix s;
  inputFileDescriptor := inputFileDescriptor s; inputOffset := inputOffset s |}.
Definition set_offsets o ot op (s : rt) : rt := {|
  rt_backend := rt_backend s; g_shadow_pages := g_shadow_pages s; memory := memory s;
  expr_memory := expr_memory s; g_return_value := g_return_value s;
  g_function_arguments := g_function_arguments s; expressionRegions := expressionRegions s;
  g_config := g_config s; memoryInputOffset := o; memoryInputOffset_type := ot;
  memoryInputOffset_prefix := op;
  inputFileDescriptor := inputFileDescriptor s; inputOffset := inputOffset s |}.
Definition set_input_file fd off (s : rt) : rt := {|
  rt_backend := rt_backend s; g_shadow_pages := g_shadow_pages s; memory := memory s;
  expr_memory := expr_memory s; g_return_value := g_return_value s;
  g_function_arguments := g_function_arguments s; expressionRegions := expressionRegions s;
  g_config := g_config s; memoryInputOffset := memoryInputOffset s;
  memoryInputOffset_type := memoryInputOffset_type s;
  memoryInputOffset_prefix := memoryInputOffset_prefix s;
  inputFileDescriptor := fd; inputOffset := off |}.
Definition set_config c (s : rt) : rt := {|
  rt_backend := rt_backend s; g_shadow_pages := g_shadow_pages s; memory := memory s;
  expr_memory := expr_memory s; g_return_value := g_return_value s;
  g_function_arguments := g_function_arguments s; expressionRegions := expressionRegions s;
  g_config := c; memoryInputOffset := memoryInputOffset s;
  memoryInputOffset_type := memoryInputOffset_type s;
  memoryInputOffset_prefix := memoryInputOffset_prefix s;
  inputFileDescriptor := inputFileDescriptor s; inputOffset := inputOffset s |}.

(** A call of a backend function. *)
Definition backend {A} (m : M bstate A) : M rt A := zoom rt_backend set_backend m.

Definition kMaxFunctionArguments : Z := 256.

(** The globals when the program starts. *)
Definition initial_rt (b : bstate) (mem : Z → Z) (cells : Z → SymExpr) : rt := {|
  rt_backend := b; g_shadow_pages := ∅; memory := mem; expr_memory := cells;
  g_return_value := None;
  g_function_arguments := replicate (Z.to_nat kMaxFunctionArguments) None;
  expressionRegions := []; g_config := default_config;
  memoryInputOffset := 0; memoryInputOffset_type := 0; memoryInputOffset_prefix := 0;
  inputFileDescriptor := -1; inputOffset := 0 |}.

End state.
