(* ===== verification/Shadow.v ===== *)
(** * Shadow memory

    Models runtime/include/Shadow.h: the pages of shadow expressions, the
    iterators that walk over them, and [isConcrete].  Addresses are 64-bit
    integers.  A shadow pointer is a page and an index into the page's array;
    an access outside the array is undefined behaviour. *)

From S2P Require Import Prelude Smt Interface State.

#[local] Open Scope Z_scope.

Definition kPageSize : Z := 4096.

Definition pageStart (addr : Z) : Z := Z.land addr (u64 (Z.lnot (kPageSize - 1))).
Definition pageOffset (addr : Z) : Z := Z.land addr (kPageSize - 1).

Section defs.
Context {B : Backend}.
#[local] Abbreviation M := (M rt).

(** A pointer into the array of a page. *)
Definition shadow_ptr : Type := Z * Z.

Definition ptr_add (p : shadow_ptr) (n : Z) : shadow_ptr := (p.1, p.2 + n).

Definition ptr_load (p : shadow_ptr) : M SymExpr :=
  s <- get ;;
  match g_shadow_pages s !! p.1 with
  | Some l => if (0 <=? p.2) && (p.2 <? Z.of_nat (length l))
              then ret (default None (l !! Z.to_nat p.2))
              else fail (Undefined "read outside a shadow page")
  | None => fail (Undefined "read outside a shadow page")
  end.

Definition ptr_store (p : shadow_ptr) (e : SymExpr) : M unit :=
  s <- get ;;
  match g_shadow_pages s !! p.1 with
  | Some l => if (0 <=? p.2) && (p.2 <? Z.of_nat (length l))
              then modify (set_pages (<[p.1 := <[Z.to_nat p.2 := e]> l]> (g_shadow_pages s)))
              else fail (Undefined "write outside a shadow page")
  | None => fail (Undefined "write outside a shadow page")
  end.

(** The two fields of all iterator classes. *)
Record iterator : Type := { address_ : Z; shadow_ : option shadow_ptr }.

Definition getShadow (address : Z) : M (option shadow_ptr) :=
  gets (λ s, match g_shadow_pages s !! pageStart address with
             | Some _ => Some (pageStart address, pageOffset address)
             | None => None
             end).

(** ** [ReadShadowIterator] *)
Definition ReadShadowIterator (address : Z) : M iterator :=
  sh <- getShadow address ;; ret {| address_ := address; shadow_ := sh |}.

Definition read_step (d : Z) (it : iterator) : M iterator :=
  let previousAddress := address_ it in
  let address := u64 (previousAddress + d) in
  let sh := (λ p, ptr_add p d) <$> shadow_ it in
  if negb (pageStart address =? pageStart previousAddress) then
    sh <- getShadow address ;; ret {| address_ := address; shadow_ := sh |}
  else ret {| address_ := address; shadow_ := sh |}.

(** [operator++] and [operator--]. *)
Definition read_incr : iterator → M iterator := read_step 1.
Definition read_decr : iterator → M iterator := read_step (-1).

(** [operator*]; the assertion calls into the backend. *)
Definition read_deref (it : iterator) : M SymExpr :=
  match shadow_ it with
  | None => ret None
  | Some p =>
      e <- ptr_load p ;;
      match e with
      | None => ret None
      | Some _ =>
          bits <- backend (_sym_bits_helper e) ;;
          assert_ (bits =? 8) "Shadow memory always represents bytes" ;;;
          ret e
      end
  end.

(** ** [NonNullReadShadowIterator]: only [operator*] differs. *)
Definition nonnull_deref (it : iterator) : M SymExpr :=
  symbolicResult <- read_deref it ;;
  match symbolicResult with
  | Some _ => ret symbolicResult
  | None =>
      s <- get ;;
      backend (_sym_build_integer (memory s (address_ it)) 8)
  end.

(** ** [WriteShadowIterator] *)
(** [malloc] and [memset] of a page's shadow. *)
Definition newShadow : list SymExpr := replicate (Z.to_nat kPageSize) None.

Definition getOrCreateShadow (address : Z) : M (option shadow_ptr) :=
  shadow <- getShadow address ;;
  match shadow with
  | Some p => ret (Some p)
  | None =>
      s <- get ;;
      modify (set_pages (<[pageStart address := newShadow]> (g_shadow_pages s))) ;;;
      ret (Some (pageStart address, pageOffset address))
  end.

Definition WriteShadowIterator (address : Z) : M iterator :=
  sh <- getOrCreateShadow address ;; ret {| address_ := address; shadow_ := sh |}.

Definition write_step (d : Z) (it : iterator) : M iterator :=
  let previousAddress := address_ it in
  let address := u64 (previousAddress + d) in
  let sh := (λ p, ptr_add p d) <$> shadow_ it in
  if negb (pageStart address =? pageStart previousAddress) then
    sh <- getOrCreateShadow address ;; ret {| address_ := address; shadow_ := sh |}
  else ret {| address_ := address; shadow_ := sh |}.

Definition write_incr : iterator → M iterator := write_step 1.
Definition write_decr : iterator → M iterator := write_step (-1).

(** [*it = e]. *)
Definition write_deref (it : iterator) (e : SymExpr) : M unit :=
  match shadow_ it with
  | Some p => ptr_store p e
  | None => fail (Undefined "write through a null shadow pointer")
  end.

(** [operator==]. *)
Definition it_eqb (a b : iterator) : bool := address_ a =? address_ b.

(** ** The standard algorithms on these iterators, with a bound on the number
    of iterations *)
Fixpoint std_copy (fuel : nat) (first last result : iterator) : M unit :=
  if it_eqb first last then ret tt
  else match fuel with
       | O => fail OutOfFuel
       | S f =>
           e <- read_deref first ;;
           write_deref result e ;;;
           result' <- write_incr result ;;
           first' <- read_incr first ;;
           std_copy f first' last result'
       end.

Fixpoint std_copy_backward (fuel : nat) (first last result : iterator) : M unit :=
  if it_eqb first last then ret tt
  else match fuel with
       | O => fail OutOfFuel
       | S f =>
           last' <- read_decr last ;;
           e <- read_deref last' ;;
           result' <- write_decr result ;;
           write_deref result' e ;;;
           std_copy_backward f first last' result'
       end.

(** [std::generate(first, last, gen)] with a generator that has a state of its
    own, and [std::fill]. *)
Fixpoint std_generate {A} (fuel : nat) (first last : iterator) (gen : A → M (SymExpr * A))
    (a : A) : M unit :=
  if it_eqb first last then ret tt
  else match fuel with
       | O => fail OutOfFuel
       | S f =>
           r <- gen a ;;
           write_deref first r.1 ;;;
           first' <- write_incr first ;;
           std_generate f first' last gen r.2
       end.

Definition std_fill (fuel : nat) (first last : iterator) (value : SymExpr) : M unit :=
  std_generate fuel first last (λ _, ret (value, tt)) tt.

(** [std::accumulate] over a non-null view. *)
Fixpoint std_accumulate (fuel : nat) (first last : iterator) (init : SymExpr)
    (op : SymExpr → SymExpr → M SymExpr) : M SymExpr :=
  if it_eqb first last then ret init
  else match fuel with
       | O => fail OutOfFuel
       | S f =>
           e <- nonnull_deref first ;;
           init' <- op init e ;;
           first' <- read_incr first ;;
           std_accumulate f first' last init' op
       end.

(** [std::all_of] with the predicate "is null". *)
Fixpoint all_null (fuel : nat) (first last : iterator) : M bool :=
  if it_eqb first last then ret true
  else match fuel with
       | O => fail OutOfFuel
       | S f =>
           e <- read_deref first ;;
           if bool_decide (e = None)
           then first' <- read_incr first ;; all_null f first' last
           else ret false
       end.

(** ** [isConcrete] *)
Definition isConcrete (addr nbytes : Z) : M bool :=
  s <- get ;;
  if (pageStart addr =? pageStart (u64 (addr + nbytes))) &&
     bool_decide (g_shadow_pages s !! pageStart addr = None)
  then ret true
  else
    first <- ReadShadowIterator addr ;;
    last <- ReadShadowIterator (u64 (addr + nbytes)) ;;
    all_null (Z.to_nat nbytes) first last.

End defs.

(** ** Addresses and pages *)
Definition valid (a : Z) : Prop := 0 ≤ a < 2 ^ 64.

Lemma pageStart_eq a : valid a → pageStart a = a - a mod kPageSize.
Proof.
  unfold valid, pageStart. intros H.
  change (u64 (Z.lnot (kPageSize - 1))) with (Z.ldiff (Z.ones 64) (Z.ones 12)).
  assert (Z.land a (Z.ldiff (Z.ones 64) (Z.ones 12)) = Z.ldiff (Z.land a (Z.ones 64)) (Z.ones 12)) as ->.
  { apply Z.bits_inj'. intros n Hn.
    rewrite Z.land_spec, !Z.ldiff_spec, Z.land_spec. apply andb_assoc. }
  rewrite Z.land_ones, Z.mod_small, Z.ldiff_ones_r, Z.shiftr_div_pow2, Z.shiftl_mul_pow2 by lia.
  unfold kPageSize. change (2 ^ 12) with 4096. pose proof (Z.div_mod a 4096). lia.
Qed.

Lemma pageOffset_eq a : pageOffset a = a mod kPageSize.
Proof. unfold pageOffset. change (kPageSize - 1) with (Z.ones 12). by rewrite Z.land_ones. Qed.

Lemma page_split a : valid a → a = pageStart a + pageOffset a.
Proof. intros. rewrite pageStart_eq, pageOffset_eq by done. lia. Qed.

Lemma pageOffset_bound a : 0 ≤ pageOffset a < kPageSize.
Proof. rewrite pageOffset_eq. by apply Z.mod_pos_bound. Qed.

Lemma page_inj a b :
  valid a → valid b → pageStart a = pageStart b → pageOffset a = pageOffset b → a = b.
Proof. intros. rewrite (page_split a), (page_split b) by done. congruence. Qed.

(** Within a page the offset moves with the address. *)
Lemma pageOffset_step a d :
  valid a → valid (a + d) → pageStart (a + d) = pageStart a →
  pageOffset (a + d) = pageOffset a + d.
Proof.
  intros Ha Hd E. pose proof (page_split a Ha). pose proof (page_split _ Hd). lia.
Qed.

(** Addresses between two addresses of a page are on the page. *)
Lemma pageStart_between a b c :
  valid a → valid c → a ≤ b ≤ c → pageStart a = pageStart c → pageStart b = pageStart a.
Proof.
  intros Ha Hc Hb. assert (valid b) by (unfold valid in *; lia).
  rewrite !pageStart_eq by done. unfold kPageSize.
  pose proof (Z.div_mod a 4096). pose proof (Z.div_mod b 4096). pose proof (Z.div_mod c 4096).
  pose proof (Z.mod_pos_bound a 4096). pose proof (Z.mod_pos_bound b 4096).
  pose proof (Z.mod_pos_bound c 4096). lia.
Qed.

Lemma newShadow_length {B : Backend} : length newShadow = Z.to_nat kPageSize.
Proof. apply length_replicate. Qed.

Lemma newShadow_lookup {B : Backend} i : (i < Z.to_nat kPageSize)%nat → newShadow !! i = Some None.
Proof. apply lookup_replicate_2. Qed.

#[global] Opaque newShadow.

(** ** The abstract view: one expression or null per address *)
Section view.
Context {B : Backend}.
Implicit Types (s : rt) (a : Z).

Definition pages_at (ps : gmap Z (list SymExpr)) a : SymExpr :=
  match ps !! pageStart a with
  | Some l => default None (l !! Z.to_nat (pageOffset a))
  | None => None
  end.

Definition shadow_at s a : SymExpr := pages_at (g_shadow_pages s) a.

(** Every shadow is as large as a page. *)
Definition pages_ok (ps : gmap Z (list SymExpr)) : Prop :=
  ∀ p l, ps !! p = Some l → length l = Z.to_nat kPageSize.

(** Two shadow memories that no reader can tell apart: a page without shadow
    and a page whose shadow is null are the same. *)
#[export] Instance pages_equiv : Equiv (gmap Z (list SymExpr)) :=
  λ ps ps', ∀ a, valid a → pages_at ps a = pages_at ps' a.

#[export] Instance pages_equivalence : Equivalence (≡@{gmap Z (list SymExpr)}).
Proof.
  split.
  - by intros ps a ?.
  - intros ps ps' H a ?. by rewrite H.
  - intros ps ps' ps'' H H' a ?. by rewrite H, H'.
Qed.

#[export] Instance shadow_at_proper a : valid a → Proper ((≡) ==> (=)) (λ ps, pages_at ps a).
Proof. intros Ha ps ps' H. by apply H. Qed.

(** Pages are only ever added. *)
Definition pages_mono (ps ps' : gmap Z (list SymExpr)) : Prop :=
  ∀ p, is_Some (ps !! p) → is_Some (ps' !! p).

#[export] Instance pages_mono_preorder : PreOrder pages_mono.
Proof. split; [by intros ps p|intros ps ps' ps'' H H' p ?; by apply H', H]. Qed.

Lemma pages_at_absent ps a : ps !! pageStart a = None → pages_at ps a = None.
Proof. unfold pages_at. by intros ->. Qed.

(** Creating an empty shadow changes nothing. *)
Lemma pages_new ps p :
  ps !! p = None → pages_ok ps →
  let ps' := <[p := newShadow]> ps in
  pages_ok ps' ∧ pages_mono ps ps' ∧ ps' ≡ ps ∧ is_Some (ps' !! p).
Proof.
  intros Hp Hok ps'. subst ps'. split_and!.
  - intros q l. destruct (decide (p = q)) as [->|].
    + rewrite lookup_insert_eq. intros [= <-]. apply newShadow_length.
    + rewrite lookup_insert_ne by done. apply Hok.
  - intros q ?. destruct (decide (p = q)) as [->|].
    + by rewrite lookup_insert_eq.
    + by rewrite lookup_insert_ne.
  - intros a Ha. unfold pages_at. destruct (decide (p = pageStart a)) as [->|].
    + rewrite lookup_insert_eq, Hp. pose proof (pageOffset_bound a).
      by rewrite newShadow_lookup by lia.
    + by rewrite lookup_insert_ne.
  - by rewrite lookup_insert_eq.
Qed.

(** Writing through a pointer changes one address. *)
Lemma pages_store ps a e l :
  valid a → pages_ok ps → ps !! pageStart a = Some l →
  let ps' := <[pageStart a := <[Z.to_nat (pageOffset a) := e]> l]> ps in
  pages_ok ps' ∧ pages_mono ps ps' ∧
  ∀ b, valid b → pages_at ps' b = if decide (b = a) then e else pages_at ps b.
Proof.
  intros Ha Hok Hl ps'. subst ps'. pose proof (pageOffset_bound a).
  pose proof (Hok _ _ Hl) as Hlen. split_and!.
  - intros q l'. destruct (decide (pageStart a = q)) as [->|].
    + rewrite lookup_insert_eq. intros [= <-]. by rewrite length_insert.
    + rewrite lookup_insert_ne by done. apply Hok.
  - intros q ?. destruct (decide (pageStart a = q)) as [->|].
    + by rewrite lookup_insert_eq.
    + by rewrite lookup_insert_ne.
  - intros b Hb. unfold pages_at. destruct (decide (pageStart a = pageStart b)) as [E|E].
    + rewrite E, lookup_insert_eq. pose proof (pageOffset_bound b).
      destruct (decide (b = a)) as [->|Hne].
      * rewrite list_lookup_insert_eq; [done|]. lia.
      * rewrite list_lookup_insert_ne; [by rewrite <-E, Hl|].
        intros Ho. apply Hne. symmetry. apply page_inj; try done. lia.
    + rewrite lookup_insert_ne by done. rewrite decide_False; [done|congruence].
Qed.
End view.

(** ** Invariants *)
Section spec.
Context {B : Backend} {BS : BackendSpec B}.
Implicit Types (s : rt) (a : Z) (ρ : env).

Definition is_byte_value ρ (b : bstate) (e : SymExpr) : Prop :=
  match e with Some h => ∃ x, rep ρ b h (VBV 8 x) | None => True end.

(** Shadow expressions are 8-bit expressions. *)
Definition shadow_inv ρ s : Prop :=
  binv (rt_backend s) ∧ pages_ok (g_shadow_pages s) ∧ (∀ a, 0 ≤ memory s a < 256) ∧
  ∀ a, valid a → is_byte_value ρ (rt_backend s) (shadow_at s a).

(** A step of the library that touches the shadow and the backend only. *)
Definition rt_step s s' : Prop :=
  bext (rt_backend s) (rt_backend s') ∧
  pages_mono (g_shadow_pages s) (g_shadow_pages s') ∧
  s' = set_pages (g_shadow_pages s') (set_backend (rt_backend s') s).

#[export] Instance rt_step_preorder : PreOrder rt_step.
Proof.
  split.
  - intros s. split_and!; [reflexivity..|by destruct s].
  - intros s1 s2 s3 (A1&B1&C1) (A2&B2&C2). split_and!; [by etransitivity..|].
    rewrite C2, C1. done.
Qed.

Lemma rt_step_memory s s' : rt_step s s' → memory s' = memory s.
Proof. by intros (_&_&->). Qed.

Lemma is_byte_value_mono ρ b b' e : bext b b' → is_byte_value ρ b e → is_byte_value ρ b' e.
Proof. destruct e; cbn; [|done]. intros X [x H]. exists x. by eapply rep_mono. Qed.

(** [s'] is reached from [s] and its shadow memory is [sh]. *)
Definition evolves ρ s s' (sh : Z → SymExpr) : Prop :=
  rt_step s s' ∧ shadow_inv ρ s' ∧ ∀ a, valid a → shadow_at s' a = sh a.

Lemma evolves_refl ρ s : shadow_inv ρ s → evolves ρ s s (shadow_at s).
Proof. intros. by split_and!. Qed.

Lemma evolves_inv ρ s s' sh : evolves ρ s s' sh → shadow_inv ρ s'.
Proof. by intros (_&?&_). Qed.

(** *** Calls of the backend *)
Lemma wp_backend {A} ρ s0 s sh (m : M bstate A) P Q :
  evolves ρ s0 s sh →
  returns binv bext m (rt_backend s) P →
  (∀ r s', evolves ρ s0 s' sh → rt_step s s' → g_shadow_pages s' = g_shadow_pages s →
    P r (rt_backend s') → Q r s') →
  wp (backend m) s Q.
Proof.
  intros (X0&(I&Ok&Mem&Sh)&Hsh) (a&b&E&I'&X&HP) HQ.
  exists a, (set_backend b s). split.
  { unfold backend, zoom. by rewrite E. }
  assert (rt_step s (set_backend b s)) as St by (split_and!; [done|reflexivity|by destruct s]).
  apply HQ; try done. split_and!.
  - by etransitivity.
  - split_and!; try done. intros c Hc. eapply is_byte_value_mono; [exact X|by apply Sh].
  - done.
Qed.

(** *** Iterators *)

(** The pointer of the iterator is the address' place in its page. *)
Definition at_shadow s (it : iterator) : Prop :=
  shadow_ it = Some (pageStart (address_ it), pageOffset (address_ it)) ∧
  is_Some (g_shadow_pages s !! pageStart (address_ it)).

(** A reader may hold the null pointer of a page that got a shadow after
    the reader entered it; [s0] is the state before the algorithm. *)
Definition rd_ok s0 s (it : iterator) : Prop :=
  valid (address_ it) ∧
  (at_shadow s it ∨
   (shadow_ it = None ∧ g_shadow_pages s0 !! pageStart (address_ it) = None)).

Definition wr_ok s (it : iterator) : Prop := valid (address_ it) ∧ at_shadow s it.

Lemma at_shadow_mono s s' it :
  pages_mono (g_shadow_pages s) (g_shadow_pages s') → at_shadow s it → at_shadow s' it.
Proof. intros H [? ?]. split; [done|]. by apply H. Qed.

Lemma rd_ok_mono s0 s s' it : rt_step s s' → rd_ok s0 s it → rd_ok s0 s' it.
Proof.
  intros (_&X&_) [? [?|?]]; split; try done; [left|by right]. by eapply at_shadow_mono.
Qed.

Lemma wr_ok_mono s s' it : rt_step s s' → wr_ok s it → wr_ok s' it.
Proof. intros (_&X&_) [? ?]; split; [done|]. by eapply at_shadow_mono. Qed.

Lemma getShadow_rd s0 s a :
  pages_mono (g_shadow_pages s0) (g_shadow_pages s) → valid a →
  wp (getShadow a) s (λ sh s', s' = s ∧ rd_ok s0 s {| address_ := a; shadow_ := sh |}).
Proof.
  intros Mo Ha. apply wp_gets. split; [done|]. split; [done|]. cbn.
  destruct (g_shadow_pages s !! pageStart a) eqn:E; [left; by split|right].
  split; [done|]. destruct (g_shadow_pages s0 !! pageStart a) eqn:E0; [|done].
  destruct (Mo (pageStart a)) as [? ?]; [by eexists|congruence].
Qed.

Lemma read_new s0 s a :
  pages_mono (g_shadow_pages s0) (g_shadow_pages s) → valid a →
  wp (ReadShadowIterator a) s (λ it s', s' = s ∧ rd_ok s0 s it ∧ address_ it = a).
Proof.
  intros Mo Ha. eapply wp_seq; [by apply getShadow_rd|].
  intros sh ? [-> ?]. by apply wp_ret.
Qed.

Lemma at_shadow_step s it d :
  valid (address_ it) → valid (address_ it + d) →
  pageStart (address_ it + d) = pageStart (address_ it) → at_shadow s it →
  at_shadow s {| address_ := address_ it + d;
                 shadow_ := (λ p, ptr_add p d) <$> shadow_ it |}.
Proof.
  intros Ha Hd E [H1 H2]. unfold at_shadow. cbn. rewrite H1, E. cbn. split; [|done].
  unfold ptr_add. cbn. by rewrite pageOffset_step.
Qed.

Lemma read_step_ok s0 s it d :
  pages_mono (g_shadow_pages s0) (g_shadow_pages s) → rd_ok s0 s it →
  valid (address_ it + d) →
  wp (read_step d it) s (λ it' s', s' = s ∧ rd_ok s0 s it' ∧ address_ it' = address_ it + d).
Proof.
  intros Mo [Ha H] Hd. unfold read_step. rewrite u64_small by done.
  destruct (Z.eqb_spec (pageStart (address_ it + d)) (pageStart (address_ it))) as [E|E]; cbn.
  - apply wp_ret. split_and!; try done. split; [done|].
    destruct H as [H|[H1 H2]]; [left; by apply at_shadow_step|right].
    cbn. by rewrite H1, E.
  - eapply wp_seq; [by apply getShadow_rd|]. intros sh ? [-> ?]. by apply wp_ret.
Qed.

(** Reading gives the expression the address had before the algorithm,
    unless it has been overwritten since. *)
Lemma read_deref_ok ρ s0 s it sh :
  evolves ρ s0 s sh → rd_ok s0 s it → sh (address_ it) = shadow_at s0 (address_ it) →
  wp (read_deref it) s (λ e s', e = sh (address_ it) ∧
    evolves ρ s0 s' sh ∧ rt_step s s' ∧ g_shadow_pages s' = g_shadow_pages s).
Proof.
  intros Ev [Ha H] Eq. unfold read_deref. destruct H as [[-> [l Hl]]|[-> H]].
  - pose proof Ev as (_&(_&Ok&_&Sh)&Hsh).
    assert (default None (l !! Z.to_nat (pageOffset (address_ it))) = sh (address_ it)) as El.
    { rewrite <-Hsh by done. unfold shadow_at, pages_at. by rewrite Hl. }
    pose proof (pageOffset_bound (address_ it)). pose proof (Ok _ _ Hl) as Hlen.
    eapply wp_seq with (P := λ e s', e = sh (address_ it) ∧ s' = s).
    { unfold ptr_load. apply wp_bind, wp_get. cbn. rewrite Hl, El.
      replace ((_ <=? _) && (_ <? _)) with true by lia. by apply wp_ret. }
    intros e ? [-> ->]. destruct (sh (address_ it)) as [h|] eqn:Eh.
    2:{ apply wp_ret. split_and!; done. }
    specialize (Sh _ Ha). rewrite (Hsh _ Ha), Eh in Sh. destruct Sh as [x Hx].
    apply wp_bind. eapply wp_backend; [exact Ev| |].
    { eapply bits_helper_spec; [by apply Ev|exact Hx]. }
    intros n s' Ev' St Pg ->. apply wp_bind, wp_assert; [done|]. by apply wp_ret.
  - apply wp_ret. split_and!; [|done..].
    rewrite Eq. symmetry. by apply pages_at_absent.
Qed.

Lemma nonnull_deref_ok ρ s0 s it sh :
  evolves ρ s0 s sh → rd_ok s0 s it → sh (address_ it) = shadow_at s0 (address_ it) →
  wp (nonnull_deref it) s (λ e s', evolves ρ s0 s' sh ∧ rt_step s s' ∧
    g_shadow_pages s' = g_shadow_pages s ∧
    ∃ h, e = Some h ∧
      (sh (address_ it) = Some h ∨
       sh (address_ it) = None ∧ rep ρ (rt_backend s') h (VBV 8 (memory s (address_ it))))).
Proof.
  intros Ev R Eq. eapply wp_seq; [by eapply read_deref_ok|].
  intros e s1 (->&Ev1&St1&Pg1). destruct (sh (address_ it)) as [h|] eqn:Eh.
  { apply wp_ret. split_and!; try done. eauto. }
  apply wp_bind, wp_get. pose proof Ev1 as (_&(I1&_&Mem&_)&_).
  eapply wp_backend; [exact Ev1|by apply (build_integer_spec ρ)|].
  intros e s2 Ev2 St2 Pg2 (h&->&Hh). split_and!; [done|by etransitivity|congruence|].
  exists h. split; [done|]. right. split; [done|].
  specialize (Mem (address_ it)). rewrite wrap_small, u64_small in Hh.
  - by rewrite <-(rt_step_memory _ _ St1).
  - lia.
  - rewrite u64_small; lia.
Qed.

(** Writers. *)
Definition write_only s s' : Prop := rt_step s s' ∧ rt_backend s' = rt_backend s.

Lemma set_pages_evolves ρ s0 s ps sh sh' :
  evolves ρ s0 s sh → pages_ok ps → pages_mono (g_shadow_pages s) ps →
  (∀ a, valid a → pages_at ps a = sh' a) →
  (∀ a, valid a → is_byte_value ρ (rt_backend s) (sh' a)) →
  evolves ρ s0 (set_pages ps s) sh' ∧ write_only s (set_pages ps s).
Proof.
  intros (St&(I&Ok&Mem&_)&Hsh) Ok' Mo Hps Hb.
  assert (rt_step s (set_pages ps s)) as St' by (split_and!; [reflexivity|done|by destruct s]).
  split; [|by split]. split_and!; [by etransitivity| |done].
  split_and!; try done. intros a Ha. unfold shadow_at. cbn. rewrite Hps by done. by apply Hb.
Qed.

Lemma getOrCreateShadow_ok ρ s0 s sh a :
  evolves ρ s0 s sh → valid a →
  wp (getOrCreateShadow a) s (λ p s', evolves ρ s0 s' sh ∧ write_only s s' ∧
    wr_ok s' {| address_ := a; shadow_ := p |}).
Proof.
  intros Ev Ha. unfold getOrCreateShadow. apply wp_bind, wp_gets.
  destruct (g_shadow_pages s !! pageStart a) as [l|] eqn:E.
  { apply wp_ret. split_and!; [done|by split|]. by split_and!. }
  apply wp_bind, wp_get, wp_bind, wp_modify, wp_ret.
  pose proof Ev as (_&(_&Ok&_&Sh)&Hsh).
  destruct (pages_new _ _ E Ok) as (Ok'&Mo&Eq&Hp).
  destruct (set_pages_evolves ρ s0 s _ sh sh Ev Ok' Mo) as [Ev' St'].
  { intros b Hb. rewrite (Eq b Hb). by apply Hsh. }
  { intros b Hb. rewrite <-Hsh by done. by apply Sh. }
  by split_and!.
Qed.

Lemma write_new ρ s0 s sh a :
  evolves ρ s0 s sh → valid a →
  wp (WriteShadowIterator a) s (λ it s', evolves ρ s0 s' sh ∧ write_only s s' ∧
    wr_ok s' it ∧ address_ it = a).
Proof.
  intros Ev Ha. eapply wp_seq; [by eapply getOrCreateShadow_ok|].
  intros p s' (?&?&?). by apply wp_ret.
Qed.

Lemma write_step_ok ρ s0 s sh it d :
  evolves ρ s0 s sh → wr_ok s it → valid (address_ it + d) →
  wp (write_step d it) s (λ it' s', evolves ρ s0 s' sh ∧ write_only s s' ∧
    wr_ok s' it' ∧ address_ it' = address_ it + d).
Proof.
  intros Ev [Ha H] Hd. unfold write_step. rewrite u64_small by done.
  destruct (Z.eqb_spec (pageStart (address_ it + d)) (pageStart (address_ it))) as [E|E]; cbn.
  - apply wp_ret. split_and!; [done|by split| |done]. split; [done|]. by apply at_shadow_step.
  - eapply wp_seq; [by eapply getOrCreateShadow_ok|]. intros p s' (?&?&?). by apply wp_ret.
Qed.

Definition upd (sh : Z → SymExpr) (a : Z) (e : SymExpr) : Z → SymExpr :=
  λ b, if decide (b = a) then e else sh b.

Lemma write_deref_ok ρ s0 s sh it e :
  evolves ρ s0 s sh → wr_ok s it → is_byte_value ρ (rt_backend s) e →
  wp (write_deref it e) s (λ _ s', evolves ρ s0 s' (upd sh (address_ it) e) ∧ write_only s s').
Proof.
  intros Ev [Ha [Hit [l Hl]]] He. unfold write_deref. rewrite Hit. unfold ptr_store.
  apply wp_bind, wp_get. cbn. rewrite Hl. pose proof Ev as (_&(_&Ok&_&Sh)&Hsh).
  pose proof (pageOffset_bound (address_ it)). pose proof (Ok _ _ Hl) as Hlen.
  replace ((_ <=? _) && (_ <? _)) with true by lia. apply wp_modify.
  destruct (pages_store _ _ e _ Ha Ok Hl) as (Ok'&Mo&Hst).
  apply (set_pages_evolves ρ s0 s _ sh); try done.
  - intros b Hb. rewrite Hst by done. unfold upd. case_decide; [done|]. by apply Hsh.
  - intros b Hb. unfold upd. case_decide; [done|]. rewrite <-Hsh by done. by apply Sh.
Qed.

(** *** The algorithms *)
Lemma evolves_ext ρ s0 s sh sh' :
  evolves ρ s0 s sh → (∀ a, valid a → sh a = sh' a) → evolves ρ s0 s sh'.
Proof. intros (?&?&H) E. split_and!; try done. intros a Ha. by rewrite H, E. Qed.

Lemma evolves_byte ρ s0 s sh a :
  evolves ρ s0 s sh → valid a → is_byte_value ρ (rt_backend s) (sh a).
Proof. intros (_&(_&_&_&Sh)&Hsh) Ha. rewrite <-Hsh by done. by apply Sh. Qed.

Lemma evolves_trans ρ s0 s1 s2 sh sh' :
  evolves ρ s0 s1 sh → evolves ρ s1 s2 sh' → evolves ρ s0 s2 sh'.
Proof. intros (?&_&_) (?&?&?). split_and!; try done. by etransitivity. Qed.

(** [len] bytes of shadow copied from [src] to [dest]. *)
Definition copied (sh : Z → SymExpr) (dest src len : Z) : Z → SymExpr :=
  λ a, if decide (dest ≤ a < dest + len) then sh (src + (a - dest)) else sh a.

Section copy.
Context (ρ : env) (s0 : rt) (src dest len : Z).
Context (Hs : 0 ≤ src) (Hd : 0 ≤ dest) (Hl : 0 ≤ len).
Context (Hs' : src + len < 2 ^ 64) (Hd' : dest + len < 2 ^ 64).

Lemma std_copy_loop n i s first last result :
  (dest ≤ src ∨ src + len ≤ dest) →
  0 ≤ i → i + Z.of_nat n = len →
  address_ first = src + i → address_ last = src + len → address_ result = dest + i →
  rd_ok s0 s first → wr_ok s result →
  evolves ρ s0 s (copied (shadow_at s0) dest src i) →
  wp (std_copy n first last result) s
    (λ _ s', evolves ρ s0 s' (copied (shadow_at s0) dest src len)).
Proof.
  intros Hov. revert i s first result.
  induction n as [|n IH]; intros i s first result Hi Hn Af Al Ar Rf Wr Ev;
    cbn [std_copy]; unfold it_eqb; rewrite Af, Al.
  { replace (src + i =? src + len) with true by lia.
    apply wp_ret. by replace len with i by lia. }
  replace (src + i =? src + len) with false by lia.
  assert (copied (shadow_at s0) dest src i (src + i) = shadow_at s0 (src + i)) as E.
  { unfold copied. by rewrite decide_False by lia. }
  eapply wp_seq; [eapply read_deref_ok; [exact Ev|exact Rf|by rewrite Af]|].
  intros e s1 (->&Ev1&St1&_). rewrite Af.
  eapply wp_seq; [eapply write_deref_ok; [exact Ev1|by eapply wr_ok_mono|]|].
  { eapply evolves_byte; [exact Ev1|unfold valid; lia]. }
  intros [] s2 (Ev2&[St2 _]). rewrite Ar in Ev2.
  eapply wp_seq; [eapply write_step_ok; [exact Ev2|..]|].
  { eapply wr_ok_mono; [exact St2|]. by eapply wr_ok_mono. }
  { unfold valid; lia. }
  intros result' s3 (Ev3&[St3 _]&Wr3&Ar3).
  eapply wp_seq; [eapply read_step_ok; [apply Ev3| |unfold valid; lia]|].
  { do 3 (eapply rd_ok_mono; [eassumption|]). done. }
  intros first' ? (->&Rf3&Af3).
  eapply (IH (i + 1)); try done; try lia.
  eapply evolves_ext; [exact Ev3|]. intros a Ha. unfold upd, copied.
  repeat case_decide; try lia; try done; subst; try (f_equal; lia).
Qed.

Lemma std_copy_backward_loop n s first last result :
  src ≤ dest →
  Z.of_nat n ≤ len →
  address_ first = src → address_ last = src + Z.of_nat n →
  address_ result = dest + Z.of_nat n →
  rd_ok s0 s last → wr_ok s result →
  evolves ρ s0 s (copied (shadow_at s0) (dest + Z.of_nat n) (src + Z.of_nat n) (len - Z.of_nat n)) →
  wp (std_copy_backward n first last result) s
    (λ _ s', evolves ρ s0 s' (copied (shadow_at s0) dest src len)).
Proof.
  intros Hov. revert s last result.
  induction n as [|n IH]; intros s last result Hn Af Al Ar Rl Wr Ev;
    cbn [std_copy_backward]; unfold it_eqb; rewrite Af, Al.
  { change (Z.of_nat 0) with 0 in *. rewrite !Z.add_0_r, Z.sub_0_r in Ev.
    rewrite Z.add_0_r, Z.eqb_refl. by apply wp_ret. }
  set (i := Z.of_nat n). replace (Z.of_nat (S n)) with (i + 1) in * by lia.
  replace (src =? src + (i + 1)) with false by lia.
  eapply wp_seq; [eapply (read_step_ok s0); [apply Ev|exact Rl|unfold valid; lia]|].
  intros last' ? (->&Rl1&Al1). assert (address_ last' = src + i) as Al1' by lia. clear Al1.
  eapply wp_seq; [eapply read_deref_ok; [exact Ev|exact Rl1|]|].
  { rewrite Al1'. unfold copied. by rewrite decide_False by lia. }
  intros e s1 (->&Ev1&St1&_). rewrite Al1'.
  eapply wp_seq; [eapply write_step_ok; [exact Ev1|by eapply wr_ok_mono|unfold valid; lia]|].
  intros result' s2 (Ev2&[St2 _]&Wr2&Ar2). assert (address_ result' = dest + i) as Ar2' by lia.
  eapply wp_seq; [eapply write_deref_ok; [exact Ev2|exact Wr2|]|].
  { eapply evolves_byte; [exact Ev2|unfold valid; lia]. }
  intros [] s3 (Ev3&[St3 _]). rewrite Ar2' in Ev3.
  apply IH; try done; try lia.
  { do 3 (eapply rd_ok_mono; [eassumption|]). done. }
  { by eapply wr_ok_mono. }
  eapply evolves_ext; [exact Ev3|]. intros a Ha. unfold upd, copied. fold i.
  repeat case_decide; try lia; try done; subst; try (f_equal; lia).
Qed.
End copy.

(** *** Reading without writing *)
Lemma all_null_ok ρ s0 n i a len s first last :
  0 ≤ a → a + len < 2 ^ 64 → 0 ≤ i → i + Z.of_nat n = len →
  address_ first = a + i → address_ last = a + len →
  rd_ok s0 s first → evolves ρ s0 s (shadow_at s0) →
  wp (all_null n first last) s (λ b s', evolves ρ s0 s' (shadow_at s0) ∧
    g_shadow_pages s' = g_shadow_pages s ∧
    (b = true ↔ ∀ j, i ≤ j < len → shadow_at s0 (a + j) = None)).
Proof.
  intros Ha Hlen. revert i s first.
  induction n as [|n IH]; intros i s first Hi Hn Af Al Rf Ev;
    cbn [all_null]; unfold it_eqb; rewrite Af, Al.
  { replace (a + i =? a + len) with true by lia. apply wp_ret.
    split_and!; try done. split; [|done]. intros _ j ?. lia. }
  replace (a + i =? a + len) with false by lia.
  eapply wp_seq; [by eapply read_deref_ok|]. intros e s1 (->&Ev1&St1&Pg1). rewrite Af.
  destruct (decide (shadow_at s0 (a + i) = None)) as [E|E].
  - rewrite bool_decide_eq_true_2 by done.
    eapply wp_seq; [eapply (read_step_ok s0); [apply Ev1|by eapply rd_ok_mono|unfold valid; lia]|].
    intros first' ? (->&Rf'&Af'). eapply wp_impl.
    { eapply (IH (i + 1)); try done; lia. }
    intros b s2 (?&?&Hb). split_and!; [done|congruence|]. rewrite Hb. split.
    + intros Hall j Hj. destruct (decide (j = i)) as [->|]; [done|]. apply Hall. lia.
    + intros Hall j Hj. apply Hall. lia.
  - rewrite bool_decide_eq_false_2 by done. apply wp_ret. split_and!; try done.
    split; [done|]. intros Hall. destruct E. apply Hall. lia.
Qed.

(** [isConcrete] decides whether the region has no symbolic byte. *)
Lemma isConcrete_ok ρ s a len :
  shadow_inv ρ s → 0 ≤ a → 0 ≤ len → a + len < 2 ^ 64 →
  wp (isConcrete a len) s (λ b s', evolves ρ s s' (shadow_at s) ∧
    g_shadow_pages s' = g_shadow_pages s ∧
    (b = true ↔ ∀ j, 0 ≤ j < len → shadow_at s (a + j) = None)).
Proof.
  intros Inv Ha Hlen Hend. pose proof (evolves_refl ρ s Inv) as Ev.
  assert (valid a ∧ valid (a + len)) as [Va Ve] by (unfold valid; lia).
  unfold isConcrete. apply wp_bind, wp_get. rewrite u64_small by done.
  case_match eqn:Fast.
  - apply andb_true_iff in Fast as [E%Z.eqb_eq N%bool_decide_eq_true].
    apply wp_ret. split_and!; try done. split; [|done]. intros _ j Hj.
    apply pages_at_absent. by rewrite (pageStart_between a (a + j) (a + len)) by (done || lia).
  - clear Fast. eapply wp_seq; [by apply (read_new s)|]. intros first ? (->&Rf&Af).
    eapply wp_seq; [by apply (read_new s)|]. intros last ? (->&Rl&Al).
    apply (all_null_ok ρ s _ 0 a); try done; lia.
Qed.

Lemma std_accumulate_ok ρ s0 (R : rt → Z → SymExpr → Prop) op a len :
  0 ≤ a → a + len < 2 ^ 64 →
  (∀ j s1 acc h x, evolves ρ s0 s1 (shadow_at s0) → 0 ≤ j < len → R s1 j acc →
    rep ρ (rt_backend s1) h (VBV 8 x) →
    (shadow_at s0 (a + j) = Some h ∨ shadow_at s0 (a + j) = None ∧ x = memory s0 (a + j)) →
    wp (op acc (Some h)) s1 (λ acc' s2, evolves ρ s0 s2 (shadow_at s0) ∧ rt_step s1 s2 ∧
      R s2 (j + 1) acc')) →
  (∀ j s1 s2 acc, rt_step s1 s2 → R s1 j acc → R s2 j acc) →
  ∀ n i s first last init,
  0 ≤ i → i + Z.of_nat n = len → address_ first = a + i → address_ last = a + len →
  rd_ok s0 s first → evolves ρ s0 s (shadow_at s0) → R s i init →
  wp (std_accumulate n first last init op) s (λ acc s', evolves ρ s0 s' (shadow_at s0) ∧
    R s' len acc).
Proof.
  intros Ha Hlen Hop HR n.
  induction n as [|n IH]; intros i s first last init Hi Hn Af Al Rf Ev Hr;
    cbn [std_accumulate]; unfold it_eqb; rewrite Af, Al.
  { replace (a + i =? a + len) with true by lia. apply wp_ret.
    split; [done|]. by replace len with i by lia. }
  replace (a + i =? a + len) with false by lia.
  eapply wp_seq; [by eapply nonnull_deref_ok|].
  intros e s1 (Ev1&St1&_&h&->&Hh). rewrite Af in Hh.
  assert (∃ x, rep ρ (rt_backend s1) h (VBV 8 x) ∧
    (shadow_at s0 (a + i) = Some h ∨ shadow_at s0 (a + i) = None ∧ x = memory s0 (a + i)))
    as (x&Hx&Hcase).
  { destruct Hh as [E|[E Hh]].
    - assert (valid (a + i)) as Hv by (unfold valid; lia).
      pose proof (evolves_byte _ _ _ _ _ Ev1 Hv) as Hb. rewrite E in Hb.
      destruct Hb as [x Hx]. eauto.
    - exists (memory s (a + i)). split; [done|]. right. split; [done|].
      destruct Ev as [St _]. by rewrite (rt_step_memory _ _ St). }
  eapply wp_seq; [eapply Hop; [exact Ev1| |by eapply HR|exact Hx|done]; lia|].
  intros acc s2 (Ev2&St2&Hr2).
  eapply wp_seq; [eapply (read_step_ok s0); [apply Ev2| |unfold valid; lia]|].
  { do 2 (eapply rd_ok_mono; [eassumption|]). done. }
  intros first' ? (->&Rf'&Af'). apply (IH (i + 1)); try done; lia.
Qed.

(** [len] bytes of shadow from [a] replaced by the expressions [v]. *)
Definition filled (sh : Z → SymExpr) (a len : Z) (v : Z → SymExpr) : Z → SymExpr :=
  λ b, if decide (a ≤ b < a + len) then v (b - a) else sh b.

(** A generator: [G] relates its state to the position, [R] characterises the
    expressions it produces. *)
Lemma std_generate_ok {A} ρ s0 (G : bstate → Z → A → Prop) (R : bstate → Z → SymExpr → Prop)
    (gen : A → M rt (SymExpr * A)) a len :
  0 ≤ a → a + len < 2 ^ 64 →
  (∀ i s1 x sh, evolves ρ s0 s1 sh → 0 ≤ i < len → G (rt_backend s1) i x →
    wp (gen x) s1 (λ r s2, evolves ρ s0 s2 sh ∧ rt_step s1 s2 ∧
      g_shadow_pages s2 = g_shadow_pages s1 ∧
      is_byte_value ρ (rt_backend s2) r.1 ∧ R (rt_backend s2) i r.1 ∧
      G (rt_backend s2) (i + 1) r.2)) →
  (∀ b b' i e, bext b b' → R b i e → R b' i e) →
  ∀ n i s first last x v,
  0 ≤ i → i + Z.of_nat n = len → address_ first = a + i → address_ last = a + len →
  wr_ok s first → evolves ρ s0 s (filled (shadow_at s0) a i v) →
  (∀ j, 0 ≤ j < i → R (rt_backend s) j (v j)) → G (rt_backend s) i x →
  wp (std_generate n first last gen x) s (λ _ s', ∃ v',
    evolves ρ s0 s' (filled (shadow_at s0) a len v') ∧
    (∀ j, 0 ≤ j < len → R (rt_backend s') j (v' j)) ∧
    ∃ x', G (rt_backend s') len x').
Proof.
  intros Ha Hlen Hgen HR n.
  induction n as [|n IH]; intros i s first last x v Hi Hn Af Al Wf Ev Hv HG;
    cbn [std_generate]; unfold it_eqb; rewrite Af, Al.
  { replace (a + i =? a + len) with true by lia. apply wp_ret. exists v.
    replace len with i by lia. eauto. }
  replace (a + i =? a + len) with false by lia.
  eapply wp_seq; [eapply (Hgen i); [exact Ev|lia|exact HG]|].
  intros [e x'] s1 (Ev1&St1&Pg1&He&HRe&HG1). cbn in *.
  eapply wp_seq; [eapply write_deref_ok; [exact Ev1|by eapply wr_ok_mono|done]|].
  intros [] s2 (Ev2&[St2 B2]). rewrite Af in Ev2.
  eapply wp_seq; [eapply write_step_ok; [exact Ev2| |unfold valid; lia]|].
  { do 2 (eapply wr_ok_mono; [eassumption|]). done. }
  intros first' s3 (Ev3&[St3 B3]&Wf3&Af3). rewrite B2 in B3.
  apply (IH (i + 1) s3 first' last x' (λ j, if decide (j = i) then e else v j)); try done; try lia.
  - eapply evolves_ext; [exact Ev3|]. intros b Hb. unfold upd, filled.
    repeat case_decide; try lia; try done.
  - intros j Hj. rewrite B3. case_decide as E; [by subst|].
    eapply HR; [apply St1|]. apply Hv. lia.
  - by rewrite B3.
Qed.

(** [std::fill]. *)
Lemma std_fill_ok ρ s a len first last e :
  shadow_inv ρ s → 0 ≤ a → 0 ≤ len → a + len < 2 ^ 64 →
  address_ first = a → address_ last = a + len → wr_ok s first →
  is_byte_value ρ (rt_backend s) e →
  wp (std_fill (Z.to_nat len) first last e) s (λ _ s',
    evolves ρ s s' (filled (shadow_at s) a len (λ _, e))).
Proof.
  intros Inv Ha Hl Hlen Af Al Wf He. eapply wp_impl.
  - apply (std_generate_ok ρ s (λ b _ _, is_byte_value ρ b e) (λ _ _ e', e' = e) _ a len)
      with (i := 0) (v := λ _, e); try done; try lia.
    + intros i s1 x sh Ev1 Hi He1. apply wp_ret. split_and!; try done; reflexivity.
    + eapply evolves_ext; [by apply evolves_refl|]. intros b Hb. unfold filled.
      by rewrite decide_False by lia.
  - intros [] s' (v'&Ev&Hv&_). eapply evolves_ext; [exact Ev|]. intros b Hb.
    unfold filled. case_decide; [|done]. apply Hv. lia.
Qed.
End spec.
