(* ===== verification/Memory.v ===== *)
(** * Memory operations of the run-time library

    Models the part of runtime/src/RuntimeCommon.cpp that moves symbolic
    expressions between registers, function arguments and shadow memory:
    [_sym_memcpy], [_sym_memset], [_sym_memmove], [_sym_read_memory],
    [_sym_write_memory], the parameter and return-value slots and the
    functions that make memory symbolic. *)

From S2P Require Import Prelude Smt Interface ByteSeq BitArrays Config State Shadow.

#[local] Open Scope Z_scope.

Section defs.
Context {B : Backend}.
#[local] Abbreviation M := (M rt).

(** ** Function arguments and return values *)
Definition _sym_set_return_expression (expr : SymExpr) : M unit :=
  modify (λ s, set_calls expr (g_function_arguments s) s).

Definition _sym_get_return_expression : M SymExpr :=
  s <- get ;;
  let result := g_return_value s in
  modify (set_calls None (g_function_arguments s)) ;;;
  ret result.

Definition _sym_set_parameter_expression (index : Z) (expr : SymExpr) : M unit :=
  modify (λ s, set_calls (g_return_value s)
                 (<[Z.to_nat (u8 index) := expr]> (g_function_arguments s)) s).

Definition _sym_get_parameter_expression (index : Z) : M SymExpr :=
  gets (λ s, default None (g_function_arguments s !! Z.to_nat (u8 index))).

(** ** Copying and filling *)

(** [isConcrete(src, length) && isConcrete(dest, length)]. *)
Definition both_concrete (src dest length : Z) : M bool :=
  c <- isConcrete src length ;;
  if c then isConcrete dest length else ret false.

Definition copy_forward (dest src length : Z) : M unit :=
  first <- ReadShadowIterator src ;;
  last <- ReadShadowIterator (u64 (src + length)) ;;
  result <- WriteShadowIterator dest ;;
  std_copy (Z.to_nat length) first last result.

Definition _sym_memcpy (dest src length : Z) : M unit :=
  c <- both_concrete src dest length ;;
  if c then ret tt else copy_forward dest src length.

Definition fill (addr length : Z) (value : SymExpr) : M unit :=
  first <- WriteShadowIterator addr ;;
  last <- WriteShadowIterator (u64 (addr + length)) ;;
  std_fill (Z.to_nat length) first last value.

Definition _sym_memset (memory : Z) (value : SymExpr) (length : Z) : M unit :=
  c <- (if bool_decide (value = None) then isConcrete memory length else ret false) ;;
  if c then ret tt else fill memory length value.

Definition _sym_memmove (dest src length : Z) : M unit :=
  c <- both_concrete src dest length ;;
  if c then ret tt
  else if src <? dest then
    first <- ReadShadowIterator src ;;
    last <- ReadShadowIterator (u64 (src + length)) ;;
    result <- WriteShadowIterator (u64 (dest + length)) ;;
    std_copy_backward (Z.to_nat length) first last result
  else copy_forward dest src length.

(** ** Reading and writing integers *)
Definition read_op (little_endian : bool) (result byteExpr : SymExpr) : M SymExpr :=
  match result with
  | None => ret byteExpr
  | Some _ => backend (if little_endian then _sym_concat_helper byteExpr result
                       else _sym_concat_helper result byteExpr)
  end.

Definition _sym_read_memory (addr length : Z) (little_endian : bool) : M SymExpr :=
  assert_ (negb (length =? 0)) "Invalid query for zero-length memory region" ;;;
  c <- isConcrete addr length ;;
  if c then ret None
  else
    first <- ReadShadowIterator addr ;;
    last <- ReadShadowIterator (u64 (addr + length)) ;;
    std_accumulate (Z.to_nat length) first last None (read_op little_endian).

(** The expression of byte [i] of an integer that is written to memory. *)
Definition write_byte (expr : SymExpr) (length : Z) (little_endian : bool) (i : Z)
    : M SymExpr :=
  backend (if little_endian
           then _sym_extract_helper expr (u64 (8 * (i + 1) - 1)) (u64 (8 * i))
           else _sym_extract_helper expr (u64 ((length - i) * 8 - 1))
                                         (u64 ((length - i - 1) * 8))).

Definition _sym_write_memory (addr length : Z) (expr : SymExpr) (little_endian : bool)
    : M unit :=
  assert_ (negb (length =? 0)) "Invalid query for zero-length memory region" ;;;
  c <- (if bool_decide (expr = None) then isConcrete addr length else ret false) ;;
  if c then ret tt
  else match expr with
       | None => fill addr length None
       | Some _ =>
           first <- WriteShadowIterator addr ;;
           last <- WriteShadowIterator (u64 (addr + length)) ;;
           std_generate (Z.to_nat length) first last
             (λ i, e <- write_byte expr length little_endian i ;; ret (e, u64 (i + 1))) 0
       end.

(** ** Symbolic input in memory *)

(** [std::generate] with the lambda of the [_sym_make_symbolic*] functions:
    [input_offset] is a [size_t], [i] an [int]. *)
Definition make_symbolic (get_byte : Z → Z → M SymExpr) (data byte_length input_offset : Z)
    : M unit :=
  first <- WriteShadowIterator data ;;
  last <- WriteShadowIterator (u64 (data + byte_length)) ;;
  std_generate (Z.to_nat byte_length) first last
    (λ '(offset, i),
       s <- get ;;
       e <- get_byte offset (memory s (u64 (data + i))) ;;
       (if i =? 2 ^ 31 - 1 then fail (Undefined "signed integer overflow")
        else ret (e, (u64 (offset + 1), i + 1))))
    (input_offset, 0).

Definition _sym_make_symbolic (data byte_length input_offset : Z) : M unit :=
  make_symbolic (λ o v, backend (_sym_get_input_byte o v)) data byte_length input_offset.

Definition _sym_make_symbolic_with_type (data byte_length input_offset : Z)
    (prefix type_name : string) : M unit :=
  make_symbolic (λ o v, backend (_sym_get_input_byte o v)) data byte_length input_offset ;;;
  if bool_decide (type_name = "int") then _ <- backend (_sym_get_integer prefix) ;; ret tt
  else ret tt.

Definition _sym_make_symbolic_with_prefix (data byte_length input_offset : Z)
    (prefix : string) : M unit :=
  make_symbolic (λ o v, backend (_sym_get_input_byte_with_prefix prefix o v))
    data byte_length input_offset.

Definition require_memory_input : M unit :=
  s <- get ;;
  match input (g_config s) with
  | MemoryInput => ret tt
  | _ => fail (Throw "Calls to symcc_make_symbolic aren't allowed when SYMCC_MEMORY_INPUT isn't set")
  end.

Definition symcc_make_symbolic (start byte_length : Z) : M unit :=
  require_memory_input ;;;
  o <- gets memoryInputOffset ;;
  _sym_make_symbolic start byte_length o ;;;
  modify (λ s, set_offsets (u64 (o + byte_length)) (memoryInputOffset_type s)
                 (memoryInputOffset_prefix s) s).

Definition symcc_make_symbolic_with_type (start byte_length : Z) (prefix type_name : string)
    : M unit :=
  require_memory_input ;;;
  o <- gets memoryInputOffset_type ;;
  _sym_make_symbolic_with_type start byte_length o prefix type_name ;;;
  modify (λ s, set_offsets (memoryInputOffset s) (u64 (o + byte_length))
                 (memoryInputOffset_prefix s) s).

Definition symcc_make_symbolic_with_prefix (start byte_length : Z) (prefix : string) : M unit :=
  require_memory_input ;;;
  o <- gets memoryInputOffset_prefix ;;
  _sym_make_symbolic_with_prefix start byte_length o prefix ;;;
  modify (λ s, set_offsets (memoryInputOffset s) (memoryInputOffset_type s)
                 (u64 (o + byte_length)) s).

(** [expressionRegions.push_back({start, length})]. *)
Definition _sym_register_expression_region (start length : Z) : M unit :=
  modify (λ s, set_regions (expressionRegions s ++ [(start, length)]) s).

End defs.

(** ** What the operations do to the shadow *)
Section spec.
Context {B : Backend} {BS : BackendSpec B}.
Implicit Types (s : rt) (ρ : env) (a len : Z).

(** A region of the address space. *)
Definition region a len : Prop := 0 ≤ a ∧ 0 ≤ len ∧ a + len < 2 ^ 64.

(** All bytes of a region have no shadow. *)
Definition concrete s a len : Prop := ∀ j, 0 ≤ j < len → shadow_at s (a + j) = None.

#[export] Instance concrete_dec s a len : Decision (concrete s a len).
Proof.
  refine (cast_if (decide (Forall (λ j, shadow_at s (a + j) = None) (seqZ 0 len)))).
  - abstract (intros j Hj; rewrite Forall_forall in f; apply f; by apply elem_of_seqZ).
  - abstract (intros H; destruct n; apply Forall_forall; intros j Hj%elem_of_seqZ; by apply H).
Defined.

Lemma isConcrete_wp ρ s a len :
  shadow_inv ρ s → region a len →
  wp (isConcrete a len) s (λ b s', evolves ρ s s' (shadow_at s) ∧ (b = true ↔ concrete s a len)).
Proof.
  intros Inv (?&?&?). eapply wp_impl; [by apply isConcrete_ok|]. intros b s' (?&_&?). done.
Qed.

Lemma evolves_concrete ρ s0 s a len :
  evolves ρ s0 s (shadow_at s0) → region a len → concrete s a len ↔ concrete s0 a len.
Proof.
  intros (_&_&H) (?&?&?). unfold concrete. split; intros Hc j Hj;
    [rewrite <-H by (unfold valid; lia)|rewrite H by (unfold valid; lia)]; auto.
Qed.

Lemma both_concrete_wp ρ s src dest len :
  shadow_inv ρ s → region src len → region dest len →
  wp (both_concrete src dest len) s (λ b s', evolves ρ s s' (shadow_at s) ∧
    (b = true ↔ concrete s src len ∧ concrete s dest len)).
Proof.
  intros Inv Rs Rd. eapply wp_seq; [by apply isConcrete_wp|]. intros c s1 (Ev1&Hc).
  destruct c; [|apply wp_ret; split; [done|]; split; [done|intros [? _]; by apply Hc]].
  eapply wp_impl; [apply (isConcrete_wp ρ); [by eapply evolves_inv|done]|].
  intros b s2 (Ev2&Hb). split.
  - eapply evolves_ext; [by eapply evolves_trans|]. by apply Ev1.
  - rewrite Hb, (evolves_concrete ρ s s1) by done. split; [by split; [apply Hc|]|tauto].
Qed.

(** Copying between concrete regions changes nothing. *)
Lemma copied_concrete s src dest len a :
  concrete s src len → concrete s dest len → copied (shadow_at s) dest src len a = shadow_at s a.
Proof.
  intros Hs Hd. unfold copied. case_decide as E; [|done].
  rewrite (Hs (a - dest)) by lia. by rewrite <-(Hd (a - dest)), Zplus_minus by lia.
Qed.

Lemma copied_ext sh sh' dest src len a :
  (∀ b, valid b → sh b = sh' b) → region src len → valid a →
  copied sh dest src len a = copied sh' dest src len a.
Proof.
  intros H (?&?&?) ?. unfold copied. case_decide; apply H; [unfold valid; lia|done].
Qed.

Section copy.
Context (ρ : env) (s : rt) (dest src len : Z).
Context (Inv : shadow_inv ρ s) (Rs : region src len) (Rd : region dest len).

#[local] Abbreviation copies m := (wp m s (λ _ s', evolves ρ s s' (copied (shadow_at s) dest src len))).

(** After the check for concreteness, which leaves the shadow alone. *)
Lemma after_check (m : M rt unit) :
  (∀ s1, shadow_inv ρ s1 → wp m s1 (λ _ s', evolves ρ s1 s' (copied (shadow_at s1) dest src len))) →
  copies (c <- both_concrete src dest len ;; if c then ret tt else m).
Proof.
  intros Hm. eapply wp_seq; [by apply both_concrete_wp|]. intros c s1 (Ev1&Hc). destruct c.
  - apply wp_ret. eapply evolves_ext; [exact Ev1|]. intros a _.
    destruct (proj1 Hc eq_refl). symmetry. by apply copied_concrete.
  - eapply wp_impl; [by eapply Hm, evolves_inv|]. intros [] s2 Ev2.
    eapply evolves_ext; [by eapply evolves_trans|]. intros a Ha.
    apply copied_ext; try done. apply Ev1.
Qed.

Lemma copy_forward_wp :
  (dest ≤ src ∨ src + len ≤ dest) → copies (copy_forward dest src len).
Proof.
  intros Hov. destruct Rs as (?&?&?), Rd as (?&?&?).
  assert (valid src ∧ valid (src + len) ∧ valid dest) as (?&?&?) by (unfold valid; lia).
  unfold copy_forward. rewrite u64_small by done.
  eapply wp_seq; [by apply (read_new s)|]. intros first ? (->&Rf&Af).
  eapply wp_seq; [by apply (read_new s)|]. intros last ? (->&Rl&Al).
  eapply wp_seq; [eapply write_new; [by apply evolves_refl|done]|].
  intros result s1 (Ev1&[St1 _]&Wr&Ar).
  apply (std_copy_loop ρ s src dest len) with (i := 0); try done; try lia.
  - by eapply rd_ok_mono.
  - eapply evolves_ext; [exact Ev1|]. intros a _. unfold copied. by rewrite decide_False by lia.
Qed.

Lemma copy_backward_wp :
  src ≤ dest →
  copies (first <- ReadShadowIterator src ;;
          last <- ReadShadowIterator (u64 (src + len)) ;;
          result <- WriteShadowIterator (u64 (dest + len)) ;;
          std_copy_backward (Z.to_nat len) first last result).
Proof.
  intros Hov. destruct Rs as (?&?&?), Rd as (?&?&?).
  assert (valid src ∧ valid (src + len) ∧ valid (dest + len)) as (?&?&?) by (unfold valid; lia).
  rewrite !u64_small by done.
  eapply wp_seq; [by apply (read_new s)|]. intros first ? (->&Rf&Af).
  eapply wp_seq; [by apply (read_new s)|]. intros last ? (->&Rl&Al).
  eapply wp_seq; [eapply write_new; [by apply evolves_refl|done]|].
  intros result s1 (Ev1&[St1 _]&Wr&Ar).
  apply (std_copy_backward_loop ρ s src dest len); try done; try lia.
  - by eapply rd_ok_mono.
  - eapply evolves_ext; [exact Ev1|]. intros a _. unfold copied. by rewrite decide_False by lia.
Qed.

End copy.

Lemma memcpy_wp ρ s dest src len :
  shadow_inv ρ s → region src len → region dest len → dest ≤ src ∨ src + len ≤ dest →
  wp (_sym_memcpy dest src len) s (λ _ s', evolves ρ s s' (copied (shadow_at s) dest src len)).
Proof. intros. apply after_check; try done. intros s1 ?. by apply copy_forward_wp. Qed.

Lemma memmove_wp ρ s dest src len :
  shadow_inv ρ s → region src len → region dest len →
  wp (_sym_memmove dest src len) s (λ _ s', evolves ρ s s' (copied (shadow_at s) dest src len)).
Proof.
  intros. apply after_check; try done. intros s1 ?. destruct (Z.ltb_spec src dest).
  - apply copy_backward_wp; try done. lia.
  - apply copy_forward_wp; try done. lia.
Qed.

(** *** Filling *)
Lemma fill_wp ρ s a len e :
  shadow_inv ρ s → region a len → is_byte_value ρ (rt_backend s) e →
  wp (fill a len e) s (λ _ s', evolves ρ s s' (filled (shadow_at s) a len (λ _, e))).
Proof.
  intros Inv (?&?&?) He.
  assert (valid a ∧ valid (a + len)) as [? ?] by (unfold valid; lia).
  unfold fill. rewrite u64_small by done.
  eapply wp_seq; [eapply write_new; [by apply evolves_refl|done]|].
  intros first s1 (Ev1&[St1 B1]&Wf&Af).
  eapply wp_seq; [eapply write_new; [exact Ev1|done]|].
  intros last s2 (Ev2&[St2 B2]&Wl&Al).
  eapply wp_impl.
  { apply (std_fill_ok ρ s2 a len); try done;
      [by eapply evolves_inv|by eapply wr_ok_mono|by rewrite B2, B1]. }
  intros [] s3 Ev3. eapply evolves_ext; [by eapply evolves_trans|].
  intros b Hb. unfold filled. case_decide; [done|]. by apply Ev2.
Qed.

Lemma memset_wp ρ s a len e :
  shadow_inv ρ s → region a len → is_byte_value ρ (rt_backend s) e →
  wp (_sym_memset a e len) s (λ _ s', evolves ρ s s' (filled (shadow_at s) a len (λ _, e))).
Proof.
  intros Inv R He. unfold _sym_memset. case_bool_decide as Hn; cbn.
  2:{ by apply fill_wp. }
  subst. eapply wp_seq; [by apply isConcrete_wp|]. intros c s1 (Ev1&Hc). destruct c.
  - apply wp_ret. eapply evolves_ext; [exact Ev1|]. intros b _. unfold filled.
    case_decide; [|done]. rewrite <-(Zplus_minus a b). apply Hc; [done|lia].
  - eapply wp_impl; [by eapply fill_wp; [eapply evolves_inv| |]|]. intros [] s2 Ev2.
    eapply evolves_ext; [by eapply evolves_trans|]. intros b Hb. unfold filled.
    case_decide; [done|]. by apply Ev1.
Qed.

(** *** Integers in memory *)

(** The bytes of a region as an integer, in the byte order of the access. *)
Definition mem_value (le : bool) (xs : list Z) : value :=
  bytes_value (if le then rev xs else xs).

(** The byte at [a], as the library represents it, has value [x]. *)
Definition byte_at ρ s a x : Prop :=
  match shadow_at s a with
  | Some h => rep ρ (rt_backend s) h (VBV 8 x)
  | None => x = memory s a
  end.

Lemma byte_at_range ρ s a x : shadow_inv ρ s → byte_at ρ s a x → is_byte x.
Proof.
  intros (_&_&Hm&_) H. unfold byte_at in H. destruct (shadow_at s a); [|subst; apply Hm].
  by apply rep_wf in H as [_ ?].
Qed.

Lemma byte_at_evolves ρ s s' sh a x :
  evolves ρ s s' sh → valid a → sh a = shadow_at s a → byte_at ρ s a x → byte_at ρ s' a x.
Proof.
  intros (St&_&Hsh) Ha E. unfold byte_at. rewrite Hsh, E by done.
  rewrite (rt_step_memory _ _ St). destruct (shadow_at s a); [|done].
  intros. eapply rep_mono; [apply St|done].
Qed.

Lemma byte_at_fun ρ s a x y : byte_at ρ s a x → byte_at ρ s a y → x = y.
Proof.
  unfold byte_at. destruct (shadow_at s a); [|congruence].
  intros H1 H2. by pose proof (rep_fun _ _ _ _ _ H1 H2) as [= ?].
Qed.

Definition bytes_at ρ s a (xs : list Z) : Prop :=
  ∀ j x, xs !! j = Some x → byte_at ρ s (a + Z.of_nat j) x.

Lemma bytes_at_bytes ρ s a xs : shadow_inv ρ s → bytes_at ρ s a xs → Forall is_byte xs.
Proof.
  intros Inv H. apply Forall_lookup. intros j x Hj. eapply byte_at_range; [exact Inv|by apply H].
Qed.

(** The accumulator of [_sym_read_memory] after [j] bytes. *)
Definition read_acc ρ le xs s (j : Z) (acc : SymExpr) : Prop :=
  0 ≤ j ∧ match acc with
  | None => j = 0
  | Some h => 0 < j ∧ rep ρ (rt_backend s) h (mem_value le (take (Z.to_nat j) xs))
  end.

Lemma read_op_wp ρ le xs s0 s1 a j acc h x :
  evolves ρ s0 s1 (shadow_at s0) → bytes_at ρ s0 a xs → 0 ≤ j < Z.of_nat (length xs) →
  read_acc ρ le xs s1 j acc → valid (a + j) → rep ρ (rt_backend s1) h (VBV 8 x) →
  (shadow_at s0 (a + j) = Some h ∨ shadow_at s0 (a + j) = None ∧ x = memory s0 (a + j)) →
  wp (read_op le acc (Some h)) s1 (λ acc' s2, evolves ρ s0 s2 (shadow_at s0) ∧
    rt_step s1 s2 ∧ read_acc ρ le xs s2 (j + 1) acc').
Proof.
  intros Ev Hxs Hj [_ Hacc] Hv Hh Hcase.
  destruct (lookup_lt_is_Some_2 xs (Z.to_nat j)) as [y Hy]; [lia|].
  assert (x = y) as <-.
  { specialize (Hxs _ _ Hy). rewrite Z2Nat.id in Hxs by lia.
    pose proof (byte_at_evolves _ _ _ _ _ _ Ev Hv eq_refl Hxs) as Hy'.
    eapply byte_at_fun; [|exact Hy']. unfold byte_at. destruct Ev as (St&_&->); [|done].
    rewrite (rt_step_memory _ _ St). by destruct Hcase as [->|[-> ->]]. }
  rewrite <-(bytes_value_byte x) in Hh.
  assert (take (Z.to_nat (j + 1)) xs = take (Z.to_nat j) xs ++ [x]) as Etake.
  { replace (Z.to_nat (j + 1)) with (S (Z.to_nat j)) by lia. by apply take_S_r. }
  destruct acc as [r|]; cbn.
  - destruct Hacc as [Hj0 Hr]. eapply wp_backend; [exact Ev| |].
    { instantiate (1 := λ e b, ∃ r', e = Some r' ∧
        rep ρ b r' (mem_value le (take (Z.to_nat j) xs ++ [x]))).
      unfold mem_value in *. rewrite rev_app_distr.
      destruct le; (eapply concat_bytes; [apply Ev|done|done]). }
    intros e s2 Ev2 St2 _ (r'&->&Hr'). split; [done|]. split; [done|].
    split; [lia|]. split; [lia|]. by rewrite Etake.
  - apply wp_ret. split; [done|]. split; [reflexivity|]. split; [lia|]. split; [lia|].
    rewrite Etake, Hacc. unfold mem_value. by destruct le.
Qed.

Lemma read_memory_wp ρ s a xs le :
  shadow_inv ρ s → region a (Z.of_nat (length xs)) → xs ≠ [] → bytes_at ρ s a xs →
  wp (_sym_read_memory a (Z.of_nat (length xs)) le) s (λ e s',
    evolves ρ s s' (shadow_at s) ∧
    match e with
    | None => concrete s a (Z.of_nat (length xs))
    | Some h => ¬ concrete s a (Z.of_nat (length xs)) ∧
                rep ρ (rt_backend s') h (mem_value le xs)
    end).
Proof.
  intros Inv R Hne Hxs. set (len := Z.of_nat (length xs)) in *. pose proof R as (?&?&?).
  assert (0 < len) by (destruct xs; [done|cbn in len; lia]).
  unfold _sym_read_memory. apply wp_bind, wp_assert; [lia|].
  eapply wp_seq; [by apply isConcrete_wp|]. intros c s1 (Ev1&Hc). destruct c.
  { apply wp_ret. split; [done|]. by apply Hc. }
  assert (valid a ∧ valid (a + len)) as [? ?] by (unfold valid; lia).
  rewrite u64_small by done. pose proof Ev1 as ([_ [Mo _]]&_).
  eapply wp_seq; [by apply (read_new s)|]. intros first ? (->&Rf&Af).
  eapply wp_seq; [by apply (read_new s)|]. intros last ? (->&Rl&Al).
  eapply wp_impl.
  { apply (std_accumulate_ok ρ s (read_acc ρ le xs) (read_op le) a len) with (i := 0);
      try done; try lia.
    - intros j s2 acc h x Ev2 Hj Hacc Hh Hcase.
      eapply read_op_wp; try done. unfold valid; lia.
    - intros j s2 s3 acc St [? Hacc]. split; [done|]. destruct acc; [|done].
      destruct Hacc. split; [done|]. eapply rep_mono; [apply St|done]. }
  intros acc s2 (Ev2&_&Hacc). split; [done|]. destruct acc as [h|]; [|lia].
  destruct Hacc as [_ Hr]. split; [by intros H'%Hc|].
  subst len. rewrite Nat2Z.id, take_ge in Hr by done. done.
Qed.

(** Writing: the region gets one expression per byte of the value. *)
Lemma write_byte_wp ρ s0 s h xs i le sh :
  evolves ρ s0 s sh → Forall is_byte xs → rep ρ (rt_backend s) h (mem_value le xs) →
  nbits xs < 2 ^ 32 → 0 ≤ i < Z.of_nat (length xs) →
  wp (write_byte (Some h) (Z.of_nat (length xs)) le i) s (λ e s',
    evolves ρ s0 s' sh ∧ rt_step s s' ∧ g_shadow_pages s' = g_shadow_pages s ∧
    ∃ x h', xs !! Z.to_nat i = Some x ∧ e = Some h' ∧ rep ρ (rt_backend s') h' (VBV 8 x)).
Proof.
  intros Ev Hb Hh Hn Hi.
  destruct (lookup_lt_is_Some_2 xs (Z.to_nat i)) as [x Hx]; [lia|].
  eapply wp_backend; [exact Ev| |].
  { instantiate (1 := λ e b, ∃ h', e = Some h' ∧ rep ρ b h' (bytes_value [x])).
    unfold mem_value in Hh. unfold nbits in Hn. destruct le.
    - pose proof (extract_byte ρ (rt_backend s) h (rev xs)
        (length xs - 1 - Z.to_nat i) x) as H.
      unfold nbits in H. rewrite length_rev in H.
      replace (8 * (i + 1) - 1) with
        (8 * Z.of_nat (length xs) - Z.of_nat (length xs - 1 - Z.to_nat i) * 8 - 1) by lia.
      replace (8 * i) with
        (8 * Z.of_nat (length xs) - (Z.of_nat (length xs - 1 - Z.to_nat i) + 1) * 8) by lia.
      apply H; try done; [apply Ev|by apply Forall_rev|].
      rewrite rev_alt. fold (reverse xs). rewrite reverse_lookup by lia.
      rewrite <-Hx. f_equal. lia.
    - pose proof (extract_byte ρ (rt_backend s) h xs (Z.to_nat i) x) as H. unfold nbits in H.
      replace ((Z.of_nat (length xs) - i) * 8 - 1) with
        (8 * Z.of_nat (length xs) - Z.of_nat (Z.to_nat i) * 8 - 1) by lia.
      replace ((Z.of_nat (length xs) - i - 1) * 8) with
        (8 * Z.of_nat (length xs) - (Z.of_nat (Z.to_nat i) + 1) * 8) by lia.
      apply H; try done. apply Ev. }
  intros e s' Ev' St Pg (h'&->&Hh'). rewrite bytes_value_byte in Hh'. eauto 10.
Qed.

(** The expressions of the bytes [xs]. *)
Definition byte_exprs ρ (b : bstate) (xs : list Z) (j : Z) (e : SymExpr) : Prop :=
  ∃ x h, xs !! Z.to_nat j = Some x ∧ e = Some h ∧ rep ρ b h (VBV 8 x).

Lemma write_memory_wp ρ s a xs le h :
  shadow_inv ρ s → region a (Z.of_nat (length xs)) → xs ≠ [] →
  Forall is_byte xs → nbits xs < 2 ^ 32 → rep ρ (rt_backend s) h (mem_value le xs) →
  wp (_sym_write_memory a (Z.of_nat (length xs)) (Some h) le) s (λ _ s', ∃ v,
    evolves ρ s s' (filled (shadow_at s) a (Z.of_nat (length xs)) v) ∧
    ∀ j, 0 ≤ j < Z.of_nat (length xs) → byte_exprs ρ (rt_backend s') xs j (v j)).
Proof.
  intros Inv (?&?&?) Hne Hb Hn Hh. set (len := Z.of_nat (length xs)) in *.
  assert (0 < len) by (destruct xs; [done|cbn in len; lia]).
  assert (valid a ∧ valid (a + len)) as [? ?] by (unfold valid; lia).
  unfold _sym_write_memory. apply wp_bind, wp_assert; [lia|].
  rewrite bool_decide_eq_false_2 by done. cbn. rewrite u64_small by done.
  eapply wp_seq with (P := λ c s', c = false ∧ s' = s); [by apply wp_ret|].
  intros ? ? [-> ->].
  eapply wp_seq; [eapply write_new; [by apply evolves_refl|done]|].
  intros first s1 (Ev1&[St1 B1]&Wf&Af).
  eapply wp_seq; [eapply write_new; [exact Ev1|done]|].
  intros last s2 (Ev2&[St2 B2]&Wl&Al).
  eapply wp_impl; [apply (std_generate_ok ρ s (λ b i x, x = i ∧ rep ρ b h (mem_value le xs))
    (λ b, byte_exprs ρ b xs) _ a len) with (i := 0) (v := λ _, None); try done; try lia
    |intros [] s' (v&?&?&_); by exists v].
  - intros i s3 ? sh Ev3 Hi [-> Hh3].
    eapply wp_seq; [by eapply write_byte_wp|].
    intros e s4 (Ev4&St4&Pg4&x&h'&Hx&->&Hh'). apply wp_ret.
    split_and!; try done.
    + by exists x.
    + by exists x, h'.
    + cbn. apply u64_small. lia.
    + eapply rep_mono; [apply St4|done].
  - intros b b' i e X (x&h'&?&?&?). exists x, h'. split_and!; try done. by eapply rep_mono.
  - by eapply wr_ok_mono.
  - eapply evolves_ext; [exact Ev2|]. intros b _. unfold filled. by rewrite decide_False by lia.
  - split; [done|]. by rewrite B2, B1.
Qed.

(** What is in memory after a write. *)
Section written.
Context (ρ : env) (s s' : rt) (a : Z) (xs : list Z) (v : Z → SymExpr).
Context (R : region a (Z.of_nat (length xs))).
Context (Ev : evolves ρ s s' (filled (shadow_at s) a (Z.of_nat (length xs)) v)).
Context (Hv : ∀ j, 0 ≤ j < Z.of_nat (length xs) → byte_exprs ρ (rt_backend s') xs j (v j)).

Lemma written_at j : 0 ≤ j < Z.of_nat (length xs) → shadow_at s' (a + j) = v j.
Proof.
  intros Hj. destruct R as (?&?&?), Ev as (_&_&->); [|unfold valid; lia].
  unfold filled. rewrite decide_True by lia. f_equal. lia.
Qed.

Lemma written_bytes_at : bytes_at ρ s' a xs.
Proof.
  intros j x Hj. pose proof (lookup_lt_Some _ _ _ Hj).
  destruct (Hv (Z.of_nat j)) as (y&h&Hy&E&Hh); [lia|]. unfold byte_at.
  rewrite written_at, E by lia. rewrite Nat2Z.id in Hy. by simplify_eq.
Qed.

Lemma written_not_concrete : xs ≠ [] → ¬ concrete s' a (Z.of_nat (length xs)).
Proof.
  intros Hne Hc. assert (0 < Z.of_nat (length xs)) by (destruct xs; [done|cbn; lia]).
  destruct (Hv 0) as (?&?&?&E&_); [lia|].
  specialize (Hc 0 ltac:(lia)). rewrite written_at in Hc by lia. congruence.
Qed.
End written.

(** Writing null makes the region concrete. *)
Lemma write_memory_null_wp ρ s a len le :
  shadow_inv ρ s → region a len → 0 < len →
  wp (_sym_write_memory a len None le) s (λ _ s',
    evolves ρ s s' (filled (shadow_at s) a len (λ _, None))).
Proof.
  intros Inv R Hl. unfold _sym_write_memory. apply wp_bind, wp_assert; [lia|].
  exact (memset_wp ρ s a len None Inv R I).
Qed.

(** *** Symbolic input *)
Section input.
Context {IS : InputSpec B BS}.

(** Byte [o] of the input. *)
Definition input_expr ρ (b : bstate) (o : Z) (e : SymExpr) : Prop :=
  ∃ h, e = Some h ∧ rep ρ b h (VBV 8 (wrap 8 (ρ (input_name (Z.to_nat o))))).

Lemma make_symbolic_wp ρ s a len o n :
  shadow_inv ρ s → region a len → len < 2 ^ 31 → inputs_read (rt_backend s) n →
  0 ≤ o ≤ n → o + len < 2 ^ 64 →
  wp (_sym_make_symbolic a len o) s (λ _ s', ∃ v,
    evolves ρ s s' (filled (shadow_at s) a len v) ∧
    (∀ j, 0 ≤ j < len → input_expr ρ (rt_backend s') (o + j) (v j)) ∧
    inputs_read (rt_backend s') (Z.max n (o + len))).
Proof.
  intros Inv (?&?&?) Hi Hn Ho Hol.
  assert (valid a ∧ valid (a + len)) as [? ?] by (unfold valid; lia).
  unfold _sym_make_symbolic, make_symbolic. rewrite u64_small by done.
  eapply wp_seq; [eapply write_new; [by apply evolves_refl|done]|].
  intros first s1 (Ev1&[St1 B1]&Wf&Af).
  eapply wp_seq; [eapply write_new; [exact Ev1|done]|].
  intros last s2 (Ev2&[St2 B2]&Wl&Al).
  eapply wp_impl.
  { apply (std_generate_ok ρ s (λ b i x, x = (o + i, i) ∧ inputs_read b (Z.max n (o + i)))
      (λ b i, input_expr ρ b (o + i)) _ a len) with (i := 0) (v := λ _, None); try done; try lia.
    - intros i s3 ? sh Ev3 Hi3 [-> Hin]. apply wp_bind, wp_get, wp_bind.
      eapply wp_backend; [exact Ev3|apply (get_input_byte_spec ρ); [apply Ev3|exact Hin|lia]|].
      intros e s4 Ev4 St4 Pg4 ((h&->&Hh)&Hin4).
      replace (i =? 2 ^ 31 - 1) with false by lia. apply wp_ret. split_and!; try done.
      + cbn. by eexists.
      + by exists h.
      + cbn. rewrite u64_small by lia. f_equal; lia.
      + by replace (Z.max n (o + (i + 1))) with (Z.max (Z.max n (o + i)) (o + i + 1)) by lia.
    - intros b b' i e X (h&?&?). exists h. split; [done|]. by eapply rep_mono.
    - by eapply wr_ok_mono.
    - eapply evolves_ext; [exact Ev2|]. intros b _. unfold filled. by rewrite decide_False by lia.
    - split; [f_equal; lia|]. rewrite B2, B1. by rewrite Z.max_l by lia. }
  intros [] s' (v&Ev&Hv&x&_&Hin). by exists v.
Qed.
End input.

(** *** Agreement of the shadow with the program's memory *)

(** Under the input [ρ] every shadow expression has the value of the byte it
    shadows. *)
Definition consistent ρ s : Prop :=
  shadow_inv ρ s ∧ ∀ a, valid a → byte_at ρ s a (memory s a).

(** The program has written [xs] at [a]; the library sees the new memory. *)
Definition store (mem : Z → Z) (a : Z) (xs : list Z) : Z → Z :=
  λ b, default (mem b) (if a <=? b then xs !! Z.to_nat (b - a) else None).

Lemma shadow_inv_memory ρ s mem :
  shadow_inv ρ s → (∀ a, is_byte (mem a)) → shadow_inv ρ (set_memory mem s).
Proof. intros (?&?&?&?) ?. by split_and!. Qed.

Lemma consistent_intro ρ s s' sh mem :
  evolves ρ s s' sh → (∀ a, is_byte (mem a)) →
  (∀ a h, valid a → sh a = Some h → rep ρ (rt_backend s') h (VBV 8 (mem a))) →
  consistent ρ (set_memory mem s').
Proof.
  intros Ev Hm Hsh. split; [by eapply shadow_inv_memory, Hm; eapply evolves_inv|].
  intros a Ha. unfold byte_at. change (shadow_at (set_memory mem s') a) with (shadow_at s' a).
  destruct Ev as (_&_&E). rewrite E by done. destruct (sh a) eqn:Ea; [|done]. by apply Hsh.
Qed.

Lemma consistent_expr ρ s a h :
  consistent ρ s → valid a → shadow_at s a = Some h → rep ρ (rt_backend s) h (VBV 8 (memory s a)).
Proof. intros [_ H] Ha E. specialize (H a Ha). unfold byte_at in H. by rewrite E in H. Qed.

Lemma consistent_byte ρ s a : consistent ρ s → is_byte (memory s a).
Proof. intros [(_&_&H&_) _]. apply H. Qed.

Lemma set_memory_id s : set_memory (memory s) s = s.
Proof. by destruct s. Qed.

(** The memory after the program's own [memcpy] or [memmove]. *)
Definition copy_bytes (mem : Z → Z) (dest src len : Z) : Z → Z :=
  λ b, if decide (dest ≤ b < dest + len) then mem (src + (b - dest)) else mem b.

Definition set_bytes (mem : Z → Z) (a len c : Z) : Z → Z :=
  λ b, if decide (a ≤ b < a + len) then c else mem b.

Lemma copied_consistent ρ s s' dest src len :
  consistent ρ s → region src len → evolves ρ s s' (copied (shadow_at s) dest src len) →
  consistent ρ (set_memory (copy_bytes (memory s) dest src len) s').
Proof.
  intros C (?&?&?) Ev. eapply consistent_intro; [exact Ev|..].
  - intros a. unfold copy_bytes. case_decide; by eapply consistent_byte.
  - intros a h Ha E. unfold copied in E. unfold copy_bytes.
    eapply rep_mono; [apply Ev|]. case_decide; apply consistent_expr; try done; unfold valid; lia.
Qed.

Lemma filled_consistent ρ s s' a len c e :
  consistent ρ s → is_byte c → (∀ h, e = Some h → rep ρ (rt_backend s) h (VBV 8 c)) →
  evolves ρ s s' (filled (shadow_at s) a len (λ _, e)) →
  consistent ρ (set_memory (set_bytes (memory s) a len c) s').
Proof.
  intros C Hc He Ev. eapply consistent_intro; [exact Ev|..].
  - intros b. unfold set_bytes. case_decide; [done|]. by eapply consistent_byte.
  - intros b h Hb E. unfold filled in E. unfold set_bytes.
    eapply rep_mono; [apply Ev|]. case_decide; [by apply He|by apply consistent_expr].
Qed.

Lemma store_in mem a xs j :
  0 ≤ j < Z.of_nat (length xs) → Some (store mem a xs (a + j)) = xs !! Z.to_nat j.
Proof.
  intros Hj. unfold store. replace (a <=? a + j) with true by lia.
  replace (a + j - a) with j by lia.
  destruct (lookup_lt_is_Some_2 xs (Z.to_nat j)) as [x ->]; [lia|done].
Qed.

Lemma store_out mem a xs b :
  ¬ (a ≤ b < a + Z.of_nat (length xs)) → store mem a xs b = mem b.
Proof.
  intros Hb. unfold store. destruct (Z.leb_spec a b); [|done].
  by rewrite lookup_ge_None_2 by lia.
Qed.

Lemma store_byte mem a xs b :
  (∀ a, is_byte (mem a)) → Forall is_byte xs → is_byte (store mem a xs b).
Proof.
  intros Hm Hx. destruct (decide (a ≤ b < a + Z.of_nat (length xs))) as [Hb|Hb].
  - pose proof (store_in mem a xs (b - a)) as E. rewrite Zplus_minus in E.
    rewrite Forall_lookup in Hx. eapply Hx. symmetry. apply E. lia.
  - rewrite store_out by done. apply Hm.
Qed.

Lemma stored_consistent ρ s s' a xs v :
  consistent ρ s → Forall is_byte xs →
  evolves ρ s s' (filled (shadow_at s) a (Z.of_nat (length xs)) v) →
  (∀ j h, 0 ≤ j < Z.of_nat (length xs) → v j = Some h →
    ∃ x, xs !! Z.to_nat j = Some x ∧ rep ρ (rt_backend s') h (VBV 8 x)) →
  consistent ρ (set_memory (store (memory s) a xs) s').
Proof.
  intros C Hx Ev Hv. eapply consistent_intro; [exact Ev|..].
  - intros b. apply store_byte; [|done]. intros ?. by eapply consistent_byte.
  - intros b h Hb E. unfold filled in E. case_decide as Hr.
    + destruct (Hv (b - a) h) as (x&Hx'&Hh); [lia|done|].
      pose proof (store_in (memory s) a xs (b - a)) as Es. rewrite Zplus_minus in Es.
      rewrite Hx' in Es. assert (0 ≤ b - a < Z.of_nat (length xs)) as Hr' by lia.
      by injection (Es Hr') as ->.
    + rewrite store_out by lia. eapply rep_mono; [apply Ev|]. by apply consistent_expr.
Qed.

(** ** The program's memory operations with their instrumentation

    Each constructor is one operation of the program under test and the call
    of the library that goes with it. *)
Inductive mem_step {IS : InputSpec B BS} ρ : rt → rt → Prop :=
| step_memcpy s dest src len s' :
    region src len → region dest len → dest + len ≤ src ∨ src + len ≤ dest →
    _sym_memcpy dest src len s = Ok tt s' →
    mem_step ρ s (set_memory (copy_bytes (memory s) dest src len) s')
| step_memmove s dest src len s' :
    region src len → region dest len →
    _sym_memmove dest src len s = Ok tt s' →
    mem_step ρ s (set_memory (copy_bytes (memory s) dest src len) s')
| step_memset s a len c e s' :
    region a len → is_byte c → (∀ h, e = Some h → rep ρ (rt_backend s) h (VBV 8 c)) →
    _sym_memset a e len s = Ok tt s' →
    mem_step ρ s (set_memory (set_bytes (memory s) a len c) s')
| step_store s a xs le e s' :
    region a (Z.of_nat (length xs)) → xs ≠ [] → Forall is_byte xs → nbits xs < 2 ^ 32 →
    (∀ h, e = Some h → rep ρ (rt_backend s) h (mem_value le xs)) →
    _sym_write_memory a (Z.of_nat (length xs)) e le s = Ok tt s' →
    mem_step ρ s (set_memory (store (memory s) a xs) s')
| step_load s a len le e s' :
    region a len → 0 < len → _sym_read_memory a len le s = Ok e s' → mem_step ρ s s'
| step_input s a xs o n s' :
    region a (Z.of_nat (length xs)) → Z.of_nat (length xs) < 2 ^ 31 →
    inputs_read (rt_backend s) n → 0 ≤ o ≤ n → o + Z.of_nat (length xs) < 2 ^ 64 →
    (∀ j x, xs !! j = Some x → x = wrap 8 (ρ (input_name (Z.to_nat o + j)))) →
    _sym_make_symbolic a (Z.of_nat (length xs)) o s = Ok tt s' →
    mem_step ρ s (set_memory (store (memory s) a xs) s')
(** Calls of the backend between the memory operations: any that keep its
    invariant and the meaning of earlier expressions. *)
| step_backend s b :
    binv b → bext (rt_backend s) b → mem_step ρ s (set_backend b s).

Lemma backend_evolves ρ s b :
  shadow_inv ρ s → binv b → bext (rt_backend s) b →
  evolves ρ s (set_backend b s) (shadow_at s).
Proof.
  intros Inv I X. destruct (wp_backend ρ s s (shadow_at s) (λ _, Ok tt b) (λ _ c, c = b)
    (λ _ s', s' = set_backend b s ∧ evolves ρ s s' (shadow_at s))) as (?&?&_&->&?).
  - by apply evolves_refl.
  - by exists tt, b.
  - intros r s' Ev (_&_&E) Pg Eb. split; [|done]. by rewrite E, Pg, Eb; destruct s.
  - done.
Qed.

(** The concrete bytes of a region. *)
Definition mem_bytes s a len : list Z := (λ j, memory s (a + j)) <$> seqZ 0 len.

Lemma mem_bytes_length s a len : 0 ≤ len → Z.of_nat (length (mem_bytes s a len)) = len.
Proof. intros. unfold mem_bytes. rewrite length_fmap, length_seqZ. lia. Qed.

Lemma mem_bytes_at ρ s a len : consistent ρ s → region a len → bytes_at ρ s a (mem_bytes s a len).
Proof.
  intros [_ C] (?&?&?) j x Hj. unfold mem_bytes in Hj.
  apply list_lookup_fmap_Some in Hj as (k&->&(->&?)%lookup_seqZ).
  apply C. unfold valid. lia.
Qed.

Lemma read_consistent ρ s a len le :
  consistent ρ s → region a len → 0 < len →
  wp (_sym_read_memory a len le) s (λ e s', consistent ρ s' ∧ memory s' = memory s ∧
    match e with
    | None => concrete s a len
    | Some h => ¬ concrete s a len ∧ rep ρ (rt_backend s') h (mem_value le (mem_bytes s a len))
    end).
Proof.
  intros C R Hl. pose proof R as (?&?&?).
  pose proof (mem_bytes_length s a len) as El.
  pose proof (read_memory_wp ρ s a (mem_bytes s a len) le (proj1 C)) as W.
  rewrite El in W by lia. eapply wp_impl; [apply W; [done| |by apply mem_bytes_at]|].
  { intros E. rewrite E in El. cbn in El. lia. }
  intros e s' [Ev He]. destruct Ev as (St&Inv&Hsh). split_and!; [|by eapply rt_step_memory|done].
  split; [done|]. intros b Hb. rewrite (rt_step_memory _ _ St).
  eapply byte_at_evolves; [by split_and!|done|done|]. by apply C.
Qed.

Section steps.
Context {IS : InputSpec B BS}.

Lemma write_memory_consistent ρ s a xs le e :
  consistent ρ s → region a (Z.of_nat (length xs)) → xs ≠ [] → Forall is_byte xs →
  nbits xs < 2 ^ 32 → (∀ h, e = Some h → rep ρ (rt_backend s) h (mem_value le xs)) →
  wp (_sym_write_memory a (Z.of_nat (length xs)) e le) s (λ _ s',
    consistent ρ (set_memory (store (memory s) a xs) s')).
Proof.
  intros C R Hne Hb Hn He. destruct e as [h|].
  - eapply wp_impl; [eapply (write_memory_wp ρ); try done; [apply C|by apply He]|].
    intros [] s' (v&Ev&Hv). eapply stored_consistent; try done.
    intros j h' Hj E. destruct (Hv j Hj) as (x&h''&?&E'&?). rewrite E in E'.
    injection E' as <-. eauto.
  - assert (0 < Z.of_nat (length xs)) by (destruct xs; [done|cbn; lia]).
    eapply wp_impl; [eapply (write_memory_null_wp ρ); try done; apply C|].
    intros [] s' Ev. by eapply stored_consistent.
Qed.

Lemma make_symbolic_consistent ρ s a xs o n :
  consistent ρ s → region a (Z.of_nat (length xs)) → Z.of_nat (length xs) < 2 ^ 31 →
  inputs_read (rt_backend s) n → 0 ≤ o ≤ n → o + Z.of_nat (length xs) < 2 ^ 64 →
  (∀ j x, xs !! j = Some x → x = wrap 8 (ρ (input_name (Z.to_nat o + j)))) →
  wp (_sym_make_symbolic a (Z.of_nat (length xs)) o) s (λ _ s',
    consistent ρ (set_memory (store (memory s) a xs) s') ∧
    inputs_read (rt_backend s') (Z.max n (o + Z.of_nat (length xs)))).
Proof.
  intros C R Hi Hn Ho Hol Hx.
  eapply wp_impl; [eapply (make_symbolic_wp ρ); try done; apply C|].
  intros [] s' (v&Ev&Hv&Hin). split; [|done]. eapply stored_consistent; try done.
  - apply Forall_lookup. intros j x ->%Hx. apply wrap_bound. lia.
  - intros j h Hj E. destruct (Hv j Hj) as (h'&E'&Hh). rewrite E in E'. injection E' as <-.
    destruct (lookup_lt_is_Some_2 xs (Z.to_nat j)) as [x Ex]; [lia|].
    exists x. split; [done|]. rewrite (Hx _ _ Ex).
    by replace (Z.to_nat o + Z.to_nat j)%nat with (Z.to_nat (o + j)) by lia.
Qed.

(** Every step keeps the shadow in agreement with the memory. *)
Lemma mem_step_consistent ρ s s' : consistent ρ s → mem_step ρ s s' → consistent ρ s'.
Proof.
  intros C H. destruct H as
    [s dest src len s' ? ? ? E|s dest src len s' ? ? E|s a len c e s' ? ? ? E
    |s a xs le e s' ? ? ? ? ? E|s a len le e s' ? ? E|s a xs o n s' ? ? ? ? ? ? E|s b ? ?].
  - eapply copied_consistent; [done..|]. refine (wp_elim _ _ _ _ (λ _ s', evolves ρ s s' _) _ E).
    apply memcpy_wp; try done; [apply C|lia].
  - eapply copied_consistent; [done..|]. refine (wp_elim _ _ _ _ (λ _ s', evolves ρ s s' _) _ E).
    apply memmove_wp; try done. apply C.
  - eapply filled_consistent; [done..|]. refine (wp_elim _ _ _ _ (λ _ s', evolves ρ s s' _) _ E).
    apply memset_wp; try done; [apply C|]. destruct e; [cbn; eauto|done].
  - refine (wp_elim _ _ _ _ (λ _ s', consistent ρ (set_memory _ s')) _ E).
    by apply write_memory_consistent.
  - by destruct (wp_elim _ _ _ _ _ (read_consistent ρ s a len le C ltac:(done) ltac:(done)) E).
  - refine (proj1 (wp_elim _ _ _ _ (λ _ s', consistent ρ (set_memory _ s') ∧ _) _ E)).
    by apply make_symbolic_consistent.
  - rewrite <-(set_memory_id (set_backend b s)).
    eapply consistent_intro; [by eapply backend_evolves; [apply C|..]|..].
    + intros a. by apply (consistent_byte ρ s a).
    + intros a h Ha E. eapply rep_mono; [done|]. by apply (consistent_expr ρ s).
Qed.

Lemma mem_steps_consistent ρ s s' : consistent ρ s → rtc (mem_step ρ) s s' → consistent ρ s'.
Proof. intros C. induction 1; eauto using mem_step_consistent. Qed.
End steps.
End spec.
