(* ===== verification/GarbageCollection.v ===== *)
(** * Garbage collection

    Models runtime/src/GarbageCollection.cpp, the set of expressions the
    program can still reach through registered regions and shadow memory, and
    [_sym_collect_garbage] of the simple backend, which sweeps with it. *)

From S2P Require Import Prelude Smt Z3Api Interface Config State Shadow Memory.
From S2P Require Import SimpleBackend SimpleSpec.

#[local] Open Scope Z_scope.

Section collect.
Context {B : Backend}.
Implicit Types (s : rt).

(** Every non-null expression of the cells is inserted, as in the loop over a
    region. *)
Definition collect_cells (cells : list SymExpr) (acc : gset handle) : gset handle :=
  foldl (λ acc e, match e with Some h => {[h]} ∪ acc | None => acc end) acc cells.

(** The [SymExpr]s (8 bytes each) of the region of [length] cells at [start]. *)
Definition region_cells s (r : Z * Z) : list SymExpr :=
  (λ i, expr_memory s (r.1 + 8 * i)) <$> seqZ 0 r.2.

Definition collectReachableExpressions s : gset handle :=
  let reachable := foldl (λ acc r, collect_cells (region_cells s r) acc) ∅
                         (expressionRegions s) in
  foldl (λ acc mapping, collect_cells (take (Z.to_nat kPageSize) mapping.2) acc)
        reachable (map_to_list (g_shadow_pages s)).

Lemma elem_of_collect_cells cells acc h :
  h ∈ collect_cells cells acc ↔ Some h ∈ cells ∨ h ∈ acc.
Proof.
  unfold collect_cells. revert acc.
  induction cells as [|[e|] cells IH]; intros acc; cbn; [set_solver|..]; rewrite IH; set_solver.
Qed.

Lemma elem_of_foldl_collect {A} (f : A → list SymExpr) (l : list A) acc h :
  h ∈ foldl (λ acc x, collect_cells (f x) acc) acc l ↔
  (∃ x, x ∈ l ∧ Some h ∈ f x) ∨ h ∈ acc.
Proof.
  revert acc. induction l as [|x l IH]; intros acc; cbn; [set_solver|].
  rewrite IH, elem_of_collect_cells. set_solver.
Qed.

(** An expression is found iff a registered region or a shadow page holds it. *)
Lemma collectReachableExpressions_spec s h :
  h ∈ collectReachableExpressions s ↔
  (∃ start len i, (start, len) ∈ expressionRegions s ∧ 0 ≤ i < len ∧
                  expr_memory s (start + 8 * i) = Some h) ∨
  (∃ p l, g_shadow_pages s !! p = Some l ∧ Some h ∈ take (Z.to_nat kPageSize) l).
Proof.
  unfold collectReachableExpressions.
  rewrite (elem_of_foldl_collect (λ m, take (Z.to_nat kPageSize) m.2)).
  rewrite (elem_of_foldl_collect (region_cells s)). split.
  - intros [([p l]&Hin&?)|[([start len]&Hin&Hh)|?]]; [right|left|set_solver].
    + exists p, l. split; [|done]. by apply elem_of_map_to_list.
    + unfold region_cells in Hh. apply list_elem_of_fmap in Hh as (i&Hi&Hj).
      apply elem_of_seqZ in Hj. exists start, len, i. cbn in *. split_and!; try done; lia.
  - intros [(start&len&i&?&?&?)|(p&l&?&?)]; [right; left|left].
    + exists (start, len). split; [done|]. unfold region_cells. apply list_elem_of_fmap.
      exists i. split; [done|]. apply elem_of_seqZ. cbn. lia.
    + exists (p, l). split; [by apply elem_of_map_to_list|done].
Qed.

(** In particular everything in shadow memory is reachable. *)
Lemma shadow_reachable s a h :
  pages_ok (g_shadow_pages s) → shadow_at s a = Some h → h ∈ collectReachableExpressions s.
Proof.
  intros Ok H. apply collectReachableExpressions_spec. right.
  unfold shadow_at, pages_at in H. destruct (g_shadow_pages s !! pageStart a) as [l|] eqn:E; [|done].
  exists (pageStart a), l. split; [done|]. rewrite take_ge by (rewrite (Ok _ _ E); lia).
  destruct (l !! Z.to_nat (pageOffset a)) as [e|] eqn:El; cbn in H; [|done]. subst.
  by eapply list_elem_of_lookup_2.
Qed.
End collect.

(** ** The collector of the simple backend *)
Section sweep.
Context {Z3I : Z3}.

#[local] Abbreviation rt := (@rt simple_backend).

(** [if (allocatedExpressions.size() < threshold) return;] and the sweep. *)
Definition _sym_collect_garbage : M rt unit :=
  s <- get ;;
  backend (collect_garbage (garbageCollectionThreshold (g_config s))
             (collectReachableExpressions s)).

Context {ZL : Z3Laws Z3I}.
Implicit Types (s : rt) (ρ : RunInput).

#[local] Abbreviation allocated s := (allocatedExpressions (rt_backend s : state)).

Lemma collect_garbage_returns s :
  ∃ b, _sym_collect_garbage s = Ok tt (set_backend b s) ∧
    collect_garbage (garbageCollectionThreshold (g_config s))
      (collectReachableExpressions s) (rt_backend s : state) = Ok tt b ∧
    allocatedExpressions b =
      (if Z.of_nat (size (allocated s)) <? garbageCollectionThreshold (g_config s)
       then allocated s
       else filter (λ a, a ∈ collectReachableExpressions s) (allocated s)) ∧
    refs b = refs (rt_backend s : state).
Proof.
  destruct (collect_garbage_spec (garbageCollectionThreshold (g_config s))
    (collectReachableExpressions s) (rt_backend s)) as (b&E&R&A).
  exists b. split_and!; try done.
  unfold _sym_collect_garbage, bind, get, backend, zoom. by rewrite E.
Qed.

(** The collection leaves the shadow in agreement with memory, and keeps what
    shadow memory uses. *)
Lemma collect_garbage_consistent ρ s s' :
  consistent ρ s → _sym_collect_garbage s = Ok tt s' →
  consistent ρ s' ∧ shadow_at s' = shadow_at s ∧
  ∀ a h, shadow_at s a = Some h → h ∈ allocated s → h ∈ allocated s'.
Proof.
  intros C E. destruct (collect_garbage_returns s) as (b&E'&Eb&A&_).
  rewrite E in E'. injection E' as ->.
  destruct C as [([I L]&Ok&Mem&Sh) Hb].
  destruct (collect_garbage_inv _ _ _ _ I Eb) as (I'&X&SL&_). split_and!.
  - assert (∀ a x, byte_at ρ s a x → byte_at ρ (set_backend b s) a x) as Hm.
    { intros a x. unfold byte_at. change (shadow_at (set_backend b s) a) with (shadow_at s a).
      destruct (shadow_at s a); [|done]. intros. by eapply rep_mono. }
    split; [split; [split; [done|eapply run_state_ext; [done|by apply same_log_holds|exact L]]|split_and!]|]; try done.
    + intros a Ha. eapply is_byte_value_mono; [exact X|by apply Sh].
    + intros a Ha. by apply Hm, Hb.
  - done.
  - intros a h Ha Hin. cbn. rewrite A. case_match; [done|].
    apply elem_of_filter. split; [|done]. by eapply shadow_reachable.
Qed.
End sweep.
