(* ===== verification/LibcWrappers.v ===== *)
(** * Wrappers of libc functions

    Models runtime/src/LibcWrappers.cpp.  A wrapper is called with the values
    of the arguments; their expressions are in the parameter slots.  What the
    C library computes from memory is modelled ([memcpy], [strnlen], ...); what
    the operating system answers (file descriptors, data, positions, mapped
    addresses) is an argument of the wrapper.  Streams are identified with
    their file descriptors.  [sym_addr] gives the address of a wrapper, which
    the code uses as the site of the constraints it pushes; [fuel] bounds the
    length of the C strings that are traversed. *)

From S2P Require Import Prelude Smt Interface ByteSeq BitArrays Config State Shadow Memory.

#[local] Open Scope Z_scope.

Section defs.
Context {B : Backend} (sym_addr : string → Z) (fuel : nat).
#[local] Abbreviation M := (M rt).

(** ** Helpers of the file *)

(** [tryAlternative]; [bits] is [8 * sizeof(value)]. *)
Definition tryAlternative (value bits : Z) (valueExpr : SymExpr) (caller : Z) : M unit :=
  match valueExpr with
  | None => ret tt
  | Some _ =>
      v <- backend (_sym_build_integer (u64 value) bits) ;;
      c <- backend (_sym_build_equal valueExpr v) ;;
      backend (_sym_push_path_constraint c true caller)
  end.

(** [tryAlternative(value, _sym_get_parameter_expression(index), SYM(name))]. *)
Definition try_parameter (value bits index : Z) (name : string) : M unit :=
  e <- _sym_get_parameter_expression index ;;
  tryAlternative value bits e (sym_addr name).

Definition strstr (haystack needle : string) : bool :=
  match String.index 0 needle haystack with Some _ => true | None => false end.

Definition maybeSetInputFile (path : string) (fd : Z) : M unit :=
  s <- get ;;
  match input (g_config s) with
  | FileInput fileName =>
      if strstr path fileName then modify (set_input_file fd 0) else ret tt
  | _ => ret tt
  end.

Definition initLibcWrappers : M unit :=
  s <- get ;;
  match input (g_config s) with
  | StdinInput => modify (set_input_file 0 (inputOffset s))
  | _ => ret tt
  end.

Definition set_inputOffset (o : Z) : M unit :=
  modify (λ s, set_input_file (inputFileDescriptor s) o s).

(** [else if (!isConcrete(p, n)) { ReadWriteShadow shadow(p, n);
    std::fill(shadow.begin(), shadow.end(), nullptr); }]. *)
Definition concretize (addr len : Z) : M unit :=
  c <- isConcrete addr len ;;
  if c then ret tt else fill addr len None.

(** Data that arrives in memory: the next input bytes if the source is the
    input file, concrete data otherwise. *)
Definition receive (fd buf len : Z) : M unit :=
  s <- get ;;
  if fd =? inputFileDescriptor s then
    _sym_make_symbolic buf len (inputOffset s) ;;;
    set_inputOffset (u64 (inputOffset s + len))
  else concretize buf len.

(** ** The C library on the program's memory *)
Definition store_bytes (addr : Z) (data : list Z) : M unit :=
  modify (λ s, set_memory (store (memory s) addr data) s).

Definition libc_memmove (dest src n : Z) : M unit :=
  modify (λ s, set_memory (copy_bytes (memory s) dest src n) s).

(** [memcpy] on overlapping regions is undefined. *)
Definition libc_memcpy (dest src n : Z) : M unit :=
  if (dest + n <=? src) || (src + n <=? dest) || (n =? 0) then libc_memmove dest src n
  else fail (Undefined "memcpy of overlapping regions").

Definition libc_memset (addr c n : Z) : M unit :=
  modify (λ s, set_memory (set_bytes (memory s) addr n (u8 c)) s).

(** [strnlen], and [strlen] within the bound on string lengths. *)
Fixpoint strnlen (mem : Z → Z) (a : Z) (n : nat) : Z :=
  match n with
  | O => 0
  | S n' => if mem a =? 0 then 0 else 1 + strnlen mem (a + 1) n'
  end.

Definition strlen (a : Z) : M Z :=
  s <- get ;;
  let n := strnlen (memory s) a fuel in
  if n <? Z.of_nat fuel then ret n else fail OutOfFuel.

(** [strncpy]: the string, padded with zeros to [n] bytes. *)
Definition libc_strncpy (dest src n : Z) : M unit :=
  modify (λ s,
    let l := strnlen (memory s) src (Z.to_nat n) in
    set_memory (λ b, if decide (dest ≤ b < dest + n)
                     then (if b - dest <? l then memory s (src + (b - dest)) else 0)
                     else memory s b) s).

(** Position of the first byte equal to [c], up to the terminator. *)
Fixpoint find_char (mem : Z → Z) (a c : Z) (n : nat) : option Z :=
  match n with
  | O => None
  | S n' => if mem a =? c then Some 0
            else if mem a =? 0 then None
            else Z.succ <$> find_char mem (a + 1) c n'
  end.

(** [memcmp]: the sign of the first difference. *)
Fixpoint libc_memcmp (mem : Z → Z) (a b : Z) (n : nat) : Z :=
  match n with
  | O => 0
  | S n' => if mem a =? mem b then libc_memcmp mem (a + 1) (b + 1) n'
            else Z.sgn (mem a - mem b)
  end.

(** ** Memory management *)
Definition SYM_malloc (size result : Z) : M Z :=
  try_parameter size 64 0 "malloc" ;;;
  _sym_set_return_expression None ;;;
  ret result.

Definition SYM_calloc (nmemb size result : Z) : M Z :=
  try_parameter nmemb 64 0 "calloc" ;;;
  try_parameter size 64 1 "calloc" ;;;
  _sym_set_return_expression None ;;;
  ret result.

Definition MAP_FAILED : Z := 2 ^ 64 - 1.

(** [result] is the address of the mapping, [data] its contents. *)
Definition SYM_mmap64 (addr len prot flags fildes off result : Z) (data : list Z) : M Z :=
  store_bytes result (if result =? MAP_FAILED then [] else data) ;;;
  _sym_set_return_expression None ;;;
  if result =? MAP_FAILED then ret result
  else
    s <- get ;;
    (if fildes =? inputFileDescriptor s then
       set_inputOffset (u64 (off + len)) ;;;
       first <- WriteShadowIterator result ;;
       last <- WriteShadowIterator (u64 (result + len)) ;;
       std_generate (Z.to_nat len) first last
         (λ i,
            s <- get ;;
            e <- backend (_sym_get_input_byte (inputOffset s) (memory s (u64 (result + i)))) ;;
            (if i =? 2 ^ 31 - 1 then fail (Undefined "signed integer overflow")
             else ret (e, i + 1))) 0
     else concretize result len) ;;;
    try_parameter len 64 1 "mmap64" ;;;
    ret result.

Definition SYM_mmap (addr len prot flags fildes off result : Z) (data : list Z) : M Z :=
  SYM_mmap64 addr len prot flags fildes (u32 off) result data.

(** ** Files *)
Definition SYM_open (path : string) (result : Z) : M Z :=
  _sym_set_return_expression None ;;;
  (if 0 <=? result then maybeSetInputFile path result else ret tt) ;;;
  ret result.

(** [result] is the error code -1 or the bytes that were read. *)
Definition SYM_read (fildes buf nbyte : Z) (result : option (list Z)) : M Z :=
  try_parameter buf 64 1 "read" ;;;
  try_parameter nbyte 64 2 "read" ;;;
  store_bytes buf (default [] result) ;;;
  _sym_set_return_expression None ;;;
  match result with
  | None => ret (-1)
  | Some data =>
      receive fildes buf (Z.of_nat (length data)) ;;;
      ret (Z.of_nat (length data))
  end.

Definition SEEK_SET : Z := 0.

Definition SYM_lseek64 (fd offset whence result : Z) : M Z :=
  _sym_set_return_expression None ;;;
  if result =? -1 then ret (u64 result)
  else
    (if whence =? SEEK_SET
     then e <- _sym_get_parameter_expression 1 ;; _sym_set_return_expression e
     else ret tt) ;;;
    s <- get ;;
    (if fd =? inputFileDescriptor s then set_inputOffset (u64 result) else ret tt) ;;;
    ret (u64 result).

Definition SYM_lseek (fd offset whence result : Z) : M Z :=
  r <- SYM_lseek64 fd (u32 offset) whence result ;;
  if r =? u32 r then ret (u32 r) else ret (2 ^ 32 - 1).

(** [fopen] and [fopen64]; [result] is the descriptor of the stream, if any. *)
Definition SYM_fopen (pathname : string) (result : option Z) : M (option Z) :=
  _sym_set_return_expression None ;;;
  match result with
  | Some fd => maybeSetInputFile pathname fd
  | None => ret tt
  end ;;;
  ret result.
Definition SYM_fopen64 := SYM_fopen.

(** [result] elements and the bytes [data] were read. *)
Definition SYM_fread (ptr size nmemb stream result : Z) (data : list Z) : M Z :=
  try_parameter ptr 64 0 "fread" ;;;
  try_parameter size 64 1 "fread" ;;;
  try_parameter nmemb 64 2 "fread" ;;;
  store_bytes ptr data ;;;
  _sym_set_return_expression None ;;;
  receive stream ptr (u64 (result * size)) ;;;
  ret result.

(** [result] is whether a line was read; [data] is what was stored. *)
Definition SYM_fgets (str n stream : Z) (result : bool) (data : list Z) : M Z :=
  try_parameter str 64 0 "fgets" ;;;
  try_parameter n 32 1 "fgets" ;;;
  store_bytes str data ;;;
  e <- _sym_get_parameter_expression 0 ;;
  _sym_set_return_expression e ;;;
  length <- strlen str ;;
  receive stream str length ;;;
  ret (if result then str else 0).

Definition SYM_rewind (stream : Z) : M unit :=
  _sym_set_return_expression None ;;;
  s <- get ;;
  if stream =? inputFileDescriptor s then set_inputOffset 0 else ret tt.

(** [fseek], [fseeko] and [fseeko64]: [result] is what the function returned,
    [pos] what [ftell] returns afterwards. *)
Definition seek (name : string) (stream offset result pos : Z) : M Z :=
  try_parameter offset 64 1 name ;;;
  _sym_set_return_expression None ;;;
  if result =? -1 then ret result
  else
    s <- get ;;
    if stream =? inputFileDescriptor s then
      if pos =? -1 then ret (-1)
      else set_inputOffset (u64 pos) ;;; ret result
    else ret result.
Definition SYM_fseek := seek "fseek".
Definition SYM_fseeko := seek "fseeko".
Definition SYM_fseeko64 := seek "fseeko64".

Definition EOF : Z := -1.

(** [getc] and [fgetc] have the same body. *)
Definition SYM_getc (stream result : Z) : M Z :=
  if result =? EOF then _sym_set_return_expression None ;;; ret result
  else
    s <- get ;;
    (if stream =? inputFileDescriptor s then
       set_inputOffset (u64 (inputOffset s + 1)) ;;;
       b <- backend (_sym_get_input_byte (inputOffset s) (u8 result)) ;;
       e <- backend (_sym_build_zext b (4 * 8 - 8)) ;;
       _sym_set_return_expression e
     else _sym_set_return_expression None) ;;;
    ret result.
Definition SYM_fgetc := SYM_getc.
Definition SYM_getchar (result : Z) : M Z := SYM_getc 0 result.

Definition SYM_ungetc (c stream result : Z) : M Z :=
  e <- _sym_get_parameter_expression 0 ;;
  _sym_set_return_expression e ;;;
  s <- get ;;
  (if (stream =? inputFileDescriptor s) && negb (result =? EOF)
   then set_inputOffset (u64 (inputOffset s - 1)) else ret tt) ;;;
  ret result.

(** ** Memory and strings *)
Definition return_parameter (index : Z) : M unit :=
  e <- _sym_get_parameter_expression index ;; _sym_set_return_expression e.

Definition SYM_memcpy (dest src n : Z) : M Z :=
  libc_memcpy dest src n ;;;
  try_parameter dest 64 0 "memcpy" ;;;
  try_parameter src 64 1 "memcpy" ;;;
  try_parameter n 64 2 "memcpy" ;;;
  _sym_memcpy dest src n ;;;
  return_parameter 0 ;;;
  ret dest.

Definition SYM_memset (s c n : Z) : M Z :=
  libc_memset s c n ;;;
  try_parameter s 64 0 "memset" ;;;
  try_parameter n 64 2 "memset" ;;;
  e <- _sym_get_parameter_expression 1 ;;
  _sym_memset s e n ;;;
  return_parameter 0 ;;;
  ret s.

Definition SYM_bzero (s n : Z) : M unit :=
  libc_memset s 0 n ;;;
  _sym_set_return_expression None ;;;
  try_parameter s 64 0 "bzero" ;;;
  try_parameter n 64 1 "bzero" ;;;
  fill s n None.

Definition SYM_memmove (dest src n : Z) : M Z :=
  try_parameter dest 64 0 "memmove" ;;;
  try_parameter src 64 1 "memmove" ;;;
  try_parameter n 64 2 "memmove" ;;;
  libc_memmove dest src n ;;;
  _sym_memmove dest src n ;;;
  return_parameter 0 ;;;
  ret dest.

Definition SYM_bcopy (src dest n : Z) : M unit :=
  try_parameter src 64 0 "bcopy" ;;;
  try_parameter dest 64 1 "bcopy" ;;;
  try_parameter n 64 2 "bcopy" ;;;
  libc_memmove dest src n ;;;
  _sym_memmove dest src n ;;;
  _sym_set_return_expression None.

Definition SYM_strncpy (dest src n : Z) : M Z :=
  try_parameter dest 64 0 "strncpy" ;;;
  try_parameter src 64 1 "strncpy" ;;;
  try_parameter n 64 2 "strncpy" ;;;
  libc_strncpy dest src n ;;;
  _sym_set_return_expression None ;;;
  s <- get ;;
  let srcLen := strnlen (memory s) src (Z.to_nat n) in
  let copied := Z.min n srcLen in
  c1 <- isConcrete src copied ;;
  c2 <- (if c1 then isConcrete dest n else ret false) ;;
  if c2 then ret dest
  else
    copy_forward dest src copied ;;;
    (if copied <? n then fill (u64 (dest + copied)) (n - copied) None else ret tt) ;;;
    ret dest.

(** The loop of [strchr]: every byte before the match differs from [c]. *)
Fixpoint strchr_loop (fuel : nat) (s length i : Z) (it : iterator) (cExpr : SymExpr) : M unit :=
  if length <=? i then ret tt
  else match fuel with
       | O => fail OutOfFuel
       | S fuel' =>
           e <- read_deref it ;;
           byte <- (match e with
                    | Some _ => read_deref it
                    | None => m <- gets memory ;; backend (_sym_build_integer (u64 (sgn 8 (m (s + i)))) 8)
                    end) ;;
           c <- backend (_sym_build_not_equal byte cExpr) ;;
           backend (_sym_push_path_constraint c true (sym_addr "strchr")) ;;;
           it' <- read_incr it ;;
           strchr_loop fuel' s length (i + 1) it' cExpr
       end.

(** [result != nullptr ? (result - s) : strlen(s)]. *)
Definition strchr_length (s c : Z) : M Z :=
  st <- get ;;
  match find_char (memory st) s (u8 c) fuel with
  | Some i => ret i
  | None => strlen s
  end.

Definition SYM_strchr (s c : Z) : M Z :=
  try_parameter s 64 0 "strchr" ;;;
  try_parameter c 32 1 "strchr" ;;;
  length <- strchr_length s c ;;
  st <- get ;;
  let result := match find_char (memory st) s (u8 c) fuel with
                | Some i => s + i | None => 0 end in
  _sym_set_return_expression None ;;;
  cExpr <- _sym_get_parameter_expression 1 ;;
  conc <- isConcrete s length ;;
  if conc && bool_decide (cExpr = None) then ret result
  else
    cExpr <- backend (match cExpr with
                      | None => _sym_build_integer (u64 c) 8
                      | Some _ => _sym_build_trunc cExpr 8
                      end) ;;
    it <- ReadShadowIterator s ;;
    strchr_loop (Z.to_nat length) s length 0 it cExpr ;;;
    ret result.

(** The conjunction of the equalities of corresponding bytes, as [memcmp] and
    [bcmp] build it; [n] is the number of bytes that remain. *)
Fixpoint all_equal_loop (n : nat) (aIt bIt : iterator) (allEqual : SymExpr) : M SymExpr :=
  match n with
  | O => ret allEqual
  | S n' =>
      aIt <- read_incr aIt ;;
      bIt <- read_incr bIt ;;
      x <- nonnull_deref aIt ;;
      y <- nonnull_deref bIt ;;
      eq <- backend (_sym_build_equal x y) ;;
      allEqual <- backend (_sym_build_bool_and allEqual eq) ;;
      all_equal_loop n' aIt bIt allEqual
  end.

Definition all_equal (a b n : Z) : M SymExpr :=
  aShadowIt <- ReadShadowIterator a ;;
  bShadowIt <- ReadShadowIterator b ;;
  x <- nonnull_deref aShadowIt ;;
  y <- nonnull_deref bShadowIt ;;
  allEqual <- backend (_sym_build_equal x y) ;;
  all_equal_loop (Z.to_nat (n - 1)) aShadowIt bShadowIt allEqual.

(** [memcmp] and [bcmp] differ in their names only. *)
Definition compare (name : string) (a b n : Z) : M Z :=
  try_parameter a 64 0 name ;;;
  try_parameter b 64 1 name ;;;
  try_parameter n 64 2 name ;;;
  s <- get ;;
  let result := libc_memcmp (memory s) a b (Z.to_nat n) in
  _sym_set_return_expression None ;;;
  c <- both_concrete a b n ;;
  if c then ret result
  else
    allEqual <- all_equal a b n ;;
    backend (_sym_push_path_constraint allEqual (result =? 0) (sym_addr name)) ;;;
    ret result.
Definition SYM_memcmp := compare "memcmp".
Definition SYM_bcmp := compare "bcmp".

(** [ntohl] on a little-endian machine. *)
Definition SYM_ntohl (netlong : Z) : M Z :=
  netlongExpr <- _sym_get_parameter_expression 0 ;;
  let result := of_be (rev (to_be 4 netlong)) in
  match netlongExpr with
  | None => _sym_set_return_expression None ;;; ret result
  | Some _ =>
      e <- backend (_sym_build_bswap netlongExpr) ;;
      _sym_set_return_expression e ;;;
      ret result
  end.

End defs.
