(* ===== verification/LibcSpec.v ===== *)
(** * The libc wrappers keep shadow and memory in agreement

    Theorems about LibcWrappers.v, for every backend that keeps the contract
    of Interface.v: a wrapper leaves the shadow in agreement with the memory
    the libc function has produced, its return expression has the value it
    returns, and the constraints it builds hold in the current execution. *)

From S2P Require Import Prelude Smt Interface ByteSeq BitArrays Config State Shadow Memory.
From S2P Require Import LibcWrappers.

#[local] Open Scope Z_scope.

Section spec.
Context {B : Backend} {BS : BackendSpec B} (sym_addr : string → Z) (fuel : nat).
Implicit Types (s : rt) (ρ : env) (a len : Z).

(** What a wrapper may change besides the backend and the shadow: the return
    slot, the position in the input and, through libc, the memory. *)
Definition wrapper_step s s' : Prop :=
  bext (rt_backend s) (rt_backend s') ∧
  g_function_arguments s' = g_function_arguments s ∧
  inputFileDescriptor s' = inputFileDescriptor s ∧
  g_config s' = g_config s ∧ expressionRegions s' = expressionRegions s.

#[export] Instance wrapper_step_preorder : PreOrder wrapper_step.
Proof.
  split; [by intros s; split_and!|]. intros s1 s2 s3 (?&?&?&?&?) (?&?&?&?&?).
  split_and!; [by etransitivity|congruence..].
Qed.

Lemma rt_step_wrapper s s' : rt_step s s' → wrapper_step s s'.
Proof. intros (?&_&->). by split_and!. Qed.

Lemma rt_step_globals s s' :
  rt_step s s' → memory s' = memory s ∧ g_return_value s' = g_return_value s ∧
    inputOffset s' = inputOffset s.
Proof. by intros (_&_&->). Qed.

(** The shadow describes the memory [mem], which is the program's memory before
    or after the libc call. *)
Definition agrees ρ (mem : Z → Z) s : Prop :=
  shadow_inv ρ s ∧ (∀ a, is_byte (mem a)) ∧
  ∀ a h, valid a → shadow_at s a = Some h → rep ρ (rt_backend s) h (VBV 8 (mem a)).

Lemma agrees_consistent ρ s : agrees ρ (memory s) s ↔ consistent ρ s.
Proof.
  split.
  - intros (Inv&_&H). split; [done|]. intros a Ha. unfold byte_at.
    destruct (shadow_at s a) eqn:E; [|done]. by apply H.
  - intros C. split_and!; [apply C| |].
    + intros a. by eapply consistent_byte.
    + intros a h. by apply consistent_expr.
Qed.

(** Agreement depends on the backend and the pages only. *)
Lemma agrees_same ρ mem s s' :
  rt_backend s' = rt_backend s → g_shadow_pages s' = g_shadow_pages s →
  (∀ a, is_byte (memory s' a)) → agrees ρ mem s → agrees ρ mem s'.
Proof.
  intros E1 E2 Hm ((I&Ok&_&Sh)&?&?). unfold agrees, shadow_inv, shadow_at in *.
  rewrite E1, E2. by split_and!.
Qed.

Lemma agrees_evolves ρ mem s s' sh mem' :
  agrees ρ mem s → evolves ρ s s' sh → (∀ a, is_byte (mem' a)) →
  (∀ a h, valid a → sh a = Some h →
     (shadow_at s a = Some h ∧ mem' a = mem a) ∨ rep ρ (rt_backend s') h (VBV 8 (mem' a))) →
  agrees ρ mem' s'.
Proof.
  intros (_&_&H) (St&Inv&Hsh) Hm Hc. split_and!; try done.
  intros a h Ha E. rewrite Hsh in E by done.
  destruct (Hc a h Ha E) as [[E' ->]|?]; [|done].
  eapply rep_mono; [apply St|by apply H].
Qed.

Lemma agrees_quiet ρ mem s s' :
  agrees ρ mem s → evolves ρ s s' (shadow_at s) → agrees ρ mem s'.
Proof. intros A Ev. eapply agrees_evolves; eauto. apply A. Qed.

(** *** Calls of the backend and alternatives for parameters *)
Lemma wp_backend_quiet {A} ρ s (m : M bstate A) P (Q : A → rt → Prop) :
  shadow_inv ρ s →
  returns binv bext m (rt_backend s) P →
  (∀ r s', evolves ρ s s' (shadow_at s) → P r (rt_backend s') → Q r s') →
  wp (backend m) s Q.
Proof.
  intros Inv Hm HQ. eapply (wp_backend ρ s s); [by apply evolves_refl|exact Hm|].
  intros r s' Ev _ _. by apply HQ.
Qed.

Lemma quiet_trans ρ s0 s1 s2 :
  evolves ρ s0 s1 (shadow_at s0) → evolves ρ s1 s2 (shadow_at s1) →
  evolves ρ s0 s2 (shadow_at s0).
Proof.
  intros Ev1 Ev2. eapply evolves_ext; [by eapply evolves_trans|]. apply Ev1.
Qed.

(** Parameter [i] is concrete or an expression of value [v] on [w] bits. *)
Definition param ρ s (i w v : Z) : Prop :=
  match g_function_arguments s !! Z.to_nat (u8 i) with
  | Some (Some h) => rep ρ (rt_backend s) h (VBV w v)
  | _ => True
  end.

Lemma param_step ρ s s' i w v : wrapper_step s s' → param ρ s i w v → param ρ s' i w v.
Proof.
  intros (X&E&_). unfold param. rewrite E. repeat case_match; try done.
  by apply rep_mono.
Qed.

Lemma param_evolves ρ s s' sh i w v : evolves ρ s s' sh → param ρ s i w v → param ρ s' i w v.
Proof. intros (St&_). by apply param_step, rt_step_wrapper. Qed.

Lemma try_parameter_wp ρ s value bits index name :
  shadow_inv ρ s → 0 < bits < 2 ^ 8 → param ρ s index bits (wrap bits (u64 value)) →
  wp (try_parameter sym_addr value bits index name) s
    (λ _ s', evolves ρ s s' (shadow_at s)).
Proof.
  intros Inv Hb Hp. unfold try_parameter. apply wp_bind, wp_gets. unfold param in Hp.
  destruct (g_function_arguments s !! Z.to_nat (u8 index)) as [[h|]|]; cbn;
    [|by apply wp_ret, evolves_refl..].
  apply wp_bind. eapply wp_backend_quiet; [done|by apply (build_integer_spec ρ); [apply Inv|]|].
  intros e s1 Ev1 (k&->&Hk). apply wp_bind. pose proof (evolves_inv _ _ _ _ Ev1) as Inv1.
  eapply wp_backend_quiet; [done| |].
  { eapply (equal_ok ρ); [apply Inv1|eapply rep_mono; [apply Ev1|exact Hp]|exact Hk]. }
  intros c s2 Ev2 (hc&->&Hc). pose proof (evolves_inv _ _ _ _ Ev2) as Inv2.
  eapply wp_backend_quiet; [done| |].
  { apply push_path_constraint_spec; [apply Inv2|]. right. eauto. }
  intros _ s3 Ev3 _. eauto using quiet_trans.
Qed.

(** *** Data arriving in memory *)

(** The bytes [xs] are the input from position [o] on. *)
Definition input_data {IS : InputSpec B BS} ρ (o : Z) (xs : list Z) : Prop :=
  ∀ j x, xs !! j = Some x → x = wrap 8 (ρ (input_name (Z.to_nat o + j))).

Lemma agrees_stored ρ mem s s' a xs v :
  agrees ρ mem s → Forall is_byte xs →
  evolves ρ s s' (filled (shadow_at s) a (Z.of_nat (length xs)) v) →
  (∀ j h, 0 ≤ j < Z.of_nat (length xs) → v j = Some h →
    ∃ x, xs !! Z.to_nat j = Some x ∧ rep ρ (rt_backend s') h (VBV 8 x)) →
  agrees ρ (store mem a xs) s'.
Proof.
  intros A Hx Ev Hv. eapply agrees_evolves; [exact A|exact Ev|..].
  - intros b. apply store_byte; [apply A|done].
  - intros b h Hb E. unfold filled in E. case_decide as Hr.
    + right. destruct (Hv (b - a) h) as (x&Hx'&Hh); [lia|done|].
      pose proof (store_in mem a xs (b - a)) as Es. rewrite Zplus_minus, Hx' in Es.
      assert (0 ≤ b - a < Z.of_nat (length xs)) as Hr' by lia.
      by injection (Es Hr') as ->.
    + left. split; [done|]. apply store_out. lia.
Qed.

Lemma agrees_concretized ρ mem s s' a xs :
  agrees ρ mem s → Forall is_byte xs →
  evolves ρ s s' (filled (shadow_at s) a (Z.of_nat (length xs)) (λ _, None)) →
  agrees ρ (store mem a xs) s'.
Proof. intros A Hx Ev. by eapply agrees_stored. Qed.

Lemma agrees_copied ρ mem s s' dest src len :
  agrees ρ mem s → region src len → evolves ρ s s' (copied (shadow_at s) dest src len) →
  agrees ρ (copy_bytes mem dest src len) s'.
Proof.
  intros A (?&?&?) Ev. eapply agrees_evolves; [exact A|exact Ev|..].
  - intros b. unfold copy_bytes. case_decide; apply A.
  - intros b h Hb E. unfold copied in E. unfold copy_bytes. case_decide; [right|by left].
    eapply rep_mono; [apply Ev|]. apply A; [unfold valid; lia|done].
Qed.

Lemma concretize_wp ρ s a len :
  shadow_inv ρ s → region a len →
  wp (concretize a len) s (λ _ s', evolves ρ s s' (filled (shadow_at s) a len (λ _, None))).
Proof.
  intros Inv R. exact (memset_wp ρ s a len None Inv R I).
Qed.

Lemma set_return_wp ρ mem s e :
  agrees ρ mem s →
  wp (_sym_set_return_expression e) s (λ _ s', agrees ρ mem s' ∧ wrapper_step s s' ∧
    memory s' = memory s ∧ g_return_value s' = e ∧ inputOffset s' = inputOffset s).
Proof. intros A. apply wp_modify. split_and!; try done; apply A. Qed.

Lemma store_bytes_wp ρ mem s a xs :
  agrees ρ mem s → Forall is_byte xs → (∀ b, is_byte (memory s b)) →
  wp (store_bytes a xs) s (λ _ s', agrees ρ mem s' ∧ wrapper_step s s' ∧
    memory s' = store (memory s) a xs ∧ inputOffset s' = inputOffset s).
Proof.
  intros A Hx Hm. apply wp_modify. split_and!; try done.
  apply (agrees_same ρ mem s); try done. intros b. by apply store_byte.
Qed.

(** Neither changes the shadow. *)
Lemma store_bytes_shadow s a xs : wp (store_bytes a xs) s (λ _ s', shadow_at s' = shadow_at s).
Proof. by apply wp_modify. Qed.
Lemma set_return_shadow s e :
  wp (_sym_set_return_expression e) s (λ _ s', shadow_at s' = shadow_at s).
Proof. by apply wp_modify. Qed.

Section input.
Context {IS : InputSpec B BS}.

(** The conditions under which data [xs] may arrive through descriptor [fd]:
    input bytes are delivered in order, without gaps. *)
Definition arrival ρ s fd xs : Prop :=
  fd = inputFileDescriptor s →
  Z.of_nat (length xs) < 2 ^ 31 ∧ 0 ≤ inputOffset s ∧
  inputOffset s + Z.of_nat (length xs) < 2 ^ 64 ∧ input_data ρ (inputOffset s) xs ∧
  ∃ n, inputOffset s ≤ n ∧ inputs_read (rt_backend s) n.

Definition next_offset s fd len : Z :=
  if fd =? inputFileDescriptor s then inputOffset s + len else inputOffset s.

Lemma arrival_step ρ s s' fd xs :
  wrapper_step s s' → inputOffset s' = inputOffset s → arrival ρ s fd xs → arrival ρ s' fd xs.
Proof.
  intros (X&_&E&_) Eo H. unfold arrival. rewrite E, Eo. intros Hfd.
  destruct (H Hfd) as (?&?&?&?&n&?&Hn). split_and!; try done.
  destruct (inputs_read_mono _ _ _ X Hn) as (n'&?&?). exists n'. split; [lia|done].
Qed.

(** The shadow of [n] bytes that have arrived at [a]: the variables of the next
    input bytes if they come from the input file, and nothing otherwise; the
    shadow of other addresses is as before. *)
Definition received ρ s fd a n s' : Prop :=
  (∀ j, 0 ≤ j < n →
    if fd =? inputFileDescriptor s
    then ∃ h, shadow_at s' (a + j) = Some h ∧
           rep ρ (rt_backend s') h (VBV 8 (wrap 8 (ρ (input_name (Z.to_nat (inputOffset s + j))))))
    else shadow_at s' (a + j) = None) ∧
  ∀ b, valid b → ¬ (a ≤ b < a + n) → shadow_at s' b = shadow_at s b.

Lemma received_from ρ s s1 fd a n s' :
  inputFileDescriptor s1 = inputFileDescriptor s → inputOffset s1 = inputOffset s →
  (∀ b, valid b → shadow_at s1 b = shadow_at s b) → received ρ s1 fd a n s' → received ρ s fd a n s'.
Proof.
  intros E1 E2 Hsh [H1 H2]. unfold received in *. rewrite E1, E2 in H1. split; [done|].
  intros b Hb Hr. by rewrite H2, Hsh.
Qed.

(** What receiving data does to the shadow. *)
Lemma receive_shadow ρ s fd a xs :
  shadow_inv ρ s → region a (Z.of_nat (length xs)) → arrival ρ s fd xs →
  wp (receive fd a (Z.of_nat (length xs))) s (λ _ s', received ρ s fd a (Z.of_nat (length xs)) s').
Proof.
  intros Inv R Harr. unfold receive, received. apply wp_bind, wp_get.
  destruct (Z.eqb_spec fd (inputFileDescriptor s)) as [E|E].
  - destruct (Harr E) as (?&?&?&Hd&n&?&Hn).
    eapply wp_seq; [apply (make_symbolic_wp ρ) with (n := n); done|].
    intros [] s1 (v&(_&_&Sh)&Hv&_). apply wp_modify. destruct R as (?&?&?). split.
    + intros j Hj. destruct (Hv j Hj) as (h&Eh&Hh). exists h. split; [|exact Hh].
      change (shadow_at s1 (a + j) = Some h). rewrite Sh by (unfold valid; lia).
      unfold filled. rewrite decide_True by lia. by replace (a + j - a) with j by lia.
    + intros b Vb Hb. change (shadow_at s1 b = shadow_at s b). rewrite Sh by done.
      unfold filled. by rewrite decide_False.
  - eapply wp_impl; [by apply (concretize_wp ρ)|]. intros [] s1 (_&_&Sh). destruct R as (?&?&?). split.
    + intros j Hj. rewrite Sh by (unfold valid; lia). unfold filled. by rewrite decide_True by lia.
    + intros b Vb Hb. rewrite Sh by done. unfold filled. by rewrite decide_False.
Qed.

Lemma receive_wp ρ mem s fd a xs :
  agrees ρ mem s → memory s = store mem a xs → Forall is_byte xs →
  region a (Z.of_nat (length xs)) → arrival ρ s fd xs →
  wp (receive fd a (Z.of_nat (length xs))) s (λ _ s',
    consistent ρ s' ∧ wrapper_step s s' ∧ memory s' = memory s ∧
    g_return_value s' = g_return_value s ∧
    inputOffset s' = next_offset s fd (Z.of_nat (length xs))).
Proof.
  intros A Em Hx R Harr. unfold receive, next_offset. apply wp_bind, wp_get.
  destruct (Z.eqb_spec fd (inputFileDescriptor s)) as [E|E].
  - destruct (Harr E) as (?&?&?&Hd&n&?&Hn).
    eapply wp_seq; [apply (make_symbolic_wp ρ) with (n := n); try done; apply A|].
    intros [] s1 (v&Ev&Hv&_). apply wp_modify.
    destruct (rt_step_globals s s1) as (E1&E2&E3); [apply Ev|].
    assert (agrees ρ (store mem a xs) s1) as A1.
    { eapply agrees_stored; [exact A|done|exact Ev|]. intros j h Hj Eh.
      destruct (Hv j Hj) as (h'&Eh'&Hh). rewrite Eh in Eh'. injection Eh' as <-.
      destruct (lookup_lt_is_Some_2 xs (Z.to_nat j)) as [x Ex]; [lia|].
      exists x. split; [done|]. rewrite (Hd _ _ Ex).
      by replace (Z.to_nat (inputOffset s) + Z.to_nat j)%nat
        with (Z.to_nat (inputOffset s + j)) by lia. }
    split_and!; try done.
    + apply agrees_consistent. change (memory (set_input_file _ _ s1)) with (memory s1).
      rewrite E1, Em. apply (agrees_same ρ _ s1); try done. apply A1.
    + etransitivity; [by apply rt_step_wrapper, Ev|done].
    + cbn. apply u64_small. lia.
  - eapply wp_impl; [apply (concretize_wp ρ); [apply A|done]|].
    intros [] s1 Ev. destruct (rt_step_globals s s1) as (E1&E2&E3); [apply Ev|].
    split_and!; try done; [|by apply rt_step_wrapper, Ev].
    apply agrees_consistent. rewrite E1, Em. by eapply agrees_concretized.
Qed.

(** [read]: the data is in memory, and symbolic iff it comes from the input. *)
Lemma SYM_read_wp ρ s fd buf nbyte xs :
  consistent ρ s → Forall is_byte xs → region buf (Z.of_nat (length xs)) →
  param ρ s 1 64 (u64 buf) → param ρ s 2 64 (u64 nbyte) → arrival ρ s fd xs →
  wp (SYM_read sym_addr fd buf nbyte (Some xs)) s (λ r s',
    r = Z.of_nat (length xs) ∧ consistent ρ s' ∧ wrapper_step s s' ∧
    memory s' = store (memory s) buf xs ∧ g_return_value s' = None ∧
    inputOffset s' = next_offset s fd (Z.of_nat (length xs)) ∧
    received ρ s fd buf (Z.of_nat (length xs)) s').
Proof.
  intros C Hx R P1 P2 Harr.
  assert (∀ v, wrap 64 (u64 v) = u64 v) as Hw by (intros v; apply wrap_wrap).
  eapply wp_seq; [apply (try_parameter_wp ρ); [apply C|done|by rewrite Hw]|].
  intros [] s1 Ev1.
  eapply wp_seq; [apply (try_parameter_wp ρ); [apply Ev1|done|]|].
  { rewrite Hw. by eapply param_evolves. }
  intros [] s2 Ev2'. pose proof (quiet_trans _ _ _ _ Ev1 Ev2') as Ev2. clear Ev1 Ev2'.
  destruct (rt_step_globals s s2) as (M2&_&O2); [apply Ev2|].
  apply agrees_consistent in C as A. eapply agrees_quiet in A; [|exact Ev2].
  eapply wp_seq; [apply wp_and; [apply (store_bytes_wp ρ _ _ _ xs A Hx); intros b; rewrite M2; apply A|
    apply (store_bytes_shadow s2)]|].
  intros [] s3 [(A3&W3&M3&O3) S3].
  eapply wp_seq; [apply wp_and; [by apply (set_return_wp ρ)|apply (set_return_shadow s3)]|].
  intros [] s4 [(A4&W4&M4&R4&O4) S4].
  assert (wrapper_step s s4) as W.
  { etransitivity; [by apply rt_step_wrapper, Ev2|]. by etransitivity. }
  assert (arrival ρ s4 fd xs) as Harr4 by (eapply arrival_step; [exact W|congruence|done]).
  eapply wp_seq; [apply wp_and; [apply (receive_wp ρ (memory s)); [exact A4|congruence|done..]|
    apply (receive_shadow ρ); [apply A4|done|done]]|].
  intros [] s5 [(C5&W5&M5&R5&O5) H5]. apply wp_ret. split_and!; try done.
  - by etransitivity.
  - congruence.
  - congruence.
  - rewrite O5. unfold next_offset. destruct W as (_&_&->&_). by rewrite O4, O3, O2.
  - eapply received_from; [apply W|congruence| |exact H5].
    intros b Hb. rewrite S4, S3. by apply Ev2.
Qed.
End input.

(** *** Memory functions *)

(** Three parameters in a row, as most wrappers try them. *)
Lemma try_three_wp {A} ρ s name v0 i0 v1 i1 v2 i2 (k : M rt A) (Q : A → rt → Prop) :
  shadow_inv ρ s → param ρ s i0 64 (u64 v0) → param ρ s i1 64 (u64 v1) →
  param ρ s i2 64 (u64 v2) →
  (∀ s', evolves ρ s s' (shadow_at s) → wp k s' Q) →
  wp (try_parameter sym_addr v0 64 i0 name ;;; try_parameter sym_addr v1 64 i1 name ;;;
      try_parameter sym_addr v2 64 i2 name ;;; k) s Q.
Proof.
  assert (∀ v, wrap 64 (u64 v) = u64 v) as Hw by (intros v; apply wrap_wrap).
  intros Inv P0 P1 P2 Hk.
  eapply wp_seq; [apply (try_parameter_wp ρ); [done|done|by rewrite Hw]|]. intros [] s1 Ev1.
  eapply wp_seq; [apply (try_parameter_wp ρ); [apply Ev1|done|]|].
  { rewrite Hw. by eapply param_evolves. }
  intros [] s2 Ev2. pose proof (quiet_trans _ _ _ _ Ev1 Ev2) as Ev12.
  eapply wp_seq; [apply (try_parameter_wp ρ); [apply Ev2|done|]|].
  { rewrite Hw. by eapply param_evolves. }
  intros [] s3 Ev3. apply Hk. by eapply quiet_trans.
Qed.

Definition parameter s (i : Z) : SymExpr :=
  default None (g_function_arguments s !! Z.to_nat (u8 i)).

Lemma return_parameter_wp ρ mem s i :
  agrees ρ mem s →
  wp (return_parameter i) s (λ _ s', agrees ρ mem s' ∧ wrapper_step s s' ∧
    memory s' = memory s ∧ g_return_value s' = parameter s i ∧ inputOffset s' = inputOffset s).
Proof. intros A. apply wp_bind, wp_gets. by apply (set_return_wp ρ). Qed.

Lemma set_memory_wp ρ mem s (f : (Z → Z) → Z → Z) :
  agrees ρ mem s → (∀ b, is_byte (f (memory s) b)) →
  wp (modify (λ s, set_memory (f (memory s)) s)) s (λ _ s', agrees ρ mem s' ∧
    wrapper_step s s' ∧ memory s' = f (memory s) ∧ inputOffset s' = inputOffset s).
Proof. intros A H. apply wp_modify. split_and!; try done. by apply (agrees_same ρ mem s). Qed.

(** The outcome of a wrapper that returns its first argument. *)
Definition returns_first ρ s (dest : Z) (mem : Z → Z) : Z → rt → Prop := λ r s',
  r = dest ∧ consistent ρ s' ∧ wrapper_step s s' ∧ memory s' = mem ∧
  g_return_value s' = parameter s 0 ∧ inputOffset s' = inputOffset s.

(** The common end of [memcpy] and [memmove]: the shadow is copied by [m]
    after the memory. *)
Lemma shadow_copy_return ρ mem s s0 dest src n (m : M rt unit) :
  agrees ρ mem s → memory s = copy_bytes mem dest src n → wrapper_step s0 s →
  inputOffset s = inputOffset s0 → region src n →
  wp m s (λ _ s', evolves ρ s s' (copied (shadow_at s) dest src n)) →
  wp (m ;;; return_parameter 0 ;;; ret dest) s
    (returns_first ρ s0 dest (copy_bytes mem dest src n)).
Proof.
  intros A Em W Eo R Hm. eapply wp_seq; [exact Hm|]. intros [] s1 Ev1.
  destruct (rt_step_globals s s1) as (M1&_&O1); [apply Ev1|].
  pose proof (agrees_copied _ _ _ _ _ _ _ A R Ev1) as A1.
  eapply wp_seq; [by apply (return_parameter_wp ρ)|]. intros [] s2 (A2&W2&M2&R2&O2).
  apply wp_ret. assert (wrapper_step s0 s1) as W1.
  { etransitivity; [exact W|]. by apply rt_step_wrapper, Ev1. }
  split_and!; [done| |by etransitivity|congruence| |congruence].
  - apply agrees_consistent. by rewrite M2, M1, Em.
  - rewrite R2. unfold parameter. by destruct W1 as (_&->&_).
Qed.

Section copying.
Context (ρ : env) (s : rt) (dest src n : Z).
Context (C : consistent ρ s) (Rs : region src n) (Rd : region dest n).
Context (P0 : param ρ s 0 64 (u64 dest)) (P1 : param ρ s 1 64 (u64 src))
        (P2 : param ρ s 2 64 (u64 n)).

Lemma copy_bytes_byte b : is_byte (copy_bytes (memory s) dest src n b).
Proof. unfold copy_bytes. case_decide; by eapply consistent_byte. Qed.

Lemma SYM_memcpy_wp :
  dest + n ≤ src ∨ src + n ≤ dest →
  wp (SYM_memcpy sym_addr dest src n) s
    (returns_first ρ s dest (copy_bytes (memory s) dest src n)).
Proof.
  intros Hov. pose proof Rs as (?&?&?). pose proof Rd as (?&?&?).
  unfold SYM_memcpy, libc_memcpy.
  replace ((dest + n <=? src) || (src + n <=? dest) || (n =? 0)) with true by lia.
  pose proof (proj2 (agrees_consistent _ _) C) as A.
  eapply wp_seq; [apply (set_memory_wp ρ _ _ (λ m, copy_bytes m dest src n) A copy_bytes_byte)|].
  intros [] s1 (A1&W1&M1&O1).
  apply (try_three_wp ρ); [apply A1|by eapply param_step..|]. intros s2 Ev2.
  destruct (rt_step_globals s1 s2) as (M2&_&O2); [apply Ev2|].
  apply shadow_copy_return; try done; try congruence.
  - by eapply agrees_quiet.
  - etransitivity; [exact W1|]. by apply rt_step_wrapper, Ev2.
  - apply memcpy_wp; try done; [apply Ev2|lia].
Qed.

Lemma SYM_memmove_wp :
  wp (SYM_memmove sym_addr dest src n) s
    (returns_first ρ s dest (copy_bytes (memory s) dest src n)).
Proof.
  pose proof (proj2 (agrees_consistent _ _) C) as A.
  apply (try_three_wp ρ); [apply C|done..|]. intros s1 Ev1.
  destruct (rt_step_globals s s1) as (M1&_&O1); [apply Ev1|].
  eapply wp_seq; [apply (set_memory_wp ρ (memory s) s1 (λ m, copy_bytes m dest src n));
    [by eapply agrees_quiet|rewrite M1; apply copy_bytes_byte]|].
  intros [] s2 (A2&W2&M2&O2).
  apply shadow_copy_return; try done; try congruence.
  - etransitivity; [by apply rt_step_wrapper, Ev1|done].
  - apply memmove_wp; try done. apply A2.
Qed.

Lemma SYM_bcopy_wp :
  param ρ s 0 64 (u64 src) → param ρ s 1 64 (u64 dest) →
  wp (SYM_bcopy sym_addr src dest n) s (λ _ s', consistent ρ s' ∧ wrapper_step s s' ∧
    memory s' = copy_bytes (memory s) dest src n ∧ g_return_value s' = None).
Proof.
  intros Q0 Q1. pose proof (proj2 (agrees_consistent _ _) C) as A.
  apply (try_three_wp ρ); [apply C|done..|]. intros s1 Ev1.
  destruct (rt_step_globals s s1) as (M1&_&O1); [apply Ev1|].
  eapply wp_seq; [apply (set_memory_wp ρ (memory s) s1 (λ m, copy_bytes m dest src n));
    [by eapply agrees_quiet|rewrite M1; apply copy_bytes_byte]|].
  intros [] s2 (A2&W2&M2&O2). eapply wp_seq; [apply (memmove_wp ρ s2 dest src n); try done; apply A2|].
  intros [] s3 Ev3. destruct (rt_step_globals s2 s3) as (M3&_&O3); [apply Ev3|].
  pose proof (agrees_copied _ _ _ _ _ _ _ A2 Rs Ev3) as A3.
  eapply wp_impl; [by apply (set_return_wp ρ)|]. intros [] s4 (A4&W4&M4&R4&O4). split_and!; try done.
  - apply agrees_consistent. by rewrite M4, M3, M2, M1.
  - etransitivity; [by apply rt_step_wrapper, Ev1|]. etransitivity; [exact W2|].
    etransitivity; [by apply rt_step_wrapper, Ev3|exact W4].
  - by rewrite M4, M3, M2, M1.
Qed.
End copying.

Lemma SYM_bzero_wp ρ s a n :
  consistent ρ s → region a n → param ρ s 0 64 (u64 a) → param ρ s 1 64 (u64 n) →
  wp (SYM_bzero sym_addr a n) s (λ _ s', consistent ρ s' ∧ wrapper_step s s' ∧
    memory s' = set_bytes (memory s) a n 0 ∧ g_return_value s' = None).
Proof.
  intros C R P0 P1. assert (∀ v, wrap 64 (u64 v) = u64 v) as Hw by (intros v; apply wrap_wrap).
  pose proof (proj2 (agrees_consistent _ _) C) as A. unfold SYM_bzero, libc_memset.
  eapply wp_seq; [apply (set_memory_wp ρ (memory s) s (λ m, set_bytes m a n (u8 0))); [done|]|].
  { intros b. unfold set_bytes. case_decide; [done|by eapply consistent_byte]. }
  intros [] s1 (A1&W1&M1&O1). eapply wp_seq; [by apply (set_return_wp ρ)|].
  intros [] s2 (A2&W2&M2&R2&O2).
  eapply wp_seq; [apply (try_parameter_wp ρ); [apply A2|done|rewrite Hw]|].
  { eapply param_step; [exact W2|]. by eapply param_step. }
  intros [] s3 Ev3. eapply wp_seq; [apply (try_parameter_wp ρ); [apply Ev3|done|rewrite Hw]|].
  { eapply param_evolves; [exact Ev3|]. eapply param_step; [exact W2|]. by eapply param_step. }
  intros [] s4 Ev4. pose proof (quiet_trans _ _ _ _ Ev3 Ev4) as Ev.
  eapply wp_impl; [apply (fill_wp ρ s4 a n None); [apply Ev|done|done]|].
  intros [] s5 Ev5. destruct (rt_step_globals s2 s4) as (M4&R4&_); [apply Ev|].
  destruct (rt_step_globals s4 s5) as (M5&R5&_); [apply Ev5|].
  assert (agrees ρ (set_bytes (memory s) a n (u8 0)) s5) as A5.
  { eapply agrees_evolves; [eapply agrees_quiet; [exact A2|exact Ev]|exact Ev5|..].
    - intros b. unfold set_bytes. case_decide; [done|by eapply consistent_byte].
    - intros b h Hb E. unfold filled in E. unfold set_bytes. case_decide; [done|]. by left. }
  split_and!.
  - apply agrees_consistent. rewrite M5, M4, M2, M1. exact A5.
  - etransitivity; [exact W1|]. etransitivity; [exact W2|]. etransitivity; apply rt_step_wrapper; [apply Ev|apply Ev5].
  - by rewrite M5, M4, M2, M1.
  - by rewrite R5, R4.
Qed.

(** *** Characters and integers *)
Lemma wp_backend_agrees {A} ρ mem s (m : M bstate A) P (Q : A → rt → Prop) :
  agrees ρ mem s → returns binv bext m (rt_backend s) P →
  (∀ r s', agrees ρ mem s' → rt_step s s' → P r (rt_backend s') → Q r s') →
  wp (backend m) s Q.
Proof.
  intros A0 Hm HQ. eapply wp_backend_quiet; [apply A0|exact Hm|].
  intros r s' Ev HP. apply HQ; [by eapply agrees_quiet|apply Ev|done].
Qed.

Lemma SYM_getc_wp {IS : InputSpec B BS} ρ s stream c :
  consistent ρ s → is_byte c → arrival ρ s stream [c] →
  wp (SYM_getc stream c) s (λ r s',
    r = c ∧ consistent ρ s' ∧ wrapper_step s s' ∧ memory s' = memory s ∧
    inputOffset s' = next_offset s stream 1 ∧
    match g_return_value s' with
    | Some h => stream = inputFileDescriptor s ∧ rep ρ (rt_backend s') h (VBV 32 c)
    | None => stream ≠ inputFileDescriptor s
    end).
Proof.
  intros C Hc Harr. apply agrees_consistent in C as A. unfold is_byte in Hc.
  unfold SYM_getc, EOF. replace (c =? -1) with false by lia. apply wp_bind, wp_get.
  unfold next_offset. destruct (Z.eqb_spec stream (inputFileDescriptor s)) as [E|E].
  2:{ eapply wp_seq; [by apply (set_return_wp ρ)|]. intros [] s1 (A1&W1&M1&R1&O1).
      apply wp_ret. rewrite R1. split_and!; try done.
      apply agrees_consistent. by rewrite M1. }
  destruct (Harr E) as (_&?&Ho&Hd&n&?&Hn). cbn [length] in Ho.
  specialize (Hd 0%nat c eq_refl). rewrite Nat.add_0_r in Hd.
  rewrite u64_small by lia.
  set (s1 := set_input_file (inputFileDescriptor s) (inputOffset s + 1) s).
  assert (agrees ρ (memory s) s1) as A1 by (apply (agrees_same ρ _ s); try done; apply A).
  eapply wp_seq with (P := λ _ s', agrees ρ (memory s) s' ∧ wrapper_step s1 s' ∧
    memory s' = memory s ∧ inputOffset s' = inputOffset s1 ∧
    ∃ h, g_return_value s' = Some h ∧ rep ρ (rt_backend s') h (VBV 32 c)).
  - apply wp_bind, wp_modify. fold s1. apply wp_bind.
    eapply wp_backend_agrees; [exact A1|apply (get_input_byte_spec ρ _ n); [apply A|done|lia]|].
    intros e s2 A2 St2 ((b&->&Hb)&_). rewrite <-Hd in Hb. apply wp_bind.
    eapply wp_backend_agrees; [exact A2|apply (zext_ok ρ _ _ 8 c); [apply A2|done|lia]|].
    intros e s3 A3 St3 (h&->&Hh).
    assert (rt_step s1 s3) as St by (by etransitivity).
    destruct (rt_step_globals _ _ St) as (M3&_&O3).
    eapply wp_impl; [by apply (set_return_wp ρ)|]. intros [] s4 (A4&W4&M4&R4&O4).
    split_and!; try done.
    + etransitivity; [by apply rt_step_wrapper|done].
    + by rewrite M4, M3.
    + by rewrite O4, O3.
    + exists h. split; [done|]. eapply rep_mono; [apply W4|done].
  - intros [] s4 (A4&W4&M4&O4&h&R4&Hh). apply wp_ret. rewrite R4.
    split_and!; try done. apply agrees_consistent. by rewrite M4.
Qed.

Lemma SYM_ntohl_wp ρ s netlong :
  consistent ρ s → 0 ≤ netlong < 2 ^ 32 → param ρ s 0 32 netlong →
  wp (SYM_ntohl netlong) s (λ r s',
    r = of_be (rev (to_be 4 netlong)) ∧ consistent ρ s' ∧ memory s' = memory s ∧ wrapper_step s s' ∧
    match g_return_value s' with
    | Some h => rep ρ (rt_backend s') h (VBV 32 r)
    | None => parameter s 0 = None
    end).
Proof.
  intros C Hn P0. apply agrees_consistent in C as A. unfold SYM_ntohl, param, parameter in *.
  apply wp_bind, wp_gets.
  destruct (default None (g_function_arguments s !! Z.to_nat (u8 0))) as [h|] eqn:E.
  - destruct (g_function_arguments s !! Z.to_nat (u8 0)) as [[h'|]|]; cbn in E; simplify_eq.
    assert (bytes_value (to_be 4 netlong) = VBV 32 netlong) as Eb
      by (apply bytes_value_to_be; lia).
    rewrite <-Eb in P0. apply wp_bind.
    eapply wp_backend_agrees; [exact A| |].
    { eapply (build_bswap_bytes ρ _ h (to_be 4 netlong)); try done; [apply A|apply to_be_bytes]. }
    intros e s1 A1 St1 (h2&->&Hh2). eapply wp_seq; [by apply (set_return_wp ρ)|].
    intros [] s2 (A2&W2&M2&R2&O2). apply wp_ret. rewrite R2.
    destruct (rt_step_globals _ _ St1) as (M1&_&_). split_and!; try done.
    + apply agrees_consistent. by rewrite M2, M1.
    + congruence.
    + etransitivity; [by apply rt_step_wrapper|done].
    + eapply rep_mono; [apply W2|]. exact Hh2.
  - eapply wp_seq; [by apply (set_return_wp ρ)|]. intros [] s1 (A1&W1&M1&R1&O1).
    apply wp_ret. rewrite R1. split_and!; try done. apply agrees_consistent. by rewrite M1.
Qed.

(** *** Comparisons *)
Lemma nonnull_value_wp ρ s0 s it :
  consistent ρ s0 → evolves ρ s0 s (shadow_at s0) → rd_ok s0 s it →
  wp (nonnull_deref it) s (λ e s', evolves ρ s0 s' (shadow_at s0) ∧ rt_step s s' ∧
    ∃ h, e = Some h ∧ rep ρ (rt_backend s') h (VBV 8 (memory s0 (address_ it)))).
Proof.
  intros C Ev R. eapply wp_impl; [by eapply nonnull_deref_ok|].
  intros e s' (Ev'&St&_&h&->&Hh). split_and!; [done..|]. exists h. split; [done|].
  destruct Hh as [E|[_ Hh]].
  - eapply rep_mono; [apply Ev'|]. apply consistent_expr; try done. apply R.
  - rewrite (rt_step_memory s0 s) in Hh by apply Ev. done.
Qed.

Lemma libc_memcmp_snoc mem a b n :
  (libc_memcmp mem a b (S n) =? 0) =
  (libc_memcmp mem a b n =? 0) && (mem (a + Z.of_nat n) =? mem (b + Z.of_nat n)).
Proof.
  revert a b. induction n as [|n IH]; intros a b.
  - cbn. rewrite !Z.add_0_r. destruct (Z.eqb_spec (mem a) (mem b)); [done|]. lia.
  - change (libc_memcmp mem a b (S (S n))) with
      (if mem a =? mem b then libc_memcmp mem (a + 1) (b + 1) (S n) else Z.sgn (mem a - mem b)).
    change (libc_memcmp mem a b (S n)) with
      (if mem a =? mem b then libc_memcmp mem (a + 1) (b + 1) n else Z.sgn (mem a - mem b)).
    destruct (Z.eqb_spec (mem a) (mem b)).
    + rewrite IH. f_equal. f_equal; f_equal; lia.
    + replace (Z.sgn (mem a - mem b) =? 0) with false by lia. done.
Qed.

Lemma bool_and_ok ρ (s : bstate) x y (u v : bool) :
  binv s → rep ρ s x (VBool u) → rep ρ s y (VBool v) →
  builds ρ (_sym_build_bool_and (Some x) (Some y)) s (VBool (u && v)).
Proof. intros. by eapply build_binary_spec. Qed.

Section compare.
Context (ρ : env) (s0 : rt) (a b n : Z).
Context (C : consistent ρ s0) (Ra : region a n) (Rb : region b n).

(** The first [i] bytes are equal. *)
Definition equal_prefix (i : nat) : bool := libc_memcmp (memory s0) a b i =? 0.

Lemma all_equal_loop_wp k i s aIt bIt h :
  Z.of_nat i + 1 + Z.of_nat k = n →
  address_ aIt = a + Z.of_nat i → address_ bIt = b + Z.of_nat i →
  rd_ok s0 s aIt → rd_ok s0 s bIt → evolves ρ s0 s (shadow_at s0) →
  rep ρ (rt_backend s) h (VBool (equal_prefix (S i))) →
  wp (all_equal_loop k aIt bIt (Some h)) s (λ e s', evolves ρ s0 s' (shadow_at s0) ∧
    ∃ h', e = Some h' ∧ rep ρ (rt_backend s') h' (VBool (equal_prefix (Z.to_nat n)))).
Proof.
  destruct Ra as (?&?&?), Rb as (?&?&?).
  revert i s aIt bIt h. induction k as [|k IH]; intros i s aIt bIt h Hn Aa Ab Ia Ib Ev Hh;
    cbn [all_equal_loop].
  { apply wp_ret. split; [done|]. exists h. split; [done|].
    by replace (Z.to_nat n) with (S i) by lia. }
  pose proof Ev as ((_&Mo&_)&_).
  eapply wp_seq; [by apply (read_step_ok s0); [| |unfold valid; lia]|]. intros aIt1 ? (->&Ia1&Aa1).
  eapply wp_seq; [by apply (read_step_ok s0); [| |unfold valid; lia]|]. intros bIt1 ? (->&Ib1&Ab1).
  eapply wp_seq; [by apply (nonnull_value_wp ρ s0)|]. intros x s1 (Ev1&St1&hx&->&Hx).
  eapply wp_seq; [apply (nonnull_value_wp ρ s0);
    [done|done|exact (rd_ok_mono _ _ _ _ St1 Ib1)]|].
  intros y s2 (Ev2&St2&hy&->&Hy). rewrite Aa1, Aa in Hx. rewrite Ab1, Ab in Hy.
  apply wp_bind. eapply wp_backend; [exact Ev2| |].
  { eapply (equal_ok ρ); [apply Ev2|eapply rep_mono; [apply St2|exact Hx]|exact Hy]. }
  intros e s3 Ev3 St3 _ (he&->&He). apply wp_bind.
  assert (rt_step s s3) as St by (etransitivity; [exact St1|by etransitivity]).
  eapply wp_backend; [exact Ev3| |].
  { eapply (bool_and_ok ρ); [apply Ev3|eapply rep_mono; [apply St|exact Hh]|exact He]. }
  intros e s4 Ev4 St4 _ (h4&->&Hh4).
  assert (rt_step s s4) as St' by (by etransitivity).
  apply (IH (S i)); try done; try lia;
    [exact (rd_ok_mono _ _ _ _ St' Ia1)|exact (rd_ok_mono _ _ _ _ St' Ib1)|].
  unfold equal_prefix in *. rewrite libc_memcmp_snoc.
  replace (a + Z.of_nat (S i)) with (a + Z.of_nat i + 1) by lia.
  by replace (b + Z.of_nat (S i)) with (b + Z.of_nat i + 1) by lia.
Qed.

(** The expression [memcmp] and [bcmp] build says whether the regions are
    equal. *)
Lemma all_equal_wp s :
  0 < n → evolves ρ s0 s (shadow_at s0) →
  wp (all_equal a b n) s (λ e s', evolves ρ s0 s' (shadow_at s0) ∧
    ∃ h, e = Some h ∧
      rep ρ (rt_backend s') h (VBool (libc_memcmp (memory s0) a b (Z.to_nat n) =? 0))).
Proof.
  intros Hn Ev. destruct Ra as (?&?&?), Rb as (?&?&?). pose proof Ev as ((_&Mo&_)&_).
  assert (valid a ∧ valid b) as [? ?] by (unfold valid; lia). unfold all_equal.
  eapply wp_seq; [by apply (read_new s0)|]. intros aIt ? (->&Ia&Aa).
  eapply wp_seq; [by apply (read_new s0)|]. intros bIt ? (->&Ib&Ab).
  eapply wp_seq; [by apply (nonnull_value_wp ρ s0)|]. intros x s1 (Ev1&St1&hx&->&Hx).
  eapply wp_seq; [apply (nonnull_value_wp ρ s0);
    [done|done|exact (rd_ok_mono _ _ _ _ St1 Ib)]|].
  intros y s2 (Ev2&St2&hy&->&Hy). rewrite Aa in Hx. rewrite Ab in Hy.
  apply wp_bind. eapply wp_backend; [exact Ev2| |].
  { eapply (equal_ok ρ); [apply Ev2|eapply rep_mono; [apply St2|exact Hx]|exact Hy]. }
  intros e s3 Ev3 St3 _ (he&->&He).
  assert (rt_step s s3) as St by (etransitivity; [exact St1|by etransitivity]).
  apply (all_equal_loop_wp _ 0); try done; try lia;
    [exact (rd_ok_mono _ _ _ _ St Ia)|exact (rd_ok_mono _ _ _ _ St Ib)|].
  unfold equal_prefix. rewrite libc_memcmp_snoc. cbn. by rewrite !Z.add_0_r.
Qed.
End compare.

Lemma compare_wp ρ s name a b n :
  consistent ρ s → region a n → region b n →
  param ρ s 0 64 (u64 a) → param ρ s 1 64 (u64 b) → param ρ s 2 64 (u64 n) →
  wp (compare sym_addr name a b n) s (λ r s',
    r = libc_memcmp (memory s) a b (Z.to_nat n) ∧ consistent ρ s' ∧
    memory s' = memory s ∧ g_return_value s' = None ∧ inputOffset s' = inputOffset s ∧
    wrapper_step s s').
Proof.
  intros C Ra Rb P0 P1 P2. unfold compare.
  apply (try_three_wp ρ); [apply C|done..|]. intros s1 Ev1.
  destruct (rt_step_globals s s1) as (M1&_&O1); [apply Ev1|]. apply wp_bind, wp_get. rewrite M1.
  apply agrees_consistent in C as A. eapply agrees_quiet in A; [|exact Ev1].
  eapply wp_seq; [by apply (set_return_wp ρ)|]. intros [] s2 (A2&W2&M2&R2&O2).
  rewrite <-M1, <-M2 in A2. apply agrees_consistent in A2 as C2.
  eapply wp_seq; [apply (both_concrete_wp ρ); [apply C2|done..]|]. intros c s3 (Ev3&Hc).
  assert (∀ s', evolves ρ s2 s' (shadow_at s2) → consistent ρ s' ∧
    memory s' = memory s ∧ g_return_value s' = None ∧ inputOffset s' = inputOffset s ∧
    wrapper_step s s') as Fin.
  { intros s' Ev. destruct (rt_step_globals s2 s') as (M'&R'&O'); [apply Ev|].
    split_and!; [|congruence..|].
    - apply agrees_consistent. rewrite M'. by eapply agrees_quiet.
    - etransitivity; [by apply rt_step_wrapper, Ev1|]. etransitivity; [exact W2|].
      by apply rt_step_wrapper, Ev. }
  destruct c; [apply wp_ret; split; [done|by apply Fin]|].
  assert (0 < n).
  { destruct (decide (0 < n)); [done|]. exfalso.
    assert (false = true); [|done]. apply Hc. split; intros j ?; lia. }
  eapply wp_seq; [by apply (all_equal_wp ρ s2)|]. intros e s4 (Ev4&h&->&Hh).
  apply wp_bind. eapply (wp_backend ρ s2); [exact Ev4| |].
  { apply push_path_constraint_spec; [apply Ev4|]. right. eauto. }
  intros _ s5 Ev5 _ _ _. apply wp_ret. split; [done|by apply Fin].
Qed.
End spec.
