(* ===== verification/Startup.v ===== *)
(** * Initialisation of the run-time library

    [_sym_initialize] of the simple backend as a whole: the configuration is
    read (Config.v), the libc wrappers are set up (LibcWrappers.v) and the
    solver is created (SimpleBackend.v).  The state it reaches is the one from
    which the other theorems start. *)

From S2P Require Import Prelude Smt Z3Api Interface ByteSeq Config State Shadow Memory.
From S2P Require Import LibcWrappers LibcSpec SimpleBackend SimpleSpec.

#[local] Open Scope Z_scope.

Section startup.
Context {Z3I : Z3}.

#[local] Abbreviation rt := (@rt simple_backend).

(** [g_initialized.test_and_set()]. *)
Definition _sym_initialize (getenv : string → option string) : M rt unit :=
  s <- get ;;
  if g_initialized (rt_backend s : state) then ret tt
  else
    backend (modify (set_initialized : @bstate simple_backend → @bstate simple_backend)) ;;;
    zoom g_config set_config (loadConfig getenv) ;;;
    initLibcWrappers ;;;
    backend (init_solver : M (@bstate simple_backend) unit).

(** The state in which the program starts. *)
Definition program_start (mem : Z → Z) (cells : Z → option ast) : rt :=
  initial_rt (uninitialized : @bstate simple_backend) mem cells.

Context {ZL : Z3Laws Z3I}.

Lemma sym_initialize_once getenv (s : rt) :
  g_initialized (rt_backend s : state) = true → _sym_initialize getenv s = Ok tt s.
Proof. intros H. unfold _sym_initialize, bind, get. by rewrite H. Qed.

Lemma sym_initialize_ok getenv mem cells (ρ : RunInput) :
  env_ok getenv → (∀ a, is_byte (mem a)) →
  wp (_sym_initialize getenv) (program_start mem cells) (λ _ s,
    consistent ρ s ∧ memory s = mem ∧ g_config s = config_of getenv default_config ∧
    inputFileDescriptor s = (if decide (input (g_config s) = StdinInput) then 0 else -1) ∧
    inputOffset s = 0 ∧ inputs_read (rt_backend s) 0 ∧ g_return_value s = None ∧
    g_function_arguments s = replicate (Z.to_nat kMaxFunctionArguments) None).
Proof.
  intros He Hm. unfold _sym_initialize. apply wp_bind, wp_get. cbn [g_initialized].
  destruct (loadConfig_spec getenv default_config) as [HL _]; [done|]. specialize (HL He).
  destruct init_solver_post as ([]&b&Eb&Ib&Hb).
  set (s1 := set_config (config_of getenv default_config)
               (set_backend (set_initialized uninitialized : @bstate simple_backend)
                            (program_start mem cells))).
  eapply wp_seq with (P := λ _ s, s = set_backend
    (set_initialized uninitialized : @bstate simple_backend) (program_start mem cells)).
  { by eexists tt, _. }
  intros _ ? ->. eapply wp_seq with (P := λ _ s, s = s1).
  { eexists tt, _. split; [|done]. unfold zoom. cbn. by rewrite HL. }
  intros _ ? ->. eapply wp_seq with (P := λ _ s, s = set_input_file
    (if decide (input (g_config s1) = StdinInput) then 0 else -1) 0 s1).
  { unfold initLibcWrappers. apply wp_bind, wp_get.
    destruct (input (g_config s1)); by eexists tt, _. }
  intros _ ? ->. eexists tt, _. split.
  { unfold backend, zoom. cbn -[init_solver]. by rewrite Eb. }
  assert (inputs_read (b : state) 0) as Hin by (split; [done|]; by rewrite Hb).
  assert (run_state (R := ρ) (b : state)) as HL0.
  { split; [rewrite Hb; by split; constructor|by exists 0]. }
  by split_and!.
Qed.

Lemma sym_initialize_error getenv mem cells :
  ¬ env_ok getenv →
  ∃ msg, _sym_initialize getenv (program_start mem cells) = Err (Throw msg).
Proof.
  intros He. destruct (loadConfig_spec getenv default_config) as [_ HL]; [done|].
  destruct (HL He) as [msg E]. exists msg.
  unfold _sym_initialize, bind, get, zoom. cbn. by rewrite E.
Qed.
End startup.
