(* ===== verification/Qsym.v ===== *)
(** * The QSYM backend

    Models runtime/src/backends/qsym/Runtime.cpp.  The expression library and
    the solver of QSYM are not in the repository: class [Qsym] lists the calls
    that the backend makes, on a state [world] of their own.  An [ExprRef] is a
    [std::shared_ptr<qsym::Expr>], an [Expr] the address of an object; the
    library of the run time hands out addresses and keeps one shared pointer
    for each in [allocatedExpressions].  QSYM holds the widths of expressions in
    32 bits; the additions to a width are not wrapped here. *)

From S2P Require Import Prelude Interface Config State Shadow Memory GarbageCollection.
From S2P Require Import LibcWrappers.
From Stdlib Require Import SpecFloat.

#[local] Open Scope Z_scope.

(** The methods of [ExprBuilder]. *)
Inductive create_op : Type :=
| createConstant (value bits : Z) | createTrue | createFalse | createBool (b : bool)
| createRead (offset : Z)
| createAdd | createSub | createMul | createUDiv | createSDiv | createURem | createSRem
| createShl | createLShr | createAShr
| createSlt | createSle | createSgt | createSge | createUlt | createUle | createUgt | createUge
| createEqual | createDistinct | createLAnd | createAnd | createLOr | createOr | createXor
| createNeg | createNot | createIte
| createSExt (bits : Z) | createZExt (bits : Z) | createTrunc (bits : Z)
| createConcat | createExtract (index bits : Z) | boolToBit (bits : Z).

Class Qsym : Type := {
  Expr : Type;
  Expr_eq_dec :: EqDecision Expr;
  Expr_countable :: Countable Expr;
  ExprRef : Type;
  ref_get : ExprRef → Expr;
  world : Type;
  (** [PruneExprBuilder::create()], [SymbolicExprBuilder::create()]. *)
  ExprBuilder : Type;
  create_builder : bool → M world ExprBuilder;
  create : ExprBuilder → create_op → list ExprRef → M world ExprRef;
  (** [expr->bits()], on an address. *)
  Expr_bits : Expr → M world Z;
  Expr_simplify : Expr → M world unit;
  (** The solver; [inputs_] is a member that the backend writes. *)
  create_solver : string → string → M world unit;
  addJcc : list Z → ExprRef → bool → Z → M world unit;
  solver_push : M world unit;
  solver_add : Expr → M world unit;
  solver_check : M world bool;
  solver_pop : M world unit;
  Solver_saveValues : string → M world unit;
  getConcreteValues : M world (list Z);
  (** [CallStackManager]. *)
  visitCall : Z → M world unit;
  visitRet : Z → M world unit;
  visitBasicBlock : Z → M world unit;
  (** The destruction of shared pointers. *)
  release : list ExprRef → M world unit;
}.

Section qsym.
Context {Q : Qsym}.

(** The globals of the file. [g_test_case_handler] is the address of a
    function. *)
Record qstate : Type := {
  g_initialized : bool;
  g_expr_builder : option ExprBuilder;
  allocatedExpressions : gmap Expr ExprRef;
  inputs_ : list Z;
  g_test_case_handler : option Z;
  q_world : world;
}.

Definition set_world w (s : qstate) : qstate := {|
  g_initialized := g_initialized s; g_expr_builder := g_expr_builder s;
  allocatedExpressions := allocatedExpressions s; inputs_ := inputs_ s;
  g_test_case_handler := g_test_case_handler s; q_world := w |}.
Definition set_allocated m (s : qstate) : qstate := {|
  g_initialized := g_initialized s; g_expr_builder := g_expr_builder s;
  allocatedExpressions := m; inputs_ := inputs_ s;
  g_test_case_handler := g_test_case_handler s; q_world := q_world s |}.
Definition set_inputs l (s : qstate) : qstate := {|
  g_initialized := g_initialized s; g_expr_builder := g_expr_builder s;
  allocatedExpressions := allocatedExpressions s; inputs_ := l;
  g_test_case_handler := g_test_case_handler s; q_world := q_world s |}.
Definition set_builder b (s : qstate) : qstate := {|
  g_initialized := g_initialized s; g_expr_builder := b;
  allocatedExpressions := allocatedExpressions s; inputs_ := inputs_ s;
  g_test_case_handler := g_test_case_handler s; q_world := q_world s |}.
Definition set_initialized (s : qstate) : qstate := {|
  g_initialized := true; g_expr_builder := g_expr_builder s;
  allocatedExpressions := allocatedExpressions s; inputs_ := inputs_ s;
  g_test_case_handler := g_test_case_handler s; q_world := q_world s |}.
Definition set_handler h (s : qstate) : qstate := {|
  g_initialized := g_initialized s; g_expr_builder := g_expr_builder s;
  allocatedExpressions := allocatedExpressions s; inputs_ := inputs_ s;
  g_test_case_handler := h; q_world := q_world s |}.

#[local] Abbreviation M := (M qstate).
#[local] Abbreviation SymExpr := (option Expr).

Definition on_world {A} (m : Prelude.M world A) : M A := zoom q_world set_world m.

Definition registerExpression (expr : ExprRef) : M SymExpr :=
  let rawExpr := ref_get expr in
  s <- get ;;
  (match allocatedExpressions s !! rawExpr with
   | None => modify (set_allocated (<[rawExpr := expr]> (allocatedExpressions s)))
   | Some _ => ret tt
   end) ;;;
  ret (Some rawExpr).

(** [allocatedExpressions.at(e)]. *)
Definition at_ (e : SymExpr) : M ExprRef :=
  s <- get ;;
  match e with
  | Some h => match allocatedExpressions s !! h with
              | Some r => ret r
              | None => fail (Throw "map::at")
              end
  | None => fail (Throw "map::at")
  end.

Fixpoint at_all (l : list SymExpr) : M (list ExprRef) :=
  match l with
  | [] => ret []
  | e :: l' => r <- at_ e ;; rs <- at_all l' ;; ret (r :: rs)
  end.

(** [registerExpression(g_expr_builder->create...(allocatedExpressions.at(a), ...))]. *)
Definition build (op : create_op) (args : list SymExpr) : M SymExpr :=
  rs <- at_all args ;;
  s <- get ;;
  match g_expr_builder s with
  | None => fail (Undefined "null expression builder")
  | Some b => r <- on_world (create b op rs) ;; registerExpression r
  end.

(** [expr->bits()]. *)
Definition bits (expr : SymExpr) : M Z :=
  match expr with
  | Some h => on_world (Expr_bits h)
  | None => fail (Undefined "null expression")
  end.

(** ** Constants (on a 64-bit system) *)
Definition _sym_build_integer (value bits : Z) : M SymExpr :=
  build (createConstant (u64 value) (u8 bits)) [].

(** The words of [llvm::APInt], least significant first. *)
Fixpoint apint (words : list Z) : Z :=
  match words with [] => 0 | w :: words' => u64 w + 2 ^ 64 * apint words' end.

Definition _sym_build_integer128 (high low : Z) : M SymExpr :=
  build (createConstant (apint [low; high]) 128) [].

Definition _sym_build_integer_from_buffer (buffer : list Z) (num_bits : Z) : M SymExpr :=
  assert_ (num_bits mod 64 =? 0) "num_bits % 64 == 0" ;;;
  build (createConstant (apint (take (Z.to_nat (num_bits / 64)) buffer)) num_bits) [].

Definition _sym_build_null_pointer : M SymExpr := build (createConstant 0 64) [].
Definition _sym_build_true : M SymExpr := build createTrue [].
Definition _sym_build_false : M SymExpr := build createFalse [].
Definition _sym_build_bool (value : bool) : M SymExpr := build (createBool value) [].

(** ** Operations *)
Definition qsymName (op : sym_binop) : create_op :=
  match op with
  | B_add => createAdd
  | B_sub => createSub
  | B_mul => createMul
  | B_unsigned_div => createUDiv
  | B_signed_div => createSDiv
  | B_unsigned_rem => createURem
  | B_signed_rem => createSRem
  | B_shift_left => createShl
  | B_logical_shift_right => createLShr
  | B_arithmetic_shift_right => createAShr
  | B_signed_less_than => createSlt
  | B_signed_less_equal => createSle
  | B_signed_greater_than => createSgt
  | B_signed_greater_equal => createSge
  | B_unsigned_less_than => createUlt
  | B_unsigned_less_equal => createUle
  | B_unsigned_greater_than => createUgt
  | B_unsigned_greater_equal => createUge
  | B_equal => createEqual
  | B_not_equal => createDistinct
  | B_bool_and => createLAnd
  | B_and => createAnd
  | B_bool_or => createLOr
  | B_or => createOr
  | B_bool_xor => createDistinct
  | B_xor => createXor
  end.

Definition sym_build_binary (op : sym_binop) (a b : SymExpr) : M SymExpr :=
  build (qsymName op) [a; b].

Definition _sym_build_neg (expr : SymExpr) : M SymExpr := build createNeg [expr].
Definition _sym_build_not (expr : SymExpr) : M SymExpr := build createNot [expr].
Definition _sym_build_ite (cond a b : SymExpr) : M SymExpr := build createIte [cond; a; b].

Definition _sym_build_sext (expr : SymExpr) (k : Z) : M SymExpr :=
  match expr with
  | None => ret None
  | Some _ => n <- bits expr ;; build (createSExt (u8 k + n)) [expr]
  end.

Definition _sym_build_zext (expr : SymExpr) (k : Z) : M SymExpr :=
  match expr with
  | None => ret None
  | Some _ => n <- bits expr ;; build (createZExt (u8 k + n)) [expr]
  end.

Definition _sym_build_trunc (expr : SymExpr) (k : Z) : M SymExpr :=
  match expr with
  | None => ret None
  | Some _ => build (createTrunc (u8 k)) [expr]
  end.

Definition _sym_build_bool_to_bit (expr : SymExpr) : M SymExpr :=
  match expr with
  | None => ret None
  | Some _ => build (boolToBit 1) [expr]
  end.

Definition _sym_concat_helper (a b : SymExpr) : M SymExpr := build createConcat [a; b].

Definition _sym_extract_helper (expr : SymExpr) (first_bit last_bit : Z) : M SymExpr :=
  build (createExtract (u32 last_bit) (u32 (u64 (first_bit - last_bit + 1)))) [expr].

Definition _sym_bits_helper (expr : SymExpr) : M Z := bits expr.

(** ** Path constraints and input *)
Definition _sym_push_path_constraint (constraint : SymExpr) (taken : bool) (site_id : Z) : M unit :=
  match constraint with
  | None => ret tt
  | Some _ =>
      r <- at_ constraint ;;
      s <- get ;;
      on_world (addJcc (inputs_ s) r taken site_id)
  end.

(** [resize] fills with zeroes. *)
Definition pushInputByte (offset value : Z) : M unit :=
  modify (λ s,
    let l := if Z.of_nat (length (inputs_ s)) <=? offset
             then inputs_ s ++ replicate (Z.to_nat (offset + 1) - length (inputs_ s)) 0
             else inputs_ s in
    set_inputs (<[Z.to_nat offset := u8 value]> l) s).

Definition _sym_get_input_byte (offset value : Z) : M SymExpr :=
  pushInputByte offset value ;;; build (createRead offset) [].

Definition _sym_get_input_byte_with_prefix (_prefix : string) (offset value : Z) : M SymExpr :=
  pushInputByte offset value ;;; build (createRead offset) [].

(** ** Floating point, which QSYM does not support *)
Definition _sym_build_float (_value : spec_float) (is_double : bool) : M SymExpr :=
  build (createConstant 0 (if is_double then 64 else 32)) [].
Definition _sym_build_float_to_bits (expr : SymExpr) : M SymExpr := ret expr.

(** The macro UNSUPPORTED. *)
Definition unsupported : M SymExpr := ret None.

(** ** Call stack, feasibility *)
Definition _sym_notify_call (site_id : Z) : M unit := on_world (visitCall site_id).
Definition _sym_notify_ret (site_id : Z) : M unit := on_world (visitRet site_id).
Definition _sym_notify_basic_block (site_id : Z) : M unit := on_world (visitBasicBlock site_id).

Definition _sym_feasible (expr : SymExpr) : M bool :=
  match expr with
  | None => fail (Undefined "null expression")
  | Some h =>
      on_world (Expr_simplify h) ;;;
      on_world solver_push ;;;
      on_world (solver_add h) ;;;
      feasible <- on_world solver_check ;;
      on_world solver_pop ;;;
      ret feasible
  end.

Definition symcc_set_test_case_handler (handler : Z) : M unit := modify (set_handler (Some handler)).

(** The backend as an instance of the interface.  [_sym_get_integer] is not
    defined in the file. *)
Instance qsym_backend : Backend := {|
  handle := Expr;
  bstate := qstate;
  Interface._sym_build_integer := _sym_build_integer;
  Interface._sym_build_bool := _sym_build_bool;
  Interface.sym_build_binary := sym_build_binary;
  Interface._sym_build_neg := _sym_build_neg;
  Interface._sym_build_not := _sym_build_not;
  Interface._sym_build_ite := _sym_build_ite;
  Interface._sym_build_sext := _sym_build_sext;
  Interface._sym_build_zext := _sym_build_zext;
  Interface._sym_build_trunc := _sym_build_trunc;
  Interface._sym_build_bool_to_bit := _sym_build_bool_to_bit;
  Interface._sym_concat_helper := _sym_concat_helper;
  Interface._sym_extract_helper := _sym_extract_helper;
  Interface._sym_bits_helper := _sym_bits_helper;
  Interface._sym_push_path_constraint := _sym_push_path_constraint;
  Interface._sym_get_input_byte := _sym_get_input_byte;
  Interface._sym_get_input_byte_with_prefix := _sym_get_input_byte_with_prefix;
  Interface._sym_get_integer := λ _, fail (Undefined "_sym_get_integer is not defined");
|}.

#[local] Abbreviation rt := (@rt qsym_backend).

(** [saveValues]: a handler that is instrumented is called with concrete
    arguments. *)
Definition saveValues (call_handler : Z → list Z → Prelude.M rt unit) (suffix : string)
    : Prelude.M rt unit :=
  s <- get ;;
  match g_test_case_handler (rt_backend s) with
  | Some handler =>
      values <- backend (on_world getConcreteValues) ;;
      _sym_set_parameter_expression 0 None ;;;
      _sym_set_parameter_expression 1 None ;;;
      call_handler handler values
  | None => backend (on_world (Solver_saveValues suffix))
  end.

(** ** Initialisation *)

(** [is_directory]: the file system's answer for a path. *)
Definition _sym_initialize (getenv : string → option string) (is_directory : string → bool)
    : Prelude.M rt unit :=
  s <- get ;;
  if g_initialized (rt_backend s) then ret tt
  else
    backend (modify set_initialized) ;;;
    zoom g_config set_config (loadConfig getenv) ;;;
    initLibcWrappers ;;;
    s <- get ;;
    if bool_decide (input (g_config s) = NoInput) then ret tt
    else if negb (is_directory (outputDir (g_config s))) then fail (Exit (-1))
    else
      backend (on_world (create_solver (outputDir (g_config s)) (aflCoverageMap (g_config s)))) ;;;
      b <- backend (on_world (create_builder (pruning (g_config s)))) ;;
      backend (modify (set_builder (Some b))).

(** The globals when the program starts. *)
Definition uninitialized (w : world) : qstate := {|
  g_initialized := false; g_expr_builder := None; allocatedExpressions := ∅; inputs_ := [];
  g_test_case_handler := None; q_world := w |}.

Definition program_start (w : world) (mem : Z → Z) (cells : Z → SymExpr) : rt :=
  initial_rt (uninitialized w : @bstate qsym_backend) mem cells.

(** ** Garbage collection *)
Definition sweep (threshold : Z) (reachable : gset Expr) : M unit :=
  s <- get ;;
  if Z.of_nat (size (allocatedExpressions s)) <? threshold then ret tt
  else
    let dead := filter (λ kv, kv.1 ∉ reachable) (allocatedExpressions s) in
    modify (set_allocated (filter (λ kv, kv.1 ∈ reachable) (allocatedExpressions s))) ;;;
    on_world (release (map_to_list dead).*2).

Definition _sym_collect_garbage : Prelude.M rt unit :=
  s <- get ;;
  backend (sweep (garbageCollectionThreshold (g_config s)) (collectReachableExpressions s)).
End qsym.
