(* ===== verification/QsymSpec.v ===== *)
(** * The QSYM backend meets the contract

    The laws of QSYM's expression library that the backend relies on, and the
    proof that, with them, it implements [BackendSpec] and [InputSpec]: all
    theorems about the code shared by the backends hold for it.  Further: what
    initialisation establishes, and that a garbage collection releases exactly
    the unreachable expressions. *)

From S2P Require Import Prelude Smt Z3Api Interface ByteSeq Config State Shadow Memory.
From S2P Require Import GarbageCollection LibcWrappers LibcSpec Qsym Interface.
From stdpp Require Import pretty.

#[local] Open Scope Z_scope.
#[local] Existing Instance qsym_backend.

(** ** QSYM's expressions *)

(** The operators of the solver library for the builders that correspond to
    one. *)
Definition create_smt (op : create_op) : option z3op :=
  match op with
  | createAdd => Some Bvadd | createSub => Some Bvsub | createMul => Some Bvmul
  | createUDiv => Some Bvudiv | createSDiv => Some Bvsdiv
  | createURem => Some Bvurem | createSRem => Some Bvsrem
  | createShl => Some Bvshl | createLShr => Some Bvlshr | createAShr => Some Bvashr
  | createSlt => Some Bvslt | createSle => Some Bvsle
  | createSgt => Some Bvsgt | createSge => Some Bvsge
  | createUlt => Some Bvult | createUle => Some Bvule
  | createUgt => Some Bvugt | createUge => Some Bvuge
  | createEqual => Some Eq | createLAnd => Some And | createLOr => Some Or
  | createAnd => Some Bvand | createOr => Some Bvor | createXor => Some Bvxor
  | createNeg => Some Bvneg | createNot => Some Bvnot | createIte => Some Ite
  | createConcat => Some Concat
  | _ => None
  end.

(** The value of the expression that a builder returns for arguments with the
    values [vs]; [symbol i] is the variable of input byte [i]. *)
Definition create_sem (symbol : nat → string) (ρ : env) (op : create_op) (vs : list value)
    : option value :=
  match op, vs with
  | createConstant n w, [] => if (0 <? w) && (0 <=? n) then Some (VBV w (wrap w n)) else None
  | createTrue, [] => Some (VBool true)
  | createFalse, [] => Some (VBool false)
  | createBool b, [] => Some (VBool b)
  | createRead i, [] => if 0 <=? i then Some (VBV 8 (wrap 8 (ρ (symbol (Z.to_nat i))))) else None
  | createDistinct, [u; v] =>
      if decide (value_sort u = value_sort v) then Some (VBool (negb (bool_decide (u = v)))) else None
  | createSExt k, [VBV w x] => if w <=? k then Some (VBV k (wrap k (sgn w x))) else None
  | createZExt k, [VBV w x] => if w <=? k then Some (VBV k x) else None
  | createTrunc k, [VBV w x] => if (0 <? k) && (k <=? w) then Some (VBV k (wrap k x)) else None
  | createExtract i k, [VBV w x] =>
      if (0 <=? i) && (0 <? k) && (i + k <=? w) then Some (VBV k (bv_extract (i + k - 1) i x))
      else None
  | boolToBit k, [VBool b] => if 0 <? k then Some (VBV k (if b then 1 else 0)) else None
  | _, _ => match create_smt op with Some f => smt_denote f vs | None => None end
  end.

(** [alive w r]: the object of [r] exists because the run-time library holds a
    shared pointer to it.  Objects that exist at the same time have different
    addresses; building an expression and adding a constraint destroys none of
    them; releasing pointers destroys no object but theirs. *)
Class QsymLaws (Q : Qsym) : Type := {
  ref_eval : env → ExprRef → value;
  ref_eval_wf ρ r : value_wf (ref_eval ρ r);
  alive : world → ExprRef → Prop;
  alive_inj w r r' : alive w r → alive w r' → ref_get r = ref_get r' → r = r';
  symbol : nat → string;
  symbol_inj i j : symbol i = symbol j → i = j;
  create_ok ρ b op rs v w :
    Forall (alive w) rs → create_sem symbol ρ op (ref_eval ρ <$> rs) = Some v →
    ∃ r w', create b op rs w = Ok r w' ∧ alive w' r ∧ (∀ r0, alive w r0 → alive w' r0) ∧
      ref_eval ρ r = v;
  bits_ok ρ r w k x :
    alive w r → ref_eval ρ r = VBV k x →
    ∃ w', Expr_bits (ref_get r) w = Ok k w' ∧ ∀ r0, alive w r0 → alive w' r0;
  builder_ok p w : ∃ b w', create_builder p w = Ok b w' ∧ ∀ r0, alive w r0 → alive w' r0;
  solver_ok dir bitmap w :
    ∃ w', create_solver dir bitmap w = Ok tt w' ∧ ∀ r0, alive w r0 → alive w' r0;
  (** When no test-case handler changes the state of the library. *)
  addJcc_ok ρ l r taken site b w :
    alive w r → ref_eval ρ r = VBool b →
    ∃ w', addJcc l r taken site w = Ok tt w' ∧ ∀ r0, alive w r0 → alive w' r0;
  release_ok l w :
    ∃ w', release l w = Ok tt w' ∧ ∀ r0, alive w r0 → r0 ∉ l → alive w' r0;
}.

Section spec.
Context {Q : Qsym} {QL : QsymLaws Q}.
Implicit Types (s : qstate) (ρ : env) (h : Expr) (r : ExprRef).

(** Every address that the library has handed out is that of a live object. *)
Definition qinv s : Prop :=
  is_Some (g_expr_builder s) ∧
  ∀ h r, allocatedExpressions s !! h = Some r → ref_get r = h ∧ alive (q_world s) r.

Definition qrep ρ s h (v : value) : Prop :=
  ∃ r, allocatedExpressions s !! h = Some r ∧ ref_eval ρ r = v.

Definition qext s s' : Prop :=
  allocatedExpressions s ⊆ allocatedExpressions s' ∧ (length (inputs_ s) ≤ length (inputs_ s'))%nat.

#[export] Instance qext_preorder : PreOrder qext.
Proof.
  split; [by intros s|]. intros s1 s2 s3 [A1 B1] [A2 B2]. split; [by etransitivity|lia].
Qed.

Lemma qrep_mono ρ s s' h v : qext s s' → qrep ρ s h v → qrep ρ s' h v.
Proof. intros [X _] (r&E&Hv). exists r. split; [by eapply lookup_weaken|done]. Qed.

Definition makes ρ (m : M qstate (option Expr)) s (v : value) : Prop :=
  returns qinv qext m s (λ e s', ∃ h, e = Some h ∧ qrep ρ s' h v).

(** Calls of the library that destroy nothing. *)
Lemma world_step s w :
  qinv s → (∀ r, alive (q_world s) r → alive w r) → qinv (set_world w s).
Proof. intros [Hb I] Hw. split; [done|]. intros h r E. destruct (I h r E). auto. Qed.

Lemma register_ok ρ r v s :
  qinv s → alive (q_world s) r → ref_eval ρ r = v → makes ρ (registerExpression r) s v.
Proof.
  intros [Hb I] Ha Hv. unfold registerExpression, makes.
  destruct (allocatedExpressions s !! ref_get r) as [r0|] eqn:E.
  - destruct (I _ _ E) as [Eg Ha0]. assert (r0 = r) as -> by (by eapply alive_inj).
    eexists _, s. split.
    { unfold bind, get. cbn. by rewrite E. }
    split_and!; [done..|reflexivity|]. exists (ref_get r). split; [done|]. by exists r.
  - set (s' := set_allocated (<[ref_get r := r]> (allocatedExpressions s)) s).
    eexists _, s'. split.
    { unfold bind, get. cbn. by rewrite E. }
    split_and!.
    + split; [done|]. intros h r0. cbn. rewrite lookup_insert_Some.
      intros [[<- <-]|[_ E']]; [done|by apply I].
    + split; [cbn; by apply insert_subseteq|done].
    + exists (ref_get r). split; [done|]. exists r. cbn. by rewrite lookup_insert_eq.
Qed.

Definition held s (e : option Expr) r : Prop :=
  ∃ h, e = Some h ∧ allocatedExpressions s !! h = Some r.

Lemma at_all_ok s l rs : Forall2 (held s) l rs → at_all l s = Ok rs s.
Proof.
  induction 1 as [|e r l rs (h&->&E) _ IH]; [done|]. cbn. unfold bind at 1, at_, bind at 1, get.
  rewrite E. cbn. unfold bind. by rewrite IH.
Qed.

Lemma build_ok ρ s op l rs v :
  qinv s → Forall2 (held s) l rs → create_sem symbol ρ op (ref_eval ρ <$> rs) = Some v →
  makes ρ (build op l) s v.
Proof.
  intros I Hl Hv. pose proof I as [[b Hb] Ia].
  assert (Forall (alive (q_world s)) rs) as Ha.
  { clear Hv. induction Hl as [|e r l rs (h&->&E) _ IH]; constructor; [|done]. by eapply Ia. }
  destruct (create_ok ρ b op rs v _ Ha Hv) as (r&w'&E&Ha'&Hmono&Hr).
  destruct (register_ok ρ r v (set_world w' s)) as (e&s'&E'&I'&X'&R'); [by apply world_step|done..|].
  exists e, s'. split_and!; [|done| |done].
  - unfold build. rewrite (bind_Ok _ _ _ _ _ (at_all_ok _ _ _ Hl)). unfold bind at 1, get. rewrite Hb.
    unfold bind, on_world, zoom. by rewrite E.
  - by apply X'.
Qed.

(** Builders of no, one, two and three expressions. *)
Lemma build_0 ρ s op v : qinv s → create_sem symbol ρ op [] = Some v → makes ρ (build op []) s v.
Proof. intros I Hv. by apply (build_ok ρ s op [] []). Qed.

Lemma build_1 ρ s op a u v :
  qinv s → qrep ρ s a u → create_sem symbol ρ op [u] = Some v → makes ρ (build op [Some a]) s v.
Proof.
  intros I (r&E&<-) Hv. apply (build_ok ρ s op [Some a] [r]); [done| |done].
  constructor; [by exists a|constructor].
Qed.

Lemma build_2 ρ s op a b u1 u2 v :
  qinv s → qrep ρ s a u1 → qrep ρ s b u2 → create_sem symbol ρ op [u1; u2] = Some v →
  makes ρ (build op [Some a; Some b]) s v.
Proof.
  intros I (r1&E1&<-) (r2&E2&<-) Hv. apply (build_ok ρ s op [Some a; Some b] [r1; r2]); [done| |done].
  constructor; [by exists a|]. constructor; [by exists b|constructor].
Qed.

Lemma build_3 ρ s op a b c u1 u2 u3 v :
  qinv s → qrep ρ s a u1 → qrep ρ s b u2 → qrep ρ s c u3 →
  create_sem symbol ρ op [u1; u2; u3] = Some v → makes ρ (build op [Some a; Some b; Some c]) s v.
Proof.
  intros I (r1&E1&<-) (r2&E2&<-) (r3&E3&<-) Hv.
  apply (build_ok ρ s op [Some a; Some b; Some c] [r1; r2; r3]); [done| |done].
  constructor; [by exists a|]. constructor; [by exists b|]. constructor; [by exists c|constructor].
Qed.

Lemma bits_returns ρ s a w x :
  qinv s → qrep ρ s a (VBV w x) → returns qinv qext (bits (Some a)) s
    (λ k s', k = w ∧ qrep ρ s' a (VBV w x)).
Proof.
  intros I (r&E&Hr). destruct (proj2 I _ _ E) as [<- Ha].
  destruct (bits_ok ρ r (q_world s) w x Ha Hr) as (w'&Eb&Hm).
  eexists w, _. split_and!.
  - unfold bits, on_world, zoom. by rewrite Eb.
  - by apply world_step.
  - split; cbn; [done|lia].
  - done.
  - by exists r.
Qed.

(** The table of the binary builders is right. *)
Lemma qsymName_sem ρ op u v w :
  binop_sem op u v = Some w → create_sem symbol ρ (qsymName op) [u; v] = Some w.
Proof.
  destruct op, u, v; cbn; try done; unfold bv_arith, bv_rel; cbn; intros H; simplify_option_eq;
    try done; try (f_equal; by destruct b, b0); by rewrite xorb_nilpotent.
Qed.

Lemma makes_bits ρ s a w x (k : Z → M qstate (option Expr)) v :
  qinv s → qrep ρ s a (VBV w x) →
  (∀ s', qinv s' → qrep ρ s' a (VBV w x) → makes ρ (k w) s' v) →
  makes ρ (n <- bits (Some a) ;; k n) s v.
Proof.
  intros I R Hk. destruct (bits_returns ρ s a w x I R) as (n&s1&E1&I1&X1&->&R1).
  destruct (Hk s1 I1 R1) as (e&s2&E2&I2&X2&R2). exists e, s2. split_and!; [|done| |done].
  - by rewrite (bind_Ok _ _ _ _ _ E1).
  - by etransitivity.
Qed.

(** ** The contract *)
#[export] Instance qsym_backend_spec : BackendSpec qsym_backend.
Proof.
  refine {| binv := (qinv : @bstate qsym_backend → Prop);
            bext := (qext : relation (@bstate qsym_backend));
            rep := (qrep : _ → @bstate qsym_backend → @handle qsym_backend → _ → _) |}.
  - intros ρ s s' h v. apply qrep_mono.
  - intros ρ s h v (r&_&<-). apply ref_eval_wf.
  - intros ρ s h v v' (r&E&<-) (r'&E'&<-). by simplify_eq.
  - intros ρ s value n I Hn. apply build_0; [done|]. cbn.
    rewrite u8_small by lia. destruct (Z.ltb_spec 0 n); [|lia].
    rewrite (proj2 (Z.leb_le 0 (u64 value))); [done|]. by apply (wrap_bound 64).
  - intros ρ s b I. by apply build_0.
  - intros ρ s op a b u v r I Ra Rb Hr. eapply build_2; [done..|]. by apply qsymName_sem.
  - intros ρ s c a b t u v I Rc Ra Rb Hs. eapply build_3; [done..|]. cbn. by rewrite decide_True.
  - intros ρ s a w x k I R Hk. apply (makes_bits ρ s a w x); [done..|]. intros s' I' R'.
    rewrite u8_small by lia. eapply build_1; [done..|]. cbn.
    destruct (Z.leb_spec w (k + w)); [|lia]. by rewrite (Z.add_comm k w).
  - intros ρ s a w x k I R Hk. apply (makes_bits ρ s a w x); [done..|]. intros s' I' R'.
    rewrite u8_small by lia. eapply build_1; [done..|]. cbn.
    destruct (Z.leb_spec w (k + w)); [|lia]. by rewrite (Z.add_comm k w).
  - intros ρ s a w x k I R Hk Hkw. eapply build_1; [done..|]. rewrite u8_small by lia. cbn.
    destruct (Z.ltb_spec 0 k); [|lia]. by destruct (Z.leb_spec k w); [|lia].
  - intros ρ s a b I R. by eapply build_1.
  - intros ρ s a b wa wb x y I Ra Rb. by eapply build_2.
  - intros ρ s a w x hi lo I R Hlo Hhi Hw. eapply build_1; [done..|].
    rewrite (u32_small lo), (u64_small (hi - lo + 1)), u32_small by lia. cbn.
    destruct (Z.leb_spec 0 lo); [|lia]. destruct (Z.ltb_spec 0 (hi - lo + 1)); [|lia].
    destruct (Z.leb_spec (lo + (hi - lo + 1)) w); [|lia]. cbn. do 2 f_equal. f_equal. lia.
  - intros ρ s a w x I R. destruct (bits_returns ρ s a w x I R) as (n&s'&E&I'&X&->&_).
    by exists w, s'.
  - done.
  - intros s c taken site I [->|(ρ&h&b&->&(r&E&Hr))]; [by exists tt, s|].
    destruct (proj2 I _ _ E) as [_ Ha].
    destruct (addJcc_ok ρ (inputs_ s) r taken site b _ Ha Hr) as (w'&Ew&Hm).
    eexists tt, _. split_and!; [|by apply (world_step s w')|split; [done|cbn; lia]|done].
    cbn. unfold bind at 1, at_, bind at 1, get. rewrite E. cbn. unfold bind, get, on_world, zoom.
    by rewrite Ew.
Defined.

Lemma push_input_length offset value s :
  0 ≤ offset → ∃ l, pushInputByte offset value s = Ok tt (set_inputs l s) ∧
    Z.of_nat (length l) = Z.max (Z.of_nat (length (inputs_ s))) (offset + 1).
Proof.
  intros Ho. eexists. split; [done|]. rewrite length_insert.
  destruct (Z.leb_spec (Z.of_nat (length (inputs_ s))) offset); [|lia].
  rewrite length_app, length_replicate. lia.
Qed.

(** Input bytes may be requested in any order; the contract needs the order. *)
Lemma input_byte_any ρ s offset v :
  qinv s → 0 ≤ offset →
  returns qinv qext (Qsym._sym_get_input_byte offset v) s (λ e s',
    (∃ h, e = Some h ∧ qrep ρ s' h (VBV 8 (wrap 8 (ρ (symbol (Z.to_nat offset)))))) ∧
    length (inputs_ s') = Z.to_nat (Z.max (Z.of_nat (length (inputs_ s))) (offset + 1))).
Proof.
  intros I Ho. destruct (push_input_length offset v s Ho) as (l&E&Hl).
  destruct (build_0 ρ (set_inputs l s) (createRead offset)
    (VBV 8 (wrap 8 (ρ (symbol (Z.to_nat offset)))))) as (e&s'&E'&I'&X'&R').
  { by destruct I. }
  { cbn. by destruct (Z.leb_spec 0 offset); [|lia]. }
  assert (inputs_ s' = l) as Hs'.
  { revert E'. clear. unfold build, bind, get, registerExpression. cbn.
    destruct (g_expr_builder s) as [b|]; [|done]. unfold on_world, zoom. cbn.
    destruct (create b (createRead offset) [] (q_world s)) as [r w|]; [|done].
    unfold bind, get. cbn. destruct (allocatedExpressions s !! ref_get r); cbn; by intros [= _ <-]. }
  exists e, s'. split_and!; [|done| |done|rewrite Hs'; lia].
  - unfold Qsym._sym_get_input_byte. by rewrite (bind_Ok _ _ _ _ _ E).
  - split; [by apply X'|rewrite Hs'; lia].
Qed.

#[export] Instance qsym_input_spec : InputSpec qsym_backend qsym_backend_spec.
Proof.
  refine {| input_name := symbol;
            inputs_read := (λ s n, n = Z.of_nat (length (inputs_ s))) : @bstate qsym_backend → _ |}.
  - apply symbol_inj.
  - intros ρ s n offset v I -> Ho.
    destruct (input_byte_any ρ s offset v I ltac:(lia)) as (e&s'&E&I'&X&R&Hl).
    exists e, s'. split_and!; try done. rewrite Hl. lia.
  - intros s s' n [_ X] ->. eexists. split; [|done]. lia.
Defined.

(** ** Initialisation *)
#[local] Abbreviation rt := (@rt qsym_backend).

(** The state after [loadConfig] and [initLibcWrappers]. *)
Definition configured (getenv : string → option string) (s : rt) : rt :=
  let c := config_of getenv default_config in
  set_input_file (if decide (input c = StdinInput) then 0 else -1) 0 (set_config c s).

Lemma initialize_run getenv is_directory w mem cells :
  env_ok getenv →
  let s0 := configured getenv (set_backend (set_initialized (uninitialized w) : @bstate qsym_backend)
              (program_start w mem cells)) in
  let c := config_of getenv default_config in
  _sym_initialize getenv is_directory (program_start w mem cells) =
    (if bool_decide (input c = NoInput) then ret tt
     else if negb (is_directory (outputDir c)) then fail (Exit (-1))
     else
       backend (on_world (create_solver (outputDir c) (aflCoverageMap c)) : M (@bstate qsym_backend) unit) ;;;
       b <- backend (on_world (create_builder (pruning c)) : M (@bstate qsym_backend) ExprBuilder) ;;
       backend (modify (set_builder (Some b)) : M (@bstate qsym_backend) unit)) s0.
Proof.
  intros He s0 c. destruct (loadConfig_spec getenv default_config) as [HL _]; [done|].
  specialize (HL He). unfold _sym_initialize, bind at 1, get at 1. cbn [rt_backend program_start initial_rt].
  change (g_initialized (uninitialized w)) with false. cbn match.
  unfold bind at 1, backend at 1, zoom at 1, modify at 1. cbn.
  unfold bind at 1, zoom at 1. cbn. rewrite HL.
  unfold bind at 1.
  assert (initLibcWrappers (set_config c (set_backend (set_initialized (uninitialized w) : @bstate qsym_backend)
            (program_start w mem cells))) = Ok tt s0) as E.
  { unfold initLibcWrappers, bind, get. cbn [g_config set_config]. unfold s0, configured. fold c.
    by destruct (input c). }
  change (set_config (config_of getenv default_config) _) with
    (set_config c (set_backend (set_initialized (uninitialized w) : @bstate qsym_backend)
            (program_start w mem cells))).
  rewrite E. unfold bind at 1, get. by destruct (input c).
Qed.

Lemma initialize_ok ρ getenv is_directory w mem cells :
  env_ok getenv → (∀ a, is_byte (mem a)) →
  let c := config_of getenv default_config in
  input c ≠ NoInput → is_directory (outputDir c) = true →
  wp (_sym_initialize getenv is_directory) (program_start w mem cells) (λ _ (s : rt),
    consistent ρ s ∧ memory s = mem ∧ g_config s = c ∧ inputs_read (rt_backend s) 0).
Proof.
  intros He Hm c Hi Hd. unfold wp. rewrite initialize_run by done. fold c.
  rewrite bool_decide_eq_false_2, Hd by done. cbn [negb].
  set (s0 := configured _ _).
  destruct (solver_ok (outputDir c) (aflCoverageMap c) w) as (w1&E1&_).
  destruct (builder_ok (pruning c) w1) as (b&w2&E2&_).
  eexists tt, _. split.
  { unfold bind at 1, backend at 1, on_world at 1, zoom at 1. unfold zoom at 1.
    change (q_world (rt_backend s0)) with w. rewrite E1.
    unfold bind, backend, on_world, zoom. cbn -[c]. by rewrite E2. }
  by split_and!.
Qed.

(** ** Garbage collection *)
Lemma released_iff (m : gmap Expr ExprRef) (reachable : gset Expr) r :
  r ∈ (map_to_list (filter (λ kv, kv.1 ∉ reachable) m)).*2 ↔
  ∃ h, m !! h = Some r ∧ h ∉ reachable.
Proof.
  rewrite list_elem_of_fmap. split.
  - intros ([h r']&->&[E Hn]%elem_of_map_to_list%map_lookup_filter_Some). by exists h.
  - intros (h&E&Hn). exists (h, r). split; [done|].
    by apply elem_of_map_to_list, map_lookup_filter_Some.
Qed.

(** Below the threshold nothing happens; otherwise exactly the pointers of the
    unreachable expressions are released. *)
Lemma sweep_ok threshold reachable s :
  qinv s → ∃ s', sweep threshold reachable s = Ok tt s' ∧ qinv s' ∧ inputs_ s' = inputs_ s ∧
    allocatedExpressions s' =
      (if Z.of_nat (size (allocatedExpressions s)) <? threshold then allocatedExpressions s
       else filter (λ kv, kv.1 ∈ reachable) (allocatedExpressions s)).
Proof.
  intros [Hb I]. unfold sweep, bind at 1, get.
  destruct (Z.of_nat _ <? threshold); [by exists s|].
  set (dead := (map_to_list _).*2).
  destruct (release_ok dead (q_world s)) as (w'&E&Hw).
  set (live := filter _ _). exists (set_world w' (set_allocated live s)). split_and!; [|split|done..].
  - unfold bind, modify, on_world, zoom. cbn. by rewrite E.
  - done.
  - intros h r [El Hr]%map_lookup_filter_Some. cbn in El, Hr. destruct (I h r El) as [Eg Ha].
    split; [done|]. apply Hw; [done|]. intros (h'&El'&Hn)%released_iff.
    destruct (I h' r El') as [Eg' _]. cbn in Hn. congruence.
Qed.

Lemma collect_ok ρ (s : rt) :
  consistent ρ s → ∃ s' : rt, _sym_collect_garbage s = Ok tt s' ∧ consistent ρ s' ∧
    shadow_at s' = shadow_at s ∧ memory s' = memory s ∧
    allocatedExpressions (rt_backend s') =
      (if Z.of_nat (size (allocatedExpressions (rt_backend s)))
            <? garbageCollectionThreshold (g_config s)
       then allocatedExpressions (rt_backend s)
       else filter (λ kv, kv.1 ∈ collectReachableExpressions s)
                   (allocatedExpressions (rt_backend s))).
Proof.
  intros C. pose proof C as [(I&Ok&Mem&Sh) Hb].
  destruct (sweep_ok (garbageCollectionThreshold (g_config s)) (collectReachableExpressions s)
    (rt_backend s) I) as (b&E&I'&Hi&A).
  set (s' := set_backend (b : @bstate qsym_backend) s). exists s'.
  assert (∀ a h v, shadow_at s a = Some h → rep ρ (rt_backend s) h v → rep ρ (b : @bstate qsym_backend) h v)
    as Hrep.
  { intros a h v Ha (r&Er&Hr). exists r. split; [|done]. rewrite A. destruct (_ <? _); [done|].
    apply map_lookup_filter_Some. split; [done|]. exact (shadow_reachable s a h Ok Ha). }
  split_and!; [|split; [split_and!|]|done..].
  - unfold _sym_collect_garbage, bind at 1, get, backend, zoom. by rewrite E.
  - exact I'.
  - exact Ok.
  - exact Mem.
  - intros a Ha. specialize (Sh a Ha). unfold is_byte_value in *.
    change (shadow_at s' a) with (shadow_at s a). destruct (shadow_at s a) as [h|] eqn:Eh; [|done].
    destruct Sh as [x Hx]. exists x. by eapply Hrep.
  - intros a Ha. specialize (Hb a Ha). unfold byte_at in *.
    change (shadow_at s' a) with (shadow_at s a). destruct (shadow_at s a) as [h|] eqn:Eh; [|done].
    by eapply Hrep.
Qed.
End spec.

(** ** An implementation of the library

    Syntax trees that live forever satisfy the laws: the address of an
    expression is the tree itself. *)
Module Trees.
Import Z3Api.Term.

Definition tree_width (t : term) : Z := match sort_of t with SBV w => w | _ => 0 end.

Definition read_name (i : nat) : string := "input" +:+ pretty i.

Definition build_tree (op : create_op) (l : list term) : term :=
  match op, l with
  | createConstant n w, [] => TNum n (Z.to_pos w)
  | createTrue, [] => TBool true
  | createFalse, [] => TBool false
  | createBool b, [] => TBool b
  | createRead i, [] => TConst (read_name (Z.to_nat i)) (SBV 8)
  | createDistinct, _ => TApp Not [TApp Eq l]
  | createSExt k, [a] => TApp (Sign_ext (k - tree_width a)) [a]
  | createZExt k, [a] => TApp (Zero_ext (k - tree_width a)) [a]
  | createTrunc k, [a] => TApp (Extract (k - 1) 0) [a]
  | createExtract i k, [a] => TApp (Extract (i + k - 1) i) [a]
  | boolToBit k, [a] => TApp Ite [a; TNum 1 (Z.to_pos k); TNum 0 (Z.to_pos k)]
  | _, _ => match create_smt op with Some f => TApp f l | None => TBool false end
  end.

#[export] Instance tree_qsym : Qsym := {|
  Expr := term;
  ExprRef := term;
  ref_get := id;
  world := unit;
  ExprBuilder := bool;
  create_builder := ret;
  create := λ _ op l, ret (build_tree op l);
  Expr_bits := λ t, ret (tree_width t);
  Expr_simplify := λ _, ret tt;
  create_solver := λ _ _, ret tt;
  addJcc := λ _ _ _ _, ret tt;
  solver_push := ret tt;
  solver_add := λ _, ret tt;
  solver_check := ret true;
  solver_pop := ret tt;
  Solver_saveValues := λ _, ret tt;
  getConcreteValues := ret [];
  visitCall := λ _, ret tt;
  visitRet := λ _, ret tt;
  visitBasicBlock := λ _, ret tt;
  release := λ _, ret tt;
|}.

Lemma tree_width_eval ρ t w x : eval ρ t = VBV w x → tree_width t = w.
Proof. intros E. unfold tree_width. by rewrite <-(eval_sort ρ t), E. Qed.

Lemma eval_smt ρ f l v : smt_denote f (eval ρ <$> l) = Some v → eval ρ (TApp f l) = v.
Proof. intros E. cbn. change (map (eval ρ) l) with (eval ρ <$> l). by rewrite E. Qed.

Lemma pos_bits k : 0 < k → Zpos (Z.to_pos k) = k.
Proof. intros. lia. Qed.

(** Decide the comparisons in [H]. *)
Ltac bounds H :=
  repeat match type of H with
         | context [?a <=? ?b] => destruct (Z.leb_spec a b); cbn in H; try discriminate H
         | context [?a <? ?b] => destruct (Z.ltb_spec a b); cbn in H; try discriminate H
         end.

Lemma create_sem_smt ρ op f vs :
  create_smt op = Some f → create_sem read_name ρ op vs = smt_denote f vs.
Proof. destruct op; intros [= <-]; by destruct vs as [|[] [|[] [|[] ?]]]. Qed.

Lemma build_tree_eval ρ op l v :
  create_sem read_name ρ op (eval ρ <$> l) = Some v → eval ρ (build_tree op l) = v.
Proof.
  destruct (create_smt op) as [f|] eqn:Ef.
  { rewrite (create_sem_smt _ _ _ _ Ef). intros H%eval_smt. rewrite <-H.
    destruct op; try discriminate Ef; injection Ef as <-; by destruct l as [|? [|? ?]]. }
  destruct l as [|a [|b l]]; cbn [fmap list_fmap].
  - destruct op; try discriminate Ef; cbn; intros H; try discriminate H; bounds H;
      injection H as <-; try done.
    by rewrite pos_bits by lia.
  - destruct op; try discriminate Ef; cbn -[eval]; intros H;
      destruct (eval ρ a) as [|w x| |] eqn:Ea; try discriminate H; bounds H; injection H as <-;
      try rewrite (tree_width_eval ρ a w x Ea);
      apply eval_smt; cbn -[eval]; rewrite ?Ea; cbn -[bv_extract].
    all: try done.
    all: repeat match goal with
                | |- context [?a <=? ?b] => destruct (Z.leb_spec a b); [|lia]
                | |- context [?a <? ?b] => destruct (Z.ltb_spec a b); [|lia]
                end.
    + do 2 f_equal; [lia|]. f_equal. lia.
    + do 2 f_equal. lia.
    + unfold bv_extract, wrap. do 2 f_equal; [lia|]. rewrite Z.div_1_r. do 2 f_equal. lia.
    + do 2 f_equal. lia.
    + rewrite pos_bits by lia. rewrite decide_True by done.
      pose proof (proj1 (Z.pow_gt_1 2 bits ltac:(lia)) ltac:(done)).
      destruct b; by rewrite wrap_small by lia.
  - destruct op; try discriminate Ef; cbn -[eval]; intros H; try discriminate H;
      try (by destruct (eval ρ a)).
    destruct l; cbn -[eval] in H; [|discriminate H]. cbn [build_tree]. case_decide as Hd; [|done].
    injection H as <-. apply eval_smt. cbn -[eval].
    assert (eval ρ (TApp Eq [a; b]) = VBool (bool_decide (eval ρ a = eval ρ b))) as ->.
    { apply eval_smt. cbn -[eval]. by rewrite decide_True. }
    done.
Qed.

#[export] Instance tree_laws : QsymLaws tree_qsym.
Proof.
  refine {| ref_eval := (eval : env → @ExprRef tree_qsym → value);
            alive := (λ _ _, True) : @world tree_qsym → @ExprRef tree_qsym → Prop;
            symbol := read_name |}; cbn.
  - apply eval_wf.
  - done.
  - intros i j H. unfold read_name in H. apply (inj _) in H. by apply (inj pretty) in H.
  - intros ρ b op rs v w _ H. exists (build_tree op rs), w. split_and!; try done.
    by apply build_tree_eval.
  - intros ρ r w k x _ E. exists w. by rewrite (tree_width_eval ρ r k x E).
  - intros p w. by exists p, w.
  - intros dir bitmap w. by exists w.
  - intros ρ l r taken site b w _ _. by exists w.
  - intros l w. by exists w.
Defined.
End Trees.
