(* ===== verification/Dispatch.v ===== *)
(** * The handlers of LLVM instructions

    Models the tables of compiler/Runtime.cpp from opcodes and predicates to
    run-time library functions, the choice of a handler in [visitBinaryOperator]
    of compiler/Symbolizer.cpp, and [isInterceptedFunction].  The handlers are
    the builders of the simple backend; they are compared with the values that
    the LLVM language reference gives to the instructions. *)

From S2P Require Import Prelude Smt Z3Api Interface SimpleBackend SimpleSpec.
From Stdlib Require Import SpecFloat.

#[local] Open Scope Z_scope.

Inductive binary_opcode : Type :=
| Add | Sub | Mul | UDiv | SDiv | URem | SRem | Shl | LShr | AShr | And | Or | Xor
| FAdd | FSub | FMul | FDiv | FRem.

Inductive predicate : Type :=
| ICMP_EQ | ICMP_NE | ICMP_UGT | ICMP_UGE | ICMP_ULT | ICMP_ULE
| ICMP_SGT | ICMP_SGE | ICMP_SLT | ICMP_SLE
| FCMP_OGT | FCMP_OGE | FCMP_OLT | FCMP_OLE | FCMP_OEQ | FCMP_ONE | FCMP_ORD
| FCMP_UNO | FCMP_UGT | FCMP_UGE | FCMP_ULT | FCMP_ULE | FCMP_UEQ | FCMP_UNE.

Section tables.
Context {Z3I : Z3}.

Definition handler_fn : Type := option ast → option ast → M state (option ast).

Definition binaryOperatorHandlers (op : binary_opcode) : handler_fn :=
  match op with
  | Add => build_binary B_add
  | Sub => build_binary B_sub
  | Mul => build_binary B_mul
  | UDiv => build_binary B_unsigned_div
  | SDiv => build_binary B_signed_div
  | URem => build_binary B_unsigned_rem
  | SRem => build_binary B_signed_rem
  | Shl => build_binary B_shift_left
  | LShr => build_binary B_logical_shift_right
  | AShr => build_binary B_arithmetic_shift_right
  | And => build_binary B_and
  | Or => build_binary B_or
  | Xor => build_binary B_xor
  | FAdd => sym_build_fp_add
  | FSub => sym_build_fp_sub
  | FMul => sym_build_fp_mul
  | FDiv => sym_build_fp_div
  | FRem => sym_build_fp_rem
  end.

(** The handler that [visitBinaryOperator] calls; [None] is [llvm_unreachable].
    [is_int1]: the operands have type i1. *)
Definition binary_handler (is_int1 : bool) (op : binary_opcode) : option handler_fn :=
  if is_int1 then
    match op with
    | And => Some (build_binary B_bool_and)
    | Or => Some (build_binary B_bool_or)
    | Xor => Some (build_binary B_bool_xor)
    | _ => None
    end
  else Some (binaryOperatorHandlers op).

Definition comparisonHandlers (p : predicate) : handler_fn :=
  match p with
  | ICMP_EQ => build_binary B_equal
  | ICMP_NE => build_binary B_not_equal
  | ICMP_UGT => build_binary B_unsigned_greater_than
  | ICMP_UGE => build_binary B_unsigned_greater_equal
  | ICMP_ULT => build_binary B_unsigned_less_than
  | ICMP_ULE => build_binary B_unsigned_less_equal
  | ICMP_SGT => build_binary B_signed_greater_than
  | ICMP_SGE => build_binary B_signed_greater_equal
  | ICMP_SLT => build_binary B_signed_less_than
  | ICMP_SLE => build_binary B_signed_less_equal
  | FCMP_OGT => sym_build_float_ordered_greater_than
  | FCMP_OGE => sym_build_float_ordered_greater_equal
  | FCMP_OLT => sym_build_float_ordered_less_than
  | FCMP_OLE => sym_build_float_ordered_less_equal
  | FCMP_OEQ => sym_build_float_ordered_equal
  | FCMP_ONE => sym_build_float_ordered_not_equal
  | FCMP_ORD => sym_build_float_ordered
  | FCMP_UNO => sym_build_float_unordered
  | FCMP_UGT => sym_build_float_unordered_greater_than
  | FCMP_UGE => sym_build_float_unordered_greater_equal
  | FCMP_ULT => sym_build_float_unordered_less_than
  | FCMP_ULE => sym_build_float_unordered_less_equal
  | FCMP_UEQ => sym_build_float_unordered_equal
  | FCMP_UNE => sym_build_float_unordered_not_equal
  end.
End tables.

(** Whether calls of a function go to the wrappers of LibcWrappers.cpp. *)
Definition isInterceptedFunction (name : string) : bool :=
  bool_decide (name ∈
    ["malloc"; "calloc"; "mmap"; "mmap64"; "open"; "read";
     "lseek"; "lseek64"; "fopen"; "fopen64"; "fread"; "fseek";
     "fseeko"; "rewind"; "fseeko64"; "getc"; "ungetc"; "memcpy";
     "memset"; "strncpy"; "strchr"; "memcmp"; "memmove"; "ntohl";
     "fgets"; "fgetc"; "getchar"; "bcopy"; "bcmp"; "bzero"]).

(** ** The values of the instructions *)

(** Integer operations (LLVM language reference); [None]: undefined behaviour
    or poison, or a floating-point operation. *)
Definition int_binary (op : binary_opcode) (w x y : Z) : option Z :=
  let overflows := (sgn w x =? - 2 ^ (w - 1)) && (sgn w y =? -1) in
  match op with
  | Add => Some (wrap w (x + y))
  | Sub => Some (wrap w (x - y))
  | Mul => Some (wrap w (x * y))
  | UDiv => if y =? 0 then None else Some (x / y)
  | SDiv => if (y =? 0) || overflows then None
            else Some (wrap w (Z.quot (sgn w x) (sgn w y)))
  | URem => if y =? 0 then None else Some (x mod y)
  | SRem => if (y =? 0) || overflows then None
            else Some (wrap w (Z.rem (sgn w x) (sgn w y)))
  | Shl => if y <? w then Some (wrap w (x * 2 ^ y)) else None
  | LShr => if y <? w then Some (x / 2 ^ y) else None
  | AShr => if y <? w then Some (wrap w (sgn w x / 2 ^ y)) else None
  | And => Some (Z.land x y)
  | Or => Some (Z.lor x y)
  | Xor => Some (Z.lxor x y)
  | FAdd | FSub | FMul | FDiv | FRem => None
  end.

(** Floating-point operations; the remainder is left out. *)
Definition float_binary (op : binary_opcode) (d : bool) (x y : spec_float)
    : option spec_float :=
  match op with
  | FAdd => Some (SFadd (fp_prec d) (fp_emax d) x y)
  | FSub => Some (SFsub (fp_prec d) (fp_emax d) x y)
  | FMul => Some (SFmul (fp_prec d) (fp_emax d) x y)
  | FDiv => Some (SFdiv (fp_prec d) (fp_emax d) x y)
  | _ => None
  end.

Definition int_compare (p : predicate) (w x y : Z) : option bool :=
  match p with
  | ICMP_EQ => Some (x =? y)
  | ICMP_NE => Some (negb (x =? y))
  | ICMP_UGT => Some (y <? x)
  | ICMP_UGE => Some (y <=? x)
  | ICMP_ULT => Some (x <? y)
  | ICMP_ULE => Some (x <=? y)
  | ICMP_SGT => Some (sgn w y <? sgn w x)
  | ICMP_SGE => Some (sgn w y <=? sgn w x)
  | ICMP_SLT => Some (sgn w x <? sgn w y)
  | ICMP_SLE => Some (sgn w x <=? sgn w y)
  | _ => None
  end.

(** IEEE comparison: [None] when an operand is not a number; the predicates
    say which outcomes they accept. *)
Definition float_compare (p : predicate) (x y : spec_float) : option bool :=
  let c := SFcompare x y in
  match p with
  | FCMP_OGT => Some (bool_decide (c ∈ [Some Gt]))
  | FCMP_OGE => Some (bool_decide (c ∈ [Some Gt; Some Datatypes.Eq]))
  | FCMP_OLT => Some (bool_decide (c ∈ [Some Lt]))
  | FCMP_OLE => Some (bool_decide (c ∈ [Some Lt; Some Datatypes.Eq]))
  | FCMP_OEQ => Some (bool_decide (c ∈ [Some Datatypes.Eq]))
  | FCMP_ONE => Some (bool_decide (c ∈ [Some Lt; Some Gt]))
  | FCMP_ORD => Some (bool_decide (c ≠ None))
  | FCMP_UNO => Some (bool_decide (c = None))
  | FCMP_UGT => Some (bool_decide (c ∈ [None; Some Gt]))
  | FCMP_UGE => Some (bool_decide (c ∈ [None; Some Gt; Some Datatypes.Eq]))
  | FCMP_ULT => Some (bool_decide (c ∈ [None; Some Lt]))
  | FCMP_ULE => Some (bool_decide (c ∈ [None; Some Lt; Some Datatypes.Eq]))
  | FCMP_UEQ => Some (bool_decide (c ∈ [None; Some Datatypes.Eq]))
  | FCMP_UNE => Some (bool_decide (c ∈ [None; Some Lt; Some Gt]))
  | _ => None
  end.

(** The value of an expression for the integer [x] of type [iw]: the library
    represents i1 as a Boolean. *)
Definition llvm_value (w x : Z) : value :=
  if w =? 1 then VBool (negb (x =? 0)) else VBV w x.

(** ** The handlers compute the values *)
Lemma int_binary_handler `{Z3I : Z3} op w x y r :
  0 ≤ x < 2 ^ w → 0 ≤ y < 2 ^ w → int_binary op w x y = Some r →
  ∃ b, binaryOperatorHandlers op = build_binary b ∧
    binop_sem b (VBV w x) (VBV w y) = Some (VBV w r).
Proof.
  intros Hx Hy H. destruct op; cbn in H; try done; repeat case_match; simplify_eq;
    (eexists; split; [reflexivity|]); cbn; rewrite Z.eqb_refl; do 2 f_equal.
  - unfold bv_udiv. by replace (y =? 0) with false.
  - apply orb_false_iff in H0 as [? _]. unfold bv_sdiv. by replace (y =? 0) with false.
  - unfold bv_urem. by replace (y =? 0) with false.
  - apply orb_false_iff in H0 as [? _]. unfold bv_srem. by replace (y =? 0) with false.
  - unfold bv_shl. by replace (w <=? y) with false by lia.
  - unfold bv_lshr. by replace (w <=? y) with false by lia.
  - unfold bv_ashr. by replace (w <=? y) with false by lia.
Qed.

Lemma bit_cases x : 0 ≤ x < 2 ^ 1 → x = 0 ∨ x = 1.
Proof. lia. Qed.

Section correct.
Context `{ZL : Z3Laws}.

Lemma binary_handler_makes ρ op (h : handler_fn) w x y r a b s :
  binv s → 0 < w → 0 ≤ x < 2 ^ w → 0 ≤ y < 2 ^ w →
  Z3_eval ρ a = llvm_value w x → Z3_eval ρ b = llvm_value w y →
  binary_handler (w =? 1) op = Some h → int_binary op w x y = Some r →
  makes ρ (h (Some a) (Some b)) s (llvm_value w r).
Proof.
  intros I Hw Hx Hy Ha Hb Hh Hr. unfold binary_handler, llvm_value in *.
  destruct (Z.eqb_spec w 1) as [->|].
  - apply bit_cases in Hx, Hy.
    destruct op; simplify_eq Hh; intros <-; (eapply build_binary_makes; [done..|]);
      cbn in *; simplify_eq; by destruct Hx as [->| ->], Hy as [->| ->].
  - injection Hh as <-. destruct (int_binary_handler op w x y r) as (f&->&E); [done..|].
    by eapply build_binary_makes.
Qed.

Lemma float_binary_makes ρ op d x y r a b s :
  binv s → Z3_eval ρ a = VFP d x → Z3_eval ρ b = VFP d y →
  float_binary op d x y = Some r →
  makes ρ (binaryOperatorHandlers op (Some a) (Some b)) s (VFP d r).
Proof.
  intros I Ha Hb Hr. destruct op; try done; cbn in Hr; simplify_eq;
    (apply (reg_call_makes ρ _ [a; b]); [done|]); cbn; by rewrite Ha, Hb, Bool.eqb_reflx.
Qed.

Lemma int_compare_makes ρ p w x y r a b s :
  binv s → Z3_eval ρ a = llvm_value w x → Z3_eval ρ b = llvm_value w y →
  0 ≤ x < 2 ^ w → 0 ≤ y < 2 ^ w →
  (w = 1 → p ∈ [ICMP_EQ; ICMP_NE]) → int_compare p w x y = Some r →
  makes ρ (comparisonHandlers p (Some a) (Some b)) s (VBool r).
Proof.
  intros I Ha Hb Hx Hy Hp Hr. unfold llvm_value in *.
  assert (∀ u v : value, value_sort u = value_sort v → (u = v ↔ x = y) →
    binop_sem B_equal u v = Some (VBool (x =? y)) ∧
    binop_sem B_not_equal u v = Some (VBool (negb (x =? y)))) as Eqs.
  { intros u v Es E. cbn. rewrite !decide_True by done.
    destruct (Z.eqb_spec x y); [rewrite bool_decide_eq_true_2 by tauto|
                                rewrite bool_decide_eq_false_2 by tauto]; done. }
  destruct (Z.eqb_spec w 1) as [->|].
  - apply bit_cases in Hx, Hy. specialize (Hp eq_refl).
    destruct (Eqs (VBool (negb (x =? 0))) (VBool (negb (y =? 0)))) as [E1 E2]; [done|..].
    { by destruct Hx as [->| ->], Hy as [->| ->]. }
    destruct p; cbn in Hr; simplify_eq; try (by rewrite !elem_of_cons, elem_of_nil in Hp; naive_solver);
      by eapply build_binary_makes.
  - destruct (Eqs (VBV w x) (VBV w y)) as [E1 E2]; [done|naive_solver|].
    destruct p; cbn in Hr; simplify_eq; (eapply build_binary_makes; [done..|]); try done;
      cbn; by rewrite Z.eqb_refl.
Qed.

(** IEEE comparison in terms of the solver's predicates. *)
Lemma is_nan_compare x y : fp_is_nan x || fp_is_nan y = bool_decide (SFcompare x y = None).
Proof.
  destruct x as [[]|[]| |[] m e], y as [[]|[]| |[] m' e']; try done; cbn;
    repeat case_match; done.
Qed.

Lemma compare_swap x y : SFcompare y x = CompOpp <$> SFcompare x y.
Proof.
  destruct x as [[]|[]| |[] m e], y as [[]|[]| |[] m' e']; try done; cbn;
    rewrite (Z.compare_antisym e' e); destruct (Z.compare e' e); try done; cbn;
    change (Pos.compare_cont Datatypes.Eq ?p ?q) with (p ?= q)%positive;
    rewrite (Pos.compare_antisym m' m); by destruct (m' ?= m)%positive.
Qed.

Lemma float_compare_makes ρ p d x y r a b s :
  binv s → Z3_eval ρ a = VFP d x → Z3_eval ρ b = VFP d y →
  (p = FCMP_ONE → SFcompare x y ≠ None) → float_compare p x y = Some r →
  makes ρ (comparisonHandlers p (Some a) (Some b)) s (VBool r).
Proof.
  intros I Ha Hb Hp Hr. eapply compares_makes; [done|].
  assert (∀ op f, (∀ vs, smt_denote op vs = fp_rel f vs) →
    compares ρ s (reg_call op [Some a; Some b]) (f x y)) as Rel.
  { intros op f Hf l s1 O. by eapply post_fp_rel. }
  assert (∀ cmp t, compares ρ s (cmp (Some a) (Some b)) t →
    compares ρ s (float_unordered_or cmp (Some a) (Some b))
      (bool_decide (SFcompare x y = None) || t)) as Or.
  { intros cmp t Hc. rewrite <-is_nan_compare. by eapply unordered_or_compares. }
  assert (compares ρ s (sym_build_float_ordered_not_equal (Some a) (Some b))
    (negb (SFeqb x y))) as Ne by by eapply ordered_not_equal_compares.
  assert (∀ m t, compares ρ s m t → t = r → compares ρ s m r) as Eq by by intros ??? <-.
  assert (SFltb y x = bool_decide (SFcompare x y = Some Gt)) as Gtb.
  { unfold SFltb. rewrite compare_swap. by destruct (SFcompare x y) as [[]|]. }
  assert (SFleb y x = bool_decide (SFcompare x y = Some Gt ∨ SFcompare x y = Some Datatypes.Eq))
    as Geb.
  { unfold SFleb. rewrite compare_swap. by destruct (SFcompare x y) as [[]|]. }
  destruct p; cbn [float_compare] in Hr; try done; injection Hr as Hr;
    cbn [comparisonHandlers];
    (eapply Eq;
     [first [by apply Rel | exact Ne | by eapply ordered_compares; done
            | by eapply unordered_compares; done
            | apply Or; first [by apply Rel | exact Ne]] |];
     rewrite <-Hr, ?Gtb, ?Geb; unfold SFltb, SFleb, SFeqb;
     rewrite ?is_nan_compare; destruct (SFcompare x y) as [[]|]; try done).
  by destruct Hp.
Qed.
End correct.
