(* ===== verification/Symbolizer.v ===== *)
(** * The Symbolizer

    Models compiler/Symbolizer.cpp: for every instruction of a function, the
    code that computes the symbolic expression of its result next to the
    concrete one, and the rewriting that skips the computation when all its
    inputs are concrete.

    The types, values and instructions are those of LLVM that the pass
    distinguishes; what LLVM computes about them (data layout, debug locations,
    loops) comes with the instruction or with the record [DataLayout].  The pass
    inserts code around the instructions; here [visit] appends to [code] what it
    inserts before an instruction, the instruction, and what it inserts after.
    An SSA value of expression type is a number; [None] is the null constant. *)

From S2P Require Import Prelude Dispatch.
From Stdlib Require Import SpecFloat.

#[local] Open Scope Z_scope.
#[local] Set Warnings "-register-all".

(** ** Types and values *)
Inductive ty : Type :=
| IntTy (w : Z)
| FloatTy (is_double : bool)
| PointerTy
| StructTy (elements : list ty)
| ArrayTy (count : Z) (element : ty)
| VoidTy.

Inductive operand : Type :=
| Local (t : ty) (x : nat)      (** the result of an instruction, an argument *)
| ConstantInt (w z : Z)
| ConstantFP (is_double : bool) (f : spec_float)
| ConstantPointerNull
| ConstantStruct (elements : list ty) (fields : list operand)
| UndefStruct (elements : list ty)
| ExtractedValue (t : ty) (v : operand) (i : nat).  (** [CreateExtractValue(V, i)] *)

Definition getType (v : operand) : ty :=
  match v with
  | Local t _ | ExtractedValue t _ _ => t
  | ConstantInt w _ => IntTy w
  | ConstantFP d _ => FloatTy d
  | ConstantPointerNull => PointerTy
  | ConstantStruct ts _ | UndefStruct ts => StructTy ts
  end.

Record DataLayout : Type := {
  ptrBits : Z;
  dl_little_endian : bool;
  (** [getStructLayout(elements)->getElementOffset(i)]. *)
  getElementOffset : list ty → nat → Z;
  getTypeStoreSize : ty → Z;
  getTypeAllocSize : ty → Z;
}.

(** ** Instructions *)

(** One step of the type iterator of a [getelementptr]. *)
Inductive gep_index : Type :=
| StructIndex (elements : list ty) (member : Z)
| SequentialIndex (index : operand) (indexed : ty).

Inductive intrinsic : Type :=
| I_dbg_value | I_is_constant | I_trap | I_memcpy | I_memset | I_memmove
| I_stacksave | I_stackrestore | I_expect | I_fabs
| I_returnaddress | I_frameaddress | I_addressofreturnaddress | I_bswap
| I_add_with_overflow (signed : bool) | I_sub_with_overflow (signed : bool)
| I_mul_with_overflow (signed : bool)
| I_sadd_sat | I_uadd_sat | I_ssub_sat | I_usub_sat | I_sshl_sat | I_ushl_sat
| I_fshl | I_fshr | I_abs | I_eh_typeid_for | I_other.

Inductive callee : Type :=
| Intrinsic (id : intrinsic)
| FunctionCall (f : nat)     (** direct or through a pointer *)
| InlineAsm.

(** What [LoopInfo] says of a conditional branch whose block is the header or
    the latch of a loop: whether the two successors are in the loop. *)
Record loop_query : Type := { S0In : bool; S1In : bool }.

Inductive inst_kind : Type :=
| BinaryOperator (op : binary_opcode) (a b : operand)
| FNeg (a : operand)
| SelectInst (c t f : operand)
| CmpInst (p : predicate) (a b : operand)
| ReturnInst (v : option operand)
| UncondBr
| CondBr (c : operand) (check_type : option string) (loop : option loop_query)
         (loop_guard : bool)
| IndirectBrInst
| CallInst (f : callee) (args : list operand) (user_empty : bool)
| AllocaInst
| LoadInst (ptr : operand)
| StoreInst (v ptr : operand)
| GetElementPtrInst (ptr : operand) (indices : list gep_index)
| BitCastInst (a : operand)
| TruncInst (a : operand)
| IntToPtrInst (a : operand) | PtrToIntInst (a : operand)
| SIToFPInst (a : operand) | UIToFPInst (a : operand)
| FPExtInst (a : operand) | FPTruncInst (a : operand)
| FPToSIInst (a : operand) | FPToUIInst (a : operand)
| SExtInst (a : operand) | ZExtInst (a : operand)
| OtherCast
| PHINode (incoming : list (operand * nat))   (** with the incoming blocks *)
| InsertValueInst (agg v : operand) (indices : list nat)
| ExtractValueInst (agg : operand) (indices : list nat)
| SwitchInst (c : operand) (cases : list Z)
| UnreachableInst
| LandingPadInst | ResumeInst
| OtherInst.

(** [loc]: the debug location and the locations it was inlined at, innermost
    first. *)
Record inst : Type := { name : nat; type : ty; loc : list (string * Z); kind : inst_kind }.

Definition result (I : inst) : operand := Local (type I) (name I).

(** ** The code that the pass generates *)

(** The functions of the run-time library (struct Runtime). *)
Inductive SymFn : Type :=
| buildInteger | buildInteger128 | buildFloat | buildNullPointer | buildBool
| buildSExt | buildZExt | buildTrunc | buildBswap | buildIntToFloat
| buildFloatToFloat | buildBitsToFloat | buildFloatToBits
| buildFloatToSignedInt | buildFloatToUnsignedInt | buildFloatAbs
| buildBoolAnd | buildBoolOr | buildBoolXor | buildBoolToBit | buildBitToBool
| buildAddOverflow | buildSubOverflow | buildMulOverflow
| buildSAddSat | buildUAddSat | buildSSubSat | buildUSubSat | buildSShlSat | buildUShlSat
| buildFshl | buildFshr | buildAbs | buildConcat | buildZeroBytes | buildInsert | buildExtract
| binaryOperatorHandler (op : binary_opcode) | unaryOperatorHandler_FNeg
| comparisonHandler (p : predicate)
| pushPathConstraintWithLoc
| getParameterExpression | setParameterExpression
| setReturnExpression | getReturnExpression
| rt_memcpy | rt_memset | rt_memmove | readMemory | writeMemory
| notifyCall | notifyRet | notifyBasicBlock.

(** The arguments of a call: expressions, concrete values (with the casts that
    the pass inserts) and constants. *)
Inductive arg : Type :=
| AExpr (e : option nat)
| AVal (v : operand)                      (** zero-extended, or a pointer as integer *)
| AZExtOrTrunc (w : Z) (v : operand)
| AFPCast (v : operand)                   (** cast to double *)
| AHigh64 (v : operand) | ALow64 (v : operand)
| ABit (c : nat)                          (** a generated value of type i1 *)
| AInt (z : Z)
| AStr (s : string).

Inductive item : Type :=
| Orig (I : inst)
| Call (dst : nat) (f : SymFn) (args : list arg)
| SelectExpr (dst : nat) (c : operand) (t f : option nat)
| PhiExpr (dst : nat) (incoming : list (option nat * nat))
| ICmpEqNull (dst : nat) (e : option nat)
| ICmpNeNull (dst : nat) (e : option nat)
| ICmpEqConst (dst : nat) (v : operand) (z : Z)
| AndBit (dst a b : nat)
| LoadFlag (dst flag : nat) | StoreFlag (flag : nat) (b : bool)
(** The instructions of [body] are in a block of their own that is entered when
    [c] has the value [on]; afterwards the paths join. *)
| If (c : nat) (on : bool) (body : list item)
(** A phi node where two paths join: [t] when [c] holds, else [f]. *)
| PhiBit (dst c : nat) (t f : option nat).

(** A symbolic input. *)
Record Input : Type := { concreteValue : operand; operandIndex : nat; user : nat }.

(** A symbolic computation with its inputs. *)
Record SymbolicComputation : Type := {
  firstInstruction : option nat;
  lastInstruction : option nat;
  inputs : list Input;
}.

Definition empty_computation : SymbolicComputation :=
  {| firstInstruction := None; lastInstruction := None; inputs := [] |}.

Definition merge (this other : SymbolicComputation) : SymbolicComputation := {|
  firstInstruction := match firstInstruction this with
                      | None => firstInstruction other | Some i => Some i end;
  lastInstruction := lastInstruction other;
  inputs := inputs this ++ inputs other |}.

Record phi_record : Type := { phi_name : nat; phi_incoming : list (operand * nat) }.

(** The members of the class, and the function under construction. *)
Record symbolizer : Type := {
  ID : Z;
  fresh : nat;
  code : list item;
  (** Code inserted at the start of the entry block. *)
  entry : list item;
  (** A value may be mapped to the null pointer. *)
  symbolicExpressions : gmap nat (option nat);
  phiNodes : list phi_record;
  expressionUses : list SymbolicComputation;
}.

Section pass.
Context (DL : DataLayout).
(** The addresses of instructions and blocks in the memory of the compiler. *)
Context (host_address : nat → Z).
#[local] Abbreviation M := (M symbolizer).

Definition set_ID i (s : symbolizer) : symbolizer := {|
  ID := i; fresh := fresh s; code := code s; entry := entry s;
  symbolicExpressions := symbolicExpressions s; phiNodes := phiNodes s;
  expressionUses := expressionUses s |}.
Definition set_fresh n (s : symbolizer) : symbolizer := {|
  ID := ID s; fresh := n; code := code s; entry := entry s;
  symbolicExpressions := symbolicExpressions s; phiNodes := phiNodes s;
  expressionUses := expressionUses s |}.
Definition set_code c (s : symbolizer) : symbolizer := {|
  ID := ID s; fresh := fresh s; code := c; entry := entry s;
  symbolicExpressions := symbolicExpressions s; phiNodes := phiNodes s;
  expressionUses := expressionUses s |}.
Definition set_entry c (s : symbolizer) : symbolizer := {|
  ID := ID s; fresh := fresh s; code := code s; entry := c;
  symbolicExpressions := symbolicExpressions s; phiNodes := phiNodes s;
  expressionUses := expressionUses s |}.
Definition set_expressions m (s : symbolizer) : symbolizer := {|
  ID := ID s; fresh := fresh s; code := code s; entry := entry s;
  symbolicExpressions := m; phiNodes := phiNodes s;
  expressionUses := expressionUses s |}.
Definition set_phis l (s : symbolizer) : symbolizer := {|
  ID := ID s; fresh := fresh s; code := code s; entry := entry s;
  symbolicExpressions := symbolicExpressions s; phiNodes := l;
  expressionUses := expressionUses s |}.
Definition set_uses l (s : symbolizer) : symbolizer := {|
  ID := ID s; fresh := fresh s; code := code s; entry := entry s;
  symbolicExpressions := symbolicExpressions s; phiNodes := phiNodes s;
  expressionUses := l |}.

(** ** IRBuilder *)
Definition new_name : M nat := s <- get ;; modify (set_fresh (S (fresh s))) ;;; ret (fresh s).
Definition emit (it : item) : M unit := modify (λ s, set_code (code s ++ [it]) s).
Definition CreateCall (f : SymFn) (args : list arg) : M nat :=
  r <- new_name ;; emit (Call r f args) ;;; ret r.

(** Code generated elsewhere (another insertion point): [m]'s code, and what
    [m] returns. *)
Definition in_block {A} (m : M A) : M (A * list item) :=
  s <- get ;;
  modify (set_code []) ;;;
  a <- m ;;
  s' <- get ;;
  modify (set_code (code s)) ;;;
  ret (a, code s').

Definition getTargetPreferredInt (p : nat) : arg := AInt (wrap (ptrBits DL) (host_address p)).

(** The source location that reports name: the outermost inlining site. *)
Definition locate (I : inst) : string * Z := default (""%string, -1) (last (loc I)).

(** ** Symbolic expressions of values *)
Definition getSymbolicExpression (s : symbolizer) (v : operand) : option nat :=
  match v with
  | Local _ x => mjoin (symbolicExpressions s !! x)
  | _ => None
  end.

Definition getSymbolicExpressionOrNull := getSymbolicExpression.

Definition set_expression (I : inst) (e : option nat) : M unit :=
  modify (λ s, set_expressions (<[name I := e]> (symbolicExpressions s)) s).

Definition isLittleEndian (t : ty) : bool :=
  match t with
  | StructTy _ | ArrayTy _ _ => false
  | _ => dl_little_endian DL
  end.

(** The arguments of [buildRuntimeCall]: [Sym v] is the pair [{v, true}]. *)
Inductive call_arg : Type :=
| Sym (v : operand)
| Plain (a : arg).

Definition call_value (a : call_arg) : option operand :=
  match a with
  | Sym v | Plain (AVal v) => Some v
  | _ => None
  end.

Fixpoint call_inputs (i : nat) (call : nat) (args : list call_arg) : list Input :=
  match args with
  | [] => []
  | Sym v :: args' =>
      {| concreteValue := v; operandIndex := i; user := call |} :: call_inputs (S i) call args'
  | Plain _ :: args' => call_inputs (S i) call args'
  end.

Definition forceBuildRuntimeCall (function : SymFn) (args : list call_arg)
    : M SymbolicComputation :=
  s <- get ;;
  let functionArgs := (λ a, match a with
                            | Sym v => AExpr (getSymbolicExpressionOrNull s v)
                            | Plain p => p
                            end) <$> args in
  call <- CreateCall function functionArgs ;;
  ret {| firstInstruction := Some call; lastInstruction := Some call;
         inputs := call_inputs 0 call args |}.

Definition buildRuntimeCall (function : SymFn) (args : list call_arg)
    : M (option SymbolicComputation) :=
  s <- get ;;
  if forallb (λ a, match call_value a with
                   | Some v => bool_decide (getSymbolicExpression s v = None)
                   | None => true
                   end) args
  then ret None
  else c <- forceBuildRuntimeCall function args ;; ret (Some c).

Definition registerSymbolicComputation (computation : SymbolicComputation)
    (concrete : option inst) : M unit :=
  (match concrete with
   | Some i => set_expression i (lastInstruction computation)
   | None => ret tt
   end) ;;;
  modify (λ s, set_uses (expressionUses s ++ [computation]) s).

Definition registerOptional (computation : option SymbolicComputation)
    (concrete : option inst) : M unit :=
  match computation with
  | Some c => registerSymbolicComputation c concrete
  | None => ret tt
  end.

(** ** Kinds of expressions *)
Definition convertBitVectorExprForType (I : nat) (T : ty) : M nat :=
  match T with
  | FloatTy d => CreateCall buildBitsToFloat [AExpr (Some I); AInt (if d then 1 else 0)]
  | IntTy w =>
      if w =? 1 then
        result <- CreateCall buildTrunc [AExpr (Some I); AInt 1] ;;
        CreateCall buildBitToBool [AExpr (Some result)]
      else ret I
  | _ => ret I
  end.

(** [Expr] is the C++ pointer: [None] is [nullptr], [Some None] the constant. *)
Definition convertExprForTypeToBitVectorExpr (V : operand) (Expr : option (option nat))
    : M (option SymbolicComputation) :=
  match Expr with
  | None => ret None
  | Some e =>
      match getType V with
      | FloatTy _ =>
          floatBits <- CreateCall buildFloatToBits [AExpr e] ;;
          ret (Some {| firstInstruction := Some floatBits; lastInstruction := Some floatBits;
                       inputs := [{| concreteValue := V; operandIndex := 0; user := floatBits |}] |})
      | IntTy w =>
          if w =? 1 then
            bitExpr <- CreateCall buildBoolToBit [AExpr e] ;;
            bitVectorExpr <- CreateCall buildZExt [AExpr (Some bitExpr); AInt 7] ;;
            ret (Some {| firstInstruction := Some bitExpr; lastInstruction := Some bitVectorExpr;
                         inputs := [{| concreteValue := V; operandIndex := 0; user := bitExpr |}] |})
          else ret None
      | _ => ret None
      end
  end.

Definition append_expr (expr : option nat) (newExpr : nat) : M (option nat) :=
  match expr with
  | Some e => r <- CreateCall buildConcat [AExpr (Some e); AExpr (Some newExpr)] ;; ret (Some r)
  | None => ret (Some newExpr)
  end.

Definition append_padding (expr : option nat) (padding : Z) : M (option nat) :=
  if 0 <? padding then
    z <- CreateCall buildZeroBytes [AInt padding] ;; append_expr expr z
  else ret expr.

Definition valueType_unhandled {A} : M A :=
  fail (Undefined "Unhandled type for constant expression").

(** [createValueExpression(V, IRB)] for a [V] of type [valueType]. *)
Fixpoint createValueExpression (valueType : ty) (V : operand) {struct valueType} : M nat :=
  match V with
  | ConstantPointerNull => CreateCall buildNullPointer []
  | _ =>
      match valueType with
      | IntTy bits =>
          if bits =? 1 then CreateCall buildBool [AVal V]
          else if bits <=? 64 then CreateCall buildInteger [AVal V; AInt (u8 bits)]
          else CreateCall buildInteger128 [AHigh64 V; ALow64 V]
      | FloatTy d => CreateCall buildFloat [AFPCast V; AInt (if d then 1 else 0)]
      | PointerTy => CreateCall buildInteger [AVal V; AInt (u8 (ptrBits DL))]
      | StructTy elements =>
          match V with
          | UndefStruct _ => CreateCall buildZeroBytes [AInt (getTypeStoreSize DL valueType)]
          | _ =>
              members <-
                (fix loop (ts : list ty) (i : nat) (expr : option nat) (offset : Z) {struct ts}
                     : M (option nat * Z) :=
                   match ts with
                   | [] => ret (expr, offset)
                   | t :: ts' =>
                       expr <- append_padding expr (getElementOffset DL elements i - offset) ;;
                       let element := match V with
                                      | ConstantStruct _ fields =>
                                          default ConstantPointerNull (fields !! i)
                                      | _ => ExtractedValue t V i
                                      end in
                       elementExpr <- createValueExpression t element ;;
                       conversion <- convertExprForTypeToBitVectorExpr element
                                       (Some (Some elementExpr)) ;;
                       let elementExpr := match conversion with
                                          | Some c => default elementExpr (lastInstruction c)
                                          | None => elementExpr
                                          end in
                       elementExpr <-
                         (if isLittleEndian t && (1 <? getTypeStoreSize DL t)
                          then CreateCall buildBswap [AExpr (Some elementExpr)]
                          else ret elementExpr) ;;
                       expr <- append_expr expr elementExpr ;;
                       loop ts' (S i) expr (getElementOffset DL elements i + getTypeStoreSize DL t)
                   end) elements O None 0 ;;
              let '(expr, offset) := members in
              expr <- append_padding expr (getTypeStoreSize DL valueType - offset) ;;
              match expr with
              | Some e => ret e
              | None => fail (Undefined "null instruction")   (* an empty struct *)
              end
          end
      | ArrayTy _ _ | VoidTy => valueType_unhandled
      end
  end.

Fixpoint aggregateMemberOffset (indexedType : ty) (indices : list nat) : M Z :=
  match indices with
  | [] => ret 0
  | index :: rest =>
      match indexedType with
      | StructTy elements =>
          match elements !! index with
          | Some t =>
              offset <- aggregateMemberOffset t rest ;;
              ret (u64 (getElementOffset DL elements index + offset))
          | None => fail (Undefined "no such member")
          end
      | ArrayTy _ t =>
          let elementSize := u32 (getTypeAllocSize DL t) in
          offset <- aggregateMemberOffset t rest ;;
          ret (u64 (u32 (elementSize * Z.of_nat index) + offset))
      | _ => fail (Undefined "cast<ArrayType>")
      end
  end.

(** ** Calls *)
Fixpoint get_parameters (argNo : Z) (args : list (nat * bool)) : M unit :=
  match args with
  | [] => ret tt
  | (x, user_empty) :: args' =>
      (if (user_empty : bool) then ret tt
       else
         e <- CreateCall getParameterExpression [AInt (u8 argNo)] ;;
         modify (λ s, set_expressions (<[x := Some e]> (symbolicExpressions s)) s)) ;;;
      get_parameters (argNo + 1) args'
  end.

Definition symbolizeFunctionArguments (function_name : string) (args : list (nat * bool))
    : M unit :=
  if bool_decide (function_name = "main"%string) then ret tt else get_parameters 0 args.

Definition insertBasicBlockNotification (b : nat) : M unit :=
  _ <- CreateCall notifyBasicBlock [getTargetPreferredInt b] ;; ret tt.

Definition bool_arg (b : bool) : arg := AInt (if b then 1 else 0).

Definition nth_arg (args : list operand) (i : nat) : M operand :=
  match args !! i with
  | Some a => ret a
  | None => fail (Undefined "no such operand")
  end.

(** Calls of a run-time function on the expressions of the first [n] operands. *)
Definition build_intrinsic (I : inst) (f : SymFn) (n : nat) (args : list operand)
    (extra : list arg) : M unit :=
  c <- buildRuntimeCall f ((Sym <$> take n args) ++ (Plain <$> extra)) ;;
  registerOptional c (Some I).

Definition handleIntrinsicCall (I : inst) (id : intrinsic) (args : list operand) : M unit :=
  match id with
  | I_dbg_value | I_is_constant | I_trap | I_stacksave | I_stackrestore
  | I_returnaddress | I_frameaddress | I_addressofreturnaddress
  | I_eh_typeid_for | I_other => ret tt
  | I_memcpy | I_memmove =>
      d <- nth_arg args 0 ;; s <- nth_arg args 1 ;; n <- nth_arg args 2 ;;
      _ <- CreateCall (match id with I_memcpy => rt_memcpy | _ => rt_memmove end)
             [AVal d; AVal s; AZExtOrTrunc (ptrBits DL) n] ;;
      ret tt
  | I_memset =>
      d <- nth_arg args 0 ;; v <- nth_arg args 1 ;; n <- nth_arg args 2 ;;
      s <- get ;;
      _ <- CreateCall rt_memset [AVal d; AExpr (getSymbolicExpressionOrNull s v);
                                 AZExtOrTrunc (ptrBits DL) n] ;;
      ret tt
  | I_expect =>
      a <- nth_arg args 0 ;;
      s <- get ;;
      match getSymbolicExpression s a with
      | Some e => set_expression I (Some e)
      | None => ret tt
      end
  | I_fabs => build_intrinsic I buildFloatAbs 1 args []
  | I_bswap => build_intrinsic I buildBswap 1 args []
  | I_add_with_overflow b =>
      build_intrinsic I buildAddOverflow 2 args [bool_arg b; bool_arg (dl_little_endian DL)]
  | I_sub_with_overflow b =>
      build_intrinsic I buildSubOverflow 2 args [bool_arg b; bool_arg (dl_little_endian DL)]
  | I_mul_with_overflow b =>
      build_intrinsic I buildMulOverflow 2 args [bool_arg b; bool_arg (dl_little_endian DL)]
  | I_sadd_sat => build_intrinsic I buildSAddSat 2 args []
  | I_uadd_sat => build_intrinsic I buildUAddSat 2 args []
  | I_ssub_sat => build_intrinsic I buildSSubSat 2 args []
  | I_usub_sat => build_intrinsic I buildUSubSat 2 args []
  | I_sshl_sat => build_intrinsic I buildSShlSat 2 args []
  | I_ushl_sat => build_intrinsic I buildUShlSat 2 args []
  | I_fshl => build_intrinsic I buildFshl 3 args []
  | I_fshr => build_intrinsic I buildFshr 3 args []
  | I_abs => build_intrinsic I buildAbs 1 args []
  end.

Fixpoint set_parameters (i : Z) (args : list operand) : M unit :=
  match args with
  | [] => ret tt
  | a :: args' =>
      s <- get ;;
      _ <- CreateCall setParameterExpression
             [AInt (u8 i); AExpr (getSymbolicExpressionOrNull s a)] ;;
      set_parameters (i + 1) args'
  end.

(** The code before the call, the call and the code at the return point. *)
Definition handleFunctionCall (I : inst) (f : nat) (args : list operand) (user_empty : bool)
    : M unit :=
  _ <- CreateCall notifyCall [getTargetPreferredInt (name I)] ;;
  set_parameters 0 args ;;;
  (if user_empty then ret tt
   else _ <- CreateCall setReturnExpression [AExpr None] ;; ret tt) ;;;
  emit (Orig I) ;;;
  _ <- CreateCall notifyRet [getTargetPreferredInt (name I)] ;;
  if user_empty then ret tt
  else e <- CreateCall getReturnExpression [] ;; set_expression I (Some e).

(** ** The visitors *)

(** [ID++], as the C++ [int] and then [getInt32]. *)
Definition next_slot : M Z := s <- get ;; modify (set_ID (u64 (ID s + 1))) ;;; ret (ID s).

Definition push_arguments (I : inst) (c : operand) (slot : Z) : list call_arg :=
  let (filename, line) := locate I in
  [Sym c; Plain (AVal c); Plain (getTargetPreferredInt (name I));
   Plain (AStr filename); Plain (AInt (u32 line)); Plain (AInt (u32 slot))].

Definition visitBinaryOperator (I : inst) (op : binary_opcode) (a b : operand) : M unit :=
  handler <-
    (match getType a with
     | IntTy 1 =>
         match op with
         | And => ret buildBoolAnd
         | Or => ret buildBoolOr
         | Xor => ret buildBoolXor
         | _ => fail (Undefined "Unknown Boolean operator")
         end
     | _ => ret (binaryOperatorHandler op)
     end) ;;
  runtimeCall <- buildRuntimeCall handler [Sym a; Sym b] ;;
  registerOptional runtimeCall (Some I).

Definition visitUnaryOperator (I : inst) (a : operand) : M unit :=
  runtimeCall <- buildRuntimeCall unaryOperatorHandler_FNeg [Sym a] ;;
  registerOptional runtimeCall (Some I).

Definition visitSelectInst (I : inst) (c t f : operand) : M unit :=
  slot <- next_slot ;;
  runtimeCall <- buildRuntimeCall pushPathConstraintWithLoc (push_arguments I c slot) ;;
  registerOptional runtimeCall None ;;;
  s <- get ;;
  match getSymbolicExpression s t, getSymbolicExpression s f with
  | None, None => ret tt
  | et, ef =>
      data <- new_name ;;
      emit (SelectExpr data c et ef) ;;;
      set_expression I (Some data)
  end.

Definition visitCmpInst (I : inst) (p : predicate) (a b : operand) : M unit :=
  runtimeCall <- buildRuntimeCall (comparisonHandler p) [Sym a; Sym b] ;;
  registerOptional runtimeCall (Some I).

Definition visitReturnInst (I : inst) (v : option operand) : M unit :=
  match v with
  | None => ret tt
  | Some v =>
      s <- get ;;
      _ <- CreateCall setReturnExpression [AExpr (getSymbolicExpressionOrNull s v)] ;; ret tt
  end.

(** The offset of the slot for the branches of the numeric checkers. *)
Definition check_slot (check_type : string) : Z :=
  if bool_decide (check_type = "int_overflow"%string) then 1000
  else if bool_decide (check_type = "int_divided_by_zero"%string) then 2000
  else if bool_decide (check_type = "int_exceptional_signed_value"%string) then 3000
  else if bool_decide (check_type = "int_exceptional_unsigned_value"%string) then 4000
  else if bool_decide (check_type = "fp_overflow"%string) then 5000
  else if bool_decide (check_type = "fp_divided_by_zero"%string) then 6000
  else if bool_decide (check_type = "fp_exceptional_value"%string) then 7000
  else if bool_decide (check_type = "int_exceptional_signed_minus_value"%string) then 8000
  else if bool_decide (check_type = "int_exceptional_max_value"%string) then 9000
  else if bool_decide (check_type = "int_exceptional_min_value"%string) then 10000
  else if bool_decide (check_type = "int_exceptional_signed_max_value"%string) then 11000
  else if bool_decide (check_type = "int_exceptional_signed_min_value"%string) then 12000
  else if bool_decide (check_type = "fp_exceptional_minus_value"%string) then 13000
  else if bool_decide (check_type = "fp_exceptional_max_value"%string) then 14000
  else if bool_decide (check_type = "fp_exceptional_min_value"%string) then 15000
  else 0.

(** The condition of a loop is pushed in the first iteration only: a flag of
    the function remembers it. *)
Definition visit_loop_condition (I : inst) (c : operand) : M unit :=
  flag <- new_name ;;
  modify (λ s, set_entry (StoreFlag flag false :: entry s) s) ;;;
  Seen <- new_name ;;
  emit (LoadFlag Seen flag) ;;;
  push <- in_block (
     runtimeCall <- buildRuntimeCall pushPathConstraintWithLoc (push_arguments I c (-1)) ;;
     registerOptional runtimeCall None ;;;
     emit (StoreFlag flag true)) ;;
  emit (If Seen false push.2).

Definition visitBranchInst (I : inst) (c : operand) (check_type : option string)
    (loop : option loop_query) (loop_guard : bool) : M unit :=
  slot <- next_slot ;;
  let slot := match check_type with Some t => slot + check_slot t | None => slot end in
  match loop with
  | Some q =>
      if xorb (S0In q) (S1In q) then
        if loop_guard then ret tt else visit_loop_condition I c
      else
        runtimeCall <- buildRuntimeCall pushPathConstraintWithLoc (push_arguments I c slot) ;;
        registerOptional runtimeCall None
  | None =>
      runtimeCall <- buildRuntimeCall pushPathConstraintWithLoc (push_arguments I c slot) ;;
      registerOptional runtimeCall None
  end.

Definition visitLoadInst (I : inst) (addr : operand) : M unit :=
  let dataType := type I in
  data <- CreateCall readMemory
    [AVal addr; AInt (getTypeStoreSize DL dataType); bool_arg (isLittleEndian dataType)] ;;
  e <- convertBitVectorExprForType data dataType ;;
  set_expression I (Some e).

Definition visitStoreInst (V ptr : operand) : M unit :=
  s <- get ;;
  maybeConversion <- convertExprForTypeToBitVectorExpr V (Some <$> getSymbolicExpression s V) ;;
  _ <- CreateCall writeMemory
    [AVal ptr; AInt (getTypeStoreSize DL (getType V));
     AExpr (match maybeConversion with
            | Some c => lastInstruction c
            | None => getSymbolicExpressionOrNull s V
            end);
     bool_arg (isLittleEndian (getType V))] ;;
  ret tt.

Definition gep_operand (i : gep_index) : operand :=
  match i with
  | StructIndex _ member => ConstantInt 32 member
  | SequentialIndex index _ => index
  end.

Definition is_zero_constant (v : operand) : bool :=
  match v with ConstantInt w z => wrap w z =? 0 | _ => false end.

Definition int_width (v : operand) : Z :=
  match getType v with IntTy w => w | _ => 0 end.

(** One step of the address calculation; [currentAddress] is [None] while it is
    still the pointer operand. *)
Definition visit_gep_index (ptr : operand) (computation : SymbolicComputation)
    (currentAddress : option nat) (i : gep_index)
    : M (SymbolicComputation * option nat) :=
  let add (computation : SymbolicComputation) (addressContribution : call_arg) :=
    c <- forceBuildRuntimeCall (binaryOperatorHandler Add)
           [addressContribution;
            match currentAddress with
            | None => Sym ptr
            | Some e => Plain (AExpr (Some e))
            end] ;;
    let computation := merge computation c in
    ret (computation, lastInstruction computation) in
  match i with
  | StructIndex elements member =>
      let memberOffset := u32 (getElementOffset DL elements (Z.to_nat member)) in
      add computation (Sym (ConstantInt (ptrBits DL) memberOffset))
  | SequentialIndex index indexed =>
      if is_zero_constant index then ret (computation, currentAddress)
      else
        let elementSize := u32 (getTypeAllocSize DL indexed) in
        let indexWidth := int_width index in
        computation <-
          (if negb (indexWidth =? ptrBits DL) then
             c <- forceBuildRuntimeCall buildZExt
                    [Sym index; Plain (AInt (u8 (ptrBits DL - indexWidth)))] ;;
             let computation := merge computation c in
             c <- forceBuildRuntimeCall (binaryOperatorHandler Mul)
                    [Plain (AExpr (lastInstruction computation));
                     Sym (ConstantInt (ptrBits DL) elementSize)] ;;
             ret (merge computation c)
           else
             c <- forceBuildRuntimeCall (binaryOperatorHandler Mul)
                    [Sym index; Sym (ConstantInt (ptrBits DL) elementSize)] ;;
             ret (merge computation c)) ;;
        add computation (Plain (AExpr (lastInstruction computation)))
  end.

Fixpoint visit_gep_indices (ptr : operand) (computation : SymbolicComputation)
    (currentAddress : option nat) (indices : list gep_index) : M SymbolicComputation :=
  match indices with
  | [] => ret computation
  | i :: rest =>
      next <- visit_gep_index ptr computation currentAddress i ;;
      visit_gep_indices ptr next.1 next.2 rest
  end.

Definition visitGetElementPtrInst (I : inst) (ptr : operand) (indices : list gep_index)
    : M unit :=
  s <- get ;;
  if bool_decide (getSymbolicExpression s ptr = None) &&
     forallb (λ i, bool_decide (getSymbolicExpression s (gep_operand i) = None)) indices
  then ret tt
  else if forallb (λ i, is_zero_constant (gep_operand i)) indices
  then set_expression I (getSymbolicExpression s ptr)
  else
    computation <- visit_gep_indices ptr empty_computation None indices ;;
    registerSymbolicComputation computation (Some I).

(** The result has the expression of [a], if there is one. *)
Definition copy_expression (I : inst) (a : operand) : M unit :=
  s <- get ;;
  match getSymbolicExpression s a with
  | Some e => set_expression I (Some e)
  | None => ret tt
  end.

Definition visitBitCastInst (I : inst) (a : operand) : M unit :=
  match getType a, type I with
  | IntTy _, FloatTy d =>
      conversion <- buildRuntimeCall buildBitsToFloat [Sym a; Plain (bool_arg d)] ;;
      registerOptional conversion (Some I)
  | FloatTy _, IntTy _ =>
      conversion <- buildRuntimeCall buildFloatToBits [Sym a] ;;
      registerOptional conversion None
  | PointerTy, PointerTy => copy_expression I a
  | _, _ => fail (Assert "Unhandled non-pointer bit cast")
  end.

Definition visitTruncInst (I : inst) (a : operand) : M unit :=
  s <- get ;;
  if bool_decide (getSymbolicExpression s a = None) then ret tt
  else
    let w := int_width (result I) in
    c <- forceBuildRuntimeCall buildTrunc [Sym a; Plain (AInt (u8 w))] ;;
    let computation := merge empty_computation c in
    computation <-
      (if w =? 1 then
         c <- forceBuildRuntimeCall buildBitToBool
                [Plain (AExpr (lastInstruction computation))] ;;
         ret (merge computation c)
       else ret computation) ;;
    registerSymbolicComputation computation (Some I).

Definition is_double (t : ty) : bool := match t with FloatTy d => d | _ => false end.

Definition visit_int_to_fp (I : inst) (a : operand) (is_signed : bool) : M unit :=
  conversion <- buildRuntimeCall buildIntToFloat
    [Sym a; Plain (bool_arg (is_double (type I))); Plain (bool_arg is_signed)] ;;
  registerOptional conversion (Some I).
Definition visitSIToFPInst (I : inst) (a : operand) : M unit := visit_int_to_fp I a true.
Definition visitUIToFPInst (I : inst) (a : operand) : M unit := visit_int_to_fp I a false.

Definition visit_fp_to_fp (I : inst) (a : operand) : M unit :=
  conversion <- buildRuntimeCall buildFloatToFloat
    [Sym a; Plain (bool_arg (is_double (type I)))] ;;
  registerOptional conversion (Some I).
Definition visitFPExtInst := visit_fp_to_fp.
Definition visitFPTruncInst := visit_fp_to_fp.

(** [visitCastInst] for sign and zero extension. *)
Definition visit_extension (I : inst) (target : SymFn) (a : operand) : M unit :=
  let src := int_width a in
  let dest := int_width (result I) in
  if src =? 1 then
    c <- forceBuildRuntimeCall buildBoolToBit [Sym a] ;;
    let computation := merge empty_computation c in
    c <- forceBuildRuntimeCall target
           [Plain (AExpr (lastInstruction computation)); Plain (AInt (u8 (dest - 1)))] ;;
    registerSymbolicComputation (merge computation c) (Some I)
  else
    symbolicCast <- buildRuntimeCall target [Sym a; Plain (AInt (u8 (dest - src)))] ;;
    registerOptional symbolicCast (Some I).

(** The other casts that have no visitor of their own are concretized. *)
Definition visitCastInst (I : inst) : M unit :=
  match kind I with
  | SExtInst a => visit_extension I buildSExt a
  | ZExtInst a => visit_extension I buildZExt a
  | _ => ret tt
  end.

Definition visitPHINode (I : inst) (incoming : list (operand * nat)) : M unit :=
  modify (λ s, set_phis
    (phiNodes s ++ [{| phi_name := name I; phi_incoming := incoming |}]) s) ;;;
  exprPHI <- new_name ;;
  emit (PhiExpr exprPHI ((λ p, (None, p.2)) <$> incoming)) ;;;
  set_expression I (Some exprPHI).

Definition visitInsertValueInst (I : inst) (target insertedValue : operand)
    (indices : list nat) : M unit :=
  s <- get ;;
  match getSymbolicExpression s target, getSymbolicExpression s insertedValue with
  | None, None => ret tt
  | _, _ =>
      maybeConversion <- convertExprForTypeToBitVectorExpr insertedValue
        (Some (getSymbolicExpressionOrNull s insertedValue)) ;;
      offset <- aggregateMemberOffset (getType target) indices ;;
      insert <- CreateCall buildInsert
        [AExpr (getSymbolicExpressionOrNull s target);
         AExpr (match maybeConversion with
                | Some c => lastInstruction c
                | None => getSymbolicExpressionOrNull s insertedValue
                end);
         AInt offset; bool_arg (isLittleEndian (getType insertedValue))] ;;
      let target_input := {| concreteValue := target; operandIndex := 0; user := insert |} in
      let insertComputation (more : list Input) :=
        {| firstInstruction := Some insert; lastInstruction := Some insert;
           inputs := target_input :: more |} in
      registerSymbolicComputation
        (match maybeConversion with
         | None => insertComputation
             [{| concreteValue := insertedValue; operandIndex := 1; user := insert |}]
         | Some conversion => merge conversion (insertComputation [])
         end) (Some I)
  end.

Definition visitExtractValueInst (I : inst) (target : operand) (indices : list nat) : M unit :=
  s <- get ;;
  match getSymbolicExpression s target with
  | None => ret tt
  | Some targetExpr =>
      let resultType := type I in
      offset <- aggregateMemberOffset (getType target) indices ;;
      extractedBits <- CreateCall buildExtract
        [AExpr (Some targetExpr); AInt offset; AInt (getTypeStoreSize DL resultType);
         bool_arg (isLittleEndian resultType)] ;;
      result <- convertBitVectorExprForType extractedBits resultType ;;
      registerSymbolicComputation
        {| firstInstruction := Some extractedBits; lastInstruction := Some result;
           inputs := [{| concreteValue := target; operandIndex := 0; user := extractedBits |}] |}
        (Some I)
  end.

Fixpoint push_cases (I : inst) (c : operand) (conditionExpr : nat) (slot : Z) (cases : list Z)
    : M unit :=
  match cases with
  | [] => ret tt
  | z :: cases' =>
      let (filename, line) := locate I in
      caseTaken <- new_name ;;
      emit (ICmpEqConst caseTaken c z) ;;;
      caseValue <- createValueExpression (getType c) (ConstantInt (int_width c) z) ;;
      caseConstraint <- CreateCall (comparisonHandler ICMP_EQ)
        [AExpr (Some conditionExpr); AExpr (Some caseValue)] ;;
      _ <- CreateCall pushPathConstraintWithLoc
        [AExpr (Some caseConstraint); ABit caseTaken; getTargetPreferredInt (name I);
         AStr filename; AInt (u32 line); AInt (u32 slot)] ;;
      push_cases I c conditionExpr slot cases'
  end.

Definition visitSwitchInst (I : inst) (c : operand) (cases : list Z) : M unit :=
  s <- get ;;
  match getSymbolicExpression s c with
  | None => ret tt
  | Some conditionExpr =>
      slot <- next_slot ;;
      haveSymbolicCondition <- new_name ;;
      emit (ICmpNeNull haveSymbolicCondition (Some conditionExpr)) ;;;
      constraintBlock <- in_block (push_cases I c conditionExpr slot cases) ;;
      emit (If haveSymbolicCondition true constraintBlock.2)
  end.

(** [InstVisitor::visit]: instructions without a visitor are handled by the
    visitor of their superclass.  [FPToSIInst] and [FPToUIInst] are casts:
    [visitFPToSI] and [visitFPToUI] are not names that the visitor calls. *)
Definition visit_before (I : inst) : M unit :=
  match kind I with
  | BinaryOperator op a b => visitBinaryOperator I op a b
  | FNeg a => visitUnaryOperator I a
  | SelectInst c t f => visitSelectInst I c t f
  | CmpInst p a b => visitCmpInst I p a b
  | ReturnInst v => visitReturnInst I v
  | CondBr c check_type loop guard => visitBranchInst I c check_type loop guard
  | LoadInst ptr => visitLoadInst I ptr
  | StoreInst v ptr => visitStoreInst v ptr
  | GetElementPtrInst ptr indices => visitGetElementPtrInst I ptr indices
  | BitCastInst a => visitBitCastInst I a
  | TruncInst a => visitTruncInst I a
  | IntToPtrInst a | PtrToIntInst a => copy_expression I a
  | SIToFPInst a => visitSIToFPInst I a
  | UIToFPInst a => visitUIToFPInst I a
  | FPExtInst a => visitFPExtInst I a
  | FPTruncInst a => visitFPTruncInst I a
  | SExtInst _ | ZExtInst _ | FPToSIInst _ | FPToUIInst _ | OtherCast => visitCastInst I
  | PHINode incoming => visitPHINode I incoming
  | InsertValueInst agg v indices => visitInsertValueInst I agg v indices
  | ExtractValueInst agg indices => visitExtractValueInst I agg indices
  | SwitchInst c cases => visitSwitchInst I c cases
  | CallInst (Intrinsic id) args _ => handleIntrinsicCall I id args
  | CallInst _ _ _ | UncondBr | IndirectBrInst | AllocaInst
  | UnreachableInst | LandingPadInst | ResumeInst | OtherInst => ret tt
  end.

Definition visit (I : inst) : M unit :=
  match kind I with
  | CallInst (FunctionCall f) args user_empty => handleFunctionCall I f args user_empty
  | _ => visit_before I ;;; emit (Orig I)
  end.

Fixpoint visit_all (l : list inst) : M unit :=
  match l with
  | [] => ret tt
  | i :: l' => visit i ;;; visit_all l'
  end.

(** ** Finishing phi nodes *)

(** [replaceAllUsesWith] and [setIncomingValue] on the generated code. *)
Definition map_expr (f : option nat → option nat) (a : arg) : arg :=
  match a with AExpr e => AExpr (f e) | _ => a end.

Fixpoint map_uses (f : option nat → option nat) (it : item) : item :=
  match it with
  | Call d g args => Call d g (map_expr f <$> args)
  | SelectExpr d c t e => SelectExpr d c (f t) (f e)
  | PhiExpr d incoming => PhiExpr d ((λ p, (f p.1, p.2)) <$> incoming)
  | ICmpEqNull d e => ICmpEqNull d (f e)
  | ICmpNeNull d e => ICmpNeNull d (f e)
  | If c on body => If c on (map (map_uses f) body)
  | PhiBit d c t e => PhiBit d c (f t) (f e)
  | Orig _ | ICmpEqConst _ _ _ | AndBit _ _ _ | LoadFlag _ _ | StoreFlag _ _ => it
  end.

Definition set_incoming (phi : nat) (incoming : list (option nat * nat)) (it : item) : item :=
  match it with
  | PhiExpr d _ => if decide (d = phi) then PhiExpr d incoming else it
  | _ => it
  end.

Definition is_phi (phi : nat) (it : item) : bool :=
  match it with PhiExpr d _ => bool_decide (d = phi) | _ => false end.

(** The first loop: the phi nodes with a symbolic input get their incoming
    expressions; the others are returned. *)
Fixpoint finalize_incoming (phis : list phi_record) : M (list nat) :=
  match phis with
  | [] => ret []
  | p :: phis' =>
      s <- get ;;
      match mjoin (symbolicExpressions s !! phi_name p) with
      | None => fail (Undefined "cast<PHINode> of null")
      | Some symbolicPHI =>
          if forallb (λ i, bool_decide (getSymbolicExpression s i.1 = None)) (phi_incoming p)
          then l <- finalize_incoming phis' ;; ret (symbolicPHI :: l)
          else
            modify (λ s, set_code (set_incoming symbolicPHI
              ((λ i, (getSymbolicExpressionOrNull s i.1, i.2)) <$> phi_incoming p)
              <$> code s) s) ;;;
            finalize_incoming phis'
      end
  end.

Definition erase_phi (symbolicPHI : nat) : M unit :=
  modify (λ s, set_code
    (filter (λ it, is_phi symbolicPHI it = false)
      (map_uses (λ e, if decide (e = Some symbolicPHI) then None else e) <$> code s)) s).

Fixpoint erase_phis (nodesToErase : list nat) : M unit :=
  match nodesToErase with
  | [] => ret tt
  | phi :: rest => erase_phi phi ;;; erase_phis rest
  end.

Definition finalizePHINodes : M unit :=
  s <- get ;;
  nodesToErase <- finalize_incoming (phiNodes s) ;;
  erase_phis nodesToErase ;;;
  modify (set_expressions ∅).

(** ** Short-circuiting *)
Definition defines (r : nat) (it : item) : bool :=
  match it with Call d _ _ => (d =? r)%nat | _ => false end.

Definition uses_expr (r : nat) (e : option nat) : bool := bool_decide (e = Some r).

Definition arg_uses (r : nat) (a : arg) : bool :=
  match a with AExpr e => uses_expr r e | _ => false end.

Fixpoint item_uses (r : nat) (it : item) : bool :=
  match it with
  | Call _ _ args => existsb (arg_uses r) args
  | SelectExpr _ _ t f => uses_expr r t || uses_expr r f
  | PhiExpr _ incoming => existsb (λ p, uses_expr r p.1) incoming
  | ICmpEqNull _ e | ICmpNeNull _ e => uses_expr r e
  | PhiBit _ _ t f => uses_expr r t || uses_expr r f
  | If _ _ body => existsb (item_uses r) body
  | _ => false
  end.

(** The call arguments that a computation's inputs refer to; [seg] is the code
    from its first to its last instruction. *)
Definition getSymbolicOperand (seg : list item) (i : Input) : option nat :=
  match list_find (λ it, defines (user i) it = true) seg with
  | Some (_, Call _ _ args) =>
      match args !! operandIndex i with Some (AExpr e) => e | _ => None end
  | _ => None
  end.

Definition replaceOperand (i : Input) (newOperand : option nat) (seg : list item) : list item :=
  (λ it, match it with
         | Call d f args =>
             if (d =? user i)%nat then Call d f (<[operandIndex i := AExpr newOperand]> args)
             else it
         | _ => it
         end) <$> seg.

(** The result of the computation is renamed inside of the slow path, so that
    the phi node at its end can take over the name and thereby all uses. *)
Definition rename_result (r r' : nat) (seg : list item) : list item :=
  (λ it, match it with
         | Call d f args => if (d =? r)%nat then Call r' f args else it
         | _ => it
         end) <$> seg.

Fixpoint null_checks (seg : list item) (ins : list Input) : M (list nat) :=
  match ins with
  | [] => ret []
  | i :: ins' =>
      n <- new_name ;;
      emit (ICmpEqNull n (getSymbolicOperand seg i)) ;;;
      l <- null_checks seg ins' ;;
      ret (n :: l)
  end.

Fixpoint and_all (allConcrete : nat) (checks : list nat) : M nat :=
  match checks with
  | [] => ret allConcrete
  | n :: checks' =>
      a <- new_name ;; emit (AndBit a allConcrete n) ;;; and_all a checks'
  end.

Definition numUnknownConcreteness (seg : list item) (ins : list Input) : nat :=
  length (filter (λ i, getSymbolicOperand seg i ≠ None) ins).

(** The loop over the arguments, in the slow path: create the expressions that
    are missing. *)
Fixpoint check_arguments (unknown : nat) (seg : list item) (l : list (Input * nat))
    : M (list item) :=
  match l with
  | [] => ret seg
  | (argument, nullCheck) :: l' =>
      let originalArgExpression := getSymbolicOperand seg argument in
      let needRuntimeCheck := bool_decide (originalArgExpression ≠ None) in
      let V := concreteValue argument in
      if needRuntimeCheck && (unknown =? 1)%nat then check_arguments unknown seg l'
      else if needRuntimeCheck then
        newArg <- in_block (createValueExpression (getType V) V) ;;
        emit (If nullCheck true newArg.2) ;;;
        argPHI <- new_name ;;
        emit (PhiBit argPHI nullCheck (Some newArg.1) originalArgExpression) ;;;
        check_arguments unknown (replaceOperand argument (Some argPHI) seg) l'
      else
        newArgExpression <- createValueExpression (getType V) V ;;
        check_arguments unknown (replaceOperand argument (Some newArgExpression) seg) l'
  end.

Fixpoint emit_all (l : list item) : M unit :=
  match l with [] => ret tt | it :: l' => emit it ;;; emit_all l' end.

(** The code that replaces [seg]; [used]: whether the result has uses. *)
Definition shortCircuit (c : SymbolicComputation) (used : bool) (seg : list item) : M unit :=
  nullChecks <- null_checks seg (inputs c) ;;
  match nullChecks, lastInstruction c with
  | n :: checks, Some last =>
      allConcrete <- and_all n checks ;;
      last' <- (if used then new_name else ret last) ;;
      slowPath <- in_block (
         seg' <- check_arguments (numUnknownConcreteness seg (inputs c)) seg
                   (zip (inputs c) nullChecks) ;;
         emit_all (rename_result last last' seg')) ;;
      emit (If allConcrete false slowPath.2) ;;;
      if used then emit (PhiBit last allConcrete None (Some last')) else ret tt
  | _, _ => fail (Assert "Symbolic computation has no inputs")
  end.

(** The code up to and including the definition of [last], and the rest. *)
Fixpoint split_after (last : nat) (l : list item) : option (list item * list item) :=
  match l with
  | [] => None
  | it :: l' =>
      if defines last it then Some ([it], l')
      else match split_after last l' with
           | Some (seg, post) => Some (it :: seg, post)
           | None => None
           end
  end.

(** Replace the code of [c], wherever it is. *)
Definition rewrite_list (c : SymbolicComputation) (used : bool) (rewrite_item : item → M unit)
    : list item → M unit :=
  fix go l :=
    match l with
    | [] => ret tt
    | it :: l' =>
        match firstInstruction c, lastInstruction c with
        | Some first, Some last =>
            if defines first it then
              match split_after last l with
              | Some (seg, post) => shortCircuit c used seg ;;; emit_all post
              | None => fail (Undefined "the last instruction is in another block")
              end
            else rewrite_item it ;;; go l'
        | _, _ => rewrite_item it ;;; go l'
        end
    end.

Fixpoint rewrite_item (c : SymbolicComputation) (used : bool) (it : item) : M unit :=
  match it with
  | If b on body =>
      body' <- in_block (rewrite_list c used (rewrite_item c used) body) ;;
      emit (If b on body'.2)
  | _ => emit it
  end.

Definition shortCircuitOne (c : SymbolicComputation) : M unit :=
  s <- get ;;
  let used := match lastInstruction c with
              | Some r => existsb (item_uses r) (code s)
              | None => false
              end in
  modify (set_code []) ;;;
  rewrite_list c used (rewrite_item c used) (code s).

Fixpoint shortCircuitUses (l : list SymbolicComputation) : M unit :=
  match l with
  | [] => ret tt
  | c :: l' => shortCircuitOne c ;;; shortCircuitUses l'
  end.

Definition shortCircuitExpressionUses : M unit :=
  s <- get ;; shortCircuitUses (expressionUses s).

(** ** Functions *)

(** A basic block and a function, as they are after [IntrinsicLowering] and
    [liftInlineAssembly]; of an argument, whether it is without uses. *)
Record basic_block : Type := { block_id : nat; instructions : list inst }.
Record function : Type := {
  fn_name : string;
  fn_args : list (nat * bool);
  fn_entry : basic_block;
  fn_blocks : list basic_block;
}.

Definition kSymCtorName : string := "__sym_ctor".

(** The instructions before [getFirstInsertionPt()] and the others. *)
Fixpoint split_phis (l : list inst) : list inst * list inst :=
  match l with
  | i :: l' =>
      match kind i with
      | PHINode _ => let (phis, rest) := split_phis l' in (i :: phis, rest)
      | LandingPadInst => ([i], l')
      | _ => ([], l)
      end
  | [] => ([], [])
  end.

Definition instrument_block (b : basic_block) : M unit :=
  let (phis, rest) := split_phis (instructions b) in
  visit_all phis ;;; insertBasicBlockNotification (block_id b) ;;; visit_all rest.

(** The entry block, which has no phi nodes: the notification is inserted in
    front of the code for the arguments. *)
Definition instrument_entry (f : function) : M unit :=
  insertBasicBlockNotification (block_id (fn_entry f)) ;;;
  symbolizeFunctionArguments (fn_name f) (fn_args f) ;;;
  visit_all (instructions (fn_entry f)).

Fixpoint instrument_blocks (l : list basic_block) : M unit :=
  match l with
  | [] => ret tt
  | b :: l' => instrument_block b ;;; instrument_blocks l'
  end.

(** The body of [instrumentFunction], up to its assertion. *)
Definition symbolizeFunction (f : function) : M unit :=
  instrument_entry f ;;;
  instrument_blocks (fn_blocks f) ;;;
  finalizePHINodes ;;;
  shortCircuitExpressionUses.
End pass.

(** The code of the function, with what was inserted at its start. *)
Definition function_code (s : symbolizer) : list item := entry s ++ code s.

(** [llvm::verifyFunction], which is LLVM's: whether the function with this code
    is broken. *)
Class Verifier : Type := verifyFunction : function → list item → bool.

(** The returned flag says whether the function has been changed. *)
Definition instrumentFunction (DL : DataLayout) (host_address : nat → Z) `{Verifier} (f : function)
    : M symbolizer bool :=
  if bool_decide (fn_name f = kSymCtorName) then ret false
  else
    symbolizeFunction DL host_address f ;;;
    s <- get ;;
    assert_ (negb (verifyFunction f (function_code s))) "SymbolizePass produced invalid bitcode" ;;;
    ret true.

(** A new [Symbolizer]. *)
Definition new_symbolizer : symbolizer := {|
  ID := 0; fresh := 0; code := []; entry := []; symbolicExpressions := ∅; phiNodes := [];
  expressionUses := [] |}.

(** What the pass returns: it stops when the verifier rejects the code. *)
Lemma instrumentFunction_run DL host_address `{Verifier} f s :
  fn_name f ≠ kSymCtorName → symbolizeFunction DL host_address f new_symbolizer = Ok tt s →
  instrumentFunction DL host_address f new_symbolizer =
    if verifyFunction f (function_code s) then Err (Assert "SymbolizePass produced invalid bitcode")
    else Ok true s.
Proof.
  intros Hn E. unfold instrumentFunction. rewrite bool_decide_eq_false_2 by done.
  rewrite (bind_Ok _ _ _ _ _ E). unfold bind, get. by destruct (verifyFunction f _).
Qed.

Lemma instrumentFunction_symbolized DL host_address `{Verifier} f s s' :
  instrumentFunction DL host_address f s = Ok true s' → symbolizeFunction DL host_address f s = Ok tt s'.
Proof.
  unfold instrumentFunction. case_bool_decide; [done|]. unfold bind, get.
  destruct (symbolizeFunction DL host_address f s) as [[] s1|]; [|done].
  destruct (verifyFunction f _); [done|]. by intros [= ->].
Qed.
