(* ===== verification/SymbolizerSem.v ===== *)
(** * Running instrumented code

    The meaning of the instructions that the Symbolizer distinguishes (LLVM
    language reference) and of the code it generates: [run_inst] executes an
    instruction of the original program on its registers and memory,
    [exec_item] an item of the instrumented function, whose calls go to the
    run-time library with the simple backend.  What called functions do is a
    parameter, [Calls] and [ICalls], which Program.v instantiates with the other
    functions of a program.  Phi nodes and jumps are the business of Cfg.v;
    aggregates are not given a meaning. *)

From S2P Require Import Prelude Smt Z3Api Interface ByteSeq BitArrays Arith SimpleBackend.
From S2P Require Import SimpleSpec PathConstraints State Shadow Memory Dispatch Symbolizer.
From Stdlib Require Import SpecFloat.

#[local] Open Scope Z_scope.

(** ** Values *)
Inductive cval : Type :=
| CInt (w z : Z)        (** pointers are integers of their width *)
| CFP (d : bool) (f : spec_float).

#[global] Instance cval_eq_dec : EqDecision cval.
Proof. solve_decision. Defined.

(** The values that an instruction reads. *)
Definition operands (i : inst) : list operand :=
  match kind i with
  | BinaryOperator _ a b | CmpInst _ a b => [a; b]
  | FNeg a | LoadInst a | BitCastInst a | TruncInst a | IntToPtrInst a | PtrToIntInst a
  | SIToFPInst a | UIToFPInst a | FPExtInst a | FPTruncInst a | FPToSIInst a | FPToUIInst a
  | SExtInst a | ZExtInst a | ExtractValueInst a _ | SwitchInst a _ | CondBr a _ _ _ => [a]
  | SelectInst c t f => [c; t; f]
  | ReturnInst v => option_list v
  | CallInst _ args _ => args
  | StoreInst v p | InsertValueInst v p _ => [v; p]
  | GetElementPtrInst p indices =>
      p :: omap (λ i, match i with SequentialIndex v _ => Some v | StructIndex _ _ => None end) indices
  | PHINode incoming => incoming.*1
  | UncondBr | IndirectBrInst | AllocaInst | OtherCast | UnreachableInst | LandingPadInst
  | ResumeInst | OtherInst => []
  end.

(** What a call does: the returned value and the memory, for a function,
    arguments and the memory; in the instrumented program, with the state of the
    library. *)
Class Calls : Type := call : nat → list cval → (Z → Z) → option (option cval * (Z → Z)).
Class ICalls {Z3I : Z3} : Type :=
  icall : nat → list cval → Prelude.M (@rt simple_backend) (option cval).

(** The addresses of the variables that the activation of a function has on the
    stack. *)
Class Frame : Type := stack_slot : nat → option Z.

Definition is_function_call (i : inst) : bool :=
  match kind i with CallInst (FunctionCall _) _ _ => true | _ => false end.

Section sem.
Context (DL : DataLayout) {KC : Calls} {FR : Frame}.

Definition int_ok (w z : Z) : bool := (0 <? w) && (0 <=? z) && (z <? 2 ^ w).

(** A number of format [d] is not changed by a conversion to double and back. *)
Definition fp_ok (d : bool) (f : spec_float) : bool :=
  bool_decide (fp_convert d (fp_convert true f) = f).

Definition has_type (v : cval) (t : ty) : bool :=
  match v, t with
  | CInt w z, IntTy w' => (w =? w') && int_ok w z
  | CInt w z, PointerTy => (w =? ptrBits DL) && int_ok w z
  | CFP d f, FloatTy d' => Bool.eqb d d' && fp_ok d f
  | _, _ => false
  end.

Definition checked (t : ty) (v : cval) : option cval := if has_type v t then Some v else None.

Definition eval_operand (e : gmap nat cval) (v : operand) : option cval :=
  match v with
  | Local t x => match e !! x with Some c => checked t c | None => None end
  | ConstantInt w z => checked (IntTy w) (CInt w (wrap w z))
  | ConstantFP d f => checked (FloatTy d) (CFP d f)
  | ConstantPointerNull => checked PointerTy (CInt (ptrBits DL) 0)
  | _ => None
  end.

(** ** The instructions of the program *)

(** Truncation of a finite number towards zero. *)
Definition SFtrunc (f : spec_float) : option Z :=
  match f with
  | S754_zero _ => Some 0
  | S754_finite s m e =>
      let a := if 0 <=? e then Zpos m * 2 ^ e else Zpos m / 2 ^ (- e) in
      Some (if s then - a else a)
  | _ => None
  end.

Definition int_of_float (w : Z) (signed : bool) (f : spec_float) : option cval :=
  match SFtrunc f with
  | Some z =>
      if (if signed then (- 2 ^ (w - 1) <=? z) && (z <? 2 ^ (w - 1)) else (0 <=? z) && (z <? 2 ^ w))
      then Some (CInt w (wrap w z)) else None
  | None => None
  end.

(** The offset that an index contributes: indices are sign-extended. *)
Definition gep_offset (e : gmap nat cval) (i : gep_index) : option Z :=
  match i with
  | StructIndex elements member => Some (getElementOffset DL elements (Z.to_nat member))
  | SequentialIndex index indexed =>
      match eval_operand e index with
      | Some (CInt w z) => Some (sgn w z * getTypeAllocSize DL indexed)
      | _ => None
      end
  end.

Fixpoint gep_offsets (e : gmap nat cval) (l : list gep_index) : option Z :=
  match l with
  | [] => Some 0
  | i :: l' =>
      match gep_offset e i, gep_offsets e l' with
      | Some a, Some b => Some (a + b)
      | _, _ => None
      end
  end.

(** The number of bytes of a scalar in memory. *)
Definition scalar_bytes (t : ty) : option nat :=
  match t with
  | IntTy w => if w =? 1 then Some 1%nat
               else if (0 <? w) && (w mod 8 =? 0) then Some (Z.to_nat (w / 8)) else None
  | PointerTy => Some (Z.to_nat (ptrBits DL / 8))
  | _ => None
  end.

Definition scalar_width (t : ty) : Z :=
  match t with IntTy w => w | _ => ptrBits DL end.

Definition memory_order (xs : list Z) : list Z := if dl_little_endian DL then rev xs else xs.

(** [n] bytes of memory at [a], where there are that many. *)
Definition region_ok (a : Z) (n : nat) : bool := (0 <=? a) && (a + Z.of_nat n <? 2 ^ 64).

Definition load (m : Z → Z) (t : ty) (a : Z) : option cval :=
  match scalar_bytes t with
  | Some n =>
      if region_ok a n then
        checked t (CInt (scalar_width t)
          (of_be (memory_order ((λ j, m (a + j)) <$> seqZ 0 (Z.of_nat n)))))
      else None
  | None => None
  end.

Definition store_value (m : Z → Z) (t : ty) (a z : Z) : option (Z → Z) :=
  match scalar_bytes t with
  | Some n => if region_ok a n then Some (Memory.store m a (memory_order (to_be n z))) else None
  | None => None
  end.

Definition eval_operands (e : gmap nat cval) (l : list operand) : option (list cval) :=
  mapM (eval_operand e) l.

(** The variables after the call [i] has returned [r]. *)
Definition returned (i : inst) (r : option cval) (e : gmap nat cval) : option (gmap nat cval) :=
  match type i, r with
  | VoidTy, None => Some e
  | VoidTy, Some _ | _, None => None
  | t, Some v => (λ v, <[name i := v]> e) <$> checked t v
  end.

(** The saturating intrinsics: the exact result is clamped to the range of the
    type; a shift by the width or more has no value. *)
Definition saturating (id : intrinsic) (w x y : Z) : option Z :=
  match id with
  | I_sadd_sat => Some (wrap w (ssat w (sgn w x + sgn w y)))
  | I_ssub_sat => Some (wrap w (ssat w (sgn w x - sgn w y)))
  | I_uadd_sat => Some (usat w (x + y))
  | I_usub_sat => Some (usat w (x - y))
  | I_sshl_sat => if y <? w then Some (wrap w (ssat w (sgn w x * 2 ^ y))) else None
  | _ => None
  end.

(** The absolute value; that of the smallest number, if allowed, is itself. *)
Definition absolute (w x poison : Z) : option Z :=
  if (x =? 2 ^ (w - 1)) && negb (poison =? 0) then None else Some (wrap w (Z.abs (sgn w x))).

(** The original program's registers and memory after [i]; [None]: undefined
    behaviour, or an instruction without a meaning here. *)
Definition run_inst (i : inst) (e : gmap nat cval) (m : Z → Z)
    : option (gmap nat cval * (Z → Z)) :=
  let val := eval_operand e in
  let def (v : option cval) :=
    match v with
    | Some v => match checked (type i) v with Some v => Some (<[name i := v]> e, m) | None => None end
    | None => None
    end in
  match kind i with
  | BinaryOperator op a b =>
      def (match val a, val b with
           | Some (CInt w x), Some (CInt w' y) =>
               if w =? w' then CInt w <$> int_binary op w x y else None
           | Some (CFP d x), Some (CFP d' y) =>
               if Bool.eqb d d' then CFP d <$> float_binary op d x y else None
           | _, _ => None
           end)
  | FNeg a => def (match val a with Some (CFP d x) => Some (CFP d (SFopp x)) | _ => None end)
  | SelectInst c t f =>
      def (match val c, val t, val f with
           | Some (CInt 1 z), Some v, Some u => Some (if z =? 0 then u else v)
           | _, _, _ => None
           end)
  | CmpInst p a b =>
      def (match val a, val b with
           | Some (CInt w x), Some (CInt w' y) =>
               if w =? w' then (λ r : bool, CInt 1 (if r then 1 else 0)) <$> int_compare p w x y
               else None
           | Some (CFP d x), Some (CFP d' y) =>
               if Bool.eqb d d' then (λ r : bool, CInt 1 (if r then 1 else 0)) <$> float_compare p x y
               else None
           | _, _ => None
           end)
  | ReturnInst (Some v) => match val v with Some _ => Some (e, m) | None => None end
  | ReturnInst None | UncondBr | UnreachableInst => Some (e, m)
  | CondBr c _ _ _ => match val c with Some (CInt 1 _) => Some (e, m) | _ => None end
  | SwitchInst c _ => match val c with Some (CInt _ _) => Some (e, m) | _ => None end
  | AllocaInst => def (CInt (ptrBits DL) <$> stack_slot (name i))
  | LoadInst ptr => def (match val ptr with Some (CInt _ a) => load m (type i) a | _ => None end)
  | StoreInst v ptr =>
      match val v, val ptr with
      | Some (CInt _ z), Some (CInt _ a) =>
          match store_value m (getType v) a z with Some m' => Some (e, m') | None => None end
      | _, _ => None
      end
  | GetElementPtrInst ptr indices =>
      def (match val ptr, gep_offsets e indices with
           | Some (CInt w a), Some o => Some (CInt w (wrap w (a + o)))
           | _, _ => None
           end)
  | BitCastInst a => def (match val a with Some (CInt w z) => Some (CInt w z) | _ => None end)
  | TruncInst a =>
      def (match val a, type i with
           | Some (CInt w z), IntTy w' => if w' <? w then Some (CInt w' (wrap w' z)) else None
           | _, _ => None
           end)
  | IntToPtrInst a =>
      def (match val a with Some (CInt w z) => Some (CInt (ptrBits DL) (wrap (ptrBits DL) z)) | _ => None end)
  | PtrToIntInst a =>
      def (match val a, type i with
           | Some (CInt _ z), IntTy w => Some (CInt w (wrap w z))
           | _, _ => None
           end)
  | SExtInst a =>
      def (match val a, type i with
           | Some (CInt w z), IntTy w' => if w <? w' then Some (CInt w' (wrap w' (sgn w z))) else None
           | _, _ => None
           end)
  | ZExtInst a =>
      def (match val a, type i with
           | Some (CInt w z), IntTy w' => if w <? w' then Some (CInt w' z) else None
           | _, _ => None
           end)
  | SIToFPInst a =>
      def (match val a, type i with
           | Some (CInt w z), FloatTy d => Some (CFP d (fp_of_Z d (sgn w z)))
           | _, _ => None
           end)
  | UIToFPInst a =>
      def (match val a, type i with
           | Some (CInt w z), FloatTy d => Some (CFP d (fp_of_Z d z))
           | _, _ => None
           end)
  | FPExtInst a | FPTruncInst a =>
      def (match val a, type i with
           | Some (CFP _ x), FloatTy d => Some (CFP d (fp_convert d x))
           | _, _ => None
           end)
  | FPToSIInst a =>
      def (match val a, type i with
           | Some (CFP _ x), IntTy w => int_of_float w true x | _, _ => None end)
  | FPToUIInst a =>
      def (match val a, type i with
           | Some (CFP _ x), IntTy w => int_of_float w false x | _, _ => None end)
  | CallInst (Intrinsic id) args _ =>
      match id, args with
      | (I_dbg_value | I_stackrestore), _ => Some (e, m)
      | I_expect, a :: _ => def (val a)
      | I_bswap, a :: _ =>
          def (match val a with
               | Some (CInt w z) =>
                   if w mod 16 =? 0 then Some (CInt w (of_be (rev (to_be (Z.to_nat (w / 8)) z))))
                   else None
               | _ => None
               end)
      | (I_sadd_sat | I_uadd_sat | I_ssub_sat | I_usub_sat | I_sshl_sat), [a; b] =>
          def (match val a, val b with
               | Some (CInt w x), Some (CInt w' y) =>
                   if w =? w' then CInt w <$> saturating id w x y else None
               | _, _ => None
               end)
      | I_abs, [a; p] =>
          def (match val a, val p with
               | Some (CInt w x), Some (CInt 1 q) => CInt w <$> absolute w x q
               | _, _ => None
               end)
      | I_fabs, [a] => def (match val a with Some (CFP d x) => Some (CFP d (SFabs x)) | _ => None end)
      | I_memcpy, [d; s; n] | I_memmove, [d; s; n] =>
          match val d, val s, val n with
          | Some (CInt _ d), Some (CInt _ s), Some (CInt _ n) =>
              if (d + n <? 2 ^ 64) && (s + n <? 2 ^ 64) &&
                 match id with I_memcpy => (d + n <=? s) || (s + n <=? d) | _ => true end
              then Some (e, copy_bytes m d s n) else None
          | _, _, _ => None
          end
      | I_memset, [d; v; n] =>
          match val d, val v, val n with
          | Some (CInt _ d), Some (CInt 8 v), Some (CInt _ n) =>
              if d + n <? 2 ^ 64 then Some (e, set_bytes m d n v) else None
          | _, _, _ => None
          end
      | _, _ => None
      end
  | CallInst (FunctionCall f) args _ =>
      match eval_operands e args with
      | Some vs =>
          match call f vs m with
          | Some (r, m') => (λ e', (e', m')) <$> returned i r e
          | None => None
          end
      | None => None
      end
  | _ => None
  end.

Fixpoint run_insts (l : list inst) (e : gmap nat cval) (m : Z → Z)
    : option (gmap nat cval * (Z → Z)) :=
  match l with
  | [] => Some (e, m)
  | i :: l' => match run_inst i e m with
               | Some (e', m') => run_insts l' e' m'
               | None => None
               end
  end.

End sem.

(** ** The generated code *)
Section exec.
Context (DL : DataLayout) {Z3I : Z3} {KI : ICalls} {FR : Frame}.
#[local] Abbreviation eval_operand := (eval_operand DL).
#[local] Abbreviation eval_operands := (eval_operands DL).
#[local] Abbreviation returned := (returned DL).

(** The original program, without calls. *)
Definition no_calls : Calls := λ _ _ _, None.
#[local] Abbreviation run_inst := (run_inst DL (KC := no_calls)).

Inductive rval : Type := RExpr (e : option ast) | RBit (b : bool).

(** The instrumented program: the registers and stack slots (the flags of loops)
    of the generated code, the registers of the original code, and the state of
    the library with the memory. *)
Record mach : Type := {
  regs : gmap nat rval;
  flags : gmap nat bool;
  cenv : gmap nat cval;
  rts : @rt simple_backend;
}.

#[local] Abbreviation M := (M mach).

Definition set_reg (r : nat) (v : rval) : M unit :=
  modify (λ s, {| regs := <[r := v]> (regs s); flags := flags s; cenv := cenv s; rts := rts s |}).
Definition on_rt {A} (m : Prelude.M rt A) : M A :=
  zoom rts (λ t s, {| regs := regs s; flags := flags s; cenv := cenv s; rts := t |}) m.

Definition read_expr (e : option nat) (s : mach) : option (option ast) :=
  match e with
  | None => Some None
  | Some r => match regs s !! r with Some (RExpr e) => Some e | _ => None end
  end.

Definition get_expr (e : option nat) : M (option ast) :=
  s <- get ;;
  match read_expr e s with
  | Some v => ret v
  | None => fail (Undefined "no such expression")
  end.

Definition get_bit (r : nat) : M bool :=
  s <- get ;;
  match regs s !! r with
  | Some (RBit b) => ret b
  | _ => fail (Undefined "no such bit")
  end.

Definition get_flag (f : nat) : M bool :=
  s <- get ;;
  match flags s !! f with
  | Some b => ret b
  | None => fail (Undefined "uninitialised flag")
  end.
Definition set_flag (f : nat) (b : bool) : M unit :=
  modify (λ s, {| regs := regs s; flags := <[f := b]> (flags s); cenv := cenv s; rts := rts s |}).

Inductive argv : Type := VExpr (e : option ast) | VInt (z : Z) | VFloat (f : spec_float) | VStr (s : string).

Definition get_val (v : operand) : M cval :=
  s <- get ;;
  match eval_operand (cenv s) v with
  | Some c => ret c
  | None => fail (Undefined "no such value")
  end.

Definition get_int (v : operand) : M Z :=
  c <- get_val v ;;
  match c with CInt _ z => ret z | CFP _ _ => fail (Undefined "not an integer") end.

Definition get_arg (a : arg) : M argv :=
  match a with
  | AExpr e => h <- get_expr e ;; ret (VExpr h)
  | AVal v => z <- get_int v ;; ret (VInt z)
  | AZExtOrTrunc w v => z <- get_int v ;; ret (VInt (wrap w z))
  | AFPCast v =>
      c <- get_val v ;;
      match c with
      | CFP _ f => ret (VFloat (fp_convert true f))
      | CInt _ _ => fail (Undefined "not a floating-point number")
      end
  | AHigh64 v => z <- get_int v ;; ret (VInt (wrap 64 (z / 2 ^ 64)))
  | ALow64 v => z <- get_int v ;; ret (VInt (wrap 64 z))
  | ABit c => b <- get_bit c ;; ret (VInt (if b then 1 else 0))
  | AInt z => ret (VInt z)
  | AStr s => ret (VStr s)
  end.

Fixpoint get_args (l : list arg) : M (list argv) :=
  match l with
  | [] => ret []
  | a :: l' => v <- get_arg a ;; vs <- get_args l' ;; ret (v :: vs)
  end.

Definition z_bool (z : Z) : bool := negb (z =? 0).

Definition binary_fn (f : SymFn) : option handler_fn :=
  match f with
  | buildBoolAnd => Some (build_binary B_bool_and)
  | buildBoolOr => Some (build_binary B_bool_or)
  | buildBoolXor => Some (build_binary B_bool_xor)
  | binaryOperatorHandler op => Some (binaryOperatorHandlers op)
  | comparisonHandler p => Some (comparisonHandlers p)
  | buildSAddSat => Some _sym_build_sadd_sat
  | buildUAddSat => Some _sym_build_uadd_sat
  | buildSSubSat => Some _sym_build_ssub_sat
  | buildUSubSat => Some _sym_build_usub_sat
  | buildSShlSat => Some _sym_build_sshl_sat
  | buildUShlSat => Some _sym_build_ushl_sat
  | buildConcat => Some sym_concat_helper
  | _ => None
  end.

(** The builders: [import] of compiler/Runtime.cpp names the function. *)
Definition builder_call (f : SymFn) (args : list argv) : option (Prelude.M (@bstate simple_backend) (option ast)) :=
  match f, args with
  | buildInteger, [VInt v; VInt bits] => Some (sym_build_integer v bits)
  | buildInteger128, [VInt high; VInt low] => Some (sym_build_integer128 high low)
  | buildFloat, [VFloat v; VInt d] => Some (sym_build_float v (z_bool d))
  | buildNullPointer, [] => Some sym_build_null_pointer
  | buildBool, [VInt b] => Some (sym_build_bool (z_bool b))
  | buildSExt, [VExpr e; VInt bits] => Some (sym_build_sext e bits)
  | buildZExt, [VExpr e; VInt bits] => Some (sym_build_zext e bits)
  | buildTrunc, [VExpr e; VInt bits] => Some (sym_build_trunc e bits)
  | buildBswap, [VExpr e] => Some (_sym_build_bswap e)
  | buildIntToFloat, [VExpr e; VInt d; VInt s] => Some (sym_build_int_to_float e (z_bool d) (z_bool s))
  | buildFloatToFloat, [VExpr e; VInt d] => Some (sym_build_float_to_float e (z_bool d))
  | buildBitsToFloat, [VExpr e; VInt d] => Some (sym_build_bits_to_float e (z_bool d))
  | buildFloatToBits, [VExpr e] => Some (sym_build_float_to_bits e)
  | buildFloatToSignedInt, [VExpr e; VInt bits] => Some (sym_build_float_to_signed_integer e bits)
  | buildFloatToUnsignedInt, [VExpr e; VInt bits] => Some (sym_build_float_to_unsigned_integer e bits)
  | buildFloatAbs, [VExpr e] => Some (sym_build_fp_abs e)
  | unaryOperatorHandler_FNeg, [VExpr e] => Some (sym_build_fp_neg e)
  | buildBoolToBit, [VExpr e] => Some (sym_build_bool_to_bit e)
  | buildBitToBool, [VExpr e] => Some (_sym_build_bit_to_bool e)
  | buildAddOverflow, [VExpr a; VExpr b; VInt s; VInt le] =>
      Some (_sym_build_add_overflow a b (z_bool s) (z_bool le))
  | buildSubOverflow, [VExpr a; VExpr b; VInt s; VInt le] =>
      Some (_sym_build_sub_overflow a b (z_bool s) (z_bool le))
  | buildMulOverflow, [VExpr a; VExpr b; VInt s; VInt le] =>
      Some (_sym_build_mul_overflow a b (z_bool s) (z_bool le))
  | buildFshl, [VExpr a; VExpr b; VExpr c] => Some (_sym_build_funnel_shift_left a b c)
  | buildFshr, [VExpr a; VExpr b; VExpr c] => Some (_sym_build_funnel_shift_right a b c)
  | buildAbs, [VExpr e] => Some (_sym_build_abs e)
  | buildZeroBytes, [VInt n] => Some (_sym_build_zero_bytes n)
  | buildInsert, [VExpr t; VExpr e; VInt o; VInt le] => Some (_sym_build_insert t e o (z_bool le))
  | buildExtract, [VExpr e; VInt o; VInt n; VInt le] => Some (_sym_build_extract e o n (z_bool le))
  | _, [VExpr a; VExpr b] => match binary_fn f with Some h => Some (h a b) | None => None end
  | _, _ => None
  end.

Definition no_result (m : Prelude.M (@rt simple_backend) unit) : Prelude.M (@rt simple_backend) (option ast) :=
  m ;;; ret None.

Definition rt_call (f : SymFn) (args : list argv) : Prelude.M (@rt simple_backend) (option ast) :=
  match f, args with
  | pushPathConstraintWithLoc, [VExpr c; VInt taken; VInt site; VStr file; VInt line; VInt slot] =>
      no_result (backend
        (_sym_push_path_constraint_with_loc c taken site file (sgn 32 line) (sgn 32 slot)))
  | getParameterExpression, [VInt i] => _sym_get_parameter_expression i
  | setParameterExpression, [VInt i; VExpr e] => no_result (_sym_set_parameter_expression i e)
  | setReturnExpression, [VExpr e] => no_result (_sym_set_return_expression e)
  | getReturnExpression, [] => _sym_get_return_expression
  | rt_memcpy, [VInt d; VInt s; VInt n] => no_result (_sym_memcpy d s n)
  | rt_memset, [VInt d; VExpr e; VInt n] => no_result (_sym_memset d e n)
  | rt_memmove, [VInt d; VInt s; VInt n] => no_result (_sym_memmove d s n)
  | readMemory, [VInt a; VInt n; VInt le] => _sym_read_memory a n (z_bool le)
  | writeMemory, [VInt a; VInt n; VExpr e; VInt le] => no_result (_sym_write_memory a n e (z_bool le))
  | (notifyCall | notifyRet | notifyBasicBlock), [VInt _] => ret None
  | _, _ =>
      match builder_call f args with
      | Some m => backend m
      | None => fail (Undefined "ill-typed call")
      end
  end.

(** A call acts on the state of the library, too. *)
Definition exec_function_call (i : inst) (f : nat) (args : list operand) : M unit :=
  s <- get ;;
  match eval_operands (cenv s) args with
  | Some vs =>
      r <- on_rt (icall f vs) ;;
      s <- get ;;
      match returned i r (cenv s) with
      | Some e => modify (λ s, {| regs := regs s; flags := flags s; cenv := e; rts := rts s |})
      | None => fail (Undefined "original program")
      end
  | None => fail (Undefined "original program")
  end.

(** Other instructions act on the registers and the memory. *)
Definition exec_plain (i : inst) : M unit := λ s,
  match run_inst i (cenv s) (memory (rts s)) with
  | Some (e, m) => Ok tt {| regs := regs s; flags := flags s; cenv := e; rts := set_memory m (rts s) |}
  | None => Err (Undefined "original program")
  end.

Definition exec_orig (i : inst) : M unit :=
  match kind i with
  | CallInst (FunctionCall f) args _ => exec_function_call i f args
  | _ => exec_plain i
  end.

Definition exec_list (exec : item → M unit) : list item → M unit :=
  fix go l := match l with [] => ret tt | it :: l' => exec it ;;; go l' end.

Fixpoint exec_item (it : item) : M unit :=
  match it with
  | Orig i => exec_orig i
  | Call dst f args => vs <- get_args args ;; r <- on_rt (rt_call f vs) ;; set_reg dst (RExpr r)
  | SelectExpr dst c t f =>
      b <- get_int c ;; t <- get_expr t ;; f <- get_expr f ;;
      set_reg dst (RExpr (if z_bool b then t else f))
  | PhiExpr _ _ => fail (Undefined "phi node outside of a jump")
  | ICmpEqNull dst e => h <- get_expr e ;; set_reg dst (RBit (bool_decide (h = None)))
  | ICmpNeNull dst e => h <- get_expr e ;; set_reg dst (RBit (bool_decide (h ≠ None)))
  | ICmpEqConst dst v z =>
      c <- get_val v ;;
      match c with
      | CInt w x => set_reg dst (RBit (x =? wrap w z))
      | CFP _ _ => fail (Undefined "not an integer")
      end
  | AndBit dst a b => x <- get_bit a ;; y <- get_bit b ;; set_reg dst (RBit (x && y))
  | LoadFlag dst flag => b <- get_flag flag ;; set_reg dst (RBit b)
  | StoreFlag flag b => set_flag flag b
  | If c on body => b <- get_bit c ;; if Bool.eqb b on then exec_list exec_item body else ret tt
  | PhiBit dst c t f =>
      b <- get_bit c ;; h <- get_expr (if b then t else f) ;; set_reg dst (RExpr h)
  end.

Definition exec_code : list item → M unit := exec_list exec_item.

End exec.
