(* ===== verification/Signatures.v ===== *)
(** * The declarations of the run-time library

    The functions that compiler/Runtime.cpp asks the instrumented module for, in
    the order in which it asks and with the types that it asks for, the
    declarations that the module ends up with, and a logic for showing that
    generated calls pass arguments of the right kinds. *)

From S2P Require Import Prelude Smt Z3Api Interface Dispatch Symbolizer SymbolizerSem.

#[local] Open Scope Z_scope.

(** ** Declarations

    [P_expr], [P_addr] and [P_str] are LLVM's pointers: to expressions, to memory
    of the program and to strings. *)
Inductive param : Type := P_expr | P_addr | P_str | P_int (w : Z) | P_double.

(** The result: a pointer to an expression, or void. *)
Inductive declared_result : Type := R_expr | R_void.

Definition fn_type : Type := declared_result * list param.

Definition binary_name (op : binary_opcode) : string :=
  match op with
  | Add => "add" | Sub => "sub" | Mul => "mul" | UDiv => "unsigned_div" | SDiv => "signed_div"
  | URem => "unsigned_rem" | SRem => "signed_rem" | Shl => "shift_left"
  | LShr => "logical_shift_right" | AShr => "arithmetic_shift_right" | And => "and" | Or => "or"
  | Xor => "xor" | FAdd => "fp_add" | FSub => "fp_sub" | FMul => "fp_mul" | FDiv => "fp_div"
  | FRem => "fp_rem"
  end.

Definition comparison_name (p : predicate) : string :=
  match p with
  | ICMP_EQ => "equal" | ICMP_NE => "not_equal" | ICMP_UGT => "unsigned_greater_than"
  | ICMP_UGE => "unsigned_greater_equal" | ICMP_ULT => "unsigned_less_than"
  | ICMP_ULE => "unsigned_less_equal" | ICMP_SGT => "signed_greater_than"
  | ICMP_SGE => "signed_greater_equal" | ICMP_SLT => "signed_less_than"
  | ICMP_SLE => "signed_less_equal" | FCMP_OGT => "float_ordered_greater_than"
  | FCMP_OGE => "float_ordered_greater_equal" | FCMP_OLT => "float_ordered_less_than"
  | FCMP_OLE => "float_ordered_less_equal" | FCMP_OEQ => "float_ordered_equal"
  | FCMP_ONE => "float_ordered_not_equal" | FCMP_ORD => "float_ordered"
  | FCMP_UNO => "float_unordered" | FCMP_UGT => "float_unordered_greater_than"
  | FCMP_UGE => "float_unordered_greater_equal" | FCMP_ULT => "float_unordered_less_than"
  | FCMP_ULE => "float_unordered_less_equal" | FCMP_UEQ => "float_unordered_equal"
  | FCMP_UNE => "float_unordered_not_equal"
  end.

(** The members of [Runtime]: the functions that the visitors call, and others,
    which nothing calls. *)
Inductive field : Type :=
| Called (f : SymFn)
| buildTrue | buildFalse | pushPathConstraint | localizeBranchInstruction
| binaryOperatorHandlersForInt (op : binary_opcode)
| binaryOperatorHandlersForFloat (op : binary_opcode).

Section declarations.
Context (DL : DataLayout).
#[local] Abbreviation intPtr := (P_int (ptrBits DL)).

Definition request (name : string) (r : declared_result) (ps : list param) : string * fn_type :=
  (name, (r, ps)).

(** The name and the type that a member is imported with. *)
Definition requested_function (f : SymFn) : string * fn_type :=
  match f with
  | buildInteger => request "_sym_build_integer" R_expr [P_int 64; P_int 8]
  | buildInteger128 => request "_sym_build_integer128" R_expr [P_int 64; P_int 64]
  | buildFloat => request "_sym_build_float" R_expr [P_double; P_int 1]
  | buildNullPointer => request "_sym_build_null_pointer" R_expr []
  | buildBool => request "_sym_build_bool" R_expr [P_int 1]
  | buildSExt => request "_sym_build_sext" R_expr [P_expr; P_int 8]
  | buildZExt => request "_sym_build_zext" R_expr [P_expr; P_int 8]
  | buildTrunc => request "_sym_build_trunc" R_expr [P_expr; P_int 8]
  | buildBswap => request "_sym_build_bswap" R_expr [P_expr]
  | buildIntToFloat => request "_sym_build_int_to_float" R_expr [P_expr; P_int 1; P_int 1]
  | buildFloatToFloat => request "_sym_build_float_to_float" R_expr [P_expr; P_int 1]
  | buildBitsToFloat => request "_sym_build_bits_to_float" R_expr [P_expr; P_int 1]
  | buildFloatToBits => request "_sym_build_float_to_bits" R_expr [P_expr]
  | buildFloatToSignedInt => request "_sym_build_float_to_signed_integer" R_expr [P_expr; P_int 8]
  | buildFloatToUnsignedInt => request "_sym_build_float_to_unsigned_integer" R_expr [P_expr; P_int 8]
  | buildFloatAbs => request "_sym_build_fp_abs" R_expr [P_expr]
  | buildBoolAnd => request "_sym_build_bool_and" R_expr [P_expr; P_expr]
  | buildBoolOr => request "_sym_build_bool_or" R_expr [P_expr; P_expr]
  | buildBoolXor => request "_sym_build_bool_xor" R_expr [P_expr; P_expr]
  | buildBoolToBit => request "_sym_build_bool_to_bit" R_expr [P_expr]
  | buildBitToBool => request "_sym_build_bit_to_bool" R_expr [P_expr]
  | buildConcat => request "_sym_concat_helper" R_expr [P_expr; P_expr]
  | pushPathConstraintWithLoc =>
      request "_sym_push_path_constraint_with_loc" R_void [P_expr; P_int 1; intPtr; P_str; P_int 32; P_int 32]
  | buildAddOverflow => request "_sym_build_add_overflow" R_expr [P_expr; P_expr; P_int 1; P_int 1]
  | buildSubOverflow => request "_sym_build_sub_overflow" R_expr [P_expr; P_expr; P_int 1; P_int 1]
  | buildMulOverflow => request "_sym_build_mul_overflow" R_expr [P_expr; P_expr; P_int 1; P_int 1]
  | buildSAddSat => request "_sym_build_sadd_sat" R_expr [P_expr; P_expr]
  | buildUAddSat => request "_sym_build_uadd_sat" R_expr [P_expr; P_expr]
  | buildSSubSat => request "_sym_build_ssub_sat" R_expr [P_expr; P_expr]
  | buildUSubSat => request "_sym_build_usub_sat" R_expr [P_expr; P_expr]
  | buildSShlSat => request "_sym_build_sshl_sat" R_expr [P_expr; P_expr]
  | buildUShlSat => request "_sym_build_ushl_sat" R_expr [P_expr; P_expr]
  | buildFshl => request "_sym_build_funnel_shift_left" R_expr [P_expr; P_expr; P_expr]
  | buildFshr => request "_sym_build_funnel_shift_right" R_expr [P_expr; P_expr; P_expr]
  | buildAbs => request "_sym_build_abs" R_expr [P_expr]
  | setParameterExpression => request "_sym_set_parameter_expression" R_void [P_int 8; P_expr]
  | getParameterExpression => request "_sym_get_parameter_expression" R_expr [P_int 8]
  | setReturnExpression => request "_sym_set_return_expression" R_void [P_expr]
  | getReturnExpression => request "_sym_get_return_expression" R_expr []
  | binaryOperatorHandler op => request ("_sym_build_" +:+ binary_name op) R_expr [P_expr; P_expr]
  | unaryOperatorHandler_FNeg => request "_sym_build_fp_neg" R_expr [P_expr]
  | comparisonHandler p => request ("_sym_build_" +:+ comparison_name p) R_expr [P_expr; P_expr]
  | rt_memcpy => request "_sym_memcpy" R_void [P_addr; P_addr; intPtr]
  | rt_memset => request "_sym_memset" R_void [P_addr; P_expr; intPtr]
  | rt_memmove => request "_sym_memmove" R_void [P_addr; P_addr; intPtr]
  | readMemory => request "_sym_read_memory" R_expr [intPtr; intPtr; P_int 1]
  | writeMemory => request "_sym_write_memory" R_void [intPtr; intPtr; P_expr; P_int 1]
  | buildZeroBytes => request "_sym_build_zero_bytes" R_expr [intPtr]
  | buildInsert => request "_sym_build_insert" R_expr [P_expr; P_expr; P_int 64; P_int 1]
  | buildExtract => request "_sym_build_extract" R_expr [P_expr; P_int 64; P_int 64; P_int 1]
  | notifyCall => request "_sym_notify_call" R_void [intPtr]
  | notifyRet => request "_sym_notify_ret" R_void [intPtr]
  | notifyBasicBlock => request "_sym_notify_basic_block" R_void [intPtr]
  end%string.

Definition requested (x : field) : string * fn_type :=
  match x with
  | Called f => requested_function f
  | buildTrue => request "_sym_build_true" R_expr []
  | buildFalse => request "_sym_build_false" R_expr []
  | pushPathConstraint =>
      request "_sym_push_path_constraint_with_loc" R_void [P_expr; P_int 1; intPtr]
  | localizeBranchInstruction => request "_sym_localize_branch_instruction" R_void [P_str; P_int 32]
  | binaryOperatorHandlersForInt op =>
      request ("_sym_build_" +:+ binary_name op +:+ "_int") R_expr [P_expr; P_expr]
  | binaryOperatorHandlersForFloat op =>
      request ("_sym_build_" +:+ binary_name op +:+ "_float") R_expr [P_expr; P_expr]
  end%string.

(** [import], that is [Module::getOrInsertFunction]: a module that has a function
    of that name keeps it, whatever its type is; otherwise the function is
    declared.  The callee that is returned is called with the type that has been
    asked for, in both cases. *)
Definition import (M : gmap string fn_type) (r : string * fn_type) : gmap string fn_type :=
  match M !! r.1 with
  | Some _ => M
  | None => <[r.1 := r.2]> M
  end.

(** [Runtime::Runtime], in the order of the source. *)
Definition fields : list field :=
  (Called <$> [buildInteger; buildInteger128; buildFloat; buildNullPointer]) ++
  [buildTrue; buildFalse] ++
  (Called <$> [buildBool; buildSExt; buildZExt; buildTrunc; buildBswap; buildIntToFloat;
    buildFloatToFloat; buildBitsToFloat; buildFloatToBits; buildFloatToSignedInt;
    buildFloatToUnsignedInt; buildFloatAbs; buildBoolAnd; buildBoolOr; buildBoolXor;
    buildBoolToBit; buildBitToBool; buildConcat]) ++
  [pushPathConstraint] ++
  (Called <$> [pushPathConstraintWithLoc; buildAddOverflow; buildSubOverflow; buildMulOverflow;
    buildSAddSat; buildUAddSat; buildSSubSat; buildUSubSat; buildSShlSat; buildUShlSat;
    buildFshl; buildFshr; buildAbs; setParameterExpression; getParameterExpression;
    setReturnExpression; getReturnExpression]) ++
  [localizeBranchInstruction] ++
  (Called ∘ binaryOperatorHandler <$>
    [Add; Sub; Mul; UDiv; SDiv; URem; SRem; Shl; LShr; AShr; And; Or; Xor;
     FAdd; FSub; FMul; FDiv; FRem]) ++
  ([Add; Sub; Mul; UDiv; SDiv; URem; SRem; And; Or; Xor] ≫= λ op,
    [binaryOperatorHandlersForInt op; binaryOperatorHandlersForFloat op]) ++
  [Called unaryOperatorHandler_FNeg] ++
  (Called ∘ comparisonHandler <$>
    [ICMP_EQ; ICMP_NE; ICMP_UGT; ICMP_UGE; ICMP_ULT; ICMP_ULE; ICMP_SGT; ICMP_SGE; ICMP_SLT;
     ICMP_SLE; FCMP_OGT; FCMP_OGE; FCMP_OLT; FCMP_OLE; FCMP_OEQ; FCMP_ONE; FCMP_ORD; FCMP_UNO;
     FCMP_UGT; FCMP_UGE; FCMP_ULT; FCMP_ULE; FCMP_UEQ; FCMP_UNE]) ++
  (Called <$> [rt_memcpy; rt_memset; rt_memmove; readMemory; writeMemory; buildZeroBytes;
    buildInsert; buildExtract; notifyCall; notifyRet; notifyBasicBlock]).

Definition Runtime (M : gmap string fn_type) : gmap string fn_type :=
  foldl import M (requested <$> fields).

(** The type that calls of [f] are made with, and the declaration of the function
    that they call, in a module without declarations of its own for the library. *)
Definition parameters (f : SymFn) : list param := (requested_function f).2.2.
Definition declaration (f : SymFn) : option fn_type := Runtime ∅ !! (requested_function f).1.

(** An argument for a parameter.  Integers and pointers of the program are cast
    for parameters of 64 bits and of the size of a pointer: integers are
    zero-extended, pointers converted.  No cast is made for conditions, which are
    of type i1, and for pointers.  Constants for narrow parameters are in range
    (wider ones are made modulo the width). *)
Definition fits (p : param) (a : arg) : bool :=
  match p, a with
  | P_expr, AExpr _ | P_str, AStr _ => true
  | P_addr, AVal v => match getType v with PointerTy => true | _ => false end
  | P_double, AFPCast v => match getType v with FloatTy _ => true | _ => false end
  | P_int w, AInt z => (8 <? w) || ((0 <=? z) && (z <? 2 ^ w))
  | P_int w, AVal v =>
      match getType v with
      | IntTy w' => (w' =? w) || ((w =? 64) && (w' <? 64))
      | PointerTy => (w =? 64) || (w =? ptrBits DL)
      | _ => false
      end
  | P_int w, AZExtOrTrunc w' v => (w =? w') && match getType v with IntTy _ => true | _ => false end
  | P_int w, (AHigh64 v | ALow64 v) =>
      (w =? 64) && match getType v with IntTy w' => 64 <? w' | _ => false end
  | P_int w, ABit _ => w =? 1
  | _, _ => false
  end.

(** The calls in a piece of code, those in inner blocks included. *)
Fixpoint calls_of (it : item) : list (nat * SymFn * list arg) :=
  match it with
  | Call d f args => [(d, f, args)]
  | If _ _ body => flat_map calls_of body
  | _ => []
  end.

Definition fitting (ps : list param) (args : list arg) : Prop := Forall2 (λ p a, fits p a = true) ps args.

(** A call with arguments of the type that it is made with, and one that also
    matches the declaration of the function. *)
Definition typed_call (c : nat * SymFn * list arg) : Prop := fitting (parameters c.1.2) c.2.
Definition declared_call (c : nat * SymFn * list arg) : Prop :=
  ∃ r ps, declaration c.1.2 = Some (r, ps) ∧ fitting ps c.2.

Definition typed_code (l : list item) : Prop := Forall typed_call (flat_map calls_of l).
End declarations.

(** Every function is declared with the type that its calls are made with, but
    for the reports of path constraints: they are asked for twice under one name. *)
Lemma declaration_of DL f :
  declaration DL f = Some match f with
                          | pushPathConstraintWithLoc => (R_void, [P_expr; P_int 1; P_int (ptrBits DL)])
                          | _ => (requested_function DL f).2
                          end.
Proof. destruct f; try destruct op; try destruct p; vm_compute; reflexivity. Qed.

Lemma typed_call_declared DL c :
  typed_call DL c → declared_call DL c ↔ c.1.2 ≠ pushPathConstraintWithLoc.
Proof.
  destruct c as [[d f] args]. unfold declared_call. cbn [fst snd]. rewrite declaration_of.
  intros H. split.
  - intros (r&ps&E&Ha) ->. injection E as <- <-. apply Forall2_length in H, Ha.
    cbn in H, Ha. lia.
  - intros Hf. exists (requested_function DL f).2.1, (parameters DL f). split; [|exact H].
    by destruct f.
Qed.

(** ** Well-typed functions, as LLVM's verifier has them *)

(** The fields of constant structures have the types of the structure. *)
Fixpoint operand_ok (v : operand) : Prop :=
  match v with
  | ConstantStruct ts fs =>
      (fix fields_ok (ts : list ty) (fs : list operand) {struct fs} : Prop :=
         match fs, ts with
         | [], [] => True
         | f :: fs', t :: ts' => getType f = t ∧ operand_ok f ∧ fields_ok ts' fs'
         | _, _ => False
         end) ts fs
  | _ => True
  end.

Lemma operand_ok_field ts fs i t :
  operand_ok (ConstantStruct ts fs) → ts !! i = Some t →
  let element := default ConstantPointerNull (fs !! i) in getType element = t ∧ operand_ok element.
Proof.
  cbn [operand_ok]. revert fs i. induction ts as [|t' ts IH]; intros [|f fs] i; try done.
  intros (Ht&Hf&H). destruct i as [|i]; [by intros [= <-]|exact (IH fs i H)].
Qed.

Definition is_pointer (v : operand) : Prop := getType v = PointerTy.
Definition is_integer (v : operand) : Prop := ∃ w, getType v = IntTy w.
Definition is_condition (v : operand) : Prop := getType v = IntTy 1.

(** The number of operands that the visitors take from an intrinsic call. *)
Definition intrinsic_arity (id : intrinsic) : nat :=
  match id with
  | I_fabs | I_bswap | I_abs => 1
  | I_add_with_overflow _ | I_sub_with_overflow _ | I_mul_with_overflow _
  | I_sadd_sat | I_uadd_sat | I_ssub_sat | I_usub_sat | I_sshl_sat | I_ushl_sat => 2
  | I_fshl | I_fshr => 3
  | _ => 0
  end.

Definition gep_index_ok (i : gep_index) : Prop :=
  match i with StructIndex _ _ => True | SequentialIndex index _ => operand_ok index end.

Definition intrinsic_ok (id : intrinsic) (args : list operand) : Prop :=
  Forall operand_ok args ∧ (intrinsic_arity id ≤ length args)%nat ∧
  match id, args with
  | (I_memcpy | I_memmove), d :: s :: n :: _ => is_pointer d ∧ is_pointer s ∧ is_integer n
  | I_memset, d :: _ :: n :: _ => is_pointer d ∧ is_integer n
  | (I_memcpy | I_memmove | I_memset), _ => False
  | _, _ => True
  end.

Definition instruction_ok (i : inst) : Prop :=
  match kind i with
  | BinaryOperator _ a b | CmpInst _ a b => operand_ok a ∧ operand_ok b
  | FNeg a | BitCastInst a | TruncInst a | IntToPtrInst a | PtrToIntInst a | SIToFPInst a
  | UIToFPInst a | FPExtInst a | FPTruncInst a | FPToSIInst a | FPToUIInst a | SExtInst a
  | ZExtInst a => operand_ok a
  | SelectInst c t f => is_condition c ∧ operand_ok c ∧ operand_ok t ∧ operand_ok f
  | CondBr c _ _ _ => is_condition c ∧ operand_ok c
  | LoadInst ptr => is_pointer ptr
  | StoreInst v ptr => is_pointer ptr ∧ operand_ok v
  | GetElementPtrInst ptr l => operand_ok ptr ∧ Forall gep_index_ok l
  | InsertValueInst a v _ => operand_ok a ∧ operand_ok v
  | ExtractValueInst a _ => operand_ok a
  | SwitchInst c _ => is_integer c ∧ operand_ok c
  | CallInst (Intrinsic id) args _ => intrinsic_ok id args
  | _ => True
  end.

Definition well_typed_function (f : function) : Prop :=
  Forall (λ b, Forall instruction_ok (instructions b)) (fn_entry f :: fn_blocks f).

(** ** A logic for the generator

    [σ] records which function each name is a call of. *)
Section logic.
Context (DL : DataLayout).
#[local] Abbreviation parameters := (parameters DL).
#[local] Abbreviation typed_call := (typed_call DL).
#[local] Abbreviation M := (M symbolizer).
Implicit Types (σ : gmap nat SymFn) (s : symbolizer) (it : item).

Definition call_ok σ (c : nat * SymFn * list arg) : Prop := σ !! c.1.1 = Some c.1.2 ∧ typed_call c.
Definition item_ok σ it : Prop := Forall (call_ok σ) (calls_of it).
Definition items_ok σ (l : list item) : Prop := Forall (item_ok σ) l.

(** An input of a computation is the expression that a call gets. *)
Definition input_ok σ (i : Input) : Prop :=
  operand_ok (concreteValue i) ∧
  ∃ f, σ !! user i = Some f ∧ parameters f !! operandIndex i = Some P_expr.
Record comp_ok σ (c : SymbolicComputation) : Prop := {
  comp_inputs : Forall (input_ok σ) (inputs c);
  comp_last : ∀ r, lastInstruction c = Some r → is_Some (σ !! r);
}.

Record inv σ s : Prop := {
  inv_code : items_ok σ (code s);
  inv_entry : items_ok σ (entry s);
  inv_uses : Forall (comp_ok σ) (expressionUses s);
  inv_fresh : ∀ x, is_Some (σ !! x) → (x < fresh s)%nat;
}.

Lemma item_ok_mono σ σ' it : σ ⊆ σ' → item_ok σ it → item_ok σ' it.
Proof.
  intros Hσ H. eapply Forall_impl; [exact H|]. intros c [? ?].
  split; [by eapply lookup_weaken|done].
Qed.

Lemma items_ok_mono σ σ' l : σ ⊆ σ' → items_ok σ l → items_ok σ' l.
Proof. intros Hσ H. eapply Forall_impl; [exact H|]. intros it. by apply item_ok_mono. Qed.

Lemma input_ok_mono σ σ' i : σ ⊆ σ' → input_ok σ i → input_ok σ' i.
Proof. intros Hσ (Hv&f&H&?). split; [done|]. exists f. split; [by eapply lookup_weaken|done]. Qed.

Lemma comp_ok_mono σ σ' c : σ ⊆ σ' → comp_ok σ c → comp_ok σ' c.
Proof.
  intros Hσ [Hi Hl]. split; [eapply Forall_impl; [exact Hi|]; intros i; by apply input_ok_mono|].
  intros r [f Hf]%Hl. exists f. by eapply lookup_weaken.
Qed.

Lemma uses_ok_mono σ σ' l : σ ⊆ σ' → Forall (comp_ok σ) l → Forall (comp_ok σ') l.
Proof. intros Hσ H. eapply Forall_impl; [exact H|]. intros c. by apply comp_ok_mono. Qed.

Lemma item_ok_if σ c on body : item_ok σ (If c on body) ↔ items_ok σ body.
Proof.
  unfold item_ok, items_ok. cbn [calls_of]. induction body as [|it body IH]; cbn; [split; constructor|].
  by rewrite Forall_app, Forall_cons, IH.
Qed.

Lemma item_ok_quiet σ it : calls_of it = [] → item_ok σ it.
Proof. intros H. unfold item_ok. rewrite H. constructor. Qed.

(** If [m] returns, the invariant holds again. *)
Definition gen {A} σ (m : M A) (Q : gmap nat SymFn → A → Prop) : Prop :=
  ∀ s a s', inv σ s → m s = Ok a s' → ∃ σ', σ ⊆ σ' ∧ inv σ' s' ∧ Q σ' a.

Definition any {A} (σ : gmap nat SymFn) (a : A) : Prop := True.

Lemma tgen_ret {A} σ (a : A) (Q : gmap nat SymFn → A → Prop) : Q σ a → gen σ (ret a) Q.
Proof. intros H s x s' I [= <- <-]. by exists σ. Qed.

Lemma tgen_fail {A} σ e Q : gen σ (fail e : M A) Q.
Proof. done. Qed.

Lemma tgen_bind {A B} σ (m : M A) (k : A → M B) Q R :
  gen σ m Q → (∀ σ' a, σ ⊆ σ' → Q σ' a → gen σ' (k a) R) → gen σ (bind m k) R.
Proof.
  intros Hm Hk s b s' I (a&s1&E1&E2)%bind_inv.
  destruct (Hm s a s1 I E1) as (σ1&H1&I1&HQ). destruct (Hk σ1 a H1 HQ s1 b s' I1 E2) as (σ2&H2&I2&HR).
  exists σ2. split_and!; [by etransitivity|done|done].
Qed.

Lemma tgen_impl {A} σ (m : M A) (Q R : gmap nat SymFn → A → Prop) :
  gen σ m Q → (∀ σ' a, σ ⊆ σ' → Q σ' a → R σ' a) → gen σ m R.
Proof. intros Hm H s a s' I E. destruct (Hm s a s' I E) as (σ1&?&?&?). exists σ1. eauto. Qed.

Lemma tgen_get {A} σ (k : symbolizer → M A) Q :
  (∀ s, inv σ s → gen σ (k s) Q) → gen σ (bind get k) Q.
Proof. intros H s a s' I E. by apply (H s I s a s' I). Qed.

Lemma tgen_modify σ f (Q : gmap nat SymFn → unit → Prop) :
  (∀ s, inv σ s → inv σ (f s)) → Q σ tt → gen σ (modify f) Q.
Proof. intros Hf HQ s a s' I [= <- <-]. exists σ. auto. Qed.

(** A new name; it is going to be a call of [f], or something else. *)
Lemma tgen_name σ (o : option SymFn) :
  gen σ new_name (λ σ' r, match o with Some f => σ' !! r = Some f | None => True end).
Proof.
  intros s r s' [Ic Ie Iu If] [= <- <-].
  assert (σ !! fresh s = None) as Hn.
  { apply eq_None_not_Some. intros H%If. lia. }
  set (σ' := match o with Some f => <[fresh s := f]> σ | None => σ end).
  assert (σ ⊆ σ') as Hσ by (unfold σ'; destruct o; [by apply insert_subseteq|done]).
  exists σ'. split; [done|]. split; [|by unfold σ'; destruct o; [apply lookup_insert_eq|]].
  split; cbn; [by eapply items_ok_mono..|by eapply uses_ok_mono|].
  intros x Hx. destruct (decide (x = fresh s)) as [->|Hne]; [lia|].
  assert (is_Some (σ !! x)) as H%If; [|lia].
  unfold σ' in Hx. destruct o; [by rewrite lookup_insert_ne in Hx|done].
Qed.

Lemma tgen_emit σ it Q : item_ok σ it → Q σ tt → gen σ (emit it) Q.
Proof.
  intros H HQ. apply tgen_modify; [|done]. intros s [Ic Ie Iu If]. split; try done.
  cbn. apply Forall_app. split; [done|]. by constructor.
Qed.

Lemma tgen_emit_all σ l Q : items_ok σ l → Q σ tt → gen σ (emit_all l) Q.
Proof.
  intros H HQ. revert Q HQ. induction H as [|it l Hit _ IH]; intros Q HQ; [by apply tgen_ret|].
  apply (tgen_bind _ _ _ (λ σ' _, σ' = σ)); [by apply tgen_emit|]. intros ? [] _ ->. by apply IH.
Qed.

Lemma tgen_call σ f args :
  fitting DL (parameters f) args →
  gen σ (CreateCall f args) (λ σ' r, σ' !! r = Some f).
Proof.
  intros H. eapply tgen_bind; [apply (tgen_name σ (Some f))|]. cbn. intros σ1 r _ Hr.
  apply (tgen_bind _ _ _ (λ σ' _, σ' = σ1)); [|intros ? [] _ ->; by apply tgen_ret].
  apply tgen_emit; [|done]. unfold item_ok. cbn. constructor; [by split|constructor].
Qed.

Lemma tgen_in_block {A} σ (m : M A) Q :
  gen σ m Q → gen σ (in_block m) (λ σ' r, Q σ' r.1 ∧ items_ok σ' r.2).
Proof.
  intros Hm s r s' [Ic Ie Iu If]. unfold in_block, bind, get, modify.
  destruct (m (set_code [] s)) as [a s2|] eqn:E; [|done]. intros [= <- <-].
  assert (inv σ (set_code [] s)) as I0 by (split; [constructor|done..]).
  destruct (Hm _ _ _ I0 E) as (σ2&H2&[Jc Je Ju Jf]&HQ).
  exists σ2. split; [done|]. split; [|by split]. split; cbn; [by eapply items_ok_mono|done..].
Qed.

(** *** Computations *)
Definition call_arg_fits (p : param) (a : call_arg) : Prop :=
  match a with Sym v => p = P_expr ∧ operand_ok v | Plain x => fits DL p x = true end.

Lemma call_inputs_ok σ f call args k :
  σ !! call = Some f → Forall2 call_arg_fits (drop k (parameters f)) args →
  Forall (input_ok σ) (call_inputs k call args).
Proof.
  intros Hc. revert k. induction args as [|a args IH]; intros k H; [constructor|].
  inversion H as [|p ? ps ? Ha Hr Ed]; subst.
  assert (parameters f !! k = Some p) as Hp.
  { rewrite <-(Nat.add_0_r k), <-lookup_drop, <-Ed. done. }
  assert (Forall (input_ok σ) (call_inputs (S k) call args)) as Hrest.
  { apply IH. by rewrite (drop_S _ _ _ Hp) in Ed; injection Ed as <-. }
  destruct a as [v|x]; cbn in Ha |- *; [|done]. destruct Ha as [-> Hv].
  constructor; [|done]. split; [exact Hv|]. by exists f.
Qed.

Lemma tgen_force σ f args :
  Forall2 call_arg_fits (parameters f) args → gen σ (forceBuildRuntimeCall f args) comp_ok.
Proof.
  intros H. apply tgen_get. intros s _. eapply tgen_bind; [apply tgen_call|].
  - apply Forall2_fmap_r. eapply Forall2_impl; [exact H|]. intros p [v|x]; cbn; [by intros [-> _]|done].
  - intros σ' r _ Hr. apply tgen_ret. cbn in Hr. split; [by apply (call_inputs_ok _ f r args 0)|].
    intros ? [= <-]. by exists f.
Qed.

Definition opt_comp_ok σ (o : option SymbolicComputation) : Prop :=
  match o with Some c => comp_ok σ c | None => True end.

Lemma tgen_build σ f args :
  Forall2 call_arg_fits (parameters f) args → gen σ (buildRuntimeCall f args) opt_comp_ok.
Proof.
  intros H. apply tgen_get. intros s _. case_match; [by apply tgen_ret|].
  eapply tgen_bind; [by apply tgen_force|]. intros σ' c _ Hc. by apply tgen_ret.
Qed.

Lemma tgen_set_expression σ I e : gen σ (set_expression I e) (@any unit).
Proof. apply tgen_modify; [|done]. by intros s []. Qed.

Lemma tgen_register σ c concrete : comp_ok σ c → gen σ (registerSymbolicComputation c concrete) (@any unit).
Proof.
  intros H. apply (tgen_bind _ _ _ (λ σ' _, comp_ok σ' c)).
  - destruct concrete as [i|]; [|by apply tgen_ret].
    apply tgen_modify; [by intros s []|done].
  - intros σ' _ _ Hc. apply tgen_modify; [|done]. intros s [? ? ? ?]. split; try done.
    cbn. apply Forall_app. split; [done|]. by constructor.
Qed.

Lemma tgen_register_optional σ o concrete : opt_comp_ok σ o → gen σ (registerOptional o concrete) (@any unit).
Proof. intros H. destruct o; [by apply tgen_register|by apply tgen_ret]. Qed.

Lemma comp_ok_merge σ c c' : comp_ok σ c → comp_ok σ c' → comp_ok σ (merge c c').
Proof. intros [H1 _] [H2 Hl]. split; [|exact Hl]. apply Forall_app. by split. Qed.

Lemma comp_ok_empty σ : comp_ok σ empty_computation.
Proof. by split; [constructor|]. Qed.
End logic.
