(* ===== verification/Generated.v ===== *)
(** * Generated calls match the declarations

    Every visitor of compiler/Symbolizer.cpp, the two functions that finish the
    code and [instrumentFunction] of compiler/Pass.cpp generate calls whose
    arguments have the types that the calls are made with, in every well-typed
    function. *)

From S2P Require Import Prelude Smt Z3Api Interface Dispatch Symbolizer SymbolizerSem Signatures.

#[local] Open Scope Z_scope.

Section visitors.
Context (DL : DataLayout) (host_address : nat → Z) (Hptr : 8 < ptrBits DL).
#[local] Abbreviation M := (M symbolizer).
#[local] Abbreviation gen := (gen DL).
#[local] Abbreviation comp_ok := (comp_ok DL).
#[local] Abbreviation items_ok := (items_ok DL).
#[local] Abbreviation generates m := (∀ σ, gen σ m (@any unit)).

(** ** Arguments *)
Lemma fits_u8 z : fits DL (P_int 8) (AInt (u8 z)) = true.
Proof. cbn. pose proof (Z.mod_pos_bound z (2 ^ 8)). unfold u8, wrap. lia. Qed.

Lemma fits_bool b : fits DL (P_int 1) (bool_arg b) = true.
Proof. by destruct b. Qed.

Lemma fits_flag (b : bool) : fits DL (P_int 1) (AInt (if b then 1 else 0)) = true.
Proof. by destruct b. Qed.

Lemma fits_address z : fits DL (P_int (ptrBits DL)) (AInt z) = true.
Proof. cbn. by rewrite (proj2 (Z.ltb_lt 8 (ptrBits DL))). Qed.

Lemma fits_width v : is_integer v → fits DL (P_int (ptrBits DL)) (AZExtOrTrunc (ptrBits DL) v) = true.
Proof. intros [w Hw]. cbn. by rewrite Hw, Z.eqb_refl. Qed.

Lemma fits_pointer v : is_pointer v → fits DL (P_int (ptrBits DL)) (AVal v) = true.
Proof. intros Hv. cbn. by rewrite Hv, Z.eqb_refl, orb_true_r. Qed.

Lemma fits_memory v : is_pointer v → fits DL P_addr (AVal v) = true.
Proof. intros Hv. cbn. by rewrite Hv. Qed.

Lemma fits_integer v w : getType v = IntTy w → w <= 64 → fits DL (P_int 64) (AVal v) = true.
Proof. intros Hv Hw. cbn. rewrite Hv. lia. Qed.

Lemma fits_halves v w :
  getType v = IntTy w → 64 < w →
  fits DL (P_int 64) (AHigh64 v) = true ∧ fits DL (P_int 64) (ALow64 v) = true.
Proof. intros Hv Hw. cbn. rewrite Hv. split; lia. Qed.

Lemma fits_pointer_value v : is_pointer v → fits DL (P_int 64) (AVal v) = true.
Proof. intros Hv. cbn. by rewrite Hv. Qed.

Lemma fits_float v d : getType v = FloatTy d → fits DL P_double (AFPCast v) = true.
Proof. intros Hv. cbn. by rewrite Hv. Qed.

Lemma fits_condition v : is_condition v → fits DL (P_int 1) (AVal v) = true.
Proof. intros Hv. cbn. by rewrite Hv. Qed.
End visitors.

(** The arguments of one call. *)
Ltac fit :=
  first [reflexivity | split; [reflexivity|first [assumption|exact Logic.I]]
        |apply fits_u8 | apply fits_bool | apply fits_flag
        |apply fits_address; assumption | apply fits_width; assumption
        |apply fits_pointer; assumption | apply fits_memory; assumption
        |apply fits_condition; assumption].
Ltac args_fit := repeat (constructor; [cbn [call_arg_fits]; fit|]); try constructor.

(** Carries facts about computations to the next state. *)
Ltac tgen_carry Hσ :=
  repeat match goal with
  | H : comp_ok _ _ _ |- _ => apply (comp_ok_mono _ _ _ _ Hσ) in H
  | H : items_ok _ _ _ |- _ => apply (items_ok_mono _ _ _ _ Hσ) in H
  end.

(** The first call of a sequence. *)
Ltac tgen_first :=
  first [apply tgen_call; args_fit | apply tgen_build; args_fit | apply tgen_force; args_fit
        |apply tgen_set_expression | apply tgen_fail].
Ltac tgen_step :=
  eapply tgen_bind; [tgen_first|];
  let σ := fresh "σ" in let a := fresh "r" in let Hσ := fresh "Hσ" in let H := fresh "H" in
  intros σ a Hσ H; cbn beta in H; tgen_carry Hσ.
Ltac tgen_state := apply tgen_get; intros ? ?.

Section visitors.
Context (DL : DataLayout) (host_address : nat → Z) (Hptr : 8 < ptrBits DL).
#[local] Abbreviation M := (M symbolizer).
#[local] Abbreviation gen := (gen DL).
#[local] Abbreviation comp_ok := (comp_ok DL).
#[local] Abbreviation items_ok := (items_ok DL).
#[local] Abbreviation generates m := (∀ σ, gen σ m (@any unit)).

Lemma tgen_any {A} σ (m : M A) Q : gen σ m Q → gen σ m (@any A).
Proof. intros H. by eapply tgen_impl. Qed.

Lemma tgen_quiet {A} σ (m : M A) (k : A → M unit) : gen σ m (@any A) → (∀ σ' a, gen σ' (k a) (@any unit)) → gen σ (bind m k) (@any unit).
Proof. intros Hm Hk. eapply tgen_bind; [exact Hm|]. intros σ' a _ _. apply Hk. Qed.

(** ** Kinds of expressions *)
Lemma tgen_convertBitVector σ I T :
  is_Some (σ !! I) → gen σ (convertBitVectorExprForType I T) (λ σ' r, is_Some (σ' !! r)).
Proof.
  intros HI. unfold convertBitVectorExprForType. destruct T as [w|d| | | |]; try by apply tgen_ret.
  - case_match; [|by apply tgen_ret]. tgen_step. eapply tgen_impl; [tgen_first|]. by eexists.
  - eapply tgen_impl; [tgen_first|]. by eexists.
Qed.

Lemma tgen_convertExpr σ V Expr : operand_ok V → gen σ (convertExprForTypeToBitVectorExpr V Expr) (opt_comp_ok DL).
Proof.
  intros HV. unfold convertExprForTypeToBitVectorExpr. destruct Expr as [e|]; [|by apply tgen_ret].
  destruct (getType V) as [w|d| | | |]; try by apply tgen_ret.
  - case_match; [|by apply tgen_ret]. tgen_step. tgen_step. apply tgen_ret. split.
    + constructor; [|constructor]. split; [exact HV|]. exists buildBoolToBit.
      split; [eapply lookup_weaken; eassumption|done].
    + intros ? [= <-]. by eexists.
  - tgen_step. apply tgen_ret. split; [|intros ? [= <-]; by eexists].
    constructor; [|constructor]. split; [exact HV|]. by exists buildFloatToBits.
Qed.

Lemma tgen_append σ expr e : gen σ (append_expr expr e) (@any (option nat)).
Proof. destruct expr; [|by apply tgen_ret]. cbn. tgen_step. by apply tgen_ret. Qed.

Lemma tgen_padding σ expr n : gen σ (append_padding expr n) (@any (option nat)).
Proof.
  unfold append_padding. case_match; [|by apply tgen_ret]. tgen_step. apply tgen_append.
Qed.

Lemma tgen_reverse σ (b : bool) e :
  gen σ (if b then CreateCall buildBswap [AExpr (Some e)] else ret e) (@any nat).
Proof. destruct b; [eapply tgen_any; tgen_first|by apply tgen_ret]. Qed.

(** ** Constant expressions of values *)
Lemma ty_nested_ind (P : ty → Prop) :
  (∀ w, P (IntTy w)) → (∀ d, P (FloatTy d)) → P PointerTy → P VoidTy →
  (∀ ts, Forall P ts → P (StructTy ts)) → (∀ n t, P t → P (ArrayTy n t)) → ∀ t, P t.
Proof.
  intros Hi Hf Hp Hv Hs Ha. fix IH 1. intros [w|d| |ts|n t|].
  - apply Hi.
  - apply Hf.
  - apply Hp.
  - apply Hs. induction ts as [|t ts IHts]; constructor; [apply IH|apply IHts].
  - apply Ha, IH.
  - apply Hv.
Qed.

(** The members of a structure, of which [element] are the values. *)
Lemma tgen_structure elements σ V :
  Forall (λ t, ∀ σ V, getType V = t → operand_ok V → gen σ (createValueExpression DL t V) (@any nat)) elements →
  getType V = StructTy elements → operand_ok V →
  gen σ (createValueExpression DL (StructTy elements) V) (@any nat).
Proof.
  intros IH Ht HV.
  assert (∀ z, gen σ (CreateCall buildZeroBytes [AInt z]) (@any nat)) as Hz
    by (intros z; eapply tgen_any; tgen_first).
  destruct V; cbn in Ht; try discriminate; try apply Hz; cbn [createValueExpression];
    (eapply tgen_bind;
     [|intros σ1 [expr offset] _ _; eapply tgen_bind; [apply tgen_padding|];
       intros σ2 [e|] _ _; [by apply tgen_ret|apply tgen_fail]]);
    match goal with |- gen _ (?L _ _ _ _) _ =>
      enough (∀ ts i expr offset σ, ts = drop i elements → gen σ (L ts i expr offset) (@any (option nat * Z)))
        as Hloop by by apply Hloop
    end;
    (induction ts as [|t' ts IHts]; intros j expr offset σ1 Hj; [by apply tgen_ret|]);
    pose proof (f_equal (.!! 0%nat) Hj) as Hl; rewrite lookup_drop, Nat.add_0_r in Hl; symmetry in Hl; cbn in Hl;
    (eapply tgen_bind; [apply tgen_padding|]; intros σ2 expr2 _ _; cbn beta zeta);
    match goal with |- context [createValueExpression DL _ ?v] => set (element := v) end;
    (assert (getType element = t' ∧ operand_ok element) as [He Ho];
      [first [by split|injection Ht as ->; by eapply operand_ok_field]|]);
    (eapply tgen_bind; [by eapply (proj1 (Forall_lookup _ _) IH _ _ Hl)|]; intros σ3 e _ _);
    (eapply tgen_bind; [by apply tgen_convertExpr|]; intros σ4 conversion _ _; cbn beta zeta);
    (eapply tgen_bind; [apply tgen_reverse|]; intros σ5 e2 _ _);
    (eapply tgen_bind; [apply tgen_append|]; intros σ6 expr3 _ _);
    apply IHts; rewrite (drop_S _ _ _ Hl) in Hj; by injection Hj as <-.
Qed.

Lemma tgen_createValue t σ V :
  getType V = t → operand_ok V → gen σ (createValueExpression DL t V) (@any nat).
Proof.
  revert σ V. induction t as [w|d| | |elements IH|n t _] using ty_nested_ind; intros σ V Ht HV.
  - assert (gen σ (if w =? 1 then CreateCall buildBool [AVal V]
      else if w <=? 64 then CreateCall buildInteger [AVal V; AInt (u8 w)]
      else CreateCall buildInteger128 [AHigh64 V; ALow64 V]) (@any nat)) as Hint.
    { repeat case_match; eapply tgen_any, tgen_call.
      - constructor; [|constructor]. apply fits_condition. unfold is_condition. rewrite Ht. f_equal. lia.
      - constructor; [eapply fits_integer; [exact Ht|lia]|args_fit].
      - destruct (fits_halves DL V w Ht) as [? ?]; [lia|]. by repeat constructor. }
    destruct V; try exact Hint. done.
  - assert (gen σ (CreateCall buildFloat [AFPCast V; AInt (if d then 1 else 0)]) (@any nat)) as Hf
      by (eapply tgen_any, tgen_call; constructor; [by eapply fits_float|args_fit]).
    destruct V; try exact Hf. done.
  - assert (gen σ (CreateCall buildInteger [AVal V; AInt (u8 (ptrBits DL))]) (@any nat)) as Hp
      by (eapply tgen_any, tgen_call; constructor; [by apply fits_pointer_value|args_fit]).
    destruct V; try exact Hp. eapply tgen_any; tgen_first.
  - destruct V; try apply tgen_fail. done.
  - apply tgen_structure; assumption.
  - destruct V; try apply tgen_fail. done.
Qed.

Lemma tgen_offset T indices σ : gen σ (aggregateMemberOffset DL T indices) (@any Z).
Proof.
  revert T. induction indices as [|index rest IH]; intros T; [by apply tgen_ret|]. cbn.
  destruct T as [w|d| |elements|n t|]; try apply tgen_fail.
  - destruct (elements !! index) as [t|]; [|apply tgen_fail].
    eapply tgen_bind; [apply IH|]. intros. by apply tgen_ret.
  - eapply tgen_bind; [apply IH|]. intros. by apply tgen_ret.
Qed.

Lemma tgen_unit {A} σ (m : M A) Q : gen σ m Q → gen σ (_ <- m ;; ret tt) (@any unit).
Proof. intros H. eapply tgen_bind; [exact H|]. intros. by apply tgen_ret. Qed.

Lemma tgen_then σ (m k : M unit) : generates m → generates k → gen σ (m ;;; k) (@any unit).
Proof. intros Hm Hk. eapply tgen_bind; [apply Hm|]. intros σ' _ _ _. apply Hk. Qed.

Lemma tgen_set_code σ (f : symbolizer → list item) :
  (∀ s, items_ok σ (code s) → items_ok σ (f s)) → gen σ (modify (λ s, set_code (f s) s)) (@any unit).
Proof. intros Hf. apply tgen_modify; [|done]. intros s [? ? ? ?]. split; try done. by apply Hf. Qed.

(** ** Calls *)
Lemma tgen_get_parameters l k : generates (get_parameters k l).
Proof.
  revert k. induction l as [|[x []] l IH]; intros k σ; cbn [get_parameters].
  - by apply tgen_ret.
  - apply tgen_then; [|apply IH]. intros σ'. by apply tgen_ret.
  - apply tgen_then; [|apply IH]. intros σ'. tgen_step. apply tgen_modify; [|done]. by intros s [].
Qed.

Lemma tgen_arguments f l : generates (symbolizeFunctionArguments f l).
Proof.
  intros σ. unfold symbolizeFunctionArguments. case_bool_decide; [by apply tgen_ret|apply tgen_get_parameters].
Qed.

Lemma tgen_notification b : generates (insertBasicBlockNotification DL host_address b).
Proof. intros σ. eapply tgen_unit. tgen_first. Qed.

Lemma tgen_build_register f args i : Forall2 (call_arg_fits DL) (parameters DL f) args →
  generates (c <- buildRuntimeCall f args ;; registerOptional c i).
Proof.
  intros H σ. eapply tgen_bind; [by apply tgen_build|]. intros σ' c _ Hc. by apply tgen_register_optional.
Qed.

(** The expressions of the first [n] operands, when there are that many. *)
Lemma tgen_intrinsic i f n args extra :
  parameters DL f = replicate n P_expr ++ drop n (parameters DL f) →
  fitting DL (drop n (parameters DL f)) extra →
  Forall operand_ok args → (n ≤ length args)%nat → generates (build_intrinsic i f n args extra).
Proof.
  intros Hp He Ha Hn. apply tgen_build_register. rewrite Hp. apply Forall2_app.
  - apply Forall2_fmap_r, Forall2_same_length_lookup_2; [by rewrite length_replicate, length_take, min_l|].
    intros k p v Hk Hv. apply lookup_replicate in Hk as [-> _]. split; [done|].
    apply lookup_take_Some in Hv as [Hv _]. by apply (proj1 (Forall_lookup _ _) Ha _ _ Hv).
  - by apply Forall2_fmap_r.
Qed.

Lemma tgen_nth_arg {A} σ args k (m : operand → M A) Q :
  (∀ a, args !! k = Some a → gen σ (m a) Q) → gen σ (a <- nth_arg args k ;; m a) Q.
Proof.
  intros H. unfold nth_arg. destruct (args !! k) as [a|] eqn:E; [by apply H|].
  intros s x s' _ Hs. done.
Qed.

Lemma tgen_set_parameters l k : generates (set_parameters k l).
Proof.
  revert k. induction l as [|a l IH]; intros k σ; cbn [set_parameters]; [by apply tgen_ret|].
  tgen_state. tgen_step. apply IH.
Qed.

Lemma tgen_emit_quiet σ it : calls_of it = [] → gen σ (emit it) (@any unit).
Proof. intros H. apply tgen_emit; [by apply item_ok_quiet|done]. Qed.

Lemma tgen_function_call i f args ue : generates (handleFunctionCall DL host_address i f args ue).
Proof.
  intros σ. unfold handleFunctionCall. tgen_step. apply tgen_then; [apply tgen_set_parameters|]. intros σ1.
  apply tgen_then; [destruct ue; intros σ2; [by apply tgen_ret|eapply tgen_unit; tgen_first]|]. intros σ2.
  apply tgen_then; [intros σ3; by apply tgen_emit_quiet|]. intros σ3.
  tgen_step. destruct ue; [by apply tgen_ret|]. tgen_step. apply tgen_set_expression.
Qed.

(** ** Instructions *)

Lemma tgen_intrinsic_call i id args :
  intrinsic_ok id args → generates (handleIntrinsicCall DL i id args).
Proof.
  intros (Ho&Hn&Ht) σ.
  destruct id; cbn [handleIntrinsicCall intrinsic_arity] in *; try by apply tgen_ret.
  all: try (apply tgen_intrinsic; [reflexivity|args_fit|exact Ho|exact Hn]).
  4: apply tgen_nth_arg; intros a _; tgen_state; case_match; [apply tgen_set_expression|by apply tgen_ret].
  all: destruct args as [|d [|s [|n args]]]; try done.
  all: repeat (apply tgen_nth_arg; intros ? [= <-]).
  2: tgen_state.
  all: destruct_and?; eapply tgen_unit; tgen_first.
Qed.

Lemma push_arguments_fit i c slot :
  is_condition c → operand_ok c →
  Forall2 (call_arg_fits DL) (parameters DL pushPathConstraintWithLoc) (push_arguments DL host_address i c slot).
Proof. intros ? ?. unfold push_arguments. destruct (locate i). unfold getTargetPreferredInt. args_fit. Qed.

Lemma tgen_next_slot {A} σ (k : Z → M A) Q : (∀ z, gen σ (k z) Q) → gen σ (z <- next_slot ;; k z) Q.
Proof.
  intros H. apply (tgen_bind _ _ _ _ (λ σ' _, σ' = σ)).
  - unfold next_slot. tgen_state. apply (tgen_bind _ _ _ _ (λ σ' _, σ' = σ)); [|intros ? _ _ ->; by apply tgen_ret].
    apply tgen_modify; [|done]. by intros s' [].
  - intros ? z _ ->. apply H.
Qed.

Lemma tgen_fresh {A} σ (k : nat → M A) Q : (∀ σ' n, σ ⊆ σ' → gen σ' (k n) Q) → gen σ (n <- new_name ;; k n) Q.
Proof. intros H. eapply tgen_bind; [apply (tgen_name DL σ None)|]. intros σ' n Hσ _. by apply H. Qed.

Lemma tgen_binary i op a b :
  operand_ok a → operand_ok b → generates (visitBinaryOperator i op a b).
Proof.
  intros Ha Hb σ. unfold visitBinaryOperator.
  apply (tgen_bind _ _ _ _ (λ _ h, parameters DL h = [P_expr; P_expr])).
  - destruct (getType a) as [[|[p|p|]|p]| | | | |]; try by apply tgen_ret.
    destruct op; try apply tgen_fail; by apply tgen_ret.
  - intros σ' h _ Hh. apply tgen_build_register. rewrite Hh. args_fit.
Qed.

Lemma tgen_select i c t f :
  is_condition c → operand_ok c → generates (visitSelectInst DL host_address i c t f).
Proof.
  intros Hc Hop σ. apply tgen_next_slot. intros slot.
  eapply tgen_bind; [by apply tgen_build, push_arguments_fit|]. intros σ1 o _ Ho.
  eapply tgen_bind; [by apply tgen_register_optional|]. intros σ2 _ _ _.
  tgen_state.
  assert (∀ et ef, gen σ2 (data <- new_name ;; emit (SelectExpr data c et ef) ;;; set_expression i (Some data))
    (@any unit)) as Hs.
  { intros et ef. apply tgen_fresh. intros σ3 n _. apply tgen_then; intros σ4; [by apply tgen_emit_quiet|].
    apply tgen_set_expression. }
  repeat case_match; first [by apply tgen_ret|apply Hs].
Qed.

Lemma tgen_return i v : generates (visitReturnInst i v).
Proof. intros σ. destruct v; [|by apply tgen_ret]. cbn. tgen_state. eapply tgen_unit. tgen_first. Qed.

Lemma tgen_push i c slot :
  is_condition c → operand_ok c →
  generates (c <- buildRuntimeCall pushPathConstraintWithLoc (push_arguments DL host_address i c slot) ;;
             registerOptional c None).
Proof. intros ? ?. by apply tgen_build_register, push_arguments_fit. Qed.

Lemma tgen_if σ (m : M unit) n on : generates m → gen σ (b <- in_block m ;; emit (If n on b.2)) (@any unit).
Proof.
  intros H. eapply tgen_bind; [apply tgen_in_block, H|]. intros σ' r _ [_ Hr].
  apply tgen_emit; [by apply item_ok_if|done].
Qed.

Lemma tgen_loop i c :
  is_condition c → operand_ok c → generates (visit_loop_condition DL host_address i c).
Proof.
  intros Hc Hop σ. unfold visit_loop_condition. apply tgen_fresh. intros σ1 flag _.
  apply tgen_then; intros σ2.
  { apply tgen_modify; [|done]. intros s [? ? ? ?]. split; try done. constructor; [|done]. by apply item_ok_quiet. }
  apply tgen_fresh. intros σ3 seen _. apply tgen_then; intros σ4; [by apply tgen_emit_quiet|].
  apply tgen_if. intros σ5. eapply tgen_bind; [by apply tgen_build, push_arguments_fit|]. intros σ6 o _ Ho.
  eapply tgen_bind; [by apply tgen_register_optional|]. intros σ7 _ _ _. by apply tgen_emit_quiet.
Qed.

Lemma tgen_branch i c ct lo g :
  is_condition c → operand_ok c → generates (visitBranchInst DL host_address i c ct lo g).
Proof.
  intros Hc Hop σ. unfold visitBranchInst. apply tgen_next_slot. intros slot.
  destruct lo as [q|]; [|by apply tgen_push]. destruct (xorb _ _); [|by apply tgen_push].
  destruct g; [by apply tgen_ret|by apply tgen_loop].
Qed.

Lemma tgen_load i addr : is_pointer addr → generates (visitLoadInst DL i addr).
Proof.
  intros Hp σ. unfold visitLoadInst. tgen_step. eapply tgen_bind; [apply tgen_convertBitVector; by eexists|].
  intros σ1 e _ _. apply tgen_set_expression.
Qed.

Lemma tgen_store V ptr : is_pointer ptr → operand_ok V → generates (visitStoreInst DL V ptr).
Proof.
  intros Hp HV σ. unfold visitStoreInst. tgen_state. eapply tgen_bind; [by apply tgen_convertExpr|].
  intros σ1 o _ _. eapply tgen_unit. tgen_first.
Qed.

Lemma tgen_gep_index ptr c cur i σ :
  operand_ok ptr → gep_index_ok i → comp_ok σ c → gen σ (visit_gep_index DL ptr c cur i) (λ σ' r, comp_ok σ' r.1).
Proof.
  intros Hptr' Hi Hc. unfold visit_gep_index.
  assert (∀ σ c a, comp_ok σ c → call_arg_fits DL P_expr a → gen σ
    (d <- forceBuildRuntimeCall (binaryOperatorHandler Add)
           [a; match cur with None => Sym ptr | Some e => Plain (AExpr (Some e)) end] ;;
     let computation := merge c d in ret (computation, lastInstruction computation))
    (λ σ' r, comp_ok σ' r.1)) as Hadd.
  { clear σ c Hc. intros σ c a Hc Ha. eapply tgen_bind.
    - apply tgen_force. constructor; [exact Ha|]. destruct cur; args_fit.
    - intros σ' d Hσ Hd. tgen_carry Hσ. apply tgen_ret. by apply comp_ok_merge. }
  destruct i as [elements member|index indexed]; [by apply Hadd|]. cbn in Hi.
  destruct (is_zero_constant index); [by apply tgen_ret|].
  apply (tgen_bind _ _ _ _ comp_ok); [|intros σ1 c1 _ Hc1; by apply Hadd].
  destruct (negb _).
  - tgen_step. tgen_step. apply tgen_ret. repeat apply comp_ok_merge; assumption.
  - tgen_step. apply tgen_ret. apply comp_ok_merge; assumption.
Qed.

Lemma tgen_gep_indices ptr c cur l σ :
  operand_ok ptr → Forall gep_index_ok l → comp_ok σ c → gen σ (visit_gep_indices DL ptr c cur l) comp_ok.
Proof.
  intros Hp Hl. revert c cur σ.
  induction Hl as [|i l Hi _ IH]; intros c cur σ Hc; [by apply tgen_ret|]. cbn [visit_gep_indices].
  eapply tgen_bind; [by apply tgen_gep_index|]. intros σ1 r _ Hr. by apply IH.
Qed.

Lemma tgen_gep i ptr l :
  operand_ok ptr → Forall gep_index_ok l → generates (visitGetElementPtrInst DL i ptr l).
Proof.
  intros Hp Hl σ. unfold visitGetElementPtrInst. tgen_state. case_match; [by apply tgen_ret|].
  case_match; [apply tgen_set_expression|].
  eapply tgen_bind; [by apply tgen_gep_indices; [..|apply comp_ok_empty]|]. intros σ1 c _ Hc. by apply tgen_register.
Qed.

Lemma tgen_copy i a : generates (copy_expression i a).
Proof.
  intros σ. unfold copy_expression. tgen_state. case_match; [apply tgen_set_expression|by apply tgen_ret].
Qed.

Lemma tgen_bitcast i a : operand_ok a → generates (visitBitCastInst i a).
Proof.
  intros Ha σ. unfold visitBitCastInst.
  destruct (getType a), (type i); try apply tgen_fail; try apply tgen_copy; apply tgen_build_register; args_fit.
Qed.

Lemma tgen_trunc i a : operand_ok a → generates (visitTruncInst i a).
Proof.
  intros Ha σ. unfold visitTruncInst. tgen_state. case_match; [by apply tgen_ret|]. tgen_step.
  apply (tgen_bind _ _ _ _ comp_ok); [|intros σ1 c _ Hc; by apply tgen_register].
  assert (comp_ok σ0 (merge empty_computation r)) as Hm by (apply comp_ok_merge; [apply comp_ok_empty|assumption]).
  case_match; [|by apply tgen_ret]. tgen_step. apply tgen_ret. by apply comp_ok_merge.
Qed.

Lemma tgen_extension i f a :
  f = buildSExt ∨ f = buildZExt → operand_ok a → generates (visit_extension i f a).
Proof.
  intros Hf Ha σ. assert (parameters DL f = [P_expr; P_int 8]) as Hp by by destruct Hf as [-> | ->].
  unfold visit_extension. case_match; [|apply tgen_build_register; rewrite Hp; args_fit].
  tgen_step. eapply tgen_bind; [apply tgen_force; rewrite Hp; args_fit|]. intros σ1 c Hσ1 Hc. tgen_carry Hσ1.
  apply tgen_register. repeat apply comp_ok_merge; [apply comp_ok_empty|assumption..].
Qed.

Lemma tgen_phi i incoming : generates (visitPHINode i incoming).
Proof.
  intros σ. unfold visitPHINode. apply tgen_then; intros σ1; [apply tgen_modify; [by intros s []|done]|].
  apply tgen_fresh. intros σ2 n _. apply tgen_then; intros σ3; [by apply tgen_emit_quiet|apply tgen_set_expression].
Qed.

Lemma tgen_extract i t l : operand_ok t → generates (visitExtractValueInst DL i t l).
Proof.
  intros Ht σ. unfold visitExtractValueInst. tgen_state. case_match; [|by apply tgen_ret].
  eapply tgen_bind; [apply tgen_offset|]. intros σ1 offset _ _. tgen_step.
  eapply tgen_bind; [apply tgen_convertBitVector; by eexists|]. intros σ2 r2 Hσ2 Hr2. apply tgen_register.
  split; [|by intros ? [= <-]]. constructor; [|constructor]. split; [exact Ht|]. exists buildExtract. split; [eapply lookup_weaken; eassumption|done].
Qed.

Lemma tgen_insert i t v l :
  operand_ok t → operand_ok v → generates (visitInsertValueInst DL i t v l).
Proof.
  intros Ht Hv σ. unfold visitInsertValueInst. tgen_state.
  destruct (getSymbolicExpression s t), (getSymbolicExpression s v); try by apply tgen_ret.
  all: eapply tgen_bind; [by apply tgen_convertExpr|]; intros σ1 o Hσ1 Ho.
  all: eapply tgen_bind; [apply tgen_offset|]; intros σ2 offset Hσ2 _.
  all: tgen_step; apply tgen_register.
  all: assert (∀ k x, operand_ok x → (k < 2)%nat → input_ok DL σ0 {| concreteValue := x; operandIndex := k; user := r |}) as Hi
         by (intros [|[|k]] x Hx Hk; [split; [exact Hx|by exists buildInsert]..|lia]).
  all: assert (opt_comp_ok DL σ0 o) as Ho' by
         (destruct o; [eapply comp_ok_mono; [|exact Ho]; by etransitivity|done]).
  all: destruct o as [c|]; [apply comp_ok_merge; [exact Ho'|]|]; (split; [|intros ? [= <-]; by eexists]);
    repeat (constructor; [apply Hi; [assumption|lia]|]); constructor.
Qed.

Lemma tgen_cases i c e slot l : is_integer c → generates (push_cases DL host_address i c e slot l).
Proof.
  intros Hc. induction l as [|z l IH]; intros σ; cbn [push_cases]; [by apply tgen_ret|].
  destruct (locate i) as [file line]. apply tgen_fresh. intros σ1 n _.
  apply tgen_then; intros σ2; [by apply tgen_emit_quiet|].
  eapply tgen_bind; [by apply tgen_createValue; [destruct Hc as [w Hw]; unfold int_width; rewrite Hw|]|].
  intros σ3 v _ _. tgen_step.
  eapply tgen_bind; [unfold getTargetPreferredInt; tgen_first|]. intros σ4 ? _ _. apply IH.
Qed.

Lemma tgen_switch i c l : is_integer c → generates (visitSwitchInst DL host_address i c l).
Proof.
  intros Hc σ. unfold visitSwitchInst. tgen_state. case_match; [|by apply tgen_ret].
  apply tgen_next_slot. intros slot. apply tgen_fresh. intros σ1 flag _.
  apply tgen_then; intros σ2; [by apply tgen_emit_quiet|]. by apply tgen_if, tgen_cases.
Qed.

Lemma tgen_visit_before i : instruction_ok i → generates (visit_before DL host_address i).
Proof.
  intros Ha σ. unfold visit_before, instruction_ok in *. destruct (kind i) eqn:K; try by apply tgen_ret.
  all: destruct_and?.
  - by apply tgen_binary.
  - apply tgen_build_register. args_fit.
  - by apply tgen_select.
  - apply tgen_build_register. args_fit.
  - apply tgen_return.
  - by apply tgen_branch.
  - destruct f; [|by apply tgen_ret..]. by apply tgen_intrinsic_call.
  - by apply tgen_load.
  - by apply tgen_store.
  - by apply tgen_gep.
  - by apply tgen_bitcast.
  - by apply tgen_trunc.
  - apply tgen_copy.
  - apply tgen_copy.
  - apply tgen_build_register. args_fit.
  - apply tgen_build_register. args_fit.
  - apply tgen_build_register. args_fit.
  - apply tgen_build_register. args_fit.
  - unfold visitCastInst. rewrite K. by apply tgen_ret.
  - unfold visitCastInst. rewrite K. by apply tgen_ret.
  - unfold visitCastInst. rewrite K. apply tgen_extension; [by left|done].
  - unfold visitCastInst. rewrite K. apply tgen_extension; [by right|done].
  - unfold visitCastInst. rewrite K. by apply tgen_ret.
  - apply tgen_phi.
  - by apply tgen_insert.
  - by apply tgen_extract.
  - by apply tgen_switch.
Qed.

Lemma tgen_visit i : instruction_ok i → generates (visit DL host_address i).
Proof.
  intros Ha σ. unfold visit.
  assert (∀ σ, gen σ (visit_before DL host_address i ;;; emit (Orig i)) (@any unit)) as H.
  { intros σ1. apply tgen_then; [by apply tgen_visit_before|]. intros σ2. by apply tgen_emit_quiet. }
  destruct (kind i); try apply H. destruct f; try apply H. apply tgen_function_call.
Qed.

Lemma tgen_visit_all l : Forall instruction_ok l → generates (visit_all DL host_address l).
Proof.
  induction 1 as [|i l Hi Hl IH]; intros σ; [by apply tgen_ret|].
  apply tgen_then; [by apply tgen_visit|exact IH].
Qed.

(** ** Phi nodes *)
Lemma fits_map_expr f p a : fits DL p a = true → fits DL p (map_expr f a) = true.
Proof. by destruct p, a. Qed.

Lemma map_uses_ok σ f it : item_ok DL σ it → item_ok DL σ (map_uses f it).
Proof.
  revert it. fix IH 1. intros it H. destruct it as [|d g args| | | | | | | | |c on body|]; try exact H.
  - apply Forall_cons in H as [[Hd Ha] _]. constructor; [|constructor]. split; [exact Hd|].
    apply Forall2_fmap_r. eapply Forall2_impl; [exact Ha|]. intros p a. exact (fits_map_expr f p a).
  - cbn [map_uses]. apply item_ok_if. apply item_ok_if in H.
    induction body as [|it body IHb]; [exact H|]. apply Forall_cons in H as [Hi Hb].
    constructor; [exact (IH it Hi)|exact (IHb Hb)].
Qed.

Lemma items_ok_fmap σ f l :
  (∀ it, item_ok DL σ it → item_ok DL σ (f it)) → items_ok σ l → items_ok σ (f <$> l).
Proof. intros Hf H. apply Forall_fmap. eapply Forall_impl; [exact H|]. exact Hf. Qed.

Lemma items_ok_filter σ (P : item → Prop) `{!∀ x, Decision (P x)} l : items_ok σ l → items_ok σ (filter P l).
Proof.
  induction 1 as [|it l Hi _ IH]; [constructor|]. rewrite filter_cons. case_decide; [by constructor|exact IH].
Qed.

Lemma tgen_finalize_incoming l σ : gen σ (finalize_incoming l) (@any (list nat)).
Proof.
  revert σ. induction l as [|p l IH]; intros σ; cbn [finalize_incoming]; [by apply tgen_ret|].
  tgen_state. destruct (mjoin _) as [x|]; [|apply tgen_fail]. case_match.
  - eapply tgen_bind; [apply IH|]. intros. by apply tgen_ret.
  - eapply tgen_bind; [apply (tgen_set_code σ (λ s', _ <$> code s'))|intros σ1 _ _ _; apply IH].
    intros c Hc. apply items_ok_fmap; [|exact Hc]. intros it Hi. unfold set_incoming.
    destruct it; try exact Hi. destruct (decide _); [|exact Hi]. by apply item_ok_quiet.
Qed.

Lemma tgen_erase_phis l : generates (erase_phis l).
Proof.
  induction l as [|x l IH]; intros σ; cbn [erase_phis]; [by apply tgen_ret|].
  apply tgen_then; [|exact IH]. intros σ1. apply (tgen_set_code σ1 (λ s', filter _ (_ <$> code s'))). intros c Hc. apply items_ok_filter, items_ok_fmap; [|exact Hc]. intros it. apply map_uses_ok.
Qed.

Lemma tgen_finalize : generates finalizePHINodes.
Proof.
  intros σ. unfold finalizePHINodes. tgen_state. eapply tgen_bind; [apply tgen_finalize_incoming|].
  intros σ1 l _ _. apply tgen_then; [apply tgen_erase_phis|]. intros σ2.
  apply tgen_modify; [by intros s' []|done].
Qed.

(** ** Short-circuiting *)
Lemma replaceOperand_ok σ i e l : input_ok DL σ i → items_ok σ l → items_ok σ (replaceOperand i e l).
Proof.
  intros (_&f&Hf&Hp) H. apply items_ok_fmap; [|exact H]. intros it Hi. destruct it as [|d g args| | | | | | | | | |]; try exact Hi.
  destruct (Nat.eqb_spec d (user i)) as [->|]; [|exact Hi].
  apply Forall_cons in Hi as [[Hg Ha] _]. cbn in Hg. rewrite Hf in Hg. injection Hg as <-.
  constructor; [|constructor]. split; [exact Hf|].
  change (fitting DL (parameters DL f) (<[operandIndex i:=AExpr e]> args)).
  rewrite <-(list_insert_id _ _ _ Hp). by apply Forall2_insert.
Qed.

Lemma rename_result_ok σ f r r' l :
  σ !! r = Some f → σ !! r' = Some f → items_ok σ l → items_ok σ (rename_result r r' l).
Proof.
  intros Hr Hr' H. apply items_ok_fmap; [|exact H]. intros it Hi.
  destruct it as [|d g args| | | | | | | | | |]; try exact Hi.
  destruct (Nat.eqb_spec d r) as [->|]; [|exact Hi].
  apply Forall_cons in Hi as [[Hg Ha] _]. cbn in Hg. rewrite Hr in Hg.
  injection Hg as <-. constructor; [|constructor]. by split.
Qed.

Lemma tgen_null_checks seg l σ : gen σ (null_checks seg l) (@any (list nat)).
Proof.
  revert σ. induction l as [|i l IH]; intros σ; cbn [null_checks]; [by apply tgen_ret|].
  apply tgen_fresh. intros σ1 n _. eapply tgen_bind; [by apply tgen_emit_quiet|]. intros σ2 _ _ _.
  eapply tgen_bind; [apply IH|]. intros. by apply tgen_ret.
Qed.

Lemma tgen_and_all l n σ : gen σ (and_all n l) (@any nat).
Proof.
  revert n σ. induction l as [|m l IH]; intros n σ; cbn [and_all]; [by apply tgen_ret|].
  apply tgen_fresh. intros σ1 a _. eapply tgen_bind; [by apply tgen_emit_quiet|]. intros σ2 _ _ _. apply IH.
Qed.

Lemma tgen_check_arguments unknown l seg σ :
  items_ok σ seg → Forall (λ p, input_ok DL σ p.1) l →
  gen σ (check_arguments DL unknown seg l) (λ σ' seg', items_ok σ' seg').
Proof.
  revert seg σ. induction l as [|[i n] l IH]; intros seg σ Hs Hl; cbn [check_arguments]; [by apply tgen_ret|].
  apply Forall_cons in Hl as [Hi Hl]. cbn in Hi. pose proof (proj1 Hi) as Ho.
  assert (∀ σ' e, σ ⊆ σ' → gen σ' (check_arguments DL unknown (replaceOperand i e seg) l)
    (λ σ' seg', items_ok σ' seg')) as Hnext.
  { intros σ' e Hσ. apply IH.
    - apply replaceOperand_ok; [by eapply input_ok_mono|by eapply items_ok_mono].
    - eapply Forall_impl; [exact Hl|]. intros p. by apply input_ok_mono. }
  destruct (bool_decide _ && (unknown =? 1)%nat); [by apply IH|].
  destruct (bool_decide _).
  - eapply tgen_bind; [by apply tgen_in_block, tgen_createValue|]. intros σ1 r Hσ1 [_ Hr].
    apply (tgen_bind _ _ _ _ (@any unit)); [apply tgen_emit; [by apply item_ok_if|done]|]. intros σ2 _ Hσ2 _.
    apply tgen_fresh. intros σ3 x Hσ3. eapply tgen_bind; [by apply tgen_emit_quiet|]. intros σ4 _ Hσ4 _.
    apply Hnext. by repeat (etransitivity; [eassumption|]).
  - eapply tgen_bind; [by apply tgen_createValue|]. intros σ1 r Hσ1 _. by apply Hnext.
Qed.

Lemma tgen_shortCircuit c used seg σ :
  comp_ok σ c → items_ok σ seg → gen σ (shortCircuit DL c used seg) (@any unit).
Proof.
  intros Hc Hs. unfold shortCircuit. eapply tgen_bind; [apply tgen_null_checks|]. intros σ1 checks Hσ1 _. tgen_carry Hσ1.
  destruct checks as [|n checks]; [apply tgen_fail|]. destruct (lastInstruction c) as [last|] eqn:El; [|apply tgen_fail].
  eapply tgen_bind; [apply tgen_and_all|]. intros σ2 all Hσ2 _. tgen_carry Hσ2.
  destruct (comp_last _ _ _ Hc last El) as [f Hf].
  eapply (tgen_bind _ _ _ _ (λ σ' last', σ' !! last' = Some f)).
  { destruct used; [apply (tgen_name _ _ (Some f))|by apply tgen_ret]. }
  intros σ3 last' Hσ3 Hl. cbn beta in Hl. tgen_carry Hσ3. pose proof (lookup_weaken _ _ _ _ Hf Hσ3) as Hf3.
  eapply tgen_bind.
  { apply tgen_in_block. eapply tgen_bind; [apply tgen_check_arguments; [exact Hs|]|].
    - apply Forall_forall. intros p Hp. pose proof (comp_inputs _ _ _ Hc) as Hi.
      rewrite Forall_forall in Hi. apply Hi. destruct p as [i m]. by apply elem_of_zip_l in Hp.
    - intros σ4 seg' Hσ4 Hseg. apply (tgen_emit_all _ _ _ (@any unit)); [|done].
      apply (rename_result_ok _ f); [by eapply lookup_weaken..|exact Hseg]. }
  intros σ4 r Hσ4 [_ Hr]. apply (tgen_bind _ _ _ _ (@any unit)); [apply tgen_emit; [by apply item_ok_if|done]|].
  intros σ5 _ _ _. destruct used; [by apply tgen_emit_quiet|by apply tgen_ret].
Qed.

Lemma split_after_app last l a b : split_after last l = Some (a, b) → l = a ++ b.
Proof.
  revert a. induction l as [|it l IH]; intros a; cbn [split_after]; [done|].
  destruct (defines last it); [by intros [= <- <-]|].
  destruct (split_after last l) as [[a' b']|]; [|done]. intros [= <- <-]. cbn. by rewrite (IH a').
Qed.

Lemma tgen_rewrite_list c used f l :
  Forall (λ it, ∀ σ, comp_ok σ c → item_ok DL σ it → gen σ (f it) (@any unit)) l →
  ∀ σ, comp_ok σ c → items_ok σ l → gen σ (rewrite_list DL c used f l) (@any unit).
Proof.
  induction 1 as [|it l Hit _ IH]; intros σ Hc H; [by apply tgen_ret|].
  pose proof (proj1 (Forall_cons _ _ _) H) as [Hi Hl].
  assert (gen σ (f it ;;; rewrite_list DL c used f l) (@any unit)) as Hgo.
  { eapply tgen_bind; [by apply Hit|]. intros σ1 _ Hσ1 _.
    apply IH; [by eapply comp_ok_mono|by eapply items_ok_mono]. }
  cbn [rewrite_list]. destruct (firstInstruction c) as [first|]; [|exact Hgo].
  destruct (lastInstruction c) as [last|]; [|exact Hgo]. destruct (defines first it); [|exact Hgo].
  destruct (split_after last (it :: l)) as [[seg post]|] eqn:Es; [|apply tgen_fail].
  apply split_after_app in Es. rewrite Es in H. apply Forall_app in H as [H1 H2].
  eapply tgen_bind; [by apply tgen_shortCircuit|]. intros σ1 _ Hσ1 _. apply tgen_emit_all; [|done].
  by eapply items_ok_mono.
Qed.

Lemma item_nested_ind (P : item → Prop) :
  (∀ it, match it with If _ _ _ => False | _ => True end → P it) →
  (∀ c on body, Forall P body → P (If c on body)) → ∀ it, P it.
Proof.
  intros H HIf. fix IH 1. intros it. destruct it as [i| | | | | | | | | |c on body|]; try (apply H; exact Logic.I).
  apply HIf. induction body as [|it body IHb]; constructor; [apply IH|apply IHb].
Qed.

Lemma tgen_rewrite_item c used it σ :
  comp_ok σ c → item_ok DL σ it → gen σ (rewrite_item DL c used it) (@any unit).
Proof.
  revert σ. induction it as [it Hn|b on body IH] using item_nested_ind; intros σ Hc H.
  - assert (gen σ (emit it) (@any unit)) as He by by apply tgen_emit. by destruct it.
  - cbn [rewrite_item]. apply item_ok_if in H.
    eapply tgen_bind; [apply tgen_in_block; by apply tgen_rewrite_list|]. intros σ1 r _ [_ Hr].
    apply tgen_emit; [by apply item_ok_if|done].
Qed.

Lemma tgen_shortCircuitUses l σ : Forall (comp_ok σ) l → gen σ (shortCircuitUses DL l) (@any unit).
Proof.
  revert σ. induction l as [|c l IH]; intros σ H; cbn [shortCircuitUses]; [by apply tgen_ret|].
  apply Forall_cons in H as [Hc Hl].
  eapply (tgen_bind _ _ _ _ (@any unit)); [|intros σ1 _ Hσ1 _; apply IH; by eapply uses_ok_mono].
  unfold shortCircuitOne. apply tgen_get. intros s [Hcode _ _ _].
  apply (tgen_bind _ _ _ _ (λ σ' _, σ' = σ)).
  - apply tgen_modify; [|done]. intros s' [? ? ? ?]. split; try done. constructor.
  - intros ? _ _ ->. apply tgen_rewrite_list; [|done..]. apply Forall_forall. intros it _ σ'.
    intros. by apply tgen_rewrite_item.
Qed.

(** ** Functions *)
Lemma split_phis_join l : (split_phis l).1 ++ (split_phis l).2 = l.
Proof.
  induction l as [|i l IH]; [done|]. cbn [split_phis].
  destruct (kind i); try done. destruct (split_phis l). cbn in *. by rewrite IH.
Qed.

Lemma tgen_block b : Forall instruction_ok (instructions b) → generates (instrument_block DL host_address b).
Proof.
  intros H σ. unfold instrument_block. rewrite <-(split_phis_join (instructions b)), Forall_app in H.
  destruct (split_phis (instructions b)) as [phis rest]. destruct H as [H1 H2].
  apply tgen_then; [by apply tgen_visit_all|]. intros σ1.
  apply tgen_then; [apply tgen_notification|by apply tgen_visit_all].
Qed.

Lemma tgen_blocks l :
  Forall (λ b, Forall instruction_ok (instructions b)) l → generates (instrument_blocks DL host_address l).
Proof.
  induction 1 as [|b l Hb _ IH]; intros σ; [by apply tgen_ret|].
  apply tgen_then; [by apply tgen_block|exact IH].
Qed.

Lemma tgen_function f σ : well_typed_function f → gen σ (symbolizeFunction DL host_address f) (@any unit).
Proof.
  intros [He Hb]%Forall_cons. unfold symbolizeFunction.
  eapply (tgen_bind _ _ _ _ (@any unit)).
  { unfold instrument_entry. apply tgen_then; [apply tgen_notification|]. intros σ1.
    apply tgen_then; [apply tgen_arguments|by apply tgen_visit_all]. }
  intros σ1 _ _ _. eapply tgen_bind; [by apply tgen_blocks|]. intros σ2 _ _ _.
  eapply tgen_bind; [apply tgen_finalize|]. intros σ3 _ _ _.
  unfold shortCircuitExpressionUses. apply tgen_get. intros s [_ _ Hu _]. by apply tgen_shortCircuitUses.
Qed.

(** The calls in the finished code are made with arguments of the types that the
    functions are called with. *)
Lemma function_typed f s' :
  well_typed_function f → symbolizeFunction DL host_address f new_symbolizer = Ok tt s' →
  typed_code DL (function_code s').
Proof.
  intros Hf E. destruct (tgen_function f ∅ Hf new_symbolizer tt s') as (σ&_&[Hc He _ _]&_); [|done|].
  { split; try constructor. intros x [? Hx]. by rewrite lookup_empty in Hx. }
  unfold typed_code, function_code. rewrite flat_map_app. apply Forall_app.
  assert (∀ l, items_ok σ l → Forall (typed_call DL) (flat_map calls_of l)) as H.
  { induction 1 as [|it l Hi _ IH]; cbn; [constructor|]. apply Forall_app. split; [|exact IH].
    eapply Forall_impl; [exact Hi|]. by intros c [_ ?]. }
  split; by apply H.
Qed.
End visitors.
