(* ===== verification/Typing.v ===== *)
(** * The sorts of expressions

    Which builders of the simple backend may be applied to expressions of which
    sorts, and what sort they return: a call that is well sorted is never
    rejected by the solver library, whatever the values of the expressions. *)

From S2P Require Import Prelude Smt Z3Api Interface SimpleBackend SimpleSpec Arith Dispatch Symbolizer.
From S2P Require Import SymbolizerSem.
From Stdlib Require Import SpecFloat.

#[local] Open Scope Z_scope.

(** ** The typing rules *)
Definition operator_sort (op : binary_opcode) (τ : sort) : option sort :=
  match op, τ with
  | (FAdd | FSub | FMul | FDiv | FRem), SFP d => Some (SFP d)
  | (FAdd | FSub | FMul | FDiv | FRem), _ => None
  | _, SBV w => Some (SBV w)
  | _, _ => None
  end.

Definition comparable (p : predicate) (τ : sort) : bool :=
  match p, τ with
  | (ICMP_EQ | ICMP_NE), (SBool | SBV _) => true
  | (ICMP_UGT | ICMP_UGE | ICMP_ULT | ICMP_ULE | ICMP_SGT | ICMP_SGE | ICMP_SLT | ICMP_SLE), SBV _ => true
  | (FCMP_OGT | FCMP_OGE | FCMP_OLT | FCMP_OLE | FCMP_OEQ | FCMP_ONE | FCMP_ORD | FCMP_UNO
     | FCMP_UGT | FCMP_UGE | FCMP_ULT | FCMP_ULE | FCMP_UEQ | FCMP_UNE), SFP _ => true
  | _, _ => false
  end.

Definition byte_sized (n : Z) : bool := (0 <? n) && (n <? 2 ^ 8).

Section typing.
Context {Z3I : Z3}.

(** The sort of the result of a builder. *)
Definition result_sort (f : SymFn) (args : list argv) : option sort :=
  match f, args with
  | buildInteger, [VInt _; VInt bits] => if byte_sized bits then Some (SBV bits) else None
  | buildInteger128, [VInt _; VInt _] => Some (SBV 128)
  | buildFloat, [VFloat _; VInt d] => Some (SFP (z_bool d))
  | buildNullPointer, [] => Some (SBV 64)
  | buildBool, [VInt _] => Some SBool
  | (buildSExt | buildZExt), [VExpr (Some e); VInt k] =>
      match Z3_get_sort e with
      | SBV w => if (0 <=? k) && (k <? 2 ^ 8) then Some (SBV (w + k)) else None
      | _ => None
      end
  | buildTrunc, [VExpr (Some e); VInt k] =>
      match Z3_get_sort e with
      | SBV w => if byte_sized k && (k <=? w) then Some (SBV k) else None
      | _ => None
      end
  | buildIntToFloat, [VExpr (Some e); VInt d; VInt _] =>
      match Z3_get_sort e with SBV _ => Some (SFP (z_bool d)) | _ => None end
  | buildFloatToFloat, [VExpr (Some e); VInt d] =>
      match Z3_get_sort e with SFP _ => Some (SFP (z_bool d)) | _ => None end
  | buildBitsToFloat, [VExpr (Some e); VInt d] =>
      match Z3_get_sort e with
      | SBV w => if w =? fp_width (z_bool d) then Some (SFP (z_bool d)) else None
      | _ => None
      end
  | buildFloatToBits, [VExpr (Some e)] =>
      match Z3_get_sort e with SFP d => Some (SBV (fp_width d)) | _ => None end
  | (buildFloatToSignedInt | buildFloatToUnsignedInt), [VExpr (Some e); VInt k] =>
      match Z3_get_sort e with SFP _ => if byte_sized k then Some (SBV k) else None | _ => None end
  | (buildFloatAbs | unaryOperatorHandler_FNeg), [VExpr (Some e)] =>
      match Z3_get_sort e with SFP d => Some (SFP d) | _ => None end
  | buildBoolToBit, [VExpr (Some e)] =>
      match Z3_get_sort e with SBool => Some (SBV 1) | _ => None end
  | (buildBoolAnd | buildBoolOr | buildBoolXor), [VExpr (Some a); VExpr (Some b)] =>
      match Z3_get_sort a, Z3_get_sort b with SBool, SBool => Some SBool | _, _ => None end
  | binaryOperatorHandler op, [VExpr (Some a); VExpr (Some b)] =>
      if decide (Z3_get_sort a = Z3_get_sort b) then operator_sort op (Z3_get_sort a) else None
  | comparisonHandler p, [VExpr (Some a); VExpr (Some b)] =>
      if bool_decide (Z3_get_sort a = Z3_get_sort b) && comparable p (Z3_get_sort a) then Some SBool else None
  | buildConcat, [VExpr (Some a); VExpr (Some b)] =>
      match Z3_get_sort a, Z3_get_sort b with SBV w, SBV w' => Some (SBV (w + w')) | _, _ => None end
  | _, _ => None
  end.

(** ** Well-sorted computations *)
Context {ZL : Z3Laws Z3I}.
Implicit Types (s : state) (a b e : ast) (τ : sort).

Definition sorted τ (m : M state (option ast)) s : Prop :=
  returns binv balanced m s (λ r s', ∃ h, r = Some h ∧ alive h s' ∧ Z3_get_sort h = τ).

(** A builder that has a value on the values of its arguments. *)
Lemma makes_sorted ρ m s v τ : makes ρ m s v → value_sort v = τ → sorted τ m s.
Proof.
  intros (r&s'&E&I&B&h&->&Ha&Hv) <-. exists (Some h), s'. split_and!; try done.
  exists h. split_and!; try done. by rewrite <-(Z3_eval_sort ρ), Hv.
Qed.

Lemma post_sorted τ m s :
  binv s → post m s (λ r s', owing [] s s' ∧
    ∃ h, r = Some h ∧ h ∈ allocatedExpressions s' ∧ Z3_get_sort h = τ) → sorted τ m s.
Proof.
  intros I (r&s'&E&O&h&->&Hh&Hs). pose proof O as X%owing_balanced. exists (Some h), s'.
  split_and!; [done|by eapply balanced_binv|done|]. exists h. split_and!; try done.
  destruct (built_rep (λ _, 0) (Z3_eval (λ _, 0) h) (Some h) [] s s' I O) as (?&[= <-]&?&_); [|done].
  by exists h.
Qed.

(** One call of the solver library. *)
Lemma post_reg_sorted op (args : list ast) τ l s0 s :
  owing l s0 s → smt_sort op (Z3_get_sort <$> args) = Some τ →
  post (reg_call op (Some <$> args)) s (λ r s', owing l s0 s' ∧
    ∃ h, r = Some h ∧ h ∈ allocatedExpressions s' ∧ Z3_get_sort h = τ).
Proof.
  intros O Hs. destruct (Z3_mk_ok _ _ _ Hs) as [h Eh]. pose proof (Z3_mk_sort _ _ _ Eh) as Hh.
  rewrite Hs in Hh. injection Hh as ->.
  eapply post_bind with (P := λ r s', r = Some h ∧ s' = s).
  { exists (Some h), s. split; [|done]. unfold z3_call, bind. by rewrite nonnull_all_ok, Eh. }
  intros ? ? [-> ->]. eapply post_impl; [by apply post_register|].
  intros r s' (->&O'&Hin). split; [done|]. by exists h.
Qed.

Lemma reg_sorted op (args : list ast) τ s :
  binv s → smt_sort op (Z3_get_sort <$> args) = Some τ → sorted τ (reg_call op (Some <$> args)) s.
Proof. intros I Hs. apply post_sorted; [done|]. apply post_reg_sorted; [apply owing_nil|done]. Qed.

Lemma fsort_sorted d op (args : list ast) τ s :
  binv s → smt_sort op (Z3_get_sort <$> args) = Some τ →
  sorted τ (with_fsort d (reg_call op (Some <$> args))) s.
Proof.
  intros I Hs. apply post_sorted; [done|]. unfold with_fsort.
  eapply post_bind; [by apply post_inc, owing_nil|]. intros [] s1 O1.
  eapply post_bind; [by apply post_reg_sorted|]. intros r s2 [O2 (h&->&Hh&Hs2)].
  eapply post_bind; [by eapply (post_dec [] [])|]. intros [] s3 [O3 E3].
  apply post_ret. split; [done|]. exists h. by rewrite E3.
Qed.

(** Values of a given sort. *)
Lemma bv_value ρ a w : Z3_get_sort a = SBV w → ∃ x, Z3_eval ρ a = VBV w x.
Proof. rewrite <-(Z3_eval_sort ρ). destruct (Z3_eval ρ a); cbn; try done. intros [= ->]. eauto. Qed.

Lemma bool_value ρ a : Z3_get_sort a = SBool → ∃ x, Z3_eval ρ a = VBool x.
Proof. rewrite <-(Z3_eval_sort ρ). destruct (Z3_eval ρ a); cbn; try done. eauto. Qed.

Lemma fp_value ρ a d : Z3_get_sort a = SFP d → ∃ x, Z3_eval ρ a = VFP d x.
Proof. rewrite <-(Z3_eval_sort ρ). destruct (Z3_eval ρ a); cbn; try done. intros [= ->]. eauto. Qed.

Lemma binary_sorted op a b s τ r :
  binv s → (∀ u v, value_sort u = Z3_get_sort a → value_sort v = Z3_get_sort b →
    ∃ x, binop_sem op u v = Some x ∧ value_sort x = r) →
  τ = r → sorted τ (build_binary op (Some a) (Some b)) s.
Proof.
  intros I H ->. destruct (H (Z3_eval (λ _, 0) a) (Z3_eval (λ _, 0) b)) as (x&E&Hx);
    [apply Z3_eval_sort..|].
  eapply makes_sorted; [by eapply (build_binary_makes (λ _, 0))|done].
Qed.

(** Operators and comparisons. *)
Lemma operator_sorted op a b τ s :
  binv s → Z3_get_sort a = Z3_get_sort b → operator_sort op (Z3_get_sort a) = Some τ →
  sorted τ (binaryOperatorHandlers op (Some a) (Some b)) s.
Proof.
  intros I E H.
  destruct op; cbn [operator_sort] in H; destruct (Z3_get_sort a) as [|w| |d] eqn:Ea; try done;
    injection H as <-; cbn [binaryOperatorHandlers];
    first [eapply (binary_sorted _ _ _ _ _ (SBV w)); [done| |done];
           intros [|w1 x| |] [|w2 y| |]; cbn; rewrite ?Ea, <-?E; try done; intros [= ->] [= ->];
           rewrite Z.eqb_refl; by eexists
          |apply (reg_sorted _ [a; b]); [done|]; cbn; rewrite Ea, <-E; cbn;
           by rewrite Bool.eqb_reflx].
Qed.

Lemma comparison_sorted p a b s :
  binv s → Z3_get_sort a = Z3_get_sort b → comparable p (Z3_get_sort a) = true →
  sorted SBool (comparisonHandlers p (Some a) (Some b)) s.
Proof.
  intros I E H. destruct (Z3_get_sort a) as [|w| |d] eqn:Ea; [..|].
  - destruct p; try done; cbn [comparisonHandlers]; (eapply binary_sorted; [done| |done]);
      rewrite Ea, <-E; intros u v Eu Ev; cbn; rewrite decide_True by congruence; eauto.
  - destruct p; try done; cbn [comparisonHandlers]; (eapply binary_sorted; [done| |done]);
      rewrite Ea, <-E; intros [|w1 x| |] [|w2 y| |]; try done; intros [= ->] [= ->];
      cbn; rewrite ?Z.eqb_refl, ?decide_True by done; eauto.
  - by destruct p.
  - destruct (fp_value (λ _, 0) a d Ea) as [x Hx]. symmetry in E.
    destruct (fp_value (λ _, 0) b d E) as [y Hy].
    assert (p = FCMP_ONE ∨ p ≠ FCMP_ONE) as [->|Hp] by (destruct p; first [by left | by right]).
    { eapply makes_sorted; [eapply compares_makes; [done|by eapply ordered_not_equal_compares]|done]. }
    assert (∃ r, float_compare p x y = Some r) as [r Hr] by (destruct p; try done; cbn; eauto).
    eapply makes_sorted; [by eapply (float_compare_makes (λ _, 0))|done].
Qed.

(** Constants. *)
Lemma null_pointer_sorted s : binv s → sorted (SBV 64) sym_build_null_pointer s.
Proof.
  intros I. apply (makes_sorted (λ _, 0) _ _ (VBV 64 0)); [|done].
  exists (Some g_null_pointer), s. split_and!; [done..|reflexivity|].
  eexists. split; [done|]. split; [|by apply Z3_numeral_eval].
  apply held_alive. by destruct I as (_&_&_&_&_&_&_&?).
Qed.

Lemma float_sorted f d s : binv s → sorted (SFP d) (sym_build_float f d) s.
Proof.
  intros I. apply (makes_sorted (λ _, 0) _ _ (VFP d (fp_convert d f))); [|done].
  apply post_makes; [done|]. by apply post_build_float; [|apply owing_nil].
Qed.

Lemma byte_sized_true n : byte_sized n = true ↔ 0 < n < 2 ^ 8.
Proof. unfold byte_sized. rewrite andb_true_iff, !Z.ltb_lt. done. Qed.

(** One call of the solver, whose sort follows from the sorts in the context. *)
Ltac from_sorts := cbn -[fp_width]; repeat match goal with E : Z3_get_sort _ = _ |- _ => rewrite E end.
Ltac solver_call args := apply (reg_sorted _ args); [done|]; from_sorts.

Lemma bool_sorted op a b s :
  binv s → op ∈ [B_bool_and; B_bool_or; B_bool_xor] →
  Z3_get_sort a = SBool → Z3_get_sort b = SBool → sorted SBool (build_binary op (Some a) (Some b)) s.
Proof.
  intros I Ho Ha Hb. eapply binary_sorted; [done| |done]. rewrite Ha, Hb.
  intros [p| | |] [q| | |]; try done. intros _ _.
  rewrite !elem_of_cons, elem_of_nil in Ho.
  destruct Ho as [->|[->|[->|[]]]]; cbn; eauto.
Qed.

(** A call that is well sorted succeeds, and its result has the announced sort. *)
Lemma builder_sorted f args τ s :
  binv s → result_sort f args = Some τ →
  ∃ m, builder_call f args = Some m ∧ sorted τ m s.
Proof.
  intros I H. set (ρ := (λ _, 0) : env).
  destruct f; cbn [result_sort] in H; try done; repeat case_match; simplify_eq;
    cbn [builder_call binary_fn]; (eexists; split; [reflexivity|]);
    rewrite ?andb_true_iff, ?byte_sized_true, ?Z.leb_le, ?Z.ltb_lt in *; destruct_and?.
  - eapply makes_sorted; [by apply (build_integer_makes ρ)|done].
  - by eapply makes_sorted; [apply (build_integer128_makes ρ)|].
  - by apply float_sorted.
  - by apply null_pointer_sorted.
  - by eapply makes_sorted; [apply (build_bool_makes ρ)|].
  - unfold sym_build_sext. rewrite u8_small by lia. solver_call [a0].
    by rewrite (proj2 (Z.leb_le 0 z)).
  - unfold sym_build_zext. rewrite u8_small by lia. solver_call [a0].
    by rewrite (proj2 (Z.leb_le 0 z)).
  - edestruct (bv_value ρ a0) as [x Hx]; [done|].
    by eapply makes_sorted; [eapply (build_trunc_makes ρ)|].
  - apply (fsort_sorted _ _ [a0]); [done|]. from_sorts. by destruct (z_bool z0).
  - apply (fsort_sorted _ _ [a0]); [done|]. by from_sorts.
  - apply (fsort_sorted _ _ [a0]); [done|]. from_sorts. by case_match.
  - by solver_call [a0].
  - unfold sym_build_float_to_signed_integer. rewrite u8_small by lia. solver_call [a0].
    by rewrite (proj2 (Z.ltb_lt 0 z)).
  - unfold sym_build_float_to_unsigned_integer. rewrite u8_small by lia. solver_call [a0].
    by rewrite (proj2 (Z.ltb_lt 0 z)).
  - by solver_call [a0].
  - apply bool_sorted; [done|set_solver|done..].
  - apply bool_sorted; [done|set_solver|done..].
  - apply bool_sorted; [done|set_solver|done..].
  - destruct (bool_value ρ a0) as [x Hx]; [done|].
    by eapply makes_sorted; [eapply (build_bool_to_bit_makes ρ)|].
  - by solver_call [a0; a2].
  - by apply operator_sorted.
  - by solver_call [a0].
  - apply comparison_sorted; [done|by eapply bool_decide_eq_true|done].
Qed.
End typing.
