(* ===== verification/Cfg.v ===== *)
(** * Functions of several blocks

    Control flow of the original function and of the instrumented one.  A
    terminator does not say where it jumps: the edges of the control-flow graph,
    which the pass does not change, are a parameter, in the order of LLVM's
    [getSuccessor].  Phi nodes are evaluated together when their block is
    entered, by the block that control comes from.

    In SSA form a block only refers to variables whose definitions dominate it;
    they are given by [scope], and the others lose their values when the block
    is entered. *)

From S2P Require Import Prelude Smt Z3Api SimpleBackend State Memory Dispatch Symbolizer.
From S2P Require Import SymbolizerSem.

#[local] Open Scope Z_scope.

(** ** Blocks *)
Definition is_terminator (i : inst) : bool :=
  match kind i with
  | ReturnInst _ | UncondBr | CondBr _ _ _ _ | IndirectBrInst | SwitchInst _ _
  | UnreachableInst | ResumeInst => true
  | _ => false
  end.

Definition is_phi_inst (i : inst) : bool :=
  match kind i with PHINode _ => true | _ => false end.

Definition blocks (f : function) : list basic_block := fn_entry f :: fn_blocks f.

Fixpoint find_block {A} (b : nat) (l : list (nat * A)) : option A :=
  match l with
  | [] => None
  | (b', x) :: l' => if (b' =? b)%nat then Some x else find_block b l'
  end.

(** What a phi node takes when control comes from [prev]. *)
Fixpoint incoming_from {A} (prev : nat) (l : list (A * nat)) : option A :=
  match l with
  | [] => None
  | (v, b) :: l' => if (b =? prev)%nat then Some v else incoming_from prev l'
  end.

(** Where control is: at the start of a block, or back in the caller. *)
Inductive location : Type := At (prev cur : nat) | Done (result : option cval).

Section cfg.
Context (DL : DataLayout) {KC : Calls} {FR : Frame} (successors : nat → list nat) (scope : nat → gset nat).

(** ** The original function *)
Fixpoint case_index (w z : Z) (cases : list Z) (i : nat) : nat :=
  match cases with
  | [] => 0%nat
  | c :: cases' => if z =? wrap w c then i else case_index w z cases' (S i)
  end.

(** The successor that a terminator takes: 0 is the target of an unconditional
    branch, of a branch whose condition holds, or the default of a switch. *)
Definition successor_index (t : inst) (e : gmap nat cval) : option nat :=
  match kind t with
  | UncondBr => Some 0%nat
  | CondBr c _ _ _ =>
      match eval_operand DL e c with
      | Some (CInt 1 z) => Some (if z =? 0 then 1%nat else 0%nat)
      | _ => None
      end
  | SwitchInst c cases =>
      match eval_operand DL e c with
      | Some (CInt w z) => Some (case_index w z cases 1)
      | _ => None
      end
  | _ => None
  end.

Definition next (cur : nat) (t : inst) (e : gmap nat cval) : option location :=
  match kind t with
  | ReturnInst None => Some (Done None)
  | ReturnInst (Some v) => (λ c, Done (Some c)) <$> eval_operand DL e v
  | _ => match successor_index t e with
         | Some i => At cur <$> (successors cur !! i)
         | None => None
         end
  end.

Definition enter (b : nat) (e : gmap nat cval) : gmap nat cval :=
  filter (λ p, p.1 ∈ scope b) e.

Definition run_phi (prev : nat) (e : gmap nat cval) (i : inst) : option cval :=
  match kind i with
  | PHINode incoming =>
      match incoming_from prev incoming with
      | Some v => match eval_operand DL e v with Some c => checked DL (type i) c | None => None end
      | None => None
      end
  | _ => None
  end.

(** All phi nodes read the variables [e0] of the block that control comes from. *)
Fixpoint run_phis (prev : nat) (e0 : gmap nat cval) (l : list inst) (e : gmap nat cval)
    : option (gmap nat cval) :=
  match l with
  | [] => Some e
  | i :: l' => match run_phi prev e0 i with
               | Some c => run_phis prev e0 l' (<[name i := c]> e)
               | None => None
               end
  end.

Definition run_block (b : basic_block) (prev : nat) (e : gmap nat cval) (m : Z → Z)
    : option (location * gmap nat cval * (Z → Z)) :=
  let (phis, rest) := split_phis (instructions b) in
  match run_phis prev e phis (enter (block_id b) e) with
  | Some e1 =>
      match run_insts DL rest e1 m, last rest with
      | Some (e', m'), Some t => (λ l, (l, e', m')) <$> next (block_id b) t e'
      | _, _ => None
      end
  | None => None
  end.

Definition body_of (f : function) : list (nat * basic_block) :=
  (λ b, (block_id b, b)) <$> blocks f.

(** At most [k] blocks of the function, from [l] on. *)
Fixpoint run_blocks (k : nat) (f : function) (l : location) (e : gmap nat cval) (m : Z → Z)
    : option (location * gmap nat cval * (Z → Z)) :=
  match k, l with
  | O, _ | _, Done _ => Some (l, e, m)
  | S k', At prev cur =>
      match find_block cur (body_of f) with
      | Some b => match run_block b prev e m with
                  | Some (l', e', m') => run_blocks k' f l' e' m'
                  | None => None
                  end
      | None => None
      end
  end.

Definition start (f : function) : location := At (block_id (fn_entry f)) (block_id (fn_entry f)).

(** ** The instrumented function *)

(** Its code ends a block with the block's terminator. *)
Fixpoint split_blocks (l : list item) : list (list item) :=
  match l with
  | [] => []
  | it :: l' =>
      let more := match split_blocks l' with
                  | [] => [[it]]
                  | b :: bs => (it :: b) :: bs
                  end in
      match it with
      | Orig i => if is_terminator i then [it] :: split_blocks l' else more
      | _ => more
      end
  end.

Definition code_of (f : function) (code : list item) : list (nat * list item) :=
  zip (block_id <$> blocks f) (split_blocks code).

Fixpoint split_phi_items (l : list item) : list item * list item :=
  match l with
  | [] => ([], [])
  | it :: l' =>
      match it with
      | PhiExpr _ _ => let (phis, rest) := split_phi_items l' in (it :: phis, rest)
      | Orig i =>
          if is_phi_inst i then let (phis, rest) := split_phi_items l' in (it :: phis, rest)
          else ([], l)
      | _ => ([], l)
      end
  end.

Context {Z3I : Z3} {KI : ICalls}.
#[local] Abbreviation M := (M mach).

Definition set_var (x : nat) (c : cval) : M unit :=
  modify (λ s, {| regs := regs s; flags := flags s; cenv := <[x := c]> (cenv s); rts := rts s |}).

(** The phi nodes read the state [m0] that control comes with. *)
Definition exec_phi_item (prev : nat) (m0 : mach) (it : item) : M unit :=
  match it with
  | PhiExpr d incoming =>
      match incoming_from prev incoming with
      | Some e => match read_expr e m0 with
                  | Some h => set_reg d (RExpr h)
                  | None => fail (Undefined "no such expression")
                  end
      | None => fail (Undefined "not a predecessor")
      end
  | Orig i =>
      match run_phi prev (cenv m0) i with
      | Some c => set_var (name i) c
      | None => fail (Undefined "original program")
      end
  | _ => fail (Undefined "not a phi node")
  end.

Fixpoint exec_phi_items (prev : nat) (m0 : mach) (l : list item) : M unit :=
  match l with
  | [] => ret tt
  | it :: l' => exec_phi_item prev m0 it ;;; exec_phi_items prev m0 l'
  end.

Definition enter_block (b : nat) : M unit :=
  modify (λ s, {| regs := regs s; flags := flags s; cenv := enter b (cenv s); rts := rts s |}).

Definition exec_block (b prev : nat) (l : list item) : M location :=
  let (phis, rest) := split_phi_items l in
  m0 <- get ;;
  enter_block b ;;;
  exec_phi_items prev m0 phis ;;;
  exec_code DL rest ;;;
  m <- get ;;
  match last rest with
  | Some (Orig t) => match next b t (cenv m) with
                     | Some l => ret l
                     | None => fail (Undefined "original program")
                     end
  | _ => fail (Undefined "no terminator")
  end.

Fixpoint exec_blocks (k : nat) (code : list (nat * list item)) (l : location) : M location :=
  match k, l with
  | O, _ | _, Done _ => ret l
  | S k', At prev cur =>
      match find_block cur code with
      | Some b => l' <- exec_block cur prev b ;; exec_blocks k' code l'
      | None => fail (Undefined "no such block")
      end
  end.

(** ** Well-formed functions *)

(** Each block is phi nodes, other instructions, and a terminator. *)
Definition block_shape (b : basic_block) : bool :=
  let (phis, rest) := split_phis (instructions b) in
  forallb is_phi_inst phis &&
  match last rest with Some t => is_terminator t | None => false end &&
  forallb (λ i, negb (is_terminator i)) (removelast rest).

(** The variables that a block defines. *)
Definition defs (b : basic_block) : list nat := name <$> instructions b.

(** [scope] has the closure properties of dominance: a block's scope does not
    contain the variables that the block defines, and contains with a variable
    all that its definition refers to, unless that is a phi node. *)
Definition in_scope (b : nat) (v : operand) : bool :=
  match v with Local _ y => bool_decide (y ∈ scope b) | _ => true end.

Definition scope_ok (f : function) (b : basic_block) : bool :=
  forallb (λ x, bool_decide (x ∉ scope (block_id b))) (defs b) &&
  forallb (λ i, is_phi_inst i || bool_decide (name i ∉ scope (block_id b)) ||
                forallb (in_scope (block_id b)) (operands i))
    (blocks f ≫= instructions) &&
  bool_decide (block_id (fn_entry f) ∉ successors (block_id b)).

End cfg.
