(* ===== verification/ShortCircuit.v ===== *)
(** * The fast path around symbolic computations

    What [shortCircuitExpressionUses] of compiler/Symbolizer.cpp makes of the
    code of a symbolic computation: run in a state where every input expression
    is null or has the value of its operand, the result is null without any
    call of the library when all inputs are null, and otherwise the computation
    runs on expressions for all its operands. *)

From S2P Require Import Prelude Smt Z3Api Interface ByteSeq BitArrays Arith SimpleBackend.
From S2P Require Import SimpleSpec PathConstraints State Shadow Memory Dispatch Symbolizer.
From S2P Require Import SymbolizerSem Interface.
From Stdlib Require Import SpecFloat.

#[local] Open Scope Z_scope.

Lemma Forall2_strengthen {A B} (P R : A → B → Prop) (Q : A → Prop) l k :
  Forall2 P l k → Forall Q l → (∀ x y, P x y → Q x → R x y) → Forall2 R l k.
Proof.
  intros H HQ HR. induction H; inversion HQ; subst; constructor; auto.
Qed.

(** ** Generators

    [gen m n a l n']: [m] returns [a] and appends the code [l], taking the names
    from [n] up to [n'], whatever the rest of the state. *)
Definition upd_code (l : list item) (n : nat) (s : symbolizer) : symbolizer :=
  set_fresh n (set_code (code s ++ l) s).

Definition gen {A} (m : M symbolizer A) (n : nat) (a : A) (l : list item) (n' : nat) : Prop :=
  ∀ s, fresh s = n → m s = Ok a (upd_code l n' s).

Lemma upd_code_nil s : upd_code [] (fresh s) s = s.
Proof. unfold upd_code, set_fresh, set_code. destruct s; cbn. by rewrite app_nil_r. Qed.

Lemma upd_code_app l l' n n' s : upd_code l' n' (upd_code l n s) = upd_code (l ++ l') n' s.
Proof. unfold upd_code, set_fresh, set_code. cbn. by rewrite app_assoc. Qed.

Lemma gen_ret {A} (a : A) n : gen (ret a) n a [] n.
Proof. intros s <-. by rewrite upd_code_nil. Qed.

Lemma gen_then {A B} (m : M symbolizer A) (k : A → M symbolizer B) n a l n1 b l' n2 :
  gen m n a l n1 → gen (k a) n1 b l' n2 → gen (bind m k) n b (l ++ l') n2.
Proof.
  intros Hm Hk s E. rewrite (bind_Ok _ _ _ _ _ (Hm s E)).
  by rewrite (Hk (upd_code l n1 s)), upd_code_app.
Qed.

(** The same with the code of the first part at hand. *)
Lemma gen_seq {A B} (m : M symbolizer A) (k : A → M symbolizer B) n a l n1 b l' n2 l2 :
  gen m n a l n1 → gen (k a) n1 b l' n2 → l2 = l ++ l' → gen (bind m k) n b l2 n2.
Proof. intros ?? ->. by eapply gen_then. Qed.

Lemma gen_new n : gen new_name n n [] (S n).
Proof. intros s <-. unfold upd_code, new_name, bind, get, modify, ret. cbn. by rewrite app_nil_r; destruct s. Qed.

Lemma gen_item it n : gen (emit it) n tt [it] n.
Proof. intros s <-. by destruct s. Qed.

Lemma gen_call f args n : gen (CreateCall f args) n n [Call n f args] (S n).
Proof. intros s <-. by destruct s. Qed.

Lemma gen_block {A} (m : M symbolizer A) n a l n' : gen m n a l n' → gen (in_block m) n (a, l) [] n'.
Proof.
  intros Hm s E. unfold in_block, bind, get, modify.
  rewrite (Hm (set_code [] s)) by done. unfold upd_code, set_fresh, set_code. cbn. by rewrite app_nil_r.
Qed.

Lemma gen_emit_all l n : gen (emit_all l) n tt l n.
Proof.
  induction l as [|it l IH]; [apply gen_ret|].
  eapply gen_seq; [apply gen_item|exact IH|done].
Qed.

Lemma gen_fun {A} (m : M symbolizer A) n a l n' s b s' :
  gen m n a l n' → fresh s = n → m s = Ok b s' → b = a ∧ s' = upd_code l n' s.
Proof. intros G E H. rewrite (G s E) in H. by injection H. Qed.

(** ** Operands of calls *)

(** The input [i] refers to an argument of a call in [seg] that is [e]. *)
Definition op_at (seg : list item) (i : Input) (e : option nat) : Prop :=
  (∃ f args, Call (user i) f args ∈ seg) ∧
  ∀ f args, Call (user i) f args ∈ seg → args !! operandIndex i = Some (AExpr e).

Lemma op_at_get seg i e : op_at seg i e → getSymbolicOperand seg i = e.
Proof.
  intros [(f&args&Hin) H]. unfold getSymbolicOperand.
  destruct (list_find_elem_of (λ it, defines (user i) it = true) seg _ Hin) as [[k it] Ef].
  { cbn. by rewrite Nat.eqb_refl. }
  rewrite Ef. apply list_find_Some in Ef as (Hk&Hd&_).
  destruct it; try done. cbn in Hd. apply Nat.eqb_eq in Hd as ->.
  apply list_elem_of_lookup_2 in Hk. by rewrite (H _ _ Hk).
Qed.

Lemma elem_of_replace d f args i e seg :
  Call d f args ∈ replaceOperand i e seg →
  ∃ args0, Call d f args0 ∈ seg ∧
    args = if (d =? user i)%nat then <[operandIndex i := AExpr e]> args0 else args0.
Proof.
  unfold replaceOperand. intros (it&E&Hin)%list_elem_of_fmap.
  destruct it; try done. destruct (dst =? user i)%nat eqn:Eq; injection E as -> -> ->; rewrite Eq; eauto.
Qed.

Lemma replace_elem_of d f args i e seg :
  Call d f args ∈ seg → ∃ args', Call d f args' ∈ replaceOperand i e seg.
Proof.
  intros H. destruct (decide (d = user i)) as [E|E].
  - eexists. unfold replaceOperand. apply list_elem_of_fmap. exists (Call d f args).
    split; [|done]. by rewrite E, Nat.eqb_refl.
  - exists args. unfold replaceOperand. apply list_elem_of_fmap. exists (Call d f args).
    split; [|done]. by rewrite (proj2 (Nat.eqb_neq _ _) E).
Qed.

Definition position (i : Input) : nat * nat := (user i, operandIndex i).

Lemma op_at_replace seg i j e e' :
  position i ≠ position j → op_at seg i e → op_at (replaceOperand j e' seg) i e.
Proof.
  intros Hne [(f&args&Hin) H]. split.
  - destruct (replace_elem_of _ _ _ j e' _ Hin) as [args' ?]. eauto.
  - intros g bs (bs0&Hin0&->)%elem_of_replace. specialize (H _ _ Hin0).
    destruct (user i =? user j)%nat eqn:Eq; [|done]. apply Nat.eqb_eq in Eq.
    rewrite list_lookup_insert_ne; [done|]. intros E. apply Hne. unfold position. by rewrite Eq, E.
Qed.

Lemma replaceOperand_id seg i e : op_at seg i e → replaceOperand i e seg = seg.
Proof.
  intros [_ H]. unfold replaceOperand. rewrite <-(list_fmap_id seg) at 2.
  apply list_fmap_ext. intros k it Hk%list_elem_of_lookup_2.
  destruct it; try done. destruct (dst =? user i)%nat eqn:E; [|done].
  apply Nat.eqb_eq in E as ->. by rewrite list_insert_id by (by apply (H f)).
Qed.

(** All inputs replaced. *)
Fixpoint replace_all (ins : list Input) (fs : list (option nat)) (seg : list item) : list item :=
  match ins, fs with
  | i :: ins', f :: fs' => replace_all ins' fs' (replaceOperand i f seg)
  | _, _ => seg
  end.

(** The results of library calls in an item. *)
Fixpoint call_names (it : item) : list nat :=
  match it with
  | Call d _ _ => [d]
  | If _ _ body => flat_map call_names body
  | _ => []
  end.

Definition code_names (l : list item) : list nat := flat_map call_names l.

Lemma code_names_app l l' : code_names (l ++ l') = code_names l ++ code_names l'.
Proof. apply flat_map_app. Qed.

(** ** Steps of the machine *)
Section exec.
Context {Z3I : Z3} {ZL : Z3Laws Z3I} {KC : Calls} {KI : ICalls} {FR : Frame}.
Context (DL : DataLayout) (ρ : RunInput).
Implicit Types (m : mach) (D : nat → Prop) (s : @rt simple_backend).

Definition consistent_rt s : Prop := consistent ρ s.

Lemma evolves_consistent s s' :
  consistent ρ s → evolves ρ s s' (shadow_at s) → consistent ρ s'.
Proof.
  intros C Ev. rewrite <-(set_memory_id s'). rewrite (rt_step_memory s s') by apply Ev.
  eapply consistent_intro; [exact Ev|..].
  - intros a. by apply (consistent_byte ρ s a).
  - intros a h Ha E. eapply rep_mono; [apply Ev|]. by apply (consistent_expr ρ s).
Qed.

(** What generated code may change: the library's backend and shadow, and the
    registers in [D]. *)
Definition mstep D m m' : Prop :=
  cenv m' = cenv m ∧ bext (rt_backend (rts m)) (rt_backend (rts m')) ∧
  memory (rts m') = memory (rts m) ∧ consistent ρ (rts m') ∧
  ∀ r, ¬ D r → regs m' !! r = regs m !! r.

Lemma mstep_refl D m : consistent ρ (rts m) → mstep D m m.
Proof. intros. split_and!; try done. Qed.

Lemma mstep_trans D m1 m2 m3 : mstep D m1 m2 → mstep D m2 m3 → mstep D m1 m3.
Proof.
  intros (A1&A2&A3&_&A5) (B1&B2&B3&B4&B5). split_and!; try congruence; try done.
  - by etransitivity.
  - intros r Hr. by rewrite B5, A5.
Qed.

Lemma mstep_weaken D D' m m' : (∀ r, D r → D' r) → mstep D m m' → mstep D' m m'.
Proof. intros H (?&?&?&?&Hr). split_and!; try done. intros r Hn. apply Hr. auto. Qed.

Lemma mstep_consistent D m m' : mstep D m m' → consistent ρ (rts m').
Proof. by intros (_&_&_&?&_). Qed.

(** The expression [e] is read as one of value [v]. *)
Definition holds m (e : option nat) (v : value) : Prop :=
  ∃ h, read_expr e m = Some (Some h) ∧ rep ρ (rt_backend (rts m)) h v.

(** ... or as null. *)
Definition agrees m (e : option nat) (v : value) : Prop :=
  ∃ o, read_expr e m = Some o ∧ ∀ h, o = Some h → rep ρ (rt_backend (rts m)) h v.

Lemma read_expr_step D m m' e :
  mstep D m m' → (∀ r, e = Some r → ¬ D r) → read_expr e m' = read_expr e m.
Proof. intros (_&_&_&_&H) Hn. destruct e as [r|]; [|done]. cbn. by rewrite H by auto. Qed.

Lemma holds_step D m m' e v :
  mstep D m m' → (∀ r, e = Some r → ¬ D r) → holds m e v → holds m' e v.
Proof.
  intros S Hn (h&E&R). exists h. rewrite (read_expr_step _ _ _ _ S Hn). split; [done|].
  eapply rep_mono; [apply S|done].
Qed.

Lemma agrees_step D m m' e v :
  mstep D m m' → (∀ r, e = Some r → ¬ D r) → agrees m e v → agrees m' e v.
Proof.
  intros S Hn (o&E&R). exists o. rewrite (read_expr_step _ _ _ _ S Hn). split; [done|].
  intros h ->. eapply rep_mono; [apply S|by apply R].
Qed.

Lemma holds_agrees m e v : holds m e v → agrees m e v.
Proof. intros (h&E&R). exists (Some h). split; [done|]. by intros ? [= <-]. Qed.

Lemma agrees_null m v : agrees m None v.
Proof. by exists None. Qed.

(** *** Evaluation of arguments *)
Definition arg_is m (a : arg) (v : argv) : Prop := get_arg DL a m = Ok v m.

Lemma get_args_ok m args vs : Forall2 (arg_is m) args vs → get_args DL args m = Ok vs m.
Proof.
  induction 1 as [|a v args vs Ha _ IH]; [done|]. cbn.
  rewrite (bind_Ok _ _ _ _ _ Ha). by rewrite (bind_Ok _ _ _ _ _ IH).
Qed.

Lemma arg_expr m e h : read_expr e m = Some h → arg_is m (AExpr e) (VExpr h).
Proof. intros E. unfold arg_is. cbn. unfold get_expr, bind, get. by rewrite E. Qed.

Lemma arg_val m v w z : eval_operand DL (cenv m) v = Some (CInt w z) → arg_is m (AVal v) (VInt z).
Proof. intros E. unfold arg_is. cbn. unfold get_int, get_val, bind, get. by rewrite E. Qed.

Lemma arg_int m z : arg_is m (AInt z) (VInt z).
Proof. done. Qed.

(** *** Calls of the library *)
Definition set_reg_mach (r : nat) (v : rval) (s : @rt simple_backend) m : mach :=
  {| regs := <[r := v]> (regs m); flags := flags m; cenv := cenv m; rts := s |}.

Lemma exec_call m dst f args vs (Q : unit → mach → Prop) :
  Forall2 (arg_is m) args vs →
  wp (rt_call f vs) (rts m) (λ e s, Q tt (set_reg_mach dst (RExpr e) s m)) →
  wp (exec_item DL (Call dst f args)) m Q.
Proof.
  intros Ha (e&s&E&HQ). exists tt, (set_reg_mach dst (RExpr e) s m). split; [|done].
  cbn. rewrite (bind_Ok _ _ _ _ _ (get_args_ok _ _ _ Ha)).
  unfold on_rt, zoom, bind. by rewrite E.
Qed.

(** A step of the library that keeps the memory and the agreement. *)
Lemma set_reg_step D m r v s :
  D r → bext (rt_backend (rts m)) (rt_backend s) → memory s = memory (rts m) → consistent ρ s →
  mstep D m (set_reg_mach r v s m).
Proof.
  intros Hr X Em C. split_and!; try done. intros r' Hn. cbn.
  apply lookup_insert_ne. intros ->. done.
Qed.

Lemma set_reg_read m r e s : read_expr (Some r) (set_reg_mach r (RExpr e) s m) = Some e.
Proof. cbn. by rewrite lookup_insert_eq. Qed.

Lemma exec_builder D m dst f args vs b v :
  D dst → consistent ρ (rts m) → Forall2 (arg_is m) args vs →
  rt_call f vs = backend b → builds ρ b (rt_backend (rts m)) v →
  wp (exec_item DL (Call dst f args)) m (λ _ m', mstep D m m' ∧ holds m' (Some dst) v).
Proof.
  intros Hd C Ha Ef Hb. eapply exec_call; [exact Ha|]. rewrite Ef.
  eapply (wp_backend ρ (rts m) (rts m)); [apply evolves_refl, C|exact Hb|].
  intros e s Ev St _ (h&->&Hh). split.
  - apply set_reg_step; [done|apply St|by apply rt_step_memory|by eapply evolves_consistent].
  - exists h. split; [apply set_reg_read|done].
Qed.

(** Sequences of items. *)
Lemma exec_nil m (Q : unit → mach → Prop) : Q tt m → wp (exec_code DL []) m Q.
Proof. apply wp_ret. Qed.

Lemma exec_cons it l m (Q : unit → mach → Prop) :
  wp (exec_item DL it) m (λ _ m', wp (exec_code DL l) m' Q) → wp (exec_code DL (it :: l)) m Q.
Proof. intros H. apply wp_bind. eapply wp_impl; [exact H|]. by intros []. Qed.

Lemma exec_app l l' m (Q : unit → mach → Prop) :
  wp (exec_code DL l) m (λ _ m', wp (exec_code DL l') m' Q) → wp (exec_code DL (l ++ l')) m Q.
Proof.
  revert m. induction l as [|it l IH]; intros m.
  - by intros ([]&m'&[= ->]&H).
  - intros ([]&m'&E&H). cbn. apply exec_cons.
    change (exec_code DL (it :: l)) with (exec_item DL it ;;; exec_code DL l) in E.
    apply bind_inv in E as ([]&m1&E1&E2). exists tt, m1. split; [done|].
    apply IH. by exists tt, m'.
Qed.

Lemma exec_if_true c on body m (Q : unit → mach → Prop) :
  regs m !! c = Some (RBit on) → wp (exec_code DL body) m Q →
  wp (exec_item DL (If c on body)) m Q.
Proof.
  intros E H. cbn. apply wp_bind. unfold get_bit. exists on, m. split.
  - unfold bind, get. by rewrite E.
  - by rewrite Bool.eqb_reflx.
Qed.

Lemma exec_if_false c on body m (Q : unit → mach → Prop) :
  regs m !! c = Some (RBit (negb on)) → Q tt m → wp (exec_item DL (If c on body)) m Q.
Proof.
  intros E H. cbn. apply wp_bind. unfold get_bit. exists (negb on), m. split.
  - unfold bind, get. by rewrite E.
  - by destruct on; apply wp_ret.
Qed.

Lemma exec_phi D dst c b t f m v :
  D dst → consistent ρ (rts m) → regs m !! c = Some (RBit b) →
  read_expr (if b then t else f) m = Some v →
  wp (exec_item DL (PhiBit dst c t f)) m
    (λ _ m', mstep D m m' ∧ read_expr (Some dst) m' = Some v ∧ rts m' = rts m).
Proof.
  intros Hd C Ec Ev. exists tt, (set_reg_mach dst (RExpr v) (rts m) m). split.
  - cbn. unfold get_bit, get_expr, bind, get. rewrite Ec. cbn. by rewrite Ev.
  - split_and!; [by apply set_reg_step|apply set_reg_read|done].
Qed.

(** ** Expressions for concrete values *)
Context (Hptr : ptrBits DL = 64).

Definition sem_value (c : cval) : value :=
  match c with CInt w z => llvm_value w z | CFP d f => VFP d f end.

(** The types whose values the pass can turn into an expression of the right
    width (integers between 64 and 128 bits become 128-bit expressions). *)
Definition creatable (t : ty) : bool :=
  match t with
  | IntTy w => ((0 <? w) && (w <=? 64)) || (w =? 128)
  | FloatTy _ | PointerTy => true
  | _ => false
  end.

Lemma checked_some t c v : checked DL t c = Some v → v = c ∧ has_type DL c t = true.
Proof. unfold checked. destruct (has_type DL c t) eqn:E; [|done]. by intros [= <-]. Qed.

Lemma eval_operand_type e v c : eval_operand DL e v = Some c → has_type DL c (getType v) = true.
Proof.
  destruct v as [t x|w z|d f| |? ?|?|? ? ?]; cbn [eval_operand getType]; try done.
  - destruct (e !! x) as [u|]; [|done]. by intros [-> ?]%checked_some.
  - by intros [-> ?]%checked_some.
  - by intros [-> ?]%checked_some.
  - by intros [-> ?]%checked_some.
Qed.

Lemma int_ok_spec w z : int_ok w z = true ↔ 0 < w ∧ 0 ≤ z < 2 ^ w.
Proof. unfold int_ok. lia. Qed.

(** The shape of a value of a type. *)
Lemma typed_value c t :
  has_type DL c t = true →
  match t with
  | IntTy w => ∃ z, c = CInt w z ∧ 0 < w ∧ 0 ≤ z < 2 ^ w
  | PointerTy => ∃ z, c = CInt 64 z ∧ 0 ≤ z < 2 ^ 64
  | FloatTy d => ∃ f, c = CFP d f ∧ fp_convert d (fp_convert true f) = f
  | _ => False
  end.
Proof.
  destruct c as [w z|d f], t as [w'|d'| | | |]; cbn [has_type]; try done.
  - intros [->%Z.eqb_eq H%int_ok_spec]%andb_prop. by exists z.
  - rewrite Hptr. intros [->%Z.eqb_eq [_ H]%int_ok_spec]%andb_prop. by exists z.
  - intros [E%Bool.eqb_prop H%bool_decide_eq_true]%andb_prop. subst. by exists f.
Qed.

(** The value created for [V]: a single call. *)
Definition value_call (V : operand) : SymFn * list arg :=
  if (match V with ConstantPointerNull => true | _ => false end) then (buildNullPointer, [])
  else match getType V with
       | FloatTy d => (buildFloat, [AFPCast V; AInt (if d then 1 else 0)])
       | IntTy bits =>
           if bits =? 1 then (buildBool, [AVal V])
           else if bits <=? 64 then (buildInteger, [AVal V; AInt (u8 bits)])
           else (buildInteger128, [AHigh64 V; ALow64 V])
       | _ => (buildInteger, [AVal V; AInt (u8 (ptrBits DL))])
       end.

Lemma create_gen V n :
  creatable (getType V) = true →
  gen (createValueExpression DL (getType V) V) n n
    [Call n (value_call V).1 (value_call V).2] (S n).
Proof.
  intros H. unfold value_call.
  destruct V as [t x|w z|d f| |ts l|ts|t v i]; cbn [getType] in *; try done;
    try destruct t as [w|d| | | |]; try done;
    cbn [createValueExpression]; repeat case_match; apply gen_call.
Qed.

Lemma builds_makes b (st : @bstate simple_backend) v :
  binv st → makes ρ b st v → builds ρ b st v.
Proof. intros [_ Hl]. by apply makes_returns. Qed.

Lemma null_pointer_builds s :
  binv (rt_backend s) → builds ρ sym_build_null_pointer (rt_backend s) (VBV 64 0).
Proof.
  intros I. exists (Some g_null_pointer), (rt_backend s). split_and!; [done..|reflexivity|].
  eexists. split; [done|]. split; [|by apply Z3_numeral_eval].
  apply held_alive. by destruct I as [(_&_&_&_&_&_&_&?) _].
Qed.

Lemma build_float_makes f d (st : state) :
  SimpleBackend.binv st → makes ρ (sym_build_float f d) st (VFP d (fp_convert d f)).
Proof. intros I. apply post_makes; [done|]. by apply post_build_float; [|apply owing_nil]. Qed.

Lemma z_bool_bit (b : bool) : z_bool (if b then 1 else 0) = b.
Proof. by destruct b. Qed.

Lemma create_exec D V m n c :
  creatable (getType V) = true → D n → consistent ρ (rts m) →
  eval_operand DL (cenv m) V = Some c →
  wp (exec_item DL (Call n (value_call V).1 (value_call V).2)) m
    (λ _ m', mstep D m m' ∧ holds m' (Some n) (sem_value c)).
Proof.
  intros Hc Hn C Ev. pose proof (typed_value _ _ (eval_operand_type _ _ _ Ev)) as Ht.
  assert (binv (rt_backend (rts m))) as I by apply C. pose proof (proj1 I) as I0.
  unfold value_call.
  destruct (match V with ConstantPointerNull => true | _ => false end) eqn:Ez.
  { destruct V; try done. cbn in Ev. unfold checked in Ev. cbn in Ev. rewrite Hptr in Ev.
    injection Ev as <-. eapply exec_builder; [done..|constructor|done|by apply null_pointer_builds]. }
  destruct (getType V) as [w|d| | | |]; try done.
  - destruct Ht as (z&->&Hw&Hz). pose proof (arg_val _ _ _ _ Ev). cbn [creatable] in Hc. unfold sem_value, llvm_value.
    destruct (Z.eqb_spec w 1) as [->|].
    { eapply exec_builder; [done..|repeat constructor; done|done|]. by apply builds_makes, build_bool_makes. }
    destruct (Z.leb_spec w 64).
    { eapply exec_builder; [done..|repeat constructor; done|done|].
      assert (z < 2 ^ 64) by (pose proof (pow2_le w 64); lia).
      eapply builds_eq; [apply builds_makes, build_integer_makes; [done..|]|];
        rewrite u8_small by lia; [lia|]. by rewrite u64_small, wrap_small by lia. }
    assert (w = 128) as -> by lia.
    eapply (exec_builder _ _ _ _ _ [VInt (wrap 64 (z / 2 ^ 64)); VInt (wrap 64 z)]); [done..| |done|].
    + repeat constructor; unfold arg_is; cbn; unfold get_int, get_val, bind, get; by rewrite Ev.
    + eapply builds_eq; [by apply builds_makes, build_integer128_makes|]. f_equal.
      unfold u64, wrap. rewrite !Zmod_mod, (Z.mod_small (z / _)); [|split; [apply Z.div_pos; lia|]].
      * rewrite (Z.div_mod z (2 ^ 64)) at 3 by done. lia.
      * apply Z.div_lt_upper_bound; lia.
  - destruct Ht as (f&->&Hf).
    eapply (exec_builder _ _ _ _ _ [VFloat (fp_convert true f); VInt (if d then 1 else 0)]); [done..| |done|].
    + repeat constructor. unfold arg_is. cbn. unfold get_val, bind, get. by rewrite Ev.
    + rewrite z_bool_bit. eapply builds_eq; [by apply builds_makes, build_float_makes|]. cbn. by rewrite Hf.
  - destruct Ht as (z&->&Hz). pose proof (arg_val _ _ _ _ Ev). rewrite Hptr.
    eapply exec_builder; [done..|repeat constructor; done|done|].
    change (u8 64) with 64.
    eapply builds_eq; [by apply builds_makes, build_integer_makes|].
    cbn [sem_value]. unfold llvm_value. cbn [Z.eqb Pos.eqb]. f_equal. rewrite (u64_small z) by exact Hz. by apply wrap_small.
Qed.
(** ** The checks *)
Definition from (n : nat) (r : nat) : Prop := (n ≤ r)%nat.
Definition below (n : nat) (e : option nat) : Prop := ∀ r, e = Some r → (r < n)%nat.

Lemma below_from n e : below n e → ∀ r, e = Some r → ¬ from n r.
Proof. intros H r ->. unfold from. specialize (H r eq_refl). lia. Qed.

Fixpoint null_items (n : nat) (ops : list (option nat)) : list item :=
  match ops with
  | [] => []
  | o :: ops' => ICmpEqNull n o :: null_items (S n) ops'
  end.

Lemma null_checks_gen seg ins ops n :
  Forall2 (op_at seg) ins ops →
  gen (null_checks seg ins) n (seq n (length ins)) (null_items n ops) (n + length ins).
Proof.
  intros H. revert n. induction H as [|i o ins ops Ho _ IH]; intros n; cbn [null_checks].
  - rewrite Nat.add_0_r. apply gen_ret.
  - eapply gen_seq; [apply gen_new| |done].
    rewrite (op_at_get _ _ _ Ho).
    eapply (gen_seq _ _ _ _ [ICmpEqNull n o]); [apply gen_item| |done].
    eapply gen_seq; [apply IH| |symmetry; apply app_nil_r].
    cbn [length]. rewrite Nat.add_succ_comm. apply gen_ret.
Qed.

(** Register [c] says whether the operand [o] is null. *)
Definition null_bit m (o : option nat) (c : nat) : Prop :=
  ∃ e, read_expr o m = Some e ∧ regs m !! c = Some (RBit (bool_decide (e = None))).

Lemma null_bit_step n m m' o c :
  mstep (from n) m m' → below n o → (c < n)%nat → null_bit m o c → null_bit m' o c.
Proof.
  intros S Ho Hc (e&E&B). exists e. rewrite (read_expr_step _ _ _ _ S (below_from _ _ Ho)).
  split; [done|]. destruct S as (_&_&_&_&H). rewrite H; [done|unfold from; lia].
Qed.

Lemma null_bits_step n m m' ops cs :
  mstep (from n) m m' → Forall (below n) ops → Forall (λ c, c < n)%nat cs →
  Forall2 (null_bit m) ops cs → Forall2 (null_bit m') ops cs.
Proof.
  intros S Ho Hc H. revert Ho Hc.
  induction H as [|o c ops cs Hb _ IH]; intros Ho Hc; [constructor|].
  inversion Ho; inversion Hc; subst. constructor; [by eapply null_bit_step|by apply IH].
Qed.

Lemma agrees_read m o v : agrees m o v → ∃ e, read_expr o m = Some e.
Proof. intros (e&E&_). eauto. Qed.

Definition agreesv m (o : option nat) (c : cval) : Prop := agrees m o (sem_value c).
Definition holdsv m (o : option nat) (c : cval) : Prop := holds m o (sem_value c).

Lemma agreesv_all_step n m m' ops vs :
  mstep (from n) m m' → Forall (below n) ops → Forall2 (agreesv m) ops vs →
  Forall2 (agreesv m') ops vs.
Proof.
  intros S Hb H. eapply Forall2_strengthen; [exact H|exact Hb|].
  intros o c Ho Hbo. eapply agrees_step; [exact S|by apply below_from|done].
Qed.

Lemma exec_null_items n m ops vs :
  consistent ρ (rts m) → Forall2 (agreesv m) ops vs → Forall (below n) ops →
  wp (exec_code DL (null_items n ops)) m (λ _ m',
    mstep (from n) m m' ∧ rts m' = rts m ∧ Forall2 (null_bit m') ops (seq n (length ops))).
Proof.
  intros C Ha Hb. revert n m vs C Ha Hb. induction ops as [|o ops IH]; intros n m vs C Ha Hb.
  { apply exec_nil. split_and!; [by apply mstep_refl|done|constructor]. }
  inversion Ha as [|? v ? vs' Ho Ha']; subst. inversion Hb as [|? ? Hbo Hb']; subst.
  destruct Ho as (e&Ee&_). cbn [null_items]. apply exec_cons.
  set (m1 := set_reg_mach n (RBit (bool_decide (e = None))) (rts m) m).
  assert (mstep (from n) m m1) as S1 by (apply set_reg_step; [unfold from; lia|done..]).
  exists tt, m1. split.
  { cbn. unfold get_expr, bind, get. by rewrite Ee. }
  assert (Forall (below (S n)) ops) as Hb1.
  { eapply Forall_impl; [exact Hb'|]. intros e' H r E. specialize (H r E). lia. }
  eapply wp_impl; [apply (IH (S n) m1 vs' C)|].
  - by eapply agreesv_all_step.
  - done.
  - intros _ m2 (S2&Er&Hbits). split_and!; [|done|].
    + eapply mstep_trans; [exact S1|]. eapply mstep_weaken; [|exact S2]. unfold from. lia.
    + cbn [length seq]. constructor; [|done]. eapply (null_bit_step (S n)); [exact S2|..|lia|].
      * intros r E. specialize (Hbo r E). lia.
      * exists e. split; [|cbn; by rewrite lookup_insert_eq].
        by rewrite (read_expr_step _ _ _ _ S1 (below_from _ _ Hbo)).
Qed.

(** The conjunction of the bits. *)
Fixpoint and_items (n a : nat) (l : list nat) : list item :=
  match l with
  | [] => []
  | c :: l' => AndBit n a c :: and_items (S n) n l'
  end.
Fixpoint and_result (n a : nat) (l : list nat) : nat :=
  match l with [] => a | _ :: l' => and_result (S n) n l' end.

Lemma and_all_gen n a l : gen (and_all a l) n (and_result n a l) (and_items n a l) (n + length l).
Proof.
  revert n a. induction l as [|c l IH]; intros n a; cbn [and_all].
  - rewrite Nat.add_0_r. apply gen_ret.
  - eapply gen_seq; [apply gen_new| |done].
    eapply (gen_seq _ _ _ _ [AndBit n a c]); [apply gen_item| |done].
    cbn [length]. rewrite <-Nat.add_succ_comm. apply IH.
Qed.

Lemma exec_and_items n a l m b bs :
  consistent ρ (rts m) → (a < n)%nat → Forall (λ c, c < n)%nat l →
  regs m !! a = Some (RBit b) → Forall2 (λ c b, regs m !! c = Some (RBit b)) l bs →
  wp (exec_code DL (and_items n a l)) m (λ _ m',
    mstep (from n) m m' ∧ rts m' = rts m ∧
    regs m' !! and_result n a l = Some (RBit (forallb id (b :: bs)))).
Proof.
  intros C. revert n a m b bs C. induction l as [|c l IH]; intros n a m b bs C Ha Hl Hra Hbs.
  { inversion Hbs. apply exec_nil. split_and!; [by apply mstep_refl|done|]. cbn. by rewrite andb_true_r. }
  inversion Hbs as [|? b1 ? bs' Hc Hbs']; subst. inversion Hl as [|? ? Hcn Hl']; subst.
  cbn [and_items and_result]. apply exec_cons.
  set (m1 := set_reg_mach n (RBit (b && b1)) (rts m) m).
  assert (mstep (from n) m m1) as S1 by (apply set_reg_step; [unfold from; lia|done..]).
  exists tt, m1. split.
  { cbn. unfold get_bit, bind, get. rewrite Hra. cbn. by rewrite Hc. }
  eapply wp_impl; [apply (IH (S n) n m1 (b && b1) bs' C); [lia|..]|].
  - eapply Forall_impl; [exact Hl'|]. intros x Hx; cbn in Hx; lia.
  - cbn. by rewrite lookup_insert_eq.
  - eapply Forall2_strengthen; [exact Hbs'|exact Hl'|]. intros r b2 Hr Hrn. cbn in Hrn |- *.
    rewrite lookup_insert_ne; [done|lia].
  - intros _ m2 (S2&Er&Hr). split_and!; [|done|].
    + eapply mstep_trans; [exact S1|]. eapply mstep_weaken; [|exact S2]. unfold from. lia.
    + rewrite Hr. cbn. unfold id. by rewrite andb_assoc.
Qed.
(** ** The loop over the arguments *)

(** What is known of the inputs when the slow path is entered. *)
Definition ready m (o : option nat) (c : nat) (V : operand) (v : cval) : Prop :=
  agreesv m o v ∧ null_bit m o c ∧ eval_operand DL (cenv m) V = Some v.

Lemma ready_step n m m' o c V v :
  mstep (from n) m m' → below n o → (c < n)%nat → ready m o c V v → ready m' o c V v.
Proof.
  intros S Ho Hc (A&N&E). split_and!.
  - eapply agrees_step; [exact S|by apply below_from|done].
  - by eapply null_bit_step.
  - by rewrite (proj1 S).
Qed.

Fixpoint all_ready m (ops : list (option nat)) (cs : list nat) (ins : list Input) (vs : list cval)
    : Prop :=
  match ops, cs, ins, vs with
  | [], [], [], [] => True
  | o :: ops, c :: cs, i :: ins, v :: vs =>
      ready m o c (concreteValue i) v ∧ all_ready m ops cs ins vs
  | _, _, _, _ => False
  end.

Lemma all_ready_step n m m' ops cs ins vs :
  mstep (from n) m m' → Forall (below n) ops → Forall (λ c, c < n)%nat cs →
  all_ready m ops cs ins vs → all_ready m' ops cs ins vs.
Proof.
  intros S. revert cs ins vs. induction ops as [|o ops IH]; intros [|c cs] [|i ins] [|v vs]; try done.
  intros Ho Hc [R Rs]. inversion Ho. inversion Hc. subst. split; [by eapply ready_step|by apply IH].
Qed.

(** The only unknown input is not null in the slow path. *)
Definition known_symbolic m (unknown : nat) (ops : list (option nat)) (vs : list cval) : Prop :=
  unknown = 1%nat → Forall2 (λ o v, o = None ∨ holdsv m o v) ops vs.

Lemma known_symbolic_step n m m' u ops vs :
  mstep (from n) m m' → Forall (below n) ops → known_symbolic m u ops vs →
  known_symbolic m' u ops vs.
Proof.
  intros S Hb K E. eapply Forall2_strengthen; [by apply K|exact Hb|].
  intros o v [->|H] Ho; [by left|right]. eapply holds_step; [exact S|by apply below_from|done].
Qed.

(** The expressions that the slow path passes are the operands themselves or
    new values. *)
Definition is_final (n : nat) (o f : option nat) : Prop := f = o ∨ ∃ r, f = Some r ∧ (n ≤ r)%nat.

Definition creatable_input (i : Input) : Prop := creatable (getType (concreteValue i)) = true.

Lemma exec_phi_holds n c b t f m v :
  consistent ρ (rts m) → regs m !! c = Some (RBit b) → holdsv m (if b then t else f) v →
  wp (exec_code DL [PhiBit n c t f]) m (λ _ m', mstep (from n) m m' ∧ holdsv m' (Some n) v).
Proof.
  intros C Hb (h&Eh&Hh). apply exec_cons.
  eapply wp_impl; [by eapply (exec_phi (from n)); [unfold from|..]|].
  intros _ m' (S&E&Er). apply exec_nil. split; [done|]. exists h. by rewrite Er.
Qed.

Lemma exec_create_or_keep n c V o m v :
  consistent ρ (rts m) → creatable (getType V) = true → (c < n)%nat → ready m o c V v →
  wp (exec_code DL [If c true [Call n (value_call V).1 (value_call V).2];
                    PhiBit (S n) c (Some n) o]) m
    (λ _ m', mstep (from n) m m' ∧ holdsv m' (Some (S n)) v).
Proof.
  intros C HV Hc ((e&Ee&Hrep)&(e'&Ee'&Hbit)&Ev). rewrite Ee in Ee'. injection Ee' as <-.
  apply exec_cons. destruct e as [h|].
  - apply exec_if_false; [done|]. eapply wp_impl; [by apply (exec_phi_holds (S n) _ false); [..|exists h; auto]|].
    intros _ m' [S H]. split; [|done]. eapply mstep_weaken; [|exact S]. unfold from. lia.
  - apply exec_if_true; [done|]. apply exec_cons.
    eapply wp_impl; [by apply (create_exec (from n)); [|unfold from|..]|].
    intros _ m1 [S1 H1]. apply exec_nil.
    eapply wp_impl; [apply (exec_phi_holds (S n) _ true); [by eapply mstep_consistent| |exact H1]|].
    + destruct S1 as (_&_&_&_&H). rewrite H; [done|unfold from; lia].
    + intros _ m' [S H]. split; [|done]. eapply mstep_trans; [exact S1|].
      eapply mstep_weaken; [|exact S]. unfold from. lia.
Qed.

Definition arguments_ok (u : nat) (ops : list (option nat)) (cs : list nat) (ins : list Input)
    (n n' : nat) (fs : list (option nat)) (l : list item) : Prop :=
  Forall2 (is_final n) ops fs ∧ (∀ f r, f ∈ fs → f = Some r → f ∈ ops ∨ (n ≤ r < n')%nat) ∧
  ∀ m vs, consistent ρ (rts m) → all_ready m ops cs ins vs → known_symbolic m u ops vs →
    wp (exec_code DL l) m (λ _ m', mstep (from n) m m' ∧ Forall2 (holdsv m') fs vs).

Lemma arguments_cons u o ops c cs i ins n n1 n' f fs l1 l :
  (n ≤ n1 ≤ n')%nat → Forall (below n) (o :: ops) → Forall (λ c, c < n)%nat cs →
  f = o ∨ (∃ r, f = Some r ∧ (n ≤ r < n1)%nat) →
  (∀ m v, consistent ρ (rts m) → ready m o c (concreteValue i) v →
     (u = 1%nat → o = None ∨ holdsv m o v) →
     wp (exec_code DL l1) m (λ _ m', mstep (from n) m m' ∧ holdsv m' f v)) →
  arguments_ok u ops cs ins n1 n' fs l →
  arguments_ok u (o :: ops) (c :: cs) (i :: ins) n n' (f :: fs) (l1 ++ l).
Proof.
  intros Hn Ho Hc Hf Head (F&B&Tail). inversion Ho as [|? ? Hoi Ho']; subst. split_and!.
  - constructor; [destruct Hf as [?|(r&?&?)]; [by left|right; exists r; split; [done|lia]]|].
    eapply Forall2_impl; [exact F|]. intros o' f' [?|(r&?&?)]; [by left|right; exists r; split; [done|lia]].
  - intros f' r [->|Hin]%elem_of_cons E.
    + destruct Hf as [->|(r'&->&?)]; [left; apply elem_of_cons; by left|right; simplify_eq; lia].
    + destruct (B f' r Hin E); [left; apply elem_of_cons; by right|right; lia].
  - intros m [|v vs] C R K; [done|]. destruct R as [R Rs].
    apply exec_app. eapply wp_impl; [apply (Head m v C R)|].
    + intros E. specialize (K E). by inversion K.
    + intros _ m1 [S1 H1].
      eapply wp_impl; [apply (Tail m1 vs)|].
      * by eapply mstep_consistent.
      * by eapply all_ready_step.
      * eapply known_symbolic_step; [exact S1|done|]. intros E. specialize (K E). by inversion K.
      * intros _ m2 [S2 H2]. split.
        { eapply mstep_trans; [exact S1|]. eapply mstep_weaken; [|exact S2]. unfold from. lia. }
        constructor; [|done]. eapply holds_step; [exact S2| |exact H1].
        intros r E. unfold from. destruct Hf as [->|(r'&->&?)].
        -- specialize (Hoi r E). lia.
        -- simplify_eq. lia.
Qed.

Lemma check_arguments_gen u seg ins ops cs n :
  Forall2 (op_at seg) ins ops → NoDup (position <$> ins) → Forall creatable_input ins →
  length cs = length ins → Forall (below n) ops → Forall (λ c, c < n)%nat cs →
  ∃ fs l n', (n ≤ n')%nat ∧
    gen (check_arguments DL u seg (zip ins cs)) n (replace_all ins fs seg) l n' ∧
    arguments_ok u ops cs ins n n' fs l ∧ Forall (λ r, n ≤ r)%nat (code_names l).
Proof.
  intros H. revert cs n seg H. revert ops.
  induction ins as [|i ins IH]; intros ops cs n seg H ND Cr Hlen Ho Hc.
  { inversion H; subst. exists [], [], n. split_and!; [done|apply gen_ret| |constructor].
    split_and!; [constructor|set_solver|].
    intros m vs C R _. destruct cs, vs; try done. apply exec_nil.
    split; [by apply mstep_refl|constructor]. }
  inversion H as [|? o ? ops' Hi Hins]; subst. destruct cs as [|c cs]; [done|]. injection Hlen as Hlen.
  cbn [fmap list_fmap] in ND. apply NoDup_cons in ND as [Hni ND'].
  inversion Cr as [|? ? Cri Cr']; subst.
  inversion Ho as [|? ? Hoi Ho']; subst. inversion Hc as [|? ? Hci Hc']; subst.
  assert (∀ e, Forall2 (op_at (replaceOperand i e seg)) ins ops') as Hrep.
  { intros e. eapply Forall2_strengthen; [exact Hins|apply Forall_forall; intros j Hj; exact Hj|].
    intros j oj Hj Hin. apply op_at_replace; [|done]. intros E. apply Hni. rewrite <-E.
    by apply list_elem_of_fmap_2. }
  assert (∀ n1, (n ≤ n1)%nat → Forall (below n1) ops' ∧ Forall (λ c, c < n1)%nat cs) as Up.
  { intros n1 Hn1. split; (eapply Forall_impl; [eassumption|]).
    - intros e Hb r E. specialize (Hb r E). lia.
    - intros x Hx. cbn in *. lia. }
  cbn [zip zip_with check_arguments]. rewrite (op_at_get _ _ _ Hi).
  destruct (bool_decide_reflect (o ≠ None)) as [Hne|Hnull].
  - destruct (Nat.eqb_spec u 1) as [->|Hu]; cbn [andb].
    + destruct (IH ops' cs n seg) as (fs&l&n'&Hn&G&A&N); try done.
      exists (o :: fs), ([] ++ l), n'. split_and!; [done| | |done].
      * cbn [replace_all app]. by rewrite replaceOperand_id.
      * eapply (arguments_cons _ _ _ _ _ _ _ n n); [lia|done|done|by left| |exact A].
        intros m v C _ K. destruct (K eq_refl) as [?|?]; [done|].
        apply exec_nil. split; [by apply mstep_refl|done].
    + destruct (Up (S (S n))) as [Up1 Up2]; [lia|].
      destruct (IH ops' cs (S (S n)) (replaceOperand i (Some (S n)) seg)) as (fs&l&n'&Hn&G&A&N); try done.
      set (call := value_call (concreteValue i)).
      exists (Some (S n) :: fs),
        ([If c true [Call n call.1 call.2]; PhiBit (S n) c (Some n) o] ++ l), n'.
      split_and!; [lia| | |constructor; [done|]; eapply Forall_impl; [exact N|cbn; lia]].
      * eapply gen_seq; [apply gen_block, create_gen, Cri| |reflexivity].
        eapply gen_seq; [apply gen_item| |reflexivity].
        eapply gen_seq; [apply gen_new| |reflexivity].
        eapply gen_seq; [apply gen_item|exact G|reflexivity].
      * eapply (arguments_cons _ _ _ _ _ _ _ n (S (S n))); [lia|done|done|right; exists (S n); split; [done|lia]| |exact A].
        intros m v C R _. by apply exec_create_or_keep.
  - assert (o = None) as -> by (destruct o; [by destruct Hnull|done]). cbn [andb].
    destruct (Up (S n)) as [Up1 Up2]; [lia|].
    destruct (IH ops' cs (S n) (replaceOperand i (Some n) seg)) as (fs&l&n'&Hn&G&A&N); try done.
    set (call := value_call (concreteValue i)).
    exists (Some n :: fs), ([Call n call.1 call.2] ++ l), n'.
    split_and!; [lia| | |constructor; [done|]; eapply Forall_impl; [exact N|cbn; lia]].
    * cbn [replace_all]. eapply gen_seq; [apply create_gen, Cri|exact G|reflexivity].
    * eapply (arguments_cons _ _ _ _ _ _ _ n (S n)); [lia|done|done|right; exists n; split; [done|lia]| |exact A].
      intros m v C (_&_&Ev) _. apply exec_cons.
      eapply wp_impl; [by apply (create_exec (from n)); [|unfold from|..]|].
      intros ? m1 H1. apply exec_nil. exact H1.
Qed.
(** ** The whole construction *)

(** [r] holds the result: an expression of value [v], or any expression. *)
Definition result_ok m (r : nat) (res : option value) : Prop :=
  match res with
  | Some v => holds m (Some r) v
  | None => ∃ e, read_expr (Some r) m = Some e
  end.

(** The computation itself, on expressions for all its inputs; [dseg] are the
    names it defines. *)
Definition slow_run (n : nat) (dseg : nat → Prop) (ins : list Input) (last : nat)
    (seg : list item) (vs : list cval) (res : option value) m : Prop :=
  ∀ m1 fs last1, mstep (from n) m m1 → Forall2 (holdsv m1) fs vs →
    (∀ f r, f ∈ fs → f = Some r → ¬ dseg r ∧ r ≠ last1) →
    wp (exec_code DL (rename_result last last1 (replace_all ins fs seg))) m1
      (λ _ m2, mstep (λ r, dseg r ∨ r = last1) m1 m2 ∧ result_ok m2 last1 res).

Lemma reads_of_agrees m ops vs :
  Forall2 (agreesv m) ops vs → ∃ es, Forall2 (λ o e, read_expr o m = Some e) ops es.
Proof.
  induction 1 as [|o v ops vs (e&Ee&_) _ (es&IH)]; [by exists []|].
  exists (e :: es). by constructor.
Qed.

Definition null_bits (es : list (option ast)) : list bool := (λ e, bool_decide (e = None)) <$> es.

Lemma null_bits_read m ops es cs :
  Forall2 (λ o e, read_expr o m = Some e) ops es → Forall2 (null_bit m) ops cs →
  Forall2 (λ c b, regs m !! c = Some (RBit b)) cs (null_bits es).
Proof.
  intros H. revert cs. induction H as [|o e ops es Ee _ IH]; intros cs Hc;
    inversion Hc as [|? c ? cs' (e'&Ee'&Hb) Hc']; subst; [constructor|].
  rewrite Ee in Ee'. injection Ee' as <-. constructor; [done|by apply IH].
Qed.

Lemma null_operands m ops es :
  Forall2 (λ o e, read_expr o m = Some e) ops es → Forall (λ o, o = None) ops →
  forallb id (null_bits es) = true.
Proof.
  induction 1 as [|o e ops es He _ IH]; [done|]. intros HN. inversion HN; subst. cbn in He.
  simplify_eq. by apply IH.
Qed.

(** If one input may be symbolic and one is, it is that one. *)
Lemma one_unknown m ops vs es :
  Forall2 (agreesv m) ops vs → Forall2 (λ o e, read_expr o m = Some e) ops es →
  forallb id (null_bits es) = false →
  known_symbolic m (length (filter (λ o, o ≠ None) ops)) ops vs.
Proof.
  assert (∀ ops vs, Forall2 (agreesv m) ops vs → length (filter (λ o, o ≠ None) ops) = 0%nat →
    Forall (λ o, o = None) ops) as Zero.
  { induction 1 as [|o v ops' vs' _ _ IH]; [constructor|]. rewrite filter_cons.
    destruct (decide (o ≠ None)) as [|E]; [done|]. intros E'. constructor; [|by apply IH].
    by destruct o; [destruct E|]. }
  intros H Hr Hs. unfold known_symbolic. revert es Hr Hs.
  induction H as [|o v ops' vs' Ho Hops IH]; intros es Hr Hs Hl; [constructor|].
  inversion Hr as [|? e ? es' He Hr']; subst. rewrite filter_cons in Hl.
  destruct (decide (o ≠ None)) as [Hne|Hnull].
  - injection Hl as Hl. specialize (Zero _ _ Hops Hl). constructor.
    + right. destruct Ho as (e'&Ee&Hv). destruct e as [h|].
      * exists h. split; [done|]. rewrite He in Ee. injection Ee as <-. by apply Hv.
      * pose proof (null_operands _ _ _ Hr' Zero) as Hn. unfold null_bits in *. cbn in Hs. congruence.
    + eapply Forall2_strengthen; [exact Hops|exact Zero|]. intros. by left.
  - assert (o = None) as -> by (by destruct o; [destruct Hnull|]).
    constructor; [by left|]. apply (IH es'); try done. cbn in He. by simplify_eq.
Qed.

Lemma numUnknown_ops seg ins ops :
  Forall2 (op_at seg) ins ops →
  numUnknownConcreteness seg ins = length (filter (λ o, o ≠ None) ops).
Proof.
  intros H. unfold numUnknownConcreteness.
  induction H as [|i o ins ops Ho _ IH]; [done|]. rewrite !filter_cons.
  rewrite (op_at_get _ _ _ Ho). case_decide; cbn; by rewrite IH.
Qed.

Lemma all_ready_intro m ops cs ins vs :
  Forall2 (agreesv m) ops vs → Forall2 (null_bit m) ops cs →
  Forall2 (λ i v, eval_operand DL (cenv m) (concreteValue i) = Some v) ins vs →
  all_ready m ops cs ins vs.
Proof.
  intros H. revert cs ins. induction H as [|o v ops vs Ho _ IH]; intros cs ins Hc Hi;
    inversion Hc; inversion Hi; subst; [done|]. split; [by split_and!|by apply IH].
Qed.
Section construction.
Context (c : SymbolicComputation) (seg : list item) (ops : list (option nat)) (last n : nat).
Context (dseg : nat → Prop).
Context (Hlast : lastInstruction c = Some last) (Hne : inputs c ≠ []).
Context (Hops : Forall2 (op_at seg) (inputs c) ops) (HND : NoDup (position <$> inputs c)).
Context (Hcr : Forall creatable_input (inputs c)) (Hbelow : Forall (below n) ops).
Context (Hdlast : dseg last) (Hdseg : ∀ r, dseg r → (r < n)%nat).
Context (Hdops : ∀ o r, o ∈ ops → o = Some r → ¬ dseg r).

#[local] Abbreviation k := (length (inputs c)).
#[local] Abbreviation checks := (seq n k).

(** The names of the check and of the result inside the slow path, and the first
    name that the slow path takes. *)
Definition check_name : nat := and_result (n + k) n (seq (S n) (k - 1)).
Definition result_name (used : bool) : nat := if used then (n + k + (k - 1))%nat else last.
Definition slow_start (used : bool) : nat := (n + k + (k - 1) + if used then 1 else 0)%nat.

Definition shortcut_code (used : bool) (fs : list (option nat)) (la : list item) : list item :=
  null_items n ops ++ and_items (n + k) n (seq (S n) (k - 1)) ++
  If check_name false
    (la ++ rename_result last (result_name used) (replace_all (inputs c) fs seg)) ::
  (if used then [PhiBit last check_name None (Some (result_name used))] else []).

Lemma ops_length : length ops = k.
Proof. symmetry. by eapply Forall2_length. Qed.

Lemma checks_cons : checks = n :: seq (S n) (k - 1).
Proof. destruct (inputs c); [done|]. cbn. by rewrite Nat.sub_0_r. Qed.

Lemma shortCircuit_gen used :
  ∃ fs la n', (slow_start used ≤ n')%nat ∧
    gen (shortCircuit DL c used seg) n tt (shortcut_code used fs la) n' ∧
    arguments_ok (numUnknownConcreteness seg (inputs c)) ops checks (inputs c)
      (slow_start used) n' fs la ∧
    Forall (λ r, n ≤ r)%nat (code_names la) ∧ length fs = length (inputs c).
Proof.
  destruct (check_arguments_gen (numUnknownConcreteness seg (inputs c)) seg (inputs c) ops checks
    (slow_start used)) as (fs&la&n'&Hn&G&A&N); try done.
  - by rewrite length_seq.
  - eapply Forall_impl; [exact Hbelow|]. intros o Ho r E. specialize (Ho r E). unfold slow_start. lia.
  - apply Forall_seq. unfold slow_start. intros j Hj. destruct (inputs c); [done|]. cbn in *. lia.
  - exists fs, la, n'. split_and!; [done| |done|..].
    2: { eapply Forall_impl; [exact N|]. unfold slow_start. cbn. lia. }
    2: { destruct A as (F&_&_). rewrite <-ops_length. symmetry. by eapply Forall2_length. }
    unfold shortCircuit. eapply gen_seq; [by apply null_checks_gen| |reflexivity].
    rewrite checks_cons, Hlast.
    eapply gen_seq; [apply and_all_gen| |reflexivity]. rewrite length_seq. fold check_name.
    eapply (gen_seq _ _ _ _ []); [| |reflexivity].
    { instantiate (1 := slow_start used). instantiate (1 := result_name used).
      unfold result_name, slow_start. destruct used; [|rewrite Nat.add_0_r; apply gen_ret].
      rewrite Nat.add_1_r. apply gen_new. }
    eapply (gen_seq _ _ _ _ []).
    { apply gen_block. eapply gen_seq; [rewrite <-checks_cons; exact G|apply gen_emit_all|reflexivity]. }
    2: reflexivity.
    eapply (gen_seq _ _ _ _ [_]); [apply gen_item| |reflexivity].
    cbn [fst snd]. destruct used; [apply gen_item|apply gen_ret].
Qed.

Lemma check_name_bound : (n ≤ check_name < n + k + (k - 1))%nat.
Proof.
  unfold check_name. destruct (inputs c) as [|i l] eqn:E; [done|]. cbn [length].
  rewrite Nat.sub_succ, Nat.sub_0_r.
  assert (∀ x a j, (n ≤ a < j)%nat →
    (n ≤ and_result j a (seq x (length l)) < j + length l)%nat) as H.
  { induction (length l) as [|y IH]; intros x a j Hj; cbn; [lia|].
    specialize (IH (S x) j (S j)). lia. }
  specialize (H (S n) n (n + S (length l))%nat). lia.
Qed.

Section run.
Context (used : bool) (fs : list (option nat)) (la : list item) (n' : nat).
Context (A : arguments_ok (numUnknownConcreteness seg (inputs c)) ops checks (inputs c)
               (slow_start used) n' fs la).
Context (m : mach) (vs : list cval) (C : consistent ρ (rts m)).
Context (Hag : Forall2 (agreesv m) ops vs)
        (Hval : Forall2 (λ i v, eval_operand DL (cenv m) (concreteValue i) = Some v) (inputs c) vs).

(** After the checks, before the branch. *)
Lemma exec_checks es (Q : unit → mach → Prop) l :
  Forall2 (λ o e, read_expr o m = Some e) ops es →
  (∀ m', mstep (from n) m m' → rts m' = rts m → Forall2 (null_bit m') ops checks →
     regs m' !! check_name = Some (RBit (forallb id (null_bits es))) →
     wp (exec_code DL l) m' Q) →
  wp (exec_code DL (null_items n ops ++ and_items (n + k) n (seq (S n) (k - 1)) ++ l)) m Q.
Proof.
  intros Hes HQ. apply exec_app. eapply wp_impl; [by eapply exec_null_items|].
  intros _ m1 (S1&E1&B1). rewrite ops_length in B1.
  assert (Forall2 (λ o e, read_expr o m1 = Some e) ops es) as Hes1.
  { eapply Forall2_strengthen; [exact Hes|exact Hbelow|]. intros o e He Ho.
    by rewrite (read_expr_step _ _ _ _ S1 (below_from _ _ Ho)). }
  pose proof (null_bits_read _ _ _ _ Hes1 B1) as Bits. rewrite checks_cons in Bits.
  apply Forall2_cons_inv_l in Bits as (b&bs&Hb&Hbs&Eb).
  apply exec_app. eapply wp_impl; [eapply (exec_and_items (n + k) n); [|..|exact Hb|exact Hbs]|].
  - by rewrite E1.
  - destruct (inputs c); [done|]. cbn. lia.
  - apply Forall_seq. intros j Hj. destruct (inputs c); [done|]. cbn in *. lia.
  - intros _ m2 (S2&E2&B2). apply HQ.
    + eapply mstep_trans; [exact S1|]. eapply mstep_weaken; [|exact S2]. unfold from. lia.
    + by rewrite E2.
    + eapply null_bits_step; [exact S2|..|exact B1].
      * eapply Forall_impl; [exact Hbelow|]. intros o Ho r E. specialize (Ho r E). lia.
      * apply Forall_seq. lia.
    + unfold check_name. by rewrite B2, Eb.
Qed.

(** The names that the code may change. *)
Definition touched (r : nat) : Prop := dseg r ∨ from n r.

Lemma mstep_from n1 m1 m2 : (n ≤ n1)%nat → mstep (from n1) m1 m2 → mstep touched m1 m2.
Proof. intros Hn. apply mstep_weaken. unfold touched, from. intros r Hr. right. lia. Qed.

(** What the result register holds afterwards, if anything reads it. *)
Definition result_agrees m' (res : option value) : Prop :=
  used = true → match res with Some v => agrees m' (Some last) v | None => True end.

Lemma final_names f r :
  f ∈ fs → f = Some r → ¬ dseg r ∧ r ≠ result_name used.
Proof.
  intros Hin E. destruct A as (_&B&_).
  assert (∀ r, (r < n)%nat → dseg r → r ≠ result_name used ∨ used = false) as Hlt.
  { intros r' Hr _. unfold result_name. destruct used; [left; lia|by right]. }
  destruct (B f r Hin E) as [Hop|Hnew].
  - pose proof (Hdops f r Hop E) as Hnd. split; [done|].
    pose proof (proj1 (Forall_forall _ _) Hbelow f Hop r E). unfold result_name.
    destruct used; [lia|]. by intros ->.
  - unfold slow_start in Hnew. split; [intros Hd; specialize (Hdseg r Hd); lia|].
    unfold result_name. pose proof (Hdseg last Hdlast). destruct used; lia.
Qed.

(** The end of the construction: a phi node joins the two paths. *)
Lemma exec_join m1 b (res : option value) :
  consistent ρ (rts m1) → regs m1 !! check_name = Some (RBit b) →
  (b = false → result_ok m1 (result_name used) res) →
  wp (exec_code DL (if used then [PhiBit last check_name None (Some (result_name used))] else []))
    m1 (λ _ m', mstep touched m1 m' ∧ result_agrees m' res ∧ rts m' = rts m1 ∧
                (b = true → used = true → read_expr (Some last) m' = Some None)).
Proof.
  intros C1 Hb Hr. unfold result_agrees. destruct used eqn:Eu.
  2: { apply exec_nil. split_and!; [by apply mstep_refl|done..]. }
  assert (∃ e, read_expr (if b then None else Some (result_name true)) m1 = Some e ∧
    (b = true → e = None) ∧
    match res with
    | Some v => ∀ h, e = Some h → rep ρ (rt_backend (rts m1)) h v
    | None => True
    end) as (e&Ee&Hn0&He).
  { destruct b; [exists None; split_and!; [done..|destruct res; done]|].
    specialize (Hr eq_refl). destruct res as [v|].
    - destruct Hr as (h&Eh&Rh). exists (Some h). split_and!; [done..|]. by intros ? [= <-].
    - destruct Hr as (e&Ee). by exists e. }
  apply exec_cons. eapply wp_impl; [eapply (exec_phi touched); [by left|done|exact Hb|exact Ee]|].
  intros _ m2 (S&E2&Er). apply exec_nil. split_and!; [done| |done|].
  - intros _. destruct res as [v|]; [|done]. exists e. rewrite Er. by split.
  - intros -> _. by rewrite E2, Hn0.
Qed.

(** When all inputs are concrete, the result is null and the library is not
    called. *)
Lemma exec_shortcut_concrete res :
  Forall (λ o, read_expr o m = Some None) ops →
  wp (exec_code DL (shortcut_code used fs la)) m (λ _ m',
    mstep touched m m' ∧ result_agrees m' res ∧ rts m' = rts m ∧
    (used = true → read_expr (Some last) m' = Some None)).
Proof.
  intros Hnull. unfold shortcut_code.
  apply (exec_checks (replicate (length ops) None)).
  { clear -Hnull. induction Hnull; constructor; auto. }
  intros m1 S1 E1 _ Hc.
  assert (forallb id (null_bits (replicate (length ops) None)) = true) as Et.
  { clear. by induction ops. }
  rewrite Et in Hc.
  apply exec_cons, exec_if_false; [done|].
  eapply wp_impl; [apply (exec_join m1 true res); [by eapply mstep_consistent|done..]|].
  intros _ m2 (S2&H2&Er&Hn). split_and!; [|done|congruence|auto].
  eapply mstep_trans; [by eapply (mstep_from n)|done].
Qed.

(** Otherwise the computation runs on expressions for all inputs. *)
Lemma exec_shortcut res :
  slow_run n dseg (inputs c) last seg vs res m →
  wp (exec_code DL (shortcut_code used fs la)) m (λ _ m',
    mstep touched m m' ∧ result_agrees m' res).
Proof.
  intros Hslow. destruct (reads_of_agrees _ _ _ Hag) as [es Hes].
  destruct (forallb id (null_bits es)) eqn:Eb.
  { eapply wp_impl; [apply (exec_shortcut_concrete res)|by intros _ m' (?&?&_)].
    clear -Hes Eb. unfold null_bits in Eb. induction Hes as [|o e ops es He _ IH]; [constructor|].
    cbn in Eb. apply andb_prop in Eb as [->%bool_decide_eq_true Eb]. by constructor; [|apply IH]. }
  unfold shortcut_code. apply (exec_checks es _ _ Hes). intros m1 S1 E1 B1 Hc. rewrite Eb in Hc.
  assert (Forall2 (agreesv m1) ops vs) as Hag1 by by eapply agreesv_all_step.
  assert (Forall2 (λ o e, read_expr o m1 = Some e) ops es) as Hes1.
  { eapply Forall2_strengthen; [exact Hes|exact Hbelow|]. intros o e He Ho.
    by rewrite (read_expr_step _ _ _ _ S1 (below_from _ _ Ho)). }
  assert (mstep_cenv : cenv m1 = cenv m) by apply S1.
  assert (consistent ρ (rts m1)) as C1 by by eapply mstep_consistent.
  pose proof check_name_bound as Hcn.
  apply exec_cons, exec_if_true; [done|]. apply exec_app.
  destruct A as (_&_&Run). eapply wp_impl; [apply (Run m1 vs C1)|].
  { apply all_ready_intro; [done..|]. by rewrite mstep_cenv. }
  { rewrite (numUnknown_ops _ _ _ Hops). by apply (one_unknown _ _ _ es). }
  intros _ m2 [S2 H2].
  eapply wp_impl; [apply (Hslow m2 fs); [|done|apply final_names]|].
  { eapply mstep_trans; [exact S1|]. eapply mstep_weaken; [|exact S2]. unfold from, slow_start. lia. }
  intros _ m3 [S3 H3].
  assert (mstep touched m1 m3) as S13.
  { eapply mstep_trans; [eapply (mstep_from (slow_start used)); [unfold slow_start; lia|exact S2]|].
    eapply mstep_weaken; [|exact S3]. unfold touched, from, result_name.
    intros r [?| ->]; [by left|]. destruct used; [right; lia|by left]. }
  eapply wp_impl; [apply (exec_join m3 false res); [by eapply mstep_consistent| |done]|].
  - destruct S3 as (_&_&_&_&R3). rewrite R3.
    + destruct S2 as (_&_&_&_&R2). rewrite R2; [done|unfold from, slow_start; lia].
    + pose proof (Hdseg last Hdlast). unfold result_name.
      intros [Hd%Hdseg|Hd]; [|destruct used]; lia.
  - intros _ m4 (S4&H4&_). split; [|done].
    eapply mstep_trans; [by eapply (mstep_from n)|]. by eapply mstep_trans.
Qed.
End run.
End construction.
End exec.
