(* ===== verification/Computations.v ===== *)
(** * Symbolic computations in the generated code

    The structure of what the visitors of compiler/Symbolizer.cpp generate: a
    symbolic computation is a sequence of library calls whose arguments are
    results of earlier calls, constants, and symbolic inputs.  The first part
    relates the calls to the [SymbolicComputation] that describes them; the
    second shows that [shortCircuitExpressionUses] rewrites every computation
    in its place and nothing else. *)

From S2P Require Import Prelude Smt Z3Api SimpleSpec Dispatch Symbolizer SymbolizerSem ShortCircuit.

#[local] Open Scope Z_scope.

(** ** Calls *)
Record rcall : Type := { rc_dst : nat; rc_fn : SymFn; rc_args : list call_arg }.

Definition sym_lookup (sx : gmap nat (option nat)) (v : operand) : option nat :=
  match v with Local _ x => mjoin (sx !! x) | _ => None end.

Lemma getSymbolicExpression_lookup s v :
  getSymbolicExpression s v = sym_lookup (symbolicExpressions s) v.
Proof. by destruct v. Qed.

Definition arg_of (sx : gmap nat (option nat)) (a : call_arg) : arg :=
  match a with Sym v => AExpr (sym_lookup sx v) | Plain p => p end.

Definition call_item (sx : gmap nat (option nat)) (k : rcall) : item :=
  Call (rc_dst k) (rc_fn k) (arg_of sx <$> rc_args k).

Definition call_ins (k : rcall) : list Input := call_inputs 0 (rc_dst k) (rc_args k).

Definition comp_of (ks : list rcall) : SymbolicComputation := {|
  firstInstruction := rc_dst <$> head ks;
  lastInstruction := rc_dst <$> last ks;
  inputs := ks ≫= call_ins |}.

Lemma merge_comp_of ks k : merge (comp_of ks) (comp_of [k]) = comp_of (ks ++ [k]).
Proof.
  unfold merge, comp_of. cbn. f_equal; [by destruct ks|by rewrite last_snoc|].
  by rewrite bind_app.
Qed.

Lemma comp_of_nil : comp_of [] = empty_computation.
Proof. done. Qed.

Lemma comp_of_snoc_last ks k : lastInstruction (comp_of (ks ++ [k])) = Some (rc_dst k).
Proof. cbn. by rewrite last_snoc. Qed.

(** ** What the generators append *)
Definition appended (l : list item) (n : nat) (s s' : symbolizer) : Prop := s' = upd_code l n s.

Lemma force_build f args s :
  let k := {| rc_dst := fresh s; rc_fn := f; rc_args := args |} in
  forceBuildRuntimeCall f args s =
    Ok (comp_of [k]) (upd_code [call_item (symbolicExpressions s) k] (S (fresh s)) s).
Proof.
  intros k. unfold forceBuildRuntimeCall, bind at 1, get.
  rewrite (bind_Ok _ _ _ _ _ (gen_call _ _ (fresh s) s eq_refl)).
  assert ((λ a, match a with Sym v => AExpr (getSymbolicExpressionOrNull s v) | Plain p => p end)
            <$> args = arg_of (symbolicExpressions s) <$> args) as ->.
  { apply list_fmap_ext. intros i a _. by destruct a as [[]|]. }
  unfold ret, call_item, comp_of. subst k. cbn. by rewrite app_nil_r.
Qed.

(** Whether some argument has an expression. *)
Definition all_concrete (sx : gmap nat (option nat)) (args : list call_arg) : bool :=
  forallb (λ a, match call_value a with
                | Some v => bool_decide (sym_lookup sx v = None)
                | None => true
                end) args.

Lemma build_call f args s :
  buildRuntimeCall f args s =
    if all_concrete (symbolicExpressions s) args then Ok None s
    else let k := {| rc_dst := fresh s; rc_fn := f; rc_args := args |} in
         Ok (Some (comp_of [k])) (upd_code [call_item (symbolicExpressions s) k] (S (fresh s)) s).
Proof.
  unfold buildRuntimeCall, bind at 1, get, all_concrete.
  assert (∀ P Q, (∀ a, P a = Q a) → forallb P args = forallb Q args) as E.
  { intros P Q H. clear -H. induction args as [|a l IH]; [done|]. cbn. by rewrite H, IH. }
  rewrite (E _ (λ a, match call_value a with
                     | Some v => bool_decide (sym_lookup (symbolicExpressions s) v = None)
                     | None => true
                     end)) by (intros a; by destruct (call_value a) as [[]|]).
  destruct (forallb _ args); [done|]. by rewrite (bind_Ok _ _ _ _ _ (force_build f args s)).
Qed.

(** ** Replacing the inputs *)
Fixpoint syms (args : list call_arg) : list operand :=
  match args with
  | [] => []
  | Sym v :: args' => v :: syms args'
  | Plain _ :: args' => syms args'
  end.

Fixpoint fill_args (args : list call_arg) (fs : list (option nat)) : list arg :=
  match args, fs with
  | Sym _ :: args', f :: fs' => AExpr f :: fill_args args' fs'
  | Sym _ :: _, [] => []
  | Plain a :: args', _ => a :: fill_args args' fs
  | [], _ => []
  end.

Fixpoint fill (ks : list rcall) (fs : list (option nat)) : list item :=
  match ks with
  | [] => []
  | k :: ks' =>
      let j := length (syms (rc_args k)) in
      Call (rc_dst k) (rc_fn k) (fill_args (rc_args k) (take j fs)) :: fill ks' (drop j fs)
  end.

Definition all_syms (ks : list rcall) : list operand := ks ≫= (λ k, syms (rc_args k)).

Lemma call_inputs_values i d args : concreteValue <$> call_inputs i d args = syms args.
Proof. revert i. induction args as [|[v|] args IH]; intros i; cbn; by rewrite ?IH. Qed.

Lemma comp_inputs_values ks : concreteValue <$> inputs (comp_of ks) = all_syms ks.
Proof.
  induction ks as [|k ks IH]; [done|].
  change (inputs (comp_of (k :: ks))) with (call_ins k ++ inputs (comp_of ks)).
  rewrite fmap_app, IH. unfold call_ins. by rewrite call_inputs_values.
Qed.

Lemma call_inputs_length i d args : length (call_inputs i d args) = length (syms args).
Proof. by rewrite <-(call_inputs_values i d args), length_fmap. Qed.

Lemma elem_of_call_inputs x i d args :
  x ∈ call_inputs i d args ↔
    user x = d ∧ ∃ j, operandIndex x = (i + j)%nat ∧ args !! j = Some (Sym (concreteValue x)).
Proof.
  revert i. induction args as [|a args IH]; intros i.
  { cbn. split; [set_solver|]. by intros (_&j&_&?). }
  assert (x ∈ call_inputs (S i) d args ↔ user x = d ∧
    ∃ j, operandIndex x = (i + S j)%nat ∧ args !! j = Some (Sym (concreteValue x))) as IH'.
  { rewrite IH. f_equiv. f_equiv. intros j. by rewrite Nat.add_succ_r. }
  destruct a as [v|p]; cbn [call_inputs].
  - rewrite elem_of_cons, IH'. split.
    + intros [->|(E&j&Ej&Hj)]; cbn.
      * split; [done|]. exists 0%nat. by rewrite Nat.add_0_r.
      * split; [done|]. by exists (S j).
    + intros (E&[|j]&Ej&Hj); [left|right; split; [done|by exists j]].
      destruct x; cbn in *. rewrite Nat.add_0_r in Ej. by simplify_eq.
  - rewrite IH'. split.
    + intros (E&j&Ej&Hj). split; [done|]. by exists (S j).
    + intros (E&[|j]&Ej&Hj); [done|]. split; [done|]. by exists j.
Qed.

Lemma elem_of_comp_inputs x ks :
  x ∈ inputs (comp_of ks) ↔ ∃ k, k ∈ ks ∧ user x = rc_dst k ∧
    rc_args k !! operandIndex x = Some (Sym (concreteValue x)).
Proof.
  cbn. rewrite list_elem_of_bind. split.
  - intros (k&Hx&Hk). exists k. split; [done|]. unfold call_ins in Hx.
    apply elem_of_call_inputs in Hx as (?&j&->&?). by split.
  - intros (k&Hk&E&Hx). exists k. split; [|done]. apply elem_of_call_inputs. split; [done|].
    by exists (operandIndex x).
Qed.

Definition names (ks : list rcall) : list nat := rc_dst <$> ks.

Lemma names_inj ks k1 k2 :
  NoDup (names ks) → k1 ∈ ks → k2 ∈ ks → rc_dst k1 = rc_dst k2 → k1 = k2.
Proof.
  intros ND (i&H1)%list_elem_of_lookup (j&H2)%list_elem_of_lookup E.
  assert (i = j) as ->; [|congruence].
  eapply (NoDup_lookup (names ks)); [done|by unfold names; rewrite list_lookup_fmap, H1|].
  unfold names. by rewrite list_lookup_fmap, H2, E.
Qed.

Section seg.
Context (sx : gmap nat (option nat)).

Lemma comp_op_at ks :
  NoDup (names ks) →
  Forall2 (op_at (call_item sx <$> ks)) (inputs (comp_of ks)) (sym_lookup sx <$> all_syms ks).
Proof.
  intros ND. rewrite <-comp_inputs_values, <-list_fmap_compose.
  apply Forall2_fmap_r, Forall_Forall2_diag, Forall_forall. intros x Hx.
  apply elem_of_comp_inputs in Hx as (k&Hk&E&Hx).
  assert (arg_of sx <$> rc_args k !! operandIndex x =
    Some (AExpr (sym_lookup sx (concreteValue x)))) as Harg by (by rewrite Hx).
  split.
  - exists (rc_fn k), (arg_of sx <$> rc_args k). rewrite E.
    by apply (list_elem_of_fmap_2 (call_item sx)).
  - intros f args (k'&E'&Hk')%list_elem_of_fmap. injection E' as Ed -> ->.
    rewrite E in Ed. rewrite <-(names_inj ks k k') by (congruence || done).
    by rewrite list_lookup_fmap, Hx.
Qed.

Lemma call_inputs_nodup i d args : NoDup (position <$> call_inputs i d args).
Proof.
  revert i. induction args as [|[v|] args IH]; intros i; cbn; [constructor| |done].
  constructor; [|done]. intros (x&E&Hx)%list_elem_of_fmap.
  apply elem_of_call_inputs in Hx as (_&j&Ej&_). injection E as _ E. cbn in E. lia.
Qed.

Lemma comp_positions_nodup ks : NoDup (names ks) → NoDup (position <$> inputs (comp_of ks)).
Proof.
  induction ks as [|k ks IH]; [constructor|]. intros [Hk ND]%NoDup_cons.
  change (inputs (comp_of (k :: ks))) with (call_ins k ++ inputs (comp_of ks)).
  rewrite fmap_app. apply NoDup_app. split_and!; [apply call_inputs_nodup| |by apply IH].
  intros p (x&->&Hx)%list_elem_of_fmap (y&E&Hy)%list_elem_of_fmap. apply Hk.
  apply elem_of_call_inputs in Hx as [Ex _].
  apply (elem_of_comp_inputs y ks) in Hy as (k'&Hk'&Ey&_). injection E as E _.
  apply list_elem_of_fmap. exists k'. split; [congruence|done].
Qed.

Lemma replaceOperand_app i f l l' :
  replaceOperand i f (l ++ l') = replaceOperand i f l ++ replaceOperand i f l'.
Proof. apply fmap_app. Qed.

Lemma replaceOperand_other i f ks : user i ∉ names ks →
  replaceOperand i f (call_item sx <$> ks) = call_item sx <$> ks.
Proof.
  intros Hn. unfold replaceOperand. rewrite <-list_fmap_compose. apply list_fmap_ext.
  intros j k Hk. cbn. destruct (Nat.eqb_spec (rc_dst k) (user i)) as [E|]; [|done].
  destruct Hn. rewrite <-E. apply list_elem_of_fmap_2. by eapply list_elem_of_lookup_2.
Qed.

Lemma replace_call_inputs d g args pre fs ks :
  d ∉ names ks → length fs = length (syms args) →
  replace_all (call_inputs (length pre) d args) fs
    (Call d g (pre ++ (arg_of sx <$> args)) :: (call_item sx <$> ks)) =
  Call d g (pre ++ fill_args args fs) :: (call_item sx <$> ks).
Proof.
  intros Hd. revert pre fs. induction args as [|[v|p] args IH]; intros pre fs Hl.
  - by destruct fs.
  - destruct fs as [|f fs]; [done|]. injection Hl as Hl.
    cbn [call_inputs replace_all fmap list_fmap arg_of fill_args].
    set (i := {| concreteValue := v; operandIndex := length pre; user := d |}).
    change (Call d g ?x :: ?y) with ([Call d g x] ++ y).
    rewrite replaceOperand_app, (replaceOperand_other i) by done.
    unfold replaceOperand at 1. cbn [fmap list_fmap]. subst i. cbn. rewrite Nat.eqb_refl.
    rewrite insert_app_r_alt by done. rewrite Nat.sub_diag. cbn.
    specialize (IH (pre ++ [AExpr f]) fs Hl). rewrite <-!app_assoc, length_app in IH. cbn in IH.
    by rewrite Nat.add_1_r in IH.
  - cbn [call_inputs fmap list_fmap arg_of fill_args].
    specialize (IH (pre ++ [p]) fs Hl). rewrite <-!app_assoc, length_app in IH. cbn in IH.
    by rewrite Nat.add_1_r in IH.
Qed.

Lemma replace_all_app ins1 ins2 fs1 fs2 l :
  length fs1 = length ins1 →
  replace_all (ins1 ++ ins2) (fs1 ++ fs2) l = replace_all ins2 fs2 (replace_all ins1 fs1 l).
Proof.
  revert fs1 l. induction ins1 as [|i ins1 IH]; intros [|f fs1] l H; try done. cbn. apply IH. by injection H.
Qed.

Lemma replace_all_keep d g (args : list arg) ins fs l :
  (∀ i, i ∈ ins → user i ≠ d) →
  replace_all ins fs (Call d g args :: l) = Call d g args :: replace_all ins fs l.
Proof.
  revert fs l. induction ins as [|i ins IH]; intros [|f fs] l H; try done. cbn [replace_all].
  change (replaceOperand i f (Call d g args :: l)) with
    ((if (d =? user i)%nat then Call d g (<[operandIndex i := AExpr f]> args) else Call d g args)
      :: replaceOperand i f l).
  assert (d ≠ user i) as Hi by (intros E; by apply (H i); [left|]).
  rewrite (proj2 (Nat.eqb_neq _ _) Hi). apply IH. intros j Hj. apply H. by right.
Qed.

(** Replacing all inputs of a computation puts the new operands in the places
    of the symbolic ones. *)
Lemma replace_all_fill ks fs :
  NoDup (names ks) → length fs = length (all_syms ks) →
  replace_all (inputs (comp_of ks)) fs (call_item sx <$> ks) = fill ks fs.
Proof.
  revert fs. induction ks as [|k ks IH]; intros fs; [by destruct fs|].
  intros [Hk ND]%NoDup_cons Hl.
  change (all_syms (k :: ks)) with (syms (rc_args k) ++ all_syms ks) in Hl.
  rewrite length_app in Hl.
  change (inputs (comp_of (k :: ks))) with (call_ins k ++ inputs (comp_of ks)).
  set (j := length (syms (rc_args k))) in *.
  assert (length (take j fs) = j) as Ht by (rewrite length_take; lia).
  rewrite <-(take_drop j fs), replace_all_app; [|unfold call_ins; by rewrite call_inputs_length].
  cbn [fmap list_fmap fill]. fold j. rewrite (take_drop j fs). unfold call_ins, call_item at 1.
  pose proof (replace_call_inputs (rc_dst k) (rc_fn k) (rc_args k) [] (take j fs) ks Hk Ht) as E.
  cbn [length app] in E. rewrite E, replace_all_keep.
  - f_equal. apply IH; [done|]. rewrite length_drop. lia.
  - intros x Hx Ex. apply elem_of_comp_inputs in Hx as (k'&Hk'&E'&_). apply Hk.
    apply list_elem_of_fmap. exists k'. split; [congruence|done].
Qed.

Lemma fill_app ks1 ks2 fs1 fs2 :
  length fs1 = length (all_syms ks1) →
  fill (ks1 ++ ks2) (fs1 ++ fs2) = fill ks1 fs1 ++ fill ks2 fs2.
Proof.
  revert fs1. induction ks1 as [|k ks1 IH]; intros fs1 Hl.
  { by destruct fs1. }
  change (all_syms (k :: ks1)) with (syms (rc_args k) ++ all_syms ks1) in Hl.
  rewrite length_app in Hl. cbn [fill app].
  rewrite take_app_le, drop_app_le by lia. f_equal. apply IH. rewrite length_drop. lia.
Qed.

Lemma rename_result_other r r' ks fs :
  r ∉ names ks → rename_result r r' (fill ks fs) = fill ks fs.
Proof.
  revert fs. induction ks as [|k ks IH]; intros fs; [done|]. intros [Hk Hn]%not_elem_of_cons.
  cbn [fill]. unfold rename_result in *. rewrite fmap_cons, IH by done.
  by rewrite (proj2 (Nat.eqb_neq (rc_dst k) r)) by congruence.
Qed.

Lemma rename_result_snoc r' ks k fs1 fs2 :
  NoDup (names (ks ++ [k])) → length fs1 = length (all_syms ks) →
  length fs2 = length (syms (rc_args k)) →
  rename_result (rc_dst k) r' (fill (ks ++ [k]) (fs1 ++ fs2)) =
  fill ks fs1 ++ [Call r' (rc_fn k) (fill_args (rc_args k) fs2)].
Proof.
  intros ND H1 H2. rewrite fill_app by done. unfold rename_result. rewrite fmap_app.
  unfold names in ND. rewrite fmap_app in ND. apply NoDup_app in ND as (_&Hd&_).
  fold (rename_result (rc_dst k) r' (fill ks fs1)). rewrite rename_result_other.
  - f_equal. cbn. rewrite Nat.eqb_refl. by rewrite take_ge by lia.
  - intros Hin. apply (Hd _ Hin). by left.
Qed.
End seg.

(** ** Chunks

    The code of a block: single items, and computations with the expressions
    [sx] that were known when they were generated.  A computation may have a
    guard [(c, flag)]: it is skipped when [c] holds, and sets [flag]. *)
Definition guard : Type := option (nat * nat).

Inductive chunk : Type :=
| CItem (it : item)
| CComp (g : guard) (sx : gmap nat (option nat)) (ks : list rcall).

Definition enclose (g : guard) (l : list item) : list item :=
  match g with
  | None => l
  | Some (c, flag) => [If c false (l ++ [StoreFlag flag true])]
  end.

Definition chunk_code (c : chunk) : list item :=
  match c with CItem it => [it] | CComp g sx ks => enclose g (call_item sx <$> ks) end.
Definition flatten (cs : list chunk) : list item := cs ≫= chunk_code.

Definition comps (cs : list chunk) : list SymbolicComputation :=
  cs ≫= (λ c, match c with CItem _ => [] | CComp _ _ ks => [comp_of ks] end).

Lemma flatten_app cs cs' : flatten (cs ++ cs') = flatten cs ++ flatten cs'.
Proof. apply bind_app. Qed.
Lemma comps_app cs cs' : comps (cs ++ cs') = comps cs ++ comps cs'.
Proof. apply bind_app. Qed.

Lemma enclose_names g l : code_names (enclose g l) = code_names l.
Proof.
  destruct g as [[c flag]|]; [|done]. cbn. rewrite app_nil_r. fold (code_names (l ++ [StoreFlag flag true])).
  by rewrite code_names_app, app_nil_r.
Qed.

Lemma enclose_uses r g l : existsb (item_uses r) (enclose g l) = existsb (item_uses r) l.
Proof. destruct g as [[c flag]|]; [|done]. cbn. by rewrite existsb_app, !orb_false_r. Qed.

Lemma enclose_map f g l : map_uses f <$> enclose g l = enclose g (map_uses f <$> l).
Proof. destruct g as [[c flag]|]; [|done]. cbn. by rewrite map_app. Qed.

Definition comp_last (ks : list rcall) : nat := default 0%nat (rc_dst <$> last ks).

(** The names of calls in [l] are at least [lo] and below [hi]. *)
Definition within (lo hi : nat) (l : list nat) : Prop := Forall (λ r, lo ≤ r < hi)%nat l.

(** Arguments that are not inputs are results of the computation's own calls. *)
Definition plain_within (lo hi : nat) (args : list call_arg) : Prop :=
  Forall (λ a, ∀ r, a = Plain (AExpr (Some r)) → lo ≤ r < hi)%nat args.

Record comp_ok (lo hi : nat) (sx : gmap nat (option nat)) (ks : list rcall) : Prop := {
  comp_nodup : NoDup (names ks);
  comp_names : within lo hi (names ks);
  comp_inputs : all_syms ks ≠ [];
  comp_creatable : Forall (λ v, creatable (getType v) = true) (all_syms ks);
  comp_below : Forall (below lo) (sym_lookup sx <$> all_syms ks);
  comp_plain : Forall (λ k, plain_within lo hi (rc_args k)) ks;
}.

Definition chunk_ok (lo hi : nat) (c : chunk) : Prop :=
  match c with
  | CItem it => within lo hi (call_names it)
  | CComp _ sx ks => comp_ok lo hi sx ks
  end.

Fixpoint chunks_ok (lo : nat) (cs : list chunk) (hi : nat) : Prop :=
  match cs with
  | [] => lo = hi
  | c :: cs' => ∃ mid, (lo ≤ mid)%nat ∧ chunk_ok lo mid c ∧ chunks_ok mid cs' hi
  end.

Lemma chunks_ok_le lo cs hi : chunks_ok lo cs hi → (lo ≤ hi)%nat.
Proof.
  revert lo. induction cs as [|c cs IH]; intros lo; cbn; [lia|].
  intros (mid&?&_&H). apply IH in H. lia.
Qed.

Lemma chunks_ok_app lo cs mid cs' hi :
  chunks_ok lo cs mid → chunks_ok mid cs' hi → chunks_ok lo (cs ++ cs') hi.
Proof.
  revert lo. induction cs as [|c cs IH]; intros lo; cbn; [by intros ->|].
  intros (m&?&Hc&H) H'. exists m. auto.
Qed.

Lemma within_weaken lo hi lo' hi' l :
  (lo' ≤ lo)%nat → (hi ≤ hi')%nat → within lo hi l → within lo' hi' l.
Proof. intros ?? H. eapply Forall_impl; [exact H|]. cbn. lia. Qed.

Lemma comp_code_names sx ks : code_names (call_item sx <$> ks) = names ks.
Proof. induction ks as [|k ks IH]; [done|]. cbn. f_equal. exact IH. Qed.

Lemma chunk_code_names lo hi c : chunk_ok lo hi c → within lo hi (code_names (chunk_code c)).
Proof.
  destruct c as [it|g sx ks]; cbn [chunk_ok chunk_code].
  - cbn. by rewrite app_nil_r.
  - intros []. by rewrite enclose_names, comp_code_names.
Qed.

Lemma chunks_code_names lo cs hi : chunks_ok lo cs hi → within lo hi (code_names (flatten cs)).
Proof.
  revert lo. induction cs as [|c cs IH]; intros lo; [constructor|].
  intros (mid&Hm&Hc&H). change (flatten (c :: cs)) with (chunk_code c ++ flatten cs).
  rewrite code_names_app. pose proof (chunks_ok_le _ _ _ H). apply Forall_app. split.
  - eapply within_weaken; [..|by apply chunk_code_names]; lia.
  - eapply within_weaken; [..|by apply IH]; lia.
Qed.

(** ** Erased expressions

    [finalizePHINodes] removes the phi nodes of expressions that can only be
    null, and replaces their uses by null. *)
Definition erase (E : gset nat) (e : option nat) : option nat :=
  match e with Some r => if decide (r ∈ E) then None else e | None => None end.

Definition erase_map (E : gset nat) (sx : gmap nat (option nat)) : gmap nat (option nat) :=
  erase E <$> sx.

Definition erase_chunk (E : gset nat) (c : chunk) : chunk :=
  match c with
  | CItem it => CItem (map_uses (erase E) it)
  | CComp g sx ks => CComp g (erase_map E sx) ks
  end.

Definition avoids (E : gset nat) (lo hi : nat) : Prop := ∀ r, r ∈ E → ¬ (lo ≤ r < hi)%nat.

Lemma erase_some E r : r ∉ E → erase E (Some r) = Some r.
Proof. intros H. cbn. by rewrite decide_False. Qed.

Lemma erase_fresh E lo hi r : avoids E lo hi → (lo ≤ r < hi)%nat → erase E (Some r) = Some r.
Proof. intros H Hr. apply erase_some. intros Hin. by apply (H r). Qed.

Lemma erase_inv E e r : erase E e = Some r → e = Some r ∧ r ∉ E.
Proof. destruct e as [r'|]; [|done]. cbn. case_decide; [done|]. by intros [= ->]. Qed.

Lemma erase_map_lookup E sx x r :
  erase_map E sx !! x = Some (Some r) ↔ sx !! x = Some (Some r) ∧ r ∉ E.
Proof.
  unfold erase_map. rewrite lookup_fmap. destruct (sx !! x) as [e|]; cbn; [|split; [done|by intros []]].
  split; [by intros [= [-> ?]%erase_inv]|]. intros [[= ->] Hr]. by rewrite erase_some.
Qed.

Lemma sym_lookup_erase E sx v : sym_lookup (erase_map E sx) v = erase E (sym_lookup sx v).
Proof.
  destruct v as [t x| | | | | |]; try done. cbn. unfold erase_map. rewrite lookup_fmap.
  by destruct (sx !! x).
Qed.

Lemma erase_map_empty sx : erase_map ∅ sx = sx.
Proof.
  unfold erase_map. rewrite <-(map_fmap_id sx) at 2. apply map_fmap_ext. intros x [r|] _; [|done].
  by rewrite erase_some.
Qed.

Lemma call_names_map_uses f it : call_names (map_uses f it) = call_names it.
Proof.
  revert it. fix IH 1. intros it.
  destruct it as [| | | | | | | | | |c on body|]; try reflexivity.
  cbn [map_uses call_names]. induction body as [|it body IHb]; [done|]. cbn. by rewrite IH, IHb.
Qed.

Lemma erase_call_item E lo hi sx k :
  avoids E lo hi → plain_within lo hi (rc_args k) →
  map_uses (erase E) (call_item sx k) = call_item (erase_map E sx) k.
Proof.
  intros HE Hk. unfold call_item. cbn [map_uses]. f_equal. rewrite <-list_fmap_compose.
  apply list_fmap_ext. intros j a Ha. apply list_elem_of_lookup_2 in Ha.
  pose proof (proj1 (Forall_forall _ _) Hk a Ha) as Hp. cbn beta in Hp.
  destruct a as [v|[e| | | | | | | |]]; try done; cbn [arg_of map_expr compose].
  - by rewrite sym_lookup_erase.
  - destruct e as [r|]; [|done]. f_equal. apply (erase_fresh E lo hi); auto.
Qed.

Lemma flatten_erase E lo cs hi :
  chunks_ok lo cs hi → avoids E lo hi →
  flatten (erase_chunk E <$> cs) = map_uses (erase E) <$> flatten cs.
Proof.
  revert lo. induction cs as [|c cs IH]; intros lo; [done|]. intros (mid&Hm&Hc&Hcs) HE.
  pose proof (chunks_ok_le _ _ _ Hcs) as Hle.
  change (flatten (c :: cs)) with (chunk_code c ++ flatten cs). rewrite fmap_app.
  change (flatten (erase_chunk E <$> c :: cs)) with
    (chunk_code (erase_chunk E c) ++ flatten (erase_chunk E <$> cs)).
  f_equal; [|apply (IH mid); [done|intros r Hr Hin; apply (HE r Hr); lia]].
  destruct c as [it|g sx ks]; [done|]. cbn [erase_chunk chunk_code].
  rewrite enclose_map, <-list_fmap_compose. f_equal. apply list_fmap_ext. intros j k Hk. apply list_elem_of_lookup_2 in Hk. symmetry.
  apply (erase_call_item E lo mid); [intros r Hr Hin; apply (HE r Hr); lia|].
  by apply (proj1 (Forall_forall _ _) (comp_plain _ _ _ _ Hc)).
Qed.

Lemma comps_erase E cs : comps (erase_chunk E <$> cs) = comps cs.
Proof. induction cs as [|[] cs IH]; cbn; [done|exact IH|]. f_equal. exact IH. Qed.

Lemma comp_ok_erase E lo hi sx ks : comp_ok lo hi sx ks → comp_ok lo hi (erase_map E sx) ks.
Proof.
  intros [H1 H2 H3 H4 H5 H6]. split; try done. apply Forall_fmap.
  pose proof (proj1 (Forall_fmap _ _ _) H5) as H5'. eapply Forall_impl; [exact H5'|].
  intros v Hv r. cbn in *.
  rewrite sym_lookup_erase. intros [? _]%erase_inv. by apply Hv.
Qed.

Lemma chunks_ok_erase E lo cs hi : chunks_ok lo cs hi → chunks_ok lo (erase_chunk E <$> cs) hi.
Proof.
  revert lo. induction cs as [|c cs IH]; intros lo; [done|]. intros (mid&Hm&Hc&Hcs).
  exists mid. split_and!; [done| |by apply IH]. destruct c as [it|g sx ks]; cbn in *.
  - by rewrite call_names_map_uses.
  - by apply comp_ok_erase.
Qed.

(** ** Finding a computation *)
Lemma defines_name r it : defines r it = true → r ∈ call_names it.
Proof. destruct it; try done. cbn. intros ->%Nat.eqb_eq. by left. Qed.

Lemma no_define r it : r ∉ call_names it → defines r it = false.
Proof. intros H. destruct (defines r it) eqn:E; [|done]. by apply defines_name in E. Qed.

(** Code without the first instruction of [c] stays as it is. *)
Section rewrite.
Context (DL : DataLayout) (c : SymbolicComputation) (used : bool) (first last : nat).
Context (Hfirst : firstInstruction c = Some first) (Hlast : lastInstruction c = Some last).

#[local] Abbreviation rewrite_all := (rewrite_list DL c used (rewrite_item DL c used)).

Lemma rewrite_list_keep l l' n u n' :
  Forall (λ it, defines first it = false ∧ gen (rewrite_item DL c used it) n tt [it] n) l →
  gen (rewrite_all l') n tt u n' → gen (rewrite_all (l ++ l')) n tt (l ++ u) n'.
Proof.
  intros H Hl'. induction H as [|it l [Hd Hg] _ IH]; [done|].
  cbn [app rewrite_list]. rewrite Hfirst, Hlast, Hd.
  eapply gen_seq; [exact Hg|exact IH|done].
Qed.

Lemma rewrite_item_keep it n :
  first ∉ call_names it → gen (rewrite_item DL c used it) n tt [it] n.
Proof.
  revert it. fix IH 1. intros it. destruct it as [| | | | | | | | | |b on body|]; intros Hn;
    try apply gen_item.
  assert (Forall (λ it, defines first it = false ∧ gen (rewrite_item DL c used it) n tt [it] n) body)
    as Hbody.
  { cbn in Hn. induction body as [|it body IHb]; [constructor|]. cbn in Hn.
    rewrite elem_of_app in Hn. constructor; [|apply IHb; tauto].
    split; [apply no_define; tauto|apply IH; tauto]. }
  cbn [rewrite_item]. apply (gen_seq _ _ n (tt, body) [] n tt [If b on body] n); [|apply gen_item|done].
  apply gen_block. rewrite <-(app_nil_r body).
  apply rewrite_list_keep; [done|apply gen_ret].
Qed.

Lemma rewrite_code_keep l l' n u n' :
  first ∉ code_names l →
  gen (rewrite_all l') n tt u n' → gen (rewrite_all (l ++ l')) n tt (l ++ u) n'.
Proof.
  intros Hn. apply rewrite_list_keep. induction l as [|it l IH]; [constructor|].
  cbn in Hn. rewrite elem_of_app in Hn. constructor; [|apply IH; tauto].
  split; [apply no_define; tauto|apply rewrite_item_keep; tauto].
Qed.

Lemma split_after_calls sx ks k post :
  NoDup (names (ks ++ [k])) →
  split_after (rc_dst k) ((call_item sx <$> ks ++ [k]) ++ post) =
    Some (call_item sx <$> ks ++ [k], post).
Proof.
  induction ks as [|k' ks IH]; intros ND; cbn.
  - by rewrite Nat.eqb_refl.
  - cbn in ND. apply NoDup_cons in ND as [Hn ND].
    rewrite (proj2 (Nat.eqb_neq _ _)), IH; [done..|]. intros E. apply Hn. rewrite E.
    unfold names. rewrite fmap_app. apply elem_of_app. right. by left.
Qed.

(** The computation is found and replaced. *)
Lemma rewrite_computation n sx ks post code' n' :
  c = comp_of ks → NoDup (names ks) → gen (shortCircuit DL c used (call_item sx <$> ks)) n tt code' n' →
  gen (rewrite_all ((call_item sx <$> ks) ++ post)) n tt (code' ++ post) n'.
Proof.
  intros Ec ND G. assert (∃ k ks', ks = k :: ks' ∧ rc_dst k = first) as (k0&ks0&E0&Ef).
  { subst c. cbn in Hfirst. destruct ks as [|k ks']; [done|]. injection Hfirst as <-. by exists k, ks'. }
  assert (∃ k ks', ks = ks' ++ [k] ∧ rc_dst k = last) as (k1&ks1&E1&El).
  { subst c. cbn in Hlast. destruct (list.last ks) as [k|] eqn:E; [|done].
    apply last_Some in E as (ks'&->). injection Hlast as <-. by exists k, ks'. }
  assert (∃ it l, (call_item sx <$> ks) = it :: l ∧ defines first it = true) as (it&l&Eit&Hit).
  { subst ks first. do 2 eexists. split; [reflexivity|]. cbn. by rewrite Nat.eqb_refl. }
  pose proof (split_after_calls sx ks1 k1 post) as Hsplit. rewrite <-E1, El, Eit in Hsplit.
  rewrite Eit. cbn [app rewrite_list]. rewrite Hfirst, Hlast, Hit.
  change (it :: l ++ post) with ((it :: l) ++ post). rewrite Hsplit, <-Eit by done.
  eapply gen_seq; [exact G|apply gen_emit_all|done].
Qed.

Lemma rewrite_enclosed n g sx ks post code' n' :
  c = comp_of ks → NoDup (names ks) → (g ≠ None → first ∉ code_names post) →
  gen (shortCircuit DL c used (call_item sx <$> ks)) n tt code' n' →
  gen (rewrite_all (enclose g (call_item sx <$> ks) ++ post)) n tt (enclose g code' ++ post) n'.
Proof.
  intros Ec ND Hn G. destruct g as [[b flag]|]; [|by apply rewrite_computation].
  assert (gen (rewrite_all post) n' tt post n') as Gp.
  { rewrite <-(app_nil_r post). apply rewrite_code_keep; [by apply Hn|apply gen_ret]. }
  cbn [enclose app rewrite_list]. rewrite Hfirst, Hlast. cbn [defines].
  apply (gen_seq _ _ n tt [If b false (code' ++ [StoreFlag flag true])] n' tt post n'); [|exact Gp|done].
  cbn [rewrite_item].
  eapply gen_seq; [apply gen_block; by apply rewrite_computation|apply gen_item|done].
Qed.

Lemma shortCircuitOne_at s pre g sx ks post code' n' :
  c = comp_of ks → NoDup (names ks) → first ∉ code_names pre →
  (g ≠ None → first ∉ code_names post) →
  code s = pre ++ enclose g (call_item sx <$> ks) ++ post →
  used = existsb (item_uses last) (code s) →
  gen (shortCircuit DL c used (call_item sx <$> ks)) (fresh s) tt code' n' →
  shortCircuitOne DL c s = Ok tt (set_fresh n' (set_code (pre ++ enclose g code' ++ post) s)).
Proof.
  intros Ec ND Hn Hp Es Eu G. unfold shortCircuitOne, bind at 1, get. rewrite Hlast, <-Eu.
  unfold bind, modify.
  assert (gen (rewrite_all (code s)) (fresh s) tt (pre ++ enclose g code' ++ post) n') as Gr.
  { rewrite Es. apply rewrite_code_keep; [done|]. by apply rewrite_enclosed. }
  rewrite (Gr (set_code [] s) eq_refl). unfold upd_code, set_fresh, set_code. by cbn.
Qed.
End rewrite.

(** ** The whole pass over the computations *)
Lemma call_item_names_fill ks fs : code_names (fill ks fs) = names ks.
Proof.
  revert fs. induction ks as [|k ks IH]; intros fs; [done|]. cbn. f_equal. apply IH.
Qed.

Lemma rename_names r r' l : ∀ x, x ∈ code_names (rename_result r r' l) → x ∈ code_names l ∨ x = r'.
Proof.
  intros x. induction l as [|it l IH]; [by left|]. cbn.
  rewrite !elem_of_app. intros [H|H]; [|tauto].
  destruct it; cbn in H; try tauto. destruct (dst =? r)%nat; cbn in *; [|tauto].
  apply list_elem_of_singleton in H as ->. by right.
Qed.

Section exec.
Context {Z3I : Z3} {ZL : Z3Laws Z3I} {KC : Calls} {KI : ICalls} {FR : Frame}.
Context (DL : DataLayout) (ρ : RunInput) (Hptr : ptrBits DL = 64).

(** The code of a computation after its conversion, in front of the code
    [rest]; the names from [n] on are new. *)
Definition comp_converted (rest : list item) sx ks (n : nat) (code : list item) (n' : nat) : Prop :=
  let c := comp_of ks in
  let seg := call_item sx <$> ks in
  let ops := sym_lookup sx <$> all_syms ks in
  ∃ used fs la,
    (existsb (item_uses (comp_last ks)) rest = true → used = true) ∧
    code = shortcut_code c seg ops (comp_last ks) n used fs la ∧
    arguments_ok DL ρ (numUnknownConcreteness seg (inputs c)) ops (seq n (length (inputs c)))
      (inputs c) (slow_start c n used) n' fs la.

Inductive converted (tail : list item) : nat → list chunk → list item → nat → Prop :=
| converted_nil n : converted tail n [] [] n
| converted_item n it cs code n' :
    converted tail n cs code n' → converted tail n (CItem it :: cs) (it :: code) n'
| converted_comp n g sx ks cs code1 n1 code2 n' :
    (n ≤ n1)%nat → comp_converted (flatten cs ++ tail) sx ks n code1 n1 →
    converted tail n1 cs code2 n' → converted tail n (CComp g sx ks :: cs) (enclose g code1 ++ code2) n'.

Lemma converted_le tail n cs code n' : converted tail n cs code n' → (n ≤ n')%nat.
Proof. induction 1; lia. Qed.

Lemma comp_inputs_facts lo hi sx ks n :
  comp_ok lo hi sx ks → (hi ≤ n)%nat →
  let c := comp_of ks in
  inputs c ≠ [] ∧ Forall creatable_input (inputs c) ∧
  Forall (below n) (sym_lookup sx <$> all_syms ks) ∧
  ∃ first, firstInstruction c = Some first ∧ lastInstruction c = Some (comp_last ks) ∧
    first ∈ names ks ∧ comp_last ks ∈ names ks.
Proof.
  intros [ND Hin Hne Hc Hb _] Hn c. rewrite <-comp_inputs_values in Hc, Hne. split_and!.
  - intros E. apply Hne. fold c. by rewrite E.
  - by apply Forall_fmap in Hc.
  - assert (lo ≤ hi)%nat as Hle.
    { destruct (names ks) as [|r l] eqn:E; [|inversion Hin; lia].
      destruct ks; [|done]. by destruct Hne. }
    eapply Forall_impl; [exact Hb|]. intros o Ho r E. specialize (Ho r E). lia.
  - destruct ks as [|k ks'] eqn:E; [by destruct Hne|]. exists (rc_dst k).
    assert (is_Some (last (k :: ks'))) as [k' Hk'] by (by apply last_is_Some).
    unfold comp_last, c. rewrite Hk'. cbn [comp_of lastInstruction]. rewrite Hk'.
    split_and!; [done..|by left|]. apply last_Some in Hk' as (l&->). unfold names.
    rewrite fmap_app. apply elem_of_app. right. by left.
Qed.

Lemma comp_shortCircuit lo hi sx ks n used :
  comp_ok lo hi sx ks → (hi ≤ n)%nat →
  ∃ fs la n', (n ≤ n')%nat ∧
    let c := comp_of ks in
    let seg := call_item sx <$> ks in
    let ops := sym_lookup sx <$> all_syms ks in
    let code := shortcut_code c seg ops (comp_last ks) n used fs la in
    gen (shortCircuit DL c used seg) n tt code n' ∧
    arguments_ok DL ρ (numUnknownConcreteness seg (inputs c)) ops (seq n (length (inputs c)))
      (inputs c) (slow_start c n used) n' fs la ∧
    ∀ r, r ∈ code_names code → r ∈ names ks ∨ (n ≤ r)%nat.
Proof.
  intros Hok Hn. pose proof (comp_inputs_facts _ _ _ _ _ Hok Hn) as (H1&H2&H3&first&H4&H5&H6&H7).
  destruct Hok as [ND _ _ _ _ _].
  destruct (shortCircuit_gen DL ρ Hptr (comp_of ks) (call_item sx <$> ks)
    (sym_lookup sx <$> all_syms ks) (comp_last ks) n H5 H1 (comp_op_at sx ks ND)
    (comp_positions_nodup ks ND) H2 H3 used) as (fs&la&n'&Hn'&G&A&Hla&Hfs).
  exists fs, la, n'. split; [unfold slow_start in Hn'; lia|]. split_and!; [done..|].
  intros r. unfold shortcut_code. rewrite !code_names_app, !elem_of_app.
  assert (∀ i l, code_names (null_items i l) = []) as E1.
  { intros i l. revert i. induction l; intros i; [done|]. cbn. auto. }
  assert (∀ i a l, code_names (and_items i a l) = []) as E2.
  { intros i a l. revert i a. induction l; intros i a'; [done|]. cbn. auto. }
  rewrite E1, E2.
  assert (code_names (if used then [PhiBit (comp_last ks) (check_name (comp_of ks) n) None
    (Some (result_name (comp_of ks) (comp_last ks) n used))] else []) = []) as E3 by by destruct used.
  intros [Hr|[Hr|Hr]]; [by apply elem_of_nil in Hr..|].
  change (code_names (If ?c ?b ?l :: ?l')) with (code_names l ++ code_names l') in Hr.
  rewrite E3, app_nil_r, code_names_app, elem_of_app in Hr. destruct Hr as [Hr|Hr].
  - right. by apply (proj1 (Forall_forall _ _) Hla).
  - apply rename_names in Hr as [Hr| ->].
    + left. rewrite replace_all_fill in Hr; [|done|].
      * by rewrite call_item_names_fill in Hr.
      * by rewrite Hfs, <-comp_inputs_values, length_fmap.
    + unfold result_name. destruct used; [right; lia|by left].
Qed.

(** The single items of a code. *)
Definition items (cs : list chunk) : list item :=
  cs ≫= (λ c, match c with CItem it => [it] | CComp _ _ _ => [] end).

Lemma items_uses r cs :
  existsb (item_uses r) (items cs) = true → existsb (item_uses r) (flatten cs) = true.
Proof.
  induction cs as [|c cs IH]; [done|].
  change (flatten (c :: cs)) with (chunk_code c ++ flatten cs). rewrite existsb_app, orb_true_iff.
  destruct c as [it|g sx ks]; [|auto]. cbn. rewrite orb_false_r, orb_true_iff. tauto.
Qed.

(** [shortCircuitExpressionUses]: each computation is converted in its place.
    The results that [T] uses are kept if the code around uses them. *)
Lemma shortCircuitUses_converts T tail lo hi cs pre s :
  chunks_ok lo cs hi → (hi ≤ fresh s)%nat →
  (∀ r, r ∈ code_names pre → (r < lo ∨ hi ≤ r)%nat) →
  (∀ r, r ∈ code_names tail → (r < lo ∨ hi ≤ r)%nat) →
  code s = pre ++ flatten cs ++ tail →
  (∀ r, existsb (item_uses r) T = true → existsb (item_uses r) (pre ++ items cs ++ tail) = true) →
  ∃ code' n', shortCircuitUses DL (comps cs) s =
      Ok tt (set_fresh n' (set_code (pre ++ code' ++ tail) s)) ∧
    converted T (fresh s) cs code' n'.
Proof.
  revert lo pre s. induction cs as [|c cs IH]; intros lo pre s.
  { intros _ _ _ _ E _. exists [], (fresh s). split; [|constructor]. cbn in *. rewrite <-E. by destruct s. }
  intros (mid&Hlo&Hc&Hcs) Hhi Hpre Htail Es HT. pose proof (chunks_ok_le _ _ _ Hcs) as Hmid.
  destruct c as [it|g sx ks].
  - destruct (IH mid (pre ++ [it]) s) as (code'&n'&E&C); [done..| | | | |].
    + intros r. rewrite code_names_app, elem_of_app. intros [Hr|Hr].
      * destruct (Hpre r Hr); lia.
      * cbn in Hc, Hr. rewrite app_nil_r in Hr. pose proof (proj1 (Forall_forall _ _) Hc r Hr).
        cbn in *. lia.
    + intros r Hr. destruct (Htail r Hr); lia.
    + by rewrite Es, <-app_assoc.
    + intros r Hr. rewrite <-app_assoc. by apply HT.
    + exists (it :: code'), n'. split; [|by constructor].
      change (comps (CItem it :: cs)) with (comps cs). by rewrite E, <-app_assoc.
  - cbn in Hc. change (comps (CComp g sx ks :: cs)) with (comp_of ks :: comps cs).
    change (flatten (CComp g sx ks :: cs)) with (enclose g (call_item sx <$> ks) ++ flatten cs) in Es.
    rewrite <-app_assoc in Es.
    pose proof (comp_inputs_facts _ _ _ _ (fresh s) Hc ltac:(lia)) as (_&_&_&first&H4&H5&H6&H7).
    set (used := existsb (item_uses (comp_last ks)) (code s)).
    destruct (comp_shortCircuit _ _ _ _ (fresh s) used Hc ltac:(lia)) as (fs&la&n1&Hn1&G&A&Hnames).
    assert (first ∉ code_names pre) as Hfirst.
    { intros Hin. pose proof (proj1 (Forall_forall _ _) (comp_names _ _ _ _ Hc) _ H6).
      cbn in *. destruct (Hpre _ Hin); lia. }
    assert (first ∉ code_names (flatten cs ++ tail)) as Hrest.
    { pose proof (proj1 (Forall_forall _ _) (comp_names _ _ _ _ Hc) _ H6). cbn in *.
      rewrite code_names_app, elem_of_app. intros [Hin|Hin].
      - pose proof (proj1 (Forall_forall _ _) (chunks_code_names _ _ _ Hcs) _ Hin). cbn in *. lia.
      - destruct (Htail _ Hin); lia. }
    pose proof (shortCircuitOne_at DL _ used first _ H4 H5 s pre g sx ks _ _ n1 eq_refl
      (comp_nodup _ _ _ _ Hc) Hfirst (λ _, Hrest) Es eq_refl G) as E1.
    match type of G with gen _ _ _ ?l _ => set (cc := l) in * end.
    set (s1 := set_fresh n1 (set_code (pre ++ enclose g cc ++ flatten cs ++ tail) s)) in *.
    destruct (IH mid (pre ++ enclose g cc) s1) as (code'&n'&E&C); [done|cbn; lia| | | | |].
    + intros r. rewrite code_names_app, enclose_names, elem_of_app. intros [Hr|Hr].
      * destruct (Hpre r Hr); lia.
      * apply Hnames in Hr as [Hr|Hr]; [|lia].
        pose proof (proj1 (Forall_forall _ _) (comp_names _ _ _ _ Hc) _ Hr). cbn in *. lia.
    + intros r Hr. destruct (Htail r Hr); lia.
    + change (code s1) with (pre ++ enclose g cc ++ flatten cs ++ tail). by rewrite <-!app_assoc.
    + intros r Hr. apply HT in Hr. rewrite !existsb_app, !orb_true_iff in *. tauto.
    + exists (enclose g cc ++ code'), n'. split.
      * cbn [shortCircuitUses]. rewrite (bind_Ok _ _ _ _ _ E1), E.
        transitivity (Ok tt (set_fresh n' (set_code ((pre ++ enclose g cc) ++ code' ++ tail) s))); [done|].
        do 3 f_equal. by rewrite <-!app_assoc.
      * eapply converted_comp; [exact Hn1| |exact C]. exists used, fs, la. split_and!; [|done..].
        intros Hu. subst used. rewrite Es, !existsb_app, !orb_true_iff.
        rewrite existsb_app, orb_true_iff in Hu. destruct Hu as [Hu|Hu]; [tauto|].
        apply HT in Hu. change (items (CComp g sx ks :: cs)) with (items cs) in Hu.
        rewrite !existsb_app, !orb_true_iff in Hu. pose proof (items_uses (comp_last ks) cs). tauto.
Qed.
End exec.
