(* ===== verification/Simulation.v ===== *)
(** * Running converted code

    What it takes for the code that a visitor of compiler/Symbolizer.cpp adds to
    an instruction to be right: run before the instruction, it leaves the
    registers and the memory of the program alone, keeps the shadow memory in
    agreement with the memory, and the expression it registers for the result
    is null or has the result's value.  The lemmas reduce this, for a symbolic
    computation that [shortCircuitExpressionUses] has converted, to a statement
    about its library calls. *)

From S2P Require Import Prelude Smt Z3Api Interface ByteSeq BitArrays Arith SimpleBackend.
From S2P Require Import SimpleSpec PathConstraints State Shadow Memory Dispatch Symbolizer.
From S2P Require Import SymbolizerSem ShortCircuit Computations Interface.
From Stdlib Require Import SpecFloat.

#[local] Open Scope Z_scope.

Section exec.
Context {Z3I : Z3} {ZL : Z3Laws Z3I} {KC : Calls} {KI : ICalls} {FR : Frame}.
Context (DL : DataLayout) (ρ : RunInput).
Implicit Types (m : mach) (sx : gmap nat (option nat)).

(** ** Agreement *)

(** The expression registers that [l] uses are null or have the value of the
    program's variable, and the flags that [l] reads have been set. *)
Definition uses (r : nat) (l : list item) : Prop := existsb (item_uses r) l = true.

Definition agree_on sx (l : list item) m : Prop :=
  ∀ x r c, sx !! x = Some (Some r) → uses r l → cenv m !! x = Some c →
    agrees ρ m (Some r) (sem_value c).

Definition reads (f : nat) (l : list item) : Prop := ∃ d, LoadFlag d f ∈ l.

Definition flags_set (l : list item) m : Prop := ∀ f, reads f l → is_Some (flags m !! f).

Definition agree sx (l : list item) m : Prop := agree_on sx l m ∧ flags_set l m.

Lemma uses_app r l l' : uses r (l ++ l') ↔ uses r l ∨ uses r l'.
Proof. unfold uses. by rewrite existsb_app, orb_true_iff. Qed.

(** [l] mentions what [l'] mentions. *)
Definition covers (l l' : list item) : Prop :=
  (∀ r, uses r l' → uses r l) ∧ ∀ f, reads f l' → reads f l.

Lemma covers_sub l l' : l' ⊆ l → covers l l'.
Proof.
  intros Hl. split.
  - unfold uses. intros r. rewrite !existsb_exists. intros (it&Hit&Hr). exists it. split; [|done].
    apply list_elem_of_In, Hl. by apply list_elem_of_In.
  - intros f (d&Hd). exists d. by apply Hl.
Qed.

Lemma agree_sub sx l l' m : covers l l' → agree sx l m → agree sx l' m.
Proof.
  intros [Hu Hl] [A F]. split.
  - intros x r c Hx Hr. apply A; auto.
  - intros f Hf. apply F. auto.
Qed.

Lemma reads_app f l l' : reads f (l ++ l') ↔ reads f l ∨ reads f l'.
Proof.
  unfold reads. setoid_rewrite elem_of_app. split; [intros (d&[?|?]); eauto|].
  intros [(d&?)|(d&?)]; eauto.
Qed.

Lemma reads_map g f l : reads f (map_uses g <$> l) ↔ reads f l.
Proof.
  unfold reads. split; intros (d&Hd); exists d.
  - apply list_elem_of_fmap in Hd as ([]&E&Hit); try done. by injection E as -> ->.
  - by apply (list_elem_of_fmap_2 (map_uses g)) in Hd.
Qed.

Definition sx_below (n : nat) sx : Prop := ∀ x r, sx !! x = Some (Some r) → (r < n)%nat.

Lemma sym_lookup_some sx v r :
  sym_lookup sx v = Some r → ∃ t x, v = Local t x ∧ sx !! x = Some (Some r).
Proof.
  destruct v as [t x| | | | | |]; try done. cbn. intros H. exists t, x. split; [done|].
  by destruct (sx !! x) as [o|]; [f_equal|].
Qed.

Lemma sym_lookup_below n sx v : sx_below n sx → below n (sym_lookup sx v).
Proof. intros Hb r (t&x&->&Hx)%sym_lookup_some. by eapply Hb. Qed.

(** *** Flags stay set *)
Definition flags_kept m m' : Prop := ∀ f, is_Some (flags m !! f) → is_Some (flags m' !! f).

Lemma flags_kept_refl m : flags_kept m m.
Proof. by intros f. Qed.

Lemma flags_kept_trans m1 m2 m3 : flags_kept m1 m2 → flags_kept m2 m3 → flags_kept m1 m3.
Proof. intros H1 H2 f Hf. auto. Qed.

Lemma flags_set_kept l m m' : flags_kept m m' → flags_set l m → flags_set l m'.
Proof. intros H F f Hf. auto. Qed.

Definition keeps {A} (p : Prelude.M mach A) : Prop :=
  ∀ m a m', p m = Ok a m' → flags_kept m m'.

Lemma keeps_ret {A} (a : A) : keeps (ret a).
Proof. intros m b m' [= _ <-]. apply flags_kept_refl. Qed.

Lemma keeps_fail {A} (x : err) : keeps (fail (A:=A) x).
Proof. by intros m b m'. Qed.

Lemma keeps_bind {A B} (p : Prelude.M mach A) (k : A → Prelude.M mach B) :
  keeps p → (∀ a, keeps (k a)) → keeps (bind p k).
Proof.
  intros Hp Hk m b m' (a&m1&E1&E2)%bind_inv. eapply flags_kept_trans; [by eapply Hp|by eapply Hk].
Qed.

Lemma keeps_get {B} (k : mach → Prelude.M mach B) : (∀ a, keeps (k a)) → keeps (bind get k).
Proof. intros Hk. apply keeps_bind; [|done]. intros m a m' [= _ <-]. apply flags_kept_refl. Qed.

Lemma keeps_modify (g : mach → mach) : (∀ m, flags_kept m (g m)) → keeps (modify g).
Proof. intros H m [] m' [= <-]. apply H. Qed.

Lemma keeps_on_rt {A} (p : Prelude.M rt A) : keeps (on_rt p).
Proof. intros m a m'. unfold on_rt, zoom. cbn. destruct (p (rts m)); [|done]. by intros [= _ <-] f. Qed.

Lemma keeps_set_flag f b : keeps (set_flag f b).
Proof.
  apply keeps_modify. intros m f' [b' Hf]. cbn. destruct (decide (f' = f)) as [->|].
  - rewrite lookup_insert_eq. by eexists.
  - rewrite lookup_insert_ne by done. by exists b'.
Qed.

Ltac keep := repeat match goal with
  | |- keeps (ret _) => apply keeps_ret
  | |- keeps (fail _) => apply keeps_fail
  | |- keeps (on_rt _) => apply keeps_on_rt
  | |- keeps (set_flag _ _) => apply keeps_set_flag
  | |- keeps (bind get _) => apply keeps_get; intros ?
  | |- keeps (bind _ _) => apply keeps_bind; [|intros ?]
  | |- keeps (modify _) => apply keeps_modify; by intros ? ?
  | |- keeps (match ?x with _ => _ end) => destruct x
  end.

Lemma keeps_get_args l : keeps (get_args DL l).
Proof.
  induction l as [|a l IH]; [apply keeps_ret|]. apply keeps_bind; [|intros v; by keep].
  destruct a; cbn [get_arg]; unfold get_expr, get_int, get_val, get_bit; keep.
Qed.

Lemma keeps_plain i : keeps (exec_plain DL i).
Proof.
  intros m [] m'. unfold exec_plain. destruct (run_inst DL i (cenv m) (memory (rts m))) as [[e mem]|]; [|done].
  by intros [= <-] f.
Qed.

Lemma keeps_orig i : keeps (exec_orig DL i).
Proof.
  unfold exec_orig. destruct (kind i); try apply keeps_plain.
  destruct f; try apply keeps_plain. unfold exec_function_call. keep.
Qed.

Lemma keeps_item it : keeps (exec_item DL it).
Proof.
  revert it. fix IH 1. intros it.
  destruct it as [i|d g args| | | | | | | | |c on body|]; cbn [exec_item];
    unfold get_int, get_val, get_expr, get_bit, get_flag, set_reg.
  - apply keeps_orig.
  - apply keeps_bind; [apply keeps_get_args|]. intros vs. keep.
  - keep.
  - keep.
  - keep.
  - keep.
  - keep.
  - keep.
  - keep.
  - keep.
  - apply keeps_bind; [keep|]. intros b. destruct (Bool.eqb b on); [|apply keeps_ret].
    induction body as [|it body IHb]; cbn [exec_list]; [apply keeps_ret|].
    apply keeps_bind; [apply IH|]. intros _. exact IHb.
  - keep.
Qed.

Lemma keeps_code l : keeps (exec_code DL l).
Proof.
  induction l as [|it l IH]; [apply keeps_ret|]. apply keeps_bind; [apply keeps_item|]. by intros _.
Qed.

Lemma exec_keeps_flags l m (Q : unit → mach → Prop) :
  wp (exec_code DL l) m Q → wp (exec_code DL l) m (λ a m', Q a m' ∧ flags_kept m m').
Proof. intros (a&m'&E&H). exists a, m'. split_and!; [done..|by eapply keeps_code]. Qed.

(** What keeps the expressions that [sx] mentions keeps the agreement. *)
Lemma agree_kept sx n l l' m m' :
  sx_below n sx → covers l l' → cenv m' = cenv m → bext (rt_backend (rts m)) (rt_backend (rts m')) →
  flags_kept m m' → (∀ r, (r < n)%nat → regs m' !! r = regs m !! r) → agree sx l m → agree sx l' m'.
Proof.
  intros Hb Hl Ee X Hk F A. apply (agree_sub _ _ _ _ Hl) in A as [A Fl].
  split; [|by eapply flags_set_kept]. intros x r c Hx Hr Hc. rewrite Ee in Hc.
  destruct (A x r c Hx Hr Hc) as (o&Eo&Ho). exists o. split.
  - rewrite <-Eo. unfold read_expr. by rewrite F by by eapply Hb.
  - intros h Eh. eapply rep_mono; [exact X|by apply Ho].
Qed.

(** Operands that are read have the value of their expressions. *)
Lemma agree_operand sx l m v c :
  agree sx l m → (∀ r, sym_lookup sx v = Some r → uses r l) →
  eval_operand DL (cenv m) v = Some c → agreesv ρ m (sym_lookup sx v) c.
Proof.
  intros A Hu Ev. destruct (sym_lookup sx v) as [r|] eqn:E; [|apply agrees_null].
  destruct (sym_lookup_some _ _ _ E) as (t&x&->&Hx). cbn [eval_operand] in Ev.
  destruct (cenv m !! x) as [c'|] eqn:Ec; [|done].
  apply checked_some in Ev as [-> _]. by apply (proj1 A x); auto.
Qed.

Lemma syms_used sx ks v r :
  v ∈ all_syms ks → sym_lookup sx v = Some r → uses r (call_item sx <$> ks).
Proof.
  intros (k&Hv&Hk)%list_elem_of_bind E. unfold uses. apply existsb_exists.
  exists (call_item sx k). split.
  { apply list_elem_of_In. by apply list_elem_of_fmap_2. }
  cbn. apply existsb_exists. exists (AExpr (Some r)). split.
  - apply list_elem_of_In, list_elem_of_fmap. exists (Sym v). split; [cbn; by rewrite E|].
    clear -Hv. induction (rc_args k) as [|[w|p] l IH]; cbn in Hv; [by apply elem_of_nil in Hv|..].
    + apply elem_of_cons in Hv as [->|Hv]; [left|right; auto].
    + right. auto.
  - cbn. unfold uses_expr. by apply bool_decide_eq_true.
Qed.

(** ** The calls of a computation *)

(** The calls, on expressions for the values [vs], make [res]; the last one may
    have any name. *)
Definition runs (n : nat) (ks : list rcall) (vs : list cval) (res : option value) m : Prop :=
  ∀ m1 fs last1, mstep ρ (from n) m m1 → Forall2 (holdsv ρ m1) fs vs →
    (∀ f r, f ∈ fs → f = Some r → (r ∉ names ks) ∧ r ≠ last1) →
    wp (exec_code DL (rename_result (comp_last ks) last1 (fill ks fs))) m1
      (λ _ m2, mstep ρ (λ r, r ∈ names ks ∨ r = last1) m1 m2 ∧ result_ok ρ m2 last1 res).

Lemma runs_slow n sx ks vs res m :
  NoDup (names ks) → length vs = length (all_syms ks) → runs n ks vs res m →
  slow_run DL ρ n (λ r, r ∈ names ks) (inputs (comp_of ks)) (comp_last ks)
    (call_item sx <$> ks) vs res m.
Proof.
  intros ND Hl H m1 fs last1 S Hfs Hn. rewrite replace_all_fill; [by apply H|done|].
  rewrite <-Hl. by eapply Forall2_length.
Qed.

Lemma rename_result_id r l : rename_result r r l = l.
Proof.
  unfold rename_result. rewrite <-(list_fmap_id l) at 2. apply list_fmap_ext. intros i it _.
  destruct it; try done. by destruct (Nat.eqb_spec dst r) as [->|].
Qed.

(** One call, given results [prev] of the calls before it. *)
Definition call_runs (k : rcall) (prev : list (nat * value)) (vs : list cval)
    (res : option value) m : Prop :=
  ∀ m1 fs dst, cenv m1 = cenv m → memory (rts m1) = memory (rts m) → consistent ρ (rts m1) →
    Forall2 (holdsv ρ m1) fs vs →
    (∀ r v, (r, v) ∈ prev → holds ρ m1 (Some r) v) →
    wp (exec_item DL (Call dst (rc_fn k) (fill_args (rc_args k) fs))) m1
      (λ _ m2, mstep ρ (λ r, r = dst) m1 m2 ∧ result_ok ρ m2 dst res).

(** The calls [ks] without the last one: afterwards [keep] can be relied on. *)
Definition runs_before (n : nat) (ks : list rcall) (vs : list cval) (keep : list (nat * value)) m
    : Prop :=
  ∀ m1 fs, mstep ρ (from n) m m1 → Forall2 (holdsv ρ m1) fs vs →
    (∀ f r, f ∈ fs → f = Some r → r ∉ names ks) →
    wp (exec_code DL (fill ks fs)) m1 (λ _ m2, mstep ρ (λ r, r ∈ names ks) m1 m2 ∧
      ∀ r v, (r, v) ∈ keep → holds ρ m2 (Some r) v).

Lemma comp_last_snoc ks k : comp_last (ks ++ [k]) = rc_dst k.
Proof. unfold comp_last. by rewrite last_snoc. Qed.

Lemma names_snoc ks k : names (ks ++ [k]) = names ks ++ [rc_dst k].
Proof. unfold names. by rewrite fmap_app. Qed.

Lemma runs_before_nil n m : runs_before n [] [] [] m.
Proof.
  intros m1 fs S Hfs _. inversion Hfs. apply exec_nil.
  split; [by eapply mstep_refl, mstep_consistent|]. by intros r v ?%elem_of_nil.
Qed.

(** One more call after [ks], with its result in [dst]. *)
Lemma run_next n ks k vs1 vs2 keep res m m1 fs1 fs2 dst :
  runs_before n ks vs1 keep m → call_runs k keep vs2 res m → mstep ρ (from n) m m1 →
  Forall2 (holdsv ρ m1) fs1 vs1 → Forall2 (holdsv ρ m1) fs2 vs2 →
  (∀ f r, f ∈ fs1 ++ fs2 → f = Some r → r ∉ names ks) →
  wp (exec_code DL (fill ks fs1 ++ [Call dst (rc_fn k) (fill_args (rc_args k) fs2)])) m1
    (λ _ m2, mstep ρ (λ r, r ∈ names ks ∨ r = dst) m1 m2 ∧ result_ok ρ m2 dst res ∧
       ∀ r v, (r, v) ∈ keep → r ≠ dst → holds ρ m2 (Some r) v).
Proof.
  intros Hks Hk S H1 H2 Hn. apply exec_app. eapply wp_impl; [apply (Hks m1 fs1 S H1)|].
  { intros f r Hf. apply Hn. apply elem_of_app. by left. }
  intros _ m2 [S2 Hkeep]. apply exec_cons. eapply wp_impl; [apply (Hk m2 fs2 dst)|].
  - rewrite (proj1 S2). apply S.
  - destruct S2 as (_&_&E&_), S as (_&_&E'&_). congruence.
  - by eapply mstep_consistent.
  - eapply Forall2_strengthen; [exact H2|apply Forall_forall; intros f Hf; exact Hf|].
    intros f c Hc Hf. eapply holds_step; [exact S2| |exact Hc]. intros r E.
    apply (Hn f r); [|done]. apply elem_of_app. by right.
  - exact Hkeep.
  - intros _ m3 [S3 R3]. apply exec_nil. split_and!; [|done|].
    + eapply mstep_trans; [eapply mstep_weaken; [|exact S2]|eapply mstep_weaken; [|exact S3]];
        cbn; tauto.
    + intros r v Hr Hd. eapply holds_step; [exact S3| |by apply Hkeep]. by intros ? [= <-].
Qed.

Lemma runs_snoc n ks k vs1 vs2 keep res m :
  NoDup (names (ks ++ [k])) →
  length vs1 = length (all_syms ks) → length vs2 = length (syms (rc_args k)) →
  runs_before n ks vs1 keep m → call_runs k keep vs2 res m →
  runs n (ks ++ [k]) (vs1 ++ vs2) res m.
Proof.
  intros ND H1 H2 Hks Hk m1 fs last1 S Hfs Hn.
  apply Forall2_app_inv_r in Hfs as (fs1&fs2&Hfs1&Hfs2&->).
  rewrite comp_last_snoc, rename_result_snoc; [|done|
    by rewrite <-H1; eapply Forall2_length|by rewrite <-H2; eapply Forall2_length].
  rewrite names_snoc in Hn |- *. eapply wp_impl;
    [apply (run_next n ks k vs1 vs2 keep res m m1 fs1 fs2 last1); try done|].
  { intros f r Hf E. destruct (Hn f r Hf E) as [Hr _]. set_solver. }
  intros _ m2 (S2&R2&_). split; [|done]. eapply mstep_weaken; [|exact S2]. set_solver.
Qed.

Lemma runs_one n k vs res m :
  length vs = length (syms (rc_args k)) → call_runs k [] vs res m → runs n [k] vs res m.
Proof.
  intros Hl H. apply (runs_snoc n [] k [] vs [] res m); try done; [|apply runs_before_nil].
  by apply NoDup_singleton.
Qed.

Lemma runs_before_snoc n ks k vs1 vs2 keep v m :
  NoDup (names (ks ++ [k])) →
  length vs1 = length (all_syms ks) → length vs2 = length (syms (rc_args k)) →
  (∀ r u, (r, u) ∈ keep → r ≠ rc_dst k) →
  runs_before n ks vs1 keep m → call_runs k keep vs2 (Some v) m →
  runs_before n (ks ++ [k]) (vs1 ++ vs2) ((rc_dst k, v) :: keep) m.
Proof.
  intros ND H1 H2 Hd Hks Hk m1 fs S Hfs Hn.
  apply Forall2_app_inv_r in Hfs as (fs1&fs2&Hfs1&Hfs2&->).
  rewrite fill_app by (rewrite <-H1; by eapply Forall2_length). cbn [fill].
  rewrite take_ge by (rewrite <-H2; apply Forall2_length in Hfs2; lia).
  rewrite names_snoc in Hn |- *. eapply wp_impl;
    [apply (run_next n ks k vs1 vs2 keep (Some v) m m1 fs1 fs2 (rc_dst k)); try done|].
  { intros f r Hf E. specialize (Hn f r Hf E). set_solver. }
  intros _ m2 (S2&R2&Hkeep). split.
  - eapply mstep_weaken; [|exact S2]. set_solver.
  - intros r u [E|Hr]%elem_of_cons; [by simplify_eq|]. apply Hkeep; eauto.
Qed.

(** ** A converted computation *)

(** The registers that the code for an instruction may change: those that its
    visitor took and, from [n] on, those of the conversion. *)
Definition owned (lo hi n r : nat) : Prop := (lo ≤ r < hi)%nat ∨ (n ≤ r)%nat.

Lemma exec_comp tail lo hi sx ks n code n' vs res m :
  comp_ok lo hi sx ks → (hi ≤ n)%nat → comp_converted DL ρ tail sx ks n code n' →
  consistent ρ (rts m) → agree sx ((call_item sx <$> ks) ++ tail) m →
  Forall2 (λ v c, eval_operand DL (cenv m) v = Some c) (all_syms ks) vs →
  runs n ks vs res m →
  wp (exec_code DL code) m (λ _ m', mstep ρ (owned lo hi n) m m' ∧
    (uses (comp_last ks) tail →
     match res with Some v => agrees ρ m' (Some (comp_last ks)) v | None => True end)).
Proof.
  intros Hok Hn (used&fs&la&Hu&->&A) C Hag Hev Hrun.
  pose proof (comp_inputs_facts _ _ _ _ n Hok Hn) as (H1&H2&H3&first&H4&H5&H6&H7).
  destruct Hok as [ND Hin Hne Hc Hb _]. pose proof (proj1 (Forall_forall _ _) Hin) as Hin'. cbn in Hin'.
  assert (Forall2 (agreesv ρ m) (sym_lookup sx <$> all_syms ks) vs) as Hvs.
  { apply Forall2_fmap_l.
    eapply Forall2_strengthen; [exact Hev|apply Forall_forall; intros v Hv; exact Hv|].
    intros v c Ev Hv. eapply agree_operand; [exact Hag| |done]. intros r Hr.
    apply uses_app. left. exact (syms_used sx ks v r Hv Hr). }
  assert (length vs = length (all_syms ks)) as Hl by (symmetry; by eapply Forall2_length).
  eapply wp_impl; [eapply (exec_shortcut DL ρ _ _ _ _ _ (λ r, r ∈ names ks))|]; try done.
  - by apply comp_op_at.
  - by apply comp_positions_nodup.
  - intros r Hr. specialize (Hin' r Hr). lia.
  - intros o r Ho E Hr. specialize (Hin' r Hr).
    specialize (proj1 (Forall_forall _ _) Hb o Ho r E). lia.
  - by rewrite <-comp_inputs_values, Forall2_fmap_l in Hev.
  - by apply runs_slow.
  - intros _ m' [S R]. split.
    + eapply mstep_weaken; [|exact S]. unfold touched, from, owned. intros r [Hr|Hr].
      * left. by apply Hin'.
      * by right.
    + intros Hut. apply R, Hu, Hut.
Qed.

(** ** Splitting converted code *)
Lemma converted_app_inv tail n cs1 cs2 code n' :
  converted DL ρ tail n (cs1 ++ cs2) code n' →
  ∃ code1 n1 code2, code = code1 ++ code2 ∧ (n ≤ n1)%nat ∧
    converted DL ρ (flatten cs2 ++ tail) n cs1 code1 n1 ∧ converted DL ρ tail n1 cs2 code2 n'.
Proof.
  revert n code. induction cs1 as [|c cs1 IH]; intros n code H.
  { exists [], n, code. split_and!; [done..|constructor|done]. }
  inversion H as [|? it cs ? ? H'|? g sx ks cs cc n1 cr ? Hn1 Hc H']; subst.
  - apply IH in H' as (code1&n1&code2&->&?&?&?).
    exists (it :: code1), n1, code2. split_and!; [done..|by constructor|done].
  - apply IH in H' as (code1&n2&code2&->&?&?&?).
    exists (enclose g cc ++ code1), n2, code2. split_and!; [by rewrite app_assoc|lia| |done].
    econstructor; [exact Hn1| |done]. by rewrite flatten_app, <-app_assoc in Hc.
Qed.

Lemma converted_items_inv tail n l code n' :
  converted DL ρ tail n (CItem <$> l) code n' → code = l ∧ n' = n.
Proof.
  revert code. induction l as [|it l IH]; intros code H.
  - by inversion H.
  - inversion H as [|? ? ? ? ? H'|]; subst. by apply IH in H' as [-> ->].
Qed.

Lemma converted_comp_inv tail n g sx ks code n' :
  converted DL ρ tail n [CComp g sx ks] code n' →
  ∃ code1, code = enclose g code1 ∧ comp_converted DL ρ tail sx ks n code1 n'.
Proof.
  intros H. inversion H as [| |? ? ? ? ? cc n1 code2 ? Hn1 Hc H']; subst.
  inversion H'; subst. rewrite app_nil_r. by exists cc.
Qed.

(** ** Instructions *)

(** Neither an instruction of the program nor a phi node. *)
Definition plain_item (it : item) : Prop :=
  match it with Orig _ | PhiExpr _ _ => False | _ => True end.

(** The flags that new code reads have been initialised at the start of the
    function. *)
Definition initialised (l : list item) s s' : Prop :=
  ∃ ini, entry s' = ini ++ entry s ∧ Forall (λ it, ∃ f, it = StoreFlag f false) ini ∧
    ∀ f, reads f l → StoreFlag f false ∈ ini.

Definition no_reads (l : list item) : bool :=
  forallb (λ it, match it with LoadFlag _ _ => false | _ => true end) l.

Lemma no_reads_spec l f : no_reads l = true → ¬ reads f l.
Proof.
  intros H (d&Hd%list_elem_of_In). by apply (proj1 (forallb_forall _ _) H) in Hd.
Qed.

Lemma no_reads_calls sx ks : no_reads (call_item sx <$> ks) = true.
Proof. by induction ks. Qed.

Lemma initialised_same l s s' : no_reads l = true → entry s' = entry s → initialised l s s'.
Proof.
  intros H E. exists []. split_and!; [done|constructor|]. intros f Hf. by apply (no_reads_spec l f) in H.
Qed.

Lemma initialised_trans l1 l2 s s1 s2 :
  initialised l1 s s1 → initialised l2 s1 s2 → initialised (l1 ++ l2) s s2.
Proof.
  intros (i1&E1&F1&H1) (i2&E2&F2&H2). exists (i2 ++ i1). split_and!.
  - by rewrite E2, E1, app_assoc.
  - by apply Forall_app.
  - intros f (d&[Hd|Hd]%elem_of_app); apply elem_of_app; [right; apply H1|left; apply H2]; by exists d.
Qed.

(** The pass has appended the chunks [ps] to the code of [s] and, with
    [upd = Some e], mapped the instruction [x] to the expression [e]. *)
Record visited (x : nat) (s : symbolizer) (ps : list chunk) (upd : option (option nat))
    (s' : symbolizer) : Prop := {
  visited_code : code s' = code s ++ flatten ps;
  visited_uses : expressionUses s' = expressionUses s ++ comps ps;
  visited_expressions : symbolicExpressions s' =
    match upd with Some e => <[x := e]> (symbolicExpressions s) | None => symbolicExpressions s end;
  visited_phis : phiNodes s' = phiNodes s;
  visited_entry : initialised (flatten ps) s s';
  visited_chunks : chunks_ok (fresh s) ps (fresh s');
  visited_upd : ∀ r, upd = Some (Some r) → (r < fresh s')%nat;
  visited_plain : Forall plain_item (flatten ps);
}.

(** As [mstep], for code in front of an instruction that makes the memory
    [mem']: the shadow already agrees with that memory. *)
Definition mstep_to (mem' : Z → Z) (D : nat → Prop) m m' : Prop :=
  cenv m' = cenv m ∧ bext (rt_backend (rts m)) (rt_backend (rts m')) ∧
  memory (rts m') = memory (rts m) ∧ consistent ρ (set_memory mem' (rts m')) ∧
  ∀ r, ¬ D r → regs m' !! r = regs m !! r.

Lemma mstep_to_same D m m' : mstep ρ D m m' → mstep_to (memory (rts m)) D m m'.
Proof.
  intros (H1&H2&H3&H4&H5). split_and!; try done. rewrite <-H3. by rewrite set_memory_id.
Qed.

Lemma mstep_to_trans D m m1 m2 mem' :
  mstep ρ D m m1 → mstep_to mem' D m1 m2 → mstep_to mem' D m m2.
Proof.
  intros (A1&A2&A3&_&A5) (B1&B2&B3&B4&B5). split_and!; try congruence; try done.
  - by etransitivity.
  - intros r Hr. by rewrite B5, A5.
Qed.

(** The expression of a result is one that the visitor created or that of an
    operand. *)
Definition result_from (i : inst) sx (lo hi : nat) (upd : option (option nat)) : Prop :=
  ∀ r, upd = Some (Some r) → (lo ≤ r < hi)%nat ∨ ∃ v, v ∈ operands i ∧ sym_lookup sx v = Some r.

Lemma result_new i sx lo hi r : (lo ≤ r < hi)%nat → result_from i sx lo hi (Some (Some r)).
Proof. intros Hr r' [= <-]. by left. Qed.

(** The code [ps] in front of [i], without the expressions [E], converted and
    run, prepares for [i]. *)
Definition prepares (i : inst) sx (lo hi : nat) (ps : list chunk) (upd : option (option nat))
    : Prop :=
  ∀ E tail n code n' m e' mem', avoids E lo hi →
    converted DL ρ tail n (erase_chunk E <$> ps) code n' → (hi ≤ n)%nat →
    consistent ρ (rts m) → agree (erase_map E sx) (flatten (erase_chunk E <$> ps) ++ tail) m →
    run_inst DL i (cenv m) (memory (rts m)) = Some (e', mem') →
    wp (exec_code DL code) m (λ _ m1, mstep_to mem' (owned lo hi n) m m1 ∧
      ∀ r v, upd = Some (Some r) → r ∉ E → uses r tail → e' !! name i = Some v →
        agrees ρ m1 (Some r) (sem_value v)).

Lemma returned_inv i r e e' :
  returned DL i r e = Some e' →
  (type i = VoidTy ∧ r = None ∧ e' = e) ∨ ∃ v, r = Some v ∧ e' = <[name i := v]> e.
Proof.
  unfold returned. destruct (type i), r as [v|]; try done;
    try (by intros [= <-]; left); destruct (checked DL _ v) as [c|] eqn:E; try done;
    apply checked_some in E as [-> _]; intros [= <-]; right; by exists v.
Qed.

Lemma run_call_inv i f args ue e mem e' mem' :
  kind i = CallInst (FunctionCall f) args ue → run_inst DL i e mem = Some (e', mem') →
  ∃ vs r, eval_operands DL e args = Some vs ∧ call f vs mem = Some (r, mem') ∧
    returned DL i r e = Some e'.
Proof.
  unfold run_inst. intros -> H. destruct (eval_operands DL e args) as [vs|]; [|done].
  destruct (call f vs mem) as [[r m1]|] eqn:E; [|done]. exists vs, r.
  destruct (returned DL i r e) as [e1|] eqn:Er; [|done]. injection H as -> ->. by split_and!.
Qed.

(** Only the instruction's own variable changes. *)
Lemma run_inst_frame i e mem e' mem' x :
  run_inst DL i e mem = Some (e', mem') → x ≠ name i → e' !! x = e !! x.
Proof.
  intros H Hx. destruct (kind i) eqn:K; try (unfold run_inst in H; rewrite K in H; done).
  8: destruct f as [id|f|].
  9: { destruct (run_call_inv _ _ _ _ _ _ _ _ K H) as (vs&r&_&_&[(_&_&->)|(v&_&->)]%returned_inv); [done|].
       by rewrite lookup_insert_ne. }
  all: unfold run_inst in H; rewrite K in H; try done;
    repeat case_match; simplify_eq; try done; by rewrite lookup_insert_ne by congruence.
Qed.

(** What the code of instructions may change besides the program's state. *)
Definition frames (lo hi n : nat) m m' : Prop :=
  bext (rt_backend (rts m)) (rt_backend (rts m')) ∧
  ∀ r, ¬ owned lo hi n r → regs m' !! r = regs m !! r.

Lemma exec_orig_plain i : is_function_call i = false → exec_orig DL i = exec_plain DL i.
Proof. unfold exec_orig, is_function_call. destruct (kind i); try done. by destruct f. Qed.

Lemma run_inst_plain (K1 K2 : Calls) i e mem :
  is_function_call i = false → run_inst DL (KC := K1) i e mem = run_inst DL (KC := K2) i e mem.
Proof. unfold is_function_call, run_inst. destruct (kind i); try done. by destruct f. Qed.

Lemma exec_instruction E i s ps upd s' tail n code n' m e' mem' :
  is_function_call i = false → sx_below (fresh s) (symbolicExpressions s) → symbolicExpressions s !! name i = None →
  visited (name i) s ps upd s' → avoids E (fresh s) (fresh s') →
  prepares i (symbolicExpressions s) (fresh s) (fresh s') ps upd →
  converted DL ρ tail n (erase_chunk E <$> ps ++ [CItem (Orig i)]) code n' → (fresh s' ≤ n)%nat →
  consistent ρ (rts m) →
  agree (erase_map E (symbolicExpressions s))
    (flatten (erase_chunk E <$> ps ++ [CItem (Orig i)]) ++ tail) m →
  run_inst DL i (cenv m) (memory (rts m)) = Some (e', mem') →
  wp (exec_code DL code) m (λ _ m', cenv m' = e' ∧ memory (rts m') = mem' ∧
    consistent ρ (rts m') ∧ agree (erase_map E (symbolicExpressions s')) tail m' ∧
    frames (fresh s) (fresh s') n m m').
Proof.
  intros Hp Hb Hn V HE P Cv Hhi C A R. rewrite fmap_app in Cv, A. cbn [fmap list_fmap erase_chunk map_uses] in Cv, A.
  apply converted_app_inv in Cv as (code1&n1&code2&->&Hn1&Cv1&Cv2).
  apply (converted_items_inv tail n1 [Orig i]) in Cv2 as [-> ->].
  assert (∀ r, uses r ([Orig i] ++ tail) ↔ uses r tail) as Hu.
  { intros r. rewrite uses_app. unfold uses. cbn. naive_solver. }
  apply exec_app. eapply wp_impl; [apply exec_keeps_flags; eapply (P E _ _ _ _ m)|]; try done.
  { by rewrite flatten_app, <-app_assoc in A. }
  intros _ m1 [[(H1&H2&H3&H4&H5) Hupd] Hk].
  set (m2 := {| regs := regs m1; flags := flags m1; cenv := e'; rts := set_memory mem' (rts m1) |}).
  apply exec_cons. exists tt, m2. split.
  { cbn [exec_item]. rewrite exec_orig_plain by done. unfold exec_plain.
    by rewrite (run_inst_plain no_calls KC) by done; rewrite H1, H3, R. }
  apply exec_nil. split_and!; [done..| |by split].
  split.
  2: { intros fl Hfl. destruct (proj2 A fl) as [b Hb']; [|by apply (Hk fl); exists b].
       rewrite flatten_app. apply (covers_sub _ tail); [|exact Hfl]. intros it. set_solver. }
  intros x r c Hx Hr Hc. cbn in Hc. destruct V as [_ _ Esx _ _ Hch _ _].
  pose proof (chunks_ok_le _ _ _ Hch) as Hle.
  apply erase_map_lookup in Hx as [Hx HrE]. rewrite Esx in Hx.
  assert (agrees ρ m1 (Some r) (sem_value c)) as (o&Eo&Ho); [|by exists o].
  destruct (decide (x = name i)) as [->|Hne].
  - destruct upd as [e|]; [|by rewrite Hn in Hx]. rewrite lookup_insert_eq in Hx. injection Hx as ->.
    apply Hupd; [done|done|by apply Hu|done].
  - assert (symbolicExpressions s !! x = Some (Some r)) as Hx'.
    { destruct upd; [by rewrite lookup_insert_ne in Hx|done]. }
    rewrite (run_inst_frame _ _ _ _ _ _ R Hne) in Hc.
    destruct (proj1 A x r c) as (o&Eo&Ho); [by apply erase_map_lookup| |done|].
    { rewrite flatten_app, <-app_assoc. apply uses_app. right. by apply Hu. }
    exists o. split.
    + rewrite <-Eo. unfold read_expr. rewrite H5; [done|]. specialize (Hb _ _ Hx'). unfold owned. lia.
    + intros h Eh. eapply rep_mono; [exact H2|by apply Ho].
Qed.
(** ** The contract of called functions *)

(** The parameter slots are null or have the values of the arguments. *)
Definition parameters_ok (vs : list cval) (t : rt) : Prop :=
  ∀ j c h, vs !! j = Some c → g_function_arguments t !! j = Some (Some h) →
    rep ρ (rt_backend t) h (sem_value c).

(** What the code around a call relies on: the called function keeps the shadow
    in agreement with memory, and when the return slot was null, it is null or
    has the returned value afterwards. *)
Class CalleesOk : Prop := callees_ok : ∀ f vs t r mem',
  call f vs (memory t) = Some (r, mem') → consistent ρ t → parameters_ok vs t →
  (length vs ≤ 256)%nat →
  wp (icall f vs) t (λ r' t', r' = r ∧ memory t' = mem' ∧ consistent ρ t' ∧
    bext (rt_backend t) (rt_backend t') ∧
    ∀ c h, g_return_value t = None → r = Some c → g_return_value t' = Some h →
      rep ρ (rt_backend t') h (sem_value c)).
End exec.

(** No functions are called. *)
Definition no_icalls `{Z3I : Z3} : ICalls := λ _ _, fail (Undefined "call").

(** Nothing is kept on the stack. *)
Definition no_frame : Frame := λ _, None.

Lemma no_callees `{ZL : Z3Laws} ρ : CalleesOk ρ (KC := no_calls) (KI := no_icalls).
Proof. by intros f vs t r mem'. Qed.

Arguments frames {_ _ _} _ _ _ _ _.
