(* ===== verification/Phi.v ===== *)
(** * Phi nodes for expressions

    What [visitPHINode] of compiler/Symbolizer.cpp generates and what
    [finalizePHINodes] makes of it: each phi node of an expression gets the
    expressions of the incoming values, unless all of them are null; then it is
    removed and its uses are replaced by null. *)

From S2P Require Import Prelude Smt Z3Api SimpleBackend State Memory Dispatch Symbolizer.
From S2P Require Import SymbolizerSem Cfg ShortCircuit Computations Simulation.

#[local] Open Scope Z_scope.

(** ** What the visitor generates *)
Definition incoming_of (i : inst) : list (operand * nat) :=
  match kind i with PHINode l => l | _ => [] end.

(** The code of the phi nodes [phis], where [mk n i] is put in front of [i]. *)
Fixpoint phi_code (mk : nat → inst → list item) (n : nat) (phis : list inst) : list item :=
  match phis with
  | [] => []
  | i :: phis' => mk n i ++ Orig i :: phi_code mk (S n) phis'
  end.

Definition unfinished (n : nat) (i : inst) : list item :=
  [PhiExpr n ((λ p, (None, p.2)) <$> incoming_of i)].

Definition finished (sx : gmap nat (option nat)) (E : gset nat) (n : nat) (i : inst) : list item :=
  if decide (n ∈ E) then []
  else [PhiExpr n ((λ p, (erase E (sym_lookup sx p.1), p.2)) <$> incoming_of i)].

Fixpoint phi_map (n : nat) (phis : list inst) (sx : gmap nat (option nat)) : gmap nat (option nat) :=
  match phis with
  | [] => sx
  | i :: phis' => phi_map (S n) phis' (<[name i := Some n]> sx)
  end.

Definition phi_records (phis : list inst) : list phi_record :=
  (λ i, {| phi_name := name i; phi_incoming := incoming_of i |}) <$> phis.

Definition after_phis (phis : list inst) (s : symbolizer) : symbolizer :=
  set_phis (phiNodes s ++ phi_records phis)
    (set_expressions (phi_map (fresh s) phis (symbolicExpressions s))
      (upd_code (phi_code unfinished (fresh s) phis) (fresh s + length phis) s)).

Lemma visit_phis_run DL ha phis s :
  forallb is_phi_inst phis = true → visit_all DL ha phis s = Ok tt (after_phis phis s).
Proof.
  revert s. induction phis as [|i phis IH]; intros s.
  { intros _. unfold after_phis, upd_code. cbn. rewrite !app_nil_r, Nat.add_0_r. by destruct s. }
  cbn [forallb]. intros [Hi Hphis]%andb_prop. cbn [visit_all].
  unfold is_phi_inst in Hi. destruct (kind i) eqn:K; try done.
  assert (visit DL ha i s = Ok tt (after_phis [i] s)) as E.
  { unfold visit. rewrite K. unfold visit_before, visitPHINode, after_phis, upd_code. rewrite K. cbn.
    unfold incoming_of, emit, modify, set_code, set_fresh, set_phis, set_expressions.
    rewrite K, Nat.add_1_r. cbn. by rewrite <-app_assoc. }
  rewrite (bind_Ok _ _ _ _ _ E), IH by done. f_equal. unfold after_phis, upd_code. cbn.
  rewrite <-!app_assoc. cbn. rewrite Nat.add_1_r, Nat.add_succ_r. by destruct s.
Qed.

(** ** [finalizePHINodes] on single items *)
Definition not_phi (it : item) : Prop := match it with PhiExpr _ _ => False | _ => True end.

Lemma plain_not_phi it : plain_item it → not_phi it.
Proof. by destruct it. Qed.

Lemma map_uses_comp f g it : map_uses f (map_uses g it) = map_uses (λ e, f (g e)) it.
Proof.
  revert it. fix IH 1. intros it.
  destruct it as [|d h args| |d inc| | | | | | |c on body|]; try reflexivity; cbn.
  - f_equal. rewrite <-list_fmap_compose. apply list_fmap_ext. intros _ [] _; reflexivity.
  - f_equal. rewrite <-list_fmap_compose. apply list_fmap_ext. intros _ [] _; reflexivity.
  - f_equal. induction body as [|it body IHb]; [reflexivity|]. cbn. by rewrite IH, IHb.
Qed.

Lemma map_uses_ext f g it : (∀ e, f e = g e) → map_uses f it = map_uses g it.
Proof.
  intros H. revert it. fix IH 1. intros it.
  destruct it as [|d h args|d c t e|d inc|d e|d e| | | | |c on body|d c t e]; try reflexivity; cbn.
  - f_equal. apply list_fmap_ext. intros _ [] _; cbn; by rewrite ?H.
  - by rewrite !H.
  - f_equal. apply list_fmap_ext. intros _ [] _; cbn; by rewrite ?H.
  - by rewrite H.
  - by rewrite H.
  - f_equal. induction body as [|it body IHb]; [reflexivity|]. cbn. by rewrite IH, IHb.
  - by rewrite !H.
Qed.

Lemma map_uses_not_phi f it : not_phi it → not_phi (map_uses f it).
Proof. by destruct it. Qed.

(** Replacing expressions one after the other. *)
Definition erase_one (d : nat) (e : option nat) : option nat :=
  if decide (e = Some d) then None else e.

Fixpoint erase_list (l : list nat) (e : option nat) : option nat :=
  match l with [] => e | d :: l' => erase_list l' (erase_one d e) end.

Lemma erase_list_set l e : erase_list l e = erase (list_to_set l) e.
Proof.
  revert e. induction l as [|d l IH]; intros e; cbn [erase_list].
  - destruct e as [r|]; [|done]. cbn. by rewrite decide_False by set_solver.
  - rewrite IH. unfold erase_one. destruct e as [r|]; [|done].
    case_decide as Hd; cbn; [simplify_eq; by rewrite decide_True by set_solver|].
    destruct (decide (r ∈ list_to_set (C := gset nat) l)); case_decide; set_solver.
Qed.

Definition erase_code (d : nat) (c : list item) : list item :=
  filter (λ it, is_phi d it = false) (map_uses (erase_one d) <$> c).

Fixpoint erase_codes (l : list nat) (c : list item) : list item :=
  match l with [] => c | d :: l' => erase_codes l' (erase_code d c) end.

Lemma erase_codes_app l c1 c2 : erase_codes l (c1 ++ c2) = erase_codes l c1 ++ erase_codes l c2.
Proof.
  revert c1 c2. induction l as [|d l IH]; intros c1 c2; [done|]. cbn [erase_codes].
  unfold erase_code. by rewrite fmap_app, filter_app, IH.
Qed.

Lemma erase_codes_nil l : erase_codes l [] = [].
Proof. by induction l. Qed.

Lemma erase_codes_item l it :
  not_phi it → erase_codes l [it] = [map_uses (erase (list_to_set l)) it].
Proof.
  intros H. assert (erase_codes l [it] = [map_uses (erase_list l) it]) as ->.
  2: { f_equal. apply map_uses_ext, erase_list_set. }
  revert it H. induction l as [|d l IH]; intros it H; cbn [erase_codes].
  - f_equal. rewrite <-(map_uses_comp id id). clear H. revert it.
    enough (∀ it, map_uses id it = it) as Hid by (intros it; unfold id; rewrite map_uses_comp; symmetry; apply Hid).
    fix IH 1. intros it.
    destruct it as [|d h args| |d inc| | | | | | |c on body|]; try reflexivity; cbn.
    + f_equal. rewrite <-(list_fmap_id args) at 2. apply list_fmap_ext. intros _ [] _; reflexivity.
    + f_equal. rewrite <-(list_fmap_id inc) at 2. apply list_fmap_ext. intros _ [] _; reflexivity.
    + f_equal. induction body as [|it body IHb]; [reflexivity|]. cbn. by rewrite IH, IHb.
  - unfold erase_code. cbn [fmap list_fmap]. rewrite filter_cons, filter_nil.
    rewrite decide_True by by destruct it. rewrite IH by by apply map_uses_not_phi.
    by rewrite map_uses_comp.
Qed.

Lemma erase_codes_phi l d (inc : list (option nat * nat)) :
  erase_codes l [PhiExpr d inc] =
    if decide (d ∈ l) then [] else [PhiExpr d ((λ p, (erase (list_to_set l) p.1, p.2)) <$> inc)].
Proof.
  assert (erase_codes l [PhiExpr d inc] =
    if decide (d ∈ l) then [] else [PhiExpr d ((λ p, (erase_list l p.1, p.2)) <$> inc)]) as ->.
  2: { case_decide; [done|]. do 2 f_equal. apply list_fmap_ext. intros _ p _. by rewrite erase_list_set. }
  revert inc. induction l as [|d' l IH]; intros inc; cbn [erase_codes].
  - rewrite decide_False by apply not_elem_of_nil. do 2 f_equal.
    rewrite <-(list_fmap_id inc) at 1. apply list_fmap_ext. by intros _ [] _.
  - unfold erase_code. cbn [fmap list_fmap map_uses]. rewrite filter_cons, filter_nil. cbn [is_phi].
    destruct (decide (d = d')) as [->|Hd].
    + rewrite bool_decide_eq_true_2, decide_False by done. rewrite erase_codes_nil.
      by rewrite decide_True by left.
    + rewrite bool_decide_eq_false_2, decide_True by done. rewrite IH.
      destruct (decide (d ∈ l)) as [Hl|Hl].
      * by rewrite decide_True by by right.
      * rewrite decide_False by (by intros [?|?]%elem_of_cons). do 2 f_equal.
        rewrite <-list_fmap_compose. apply list_fmap_ext. by intros _ [] _.
Qed.

(** ** [finalizePHINodes] *)
Section finalize.
(** The expressions of variables, and the phi nodes with their names. *)
Context (sx : gmap nat (option nat)) (ps : list (nat * phi_record)).

Definition all_null (inc : list (operand * nat)) : bool :=
  forallb (λ i, bool_decide (sym_lookup sx i.1 = None)) inc.

Definition incoming_exprs (inc : list (operand * nat)) : list (option nat * nat) :=
  (λ i, (sym_lookup sx i.1, i.2)) <$> inc.

Definition erased_in (l : list (nat * phi_record)) : list nat :=
  (filter (λ p, all_null (phi_incoming p.2) = true) l).*1.

Fixpoint set_all (l : list (nat * phi_record)) (it : item) : item :=
  match l with
  | [] => it
  | p :: l' =>
      set_all l' (if all_null (phi_incoming p.2) then it
                  else set_incoming p.1 (incoming_exprs (phi_incoming p.2)) it)
  end.

Definition names_ok (l : list (nat * phi_record)) : Prop :=
  Forall (λ p, sx !! phi_name p.2 = Some (Some p.1)) l.

Lemma finalize_incoming_run l (s : symbolizer) :
  symbolicExpressions s = sx → names_ok l →
  finalize_incoming l.*2 s = Ok (erased_in l) (set_code (set_all l <$> code s) s).
Proof.
  revert s. induction l as [|[d p] l IH]; intros s Es Hl.
  { cbn. unfold ret. f_equal. rewrite list_fmap_id. by destruct s. }
  apply Forall_cons in Hl as [Hp Hl]. cbn in Hp. cbn [fmap list_fmap finalize_incoming snd].
  unfold bind at 1, get. rewrite Es, Hp. cbn [mjoin option_join].
  assert (forallb (λ i, bool_decide (getSymbolicExpression s i.1 = None)) (phi_incoming p) =
    all_null (phi_incoming p)) as ->.
  { unfold all_null. clear -Es. induction (phi_incoming p) as [|i l IH]; [done|]. cbn.
    by rewrite IH, getSymbolicExpression_lookup, Es. }
  unfold erased_in. rewrite filter_cons. cbn [snd].
  destruct (all_null (phi_incoming p)) eqn:Hn.
  - rewrite (bind_Ok _ _ _ _ _ (IH s Es Hl)). cbn [set_all snd]. by rewrite Hn.
  - unfold bind, modify. cbn [decide]. rewrite (IH (set_code _ s) Es Hl). cbn [decide set_all snd fst].
    rewrite Hn. f_equal. unfold set_code. cbn. f_equal. rewrite <-list_fmap_compose.
    apply list_fmap_ext. intros _ it _. cbn. do 2 f_equal. unfold incoming_exprs.
    apply list_fmap_ext. intros _ i _. unfold getSymbolicExpressionOrNull.
    by rewrite getSymbolicExpression_lookup, Es.
Qed.

Lemma erase_phis_run l (s : symbolizer) :
  erase_phis l s = Ok tt (set_code (erase_codes l (code s)) s).
Proof.
  revert s. induction l as [|d l IH]; intros s; [by destruct s|].
  cbn [erase_phis erase_codes]. unfold bind, erase_phi, modify. by rewrite IH.
Qed.

Definition erased : gset nat := list_to_set (erased_in ps).

Definition finalized (c : list item) : list item :=
  erase_codes (erased_in ps) (set_all ps <$> c).

Lemma finalize_run (s : symbolizer) :
  symbolicExpressions s = sx → names_ok ps → phiNodes s = ps.*2 →
  finalizePHINodes s = Ok tt (set_expressions ∅ (set_code (finalized (code s)) s)).
Proof.
  intros Es Hok Ep. unfold finalizePHINodes, bind at 1, get. rewrite Ep.
  rewrite (bind_Ok _ _ _ _ _ (finalize_incoming_run ps s Es Hok)).
  by rewrite (bind_Ok _ _ _ _ _ (erase_phis_run _ _)).
Qed.

Lemma finalized_app c1 c2 : finalized (c1 ++ c2) = finalized c1 ++ finalized c2.
Proof. unfold finalized. by rewrite fmap_app, erase_codes_app. Qed.

Lemma set_all_not_phi l it : not_phi it → set_all l it = it.
Proof.
  revert it. induction l as [|p l IH]; intros it H; [done|]. cbn [set_all].
  destruct (all_null _); [by apply IH|]. replace (set_incoming _ _ it) with it by by destruct it.
  by apply IH.
Qed.

Lemma finalized_plain c : Forall not_phi c → finalized c = map_uses (erase erased) <$> c.
Proof.
  induction 1 as [|it c Hit _ IH]; [apply erase_codes_nil|].
  change (it :: c) with ([it] ++ c). rewrite finalized_app, IH. unfold finalized at 1. cbn [fmap list_fmap].
  by rewrite set_all_not_phi, erase_codes_item.
Qed.

Lemma set_all_other l d inc : d ∉ l.*1 → set_all l (PhiExpr d inc) = PhiExpr d inc.
Proof.
  induction l as [|p l IH]; [done|]. cbn. intros [Hd Hl]%not_elem_of_cons.
  rewrite decide_False by congruence. destruct (all_null _); by apply IH.
Qed.

Lemma set_all_phi l d p inc :
  NoDup l.*1 → (d, p) ∈ l →
  set_all l (PhiExpr d inc) =
    PhiExpr d (if all_null (phi_incoming p) then inc else incoming_exprs (phi_incoming p)).
Proof.
  revert inc. induction l as [|q l IH]; intros inc; [by intros _ ?%elem_of_nil|]. cbn.
  intros [Hq ND]%NoDup_cons [<-|Hp]%elem_of_cons.
  - cbn in *. rewrite decide_True by done. destruct (all_null _); by apply set_all_other.
  - assert (q.1 ≠ d) as Hd.
    { intros E. apply Hq. rewrite E. apply (list_elem_of_fmap_2 fst _ _ Hp). }
    rewrite decide_False by done. destruct (all_null (phi_incoming q.2)); by apply IH.
Qed.

Lemma fst_functional {A} (l : list (nat * A)) d x y :
  NoDup l.*1 → (d, x) ∈ l → (d, y) ∈ l → x = y.
Proof.
  intros ND (i&Hi)%list_elem_of_lookup (j&Hj)%list_elem_of_lookup.
  assert (i = j) as ->; [|congruence].
  apply (NoDup_lookup _ i j d ND); by rewrite list_lookup_fmap, ?Hi, ?Hj.
Qed.

Lemma erased_elem d p : NoDup ps.*1 → (d, p) ∈ ps → d ∈ erased_in ps ↔ all_null (phi_incoming p) = true.
Proof.
  intros ND Hp. unfold erased_in. rewrite list_elem_of_fmap. split.
  - intros ([d' p']&E&[Hn Hp']%list_elem_of_filter). cbn in *. subst d'.
    by rewrite (fst_functional ps d p p' ND Hp Hp').
  - intros Hn. exists (d, p). split; [done|]. by apply list_elem_of_filter.
Qed.

Definition numbered (n : nat) (phis : list inst) : list (nat * phi_record) :=
  zip (seq n (length phis)) (phi_records phis).

Lemma finalized_phis n phis :
  NoDup ps.*1 → (∀ p, p ∈ numbered n phis → p ∈ ps) →
  finalized (phi_code unfinished n phis) = phi_code (finished sx erased) n phis.
Proof.
  intros ND. revert n. induction phis as [|i phis IH]; intros n Hp; [apply erase_codes_nil|].
  assert ((n, {| phi_name := name i; phi_incoming := incoming_of i |}) ∈ ps) as Hi by (apply Hp; by left).
  cbn [phi_code]. change (Orig i :: ?l) with ([Orig i] ++ l). rewrite !finalized_app, IH.
  2: { intros p H. apply Hp. by right. }
  rewrite (finalized_plain [Orig i]) by by repeat constructor. f_equal.
  unfold finalized, unfinished. cbn [fmap list_fmap].
  rewrite (set_all_phi _ _ _ _ ND Hi), erase_codes_phi. cbn [phi_incoming].
  pose proof (erased_elem _ _ ND Hi) as He. cbn [phi_incoming] in He. unfold finished, erased.
  destruct (decide (n ∈ erased_in ps)) as [Hin|Hin].
  - by rewrite decide_True by by apply elem_of_list_to_set.
  - rewrite decide_False by by rewrite elem_of_list_to_set.
    rewrite He in Hin. destruct (all_null _); [done|]. do 2 f_equal. unfold incoming_exprs.
    by rewrite <-list_fmap_compose.
Qed.

Lemma erased_sub r : r ∈ erased → r ∈ ps.*1.
Proof.
  unfold erased, erased_in. rewrite elem_of_list_to_set, !list_elem_of_fmap.
  intros (p&->&[_ Hp]%list_elem_of_filter). by exists p.
Qed.
End finalize.
