(* ===== verification/Visitors.v ===== *)
(** * The visitors: common cases

    What is to be shown of a [visit*] function of compiler/Symbolizer.cpp: it
    succeeds, what it appends is a list of well-formed computations and items,
    and their converted code prepares for the instruction as required by
    Simulation.v.  The lemmas cover the ways in which visitors generate code:
    nothing, the expression of an operand, one or several calls of builders. *)

From S2P Require Import Prelude Smt Z3Api Interface ByteSeq BitArrays Arith SimpleBackend.
From S2P Require Import SimpleSpec PathConstraints State Shadow Memory Dispatch Symbolizer.
From S2P Require Import SymbolizerSem ShortCircuit Computations Simulation Interface.
From Stdlib Require Import SpecFloat.

#[local] Open Scope Z_scope.

Section visitors.
Context {Z3I : Z3} {ZL : Z3Laws Z3I} {KC : Calls} {KI : ICalls} {FR : Frame}.
Context (DL : DataLayout) (ρ : RunInput) (Hptr : ptrBits DL = 64) (host_address : nat → Z).
Implicit Types (m : mach) (sx : gmap nat (option nat)) (s : symbolizer).

(** What is to be shown of an instruction. *)
Definition handled (i : inst) s : Prop :=
  ∃ ps upd s', visit_before DL host_address i s = Ok tt s' ∧
    visited (name i) s ps upd s' ∧
    result_from i (symbolicExpressions s) (fresh s) (fresh s') upd ∧
    prepares DL ρ i (symbolicExpressions s) (fresh s) (fresh s') ps upd.

(** ** Generic cases *)
Lemma visited_refl x s : visited x s [] None s.
Proof. split; rewrite ?app_nil_r; try done. by apply initialised_same. Qed.

Lemma visited_trans x s ps s1 qs upd s2 :
  visited x s ps None s1 → visited x s1 qs upd s2 → visited x s (ps ++ qs) upd s2.
Proof.
  intros [A1 A2 A3 A4 A5 A6 _ A8] [B1 B2 B3 B4 B5 B6 B7 B8]. split; try congruence.
  - by rewrite B1, A1, flatten_app, app_assoc.
  - by rewrite B2, A2, comps_app, app_assoc.
  - by rewrite B3, A3.
  - rewrite flatten_app. by eapply initialised_trans.
  - by eapply chunks_ok_app.
  - exact B7.
  - rewrite flatten_app. by apply Forall_app.
Qed.

Lemma visited_set_ID x n s : visited x s [] None (set_ID n s).
Proof. split; cbn; rewrite ?app_nil_r; try done. by apply initialised_same. Qed.

Lemma visited_item x it n s :
  within (fresh s) n (call_names it) → (fresh s ≤ n)%nat → plain_item it → no_reads [it] = true →
  visited x s [CItem it] None (upd_code [it] n s).
Proof.
  intros H Hn Hp Hr. split; cbn; rewrite ?app_nil_r; try done;
    [by apply initialised_same|by exists n|by constructor].
Qed.

Definition set_result (i : inst) (e : option nat) s : symbolizer :=
  set_expressions (<[name i := e]> (symbolicExpressions s)) s.

Lemma visited_result i e s :
  (∀ r, e = Some r → (r < fresh s)%nat) → visited (name i) s [] (Some e) (set_result i e s).
Proof.
  intros H. split; cbn; rewrite ?app_nil_r; try done; [by apply initialised_same|].
  intros r [= ->]. auto.
Qed.

Lemma handled_nothing i s :
  visit_before DL host_address i s = Ok tt s →
  (∀ e mem e' mem', run_inst DL i e mem = Some (e', mem') → mem' = mem) → handled i s.
Proof.
  intros E Hmem. exists [], None, s. split_and!; [done|apply visited_refl|done|].
  intros E' tail n code n' m e' mem' _ Cv _ C _ R. inversion Cv; subst.
  rewrite (Hmem _ _ _ _ R). apply exec_nil. split; [|done]. by apply mstep_to_same, mstep_refl.
Qed.

(** The result has the expression of an operand. *)
Lemma handled_alias i v s :
  v ∈ operands i → sx_below (fresh s) (symbolicExpressions s) →
  visit_before DL host_address i s =
    Ok tt (set_result i (sym_lookup (symbolicExpressions s) v) s) →
  (∀ e mem e' mem', run_inst DL i e mem = Some (e', mem') → mem' = mem ∧
     ∃ c, eval_operand DL e v = Some c ∧
       ∀ c', e' !! name i = Some c' → sem_value c' = sem_value c) →
  handled i s.
Proof.
  intros Hv Hb E Hrun.
  set (e := sym_lookup (symbolicExpressions s) v) in *. exists [], (Some e), (set_result i e s).
  split_and!; [done| |intros r [= Er]; right; by exists v|].
  - apply visited_result. intros r Hr. by eapply sym_lookup_below.
  - intros E' tail n code n' m e' mem' _ Cv _ C A R. inversion Cv; subst.
    destruct (Hrun _ _ _ _ R) as (->&c&Ec&Hc). apply exec_nil.
    split; [by apply mstep_to_same, mstep_refl|]. intros r w [= Hr] HrE Hu Hw.
    rewrite (Hc _ Hw), <-(erase_some E' r HrE), <-Hr. subst e. rewrite <-sym_lookup_erase.
    apply (agree_operand DL ρ (erase_map E' (symbolicExpressions s)) ([] ++ tail)); [exact A| |exact Ec].
    intros r' Hr'. rewrite sym_lookup_erase, Hr, erase_some in Hr' by done. by injection Hr' as <-.
Qed.

(** A single computation. *)
Lemma prepares_comp i sx lo hi ks upd :
  comp_ok lo hi sx ks →
  (∀ r, upd = Some (Some r) → r = comp_last ks) →
  (∀ m e' mem', consistent ρ (rts m) →
     run_inst DL i (cenv m) (memory (rts m)) = Some (e', mem') →
     mem' = memory (rts m) ∧ ∃ vs res,
       Forall2 (λ v c, eval_operand DL (cenv m) v = Some c) (all_syms ks) vs ∧
       (∀ n, runs DL ρ n ks vs res m) ∧
       (upd ≠ None → ∀ v, e' !! name i = Some v → res = Some (sem_value v))) →
  prepares DL ρ i sx lo hi [CComp None sx ks] upd.
Proof.
  intros Hok Hlast H E tail n code n' m e' mem' HE Cv Hn C A R.
  apply converted_comp_inv in Cv as (code1&->&Cv). destruct (H m e' mem' C R) as (->&vs&res&Hev&Hrun&Hres).
  eapply wp_impl; [eapply (exec_comp DL ρ tail lo hi (erase_map E sx) ks n code1 n' vs res m)|]; try done.
  { by apply comp_ok_erase. }
  { unfold flatten in A. cbn in A. by rewrite app_nil_r in A. }
  intros _ m1 [S1 R1]. split; [by apply mstep_to_same|].
  intros r v Hu _ Huse Hv. rewrite (Hlast _ Hu) in Huse |- *. specialize (R1 Huse).
  rewrite (Hres ltac:(by rewrite Hu) v Hv) in R1. exact R1.
Qed.

(** Registration of a computation. *)
Definition registered (i : option inst) (ks : list rcall) s : symbolizer :=
  set_uses (expressionUses s ++ [comp_of ks])
    (match i with Some i => set_result i (Some (comp_last ks)) s | None => s end).

Lemma register_comp i ks s :
  ks ≠ [] → registerSymbolicComputation (comp_of ks) i s = Ok tt (registered i ks s).
Proof.
  intros Hne. unfold registerSymbolicComputation, registered, set_expression.
  assert (lastInstruction (comp_of ks) = Some (comp_last ks)) as E.
  { apply last_is_Some in Hne as [k Hk]. unfold comp_last. cbn. by rewrite Hk. }
  rewrite E. by destruct i.
Qed.

Lemma visited_comp i ks n s :
  comp_ok (fresh s) n (symbolicExpressions s) ks →
  visited (name i) s [CComp None (symbolicExpressions s) ks] (Some (Some (comp_last ks)))
    (registered (Some i) ks (upd_code (call_item (symbolicExpressions s) <$> ks) n s)).
Proof.
  intros Hok. pose proof (comp_inputs_facts _ _ _ _ n Hok ltac:(done)) as (_&_&_&f&_&_&_&Hin).
  pose proof (proj1 (Forall_forall _ _) (comp_names _ _ _ _ Hok) _ Hin) as Hl. cbn in Hl.
  split; cbn; rewrite ?app_nil_r; try done.
  - apply initialised_same; [apply no_reads_calls|done].
  - exists n. split_and!; [lia|done..].
  - intros r [= <-]. lia.
  - by apply Forall_fmap, Forall_forall.
Qed.

Lemma visited_comp_only x ks n s :
  comp_ok (fresh s) n (symbolicExpressions s) ks →
  visited x s [CComp None (symbolicExpressions s) ks] None
    (registered None ks (upd_code (call_item (symbolicExpressions s) <$> ks) n s)).
Proof.
  intros Hok. pose proof (comp_inputs_facts _ _ _ _ n Hok ltac:(done)) as (_&_&_&f&_&_&_&Hin).
  pose proof (proj1 (Forall_forall _ _) (comp_names _ _ _ _ Hok) _ Hin) as Hl. cbn in Hl.
  split; cbn; rewrite ?app_nil_r; try done.
  - apply initialised_same; [apply no_reads_calls|done].
  - exists n. split_and!; [lia|done..].
  - by apply Forall_fmap, Forall_forall.
Qed.

(** The case of an instruction that gets one computation. *)
Lemma handled_comp i ks n s :
  comp_ok (fresh s) n (symbolicExpressions s) ks →
  visit_before DL host_address i s =
    Ok tt (registered (Some i) ks (upd_code (call_item (symbolicExpressions s) <$> ks) n s)) →
  (∀ m e' mem', consistent ρ (rts m) →
     run_inst DL i (cenv m) (memory (rts m)) = Some (e', mem') →
     mem' = memory (rts m) ∧ ∃ vs v, e' !! name i = Some v ∧
       Forall2 (λ v c, eval_operand DL (cenv m) v = Some c) (all_syms ks) vs ∧
       ∀ n, runs DL ρ n ks vs (Some (sem_value v)) m) →
  handled i s.
Proof.
  intros Hok E Hrun. eexists _, _, _. split_and!; [exact E|by apply visited_comp| |].
  { pose proof (comp_inputs_facts _ _ _ _ n Hok ltac:(done)) as (_&_&_&f&_&_&_&Hin).
    apply result_new. exact (proj1 (Forall_forall _ _) (comp_names _ _ _ _ Hok) _ Hin). }
  apply prepares_comp; [done|by intros r [= <-]|].
  intros m e' mem' C R. destruct (Hrun m e' mem' C R) as (->&vs&v&Ev&Hvs&Hcall).
  split; [done|]. exists vs, (Some (sem_value v)). split_and!; [done..|].
  intros _ v' Ev'. congruence.
Qed.

(** *** A single call *)
Definition one_call s f args : rcall := {| rc_dst := fresh s; rc_fn := f; rc_args := args |}.

Definition simple_arg (prev : list (nat * value)) (a : call_arg) : Prop :=
  match a with
  | Sym _ | Plain (AInt _) => True
  | Plain (AExpr e) => ∃ r, e = Some r ∧ r ∈ prev.*1
  | _ => False
  end.

(** Arguments other than inputs that are not expressions. *)
Definition no_exprs (args : list call_arg) : Prop :=
  Forall (λ a, ∀ r, a ≠ Plain (AExpr (Some r))) args.

Lemma no_exprs_within lo hi args : no_exprs args → plain_within lo hi args.
Proof. intros H. eapply Forall_impl; [exact H|]. intros a Ha r E. by destruct (Ha r). Qed.

Lemma simple_within prev lo hi args :
  Forall (simple_arg prev) args → Forall (λ r, lo ≤ r < hi)%nat prev.*1 → plain_within lo hi args.
Proof.
  intros H Hp. eapply Forall_impl; [exact H|]. intros a Ha r ->.
  destruct Ha as (r'&[= <-]&Hr). by apply (proj1 (Forall_forall _ _) Hp).
Qed.

Lemma simple_no_exprs args : Forall (simple_arg []) args → no_exprs args.
Proof. intros H. eapply Forall_impl; [exact H|]. by intros a Ha r ->; destruct Ha as (?&_&?%elem_of_nil). Qed.

Lemma one_call_ok s f args :
  sx_below (fresh s) (symbolicExpressions s) → syms args ≠ [] → no_exprs args →
  Forall (λ v, creatable (getType v) = true) (syms args) →
  comp_ok (fresh s) (S (fresh s)) (symbolicExpressions s) [one_call s f args].
Proof.
  intros Hb Hne Hp Hc.
  assert (all_syms [one_call s f args] = syms args) as E by (cbn; by rewrite app_nil_r).
  split; rewrite ?E; try done.
  - by apply NoDup_singleton.
  - repeat constructor.
  - apply Forall_fmap, Forall_forall. intros v _. by apply sym_lookup_below.
  - constructor; [by apply no_exprs_within|constructor].
Qed.

Lemma handled_call i f args s :
  sx_below (fresh s) (symbolicExpressions s) → syms args ≠ [] → no_exprs args →
  Forall (λ v, creatable (getType v) = true) (syms args) →
  visit_before DL host_address i s =
    (c <- buildRuntimeCall f args ;; registerOptional c (Some i)) s →
  (∀ m e' mem' d, consistent ρ (rts m) →
     run_inst DL i (cenv m) (memory (rts m)) = Some (e', mem') →
     mem' = memory (rts m) ∧ ∃ vs v, e' !! name i = Some v ∧
       Forall2 (λ v c, eval_operand DL (cenv m) v = Some c) (syms args) vs ∧
       call_runs DL ρ {| rc_dst := d; rc_fn := f; rc_args := args |} [] vs
         (Some (sem_value v)) m) →
  (∀ e mem e' mem', run_inst DL i e mem = Some (e', mem') → mem' = mem) →
  handled i s.
Proof.
  intros Hb Hne Hp Hc E Hrun Hmem. pose proof (one_call_ok s f args Hb Hne Hp Hc) as Hok.
  assert (all_syms [one_call s f args] = syms args) as Es by (cbn; by rewrite app_nil_r).
  pose proof (build_call f args s) as Eb. unfold bind in E. rewrite Eb in E.
  destruct (all_concrete (symbolicExpressions s) args).
  - by apply handled_nothing.
  - cbn [registerOptional] in E.
    change (comp_of _) with (comp_of [one_call s f args]) in E.
    rewrite register_comp in E by done.
    eapply (handled_comp i [one_call s f args]); [exact Hok|exact E|].
    intros m e' mem' C R. destruct (Hrun m e' mem' (fresh s) C R) as (->&vs&v&Ev&Hvs&Hcall).
    split; [done|]. exists vs, v. rewrite Es. split_and!; [done..|].
    intros n. apply runs_one; [|exact Hcall]. symmetry. by eapply Forall2_length.
Qed.


(** *** Calls of builders *)

(** The arguments of a call when the inputs are [hs] and the results of the
    previous calls are [p]. *)
Fixpoint arg_values (args : list call_arg) (hs : list ast) (p : nat → option ast) : list argv :=
  match args with
  | [] => []
  | Sym _ :: args' =>
      match hs with h :: hs' => VExpr (Some h) :: arg_values args' hs' p | [] => [] end
  | Plain (AInt z) :: args' => VInt z :: arg_values args' hs p
  | Plain (AExpr (Some r)) :: args' => VExpr (p r) :: arg_values args' hs p
  | Plain _ :: args' => VExpr None :: arg_values args' hs p
  end.

Definition reps (st : @bstate simple_backend) (hs : list ast) (vs : list cval) : Prop :=
  Forall2 (λ h c, rep ρ st h (sem_value c)) hs vs.

Lemma holds_reps m fs vs :
  Forall2 (holdsv ρ m) fs vs → ∃ hs,
    Forall2 (λ f h, read_expr f m = Some (Some h)) fs hs ∧ reps (rt_backend (rts m)) hs vs.
Proof.
  induction 1 as [|f v fs vs (h&E&R) _ (hs&H1&H2)]; [by exists []; split; constructor|].
  exists (h :: hs). split; by constructor.
Qed.

Lemma fill_args_values m args fs hs prev p :
  Forall (simple_arg prev) args → length fs = length (syms args) →
  Forall2 (λ f h, read_expr f m = Some (Some h)) fs hs →
  (∀ r, r ∈ prev.*1 → read_expr (Some r) m = Some (p r)) →
  Forall2 (arg_is DL m) (fill_args args fs) (arg_values args hs p).
Proof.
  intros Ha. revert fs hs. induction Ha as [|a args Ha _ IH]; intros fs hs Hl Hf Hp; [constructor|].
  destruct a as [v|a].
  - inversion Hf as [|f h fs' hs' Ef Hf']; subst; [done|]. injection Hl as Hl.
    constructor; [by apply arg_expr|by apply IH].
  - destruct a; try done; cbn in Ha |- *.
    + destruct Ha as (r&->&Hr). constructor; [by apply arg_expr, Hp|by apply IH].
    + constructor; [apply arg_int|by apply IH].
Qed.

Lemma call_runs_builder d f args prev vs v m :
  Forall (simple_arg prev) args → length vs = length (syms args) →
  (∀ (st : @bstate simple_backend) hs p, binv st → reps st hs vs →
     (∀ r u, (r, u) ∈ prev → ∃ h, p r = Some h ∧ rep ρ st h u) →
     ∃ b, rt_call f (arg_values args hs p) = backend b ∧ builds ρ b st v) →
  call_runs DL ρ {| rc_dst := d; rc_fn := f; rc_args := args |} prev vs (Some v) m.
Proof.
  intros Ha Hl H m1 fs dst _ _ C Hfs Hprev. cbn [rc_fn rc_args].
  destruct (holds_reps _ _ _ Hfs) as (hs&Hr&Hhs).
  set (p := λ r, match read_expr (Some r) m1 with Some e => e | None => None end).
  assert (∀ r u, (r, u) ∈ prev → ∃ h, read_expr (Some r) m1 = Some (Some h) ∧
    p r = Some h ∧ rep ρ (rt_backend (rts m1)) h u) as Hp.
  { intros r u Hru. destruct (Hprev r u Hru) as (h&Eh&Hh). exists h. unfold p. by rewrite Eh. }
  destruct (H (rt_backend (rts m1)) hs p) as (b&Eb&Bb); [apply C|done| |].
  { intros r u Hru. destruct (Hp r u Hru) as (h&_&?&?). by exists h. }
  cbn [result_ok]. eapply exec_builder; [done|done| |exact Eb|exact Bb].
  eapply fill_args_values; [done| |done|].
  - rewrite (Forall2_length _ _ _ Hfs). done.
  - intros r ([r' u]&->&Hru)%list_elem_of_fmap. destruct (Hp r' u Hru) as (h&E1&E2&_).
    cbn. rewrite E2. exact E1.
Qed.

(** The case of an instruction whose result is that of one builder call on some
    of its operands. *)
Lemma handled_builder i f args s :
  sx_below (fresh s) (symbolicExpressions s) → syms args ≠ [] →
  Forall (λ v, creatable (getType v) = true) (syms args) → Forall (simple_arg []) args →
  visit_before DL host_address i s =
    (c <- buildRuntimeCall f args ;; registerOptional c (Some i)) s →
  (∀ e mem e' mem', run_inst DL i e mem = Some (e', mem') →
     mem' = mem ∧ ∃ vs v, e' !! name i = Some v ∧
       Forall2 (λ v c, eval_operand DL e v = Some c) (syms args) vs ∧
       ∀ (st : @bstate simple_backend) hs, binv st → reps st hs vs →
         ∃ b, rt_call f (arg_values args hs (λ _, None)) = backend b ∧ builds ρ b st (sem_value v)) →
  handled i s.
Proof.
  intros Hb Hne Hc Ha E Hrun.
  eapply handled_call; [done|done|by apply simple_no_exprs|done|exact E| |].
  - intros m e' mem' d C R. destruct (Hrun _ _ _ _ R) as (->&vs&v&Ev&Hvs&Hcall).
    split; [done|]. exists vs, v. split_and!; [done..|].
    apply call_runs_builder; [done|symmetry; by eapply Forall2_length|].
    intros st hs p I Hr _. assert (arg_values args hs p = arg_values args hs (λ _, None)) as Ep.
    { clear -Ha. revert hs. induction Ha as [|a args Ha _ IH]; intros hs; [done|].
      destruct a as [v|[]]; try done; cbn; [destruct hs; [done|]|destruct Ha as (?&_&?%elem_of_nil)|];
        done || by rewrite IH. }
    rewrite Ep. by apply Hcall.
  - intros e mem e' mem' R. by destruct (Hrun _ _ _ _ R).
Qed.

Lemma reps_1 st hs u : reps st hs [u] → ∃ a, hs = [a] ∧ rep ρ st a (sem_value u).
Proof. intros (a&?&?&->%Forall2_nil_inv_r&->)%Forall2_cons_inv_r. by exists a. Qed.

Lemma reps_2 st hs u v : reps st hs [u; v] →
  ∃ a b, hs = [a; b] ∧ rep ρ st a (sem_value u) ∧ rep ρ st b (sem_value v).
Proof.
  intros (a&l&?&(b&->&?)%reps_1&->)%Forall2_cons_inv_r. by exists a, b.
Qed.
End visitors.
