(* ===== verification/VisitScalar.v ===== *)
(** * The visitors of instructions with a result

    The [visit*] functions of compiler/Symbolizer.cpp for arithmetic,
    comparisons, casts and address calculations. *)

From S2P Require Import Prelude Smt Z3Api Interface ByteSeq BitArrays Arith SimpleBackend.
From S2P Require Import SimpleSpec State Shadow Memory Dispatch Symbolizer SymbolizerSem.
From S2P Require Import ShortCircuit Computations Simulation Visitors Interface.
From Stdlib Require Import SpecFloat.

#[local] Open Scope Z_scope.

Section visitors.
Context {Z3I : Z3} {ZL : Z3Laws Z3I} {KC : Calls} {KI : ICalls} {FR : Frame}.
Context (DL : DataLayout) (ρ : RunInput) (Hptr : ptrBits DL = 64) (host_address : nat → Z).
Implicit Types (m : mach) (sx : gmap nat (option nat)) (s : symbolizer).

#[local] Abbreviation handled := (handled DL ρ host_address).

(** ** Instructions with a result *)
Lemma def_some i (o : option cval) (e : gmap nat cval) (mem : Z → Z) e' mem' :
  (match o with
   | Some v => match checked DL (type i) v with
               | Some v => Some (<[name i := v]> e, mem) | None => None end
   | None => None
   end) = Some (e', mem') →
  ∃ v, o = Some v ∧ has_type DL v (type i) = true ∧ mem' = mem ∧ e' !! name i = Some v.
Proof.
  destruct o as [v|]; [|done]. destruct (checked DL (type i) v) as [u|] eqn:E; [|done].
  apply checked_some in E as [-> ?]. intros [= <- <-]. exists v. by rewrite lookup_insert_eq.
Qed.

Lemma eval_int e v w z :
  eval_operand DL e v = Some (CInt w z) → 0 < w ∧ 0 ≤ z < 2 ^ w ∧
    (getType v = IntTy w ∨ getType v = PointerTy ∧ w = 64).
Proof.
  intros Ev. pose proof (typed_value DL Hptr _ _ (eval_operand_type DL _ _ _ Ev)) as T.
  destruct (getType v) as [w'|d| | | |] eqn:Et; try done.
  - destruct T as (z'&[= -> ->]&?&?). auto.
  - by destruct T as (f&?&_).
  - destruct T as (z'&[= -> ->]&?). auto with lia.
Qed.

Lemma eval_fp e v d f : eval_operand DL e v = Some (CFP d f) → getType v = FloatTy d.
Proof.
  intros Ev. pose proof (typed_value DL Hptr _ _ (eval_operand_type DL _ _ _ Ev)) as T.
  destruct (getType v) as [w'|d'| | | |] eqn:Et; try done.
  - by destruct T as (z'&?&_).
  - destruct T as (f'&[= -> ->]&_). done.
  - by destruct T as (z'&?&_).
Qed.

Lemma int1_cases {A} (t : ty) (x y : A) :
  (match t with IntTy 1 => x | _ => y end) = x ∧ t = IntTy 1 ∨
  (match t with IntTy 1 => x | _ => y end) = y ∧ t ≠ IntTy 1.
Proof.
  destruct t as [[|[p|p|]|p]| | | | |]; (left; split; [done..|]) || right; done.
Qed.

(** *** [visitBinaryOperator] *)
Lemma binary_builds op a b e v st hs u1 u2 (h : handler_fn) :
  eval_operand DL e a = Some u1 → eval_operand DL e b = Some u2 →
  (match u1, u2 with
   | CInt w x, CInt w' y => if w =? w' then CInt w <$> int_binary op w x y else None
   | CFP d x, CFP d' y => if Bool.eqb d d' then CFP d <$> float_binary op d x y else None
   | _, _ => None
   end) = Some v →
  binv st → reps ρ st hs [u1; u2] →
  getType a = IntTy 1 ∧ binary_handler true op = Some h ∨
    getType a ≠ IntTy 1 ∧ h = binaryOperatorHandlers op →
  ∃ h1 h2, hs = [h1; h2] ∧ builds ρ (h (Some h1) (Some h2)) st (sem_value v).
Proof.
  intros E1 E2 Ev I (h1&h2&->&[_ R1]&[_ R2])%(reps_2 ρ) Hh. exists h1, h2. split; [done|].
  pose proof (proj1 I). apply builds_makes; [done|]. destruct u1 as [w x|d x], u2 as [w' y|d' y]; try done.
  - destruct (Z.eqb_spec w w') as [<-|]; [|done].
    destruct (int_binary op w x y) as [r|] eqn:Er; [|done]. injection Ev as <-.
    destruct (eval_int _ _ _ _ E1) as (?&?&T), (eval_int _ _ _ _ E2) as (_&?&_).
    apply (binary_handler_makes ρ op h w x y r h1 h2 st); try done.
    destruct Hh as [[Ht Hh]|[Ht Hh]].
    + rewrite Ht in T. by destruct T as [[= <-]|[? _]].
    + unfold binary_handler. destruct (Z.eqb_spec w 1) as [->|]; [|by rewrite Hh].
      by destruct T as [?|[_ ?]].
  - destruct (Bool.eqb d d') eqn:Ed; [|done]. apply Bool.eqb_prop in Ed as <-.
    destruct (float_binary op d x y) as [r|] eqn:Er; [|done]. injection Ev as <-.
    rewrite (eval_fp _ _ _ _ E1) in Hh. destruct Hh as [[? _]|[_ ->]]; [done|].
    by apply (float_binary_makes ρ op d x y r h1 h2 st).
Qed.

Definition bool_op (op : binary_opcode) : bool :=
  match op with And | Or | Xor => true | _ => false end.

Lemma handled_binary i op a b s :
  kind i = BinaryOperator op a b → sx_below (fresh s) (symbolicExpressions s) →
  creatable (getType a) = true → creatable (getType b) = true →
  (getType a = IntTy 1 → bool_op op = true) → handled i s.
Proof.
  intros K Hb Ca Cb Hop.
  assert (∃ f, visit_before DL host_address i s =
      (c <- buildRuntimeCall f [Sym a; Sym b] ;; registerOptional c (Some i)) s ∧
    ∃ h, (∀ x y, rt_call f [VExpr x; VExpr y] = backend (h x y)) ∧
      (getType a = IntTy 1 ∧ binary_handler true op = Some h ∨
       getType a ≠ IntTy 1 ∧ h = binaryOperatorHandlers op)) as (f&E&h&Eh&Hh).
  { unfold visit_before. rewrite K. unfold visitBinaryOperator.
    destruct (int1_cases (getType a)
      (match op with And => ret buildBoolAnd | Or => ret buildBoolOr | Xor => ret buildBoolXor
       | _ => fail (Undefined "Unknown Boolean operator") end)
      (ret (binaryOperatorHandler op) : Prelude.M symbolizer SymFn)) as [[-> Ht]|[-> Ht]].
    - specialize (Hop Ht). destruct op; try done; (eexists; split; [reflexivity|]);
        (eexists; split; [done|]); by left.
    - exists (binaryOperatorHandler op). split; [done|]. exists (binaryOperatorHandlers op).
      split; [done|by right]. }
  apply (handled_builder DL ρ host_address i f [Sym a; Sym b]); [done|done|by repeat constructor|by repeat constructor|exact E|].
  intros e mem e' mem' R. unfold run_inst in R. rewrite K in R.
  apply def_some in R as (v&Ev&_&->&Ee'). split; [done|].
  destruct (eval_operand DL e a) as [u1|] eqn:E1; [|done].
  destruct (eval_operand DL e b) as [u2|] eqn:E2; [|by destruct u1].
  exists [u1; u2], v. split_and!; [done|by repeat constructor|].
  intros st hs I Hr. destruct (binary_builds op a b e v st hs u1 u2 h) as (h1&h2&->&Hbld); try done.
  eexists. split; [apply Eh|exact Hbld].
Qed.

(** *** [visitCmpInst] *)
Definition comparison_ok (p : predicate) (t : ty) : bool :=
  match t with
  | IntTy w => negb (w =? 1) || match p with ICMP_EQ | ICMP_NE => true | _ => false end
  | FloatTy _ => match p with FCMP_ONE => false | _ => true end
  | _ => true
  end.

Lemma compare_builds p a b e (v : cval) st hs u1 u2 :
  eval_operand DL e a = Some u1 → eval_operand DL e b = Some u2 →
  (match u1, u2 with
   | CInt w x, CInt w' y =>
       if w =? w' then (λ r : bool, CInt 1 (if r then 1 else 0)) <$> int_compare p w x y else None
   | CFP d x, CFP d' y =>
       if Bool.eqb d d' then (λ r : bool, CInt 1 (if r then 1 else 0)) <$> float_compare p x y
       else None
   | _, _ => None
   end) = Some v →
  comparison_ok p (getType a) = true → binv st → reps ρ st hs [u1; u2] →
  ∃ h1 h2, hs = [h1; h2] ∧ builds ρ (comparisonHandlers p (Some h1) (Some h2)) st (sem_value v).
Proof.
  intros E1 E2 Ev Hok I (h1&h2&->&[_ R1]&[_ R2])%(reps_2 ρ). exists h1, h2. split; [done|].
  pose proof (proj1 I). apply builds_makes; [done|]. destruct u1 as [w x|d x], u2 as [w' y|d' y]; try done.
  - destruct (Z.eqb_spec w w') as [<-|]; [|done].
    destruct (int_compare p w x y) as [r|] eqn:Er; [|done]. injection Ev as <-.
    destruct (eval_int _ _ _ _ E1) as (?&?&T), (eval_int _ _ _ _ E2) as (_&?&_).
    assert (sem_value (CInt 1 (if r then 1 else 0)) = VBool r) as -> by by destruct r.
    apply (int_compare_makes ρ p w x y r h1 h2 st); try done.
    intros ->. destruct T as [T|[_ ?]]; [|done]. rewrite T in Hok. cbn in Hok.
    destruct p; try done; rewrite !elem_of_cons; tauto.
  - destruct (Bool.eqb d d') eqn:Ed; [|done]. apply Bool.eqb_prop in Ed as <-.
    destruct (float_compare p x y) as [r|] eqn:Er; [|done]. injection Ev as <-.
    assert (sem_value (CInt 1 (if r then 1 else 0)) = VBool r) as -> by by destruct r.
    rewrite (eval_fp _ _ _ _ E1) in Hok.
    apply (float_compare_makes ρ p d x y r h1 h2 st); try done. by intros ->.
Qed.

Lemma handled_cmp i p a b s :
  kind i = CmpInst p a b → sx_below (fresh s) (symbolicExpressions s) →
  creatable (getType a) = true → creatable (getType b) = true →
  comparison_ok p (getType a) = true → handled i s.
Proof.
  intros K Hb Ca Cb Hok.
  apply (handled_builder DL ρ host_address i (comparisonHandler p) [Sym a; Sym b]);
    [done|done|by repeat constructor|by repeat constructor| |].
  { unfold visit_before. by rewrite K. }
  intros e mem e' mem' R. unfold run_inst in R. rewrite K in R.
  apply def_some in R as (v&Ev&_&->&Ee'). split; [done|].
  destruct (eval_operand DL e a) as [u1|] eqn:E1; [|done].
  destruct (eval_operand DL e b) as [u2|] eqn:E2; [|by destruct u1].
  exists [u1; u2], v. split_and!; [done|by repeat constructor|].
  intros st hs I Hr. destruct (compare_builds p a b e v st hs u1 u2) as (h1&h2&->&Hbld); try done.
  by eexists.
Qed.

(** *** Instructions with one operand *)
Lemma handled_unary i f a extra s :
  sx_below (fresh s) (symbolicExpressions s) → creatable (getType a) = true →
  visit_before DL host_address i s =
    (c <- buildRuntimeCall f (Sym a :: ((λ z, Plain (AInt z)) <$> extra)) ;;
     registerOptional c (Some i)) s →
  (∀ e mem e' mem', run_inst DL i e mem = Some (e', mem') →
     mem' = mem ∧ ∃ u v, e' !! name i = Some v ∧ eval_operand DL e a = Some u ∧
       ∀ (st : @bstate simple_backend) h, binv st → rep ρ st h (sem_value u) →
         ∃ b, rt_call f (VExpr (Some h) :: (VInt <$> extra)) = backend b ∧
              builds ρ b st (sem_value v)) →
  handled i s.
Proof.
  intros Hb Ca E Hrun.
  assert (∀ l, syms ((λ z, Plain (AInt z)) <$> l) = [] ∧
    ∀ hs, arg_values ((λ z, Plain (AInt z)) <$> l) hs (λ _, None) = VInt <$> l) as Hl.
  { induction l as [|z l [IH1 IH2]]; cbn; [done|]. split; [done|]. intros hs. by rewrite IH2. }
  destruct (Hl extra) as [L1 L2].
  eapply handled_builder; [|..|exact E|]; cbn [syms]; rewrite ?L1; try done.
  - by repeat constructor.
  - constructor; [done|]. apply Forall_fmap, Forall_forall. done.
  - intros e mem e' mem' R. destruct (Hrun _ _ _ _ R) as (->&u&v&Ev&Eu&Hbld). split; [done|].
    exists [u], v. split_and!; [done|by repeat constructor|].
    intros st hs I (h&->&Hh)%(reps_1 ρ). cbn [arg_values]. rewrite L2. by apply Hbld.
Qed.

Lemma fneg_builds st h d x :
  binv st → rep ρ st h (VFP d x) → builds ρ (sym_build_fp_neg (Some h)) st (VFP d (SFopp x)).
Proof.
  intros I [_ Hh]. pose proof (proj1 I). apply builds_makes, (reg_call_makes ρ Fpa_neg [h]); [done..|]. cbn. by rewrite Hh.
Qed.

Lemma handled_fneg i a s :
  kind i = FNeg a → sx_below (fresh s) (symbolicExpressions s) → creatable (getType a) = true →
  handled i s.
Proof.
  intros K Hb Ca. apply (handled_unary i unaryOperatorHandler_FNeg a []); [done..| |].
  { unfold visit_before. by rewrite K. }
  intros e mem e' mem' R. unfold run_inst in R. rewrite K in R.
  apply def_some in R as (v&Ev&_&->&Ee'). split; [done|].
  destruct (eval_operand DL e a) as [[|d x]|] eqn:E1; try done. injection Ev as <-.
  do 2 eexists. split_and!; [done..|]. intros st h I Hh. eexists. split; [done|]. by apply fneg_builds.
Qed.

(** A conversion to a floating-point format. *)
Lemma with_fsort_builds d op st h u r :
  binv st → rep ρ st h u → smt_denote op [u] = Some r →
  builds ρ (with_fsort d (reg_call op [Some h])) st r.
Proof.
  intros I [_ Hh] Hr. pose proof (proj1 I). apply builds_makes, post_makes; [done..|].
  apply post_bracket; [done|by apply owing_nil|]. intros s1 O1.
  apply (post_reg_call ρ op [h]); [done|]. cbn. by rewrite Hh.
Qed.

Lemma handled_int_to_fp i a (sg : bool) s :
  kind i = (if sg then SIToFPInst a else UIToFPInst a) →
  sx_below (fresh s) (symbolicExpressions s) → creatable (getType a) = true →
  getType a ≠ IntTy 1 → handled i s.
Proof.
  intros K Hb Ca Ht.
  apply (handled_unary i buildIntToFloat a [if is_double (type i) then 1 else 0; if sg then 1 else 0]);
    [done..| |].
  { unfold visit_before. rewrite K. by destruct sg. }
  intros e mem e' mem' R. unfold run_inst in R.
  assert (∃ w z d, eval_operand DL e a = Some (CInt w z) ∧ type i = FloatTy d ∧ mem' = mem ∧
    e' !! name i = Some (CFP d (fp_of_Z d (if sg then sgn w z else z)))) as (w&z&d&Ea&Et&->&Ee).
  { destruct sg; rewrite K in R; apply def_some in R as (v&Ev&_&->&Ee');
      destruct (eval_operand DL e a) as [[w z|]|]; try done; destruct (type i) as [|d| | | |]; try done;
      injection Ev as <-; eauto 10. }
  split; [done|]. do 2 eexists. split_and!; [done..|]. intros st h I Hh.
  eexists. split; [done|]. rewrite Et. cbn [is_double]. rewrite !z_bool_bit.
  destruct (eval_int _ _ _ _ Ea) as (?&?&T). assert (w ≠ 1) as Hw.
  { intros ->. by destruct T as [T|[_ ?]]. }
  cbn [sem_value] in *. unfold llvm_value in Hh. rewrite (proj2 (Z.eqb_neq _ _) Hw) in Hh.
  destruct sg; (eapply with_fsort_builds; [done|exact Hh|done]).
Qed.

Lemma handled_fp_to_fp i a s :
  kind i = FPExtInst a ∨ kind i = FPTruncInst a →
  sx_below (fresh s) (symbolicExpressions s) → creatable (getType a) = true → handled i s.
Proof.
  intros K Hb Ca.
  apply (handled_unary i buildFloatToFloat a [if is_double (type i) then 1 else 0]); [done..| |].
  { unfold visit_before. by destruct K as [-> | ->]. }
  intros e mem e' mem' R. unfold run_inst in R.
  assert (∃ d0 x d, eval_operand DL e a = Some (CFP d0 x) ∧ type i = FloatTy d ∧ mem' = mem ∧
    e' !! name i = Some (CFP d (fp_convert d x))) as (d0&x&d&Ea&Et&->&Ee).
  { destruct K as [K|K]; rewrite K in R; apply def_some in R as (v&Ev&_&->&Ee');
      destruct (eval_operand DL e a) as [[|d0 x]|]; try done; destruct (type i) as [|d| | | |]; try done;
      injection Ev as <-; eauto 10. }
  split; [done|]. do 2 eexists. split_and!; [done..|]. intros st h I Hh.
  eexists. split; [done|]. rewrite Et. cbn [is_double]. rewrite z_bool_bit.
  eapply with_fsort_builds; [done|exact Hh|done].
Qed.

(** *** Instructions whose result has the expression of the operand *)
Lemma copy_expression_run i a s :
  copy_expression i a s =
    match sym_lookup (symbolicExpressions s) a with
    | Some e => Ok tt (set_result i (Some e) s)
    | None => Ok tt s
    end.
Proof.
  unfold copy_expression, bind, get. rewrite getSymbolicExpression_lookup.
  by destruct (sym_lookup _ a).
Qed.

Lemma handled_copy i a s :
  a ∈ operands i → sx_below (fresh s) (symbolicExpressions s) →
  visit_before DL host_address i s = copy_expression i a s →
  (∀ e mem e' mem', run_inst DL i e mem = Some (e', mem') → mem' = mem ∧
     ∃ c, eval_operand DL e a = Some c ∧
       ∀ c', e' !! name i = Some c' → sem_value c' = sem_value c) →
  handled i s.
Proof.
  intros Ha Hb E Hrun. rewrite copy_expression_run in E.
  destruct (sym_lookup (symbolicExpressions s) a) as [r|] eqn:Er.
  - apply (handled_alias DL ρ host_address i a); [done|done|by rewrite Er|done].
  - apply handled_nothing; [done|]. intros ???? R. by destruct (Hrun _ _ _ _ R).
Qed.

Lemma handled_bitcast i a s :
  kind i = BitCastInst a → sx_below (fresh s) (symbolicExpressions s) →
  getType a = PointerTy → type i = PointerTy → handled i s.
Proof.
  intros K Hb Ta Ti. apply (handled_copy i a); [unfold operands; rewrite K; by left|done| |].
  { unfold visit_before. rewrite K. unfold visitBitCastInst. by rewrite Ta, Ti. }
  intros e mem e' mem' R. unfold run_inst in R. rewrite K in R.
  apply def_some in R as (v&Ev&_&->&Ee'). split; [done|].
  destruct (eval_operand DL e a) as [[w z|]|]; try done. injection Ev as <-.
  eexists. split; [done|]. intros c'. rewrite Ee'. by intros [= <-].
Qed.

(** Conversions between pointers and integers of their width. *)
Lemma handled_ptr_int i a s :
  kind i = IntToPtrInst a ∨ kind i = PtrToIntInst a ∧ type i = IntTy 64 →
  sx_below (fresh s) (symbolicExpressions s) →
  getType a = IntTy 64 ∨ getType a = PointerTy → handled i s.
Proof.
  intros K Hb Ta. apply (handled_copy i a); [|done| |].
  { unfold operands. destruct K as [->|[-> _]]; by left. }
  { unfold visit_before. by destruct K as [->|[-> _]]. }
  intros e mem e' mem' R. unfold run_inst in R.
  assert (∃ z, eval_operand DL e a = Some (CInt 64 z) ∧ mem' = mem ∧
    e' !! name i = Some (CInt 64 z)) as (z&Ea&->&Ee).
  { assert (∀ w z, eval_operand DL e a = Some (CInt w z) → w = 64 ∧ 0 ≤ z < 2 ^ 64) as Hv.
    { intros w z Ea. destruct (eval_int _ _ _ _ Ea) as (?&?&T).
      destruct Ta as [Ta|Ta]; rewrite Ta in T; destruct T as [[= <-]|[? ->]]; done. }
    destruct K as [K|[K Ti]]; rewrite K in R; apply def_some in R as (v&Ev&_&->&Ee').
    - destruct (eval_operand DL e a) as [[w z|]|]; try done.
      destruct (Hv _ _ eq_refl) as [-> ?]. rewrite Hptr, wrap_small in Ev by done.
      injection Ev as <-. eauto.
    - rewrite Ti in Ev. destruct (eval_operand DL e a) as [[w z|]|]; try done.
      destruct (Hv _ _ eq_refl) as [-> ?]. rewrite wrap_small in Ev by done.
      injection Ev as <-. eauto. }
  split; [done|]. eexists. split; [done|]. intros c'. rewrite Ee. by intros [= <-].
Qed.

(** ** [visitTruncInst] *)

(** A computation of two calls, the second on the result of the first. *)
Lemma two_calls_ok s f1 args1 f2 args2 :
  let n := fresh s in
  sx_below n (symbolicExpressions s) → syms args1 ≠ [] →
  Forall (λ v, creatable (getType v) = true) (syms args1) → syms args2 = [] →
  Forall (simple_arg []) args1 → Forall (λ a, ∃ v : value, simple_arg [(n, v)] a) args2 →
  comp_ok n (S (S n)) (symbolicExpressions s)
    [{| rc_dst := n; rc_fn := f1; rc_args := args1 |};
     {| rc_dst := S n; rc_fn := f2; rc_args := args2 |}].
Proof.
  intros n Hb Hne Hc H2 P1 P2.
  assert (all_syms [{| rc_dst := n; rc_fn := f1; rc_args := args1 |};
     {| rc_dst := S n; rc_fn := f2; rc_args := args2 |}] = syms args1) as E.
  { cbn. by rewrite H2, app_nil_r. }
  split; rewrite ?E; try done.
  - apply NoDup_cons. split; [|by apply NoDup_singleton].
    intros E1%list_elem_of_singleton. cbn in E1. lia.
  - repeat constructor; cbn; lia.
  - apply Forall_fmap, Forall_forall. intros v _. by apply sym_lookup_below.
  - constructor; [by eapply simple_within|]. constructor; [|done].
    eapply Forall_impl; [exact P2|]. intros a (v&Ha) r ->. destruct Ha as (r'&[= <-]&Hr).
    apply list_elem_of_singleton in Hr. cbn in Hr. lia.
Qed.

Lemma runs_two n d1 d2 f1 args1 f2 args2 vs u res m :
  d1 ≠ d2 → length vs = length (syms args1) → syms args2 = [] →
  call_runs DL ρ {| rc_dst := d1; rc_fn := f1; rc_args := args1 |} [] vs (Some u) m →
  call_runs DL ρ {| rc_dst := d2; rc_fn := f2; rc_args := args2 |} [(d1, u)] [] res m →
  runs DL ρ n [{| rc_dst := d1; rc_fn := f1; rc_args := args1 |};
          {| rc_dst := d2; rc_fn := f2; rc_args := args2 |}] vs res m.
Proof.
  intros Hd Hl H2 C1 C2. rewrite <-(app_nil_r vs).
  apply (runs_snoc DL ρ n [{| rc_dst := d1; rc_fn := f1; rc_args := args1 |}] _ vs [] [(d1, u)]).
  - cbn. apply NoDup_cons. split; [|by apply NoDup_singleton].
    by intros E1%list_elem_of_singleton.
  - cbn. by rewrite app_nil_r.
  - cbn [rc_args]. by rewrite H2.
  - apply (runs_before_snoc DL ρ n [] {| rc_dst := d1; rc_fn := f1; rc_args := args1 |} [] vs []);
      try done; [by apply NoDup_singleton|by intros r u0 ?%elem_of_nil|apply runs_before_nil].
  - exact C2.
Qed.

(** Two calls on one operand [a]. *)
Lemma handled_two i a f1 z f2 ex s :
  sx_below (fresh s) (symbolicExpressions s) → creatable (getType a) = true →
  visit_before DL host_address i s = (
    c <- forceBuildRuntimeCall f1 (Sym a :: ((λ z, Plain (AInt z)) <$> z)) ;;
    let computation := merge empty_computation c in
    c <- forceBuildRuntimeCall f2
      (Plain (AExpr (lastInstruction computation)) :: ((λ z, Plain (AInt z)) <$> ex)) ;;
    registerSymbolicComputation (merge computation c) (Some i)) s →
  (∀ e mem e' mem', run_inst DL i e mem = Some (e', mem') →
     mem' = mem ∧ ∃ u w v, e' !! name i = Some v ∧ eval_operand DL e a = Some u ∧
       (∀ (st : @bstate simple_backend) h, binv st → rep ρ st h (sem_value u) →
         ∃ b, rt_call f1 (VExpr (Some h) :: (VInt <$> z)) = backend b ∧ builds ρ b st w) ∧
       (∀ (st : @bstate simple_backend) h, binv st → rep ρ st h w →
         ∃ b, rt_call f2 (VExpr (Some h) :: (VInt <$> ex)) = backend b ∧
              builds ρ b st (sem_value v))) →
  handled i s.
Proof.
  intros Hb Ca E Hrun.
  assert (∀ l hs p, syms ((λ z, Plain (AInt z)) <$> l) = [] ∧
    arg_values ((λ z, Plain (AInt z)) <$> l) hs p = VInt <$> l) as Hl.
  { intros l hs p. induction l as [|x l [IH1 IH2]]; cbn; [done|]. split; [done|]. by rewrite IH2. }
  assert (∀ prev l, Forall (simple_arg prev) ((λ z, Plain (AInt z)) <$> l)) as Hs.
  { intros prev l. by apply Forall_fmap, Forall_forall. }
  set (args1 := Sym a :: ((λ z, Plain (AInt z)) <$> z)) in *.
  set (args2 := Plain (AExpr (Some (fresh s))) :: ((λ z, Plain (AInt z)) <$> ex)) in *.
  assert (syms args1 = [a]) as S1 by (cbn; by rewrite (proj1 (Hl z [] (λ _, None)))).
  assert (syms args2 = []) as S2 by (cbn; by rewrite (proj1 (Hl ex [] (λ _, None)))).
  eapply (handled_comp DL ρ host_address i
    [{| rc_dst := fresh s; rc_fn := f1; rc_args := args1 |};
     {| rc_dst := S (fresh s); rc_fn := f2; rc_args := args2 |}] (S (S (fresh s)))).
  - apply two_calls_ok; [done|by rewrite S1|rewrite S1; by repeat constructor|done| |].
    + by constructor.
    + constructor; [exists (VBool true), (fresh s); by split; [|left]|].
      apply Forall_fmap, Forall_forall. intros x _. by exists (VBool true).
  - rewrite E. rewrite (bind_Ok _ _ _ _ _ (force_build f1 args1 s)).
    set (k1 := {| rc_dst := fresh s |}). set (s1 := upd_code _ _ s).
    change (lastInstruction (merge empty_computation (comp_of [k1]))) with (Some (fresh s)).
    fold args2. pose proof (force_build f2 args2 s1) as E2. cbv zeta in E2.
    rewrite (bind_Ok _ _ _ _ _ E2). subst s1. rewrite upd_code_app.
    change (merge empty_computation (comp_of [k1])) with (comp_of [k1]).
    rewrite merge_comp_of. by rewrite register_comp.
  - intros m e' mem' C R. destruct (Hrun _ _ _ _ R) as (->&u&w&v&Ev&Eu&B1&B2). split; [done|].
    exists [u], v. split_and!; [done|cbn; rewrite (proj1 (Hl z [] (λ _, None))), (proj1 (Hl ex [] (λ _, None))); by repeat constructor|].
    intros n. apply (runs_two _ _ _ _ _ _ _ [u] w); [lia|by rewrite S1|done|..].
    + apply call_runs_builder; [by constructor|by rewrite S1|].
      intros st hs p I (h&->&Hh)%(reps_1 ρ) _. cbn [args1 arg_values]. rewrite (proj2 (Hl z [] p)). by apply B1.
    + apply call_runs_builder; [constructor; [by exists (fresh s); split; [|left]|done]|by rewrite S2|].
      intros st hs p I _ Hp. destruct (Hp (fresh s) w) as (h&Eh&Hh); [by left|].
      cbn [args2 arg_values]. rewrite Eh, (proj2 (Hl ex hs p)). by apply B2.
Qed.

Lemma u8_creatable w : creatable (IntTy w) = true → 0 < w ≤ 128.
Proof. cbn. lia. Qed.

Lemma trunc_builds st h w x k :
  binv st → rep ρ st h (VBV w x) → 0 < k ≤ w → k < 2 ^ 8 →
  builds ρ (sym_build_trunc (Some h) (u8 k)) st (VBV k (wrap k x)).
Proof.
  intros I Hh Hk Hk8. rewrite u8_small by lia.
  apply (build_trunc_spec (B := simple_backend) ρ st h w x k); try done; lia.
Qed.

Lemma force_nonnull i f a l s :
  sym_lookup (symbolicExpressions s) a ≠ None →
  (c <- forceBuildRuntimeCall f (Sym a :: l) ;;
   let computation := merge empty_computation c in
   computation <- ret computation ;;
   registerSymbolicComputation computation (Some i)) s =
  (c <- buildRuntimeCall f (Sym a :: l) ;; registerOptional c (Some i)) s.
Proof.
  intros Hn. pose proof (build_call f (Sym a :: l) s) as E.
  assert (all_concrete (symbolicExpressions s) (Sym a :: l) = false) as Hc.
  { unfold all_concrete. cbn. by rewrite bool_decide_eq_false_2. }
  rewrite Hc in E. unfold bind. rewrite E. by rewrite force_build.
Qed.

Lemma handled_trunc i a s :
  kind i = TruncInst a → sx_below (fresh s) (symbolicExpressions s) →
  creatable (getType a) = true → creatable (type i) = true → handled i s.
Proof.
  intros K Hb Ca Ci.
  assert (visit_before DL host_address i s = visitTruncInst i a s) as E
    by (unfold visit_before; by rewrite K).
  unfold visitTruncInst, bind at 1, get in E. rewrite getSymbolicExpression_lookup in E.
  assert (∀ e mem e' mem', run_inst DL i e mem = Some (e', mem') →
    mem' = mem ∧ ∃ w z k, eval_operand DL e a = Some (CInt w z) ∧ type i = IntTy k ∧ k < w ∧
      e' !! name i = Some (CInt k (wrap k z))) as Hrun.
  { intros e mem e' mem' R. unfold run_inst in R. rewrite K in R.
    apply def_some in R as (v&Ev&_&->&Ee'). split; [done|].
    destruct (eval_operand DL e a) as [[w z|]|]; try done. destruct (type i) as [k| | | | |]; try done.
    destruct (Z.ltb_spec k w); [|done]. injection Ev as <-. eauto 10. }
  case_bool_decide as Hnull.
  { apply handled_nothing; [done|]. intros ???? R. by destruct (Hrun _ _ _ _ R). }
  unfold int_width, result in E. cbn [getType] in E.
  set (w := match type i with IntTy w => w | _ => 0 end) in *.
  destruct (Z.eqb_spec w 1) as [Hw|Hw].
  - apply (handled_two i a buildTrunc [u8 w] buildBitToBool []); [done|done| |].
    { rewrite E. unfold bind, ret. destruct (forceBuildRuntimeCall _ _ s) as [c s1|]; [|done].
      by destruct (forceBuildRuntimeCall _ _ s1). }
    intros e mem e' mem' R. destruct (Hrun _ _ _ _ R) as (->&w0&z&k&Ea&Ti&Hk&Ee). split; [done|].
    destruct (eval_int _ _ _ _ Ea) as (?&?&_).
    unfold w in *. rewrite Ti in *. subst k.
    exists (CInt w0 z), (VBV 1 (wrap 1 z)), (CInt 1 (wrap 1 z)). split_and!; [done..| |].
    + intros st h I Hh. eexists. split; [done|].
      cbn in Hh. unfold llvm_value in Hh. rewrite (proj2 (Z.eqb_neq w0 1)) in Hh by lia.
      apply (trunc_builds st h w0 z 1); [done|done|lia|lia].
    + intros st h I Hh. eexists. split; [done|].
      apply (bit_to_bool_ok ρ st h 1 (wrap 1 z)); [done|done|lia].
  - apply (handled_unary i buildTrunc a [u8 w]); [done|done| |].
    { rewrite E. by apply force_nonnull. }
    intros e mem e' mem' R. destruct (Hrun _ _ _ _ R) as (->&w0&z&k&Ea&Ti&Hk&Ee). split; [done|].
    destruct (eval_int _ _ _ _ Ea) as (?&?&_).
    unfold w in *. rewrite Ti in *. apply u8_creatable in Ci.
    do 2 eexists. split_and!; [done..|]. intros st h I Hh. eexists. split; [done|].
    cbn [sem_value] in *. unfold llvm_value in *. rewrite (proj2 (Z.eqb_neq w0 1)) in Hh by lia.
    rewrite (proj2 (Z.eqb_neq k 1)) by done. apply (trunc_builds st h w0 z k); [done|done|lia|lia].
Qed.

(** ** [visitCastInst]: sign and zero extension *)
Lemma extension_builds st h (sg : bool) w x k :
  binv st → rep ρ st h (VBV w x) → w < k ≤ 128 →
  ∃ b, rt_call (if sg then buildSExt else buildZExt) [VExpr (Some h); VInt (u8 (k - w))] = backend b ∧
    builds ρ b st (VBV k (if sg then wrap k (sgn w x) else x)).
Proof.
  intros I Hh Hk. pose proof (rep_bits _ _ _ _ _ Hh) as [Hw _].
  assert (k = w + u8 (k - w) ∧ 0 ≤ u8 (k - w) < 2 ^ 8) as [Ek Hd] by (rewrite u8_small; lia).
  remember (u8 (k - w)) as d eqn:Ed. clear Ed. subst k.
  destruct sg; (eexists; split; [done|]).
  - by apply (build_sext_spec (B := simple_backend)).
  - by apply (build_zext_spec (B := simple_backend)).
Qed.

Lemma handled_extension i a (sg : bool) w0 s :
  kind i = (if sg then SExtInst a else ZExtInst a) → getType a = IntTy w0 →
  sx_below (fresh s) (symbolicExpressions s) →
  creatable (getType a) = true → creatable (type i) = true → handled i s.
Proof.
  intros K Ta Hb Ca Ci. set (f := if sg then buildSExt else buildZExt).
  assert (visit_before DL host_address i s = visit_extension i f a s) as E
    by (unfold visit_before, visitCastInst; rewrite K; by destruct sg).
  assert (∀ e mem e' mem', run_inst DL i e mem = Some (e', mem') →
    mem' = mem ∧ ∃ z k, eval_operand DL e a = Some (CInt w0 z) ∧ 0 ≤ z < 2 ^ w0 ∧
      type i = IntTy k ∧ w0 < k ≤ 128 ∧
      e' !! name i = Some (CInt k (if sg then wrap k (sgn w0 z) else z))) as Hrun.
  { intros e mem e' mem' R. unfold run_inst in R.
    destruct sg; rewrite K in R; apply def_some in R as (v&Ev&_&->&Ee'); (split; [done|]);
      destruct (eval_operand DL e a) as [[w z|]|] eqn:Ea; try done;
      destruct (type i) as [k| | | | |]; try done; apply u8_creatable in Ci;
      destruct (eval_int _ _ _ _ Ea) as (?&?&[T|[T _]]); rewrite Ta in T; try done;
      injection T as ->; destruct (Z.ltb_spec w k); try done; injection Ev as <-;
      exists z, k; split_and!; try done; lia. }
  unfold visit_extension, int_width, result in E. cbn [getType] in E. rewrite Ta in E.
  set (w := match type i with IntTy w => w | _ => 0 end) in *.
  destruct (Z.eqb_spec w0 1) as [->|Hw].
  - apply (handled_two i a buildBoolToBit [] f [u8 (w - 1)]); [done|done|by rewrite E|].
    intros e mem e' mem' R. destruct (Hrun _ _ _ _ R) as (->&z&k&Ea&Hz&Ti&Hk&Ee). split; [done|].
    unfold w. rewrite Ti. exists (CInt 1 z), (VBV 1 z). eexists. split_and!; [done..| |].
    + intros st h I Hh. eexists. split; [done|].
      eapply builds_eq; [by apply (build_bool_to_bit_spec (B := simple_backend) ρ st h _ I Hh)|].
      by apply bit_cases in Hz as [-> | ->].
    + intros st h I Hh. destruct (extension_builds st h sg 1 z k I Hh Hk) as (b&Eb&Bb).
      exists b. split; [by destruct sg|]. cbn [sem_value]. unfold llvm_value.
      by rewrite (proj2 (Z.eqb_neq k 1)) by lia.
  - apply (handled_unary i f a [u8 (w - w0)]); [done|done|by rewrite E|].
    intros e mem e' mem' R. destruct (Hrun _ _ _ _ R) as (->&z&k&Ea&Hz&Ti&Hk&Ee). split; [done|].
    unfold w. rewrite Ti. do 2 eexists. split_and!; [done..|]. intros st h I Hh.
    cbn [sem_value] in *. unfold llvm_value in *. rewrite (proj2 (Z.eqb_neq w0 1)) in Hh by done.
    destruct (extension_builds st h sg w0 z k I Hh Hk) as (b&Eb&Bb).
    exists b. split; [by destruct sg|]. rewrite (proj2 (Z.eqb_neq k 1)); [done|].
    destruct (eval_int _ _ _ _ Ea) as (?&_). lia.
Qed.

(** ** Intrinsics with a result *)
Lemma handled_bswap i a rest ue s :
  kind i = CallInst (Intrinsic I_bswap) (a :: rest) ue →
  sx_below (fresh s) (symbolicExpressions s) → creatable (getType a) = true → handled i s.
Proof.
  intros K Hb Ca. apply (handled_unary i buildBswap a []); [done|done| |].
  { unfold visit_before. rewrite K. cbn. unfold build_intrinsic. cbn. by rewrite take_0. }
  intros e mem e' mem' R. unfold run_inst in R. rewrite K in R.
  apply def_some in R as (v&Ev&_&->&Ee'). split; [done|].
  destruct (eval_operand DL e a) as [[w z|]|] eqn:Ea; try done.
  destruct (Z.eqb_spec (w mod 16) 0) as [Hm|]; [|done]. injection Ev as <-.
  destruct (eval_int _ _ _ _ Ea) as (Hw&Hz&T).
  assert (w ≤ 128) as Hw128.
  { destruct T as [T|[_ ->]]; [|done]. rewrite T in Ca. apply u8_creatable in Ca. lia. }
  do 2 eexists. split_and!; [done..|]. intros st h I Hh. eexists. split; [done|].
  assert (w = 8 * Z.of_nat (Z.to_nat (w / 8))) as Ew.
  { rewrite Z2Nat.id by (apply Z.div_pos; lia). apply Z_div_exact_full_2; [lia|].
    rewrite (Z.div_mod w 16) by lia. rewrite Hm. rewrite Z.add_0_r.
    replace (16 * (w / 16)) with ((2 * (w / 16)) * 8) by lia. apply Z_mod_mult. }
  set (n := Z.to_nat (w / 8)) in *.
  assert (w ≠ 1) as Hw1 by lia.
  cbn [sem_value] in *. unfold llvm_value in *. rewrite (proj2 (Z.eqb_neq _ _) Hw1) in Hh |- *.
  rewrite Ew in Hh, Hz. rewrite <-bytes_value_to_be in Hh by done.
  eapply builds_eq; [eapply (build_bswap_bytes ρ st h (to_be n z))|]; rewrite ?nbits_to_be; try done.
  - apply to_be_bytes.
  - lia.
  - intros En. apply (f_equal length) in En. rewrite length_to_be in En. cbn in En. lia.
  - by rewrite <-Ew.
  - unfold bytes_value. by rewrite nbits_rev, nbits_to_be, <-Ew.
Qed.

(** Integers for which the library computes the bounds of saturation. *)
Definition saturates (t : ty) : bool :=
  match t with IntTy w => (1 <? w) && (w <=? 63) | _ => false end.

Lemma saturates_spec t : saturates t = true → ∃ w, t = IntTy w ∧ 1 < w ≤ 63.
Proof. destruct t as [w| | | | |]; cbn; try done. intros H. exists w. split; [done|lia]. Qed.

Definition saturating_fn (id : intrinsic) : option SymFn :=
  match id with
  | I_sadd_sat => Some buildSAddSat | I_uadd_sat => Some buildUAddSat
  | I_ssub_sat => Some buildSSubSat | I_usub_sat => Some buildUSubSat
  | I_sshl_sat => Some buildSShlSat | _ => None
  end.

Lemma saturating_builds id f w x y r st h1 h2 :
  saturating_fn id = Some f → saturating id w x y = Some r → 0 ≤ y → w ≤ 63 → binv st →
  rep ρ st h1 (VBV w x) → rep ρ st h2 (VBV w y) →
  ∃ b, rt_call f [VExpr (Some h1); VExpr (Some h2)] = backend b ∧ builds ρ b st (VBV w r).
Proof.
  intros Hf Hr Hy Hw I R1 R2.
  destruct id; try done; injection Hf as <-; (eexists; split; [reflexivity|]); cbn in Hr.
  - injection Hr as <-. by apply sadd_sat_ok.
  - injection Hr as <-. by apply uadd_sat_ok.
  - injection Hr as <-. by apply ssub_sat_ok.
  - injection Hr as <-. apply usub_sat_ok; [done..|lia].
  - destruct (Z.ltb_spec y w); [|done]. injection Hr as <-. by apply sshl_sat_ok.
Qed.

Lemma handled_saturating i id f a b ue s :
  kind i = CallInst (Intrinsic id) [a; b] ue → saturating_fn id = Some f →
  sx_below (fresh s) (symbolicExpressions s) →
  saturates (getType a) && saturates (getType b) = true → handled i s.
Proof.
  intros K Hf Hb [(w1&Ta&Hw1)%saturates_spec (w2&Tb&Hw2)%saturates_spec]%andb_true_iff.
  apply (handled_builder DL ρ host_address i f [Sym a; Sym b]); [done|done| |by repeat constructor| |].
  { cbn [syms]. rewrite !Forall_cons, Ta, Tb. cbn. split_and!; [lia..|done]. }
  { unfold visit_before. rewrite K. by destruct id; try done; injection Hf as <-. }
  intros e mem e' mem' R. unfold run_inst in R. rewrite K in R.
  assert (∃ x y r, eval_operand DL e a = Some (CInt w1 x) ∧ eval_operand DL e b = Some (CInt w1 y) ∧
    saturating id w1 x y = Some r ∧ mem' = mem ∧ e' !! name i = Some (CInt w1 r)) as (x&y&r&Ea&Eb&Er&->&Ee).
  { destruct id; try done; apply def_some in R as (v&Ev&_&->&Ee');
      destruct (eval_operand DL e a) as [[w x|]|] eqn:Ea; try done;
      destruct (eval_operand DL e b) as [[w' y|]|] eqn:Eb; try done;
      destruct (Z.eqb_spec w w') as [<-|]; try done;
      destruct (eval_int _ _ _ _ Ea) as (_&_&[T|[T _]]); rewrite Ta in T; try done; injection T as ->;
      apply fmap_Some in Ev as (r&Er&->); exists x, y, r; by split_and!. }
  split; [done|]. do 2 eexists. split_and!; [exact Ee|by repeat constructor|].
  intros st hs I (h1&h2&->&R1&R2)%(reps_2 ρ).
  destruct (eval_int _ _ _ _ Eb) as (_&Hy&_).
  cbn [sem_value] in *. unfold llvm_value in *. rewrite (proj2 (Z.eqb_neq w1 1)) in R1, R2 |- * by lia.
  eapply (saturating_builds id f w1 x y r); try done; lia.
Qed.

Lemma handled_abs i a p ue s :
  kind i = CallInst (Intrinsic I_abs) [a; p] ue →
  sx_below (fresh s) (symbolicExpressions s) → creatable (getType a) = true →
  getType a ≠ IntTy 1 → getType a ≠ PointerTy → handled i s.
Proof.
  intros K Hb Ca Hw1 Hp. apply (handled_unary i buildAbs a []); [done|done| |].
  { unfold visit_before. by rewrite K. }
  intros e mem e' mem' R. unfold run_inst in R. rewrite K in R.
  apply def_some in R as (v&Ev&_&->&Ee'). split; [done|].
  destruct (eval_operand DL e a) as [[w x|]|] eqn:Ea; try done.
  destruct (eval_operand DL e p) as [[w' q|]|]; try done.
  assert (CInt w <$> absolute w x q = Some v) as (r&Er&->)%fmap_Some by (by destruct w' as [|[]|]).
  unfold absolute in Er. destruct (_ && _); [done|]. injection Er as <-.
  destruct (eval_int _ _ _ _ Ea) as (Hw&Hz&[T|[T _]]); [|done].
  rewrite T in Ca, Hw1. apply u8_creatable in Ca. assert (w ≠ 1) by congruence.
  do 2 eexists. split_and!; [done..|]. intros st h I Hh. eexists. split; [done|].
  cbn [sem_value] in *. unfold llvm_value in *. rewrite (proj2 (Z.eqb_neq w 1)) in Hh |- * by done.
  apply abs_ok; [done..|lia].
Qed.

Lemma handled_fabs i a ue s :
  kind i = CallInst (Intrinsic I_fabs) [a] ue →
  sx_below (fresh s) (symbolicExpressions s) → creatable (getType a) = true → handled i s.
Proof.
  intros K Hb Ca. apply (handled_unary i buildFloatAbs a []); [done|done| |].
  { unfold visit_before. by rewrite K. }
  intros e mem e' mem' R. unfold run_inst in R. rewrite K in R.
  apply def_some in R as (v&Ev&_&->&Ee'). split; [done|].
  destruct (eval_operand DL e a) as [[|d x]|] eqn:Ea; try done. injection Ev as <-.
  do 2 eexists. split_and!; [done..|]. intros st h I [_ Hh]. eexists. split; [done|].
  pose proof (proj1 I). apply builds_makes, (reg_call_makes ρ Fpa_abs [h]); [done..|]. cbn. by rewrite Hh.
Qed.

Lemma handled_expect i a rest ue s :
  kind i = CallInst (Intrinsic I_expect) (a :: rest) ue →
  sx_below (fresh s) (symbolicExpressions s) → handled i s.
Proof.
  intros K Hb. apply (handled_copy i a); [unfold operands; rewrite K; by left|done| |].
  { unfold visit_before. rewrite K. done. }
  intros e mem e' mem' R. unfold run_inst in R. rewrite K in R.
  apply def_some in R as (v&Ev&_&->&Ee'). split; [done|].
  exists v. split; [done|]. intros c'. rewrite Ee'. by intros [= <-].
Qed.
End visitors.
