(* ===== verification/VisitAddress.v ===== *)
(** * Address calculations

    [visitGetElementPtrInst] of compiler/Symbolizer.cpp: the calls that it
    generates compute the address, modulo 2^64, when the indices that are not
    constant zeroes have the width of a pointer. *)

From S2P Require Import Prelude Smt Z3Api Interface ByteSeq BitArrays Arith SimpleBackend.
From S2P Require Import SimpleSpec State Shadow Memory Dispatch Symbolizer SymbolizerSem.
From S2P Require Import ShortCircuit Computations Simulation Visitors VisitScalar Interface.

#[local] Open Scope Z_scope.

(** The calls for one index: [n] is the next name, [cur] the result of the
    calls so far. *)
Definition gep_base (ptr : operand) (cur : option nat) : call_arg :=
  match cur with None => Sym ptr | Some e => Plain (AExpr (Some e)) end.

Section calls.
Context (DL : DataLayout) (ptr : operand).

Definition gep_step (n : nat) (cur : option nat) (i : gep_index) : list rcall :=
  let pointer z := Sym (ConstantInt (ptrBits DL) z) in
  match i with
  | StructIndex elements member =>
      [{| rc_dst := n; rc_fn := binaryOperatorHandler Add;
          rc_args := [pointer (u32 (getElementOffset DL elements (Z.to_nat member)));
                      gep_base ptr cur] |}]
  | SequentialIndex index indexed =>
      if is_zero_constant index then []
      else [{| rc_dst := n; rc_fn := binaryOperatorHandler Mul;
               rc_args := [Sym index; pointer (u32 (getTypeAllocSize DL indexed))] |};
            {| rc_dst := S n; rc_fn := binaryOperatorHandler Add;
               rc_args := [Plain (AExpr (Some n)); gep_base ptr cur] |}]
  end.

Definition gep_next (n : nat) (cur : option nat) (i : gep_index) : option nat :=
  match gep_step n cur i with
  | [] => cur
  | ks => Some (comp_last ks)
  end.

Fixpoint gep_calls (n : nat) (cur : option nat) (l : list gep_index) : list rcall :=
  match l with
  | [] => []
  | i :: l' =>
      let ks := gep_step n cur i in
      ks ++ gep_calls (n + length ks) (gep_next n cur i) l'
  end.

(** Indices that the pass handles as LLVM defines them. *)
Definition index_ok (i : gep_index) : bool :=
  match i with
  | StructIndex elements member =>
      let o := getElementOffset DL elements (Z.to_nat member) in
      (0 <=? o) && (o <? 2 ^ 32) && (negb (wrap 32 member =? 0) || (o =? 0))
  | SequentialIndex index indexed =>
      is_zero_constant index ||
      (match getType index with IntTy w => w =? ptrBits DL | _ => false end &&
       (0 <=? getTypeAllocSize DL indexed) && (getTypeAllocSize DL indexed <? 2 ^ 32))
  end.

Lemma merge_comps ks1 ks2 : ks2 ≠ [] → merge (comp_of ks1) (comp_of ks2) = comp_of (ks1 ++ ks2).
Proof.
  intros Hne. unfold merge, comp_of. cbn. f_equal.
  - by destruct ks1.
  - by rewrite last_app; destruct (last ks2) eqn:E; [|apply last_None in E].
  - by rewrite bind_app.
Qed.

Lemma visit_gep_index_run ks cur i s :
  index_ok i = true →
  let ks' := gep_step (fresh s) cur i in
  visit_gep_index DL ptr (comp_of ks) cur i s =
    Ok (comp_of (ks ++ ks'), gep_next (fresh s) cur i)
       (upd_code (call_item (symbolicExpressions s) <$> ks') (fresh s + length ks') s).
Proof.
  intros Hok ks'. subst ks'. unfold gep_next. destruct i as [elements member|index indexed]; cbn [gep_step].
  - unfold visit_gep_index. cbv zeta. fold (gep_base ptr cur).
    unfold bind at 1. rewrite force_build. cbv zeta. unfold ret.
    rewrite merge_comp_of, Nat.add_1_r. by rewrite comp_of_snoc_last.
  - unfold visit_gep_index. cbn [index_ok] in Hok. destruct (is_zero_constant index).
    { unfold ret. cbn. rewrite app_nil_r, Nat.add_0_r. by rewrite upd_code_nil. }
    cbn [orb] in Hok. apply andb_prop in Hok as [[Hw _]%andb_prop _].
    unfold int_width. destruct (getType index) as [w| | | | |]; try done.
    rewrite Hw. cbn [negb]. cbv zeta.
    unfold bind at 1, bind at 1. rewrite force_build. cbv zeta. unfold ret at 1.
    rewrite merge_comp_of, comp_of_snoc_last. cbn [rc_dst]. fold (gep_base ptr cur).
    unfold bind at 1. rewrite force_build. cbv zeta. unfold ret.
    rewrite merge_comp_of, comp_of_snoc_last, upd_code_app, <-app_assoc. cbn.
    do 3 f_equal. lia.
Qed.

Lemma visit_gep_indices_run ks cur l s :
  forallb index_ok l = true →
  let ks' := gep_calls (fresh s) cur l in
  visit_gep_indices DL ptr (comp_of ks) cur l s =
    Ok (comp_of (ks ++ ks'))
       (upd_code (call_item (symbolicExpressions s) <$> ks') (fresh s + length ks') s).
Proof.
  revert ks cur s. induction l as [|i l IH]; intros ks cur s; cbn [forallb].
  { intros _. cbn. rewrite app_nil_r, Nat.add_0_r. by rewrite upd_code_nil. }
  intros [Hi Hl]%andb_prop. cbv zeta. cbn [visit_gep_indices].
  rewrite (bind_Ok _ _ _ _ _ (visit_gep_index_run ks cur i s Hi)). cbn [fst snd].
  rewrite IH by done. cbn [gep_calls].
  set (k1 := gep_step (fresh s) cur i). rewrite upd_code_app, <-app_assoc.
  change (fresh (upd_code _ ?n s)) with n. change (symbolicExpressions (upd_code _ _ s)) with (symbolicExpressions s).
  rewrite fmap_app, length_app. do 2 f_equal. lia.
Qed.

(** The names are fresh and distinct. *)
Lemma gep_step_names n cur i : names (gep_step n cur i) = seq n (length (gep_step n cur i)).
Proof. destruct i as [|index indexed]; [done|]. cbn. by destruct (is_zero_constant index). Qed.

Lemma gep_calls_names n cur l : names (gep_calls n cur l) = seq n (length (gep_calls n cur l)).
Proof.
  revert n cur. induction l as [|i l IH]; intros n cur; [done|]. cbn [gep_calls].
  unfold names in *. rewrite fmap_app, length_app, seq_app. f_equal; [apply gep_step_names|apply IH].
Qed.

(** Calls take the results of earlier ones. *)
Lemma gep_next_within lo hi n cur i :
  (∀ r, cur = Some r → lo ≤ r < hi)%nat → (lo ≤ n)%nat → (n + length (gep_step n cur i) ≤ hi)%nat →
  ∀ r, gep_next n cur i = Some r → (lo ≤ r < hi)%nat.
Proof.
  intros Hc Hn Hl r. unfold gep_next.
  destruct i as [|index indexed]; cbn [gep_step] in *; [|destruct (is_zero_constant index)];
    cbn in *; [intros [= <-]; lia|apply Hc|intros [= <-]; lia].
Qed.

Lemma gep_step_plain lo hi n cur i :
  (∀ r, cur = Some r → lo ≤ r < hi)%nat → (lo ≤ n)%nat → (n + length (gep_step n cur i) ≤ hi)%nat →
  Forall (λ k, plain_within lo hi (rc_args k)) (gep_step n cur i).
Proof.
  intros Hc Hn Hl.
  assert (∀ r, gep_base ptr cur = Plain (AExpr (Some r)) → lo ≤ r < hi)%nat as Hb.
  { intros r. unfold gep_base. destruct cur; [|done]. intros [= ->]. by apply Hc. }
  destruct i as [|index indexed]; cbn [gep_step] in *; [|destruct (is_zero_constant index)];
    unfold plain_within; cbn [length] in Hl;
    repeat (first [apply Forall_nil_2|apply Forall_cons_2]; cbn [rc_args]); try done.
  intros r [= <-]. lia.
Qed.

Lemma gep_calls_plain lo hi n cur l :
  (∀ r, cur = Some r → lo ≤ r < hi)%nat → (lo ≤ n)%nat → (n + length (gep_calls n cur l) ≤ hi)%nat →
  Forall (λ k, plain_within lo hi (rc_args k)) (gep_calls n cur l).
Proof.
  revert n cur. induction l as [|i l IH]; intros n cur Hc Hn Hl; [constructor|].
  cbn [gep_calls] in *. rewrite length_app in Hl. apply Forall_app. split.
  - apply gep_step_plain; [done|lia|lia].
  - apply IH; [apply gep_next_within; [done|lia..]|lia|lia].
Qed.
End calls.

Section visitors.
Context {Z3I : Z3} {ZL : Z3Laws Z3I} {KC : Calls} {KI : ICalls} {FR : Frame}.
Context (DL : DataLayout) (ρ : RunInput) (host_address : nat → Z).
Implicit Types (m : mach) (s : symbolizer).

(** ** The value of the address *)
Section address.
Context (Hptr : ptrBits DL = 64) (ptr : operand) (m : mach) (a : Z).
Context (Hp : eval_operand DL (cenv m) ptr = Some (CInt 64 a)).

#[local] Abbreviation pointer z := (ConstantInt (ptrBits DL) z).
#[local] Abbreviation evals l vs := (Forall2 (λ v c, eval_operand DL (cenv m) v = Some c) l vs).

Lemma eval_pointer z : 0 ≤ z < 2 ^ 32 → eval_operand DL (cenv m) (pointer z) = Some (CInt 64 z).
Proof.
  intros Hz. cbn. rewrite Hptr, wrap_small by lia. unfold checked, has_type, int_ok.
  by replace (_ && _) with true by lia.
Qed.

Lemma sem_address z : sem_value (CInt 64 z) = VBV 64 z.
Proof. done. Qed.

(** The offset [o] has been added up when [cur] is the current address. *)
Definition address_in (keep : list (nat * value)) (cur : option nat) (o : Z) : Prop :=
  match cur with
  | None => o = 0
  | Some r => (r, VBV 64 (wrap 64 (a + o))) ∈ keep
  end.

Lemma add_runs n keep cur contrib cvs x o :
  address_in keep cur o →
  (contrib = Sym (pointer x) ∧ cvs = [CInt 64 x] ∧ 0 ≤ x < 2 ^ 32 ∨
   ∃ r, contrib = Plain (AExpr (Some r)) ∧ cvs = [] ∧ (r, VBV 64 (wrap 64 x)) ∈ keep) →
  let bvs := match cur with None => [CInt 64 a] | Some _ => [] end in
  let k := {| rc_dst := n; rc_fn := binaryOperatorHandler Add;
              rc_args := [contrib; gep_base ptr cur] |} in
  evals (syms (rc_args k)) (cvs ++ bvs) ∧
  call_runs DL ρ k keep (cvs ++ bvs) (Some (VBV 64 (wrap 64 (a + (o + x))))) m.
Proof.
  intros Ha Hc bvs k.
  assert (0 ≤ a < 2 ^ 64) as Hab by (by destruct (eval_int DL Hptr _ _ _ _ Hp) as (_&?&_)).
  assert (evals (syms (rc_args k)) (cvs ++ bvs)) as Hev.
  { subst bvs k. destruct Hc as [(->&->&Hx)|(r&->&->&_)], cur; cbn;
      repeat first [apply Forall2_cons; split; [by first [apply eval_pointer|exact Hp]|]|apply Forall2_nil; done]. }
  split; [done|]. apply call_runs_builder; [|symmetry; by eapply Forall2_length|].
  { repeat constructor.
    - destruct Hc as [(->&_)|(r&->&_&Hr)]; [done|]. exists r. split; [done|].
      by apply (list_elem_of_fmap_2 fst) in Hr.
    - destruct cur as [r|]; [|done]. exists r. split; [done|].
      by apply (list_elem_of_fmap_2 fst) in Ha. }
  intros st hs p I Hr Hprev.
  assert (∃ h1 h2, arg_values [contrib; gep_base ptr cur] hs p = [VExpr (Some h1); VExpr (Some h2)] ∧
    rep ρ st h1 (VBV 64 (wrap 64 x)) ∧ rep ρ st h2 (VBV 64 (wrap 64 (a + o)))) as (h1&h2&->&H1&H2).
  { subst bvs. destruct cur as [r|]; cbn [address_in] in Ha.
    - destruct (Hprev _ _ Ha) as (h2&E2&H2).
      destruct Hc as [(->&->&Hx)|(r'&->&->&Hr')].
      + destruct (reps_1 ρ st hs (CInt 64 x) Hr) as (h1&->&H1). exists h1, h2. cbn. rewrite E2.
        by rewrite wrap_small by lia.
      + destruct (Hprev _ _ Hr') as (h1&E1&H1). exists h1, h2. cbn. by rewrite E1, E2.
    - subst o. rewrite Z.add_0_r, (wrap_small 64 a) by exact Hab.
      destruct Hc as [(->&->&Hx)|(r'&->&->&Hr')].
      + destruct (reps_2 ρ st hs (CInt 64 x) (CInt 64 a) Hr) as (h1&h2&->&H1&H2).
        exists h1, h2. by rewrite wrap_small by lia.
      + destruct (Hprev _ _ Hr') as (h1&E1&H1).
        destruct (reps_1 ρ st hs (CInt 64 a) Hr) as (h2&->&H2). exists h1, h2. cbn. by rewrite E1. }
  eexists. split; [done|]. eapply builds_eq; [by apply (add_ok (B := simple_backend) ρ st h1 h2 64)|].
  rewrite wrap_add. do 2 f_equal. lia.
Qed.

(** After the calls [ks] the current address is the pointer plus [o]. *)
Definition computes (ks : list rcall) (vs : list cval) (cur : option nat) (o : Z) (n : nat)
    : Prop :=
  NoDup (names ks) ∧ Forall (λ r, r < n)%nat (names ks) ∧ evals (all_syms ks) vs ∧
  match cur with
  | None => ks = [] ∧ vs = [] ∧ o = 0
  | Some r => (r < n)%nat ∧ ∃ keep,
      address_in keep cur o ∧ (∀ r' u, (r', u) ∈ keep → r' < n)%nat ∧
      (∀ j, runs_before DL ρ j ks vs keep m) ∧
      ∀ j, runs DL ρ j ks vs (Some (VBV 64 (wrap 64 (a + o)))) m
  end.

Lemma computes_keep ks vs cur o n :
  computes ks vs cur o n → ∃ keep,
    address_in keep cur o ∧ (∀ r' u, (r', u) ∈ keep → r' < n)%nat ∧
    ∀ j, runs_before DL ρ j ks vs keep m.
Proof.
  intros (_&_&_&H). destruct cur as [r|].
  - destruct H as (_&keep&?&?&?&_). by exists keep.
  - destruct H as (->&->&->). exists []. split_and!; [done|by intros ?? ?%elem_of_nil|].
    intros j. apply runs_before_nil.
Qed.

(** One more addition. *)
Lemma computes_add ks vs cur o n nk keep contrib cvs x :
  NoDup (names ks) → Forall (λ r, r < nk)%nat (names ks) → (n ≤ nk)%nat →
  evals (all_syms ks) vs → address_in keep cur o → (∀ r' u, (r', u) ∈ keep → r' < nk)%nat →
  (∀ j, runs_before DL ρ j ks vs keep m) →
  (contrib = Sym (pointer x) ∧ cvs = [CInt 64 x] ∧ 0 ≤ x < 2 ^ 32 ∨
   ∃ r, contrib = Plain (AExpr (Some r)) ∧ cvs = [] ∧ (r, VBV 64 (wrap 64 x)) ∈ keep) →
  let bvs := match cur with None => [CInt 64 a] | Some _ => [] end in
  let k := {| rc_dst := nk; rc_fn := binaryOperatorHandler Add;
              rc_args := [contrib; gep_base ptr cur] |} in
  computes (ks ++ [k]) (vs ++ cvs ++ bvs) (Some nk) (o + x) (S nk).
Proof.
  intros ND Hlt Hn Hev Ha Hk Hb Hc bvs k.
  destruct (add_runs nk keep cur contrib cvs x o Ha Hc) as [Hev2 Hcall]. fold bvs k in Hev2, Hcall.
  assert (NoDup (names (ks ++ [k]))) as ND2.
  { rewrite names_snoc. apply NoDup_app. split_and!; [done| |by apply NoDup_singleton].
    intros r Hr E%list_elem_of_singleton. pose proof (proj1 (Forall_forall _ _) Hlt r Hr).
    cbn in *. lia. }
  pose proof (Forall2_length _ _ _ Hev) as L1. pose proof (Forall2_length _ _ _ Hev2) as L2.
  split_and!; [done| | |lia|].
  - rewrite names_snoc. apply Forall_app. split; [|by repeat constructor].
    eapply Forall_impl; [exact Hlt|]. cbn. lia.
  - unfold all_syms. rewrite bind_app. apply Forall2_app; [exact Hev|]. cbn [mbind list_bind].
    rewrite app_nil_r. exact Hev2.
  - exists ((nk, VBV 64 (wrap 64 (a + (o + x)))) :: keep). split_and!.
    + by left.
    + intros r' u [E|Hr]%elem_of_cons; [by simplify_eq; lia|]. specialize (Hk _ _ Hr). lia.
    + intros j. eapply runs_before_snoc; [exact ND2|done|done| |apply Hb|exact Hcall].
      intros r u Hr. specialize (Hk _ _ Hr). cbn. lia.
    + intros j. eapply runs_snoc; [exact ND2|done|done|apply Hb|exact Hcall].
Qed.

(** One more product. *)
Lemma mul_runs n keep index z size :
  eval_operand DL (cenv m) index = Some (CInt 64 z) → 0 ≤ size < 2 ^ 32 →
  call_runs DL ρ {| rc_dst := n; rc_fn := binaryOperatorHandler Mul;
                    rc_args := [Sym index; Sym (pointer size)] |} keep
    [CInt 64 z; CInt 64 size] (Some (VBV 64 (wrap 64 (sgn 64 z * size)))) m.
Proof.
  intros Hz Hs. destruct (eval_int DL Hptr _ _ _ _ Hz) as (_&Hzb&_).
  apply call_runs_builder; [by repeat constructor|done|].
  intros st hs p I (h1&h2&->&H1&H2)%(reps_2 ρ) _. eexists. split; [done|].
  eapply builds_eq; [by apply (mul_ok (B := simple_backend) ρ st h1 h2 64 z size)|].
  f_equal. rewrite <-(wrap_mul 64 (sgn 64 z)), wrap_sgn by done.
  by rewrite (wrap_small 64 size) by lia.
Qed.

(** One step of the address calculation adds the offset of the index. *)
Lemma computes_step ks vs cur o n i oi :
  computes ks vs cur o n → index_ok DL i = true → gep_offset DL (cenv m) i = Some oi →
  ∃ vs', computes (ks ++ gep_step DL ptr n cur i) (vs ++ vs') (gep_next DL ptr n cur i) (o + oi)
    (n + length (gep_step DL ptr n cur i)).
Proof.
  intros C Hok Ho. destruct (computes_keep _ _ _ _ _ C) as (keep&Ha&Hk&Hb).
  pose proof C as (ND&Hlt&Hev&_). unfold gep_next.
  destruct i as [elements member|index indexed]; cbn [gep_step index_ok gep_offset] in *.
  - injection Ho as <-. set (off := getElementOffset DL elements (Z.to_nat member)) in *.
    assert (0 ≤ off < 2 ^ 32) as Hoff by lia.
    assert (u32 off = off) as -> by (by apply wrap_small).
    eexists. cbn [length]. rewrite Nat.add_1_r.
    apply (computes_add ks vs cur o n n keep _ [CInt 64 off] off); try done. by left.
  - destruct (is_zero_constant index) eqn:Ez.
    { exists []. cbn [length]. rewrite !app_nil_r, Nat.add_0_r.
      destruct index as [|w z| | | | |]; try done. cbn [is_zero_constant] in Ez.
      cbn [eval_operand] in Ho. destruct (checked DL (IntTy w) _) as [u|] eqn:Ec; [|done].
      apply checked_some in Ec as [-> Ht]. apply Z.eqb_eq in Ez. rewrite Ez in Ho, Ht.
      injection Ho as <-. cbn in Ht. unfold int_ok in Ht.
      assert (0 < w) as Hw by lia. pose proof (pow2_pos (w - 1) ltac:(lia)).
      unfold sgn. replace (0 <? 2 ^ (w - 1)) with true by lia.
      rewrite Z.mul_0_l, Z.add_0_r. exact C. }
    cbn [orb] in Hok. apply andb_prop in Hok as [[Hw Hs1]%andb_prop Hs2].
    destruct (eval_operand DL (cenv m) index) as [[w z|]|] eqn:Ei; try done.
    injection Ho as <-. set (size := getTypeAllocSize DL indexed) in *.
    assert (w = 64) as ->.
    { destruct (eval_int DL Hptr _ _ _ _ Ei) as (_&_&[T|[_ ?]]); [|done]. rewrite T in Hw. lia. }
    assert (0 ≤ size < 2 ^ 32) as Hs by lia.
    assert (u32 size = size) as -> by (by apply wrap_small).
    set (k1 := {| rc_dst := n; rc_fn := binaryOperatorHandler Mul; rc_args := _ |}).
    set (k2 := {| rc_dst := S n; rc_fn := binaryOperatorHandler Add; rc_args := _ |}).
    assert (NoDup (names (ks ++ [k1]))) as ND1.
    { rewrite names_snoc. apply NoDup_app. split_and!; [done| |by apply NoDup_singleton].
      intros r Hr E%list_elem_of_singleton. pose proof (proj1 (Forall_forall _ _) Hlt r Hr).
      cbn in *. lia. }
    pose proof (Forall2_length _ _ _ Hev) as L1.
    assert (∀ j, runs_before DL ρ j (ks ++ [k1]) (vs ++ [CInt 64 z; CInt 64 size])
      ((n, VBV 64 (wrap 64 (sgn 64 z * size))) :: keep) m) as Hb1.
    { intros j. eapply (runs_before_snoc DL ρ j ks k1); [exact ND1|done|done| |apply Hb|].
      - intros r u Hr. specialize (Hk _ _ Hr). cbn. lia.
      - by apply mul_runs. }
    exists ([CInt 64 z; CInt 64 size] ++ [] ++ match cur with None => [CInt 64 a] | Some _ => [] end).
    rewrite (app_assoc vs). cbn [length].
    change (ks ++ [k1; k2]) with (ks ++ [k1] ++ [k2]). rewrite app_assoc.
    replace (n + 2)%nat with (S (S n)) by lia.
    apply (computes_add (ks ++ [k1]) _ cur o n (S n)
      ((n, VBV 64 (wrap 64 (sgn 64 z * size))) :: keep) _ [] (sgn 64 z * size)); try done.
    + rewrite names_snoc. apply Forall_app. split; [|by repeat constructor].
      eapply Forall_impl; [exact Hlt|]. cbn. lia.
    + lia.
    + unfold all_syms. rewrite bind_app. apply Forall2_app; [exact Hev|]. cbn.
      repeat constructor; [done|by apply eval_pointer].
    + destruct cur; [by right|done].
    + intros r u [E|Hr]%elem_of_cons; [simplify_eq; lia|]. specialize (Hk _ _ Hr). lia.
    + right. exists n. split_and!; [done..|by left].
Qed.

Lemma computes_calls ks vs cur o n l ol :
  computes ks vs cur o n → forallb (index_ok DL) l = true →
  gep_offsets DL (cenv m) l = Some ol →
  ∃ vs' cur', computes (ks ++ gep_calls DL ptr n cur l) (vs ++ vs') cur' (o + ol)
    (n + length (gep_calls DL ptr n cur l)).
Proof.
  revert ks vs cur o n ol. induction l as [|i l IH]; intros ks vs cur o n ol C Hok Ho.
  { injection Ho as <-. exists [], cur. cbn [gep_calls length].
    by rewrite !app_nil_r, Nat.add_0_r, Z.add_0_r. }
  cbn [forallb] in Hok. apply andb_prop in Hok as [Hi Hl]. cbn [gep_offsets] in Ho.
  destruct (gep_offset DL (cenv m) i) as [oi|] eqn:Ei; [|done].
  destruct (gep_offsets DL (cenv m) l) as [o'|] eqn:El; [|done]. injection Ho as <-.
  destruct (computes_step ks vs cur o n i oi C Hi Ei) as (vs1&C1).
  destruct (IH _ _ _ _ _ _ C1 Hl eq_refl) as (vs2&cur'&C2).
  exists (vs1 ++ vs2), cur'. cbn [gep_calls].
  by rewrite !app_assoc, length_app, Nat.add_assoc, Z.add_assoc.
Qed.
End address.

(** ** [visitGetElementPtrInst] *)
Lemma gep_step_creatable ptr n cur i :
  ptrBits DL = 64 → getType ptr = PointerTy → index_ok DL i = true →
  Forall (λ v, creatable (getType v) = true) (all_syms (gep_step DL ptr n cur i)).
Proof.
  intros Hptr Hp Hok.
  assert (∀ c, Forall (λ v, creatable (getType v) = true) (syms [gep_base ptr c])) as Hbase.
  { intros []; cbn; repeat constructor. by rewrite Hp. }
  assert (creatable (IntTy (ptrBits DL)) = true) as H64 by by rewrite Hptr.
  destruct i as [elements member|index indexed]; cbn [gep_step].
  - cbn. constructor; [done|]. destruct cur; cbn; repeat constructor. by rewrite Hp.
  - cbn [index_ok] in Hok. destruct (is_zero_constant index); [constructor|]. cbn [orb] in Hok.
    apply andb_prop in Hok as [[Hw _]%andb_prop _].
    assert (creatable (getType index) = true) as Hi.
    { destruct (getType index) as [w| | | | |]; try done. by apply Z.eqb_eq in Hw as ->. }
    cbn. destruct cur; cbn; repeat constructor; try done. by rewrite Hp.
Qed.

Lemma gep_calls_creatable ptr n cur l :
  ptrBits DL = 64 → getType ptr = PointerTy → forallb (index_ok DL) l = true →
  Forall (λ v, creatable (getType v) = true) (all_syms (gep_calls DL ptr n cur l)).
Proof.
  intros Hptr Hp. revert n cur. induction l as [|i l IH]; intros n cur; [constructor|].
  cbn [forallb]. intros [Hi Hl]%andb_prop. cbn [gep_calls]. unfold all_syms. rewrite bind_app.
  apply Forall_app. split; [by apply gep_step_creatable|by apply IH].
Qed.

Lemma gep_calls_symbolic ptr n cur l :
  forallb (λ i, is_zero_constant (gep_operand i)) l = false →
  all_syms (gep_calls DL ptr n cur l) ≠ [].
Proof.
  revert n cur. induction l as [|i l IH]; intros n cur; [done|]. cbn [forallb gep_calls].
  intros H E. unfold all_syms in E. rewrite bind_app in E. apply app_eq_nil in E as [E1 E2].
  apply andb_false_iff in H as [H|H]; [|by eapply IH].
  destruct i as [elements member|index indexed]; cbn [gep_step] in E1; [done|].
  cbn [gep_operand] in H. by rewrite H in E1.
Qed.

Lemma gep_offsets_zero e l o :
  forallb (index_ok DL) l = true → forallb (λ i, is_zero_constant (gep_operand i)) l = true →
  gep_offsets DL e l = Some o → o = 0.
Proof.
  revert o. induction l as [|i l IH]; intros o; cbn [forallb gep_offsets]; [by intros _ _ [= <-]|].
  intros [Hi Hl]%andb_prop [Zi Zl]%andb_prop Ho.
  destruct (gep_offset DL e i) as [oi|] eqn:Ei; [|done].
  destruct (gep_offsets DL e l) as [o'|]; [|done]. injection Ho as <-.
  rewrite (IH o') by done. rewrite Z.add_0_r. clear IH.
  destruct i as [elements member|index indexed]; cbn in *.
  - injection Ei as <-. apply andb_prop in Hi as [_ Hi]. rewrite Zi in Hi. cbn in Hi. lia.
  - destruct index as [|w z| | | | |]; try done. cbn in *.
    destruct (checked DL (IntTy w) _) as [u|] eqn:Ec; [|done].
    apply checked_some in Ec as [-> Ht]. apply Z.eqb_eq in Zi. rewrite Zi in Ei, Ht.
    injection Ei as <-. unfold sgn. cbn in Ht. unfold int_ok in Ht.
    pose proof (pow2_pos (w - 1) ltac:(lia)). by replace (0 <? 2 ^ (w - 1)) with true by lia.
Qed.

Lemma handled_gep i ptr indices s :
  ptrBits DL = 64 →
  kind i = GetElementPtrInst ptr indices → sx_below (fresh s) (symbolicExpressions s) →
  getType ptr = PointerTy → forallb (index_ok DL) indices = true →
  handled DL ρ host_address i s.
Proof.
  intros Hptr K Hb Hp Hok.
  assert (visit_before DL host_address i s = visitGetElementPtrInst DL i ptr indices s) as E
    by (unfold visit_before; by rewrite K).
  unfold visitGetElementPtrInst, bind at 1, get in E.
  rewrite getSymbolicExpression_lookup in E.
  assert (∀ e mem e' mem', run_inst DL i e mem = Some (e', mem') →
    mem' = mem ∧ ∃ a o, eval_operand DL e ptr = Some (CInt 64 a) ∧ 0 ≤ a < 2 ^ 64 ∧
      gep_offsets DL e indices = Some o ∧ e' !! name i = Some (CInt 64 (wrap 64 (a + o)))) as Hrun.
  { intros e mem e' mem' R. unfold run_inst in R. rewrite K in R.
    apply def_some in R as (v&Ev&_&->&Ee'). split; [done|].
    destruct (eval_operand DL e ptr) as [[w a|]|] eqn:Ep; try done.
    destruct (gep_offsets DL e indices) as [o|]; [|done]. injection Ev as <-.
    destruct (eval_int DL Hptr _ _ _ _ Ep) as (_&?&[T|[_ ->]]); [by rewrite Hp in T|].
    by exists a, o. }
  destruct (bool_decide _ && _).
  { apply handled_nothing; [done|]. intros ???? R. by destruct (Hrun _ _ _ _ R). }
  destruct (forallb (λ i, is_zero_constant (gep_operand i)) indices) eqn:Ez.
  - apply (handled_alias DL ρ host_address i ptr); [unfold operands; rewrite K; by left|done|exact E|].
    intros e mem e' mem' R. destruct (Hrun _ _ _ _ R) as (->&a&o&Ea&Hab&Ho&Ee). split; [done|].
    rewrite (gep_offsets_zero _ _ _ Hok Ez Ho), Z.add_0_r, wrap_small in Ee by done.
    exists (CInt 64 a). split; [done|]. intros c'. rewrite Ee. by intros [= <-].
  - rewrite <-comp_of_nil in E.
    rewrite (bind_Ok _ _ _ _ _ (visit_gep_indices_run DL ptr [] None indices s Hok)) in E.
    cbn [app] in E. set (ks := gep_calls DL ptr (fresh s) None indices) in *.
    pose proof (gep_calls_symbolic ptr (fresh s) None indices Ez) as Hsym. fold ks in Hsym.
    rewrite register_comp in E by (intros E0; by rewrite E0 in Hsym).
    eapply (handled_comp DL ρ host_address i ks); [|exact E|].
    + assert (names ks = seq (fresh s) (length ks)) as En by apply gep_calls_names.
      split; rewrite ?En; try done.
      * apply NoDup_seq.
      * apply Forall_seq. lia.
      * by apply gep_calls_creatable.
      * apply Forall_fmap, Forall_forall. intros v _. by apply sym_lookup_below.
      * by apply gep_calls_plain.
    + intros m e' mem' C R. destruct (Hrun _ _ _ _ R) as (->&a&o&Ea&Hab&Ho&Ee). split; [done|].
      destruct (computes_calls Hptr ptr m a Ea [] [] None 0 (fresh s) indices o)
        as (vs&cur'&_&_&Hev&Hc); [|done..|].
      { split_and!; [constructor|constructor|constructor|done..]. }
      cbn [app] in Hev, Hc. fold ks in Hev, Hc. destruct cur' as [r|].
      * destruct Hc as (_&keep&_&_&_&Hruns). exists vs. eexists. split_and!; [exact Ee|exact Hev|].
        exact Hruns.
      * destruct Hc as (E0&_). by rewrite E0 in Hsym.
Qed.
End visitors.
