(* ===== verification/VisitEffects.v ===== *)
(** * The visitors of instructions with effects

    The [visit*] functions of compiler/Symbolizer.cpp for branches and selects,
    which push path constraints, for memory accesses and memory intrinsics, and
    for returns. *)

From S2P Require Import Prelude Smt Z3Api Interface ByteSeq BitArrays Arith SimpleBackend.
From S2P Require Import SimpleSpec PathConstraints State Shadow Memory Dispatch Symbolizer.
From S2P Require Import SymbolizerSem ShortCircuit Computations Simulation Visitors VisitScalar.
From S2P Require Import Interface.

#[local] Open Scope Z_scope.

Section visitors.
Context {Z3I : Z3} {ZL : Z3Laws Z3I} {KC : Calls} {KI : ICalls} {FR : Frame}.
Context (DL : DataLayout) (ρ : RunInput) (host_address : nat → Z).
Implicit Types (m : mach) (s : symbolizer).

#[local] Abbreviation handled := (handled DL ρ host_address).

(** ** Path constraints *)
(** A call of a library function without result. *)
Lemma exec_void D m dst f args vs (b : Prelude.M (@bstate simple_backend) unit) :
  D dst → consistent ρ (rts m) → Forall2 (arg_is DL m) args vs →
  rt_call f vs = no_result (backend b) →
  returns binv bext b (rt_backend (rts m)) (λ _ _, True) →
  wp (exec_item DL (Call dst f args)) m
    (λ _ m', mstep ρ D m m' ∧ read_expr (Some dst) m' = Some None).
Proof.
  intros Hd C Ha Ef Hb. eapply exec_call; [exact Ha|]. rewrite Ef. apply wp_bind.
  eapply (wp_backend ρ (rts m) (rts m)); [apply evolves_refl, C|exact Hb|].
  intros [] s Ev St _ _. apply wp_ret. split; [|apply set_reg_read].
  apply set_reg_step; [done|apply St|by apply rt_step_memory|by eapply evolves_consistent].
Qed.

Definition plain_file (i : inst) : bool := negb (strstr (locate i).1 target).

Lemma int1_bool z : 0 ≤ z < 2 ^ 1 → z = if negb (z =? 0) then 1 else 0.
Proof. intros Hz%bit_cases. by destruct Hz as [-> | ->]. Qed.

Lemma push_runs (Hptr : ptrBits DL = 64) i c slot d z m :
  plain_file i = true → eval_operand DL (cenv m) c = Some (CInt 1 z) →
  call_runs DL ρ {| rc_dst := d; rc_fn := pushPathConstraintWithLoc;
                    rc_args := push_arguments DL host_address i c slot |} [] [CInt 1 z] None m.
Proof.
  intros Hf Hc m1 fs dst Em _ C Hfs _. unfold plain_file in Hf.
  unfold push_arguments. destruct (locate i) as [file line]. cbn [fst] in Hf.
  apply negb_true_iff in Hf.
  inversion Hfs as [|f ? ? ? (h&Eh&Hh) Hfs']; subst. inversion Hfs'; subst.
  destruct (eval_int DL Hptr _ _ _ _ Hc) as (_&Hz&_).
  cbn [rc_args rc_fn fill_args getTargetPreferredInt].
  eapply wp_impl.
  { apply (exec_void (λ r, r = dst) m1 dst pushPathConstraintWithLoc _
      [VExpr (Some h); VInt z; VInt (wrap (ptrBits DL) (host_address (name i))); VStr file;
       VInt (u32 line); VInt (u32 slot)]
      (_sym_push_path_constraint_with_loc (Some h) z (wrap (ptrBits DL) (host_address (name i)))
         file (sgn 32 (u32 line)) (sgn 32 (u32 slot)))); [done|done| |done|].
    - constructor; [by apply arg_expr|]. constructor; [eapply arg_val; by rewrite Em|].
      repeat constructor.
    - change (sem_value (CInt 1 z)) with (VBool (negb (z =? 0))) in Hh.
    rewrite (int1_bool z) at 1 by done.
      eapply returns_impl; [|done]. apply push_returns; [apply C|apply Hh|exact Hf]. }
  intros _ m2 [S E]. split; [done|]. cbn [result_ok]. by eexists.
Qed.

(** The computation that pushes the condition [c]. *)
Definition push_call i c slot (n : nat) : rcall :=
  {| rc_dst := n; rc_fn := pushPathConstraintWithLoc; rc_args := push_arguments DL host_address i c slot |}.

Lemma push_syms i c slot : syms (push_arguments DL host_address i c slot) = [c].
Proof. unfold push_arguments. by destruct (locate i). Qed.

Lemma push_run i c slot s :
  (r <- buildRuntimeCall pushPathConstraintWithLoc (push_arguments DL host_address i c slot) ;;
   registerOptional r None) s =
  Ok tt (if all_concrete (symbolicExpressions s) (push_arguments DL host_address i c slot) then s
         else registered None [push_call i c slot (fresh s)]
                (upd_code [call_item (symbolicExpressions s) (push_call i c slot (fresh s))] (S (fresh s)) s)).
Proof.
  unfold bind. rewrite build_call. destruct (all_concrete _ _); [done|].
  cbv zeta. cbn [registerOptional]. by apply (register_comp None [push_call i c slot (fresh s)]).
Qed.

Lemma push_ok i c slot s :
  sx_below (fresh s) (symbolicExpressions s) → getType c = IntTy 1 →
  comp_ok (fresh s) (S (fresh s)) (symbolicExpressions s) [push_call i c slot (fresh s)].
Proof.
  intros Hb Hc. apply (one_call_ok s pushPathConstraintWithLoc); rewrite ?push_syms; [done..| |].
  - unfold push_arguments. destruct (locate i). by repeat constructor.
  - constructor; [by rewrite Hc|done].
Qed.

Lemma exec_push (Hptr : ptrBits DL = 64) E i c slot s z tail n code n' m :
  sx_below (fresh s) (symbolicExpressions s) → getType c = IntTy 1 → plain_file i = true →
  comp_converted DL ρ tail (erase_map E (symbolicExpressions s)) [push_call i c slot (fresh s)] n code n' →
  (S (fresh s) ≤ n)%nat → consistent ρ (rts m) →
  agree ρ (erase_map E (symbolicExpressions s))
    ((call_item (erase_map E (symbolicExpressions s)) <$> [push_call i c slot (fresh s)]) ++ tail) m →
  eval_operand DL (cenv m) c = Some (CInt 1 z) →
  wp (exec_code DL code) m (λ _ m1, mstep ρ (owned (fresh s) (S (fresh s)) n) m m1).
Proof.
  intros Hb Hc Hf Cv Hn C A Hz.
  eapply wp_impl; [eapply (exec_comp DL ρ tail (fresh s) (S (fresh s))
    (erase_map E (symbolicExpressions s)) _ n code n' [CInt 1 z] None m)|]; try done.
  - by apply comp_ok_erase, push_ok.
  - cbn [all_syms mbind list_bind push_call rc_args]. rewrite push_syms. by repeat constructor.
  - apply runs_one; [cbn [push_call rc_args]; by rewrite push_syms|]. by apply push_runs.
  - by intros _ m1 [S _].
Qed.

(** The pass has added code that changes nothing but the library's state. *)
Definition harmless s ps s' (P : mach → Prop) : Prop :=
  symbolicExpressions s' = symbolicExpressions s ∧ (fresh s ≤ fresh s')%nat ∧
  ∀ E tail n code n' m, converted DL ρ tail n (erase_chunk E <$> ps) code n' → (fresh s' ≤ n)%nat →
    consistent ρ (rts m) →
    agree ρ (erase_map E (symbolicExpressions s)) (flatten (erase_chunk E <$> ps) ++ tail) m → P m →
    wp (exec_code DL code) m (λ _ m1, mstep ρ (owned (fresh s) (fresh s') n) m m1).

Lemma push_handled (Hptr : ptrBits DL = 64) x i c slot s :
  sx_below (fresh s) (symbolicExpressions s) → getType c = IntTy 1 → plain_file i = true →
  ∃ ps s', (r <- buildRuntimeCall pushPathConstraintWithLoc (push_arguments DL host_address i c slot) ;;
            registerOptional r None) s = Ok tt s' ∧
    visited x s ps None s' ∧
    harmless s ps s' (λ m, ∃ z, eval_operand DL (cenv m) c = Some (CInt 1 z)).
Proof.
  intros Hb Hc Hf. rewrite push_run. destruct (all_concrete _ _).
  { exists [], s. split_and!; [done|apply visited_refl|]. split; [done|]. split; [done|].
    intros E tail n code n' m Cv _ C _ _. inversion Cv; subst. by apply exec_nil, mstep_refl. }
  eexists _, _. split_and!; [done|by apply visited_comp_only, push_ok|]. split; [done|]. split; [cbn; lia|].
  intros E tail n code n' m Cv Hn C A (z&Hz). apply converted_comp_inv in Cv as (code1&->&Cv).
  by eapply (exec_push Hptr E i c slot s z tail n code1 n').
Qed.

(** ** Branches *)
Lemma condbr_run i c ct lo g m e' mem' :
  kind i = CondBr c ct lo g → run_inst DL i (cenv m) (memory (rts m)) = Some (e', mem') →
  mem' = memory (rts m) ∧ ∃ z, eval_operand DL (cenv m) c = Some (CInt 1 z).
Proof. intros K R. unfold run_inst in R. rewrite K in R. repeat case_match; simplify_eq. eauto. Qed.

(** A condition that does not control a loop is pushed each time. *)
Lemma handled_condbr (Hptr : ptrBits DL = 64) i c ct lo g s :
  kind i = CondBr c ct lo g → (∀ q, lo = Some q → xorb (S0In q) (S1In q) = false) →
  sx_below (fresh s) (symbolicExpressions s) → getType c = IntTy 1 → plain_file i = true → handled i s.
Proof.
  intros K Hlo Hb Hc Hf.
  assert (∃ slot, visit_before DL host_address i s =
    (r <- buildRuntimeCall pushPathConstraintWithLoc (push_arguments DL host_address i c slot) ;;
     registerOptional r None) (set_ID (u64 (ID s + 1)) s)) as (slot&E).
  { unfold visit_before. rewrite K. unfold visitBranchInst, next_slot.
    destruct lo as [q|]; [|by eexists]. rewrite (Hlo q eq_refl). by eexists. }
  destruct (push_handled Hptr (name i) i c slot (set_ID (u64 (ID s + 1)) s)) as (ps&s'&Ep&V&H); [done..|].
  exists ps, None, s'. split_and!; [by rewrite E| |done|].
  { apply (visited_trans _ s [] (set_ID (u64 (ID s + 1)) s)); [apply visited_set_ID|done]. }
  intros E' tail n code n' m e' mem' _ Cv Hn C A R. destruct H as (_&_&H).
  destruct (condbr_run _ _ _ _ _ _ _ _ K R) as [-> Hz].
  eapply wp_impl; [by eapply (H E' tail n code n' m)|].
  intros [] m1 S1. split; [by apply mstep_to_same|done].
Qed.

(** *** The condition of a loop *)
Definition flag_mach (f : nat) (b : bool) m : mach :=
  {| regs := regs m; flags := <[f := b]> (flags m); cenv := cenv m; rts := rts m |}.

Lemma flag_step D f b m : consistent ρ (rts m) → mstep ρ D m (flag_mach f b m).
Proof. intros C. by split_and!. Qed.

(** What is generated for the condition [c]: [None] when it has no expression. *)
Definition loop_state s : symbolizer :=
  set_entry (StoreFlag (fresh s) false :: entry s)
    (upd_code [LoadFlag (S (fresh s)) (fresh s)] (S (S (fresh s))) s).

Definition loop_chunks i c s : list chunk :=
  let g := (S (fresh s), fresh s) in
  CItem (LoadFlag g.1 g.2) ::
  (if all_concrete (symbolicExpressions s) (push_arguments DL host_address i c (-1))
   then [CItem (If g.1 false [StoreFlag g.2 true])]
   else [CComp (Some g) (symbolicExpressions s) [push_call i c (-1) (S (S (fresh s)))]]).

Definition after_loop i c s : symbolizer :=
  let s1 := loop_state s in
  if all_concrete (symbolicExpressions s) (push_arguments DL host_address i c (-1))
  then upd_code [If (S (fresh s)) false [StoreFlag (fresh s) true]] (fresh s1) s1
  else registered None [push_call i c (-1) (fresh s1)]
         (upd_code [If (S (fresh s)) false [call_item (symbolicExpressions s) (push_call i c (-1) (fresh s1));
                                           StoreFlag (fresh s) true]] (S (fresh s1)) s1).

Lemma visit_loop_run i c s :
  visit_loop_condition DL host_address i c s = Ok tt (after_loop i c s).
Proof.
  unfold visit_loop_condition. rewrite (bind_Ok _ _ _ _ _ (gen_new (fresh s) s eq_refl)).
  unfold bind at 1, modify at 1.
  match goal with |- context [bind new_name _ ?x] => set (s0 := x) end.
  rewrite (bind_Ok _ _ _ _ _ (gen_new (S (fresh s)) s0 eq_refl)).
  unfold bind at 1, emit at 1, modify at 1. unfold bind at 1, in_block at 1.
  unfold bind at 1, get at 1. unfold bind at 1, modify at 1.
  match goal with |- context [set_code [] ?x] => set (s1 := x) end.
  pose proof (push_run i c (-1) (set_code [] s1)) as E.
  unfold bind at 1 in E. unfold bind at 1, bind at 1.
  destruct (buildRuntimeCall _ _ _) as [r s2|]; [|done]. unfold bind at 1. rewrite E.
  change (symbolicExpressions (set_code [] s1)) with (symbolicExpressions s).
  unfold after_loop, loop_state. destruct (all_concrete _ _); cbn.
  - unfold emit, modify, upd_code, set_fresh, set_entry, set_code. cbn.
    by rewrite !app_nil_r, <-!app_assoc.
  - unfold emit, modify, upd_code, registered, set_uses, set_fresh, set_entry, set_code. cbn.
    by rewrite !app_nil_r, <-!app_assoc.
Qed.

Lemma loop_chunks_ok i c s :
  sx_below (fresh s) (symbolicExpressions s) → getType c = IntTy 1 →
  chunks_ok (fresh s) (loop_chunks i c s) (fresh (after_loop i c s)).
Proof.
  intros Hb Hc. exists (S (S (fresh s))). split_and!; [lia|constructor|]. unfold after_loop.
  destruct (all_concrete _ _).
  - exists (S (S (fresh s))). by split_and!; [|constructor|].
  - exists (S (S (S (fresh s)))). split_and!; [lia| |done]. apply (push_ok i c (-1) (loop_state s)); [|done].
    intros x r Hx. specialize (Hb _ _ Hx). cbn. lia.
Qed.

Lemma visited_loop i c s :
  sx_below (fresh s) (symbolicExpressions s) → getType c = IntTy 1 →
  visited (name i) s (loop_chunks i c s) None (after_loop i c s).
Proof.
  intros Hb Hc. split; try done; try by apply loop_chunks_ok; unfold after_loop, loop_chunks.
  - unfold after_loop, loop_chunks. destruct (all_concrete _ _); cbn; by rewrite <-app_assoc.
  - unfold after_loop, loop_chunks. destruct (all_concrete _ _); cbn; by rewrite ?app_nil_r.
  - unfold after_loop. by destruct (all_concrete _ _).
  - unfold after_loop. by destruct (all_concrete _ _).
  - exists [StoreFlag (fresh s) false]. split_and!.
    + unfold after_loop. by destruct (all_concrete _ _).
    + constructor; [by eexists|constructor].
    + intros f (d&Hd). unfold loop_chunks in Hd. destruct (all_concrete _ _); cbn in Hd;
        rewrite !elem_of_cons, elem_of_nil in Hd; destruct Hd as [[= _ ->]|[?|?]]; try done; by left.
  - unfold loop_chunks. destruct (all_concrete _ _); by repeat constructor.
Qed.

(** The flag is read, and unless it was set, the condition is pushed. *)
Lemma exec_guarded D flag seen (code : list item) m :
  D seen → consistent ρ (rts m) → is_Some (flags m !! flag) →
  (∀ m1, mstep ρ (λ r, r = seen) m m1 → flags m1 = flags m →
     wp (exec_code DL code) m1 (λ _ m2, mstep ρ D m1 m2)) →
  wp (exec_code DL [LoadFlag seen flag; If seen false (code ++ [StoreFlag flag true])]) m
    (λ _ m', mstep ρ D m m').
Proof.
  intros Hd C [b Hb] H. set (m1 := set_reg_mach seen (RBit b) (rts m) m).
  assert (mstep ρ (λ r, r = seen) m m1) as S1 by by apply set_reg_step.
  assert (mstep ρ D m m1) as S1' by (eapply mstep_weaken; [|exact S1]; by intros r ->).
  apply exec_cons. exists tt, m1. split.
  { cbn [exec_item]. unfold get_flag, bind, get. by rewrite Hb. }
  apply exec_cons. assert (regs m1 !! seen = Some (RBit b)) as B by (cbn; by rewrite lookup_insert_eq).
  destruct b.
  - apply exec_if_false; [exact B|]. by apply exec_nil.
  - apply exec_if_true; [exact B|]. apply exec_app. eapply wp_impl; [by apply H|].
    intros [] m2 S2. apply exec_cons. exists tt, (flag_mach flag true m2). split; [done|].
    apply exec_nil, exec_nil. eapply mstep_trans; [exact S1'|]. eapply mstep_trans; [exact S2|].
    by apply flag_step, (mstep_consistent _ _ _ _ S2).
Qed.

Lemma handled_loop (Hptr : ptrBits DL = 64) i c ct q s :
  kind i = CondBr c ct (Some q) false → xorb (S0In q) (S1In q) = true →
  sx_below (fresh s) (symbolicExpressions s) → getType c = IntTy 1 → plain_file i = true → handled i s.
Proof.
  intros K Hq Hb Hc Hf. set (s0 := set_ID (u64 (ID s + 1)) s).
  exists (loop_chunks i c s0), None, (after_loop i c s0). split_and!.
  - unfold visit_before. rewrite K. unfold visitBranchInst, next_slot. rewrite Hq. by apply (visit_loop_run i c s0).
  - apply (visited_trans _ s [] s0); [apply visited_set_ID|]. by apply visited_loop.
  - done.
  - intros E tail n code n' m e' mem' HE Cv Hn C A R.
    destruct (condbr_run _ _ _ _ _ _ _ _ K R) as [-> (z&Hz)].
    assert (∃ code1, code = [LoadFlag (S (fresh s)) (fresh s);
        If (S (fresh s)) false (code1 ++ [StoreFlag (fresh s) true])] ∧
      ∀ m1, mstep ρ (λ r, r = S (fresh s)) m m1 → flags m1 = flags m →
        wp (exec_code DL code1) m1 (λ _ m2, mstep ρ (owned (fresh s) (fresh (after_loop i c s0)) n) m1 m2))
      as (code1&->&H1).
    { unfold loop_chunks in Cv, A. unfold after_loop in Hn |- *.
      destruct (all_concrete _ _); cbn [fmap list_fmap erase_chunk] in Cv, A;
        apply (converted_app_inv _ _ _ _ [_] [_]) in Cv as (code1&n1&code2&->&Hn1&Cv1&Cv2);
        apply (converted_items_inv _ _ _ _ [_]) in Cv1 as [-> ->].
      - apply (converted_items_inv _ _ _ _ [_]) in Cv2 as [-> ->]. exists []. split; [done|].
        intros m1 S1 _. by apply exec_nil, mstep_refl, (mstep_consistent _ _ _ _ S1).
      - apply converted_comp_inv in Cv2 as (code1&->&Cv2). exists code1. split; [done|].
        intros m1 S1 Ef. cbn in Hn.
        eapply wp_impl; [eapply (exec_push Hptr E i c (-1) (loop_state s0) z tail n code1 n' m1)|]; try done.
        + intros x r Hx. specialize (Hb _ _ Hx). cbn. lia.
        + by apply (mstep_consistent _ _ _ _ S1).
        + eapply (agree_kept ρ _ (fresh s)); [| |apply S1|apply S1| | |exact A].
          * intros x r [Hx _]%erase_map_lookup. by eapply Hb.
          * split.
            -- intros r. rewrite !uses_app. intros [Hr|Hr]; [left|by right].
               change (uses r (enclose (Some (S (fresh s0), fresh s0)) (call_item (erase_map E (symbolicExpressions s0))
                 <$> [push_call i c (-1) (S (S (fresh s0)))]))).
               unfold uses. by rewrite enclose_uses.
            -- intros f (d&Hd). exists d. set_solver.
          * intros f. by rewrite Ef.
          * intros r Hr. destruct S1 as (_&_&_&_&F). apply F. lia.
        + by rewrite (proj1 S1).
        + intros [] m2 S2. eapply mstep_weaken; [|exact S2]. unfold owned. cbn. lia. }
    eapply wp_impl; [apply (exec_guarded (owned (fresh s) (fresh (after_loop i c s0)) n)); [|done| |exact H1]|].
    + left. unfold after_loop. destruct (all_concrete _ _); cbn; lia.
    + apply (proj2 A). exists (S (fresh s)). apply elem_of_app. left. by left.
    + intros [] m1 S1. split; [by apply mstep_to_same|done].
Qed.

Lemma handled_ID_only i s :
  visit_before DL host_address i s = Ok tt (set_ID (u64 (ID s + 1)) s) →
  (∀ e mem e' mem', run_inst DL i e mem = Some (e', mem') → mem' = mem) → handled i s.
Proof.
  intros E Hmem. exists [], None, (set_ID (u64 (ID s + 1)) s).
  split_and!; [done|apply visited_set_ID|done|].
  intros E' tail n code n' m e' mem' _ Cv _ C _ R. inversion Cv; subst.
  rewrite (Hmem _ _ _ _ R). apply exec_nil. split; [|done]. by apply mstep_to_same, mstep_refl.
Qed.

(** [visitBranchInst] on conditional branches. *)
Lemma handled_branch (Hptr : ptrBits DL = 64) i c ct lo g s :
  kind i = CondBr c ct lo g → sx_below (fresh s) (symbolicExpressions s) → getType c = IntTy 1 →
  plain_file i = true → handled i s.
Proof.
  intros K Hb Hc Hf. destruct lo as [q|]; [|by eapply handled_condbr].
  destruct (xorb (S0In q) (S1In q)) eqn:Hq.
  - destruct g; [|by eapply handled_loop]. apply handled_ID_only.
    + unfold visit_before. rewrite K. unfold visitBranchInst, next_slot. by rewrite Hq.
    + intros e mem e' mem' R. unfold run_inst in R. rewrite K in R. by repeat case_match; simplify_eq.
  - eapply (handled_condbr Hptr); [exact K| |done..]. by intros q' [= <-].
Qed.

(** The choice of an expression. *)
Lemma exec_select D m dst c et ef z v u :
  D dst → consistent ρ (rts m) → eval_operand DL (cenv m) c = Some (CInt 1 z) →
  agreesv ρ m et v → agreesv ρ m ef u →
  wp (exec_item DL (SelectExpr dst c et ef)) m
    (λ _ m1, mstep ρ D m m1 ∧ agreesv ρ m1 (Some dst) (if z =? 0 then u else v)).
Proof.
  intros Hd C Ez (ot&Eot&Rt) (of_&Eof&Rf).
  set (o := if z_bool z then ot else of_).
  exists tt, (set_reg_mach dst (RExpr o) (rts m) m). split.
  { assert (get_int DL c m = Ok z m) as Gc by (unfold get_int, get_val, bind, get; by rewrite Ez).
    assert (get_expr et m = Ok ot m) as Gt by (unfold get_expr, bind, get; by rewrite Eot).
    assert (get_expr ef m = Ok of_ m) as Gf by (unfold get_expr, bind, get; by rewrite Eof).
    cbn [exec_item]. rewrite (bind_Ok _ _ _ _ _ Gc), (bind_Ok _ _ _ _ _ Gt).
    by rewrite (bind_Ok _ _ _ _ _ Gf). }
  split; [by apply set_reg_step|]. exists o. split; [apply set_reg_read|].
  subst o. unfold z_bool. destruct (z =? 0); cbn [negb]; [exact Rf|exact Rt].
Qed.

Lemma select_run i c t f e mem e' mem' :
  kind i = SelectInst c t f → run_inst DL i e mem = Some (e', mem') →
  mem' = mem ∧ ∃ z v u, eval_operand DL e c = Some (CInt 1 z) ∧
    eval_operand DL e t = Some v ∧ eval_operand DL e f = Some u ∧
    e' !! name i = Some (if z =? 0 then u else v).
Proof.
  intros K R. unfold run_inst in R. rewrite K in R.
  apply def_some in R as (v&Ev&_&->&Ee'). split; [done|].
  destruct (eval_operand DL e c) as [[w z|]|]; try done. destruct w as [|[| |]|]; try done.
  destruct (eval_operand DL e t) as [v1|]; [|done]. destruct (eval_operand DL e f) as [u|]; [|done].
  injection Ev as <-. eauto 10.
Qed.

(** What the visitor generates after the path constraint. *)
Lemma visit_select_run i c t f s s1 :
  kind i = SelectInst c t f → symbolicExpressions s1 = symbolicExpressions s →
  (r <- buildRuntimeCall pushPathConstraintWithLoc (push_arguments DL host_address i c (ID s)) ;;
   registerOptional r None) (set_ID (u64 (ID s + 1)) s) = Ok tt s1 →
  let et := sym_lookup (symbolicExpressions s) t in
  let ef := sym_lookup (symbolicExpressions s) f in
  visit_before DL host_address i s =
    Ok tt (if decide (et = None ∧ ef = None) then s1
           else set_result i (Some (fresh s1))
                  (upd_code [SelectExpr (fresh s1) c et ef] (S (fresh s1)) s1)).
Proof.
  intros K Es Ep et ef. unfold visit_before. rewrite K. unfold visitSelectInst, next_slot.
  unfold bind at 1, bind at 1, get at 1. unfold bind at 1, modify at 1, ret at 1.
  assert (∀ X : M symbolizer unit,
    (r <- buildRuntimeCall pushPathConstraintWithLoc (push_arguments DL host_address i c (ID s)) ;;
     registerOptional r None ;;; X) (set_ID (u64 (ID s + 1)) s) = X s1) as ->.
  { intros X. unfold bind in *. destruct (buildRuntimeCall _ _ _) as [r s2|]; [|done].
    by rewrite Ep. }
  unfold bind at 1, get at 1. rewrite !getSymbolicExpression_lookup, Es.
  fold et ef. unfold set_expression. case_decide as D.
  - by destruct D as [-> ->].
  - destruct et, ef; try done. by destruct D.
Qed.

Lemma handled_select (Hptr : ptrBits DL = 64) i c t f s :
  kind i = SelectInst c t f → sx_below (fresh s) (symbolicExpressions s) →
  getType c = IntTy 1 → plain_file i = true → handled i s.
Proof.
  intros K Hb Hc Hf. set (s0 := set_ID (u64 (ID s + 1)) s).
  destruct (push_handled Hptr (name i) i c (ID s) s0) as (ps&s1&Ep&V&Es&Hle&H); [done..|].
  pose proof (visit_select_run i c t f s s1 K Es Ep) as E. cbv zeta in E.
  change (symbolicExpressions s0) with (symbolicExpressions s) in *.
  change (fresh s0) with (fresh s) in *.
  assert (visited (name i) s ps None s1) as V0.
  { apply (visited_trans _ s [] s0); [apply visited_set_ID|done]. }
  set (et := sym_lookup (symbolicExpressions s) t) in *.
  set (ef := sym_lookup (symbolicExpressions s) f) in *.
  destruct (decide (et = None ∧ ef = None)) as [_|Hne].
  - exists ps, None, s1. split_and!; [exact E|done|done|].
    intros E' tail n code n' m e' mem' _ Cv Hn C A R.
    destruct (select_run _ _ _ _ _ _ _ _ K R) as (->&z&v&u&Ez&_).
    eapply wp_impl; [eapply (H E' tail n code n' m); [done..|by exists z]|].
    intros [] m1 S1. split; [by apply mstep_to_same|done].
  - set (it := SelectExpr (fresh s1) c et ef) in *.
    set (s2 := upd_code [it] (S (fresh s1)) s1) in *.
    exists (ps ++ [CItem it]), (Some (Some (fresh s1))), (set_result i (Some (fresh s1)) s2).
    split_and!; [exact E| |apply result_new; cbn; lia|].
    + eapply visited_trans; [exact V0|]. apply (visited_trans _ _ [CItem it] s2).
      * apply visited_item; [constructor|lia|done..].
      * apply visited_result. intros r [= <-]. cbn. lia.
    + intros E' tail n code n' m e' mem' HE Cv Hn C A R. rewrite fmap_app in Cv, A.
      destruct (select_run _ _ _ _ _ _ _ _ K R) as (->&z&v&u&Ez&Et&Ef&Ee).
      apply converted_app_inv in Cv as (code1&n1&code2&->&Hn1&Cv1&Cv2).
      apply (converted_items_inv DL ρ tail n1 [map_uses (erase E') it]) in Cv2 as [-> ->].
      rewrite flatten_app, <-app_assoc in A. cbn in Hn.
      apply exec_app. eapply wp_impl; [eapply (H E' _ n code1 n1 m); [done|lia|done|exact A|by exists z]|].
      intros [] m1 S1. cbn beta in S1.
      assert (∀ w c', w = t ∨ w = f → eval_operand DL (cenv m) w = Some c' →
        agreesv ρ m1 (erase E' (sym_lookup (symbolicExpressions s) w)) c') as Hag.
      { intros w c' Hw Ew. rewrite <-sym_lookup_erase.
        eapply agrees_step; [exact S1| |eapply agree_operand; [exact A| |exact Ew]].
        - intros r Hr. rewrite sym_lookup_erase in Hr. apply erase_inv in Hr as [Hr _].
          apply (sym_lookup_below _ _ _ Hb) in Hr. unfold owned. lia.
        - intros r Hr. rewrite sym_lookup_erase in Hr. apply uses_app. right. unfold uses. cbn.
          apply orb_true_iff. left. unfold uses_expr. apply orb_true_iff.
          destruct Hw as [-> | ->]; [left|right]; by apply bool_decide_eq_true. }
      assert (consistent ρ (rts m1)) as C1 by by eapply mstep_consistent.
      apply exec_cons. eapply wp_impl.
      { apply (exec_select (owned (fresh s) (S (fresh s1)) n) m1 (fresh s1) c _ _ z v u);
          [left; lia|done|by rewrite (proj1 S1)|apply Hag; auto|apply Hag; auto]. }
      intros [] m2 [S2 R2]. apply exec_nil. split.
      { apply mstep_to_same. eapply mstep_trans; [eapply mstep_weaken; [|exact S1]|exact S2].
        unfold owned. intros r. cbn. lia. }
      intros r w [= <-] _ _ Hw. rewrite Ee in Hw. injection Hw as <-. exact R2.
Qed.

(** ** Items in front of the instruction *)

(** Code that consists of single items. *)
Lemma flatten_items l : flatten (CItem <$> l) = l.
Proof. induction l as [|it l IH]; [done|]. cbn. by f_equal. Qed.

Lemma visited_items x l n s :
  chunks_ok (fresh s) (CItem <$> l) n → Forall plain_item l → no_reads l = true →
  visited x s (CItem <$> l) None (upd_code l n s).
Proof.
  intros H Hp Hr. assert (comps (CItem <$> l) = []) as Ec.
  { clear. induction l as [|it l IH]; done. }
  split; rewrite ?flatten_items, ?Ec, ?app_nil_r; try done. by apply initialised_same.
Qed.

Lemma erase_items E (l : list item) : erase_chunk E <$> (CItem <$> l) = CItem <$> (map_uses (erase E) <$> l).
Proof. by rewrite <-!list_fmap_compose. Qed.

Definition range (lo hi r : nat) : Prop := (lo ≤ r < hi)%nat.

Lemma prepares_items i sx lo hi l upd :
  (∀ E m e' mem' tail, avoids E lo hi → consistent ρ (rts m) →
     agree ρ (erase_map E sx) ((map_uses (erase E) <$> l) ++ tail) m →
     run_inst DL i (cenv m) (memory (rts m)) = Some (e', mem') →
     wp (exec_code DL (map_uses (erase E) <$> l)) m (λ _ m1, mstep_to ρ mem' (range lo hi) m m1 ∧
       ∀ r v, upd = Some (Some r) → e' !! name i = Some v → agrees ρ m1 (Some r) (sem_value v))) →
  prepares DL ρ i sx lo hi (CItem <$> l) upd.
Proof.
  clear host_address. intros H E tail n code n' m e' mem' HE Cv _ C A R. rewrite erase_items in *.
  apply converted_items_inv in Cv as [-> ->].
  rewrite flatten_items in A. eapply wp_impl; [by apply (H E m e' mem' tail)|].
  intros _ m1 [(H1&H2&H3&H4&H5) Hu]. split; [|eauto]. split_and!; try done.
  intros r Hr. apply H5. unfold range, owned in *. tauto.
Qed.

Lemma visited_call x f args s :
  visited x s [CItem (Call (fresh s) f args)] None
    (upd_code [Call (fresh s) f args] (S (fresh s)) s).
Proof. apply visited_item; [by repeat constructor|lia|done..]. Qed.

(** ** [visitReturnInst] *)
Lemma consistent_calls r args (s : @rt simple_backend) :
  consistent ρ (set_calls r args s) ↔ consistent ρ s.
Proof. done. Qed.

Lemma handled_return i v s :
  kind i = ReturnInst v → sx_below (fresh s) (symbolicExpressions s) → handled i s.
Proof.
  intros K Hb. destruct v as [v|].
  2: { apply handled_nothing; [unfold visit_before; by rewrite K|].
       intros e mem e' mem' R. unfold run_inst in R. rewrite K in R. by injection R as _ <-. }
  set (call := Call (fresh s) setReturnExpression [AExpr (sym_lookup (symbolicExpressions s) v)]).
  exists (CItem <$> [call]), None, (upd_code [call] (S (fresh s)) s). split_and!.
  - unfold visit_before. rewrite K. unfold visitReturnInst, bind at 1, get.
    assert (getSymbolicExpressionOrNull s v = sym_lookup (symbolicExpressions s) v) as ->
      by apply getSymbolicExpression_lookup.
    by rewrite (bind_Ok _ _ _ _ _ (gen_call _ _ (fresh s) s eq_refl)).
  - apply visited_call.
  - done.
  - apply prepares_items. intros E m e' mem' tail _ C A R.
    cbn [fmap list_fmap map_uses map_expr call] in A |- *. rewrite <-sym_lookup_erase in A |- *.
    unfold run_inst in R. rewrite K in R.
    destruct (eval_operand DL (cenv m) v) as [c|] eqn:Ev; [|done]. injection R as <- <-.
    destruct (agree_operand DL ρ _ _ m v c A) as (o&Eo&_); [|done|].
    { intros r Hr. apply uses_app. left. unfold uses. cbn. rewrite Hr. cbn.
      unfold uses_expr. by rewrite bool_decide_eq_true_2. }
    apply exec_cons. eapply exec_call; [by constructor; [by apply arg_expr|constructor]|].
    apply wp_bind. eexists _, _. split; [reflexivity|]. apply wp_ret, exec_nil. split; [|done].
    apply mstep_to_same. apply set_reg_step; [unfold range; cbn; lia|reflexivity|done|done].
Qed.
End visitors.
