(* ===== verification/VisitSwitch.v ===== *)
(** * Switches

    [visitSwitchInst] of compiler/Symbolizer.cpp: when the condition has an
    expression, one path constraint is pushed for every case, in a block of its
    own. *)

From S2P Require Import Prelude Smt Z3Api Interface ByteSeq BitArrays Arith SimpleBackend.
From S2P Require Import SimpleSpec PathConstraints State Shadow Memory Dispatch Symbolizer.
From S2P Require Import SymbolizerSem ShortCircuit Computations Simulation Visitors VisitScalar.
From S2P Require Import VisitEffects Interface.

#[local] Open Scope Z_scope.

Definition supported_switch (i : inst) (c : operand) : bool :=
  match getType c with IntTy _ => creatable (getType c) | _ => false end && plain_file i.

Section switch.
Context {Z3I : Z3} {ZL : Z3Laws Z3I} {KC : Calls} {KI : ICalls} {FR : Frame}.
Context (DL : DataLayout) (ρ : RunInput) (Hptr : ptrBits DL = 64) (host_address : nat → Z).
Implicit Types (m : mach) (s : symbolizer).

(** ** The generated code *)
Section code.
Context (i : inst) (c : operand) (e : option nat) (slot : Z).

Definition case_constant (z : Z) : operand := ConstantInt (int_width c) z.

Definition case_push (n : nat) : item :=
  Call (S (S (S n))) pushPathConstraintWithLoc
    [AExpr (Some (S (S n))); ABit n; getTargetPreferredInt DL host_address (name i);
     AStr (locate i).1; AInt (u32 (locate i).2); AInt (u32 slot)].

Fixpoint case_code (n : nat) (cases : list Z) : list item :=
  match cases with
  | [] => []
  | z :: cases' =>
      ICmpEqConst n c z ::
      Call (S n) (value_call DL (case_constant z)).1 (value_call DL (case_constant z)).2 ::
      Call (S (S n)) (comparisonHandler ICMP_EQ) [AExpr e; AExpr (Some (S n))] ::
      case_push n :: case_code (4 + n) cases'
  end.
End code.

Lemma int_type_width c w : getType c = IntTy w → int_width c = w.
Proof. unfold int_width. by intros ->. Qed.

Lemma case_constant_gen c w z n :
  getType c = IntTy w → creatable (IntTy w) = true →
  gen (createValueExpression DL (getType c) (case_constant c z)) n n
    [Call n (value_call DL (case_constant c z)).1 (value_call DL (case_constant c z)).2] (S n).
Proof.
  intros Hc Hw. assert (getType c = getType (case_constant c z)) as ->.
  { cbn. by rewrite (int_type_width c w). }
  apply create_gen. cbn. by rewrite (int_type_width c w).
Qed.

Lemma push_cases_gen i c r slot w n cases :
  getType c = IntTy w → creatable (IntTy w) = true →
  gen (push_cases DL host_address i c r slot cases) n tt (case_code i c (Some r) slot n cases)
    (n + 4 * length cases).
Proof.
  intros Hc Hw. revert n. induction cases as [|z cases IH]; intros n.
  { rewrite Nat.add_0_r. apply gen_ret. }
  cbn [push_cases case_code]. destruct (locate i) as [file line] eqn:El.
  eapply gen_seq; [apply gen_new| |reflexivity].
  eapply gen_seq; [apply gen_item| |reflexivity].
  eapply gen_seq; [by eapply case_constant_gen| |reflexivity].
  eapply gen_seq; [apply gen_call| |reflexivity].
  eapply gen_seq; [apply gen_call| |].
  - replace (n + 4 * length (z :: cases))%nat with (4 + n + 4 * length cases)%nat by (cbn [length]; lia).
    apply IH.
  - unfold case_push. by rewrite El.
Qed.

Definition switch_code i c (e : option nat) slot n cases : list item :=
  [ICmpNeNull n e; If n true (case_code i c e slot (S n) cases)].

Lemma visit_switch i c cases s r w :
  kind i = SwitchInst c cases → sym_lookup (symbolicExpressions s) c = Some r →
  getType c = IntTy w → creatable (IntTy w) = true →
  visit_before DL host_address i s =
    Ok tt (upd_code (switch_code i c (Some r) (ID s) (fresh s) cases)
             (S (fresh s) + 4 * length cases) (set_ID (u64 (ID s + 1)) s)).
Proof.
  intros K Hr Hc Hw. unfold visit_before. rewrite K. unfold visitSwitchInst.
  unfold bind at 1, get at 1. rewrite getSymbolicExpression_lookup, Hr.
  unfold bind at 1, next_slot at 1. unfold bind at 1, get at 1. unfold bind at 1, modify at 1, ret at 1.
  set (s1 := set_ID (u64 (ID s + 1)) s). change (ID s) with (ID s).
  assert (gen (haveSymbolicCondition <- new_name ;;
      emit (ICmpNeNull haveSymbolicCondition (Some r)) ;;;
      constraintBlock <- in_block (push_cases DL host_address i c r (ID s) cases) ;;
      emit (If haveSymbolicCondition true constraintBlock.2)) (fresh s) tt
    (switch_code i c (Some r) (ID s) (fresh s) cases) (S (fresh s) + 4 * length cases)) as G.
  { eapply gen_seq; [apply gen_new| |reflexivity].
    eapply gen_seq; [apply gen_item| |reflexivity].
    eapply gen_seq; [apply gen_block; by eapply push_cases_gen| |reflexivity]. apply gen_item. }
  by apply (G s1).
Qed.

(** ** Running it *)
Lemma exec_eq_const D m dst c z w x :
  D dst → consistent ρ (rts m) → eval_operand DL (cenv m) c = Some (CInt w x) →
  wp (exec_item DL (ICmpEqConst dst c z)) m
    (λ _ m', mstep ρ D m m' ∧ regs m' !! dst = Some (RBit (x =? wrap w z))).
Proof.
  intros Hd C Ev. eexists tt, (set_reg_mach dst (RBit (x =? wrap w z)) (rts m) m). split.
  - cbn [exec_item]. unfold get_val, bind, get. by rewrite Ev.
  - split; [by apply set_reg_step|]. cbn. by rewrite lookup_insert_eq.
Qed.

Lemma arg_bit m r b : regs m !! r = Some (RBit b) → arg_is DL m (ABit r) (VInt (if b then 1 else 0)).
Proof. intros E. unfold arg_is. cbn. unfold get_bit, bind, get. by rewrite E. Qed.

Lemma exec_case_push D i slot n (b : bool) m :
  D (S (S (S n))) → plain_file i = true → consistent ρ (rts m) →
  regs m !! n = Some (RBit b) → holds ρ m (Some (S (S n))) (VBool b) →
  wp (exec_item DL (case_push i slot n)) m (λ _ m', mstep ρ D m m').
Proof.
  intros Hd Hf%negb_true_iff C Hb (h&Eh&Hh).
  eapply wp_impl; [apply (exec_void DL ρ D m (S (S (S n))) pushPathConstraintWithLoc _
    [VExpr (Some h); VInt (if b then 1 else 0); VInt (wrap (ptrBits DL) (host_address (name i)));
     VStr (locate i).1; VInt (u32 (locate i).2); VInt (u32 slot)]
    (_sym_push_path_constraint_with_loc (Some h) (if b then 1 else 0)
       (wrap (ptrBits DL) (host_address (name i))) (locate i).1 (sgn 32 (u32 (locate i).2))
       (sgn 32 (u32 slot)))); try done|].
  - constructor; [by apply arg_expr|]. constructor; [by apply arg_bit|]. repeat constructor.
  - eapply returns_impl; [|done]. apply push_returns; [apply C|apply Hh|exact Hf].
  - by intros _ m' [S _].
Qed.

Lemma case_value w z m :
  0 < w → eval_operand DL (cenv m) (ConstantInt w z) = Some (CInt w (wrap w z)).
Proof.
  intros Hw. cbn. unfold checked. cbn. rewrite Z.eqb_refl. unfold int_ok.
  pose proof (wrap_bound w z ltac:(lia)). 
  by replace ((0 <? w) && (0 <=? wrap w z) && (wrap w z <? 2 ^ w)) with true by (symmetry; lia).
Qed.

(** The code for one case. *)
Lemma exec_case R i c e slot n z w x m :
  (∀ k, (k < 4)%nat → R (k + n)%nat) → (∀ r, e = Some r → ¬ R r) →
  getType c = IntTy w → creatable (IntTy w) = true → plain_file i = true → consistent ρ (rts m) →
  eval_operand DL (cenv m) c = Some (CInt w x) → holds ρ m e (sem_value (CInt w x)) →
  wp (exec_code DL (case_code i c e slot n [z])) m (λ _ m', mstep ρ R m m').
Proof.
  intros HR He Hc Hw Hf C Ev Hh. destruct (eval_int DL Hptr _ _ _ _ Ev) as (Hw0&_&_).
  pose proof (int_type_width c w Hc) as Ew.
  cbn [case_code]. apply exec_cons.
  eapply wp_impl; [by apply (exec_eq_const R m n c z w x); [apply (HR 0%nat); lia|..]|].
  intros [] m1 [S1 B1]. pose proof (mstep_consistent _ _ _ _ S1) as C1.
  assert (eval_operand DL (cenv m1) (case_constant c z) = Some (CInt w (wrap w z))) as Ez.
  { unfold case_constant. rewrite Ew. by apply case_value. }
  apply exec_cons. eapply wp_impl.
  { eapply (create_exec DL ρ Hptr (λ r, r = S n) (case_constant c z) m1 (S n)); try done.
    cbn. by rewrite Ew. }
  intros [] m2 [S2 (h2&E2&R2)]. pose proof (mstep_consistent _ _ _ _ S2) as C2.
  destruct (holds_step ρ R m m1 e _ S1 He Hh) as (h1&E1&R1).
  assert (read_expr e m2 = Some (Some h1) ∧ rep ρ (rt_backend (rts m2)) h1 (sem_value (CInt w x))) as [E1' R1'].
  { split; [|eapply rep_mono; [apply S2|done]]. rewrite (read_expr_step _ _ _ _ _ S2); [done|].
    intros r Er ->. apply (He _ Er). apply (HR 1%nat). lia. }
  apply exec_cons. eapply wp_impl.
  { apply (exec_builder DL ρ (λ r, r = S (S n)) m2 (S (S n)) (comparisonHandler ICMP_EQ) _
      [VExpr (Some h1); VExpr (Some h2)] (comparisonHandlers ICMP_EQ (Some h1) (Some h2))
      (VBool (x =? wrap w z))); [done|done| |done|].
    - constructor; [by apply arg_expr|]. constructor; [by apply arg_expr|constructor].
    - destruct (compare_builds DL ρ Hptr ICMP_EQ c (case_constant c z) (cenv m1)
        (CInt 1 (if x =? wrap w z then 1 else 0)) (rt_backend (rts m2)) [h1; h2] (CInt w x)
        (CInt w (wrap w z))) as (h3&h4&[= <- <-]&B); try done.
      + by rewrite (proj1 S1).
      + by rewrite Z.eqb_refl.
      + rewrite Hc. cbn. by rewrite orb_true_r.
      + apply C2.
      + constructor; [exact R1'|]. constructor; [exact R2|constructor].
      + by destruct (x =? wrap w z). }
  intros [] m3 [S3 H3]. apply exec_cons. eapply wp_impl.
  { apply (exec_case_push (λ r, r = S (S (S n))) i slot n (x =? wrap w z) m3); try done.
    - by eapply mstep_consistent.
    - destruct S3 as (_&_&_&_&F3). rewrite F3 by lia. destruct S2 as (_&_&_&_&F2). by rewrite F2 by lia. }
  intros [] m4 S4. apply exec_nil.
  eapply mstep_trans; [exact S1|]. eapply mstep_trans; [eapply mstep_weaken; [|exact S2]|].
  { intros r ->. apply (HR 1%nat). lia. }
  eapply mstep_trans; [eapply mstep_weaken; [|exact S3]|eapply mstep_weaken; [|exact S4]].
  - intros r ->. apply (HR 2%nat). lia.
  - intros r ->. apply (HR 3%nat). lia.
Qed.

Lemma exec_cases R i c e slot n cases w x m :
  (∀ r, (n ≤ r < n + 4 * length cases)%nat → R r) → (∀ r, e = Some r → ¬ R r) →
  getType c = IntTy w → creatable (IntTy w) = true → plain_file i = true → consistent ρ (rts m) →
  eval_operand DL (cenv m) c = Some (CInt w x) → holds ρ m e (sem_value (CInt w x)) →
  wp (exec_code DL (case_code i c e slot n cases)) m (λ _ m', mstep ρ R m m').
Proof.
  intros HR He Hc Hw Hf. revert n m HR. induction cases as [|z cases IH]; intros n m HR C Ev Hh.
  { by apply exec_nil, mstep_refl. }
  change (case_code i c e slot n (z :: cases))
    with (case_code i c e slot n [z] ++ case_code i c e slot (4 + n) cases).
  cbn [length] in HR. apply exec_app. eapply wp_impl; [apply (exec_case R i c e slot n z w x m); try done|].
  { intros k Hk. apply HR. lia. }
  intros [] m1 S1. eapply wp_impl; [apply (IH (4 + n)%nat m1)|].
  - intros r Hr. apply HR. lia.
  - by eapply mstep_consistent.
  - by rewrite (proj1 S1).
  - by eapply holds_step.
  - intros [] m2 S2. by eapply mstep_trans.
Qed.

(** ** The visitor *)
Lemma case_code_plain i c e slot n cases : Forall plain_item (case_code i c e slot n cases).
Proof. revert n. induction cases as [|z cases IH]; intros n; by repeat constructor. Qed.

Lemma case_code_names i c e slot n cases :
  within n (n + 4 * length cases) (code_names (case_code i c e slot n cases)).
Proof.
  revert n. induction cases as [|z cases IH]; intros n; [constructor|].
  cbn [case_code length]. unfold code_names in *. cbn [flat_map call_names app case_push].
  repeat (constructor; [lia|]). eapply within_weaken; [..|apply IH]; lia.
Qed.

Lemma map_value_call f V : map_expr f <$> (value_call DL V).2 = (value_call DL V).2.
Proof. unfold value_call. by repeat case_match. Qed.

Lemma map_uses_cases E i c e slot n cases :
  avoids E n (n + 4 * length cases) →
  map_uses (erase E) <$> case_code i c e slot n cases = case_code i c (erase E e) slot n cases.
Proof.
  revert n. induction cases as [|z cases IH]; intros n HE; [done|]. cbn [length] in HE.
  assert (∀ k, (n ≤ k < 4 + n)%nat → erase E (Some k) = Some k) as Hk.
  { intros k Hk. eapply erase_fresh; [exact HE|lia]. }
  cbn [case_code fmap list_fmap map_uses case_push map_expr getTargetPreferredInt].
  rewrite map_value_call, !Hk by lia. do 4 f_equal. apply IH.
  intros r Hr Hin. apply (HE r Hr). lia.
Qed.

Lemma switch_run i c cases e mem e' mem' :
  kind i = SwitchInst c cases → run_inst DL (KC := KC) i e mem = Some (e', mem') →
  e' = e ∧ mem' = mem ∧ ∃ w x, eval_operand DL e c = Some (CInt w x).
Proof. intros K. unfold run_inst. rewrite K. intros R. repeat case_match; simplify_eq. eauto. Qed.

Lemma exec_switch_code i c (e : option nat) slot n cases w x m :
  getType c = IntTy w → creatable (IntTy w) = true → plain_file i = true → below n e →
  consistent ρ (rts m) → eval_operand DL (cenv m) c = Some (CInt w x) → agreesv ρ m e (CInt w x) →
  wp (exec_code DL (switch_code i c e slot n cases)) m
    (λ _ m', mstep ρ (range n (S n + 4 * length cases)) m m').
Proof.
  intros Hc Hw Hf He C Ev (o&Eo&Ho). set (R := range n (S n + 4 * length cases)).
  assert (R n) as Hn by (unfold R, range; lia).
  set (m1 := set_reg_mach n (RBit (bool_decide (o ≠ None))) (rts m) m).
  assert (mstep ρ R m m1) as S1 by by apply set_reg_step.
  assert (regs m1 !! n = Some (RBit (bool_decide (o ≠ None)))) as B1 by (cbn; by rewrite lookup_insert_eq).
  assert (∀ r, e = Some r → r ≠ n) as Hne by (intros r Er; specialize (He r Er); lia).
  apply exec_cons. exists tt, m1. split.
  { cbn [exec_item]. unfold get_expr, bind, get. by rewrite Eo. }
  apply exec_cons. destruct o as [h|].
  - apply exec_if_true; [done|].
    eapply wp_impl; [apply (exec_cases R i c e slot (S n) cases w x m1); try done|].
    + intros r Hr. unfold R, range. lia.
    + intros r Er Hr. specialize (He r Er). unfold R, range in Hr. lia.
    + eapply (holds_step ρ (λ r, r = n)); [by apply set_reg_step|done|]. exists h. split; [done|by apply Ho].
    + intros [] m2 S2. apply exec_nil. by eapply mstep_trans.
  - apply exec_if_false; [done|]. by apply exec_nil.
Qed.

Lemma handled_switch i c cases s :
  kind i = SwitchInst c cases → sx_below (fresh s) (symbolicExpressions s) →
  supported_switch i c = true → handled DL ρ host_address i s.
Proof.
  intros K Hb [Ht Hf]%andb_prop. destruct (getType c) as [w| | | | |] eqn:Hc; try done.
  destruct (sym_lookup (symbolicExpressions s) c) as [r|] eqn:Hr.
  2: { apply handled_nothing.
       - unfold visit_before. rewrite K. unfold visitSwitchInst, bind, get.
         by rewrite getSymbolicExpression_lookup, Hr.
       - intros e mem e' mem' R. by destruct (switch_run _ _ _ _ _ _ _ K R) as (_&->&_). }
  set (l := switch_code i c (Some r) (ID s) (fresh s) cases).
  set (s0 := set_ID (u64 (ID s + 1)) s).
  exists (CItem <$> l), None, (upd_code l (S (fresh s) + 4 * length cases) s0). split_and!.
  - by apply (visit_switch i c cases s r w).
  - change (CItem <$> l) with ([] ++ (CItem <$> l)).
    eapply (visited_trans _ s [] s0); [apply visited_set_ID|].
    apply (visited_items _ l); [|by repeat constructor|done].
    exists (fresh s). split_and!; [done|constructor|].
    exists (S (fresh s) + 4 * length cases)%nat. split_and!; [cbn; lia| |done].
    eapply within_weaken; [..|apply case_code_names]; cbn; lia.
  - done.
  - apply prepares_items. intros E m e' mem' tail HE C A R.
    destruct (switch_run _ _ _ _ _ _ _ K R) as (->&->&w'&x&Ev).
    assert (w' = w) as ->.
    { destruct (eval_int DL Hptr _ _ _ _ Ev) as (_&_&[T|[T _]]); congruence. }
    assert (map_uses (erase E) <$> l = switch_code i c (erase E (Some r)) (ID s) (fresh s) cases) as El.
    { unfold l, switch_code. cbn [fmap list_fmap map_uses]. do 3 f_equal.
      apply map_uses_cases. intros k Hk Hin. apply (HE k Hk). cbn. lia. }
    rewrite El in A |- *. rewrite <-Hr, <-sym_lookup_erase in A |- *.
    eapply wp_impl; [eapply (exec_switch_code i c _ (ID s) (fresh s) cases w x m Hc Ht Hf); try done|].
    + intros k Hk. rewrite sym_lookup_erase in Hk. apply erase_inv in Hk as [Hk _].
      by eapply sym_lookup_below.
    + eapply agree_operand; [exact A| |exact Ev]. intros k Hk. apply uses_app. left. unfold uses.
      cbn [switch_code existsb item_uses]. rewrite Hk. unfold uses_expr. by rewrite bool_decide_eq_true_2.
    + intros [] m1 S1. split; [|done]. by apply mstep_to_same.
Qed.
End switch.
