(* ===== verification/VisitMemory.v ===== *)
(** * The visitors of memory accesses

    [visitLoadInst], [visitStoreInst] and the memory intrinsics of
    compiler/Symbolizer.cpp: the library reads and writes the shadow of the
    bytes that the instruction reads and writes. *)

From S2P Require Import Prelude Smt Z3Api Interface ByteSeq BitArrays Arith SimpleBackend.
From S2P Require Import SimpleSpec State Shadow Memory Dispatch Symbolizer.
From S2P Require Import SymbolizerSem ShortCircuit Computations Simulation Visitors VisitScalar.
From S2P Require Import VisitEffects Interface.

#[local] Open Scope Z_scope.

(** What the pass relies on of LLVM's data layout. *)
Record layout_ok (DL : DataLayout) : Prop := {
  layout_ptr : ptrBits DL = 64;
  (** [getTypeStoreSize]: the bytes that a store of the type overwrites. *)
  layout_store t n : scalar_bytes DL t = Some n → getTypeStoreSize DL t = Z.of_nat n;
}.

Section visitors.
Context {Z3I : Z3} {ZL : Z3Laws Z3I} {KC : Calls} {KI : ICalls} {FR : Frame}.
Context (DL : DataLayout) (ρ : RunInput) (host_address : nat → Z) (L : layout_ok DL).
Implicit Types (m : mach) (s : symbolizer).

#[local] Abbreviation handled := (handled DL ρ host_address).
#[local] Abbreviation le := (dl_little_endian DL).

(** ** Scalars in memory *)
Lemma scalar_bytes_width t n :
  scalar_bytes DL t = Some n →
  (0 < n)%nat ∧ isLittleEndian DL t = le ∧
  (t = IntTy 1 ∧ n = 1%nat ∨
   t ≠ IntTy 1 ∧ (∀ z, sem_value (CInt (scalar_width DL t) z) = VBV (8 * Z.of_nat n) z) ∧
   scalar_width DL t = 8 * Z.of_nat n).
Proof.
  destruct t as [w| | | | |]; cbn; try done.
  - destruct (Z.eqb_spec w 1) as [->|Hw]; [intros [= <-]; split_and!; [lia|done|by left]|].
    destruct (_ && _) eqn:E; [|done]. intros [= <-].
    apply andb_prop in E as [H0%Z.ltb_lt H8%Z.eqb_eq].
    assert (w = 8 * (w / 8)) as Ew by (apply Z_div_exact_full_2; lia).
    assert (0 < w / 8) by lia.
    split_and!; [lia|done|]. right. split_and!; [congruence| |lia].
    intros z. unfold llvm_value. rewrite (proj2 (Z.eqb_neq w 1)) by done. f_equal. lia.
  - rewrite (layout_ptr _ L). change (Z.to_nat (64 / 8)) with 8%nat. intros [= <-].
    split_and!; [lia|done|]. right. by split_and!.
Qed.

Lemma mem_value_bytes xs : mem_value le xs = VBV (8 * Z.of_nat (length xs)) (of_be (memory_order DL xs)).
Proof.
  unfold mem_value, bytes_value, memory_order. destruct le; [|done].
  rewrite nbits_rev. done.
Qed.

(** ** Calls on expressions that may be null *)
Lemma exec_agree D m dst f e v u zs :
  D dst → consistent ρ (rts m) → agrees ρ m e v →
  (∀ (st : @bstate simple_backend) h, binv st → rep ρ st h v →
     ∃ b, rt_call f (VExpr (Some h) :: (VInt <$> zs)) = backend b ∧ builds ρ b st u) →
  (∃ b, rt_call f (VExpr None :: (VInt <$> zs)) = backend b ∧
     ∀ st : @bstate simple_backend, binv st → b st = Ok None st) →
  wp (exec_item DL (Call dst f (AExpr e :: (AInt <$> zs)))) m
    (λ _ m', mstep ρ D m m' ∧ agrees ρ m' (Some dst) u).
Proof.
  intros Hd C (o&Eo&Ho) Hsome Hnone.
  assert (∀ x, read_expr e m = Some x →
    Forall2 (arg_is DL m) (AExpr e :: (AInt <$> zs)) (VExpr x :: (VInt <$> zs))) as Hargs.
  { intros x Ex. constructor; [by apply arg_expr|]. clear. induction zs; constructor; done. }
  destruct o as [h|].
  - destruct (Hsome (rt_backend (rts m)) h) as (b&Eb&Bb); [apply C|by apply Ho|].
    eapply wp_impl; [by eapply exec_builder; [..|exact Eb|exact Bb]; [|done|apply Hargs]|].
    intros [] m1 [S1 H1]. split; [done|by apply holds_agrees].
  - destruct Hnone as (b&Eb&Bb). eapply exec_call; [by apply Hargs|]. rewrite Eb.
    exists None, (rts m). split.
    { unfold backend, zoom. rewrite Bb by apply C. by destruct (rts m). }
    split; [by apply set_reg_step|]. exists None. split; [apply set_reg_read|done].
Qed.

(** ** [visitLoadInst] *)
Lemma read_exec D m dst addr a t n v :
  D dst → consistent ρ (rts m) → eval_operand DL (cenv m) addr = Some (CInt v a) →
  scalar_bytes DL t = Some n → region_ok a n = true →
  wp (exec_item DL (Call dst readMemory
       [AVal addr; AInt (getTypeStoreSize DL t); bool_arg (isLittleEndian DL t)])) m
    (λ _ m', mstep ρ D m m' ∧ agrees ρ m' (Some dst)
       (mem_value le (mem_bytes (rts m) a (Z.of_nat n)))).
Proof.
  intros Hd C Ea Hn Hr. destruct (scalar_bytes_width t n Hn) as (Hpos&Ele&_).
  rewrite (layout_store _ L t n Hn), Ele. unfold region_ok in Hr.
  assert (region a (Z.of_nat n)) as R by (unfold region; lia).
  eapply (exec_call DL m dst readMemory _
    [VInt a; VInt (Z.of_nat n); VInt (if le then 1 else 0)]).
  { constructor; [by eapply arg_val|]. repeat constructor. }
  cbn [rt_call]. rewrite z_bool_bit.
  pose proof (mem_bytes_length (rts m) a (Z.of_nat n) ltac:(lia)) as El.
  pose proof (read_memory_wp ρ (rts m) a (mem_bytes (rts m) a (Z.of_nat n)) le (proj1 C)) as W.
  rewrite El in W. eapply wp_impl; [apply W; [done| |by apply mem_bytes_at]|].
  { intros E. rewrite E in El. cbn in El. lia. }
  intros e s' [Ev He]. assert (rt_step (rts m) s') as St by apply Ev. split.
  - apply set_reg_step; [done|apply St|by apply rt_step_memory|by eapply evolves_consistent].
  - exists e. split; [apply set_reg_read|]. intros h ->. apply He.
Qed.

Definition load_items (n : nat) (addr : operand) (t : ty) : list item :=
  Call n readMemory [AVal addr; AInt (getTypeStoreSize DL t); bool_arg (isLittleEndian DL t)] ::
  (match t with
   | IntTy 1 => [Call (S n) buildTrunc [AExpr (Some n); AInt 1];
                 Call (S (S n)) buildBitToBool [AExpr (Some (S n))]]
   | _ => []
   end).

Definition load_result (n : nat) (t : ty) : nat :=
  match t with IntTy 1 => S (S n) | _ => n end.

Lemma load_exec n addr a t k mem z w m :
  scalar_bytes DL t = Some k → region_ok a k = true →
  consistent ρ (rts m) → eval_operand DL (cenv m) addr = Some (CInt w a) →
  mem = memory (rts m) →
  z = of_be (memory_order DL ((λ j, mem (a + j)) <$> seqZ 0 (Z.of_nat k))) →
  has_type DL (CInt (scalar_width DL t) z) t = true →
  wp (exec_code DL (load_items n addr t)) m (λ _ m1, mstep ρ (range n (S (load_result n t))) m m1 ∧
    agrees ρ m1 (Some (load_result n t)) (sem_value (CInt (scalar_width DL t) z))).
Proof.
  intros Hk Hr C Ea -> Ez Ht. destruct (scalar_bytes_width t k Hk) as (Hpos&Ele&Hw).
  assert (n ≤ load_result n t)%nat as Hle by (unfold load_result; destruct t as [[|[]|]| | | | |]; lia).
  set (D := range n (S (load_result n t))).
  apply exec_cons. eapply wp_impl; [by eapply (read_exec D); [unfold D, range; lia|..]|].
  intros [] m1 [S1 A1].
  assert (mem_value le (mem_bytes (rts m) a (Z.of_nat k)) = VBV (8 * Z.of_nat k) z) as Ev.
  { rewrite mem_value_bytes, Ez. f_equal. by rewrite mem_bytes_length by lia. }
  rewrite Ev in A1. destruct Hw as [[-> ->]|(Hne&Hsem&_)].
  2: { rewrite Hsem. assert (load_result n t = n) as ->.
       { unfold load_result. by destruct t as [[|[| |]|]| | | | |]. }
       destruct t as [[|[| |]|]| | | | |]; try done; by apply exec_nil. }
  cbn in Ht. unfold int_ok in Ht. assert (0 ≤ z < 2 ^ 1) as Hz by lia.
  assert (consistent ρ (rts m1)) as C1 by by eapply mstep_consistent.
  apply exec_cons. eapply wp_impl.
  { apply (exec_agree D m1 (S n) buildTrunc (Some n) (VBV 8 z) (VBV 1 z) [1]);
      [unfold D, range; cbn; lia|done|exact A1|..].
    - intros st h I Hh. eexists. split; [done|].
      eapply builds_eq; [by apply (trunc_builds ρ st h 8 z 1)|]. by rewrite wrap_small.
    - eexists. split; [done|]. intros st I. by apply (build_cast_null (B := simple_backend)). }
  intros [] m2 [S2 A2]. apply exec_cons. eapply wp_impl.
  { apply (exec_agree D m2 (S (S n)) buildBitToBool (Some (S n)) (VBV 1 z)
      (VBool (negb (z =? 0))) []); [unfold D, range; cbn; lia|by eapply mstep_consistent|exact A2|..].
    - intros st h I Hh. eexists. split; [done|]. by apply (bit_to_bool_ok ρ st h 1 z).
    - eexists. split; [done|]. done. }
  intros [] m3 [S3 A3]. apply exec_nil. split; [|exact A3].
  by eapply mstep_trans; [exact S1|eapply mstep_trans].
Qed.

Lemma load_gen n addr t k :
  scalar_bytes DL t = Some k →
  gen (data <- CreateCall readMemory
         [AVal addr; AInt (getTypeStoreSize DL t); bool_arg (isLittleEndian DL t)] ;;
       convertBitVectorExprForType data t)
    n (load_result n t) (load_items n addr t) (S (load_result n t)).
Proof.
  intros Hk. eapply gen_seq; [apply gen_call| |reflexivity].
  destruct t as [w| | | | |]; try done; [|apply gen_ret]. unfold convertBitVectorExprForType.
  destruct (Z.eqb_spec w 1) as [->|Hw].
  - eapply gen_seq; [apply gen_call|apply gen_call|reflexivity].
  - destruct w as [|[| |]|]; try done; apply gen_ret.
Qed.

Lemma load_chunks n addr t :
  chunks_ok n (CItem <$> load_items n addr t) (S (load_result n t)).
Proof.
  assert (∀ n f args, chunk_ok n (S n) (CItem (Call n f args))) as Hc by (by repeat constructor).
  unfold load_items, load_result.
  destruct t as [[|[| |]|]| | | | |]; cbn [fmap list_fmap chunks_ok];
    repeat (eexists; split_and!; [|apply Hc|]; [lia|]); done.
Qed.

Lemma load_items_erase E n addr t :
  avoids E n (S (load_result n t)) → map_uses (erase E) <$> load_items n addr t = load_items n addr t.
Proof.
  intros HE.
  assert (∀ r, (n ≤ r < S (load_result n t))%nat → erase E (Some r) = Some r) as He.
  { intros r Hr. by eapply erase_fresh. }
  unfold load_items, load_result in *.
  destruct t as [[|[| |]|]| | | | |]; try done.
  cbn [fmap list_fmap map_uses map_expr bool_arg]. by rewrite !He by lia.
Qed.

Lemma handled_load i addr s :
  kind i = LoadInst addr → sx_below (fresh s) (symbolicExpressions s) →
  is_Some (scalar_bytes DL (type i)) → handled i s.
Proof.
  intros K Hb [k Hk]. set (t := type i) in *. set (last := load_result (fresh s) t).
  set (s1 := upd_code (load_items (fresh s) addr t) (S last) s).
  exists (CItem <$> load_items (fresh s) addr t), (Some (Some last)), (set_result i (Some last) s1).
  split_and!.
  - unfold visit_before. rewrite K. unfold visitLoadInst.
    pose proof (load_gen (fresh s) addr t k Hk s eq_refl) as G.
    unfold bind in G |- *. fold t. destruct (CreateCall _ _ s) as [d s2|]; [|done]. by rewrite G.
  - rewrite <-(app_nil_r (CItem <$> _)). apply (visited_trans _ _ _ s1).
    + apply visited_items; [apply load_chunks|..];
        unfold load_items; by destruct t as [[|[]|]| | | | |]; repeat constructor.
    + apply visited_result. intros r [= <-]. cbn. lia.
  - apply result_new. pose proof (chunks_ok_le _ _ _ (load_chunks (fresh s) addr t)). cbn.
    unfold last, load_result. destruct t as [[|[]|]| | | | |]; lia.
  - apply prepares_items. intros E m e' mem' tail HE C A R. rewrite load_items_erase by exact HE.
    unfold run_inst in R. rewrite K in R. apply def_some in R as (v&Ev&_&->&Ee').
    destruct (eval_operand DL (cenv m) addr) as [[w a|]|] eqn:Ea; try done.
    fold t in Ev. unfold load in Ev. rewrite Hk in Ev.
    destruct (region_ok a k) eqn:Hr; [|done]. apply checked_some in Ev as [-> Ht].
    eapply wp_impl; [by eapply (load_exec (fresh s) addr a t k (memory (rts m)) _ w m)|].
    intros [] m1 [S1 A1]. split; [by apply mstep_to_same|].
    intros r v' [= <-] Hv. rewrite Ee' in Hv. injection Hv as <-. exact A1.
Qed.

(** ** [visitStoreInst] *)
(** The program's bytes of the stored value. *)
Definition stored_bytes (n : nat) (z : Z) : list Z := memory_order DL (to_be n z).

Lemma stored_bytes_ok n z :
  length (stored_bytes n z) = n ∧ Forall is_byte (stored_bytes n z) ∧
  (0 ≤ z < 2 ^ (8 * Z.of_nat n) → mem_value le (stored_bytes n z) = VBV (8 * Z.of_nat n) z).
Proof.
  assert (length (stored_bytes n z) = n) as El.
  { unfold stored_bytes, memory_order. destruct le; by rewrite ?length_rev, length_to_be. }
  split_and!; [done| |].
  - unfold stored_bytes, memory_order. destruct le; auto using rev_bytes, to_be_bytes.
  - intros Hz. rewrite mem_value_bytes, El. f_equal. unfold stored_bytes, memory_order.
    destruct le; rewrite ?rev_involutive, of_be_to_be; by apply Z.mod_small.
Qed.

Lemma write_exec D m dst ptr e t n z w a :
  D dst → consistent ρ (rts m) → eval_operand DL (cenv m) ptr = Some (CInt w a) →
  scalar_bytes DL t = Some n → region_ok a n = true → Z.of_nat n < 2 ^ 29 →
  agrees ρ m e (VBV (8 * Z.of_nat n) z) → 0 ≤ z < 2 ^ (8 * Z.of_nat n) →
  wp (exec_item DL (Call dst writeMemory
       [AVal ptr; AInt (getTypeStoreSize DL t); AExpr e; bool_arg (isLittleEndian DL t)])) m
    (λ _ m1, mstep_to ρ (store (memory (rts m)) a (stored_bytes n z)) D m m1).
Proof.
  intros Hd C Ea Hn Hr Hn29 (o&Eo&Ho) Hz. destruct (scalar_bytes_width t n Hn) as (Hpos&Ele&_).
  rewrite (layout_store _ L t n Hn), Ele. unfold region_ok in Hr.
  destruct (stored_bytes_ok n z) as (El&Hxs&Hv). specialize (Hv Hz).
  assert (region a (Z.of_nat (length (stored_bytes n z)))) as R by (unfold region; rewrite El; lia).
  assert (stored_bytes n z ≠ []) as Hne by (intros E; rewrite E in El; cbn in El; lia).
  assert (nbits (stored_bytes n z) < 2 ^ 32) as Hnb by (unfold nbits; rewrite El; lia).
  eapply (exec_call DL m dst writeMemory _
    [VInt a; VInt (Z.of_nat n); VExpr o; VInt (if le then 1 else 0)]).
  { constructor; [by eapply arg_val|]. constructor; [done|].
    constructor; [by apply arg_expr|]. by repeat constructor. }
  cbn [rt_call]. rewrite z_bool_bit. unfold no_result. apply wp_bind.
  assert (∀ h, o = Some h → rep ρ (rt_backend (rts m)) h (mem_value le (stored_bytes n z))) as Hrep.
  { intros h ->. rewrite Hv. by apply Ho. }
  assert (wp (_sym_write_memory a (Z.of_nat (length (stored_bytes n z))) o le) (rts m)
    (λ _ (s' : rt), rt_step (rts m) s')) as W.
  { destruct o as [h|].
    - eapply wp_impl; [apply (write_memory_wp ρ (rts m) a (stored_bytes n z) le h); try done;
        [apply C|by apply Hrep]|].
      by intros [] s' (v&(St&_)&_).
    - eapply wp_impl; [apply (write_memory_null_wp ρ (rts m) a _ le); [apply C|done|rewrite El; lia]|].
      by intros [] s' (St&_). }
  pose proof (write_memory_consistent ρ (rts m) a (stored_bytes n z) le o C R Hne Hxs Hnb Hrep) as W'.
  rewrite El in W, W'. eapply wp_impl; [exact (wp_and _ _ _ _ W W')|].
  intros [] s' [St Cs]. apply wp_ret. split_and!; [done|apply St|by apply rt_step_memory|exact Cs|].
  intros r Hr'. cbn. apply lookup_insert_ne. by intros <-.
Qed.

(** [conv]: the value has an expression, so a truth value is converted. *)
Definition store_items (n : nat) (conv : bool) (e : option nat) (V ptr : operand) : list item :=
  let write d e := Call d writeMemory
    [AVal ptr; AInt (getTypeStoreSize DL (getType V)); AExpr e;
     bool_arg (isLittleEndian DL (getType V))] in
  match conv, getType V with
  | true, IntTy 1 =>
      [Call n buildBoolToBit [AExpr e]; Call (S n) buildZExt [AExpr (Some n); AInt 7];
       write (S (S n)) (Some (S n))]
  | _, _ => [write n e]
  end.

Definition store_next (n : nat) (conv : bool) (V : operand) : nat :=
  match conv, getType V with true, IntTy 1 => S (S (S n)) | _, _ => S n end.

Lemma store_items_erase E n conv e V ptr :
  avoids E n (store_next n conv V) →
  map_uses (erase E) <$> store_items n conv e V ptr = store_items n conv (erase E e) V ptr.
Proof.
  intros HE.
  assert (∀ r, (n ≤ r < store_next n conv V)%nat → erase E (Some r) = Some r) as He.
  { intros r Hr. by eapply erase_fresh. }
  unfold store_items, store_next in *. destruct conv; [|done].
  destruct (getType V) as [[|[| |]|]| | | | |]; try done.
  cbn [fmap list_fmap map_uses map_expr bool_arg]. by rewrite !He by lia.
Qed.

Lemma store_run V ptr k s :
  scalar_bytes DL (getType V) = Some k →
  let e := sym_lookup (symbolicExpressions s) V in
  visitStoreInst DL V ptr s =
    Ok tt (upd_code (store_items (fresh s) (bool_decide (is_Some e)) e V ptr)
             (store_next (fresh s) (bool_decide (is_Some e)) V) s).
Proof.
  intros Hk e. unfold visitStoreInst, bind at 1, get.
  assert (getSymbolicExpressionOrNull s V = e) as -> by apply getSymbolicExpression_lookup.
  rewrite getSymbolicExpression_lookup. fold e. unfold store_items, store_next.
  destruct e as [r|]; cbn [fmap option_fmap option_map convertExprForTypeToBitVectorExpr].
  2: { unfold bind at 1, ret at 1. by rewrite (bind_Ok _ _ _ _ _ (gen_call _ _ (fresh s) s eq_refl)). }
  destruct (getType V) as [w| | | | |] eqn:Et; try done.
  - destruct (Z.eqb_spec w 1) as [->|Hw].
    + by destruct s; cbn; rewrite <-!app_assoc.
    + unfold bind at 1, ret at 1. rewrite (bind_Ok _ _ _ _ _ (gen_call _ _ (fresh s) s eq_refl)).
      by destruct w as [|[| |]|].
Qed.

Lemma store_chunks n conv e V ptr :
  chunks_ok n (CItem <$> store_items n conv e V ptr) (store_next n conv V).
Proof.
  assert (∀ n f args, chunk_ok n (S n) (CItem (Call n f args))) as Hc by (by repeat constructor).
  unfold store_items, store_next.
  destruct conv, (getType V) as [[|[| |]|]| | | | |]; cbn [fmap list_fmap chunks_ok];
    repeat (eexists; split_and!; [|apply Hc|]; [lia|]); done.
Qed.

(** The items write the value's bytes. *)
Lemma store_exec n conv e V ptr k w z wa a m :
  consistent ρ (rts m) → eval_operand DL (cenv m) ptr = Some (CInt wa a) →
  eval_operand DL (cenv m) V = Some (CInt w z) → scalar_bytes DL (getType V) = Some k →
  region_ok a k = true → Z.of_nat k < 2 ^ 29 → agreesv ρ m e (CInt w z) →
  (conv = false → e = None) →
  wp (exec_code DL (store_items n conv e V ptr)) m
    (λ _ m1, mstep_to ρ (store (memory (rts m)) a (stored_bytes k z)) (range n (store_next n conv V)) m m1).
Proof.
  set (D := range n (store_next n conv V)).
  assert (n < store_next n conv V)%nat as Hle.
  { unfold store_next. destruct conv, (getType V) as [[|[]|]| | | | |]; lia. }
  assert (D n) as Dn by (unfold D, range; lia).
  intros C Ea Ev Hk Hr Hk29 Hag Hconv. destruct (scalar_bytes_width _ _ Hk) as (Hpos&_&Hw).
  destruct (eval_int DL (layout_ptr _ L) _ _ _ _ Ev) as (Hw0&Hz&T).
  destruct Hw as [[Et ->]|(Hne&Hsem&Hsw)].
  - assert (w = 1) as -> by (rewrite Et in T; by destruct T as [[= ->]|[? _]]).
    assert (0 ≤ z < 2 ^ (8 * Z.of_nat 1)) as Hz8 by lia.
    unfold store_items. unfold D, store_next in *. rewrite Et in *. destruct conv.
    2: { rewrite Hconv by done. apply exec_cons. eapply wp_impl.
         { eapply (write_exec (range n (S n)) m n ptr None (IntTy 1) 1 z); try done.
           apply agrees_null. }
         intros [] m1 S1. by apply exec_nil. }
    apply exec_cons. eapply wp_impl.
    { apply (exec_agree (range n (S (S (S n)))) m n buildBoolToBit e (VBool (negb (z =? 0))) (VBV 1 z) []);
        [done|done|exact Hag|..].
      - intros st h I Hh. eexists. split; [done|]. eapply builds_eq;
          [by apply (build_bool_to_bit_spec (B := simple_backend) ρ st h _ I Hh)|].
        by apply bit_cases in Hz as [-> | ->].
      - eexists. split; [done|]. intros st I. by apply (build_cast_null (B := simple_backend) st 0 I). }
    intros [] m1 [S1 A1]. apply exec_cons.
    assert (consistent ρ (rts m1)) as C1 by by eapply mstep_consistent.
    eapply wp_impl.
    { apply (exec_agree (range n (S (S (S n)))) m1 (S n) buildZExt (Some n) (VBV 1 z) (VBV 8 z) [7]);
        [unfold range; lia|done|exact A1|..].
      - intros st h I Hh. eexists. split; [done|].
        by apply (build_zext_spec (B := simple_backend) ρ st h 1 z 7).
      - eexists. split; [done|]. intros st I. by apply (build_cast_null (B := simple_backend) st 7 I). }
    intros [] m2 [S2 A2]. apply exec_cons. pose proof (mstep_trans _ _ _ _ _ S1 S2) as S12.
    assert (consistent ρ (rts m2)) as C2 by by eapply mstep_consistent.
    eapply wp_impl.
    { eapply (write_exec (range n (S (S (S n)))) m2 (S (S n)) ptr (Some (S n)) (IntTy 1) 1 z wa a);
        try done; [unfold range; lia|by rewrite (proj1 S12)]. }
    intros [] m3 S3. apply exec_nil. eapply mstep_to_trans; [exact S12|].
    by replace (memory (rts m)) with (memory (rts m2)) by apply S12.
  - assert (sem_value (CInt w z) = VBV (8 * Z.of_nat k) z ∧ 0 ≤ z < 2 ^ (8 * Z.of_nat k)) as [Es Hzk].
    { assert (w = scalar_width DL (getType V)) as ->.
      { destruct T as [T|[T ->]]; rewrite T; [done|]. cbn. by rewrite (layout_ptr _ L). }
      split; [apply Hsem|]. by rewrite <-Hsw. }
    assert (store_items n conv e V ptr = [Call n writeMemory
      [AVal ptr; AInt (getTypeStoreSize DL (getType V)); AExpr e;
       bool_arg (isLittleEndian DL (getType V))]]) as ->.
    { unfold store_items. destruct conv; [|done].
      by destruct (getType V) as [[|[| |]|]| | | | |]. }
    apply exec_cons. eapply wp_impl.
    { eapply (write_exec D m n ptr e (getType V) k z); try done. by rewrite <-Es. }
    intros [] m1 S1. by apply exec_nil.
Qed.

Lemma store_uses n conv e V ptr r :
  e = Some r → uses r (store_items n conv e V ptr).
Proof.
  intros ->. unfold uses, store_items.
  assert (uses_expr r (Some r) = true) as E by (unfold uses_expr; by apply bool_decide_eq_true).
  destruct conv, (getType V) as [[|[| |]|]| | | | |]; cbn; by rewrite E, ?orb_true_r.
Qed.

Definition small_scalar (t : ty) : bool :=
  match scalar_bytes DL t with Some n => Z.of_nat n <? 2 ^ 29 | None => false end.

Lemma handled_store i V ptr s :
  kind i = StoreInst V ptr → sx_below (fresh s) (symbolicExpressions s) →
  small_scalar (getType V) = true → handled i s.
Proof.
  intros K Hb Hs. unfold small_scalar in Hs.
  destruct (scalar_bytes DL (getType V)) as [k|] eqn:Hk; [|done]. apply Z.ltb_lt in Hs.
  set (e := sym_lookup (symbolicExpressions s) V). set (conv := bool_decide (is_Some e)).
  exists (CItem <$> store_items (fresh s) conv e V ptr), None,
    (upd_code (store_items (fresh s) conv e V ptr) (store_next (fresh s) conv V) s). split_and!.
  - unfold visit_before. rewrite K. by apply (store_run V ptr k).
  - apply visited_items; [apply store_chunks|..];
      unfold store_items; by destruct conv, (getType V) as [[|[]|]| | | | |]; repeat constructor.
  - done.
  - apply prepares_items. intros E m e' mem' tail HE C A R.
    rewrite store_items_erase in A |- * by exact HE. subst e. rewrite <-sym_lookup_erase in A |- *.
    unfold run_inst in R. rewrite K in R.
    destruct (eval_operand DL (cenv m) V) as [[w z|]|] eqn:Ev; try done.
    destruct (eval_operand DL (cenv m) ptr) as [[wa a|]|] eqn:Ea; try done.
    unfold store_value in R. rewrite Hk in R. destruct (region_ok a k) eqn:Hr; [|done].
    injection R as <- <-.
    eapply wp_impl; [apply (store_exec (fresh s) conv _ V ptr k w z wa a m); try done|].
    { eapply agree_operand; [exact A| |exact Ev]. intros r Hr'. apply uses_app. left.
      by apply store_uses. }
    { intros Hc. rewrite sym_lookup_erase. unfold conv in Hc. apply bool_decide_eq_false in Hc.
      by destruct (sym_lookup _ V); [destruct Hc|]. }
    intros [] m1 S1. by split.
Qed.

(** ** Memory intrinsics *)
Lemma arg_zext m v w z :
  eval_operand DL (cenv m) v = Some (CInt w z) → 0 ≤ z < 2 ^ 64 →
  arg_is DL m (AZExtOrTrunc (ptrBits DL) v) (VInt z).
Proof.
  intros E Hz. unfold arg_is. cbn. unfold get_int, get_val, bind, get. rewrite E. cbn.
  by rewrite (layout_ptr _ L), wrap_small.
Qed.

(** A call of the library that updates the shadow for what the program does
    next. *)
Lemma exec_shadow D m dst f args vs (b : Prelude.M (@rt simple_backend) unit) mem' sh :
  D dst → Forall2 (arg_is DL m) args vs → rt_call f vs = no_result b →
  wp b (rts m) (λ _ (s' : rt), evolves ρ (rts m) s' sh) →
  (∀ s' : rt, evolves ρ (rts m) s' sh → consistent ρ (set_memory mem' s')) →
  wp (exec_item DL (Call dst f args)) m (λ _ m1, mstep_to ρ mem' D m m1).
Proof.
  intros Hd Ha Ef Hb Hc. eapply exec_call; [exact Ha|]. rewrite Ef. apply wp_bind.
  eapply wp_impl; [exact Hb|]. intros [] s' Ev. apply wp_ret.
  assert (rt_step (rts m) s') as St by apply Ev.
  split_and!; [done|apply St|by apply rt_step_memory|by apply Hc|].
  intros r Hr. cbn. apply lookup_insert_ne. by intros <-.
Qed.

Definition copy_intrinsic (id : intrinsic) : bool :=
  match id with I_memcpy | I_memmove => true | _ => false end.

Lemma handled_copy_bytes i id d src n ue s :
  kind i = CallInst (Intrinsic id) [d; src; n] ue → copy_intrinsic id = true → handled i s.
Proof.
  intros K Hid. set (f := match id with I_memcpy => rt_memcpy | _ => rt_memmove end).
  set (call := Call (fresh s) f [AVal d; AVal src; AZExtOrTrunc (ptrBits DL) n]).
  exists (CItem <$> [call]), None, (upd_code [call] (S (fresh s)) s). split_and!.
  - unfold visit_before. rewrite K. by destruct id.
  - apply visited_call.
  - done.
  - apply prepares_items. intros E m e' mem' tail _ C A R. unfold run_inst in R. rewrite K in R.
    assert (∃ wd zd ws zs wn zn, eval_operand DL (cenv m) d = Some (CInt wd zd) ∧
      eval_operand DL (cenv m) src = Some (CInt ws zs) ∧
      eval_operand DL (cenv m) n = Some (CInt wn zn) ∧
      (zd + zn <? 2 ^ 64) && (zs + zn <? 2 ^ 64) &&
        match id with I_memcpy => (zd + zn <=? zs) || (zs + zn <=? zd) | _ => true end = true ∧
      e' = cenv m ∧ mem' = copy_bytes (memory (rts m)) zd zs zn)
      as (wd&zd&ws&zs&wn&zn&Ed&Es&En&Hr&->&->).
    { destruct id; try done; repeat case_match; simplify_eq; eauto 20. }
    destruct (eval_int DL (layout_ptr _ L) _ _ _ _ Ed) as (_&Hzd&_).
    destruct (eval_int DL (layout_ptr _ L) _ _ _ _ Es) as (_&Hzs&_).
    destruct (eval_int DL (layout_ptr _ L) _ _ _ _ En) as (_&Hzn&_).
    assert (region zs zn ∧ region zd zn) as [Rs Rd] by (unfold region; lia).
    apply exec_cons. eapply wp_impl.
    { eapply (exec_shadow (range (fresh s) (S (fresh s))) m (fresh s) f _ [VInt zd; VInt zs; VInt zn]
        (match id with I_memcpy => _sym_memcpy zd zs zn | _ => _sym_memmove zd zs zn end)
        (copy_bytes (memory (rts m)) zd zs zn) (copied (shadow_at (rts m)) zd zs zn)).
      - unfold range; lia.
      - constructor; [by eapply arg_val|]. constructor; [by eapply arg_val|].
        constructor; [|constructor]. eapply arg_zext; [exact En|lia].
      - by destruct id.
      - destruct id; try done; [apply memcpy_wp|apply memmove_wp]; try done; try apply C; lia.
      - intros s' Ev. by apply copied_consistent. }
    intros [] m1 S1. apply exec_nil. by split.
Qed.

Lemma handled_memset i d v n ue s :
  kind i = CallInst (Intrinsic I_memset) [d; v; n] ue →
  sx_below (fresh s) (symbolicExpressions s) → handled i s.
Proof.
  intros K Hb. set (e := sym_lookup (symbolicExpressions s) v).
  set (call := Call (fresh s) rt_memset [AVal d; AExpr e; AZExtOrTrunc (ptrBits DL) n]).
  exists (CItem <$> [call]), None, (upd_code [call] (S (fresh s)) s). split_and!.
  - unfold visit_before. rewrite K. unfold handleIntrinsicCall, nth_arg, bind, get. cbn.
    assert (getSymbolicExpressionOrNull s v = e) as -> by apply getSymbolicExpression_lookup.
    by destruct s.
  - apply visited_call.
  - done.
  - apply prepares_items. intros E m e' mem' tail _ C A R.
    cbn [fmap list_fmap map_uses map_expr call] in A |- *. subst e. rewrite <-sym_lookup_erase in A |- *.
    unfold run_inst in R. rewrite K in R.
    destruct (eval_operand DL (cenv m) d) as [[wd zd|]|] eqn:Ed; try done.
    destruct (eval_operand DL (cenv m) v) as [[wv zv|]|] eqn:Ev; try done.
    assert (wv = 8) as ->.
    { destruct wv as [|p|p]; try done. do 4 (destruct p as [p|p|]; try done). }
    destruct (eval_operand DL (cenv m) n) as [[wn zn|]|] eqn:En; try done.
    destruct (Z.ltb_spec (zd + zn) (2 ^ 64)) as [Hr|]; [|done]. injection R as <- <-.
    destruct (eval_int DL (layout_ptr _ L) _ _ _ _ Ed) as (_&Hzd&_).
    destruct (eval_int DL (layout_ptr _ L) _ _ _ _ Ev) as (_&Hzv&_).
    destruct (eval_int DL (layout_ptr _ L) _ _ _ _ En) as (_&Hzn&_).
    assert (region zd zn) as Rd by (unfold region; lia).
    destruct (agree_operand DL ρ _ _ m v (CInt 8 zv) A) as (o&Eo&Ho); [|done|].
    { intros r Hr'. apply uses_app. left. unfold uses. cbn in Hr' |- *. rewrite Hr'. cbn.
      unfold uses_expr. by rewrite bool_decide_eq_true_2. }
    apply exec_cons. eapply wp_impl.
    { eapply (exec_shadow (range (fresh s) (S (fresh s))) m (fresh s) rt_memset _ [VInt zd; VExpr o; VInt zn]
        (@_sym_memset simple_backend zd o zn) (set_bytes (memory (rts m)) zd zn zv)
        (@filled simple_backend (shadow_at (rts m)) zd zn (λ _, o))).
      - unfold range; lia.
      - constructor; [by eapply arg_val|]. constructor; [by apply arg_expr|].
        constructor; [|constructor]. eapply arg_zext; [exact En|lia].
      - done.
      - apply memset_wp; [apply C|done|]. destruct o as [h|]; [|done]. exists zv. by apply Ho.
      - intros s' Evs. by apply (filled_consistent ρ (rts m) s' zd zn zv o). }
    intros [] m1 S1. apply exec_nil. by split.
Qed.
End visitors.
