(* ===== verification/Processed.v ===== *)
(** * Instructions that have been visited

    The code that the visitors of compiler/Symbolizer.cpp append for a sequence
    of instructions, and what it does once it is converted: [processed] composes
    along the sequence. *)

From S2P Require Import Prelude Smt Z3Api Interface ByteSeq BitArrays Arith SimpleBackend.
From S2P Require Import SimpleSpec PathConstraints State Shadow Memory Dispatch Symbolizer.
From S2P Require Import SymbolizerSem ShortCircuit Computations Simulation Visitors Interface.

#[local] Open Scope Z_scope.

Section simulation.
Context {Z3I : Z3} {ZL : Z3Laws Z3I} {KC : Calls} {KI : ICalls} {FR : Frame}.
Context (DL : DataLayout) (ρ : RunInput).
Implicit Types (m : mach) (s : symbolizer) (cs : list chunk).

(** The converted code [code] of the chunks [cs], without the expressions [E]
    and in front of the code [tail], does what [l] does, and keeps the
    agreement. *)
Definition simulates (l : list inst) sx sx' (lo hi : nat) cs : Prop :=
  ∀ E tail n code n' m e' mem', avoids E lo hi →
    converted DL ρ tail n (erase_chunk E <$> cs) code n' → (hi ≤ n)%nat →
    consistent ρ (rts m) → agree ρ (erase_map E sx) (flatten (erase_chunk E <$> cs) ++ tail) m →
    run_insts DL l (cenv m) (memory (rts m)) = Some (e', mem') →
    wp (exec_code DL code) m (λ _ m', cenv m' = e' ∧ memory (rts m') = mem' ∧
      consistent ρ (rts m') ∧ agree ρ (erase_map E sx') tail m' ∧ frames lo hi n m m').

(** The flags take care of themselves. *)
Lemma simulates_on (l : list inst) sx sx' (lo hi : nat) cs :
  (∀ E tail n code n' m e' mem', avoids E lo hi →
    converted DL ρ tail n (erase_chunk E <$> cs) code n' → (hi ≤ n)%nat →
    consistent ρ (rts m) → agree ρ (erase_map E sx) (flatten (erase_chunk E <$> cs) ++ tail) m →
    run_insts DL l (cenv m) (memory (rts m)) = Some (e', mem') →
    wp (exec_code DL code) m (λ _ m', cenv m' = e' ∧ memory (rts m') = mem' ∧
      consistent ρ (rts m') ∧ agree_on ρ (erase_map E sx') tail m' ∧ frames lo hi n m m')) →
  simulates l sx sx' lo hi cs.
Proof.
  intros H E tail n code n' m e' mem' HE Cv Hn C A R.
  eapply wp_impl; [by apply exec_keeps_flags; eapply H|]. intros _ m' [(?&?&?&?&?) Hk].
  split_and!; try done. split; [done|]. eapply flags_set_kept; [exact Hk|].
  intros f Hf. apply (proj2 A). apply (covers_sub _ tail); [|exact Hf]. intros it. set_solver.
Qed.

(** A relation between variables and expressions that holds for new expressions
    and is passed on from operands to results. *)
Definition inherits (l : list inst) (lo hi : nat) (src : nat → nat → Prop) : Prop :=
  (∀ i r, i ∈ l → (lo ≤ r < hi)%nat → src (name i) r) ∧
  ∀ i t y r, i ∈ l → Local t y ∈ operands i → src y r → src (name i) r.

Definition sourced (src : nat → nat → Prop) (sx : gmap nat (option nat)) : Prop :=
  ∀ x r, sx !! x = Some (Some r) → src x r.

(** The instructions of the program in generated code. *)
Definition origs (l : list item) : list inst :=
  l ≫= λ it, match it with Orig i => [i] | _ => [] end.

(** The pass has visited [l], with the result that [cs] was appended. *)
Record processed (l : list inst) s cs s' : Prop := {
  processed_code : code s' = code s ++ flatten cs;
  processed_uses : expressionUses s' = expressionUses s ++ comps cs;
  processed_phis : phiNodes s' = phiNodes s;
  processed_entry : initialised (flatten cs) s s';
  processed_chunks : chunks_ok (fresh s) cs (fresh s');
  processed_below : sx_below (fresh s') (symbolicExpressions s');
  processed_frame x : x ∉ name <$> l → symbolicExpressions s' !! x = symbolicExpressions s !! x;
  processed_sim : simulates l (symbolicExpressions s) (symbolicExpressions s') (fresh s) (fresh s') cs;
  processed_sourced src : inherits l (fresh s) (fresh s') src →
    sourced src (symbolicExpressions s) → sourced src (symbolicExpressions s');
  processed_items : Forall (λ it, plain_item it ∨ ∃ i, it = Orig i ∧ i ∈ l) (flatten cs);
}.

Lemma processed_nil s : sx_below (fresh s) (symbolicExpressions s) → processed [] s [] s.
Proof.
  intros Hb. split; rewrite ?app_nil_r; try done; [by apply initialised_same|].
  intros E tail n code n' m e' mem' _ Cv _ C A [= <- <-]. inversion Cv; subst.
  apply exec_nil. by split_and!.
Qed.

Lemma run_insts_app l1 l2 e mem :
  run_insts DL (l1 ++ l2) e mem =
    match run_insts DL l1 e mem with
    | Some (e1, mem1) => run_insts DL l2 e1 mem1
    | None => None
    end.
Proof.
  revert e mem. induction l1 as [|i l1 IH]; intros e mem; cbn; [done|].
  destruct (run_inst DL i e mem) as [[e1 mem1]|]; [apply IH|done].
Qed.

Lemma frames_trans lo mid hi n n1 m m1 m2 :
  (lo ≤ mid)%nat → (mid ≤ hi)%nat → (n ≤ n1)%nat →
  frames lo mid n m m1 → frames mid hi n1 m1 m2 → frames lo hi n m m2.
Proof.
  intros H1 H2 H3 [X1 F1] [X2 F2]. split; [by etransitivity|]. unfold owned in *.
  intros r Hr. rewrite F2, F1; [done|lia..].
Qed.

Lemma avoids_sub E lo hi lo' hi' :
  (lo ≤ lo')%nat → (hi' ≤ hi)%nat → avoids E lo hi → avoids E lo' hi'.
Proof. intros ?? H r Hr Hin. apply (H r Hr). lia. Qed.

Lemma simulates_app l1 l2 sx sx1 sx2 lo mid hi cs1 cs2 :
  (lo ≤ mid)%nat → (mid ≤ hi)%nat →
  simulates l1 sx sx1 lo mid cs1 → simulates l2 sx1 sx2 mid hi cs2 →
  simulates (l1 ++ l2) sx sx2 lo hi (cs1 ++ cs2).
Proof.
  intros Hlm Hmh S1 S2 E tail n code n' m e' mem' HE Cv Hn C A R. rewrite fmap_app in Cv, A.
  apply converted_app_inv in Cv as (code1&n1&code2&->&Hn1&Cv1&Cv2).
  rewrite run_insts_app in R.
  destruct (run_insts DL l1 (cenv m) (memory (rts m))) as [[e1 mem1]|] eqn:R1; [|done].
  apply exec_app. eapply wp_impl; [eapply (S1 E _ n code1 n1 m); try done; [by apply (avoids_sub E lo hi)|lia|]|].
  { by rewrite app_assoc, <-flatten_app. }
  intros [] m1 (<-&<-&C1&A1'&F1).
  eapply wp_impl; [eapply (S2 E tail n1 code2 n' m1); try done; [by apply (avoids_sub E lo hi)|lia]|].
  intros [] m2 (?&?&?&?&F2). split_and!; try done. by eapply (frames_trans lo mid hi n n1 m m1 m2).
Qed.

Lemma inherits_sub l l' lo hi lo' hi' src :
  (∀ i, i ∈ l' → i ∈ l) → (lo ≤ lo')%nat → (hi' ≤ hi)%nat →
  inherits l lo hi src → inherits l' lo' hi' src.
Proof.
  intros Hl Hlo Hhi [H1 H2]. split; [|naive_solver]. intros i r Hi Hr. apply H1; [auto|lia].
Qed.

Lemma processed_app l1 l2 s cs1 s1 cs2 s2 :
  processed l1 s cs1 s1 → processed l2 s1 cs2 s2 → processed (l1 ++ l2) s (cs1 ++ cs2) s2.
Proof.
  intros [A1 A2 A3 A4 A5 A6 A7 A8 A9 A10] [B1 B2 B3 B4 B5 B6 B7 B8 B9 B10].
  pose proof (chunks_ok_le _ _ _ A5). pose proof (chunks_ok_le _ _ _ B5).
  split; try congruence; try done.
  - by rewrite B1, A1, flatten_app, app_assoc.
  - by rewrite B2, A2, comps_app, app_assoc.
  - rewrite flatten_app. by eapply initialised_trans.
  - by eapply chunks_ok_app.
  - intros x Hx. rewrite fmap_app, elem_of_app in Hx. rewrite B7, A7; tauto.
  - by eapply simulates_app.
  - intros src HI Hs. apply B9; [|apply A9; [|done]]; eapply inherits_sub; try exact HI; try lia;
      intros i; rewrite elem_of_app; tauto.
  - rewrite flatten_app. apply Forall_app. split.
    + eapply Forall_impl; [exact A10|]. intros it [?|(i&->&Hi)]; [by left|right].
      exists i. rewrite elem_of_app. tauto.
    + eapply Forall_impl; [exact B10|]. intros it [?|(i&->&Hi)]; [by left|right].
      exists i. rewrite elem_of_app. tauto.
Qed.

Lemma handled_processed host_address i s :
  handled DL ρ host_address i s → is_function_call i = false →
  sx_below (fresh s) (symbolicExpressions s) → symbolicExpressions s !! name i = None →
  ∃ ps s', visit DL host_address i s = Ok tt s' ∧ Forall plain_item (flatten ps) ∧
    processed [i] s (ps ++ [CItem (Orig i)]) s'.
Proof.
  intros (ps&upd&s1&E&V&F&P) Hi Hb Hn.
  exists ps, (set_code (code s1 ++ [Orig i]) s1). split.
  { assert (visit DL host_address i s = (visit_before DL host_address i ;;; emit (Orig i)) s) as ->.
    { unfold visit. unfold is_function_call in Hi. destruct (kind i); try done. by destruct f. }
    unfold bind. by rewrite E. }
  pose proof V as [V1 V2 V3 V4 V5 V6 V7 V8]. pose proof (chunks_ok_le _ _ _ V6) as Hle.
  split; [done|]. split; cbn; try done.
  - by rewrite V1, flatten_app, app_assoc.
  - by rewrite V2, comps_app, app_nil_r.
  - rewrite flatten_app. by eapply initialised_trans; [exact V5|apply initialised_same].
  - eapply chunks_ok_app; [exact V6|]. exists (fresh s1). by split_and!; [|constructor|].
  - rewrite V3. intros x r Hx. destruct upd as [e|].
    + destruct (decide (x = name i)) as [->|].
      * rewrite lookup_insert_eq in Hx. by apply V7.
      * rewrite lookup_insert_ne in Hx by done. specialize (Hb _ _ Hx). lia.
    + specialize (Hb _ _ Hx). lia.
  - intros x Hx. rewrite V3. destruct upd; [|done]. rewrite lookup_insert_ne; [done|].
    intros <-. apply Hx. by left.
  - intros E' tail n code n' m e' mem' HE Cv Hhi C A R. cbn [run_insts] in R.
    destruct (run_inst DL i (cenv m) (memory (rts m))) as [[e1 mem1]|] eqn:R1; [|done].
    injection R as <- <-.
    eapply (exec_instruction DL ρ E' i s ps upd s1 tail n code n' m); try done.
  - intros src [H1 H2] Hs x r. rewrite V3. destruct upd as [e|]; [|apply Hs].
    destruct (decide (x = name i)) as [->|]; [|rewrite lookup_insert_ne by done; apply Hs].
    rewrite lookup_insert_eq. intros [= ->].
    destruct (F r eq_refl) as [Hr|(v&Hv&Er)]; [apply H1; [by left|done]|].
    destruct (sym_lookup_some _ _ _ Er) as (t&y&->&Hy). eapply H2; [by left|exact Hv|by apply Hs].
  - rewrite flatten_app. apply Forall_app. split.
    + eapply Forall_impl; [exact V8|]. intros it Hp. by left.
    + apply Forall_cons. split; [|constructor]. right. exists i. by split; [|left].
Qed.
End simulation.
