(* ===== verification/VisitCall.v ===== *)
(** * Calls of functions

    [handleFunctionCall] of compiler/Symbolizer.cpp: the expressions of the
    arguments are passed in the slots of the library, and the expression of the
    result is fetched at the return point, after the slot has been cleared before
    the call. *)

From S2P Require Import Prelude Smt Z3Api Interface ByteSeq BitArrays Arith SimpleBackend.
From S2P Require Import SimpleSpec PathConstraints State Shadow Memory Dispatch Symbolizer.
From S2P Require Import SymbolizerSem ShortCircuit Computations Simulation Visitors VisitEffects.
From S2P Require Import Processed Interface.

#[local] Open Scope Z_scope.

(** A called function has at most as many arguments as there are slots, and a
    result that is used has a value. *)
Definition supported_call (i : inst) (args : list operand) (user_empty : bool) : bool :=
  (length args <=? 256)%nat && (user_empty || match type i with VoidTy => false | _ => true end).

Section calls.
Context {Z3I : Z3} {ZL : Z3Laws Z3I} {KC : Calls} {KI : ICalls} {FR : Frame}.
Context (DL : DataLayout) (ρ : RunInput) (host_address : nat → Z) {KO : CalleesOk ρ}.
Implicit Types (m : mach) (s : symbolizer) (args : list operand) (sx : gmap nat (option nat)).

(** ** The generated code *)
Fixpoint parameter_code (n k : nat) sx args : list item :=
  match args with
  | [] => []
  | a :: args' =>
      Call n setParameterExpression [AInt (u8 (Z.of_nat k)); AExpr (sym_lookup sx a)] ::
      parameter_code (S n) (S k) sx args'
  end.

Lemma set_parameters_run k args s :
  set_parameters (Z.of_nat k) args s =
    Ok tt (upd_code (parameter_code (fresh s) k (symbolicExpressions s) args) (fresh s + length args) s).
Proof.
  revert k s. induction args as [|a args IH]; intros k s.
  { unfold upd_code. cbn. rewrite app_nil_r, Nat.add_0_r. by destruct s. }
  cbn [set_parameters]. unfold bind at 1, get.
  assert (getSymbolicExpressionOrNull s a = sym_lookup (symbolicExpressions s) a) as ->
    by apply getSymbolicExpression_lookup.
  rewrite (bind_Ok _ _ _ _ _ (gen_call _ _ (fresh s) s eq_refl)).
  replace (Z.of_nat k + 1) with (Z.of_nat (S k)) by lia. rewrite IH.
  unfold upd_code. cbn. rewrite <-app_assoc. cbn [app].
  by replace (fresh s + S (length args))%nat with (S (fresh s + length args))%nat by lia.
Qed.

Definition notify (f : SymFn) (i : inst) (n : nat) : item :=
  Call n f [getTargetPreferredInt DL host_address (name i)].

(** Before the call, from the name [n] on. *)
Definition call_before (i : inst) args (ue : bool) sx (n : nat) : list item :=
  notify notifyCall i n :: parameter_code (S n) 0 sx args ++
  (if ue then [] else [Call (S n + length args) setReturnExpression [AExpr None]]).

Definition before_next args (ue : bool) (n : nat) : nat :=
  if ue then (S n + length args)%nat else S (S n + length args).

(** At the return point. *)
Definition call_after (i : inst) (ue : bool) (n : nat) : list item :=
  notify notifyRet i n :: (if ue then [] else [Call (S n) getReturnExpression []]).

Definition after_call (i : inst) args (ue : bool) s : symbolizer :=
  let n := before_next args ue (fresh s) in
  let its := call_before i args ue (symbolicExpressions s) (fresh s) ++ Orig i :: call_after i ue n in
  if ue then upd_code its (S n) s
  else set_expressions (<[name i := Some (S n)]> (symbolicExpressions s)) (upd_code its (S (S n)) s).

Lemma visit_call i f args ue s :
  kind i = CallInst (FunctionCall f) args ue →
  visit DL host_address i s = Ok tt (after_call i args ue s).
Proof.
  intros K. unfold visit. rewrite K. unfold handleFunctionCall.
  rewrite (bind_Ok _ _ _ _ _ (gen_call _ _ (fresh s) s eq_refl)).
  change (set_parameters 0 args) with (set_parameters (Z.of_nat 0) args).
  rewrite (bind_Ok _ _ _ _ _ (set_parameters_run 0 args _)).
  unfold after_call, call_before, call_after, before_next. destruct ue.
  - unfold bind at 1, ret at 1. unfold bind at 1, emit at 1, modify at 1.
    erewrite bind_Ok; [|by apply (gen_call _ _ (S (fresh s) + length args)%nat)].
    unfold ret, upd_code, notify. cbn. rewrite app_nil_r, <-!app_assoc. done.
  - unfold bind at 1. erewrite bind_Ok; [|by apply (gen_call _ _ (S (fresh s) + length args)%nat)].
    unfold ret at 1. unfold bind at 1, emit at 1, modify at 1.
    erewrite bind_Ok; [|by apply (gen_call _ _ (S (S (fresh s) + length args))%nat)].
    erewrite bind_Ok; [|by apply (gen_call _ _ (S (S (S (fresh s) + length args)))%nat)].
    unfold set_expression, modify, upd_code, notify. cbn. rewrite <-!app_assoc. done.
Qed.

(** ** Running it *)
(** The slots from [k] on have the expressions of the arguments. *)
Definition passed (k : nat) (vs : list cval) (fa : list (option ast)) (b : @bstate simple_backend) : Prop :=
  ∀ j c h, vs !! j = Some c → fa !! (k + j)%nat = Some (Some h) → rep ρ b h (sem_value c).

Lemma exec_parameter_code n k sx args vs tail m :
  sx_below n sx → agree ρ sx (parameter_code n k sx args ++ tail) m →
  eval_operands DL (cenv m) args = Some vs → (k + length args ≤ 256)%nat →
  wp (exec_code DL (parameter_code n k sx args)) m (λ _ m', cenv m' = cenv m ∧
    (∀ r, ¬ (n ≤ r < n + length args)%nat → regs m' !! r = regs m !! r) ∧
    ∃ fa, rts m' = set_calls (g_return_value (rts m)) fa (rts m) ∧ passed k vs fa (rt_backend (rts m)) ∧
      ∀ j, (j < k)%nat → fa !! j = g_function_arguments (rts m) !! j).
Proof.
  revert n k vs m. induction args as [|a args IH]; intros n k vs m Hb A Ev Hk.
  { injection Ev as <-. apply exec_nil. split_and!; [done..|].
    exists (g_function_arguments (rts m)). split_and!; [by destruct (rts m)|by intros j c h|done]. }
  cbn [length] in Hk. apply mapM_Some_1 in Ev. inversion Ev as [|? c ? vs' Ea Evs]; subst.
  cbn [parameter_code] in A |- *.
  destruct (agree_operand DL ρ sx _ m a c A) as (o&Eo&Ho); [|done|].
  { intros r Hr. apply uses_app. left. unfold uses. cbn. rewrite Hr. cbn. unfold uses_expr.
    by rewrite bool_decide_eq_true_2. }
  apply exec_cons. eapply exec_call.
  { constructor; [apply arg_int|]. constructor; [by apply arg_expr|constructor]. }
  set (fa0 := <[k := o]> (g_function_arguments (rts m))).
  set (t1 := set_calls (g_return_value (rts m)) fa0 (rts m)).
  exists None, t1. split.
  { cbn. unfold _sym_set_parameter_expression, no_result, bind, modify, ret, t1, fa0. cbn. do 4 f_equal.
    unfold u8, wrap. rewrite Z.mod_mod by done. rewrite Z.mod_small by lia. lia. }
  set (m1 := set_reg_mach n (RExpr None) t1 m).
  eapply wp_impl; [apply (IH (S n) (S k) vs' m1)|].
  - intros x r Hx. specialize (Hb _ _ Hx). lia.
  - eapply (agree_kept ρ sx n _ _ m); [done| |done|done|by intros ?| |exact A].
    + apply covers_sub. intros it. set_solver.
    + intros r Hr. cbn. apply lookup_insert_ne. lia.
  - by apply mapM_Some_2.
  - lia.
  - intros _ m2 (E2&F2&fa&Er&Hp&Hold). split_and!; [done| |].
    + intros r Hr. rewrite F2 by (cbn [length] in Hr; lia). cbn. apply lookup_insert_ne.
      cbn [length] in Hr. lia.
    + exists fa. split_and!; [done| |].
      * intros [|j] c' h Hj Hh; cbn in Hj.
        -- injection Hj as <-. rewrite Nat.add_0_r in Hh. rewrite Hold in Hh by lia. cbn in Hh.
           unfold fa0 in Hh. apply list_lookup_insert_Some in Hh as [(_&->&_)|[? _]]; [by apply Ho|done].
        -- apply (Hp j c' h Hj). by rewrite Nat.add_succ_comm.
      * intros j Hj. rewrite Hold by lia. cbn. unfold fa0. apply list_lookup_insert_ne. lia.
Qed.

Lemma exec_notify f i n m :
  f = notifyCall ∨ f = notifyRet →
  exec_item DL (notify f i n) m = Ok tt (set_reg_mach n (RExpr None) (rts m) m).
Proof. by intros [->| ->]. Qed.

Lemma exec_call_before i args ue sx n vs tail m :
  sx_below n sx → agree ρ sx (call_before i args ue sx n ++ tail) m →
  eval_operands DL (cenv m) args = Some vs → (length args ≤ 256)%nat →
  wp (exec_code DL (call_before i args ue sx n)) m (λ _ m', cenv m' = cenv m ∧
    (∀ r, ¬ (n ≤ r < before_next args ue n)%nat → regs m' !! r = regs m !! r) ∧
    ∃ fa, rts m' = set_calls (if ue then g_return_value (rts m) else None) fa (rts m) ∧
      passed 0 vs fa (rt_backend (rts m))).
Proof.
  intros Hb A Ev Hl. apply exec_cons. exists tt, (set_reg_mach n (RExpr None) (rts m) m).
  split; [apply exec_notify; by left|]. set (m1 := set_reg_mach _ _ _ _).
  set (after := if ue then [] else _) in *. apply exec_app.
  eapply wp_impl; [apply (exec_parameter_code (S n) 0 sx args vs (after ++ tail) m1)|]; try done.
  - intros x r Hx. specialize (Hb _ _ Hx). lia.
  - eapply (agree_kept ρ sx n _ _ m); [done| |done|done|by intros ?| |exact A].
    + unfold call_before. apply covers_sub. intros it. set_solver.
    + intros r Hr. cbn. apply lookup_insert_ne. lia.
  - intros _ m2 (E2&F2&fa&Er&Hp&_). unfold after, before_next. destruct ue.
    + apply exec_nil. split_and!; [done| |by exists fa].
      intros r Hr. rewrite F2 by lia. cbn. apply lookup_insert_ne. lia.
    + apply exec_cons. eapply exec_call; [by constructor; [by apply arg_expr|constructor]|].
      eexists _, _. split; [reflexivity|]. apply exec_nil. split_and!; [done| |].
      * intros r Hr. cbn. rewrite lookup_insert_ne by lia. rewrite F2 by lia. cbn. apply lookup_insert_ne. lia.
      * exists fa. split; [|done]. cbn. by rewrite Er.
Qed.

Lemma map_uses_parameters E n k sx args :
  map_uses (erase E) <$> parameter_code n k sx args = parameter_code n k (erase_map E sx) args.
Proof.
  revert n k. induction args as [|a args IH]; intros n k; [done|]. cbn. by rewrite IH, sym_lookup_erase.
Qed.

Lemma map_uses_before E i args ue sx n :
  map_uses (erase E) <$> call_before i args ue sx n = call_before i args ue (erase_map E sx) n.
Proof.
  unfold call_before. cbn [fmap list_fmap map_uses map_expr notify getTargetPreferredInt].
  rewrite fmap_app, map_uses_parameters. by destruct ue.
Qed.

Lemma map_uses_after E i ue n : map_uses (erase E) <$> call_after i ue n = call_after i ue n.
Proof. by destruct ue. Qed.

(** At the return point, the expression is fetched. *)
Lemma exec_call_after i ue n m :
  consistent ρ (rts m) →
  wp (exec_code DL (call_after i ue n)) m (λ _ m', cenv m' = cenv m ∧
    rt_backend (rts m') = rt_backend (rts m) ∧ memory (rts m') = memory (rts m) ∧ consistent ρ (rts m') ∧
    (∀ r, ¬ (n ≤ r < n + if ue then 1 else 2)%nat → regs m' !! r = regs m !! r) ∧
    (ue = false → regs m' !! S n = Some (RExpr (g_return_value (rts m))))).
Proof.
  intros C. apply exec_cons. exists tt, (set_reg_mach n (RExpr None) (rts m) m).
  split; [apply exec_notify; by right|]. destruct ue.
  - apply exec_nil. split_and!; try done. intros r Hr. cbn. apply lookup_insert_ne. lia.
  - apply exec_cons. eapply exec_call; [constructor|].
    exists (g_return_value (rts m)), (set_calls None (g_function_arguments (rts m)) (rts m)).
    split; [done|]. apply exec_nil. split_and!; try done.
    + intros r Hr. cbn. rewrite !lookup_insert_ne by lia. done.
    + intros _. cbn. by rewrite lookup_insert_eq.
Qed.

Lemma exec_the_call i f args ue vs r mem' e' m :
  kind i = CallInst (FunctionCall f) args ue → eval_operands DL (cenv m) args = Some vs →
  call f vs (memory (rts m)) = Some (r, mem') → returned DL i r (cenv m) = Some e' →
  consistent ρ (rts m) → parameters_ok ρ vs (rts m) → (length args ≤ 256)%nat →
  wp (exec_item DL (Orig i)) m (λ _ m', cenv m' = e' ∧ regs m' = regs m ∧ memory (rts m') = mem' ∧
    consistent ρ (rts m') ∧ bext (rt_backend (rts m)) (rt_backend (rts m')) ∧
    ∀ c h, g_return_value (rts m) = None → r = Some c → g_return_value (rts m') = Some h →
      rep ρ (rt_backend (rts m')) h (sem_value c)).
Proof.
  intros K Ev Ec Er C Hp Hl. cbn [exec_item]. unfold exec_orig. rewrite K. unfold exec_function_call.
  apply wp_bind. exists m, m. split; [done|]. rewrite Ev.
  assert (length vs = length args) as Hlen by (symmetry; by eapply length_mapM).
  destruct (callees_ok ρ f vs (rts m) r mem' Ec C Hp) as (r'&t&E&->&Em&C'&X&Hret); [lia|].
  set (m1 := {| regs := regs m; flags := flags m; cenv := cenv m; rts := t |}).
  apply wp_bind. exists r, m1. split; [unfold on_rt, zoom; by rewrite E|].
  apply wp_bind. exists m1, m1. split; [done|]. change (cenv m1) with (cenv m). rewrite Er.
  by exists tt, {| regs := regs m; flags := flags m; cenv := e'; rts := t |}.
Qed.

Lemma call_simulates i f args ue s :
  kind i = CallInst (FunctionCall f) args ue → supported_call i args ue = true →
  sx_below (fresh s) (symbolicExpressions s) → symbolicExpressions s !! name i = None →
  simulates DL ρ [i] (symbolicExpressions s) (symbolicExpressions (after_call i args ue s)) (fresh s)
    (fresh (after_call i args ue s))
    (CItem <$> call_before i args ue (symbolicExpressions s) (fresh s) ++
       Orig i :: call_after i ue (before_next args ue (fresh s))).
Proof.
  intros K [Hl%Nat.leb_le Ht]%andb_prop Hb Hn. apply simulates_on. intros E tail n code n' m e' mem' HE Cv Hhi C A R.
  cbn [run_insts] in R. destruct (run_inst DL i (cenv m) (memory (rts m))) as [[e1 mem1]|] eqn:R1; [|done].
  injection R as -> ->. destruct (run_call_inv _ _ _ _ _ _ _ _ _ K R1) as (vs&r&Ev&Ec&Er).
  rewrite erase_items in Cv, A. apply converted_items_inv in Cv as [-> ->]. rewrite flatten_items in A.
  rewrite fmap_app in A |- *. cbn [fmap list_fmap] in A |- *. rewrite map_uses_before in A |- *.
  change (map_uses (erase E) (Orig i)) with (Orig i) in *. fold (fmap (M:=list) (map_uses (erase E))) in *.
  rewrite map_uses_after in A |- *. rewrite <-app_assoc in A.
  set (sx := symbolicExpressions s) in *. set (k := before_next args ue (fresh s)) in *.
  assert (fresh (after_call i args ue s) = (k + if ue then 1 else 2)%nat) as Hfr.
  { subst k. unfold after_call. destruct ue; cbn; lia. }
  assert (fresh s < k)%nat as Hk by (subst k; unfold before_next; destruct ue; lia).
  apply exec_app. eapply wp_impl; [apply (exec_call_before i args ue (erase_map E sx) (fresh s) vs
    ((Orig i :: call_after i ue k) ++ tail) m)|]; try done.
  { intros x r0 [Hx _]%erase_map_lookup. by eapply Hb. }
  fold k. intros _ m1 (E1&F1&fa&Er1&Hp). apply exec_cons.
  eapply wp_impl; [apply (exec_the_call i f args ue vs r mem' e' m1 K)|]; rewrite ?E1, ?Er1; try done.
  intros _ m2 (E2&G2&Em2&C2&X2&Hret). cbn [rt_backend set_calls] in X2.
  eapply wp_impl; [apply (exec_call_after i ue k m2 C2)|].
  intros _ m3 (E3&Eb3&Em3&C3&F3&Hs).
  assert (∀ r0, ¬ (fresh s ≤ r0 < k + if ue then 1 else 2)%nat → regs m3 !! r0 = regs m !! r0) as F.
  { intros r0 Hr. rewrite F3, G2, F1; [done|lia|destruct ue; lia]. }
  assert (bext (rt_backend (rts m)) (rt_backend (rts m3))) as X by by rewrite Eb3.
  split_and!; [congruence..|done| |split; [done|]].
  - intros x r0 c Hx Hu Hc. rewrite E3, E2 in Hc. apply erase_map_lookup in Hx as [Hx HrE].
    destruct (decide (x = name i)) as [->|Hne].
    + unfold after_call in Hx. destruct ue; cbn in Hx.
      { change (sx !! name i = Some (Some r0)) in Hx. by rewrite Hn in Hx. }
      rewrite lookup_insert_eq in Hx. injection Hx as <-. exists (g_return_value (rts m2)). split.
      { change (read_expr (Some (S k)) m3 = Some (g_return_value (rts m2))). unfold read_expr. by rewrite Hs. }
      intros h Eh. rewrite Eb3.
      apply returned_inv in Er as [(Et&_&_)|(v&->&->)]; [by rewrite Et in Ht|].
      rewrite lookup_insert_eq in Hc. injection Hc as ->. by apply Hret.
    + assert (sx !! x = Some (Some r0)) as Hx'.
      { unfold after_call in Hx. destruct ue; [done|]. cbn in Hx. by rewrite lookup_insert_ne in Hx. }
      rewrite (run_inst_frame _ _ _ _ _ _ _ R1 Hne) in Hc.
      destruct (proj1 A x r0 c) as (o&Eo&Ho); [by apply erase_map_lookup| |done|].
      { apply uses_app. right. apply uses_app. by right. }
      exists o. split.
      * rewrite <-Eo. unfold read_expr. rewrite F; [done|]. specialize (Hb _ _ Hx'). lia.
      * intros h Eh. eapply rep_mono; [exact X|by apply Ho].
  - intros r0 Hr. apply F. unfold owned in Hr. rewrite Hfr in Hr. lia.
Qed.

(** ** The pass *)
Lemma chunks_ok_call n f (xs : list arg) (l : list item) hi :
  chunks_ok (S n) (CItem <$> l) hi → chunks_ok n (CItem <$> Call n f xs :: l) hi.
Proof. intros H. exists (S n). split_and!; [lia| |done]. by repeat constructor. Qed.

Lemma chunks_ok_parameters n k sx args l hi :
  chunks_ok (n + length args) (CItem <$> l) hi → chunks_ok n (CItem <$> parameter_code n k sx args ++ l) hi.
Proof.
  revert n k. induction args as [|a args IH]; intros n k H; [by rewrite Nat.add_0_r in H|].
  apply chunks_ok_call, IH. cbn [length] in H. by rewrite Nat.add_succ_r in H.
Qed.

Lemma parameter_code_plain n k sx args : Forall plain_item (parameter_code n k sx args).
Proof. revert n k. induction args as [|a args IH]; intros n k; by constructor. Qed.

Lemma call_before_plain i args ue sx n : Forall plain_item (call_before i args ue sx n).
Proof.
  constructor; [done|]. apply Forall_app. split; [apply parameter_code_plain|].
  destruct ue; by repeat constructor.
Qed.

Lemma call_after_plain i ue n : Forall plain_item (call_after i ue n).
Proof. destruct ue; by repeat constructor. Qed.

Lemma processed_call i f args ue s :
  kind i = CallInst (FunctionCall f) args ue → supported_call i args ue = true →
  sx_below (fresh s) (symbolicExpressions s) → symbolicExpressions s !! name i = None →
  ∃ ps qs s', visit DL host_address i s = Ok tt s' ∧ Forall plain_item (flatten ps) ∧
    Forall plain_item qs ∧ (is_function_call i = false → qs = []) ∧
    processed DL ρ [i] s (ps ++ (CItem <$> Orig i :: qs)) s'.
Proof.
  intros K Hs Hb Hn. set (k := before_next args ue (fresh s)).
  exists (CItem <$> call_before i args ue (symbolicExpressions s) (fresh s)), (call_after i ue k),
    (after_call i args ue s).
  split_and!; [by eapply visit_call| |apply call_after_plain| |].
  { rewrite flatten_items. apply call_before_plain. }
  { unfold is_function_call. by rewrite K. }
  rewrite <-fmap_app. split; rewrite ?flatten_items.
  - unfold after_call. by destruct ue.
  - assert (∀ l, comps (CItem <$> l) = []) as -> by (intros l; by induction l).
    rewrite app_nil_r. unfold after_call. by destruct ue.
  - unfold after_call. by destruct ue.
  - apply initialised_same; [|unfold after_call; by destruct ue].
    unfold call_before, no_reads. cbn [app forallb]. rewrite !forallb_app.
    assert (∀ n k sx l, no_reads (parameter_code n k sx l) = true) as Hp.
    { intros n j sx l. revert n j. induction l as [|a l IH]; intros n j; [done|]. apply IH. }
    unfold no_reads in Hp. rewrite Hp. by destruct ue.
  - unfold call_before, call_after, after_call, k, before_next. cbn [app]. apply chunks_ok_call.
    rewrite <-app_assoc. apply chunks_ok_parameters. destruct ue.
    + exists (S (fresh s) + length args)%nat. split_and!; [lia|constructor|]. by apply chunks_ok_call.
    + apply chunks_ok_call. exists (S (S (fresh s) + length args))%nat. split_and!; [lia|constructor|].
      by do 2 apply chunks_ok_call.
  - intros x r. assert (fresh s ≤ k)%nat as Hk by (unfold k, before_next; destruct ue; lia).
    unfold after_call. fold k. destruct ue; cbn.
    + intros Hx. specialize (Hb _ _ Hx). lia.
    + destruct (decide (x = name i)) as [->|]; [rewrite lookup_insert_eq; intros [= <-]; lia|].
      rewrite lookup_insert_ne by done. intros Hx. specialize (Hb _ _ Hx). lia.
  - intros x Hx. unfold after_call. destruct ue; [done|]. cbn. apply lookup_insert_ne.
    intros E. apply Hx. rewrite <-E. by left.
  - by apply (call_simulates i f).
  - intros src [H1 _] Hsx x r. unfold after_call. fold k. destruct ue; cbn; [apply Hsx|].
    destruct (decide (x = name i)) as [->|]; [|rewrite lookup_insert_ne by done; apply Hsx].
    rewrite lookup_insert_eq. intros [= <-]. apply H1; [by left|]. cbn. fold k.
    unfold k, before_next. lia.
  - apply Forall_app. split; [|constructor; [right; exists i; by split; [|left]|]].
    + eapply Forall_impl; [apply call_before_plain|]. by left.
    + eapply Forall_impl; [apply call_after_plain|]. by left.
Qed.
End calls.
