(* ===== verification/SymbolizerSpec.v ===== *)
(** * The instrumented program simulates the original one

    The correctness of compiler/Symbolizer.cpp for straight-line code: the
    visitors of all instructions succeed, and the code that they leave, once
    [finalizePHINodes] and [shortCircuitExpressionUses] have finished it, has the
    same effect on the program's variables and memory as the original
    instructions and leaves the shadow memory and the expressions of the
    variables in agreement with them. *)

From S2P Require Import Prelude Smt Z3Api Interface ByteSeq BitArrays Arith SimpleBackend.
From S2P Require Import SimpleSpec PathConstraints State Shadow Memory Dispatch Symbolizer.
From S2P Require Import SymbolizerSem ShortCircuit Computations Simulation Visitors VisitScalar.
From S2P Require Import VisitAddress VisitEffects VisitSwitch VisitMemory Processed VisitCall.
From S2P Require Import Interface.
From Stdlib Require Import SpecFloat.

#[local] Open Scope Z_scope.

(** ** The instructions covered *)
Definition is_bool (t : ty) : bool := match t with IntTy w => w =? 1 | _ => false end.
Definition is_pointer (t : ty) : bool := match t with PointerTy => true | _ => false end.
Definition is_word (t : ty) : bool :=
  match t with IntTy w => w =? 64 | PointerTy => true | _ => false end.
Definition is_int (t : ty) : bool := match t with IntTy _ => true | _ => false end.

Lemma is_bool_spec t : is_bool t = true ↔ t = IntTy 1.
Proof.
  destruct t as [w| | | | |]; cbn; try (split; congruence). rewrite Z.eqb_eq.
  split; congruence.
Qed.

Lemma is_pointer_spec t : is_pointer t = true ↔ t = PointerTy.
Proof. destruct t; cbn; split; congruence. Qed.

Lemma is_word_spec t : is_word t = true → t = IntTy 64 ∨ t = PointerTy.
Proof. destruct t; cbn; try done; [intros ->%Z.eqb_eq|]; auto. Qed.

Section supported.
Context (DL : DataLayout).

(** Intrinsics whose call, after lowering, has operands of the right number
    and type. *)
Definition supported_intrinsic (id : intrinsic) (args : list operand) : bool :=
  match id, args with
  | (I_dbg_value | I_stackrestore), _ => true
  | I_expect, _ :: _ => true
  | I_bswap, a :: _ => creatable (getType a)
  | (I_sadd_sat | I_uadd_sat | I_ssub_sat | I_usub_sat | I_sshl_sat), [a; b] =>
      saturates (getType a) && saturates (getType b)
  | I_abs, [a; _] => creatable (getType a) && is_int (getType a) && negb (is_bool (getType a))
  | I_fabs, [a] => creatable (getType a)
  | (I_memcpy | I_memmove | I_memset), [_; _; _] => true
  | _, _ => false
  end.

Definition supported (i : inst) : bool :=
  match kind i with
  | BinaryOperator op a b =>
      creatable (getType a) && creatable (getType b) && (negb (is_bool (getType a)) || bool_op op)
  | FNeg a | FPExtInst a | FPTruncInst a => creatable (getType a)
  | SelectInst c _ _ => is_bool (getType c) && plain_file i
  | CondBr c _ _ _ => is_bool (getType c) && plain_file i
  | CmpInst p a b =>
      creatable (getType a) && creatable (getType b) && comparison_ok p (getType a)
  | ReturnInst _ | UncondBr | UnreachableInst | FPToSIInst _ | FPToUIInst _ | AllocaInst => true
  | LoadInst _ => bool_decide (is_Some (scalar_bytes DL (type i)))
  | StoreInst v _ => small_scalar DL (getType v)
  | GetElementPtrInst ptr indices => is_pointer (getType ptr) && forallb (index_ok DL) indices
  | BitCastInst a => is_pointer (getType a) && is_pointer (type i)
  | IntToPtrInst a => is_word (getType a)
  | PtrToIntInst a => is_word (getType a) && match type i with IntTy w => w =? 64 | _ => false end
  | TruncInst a => creatable (getType a) && creatable (type i)
  | SExtInst a | ZExtInst a =>
      is_int (getType a) && creatable (getType a) && creatable (type i)
  | SIToFPInst a | UIToFPInst a => creatable (getType a) && negb (is_bool (getType a))
  | CallInst (Intrinsic id) args _ => supported_intrinsic id args
  | CallInst (FunctionCall _) args ue => supported_call i args ue
  | SwitchInst c _ => supported_switch i c
  | _ => false
  end.
End supported.

Section simulation.
Context {Z3I : Z3} {ZL : Z3Laws Z3I} {KC : Calls} {KI : ICalls} {FR : Frame}.
Context (DL : DataLayout) (ρ : RunInput) (host_address : nat → Z) (L : layout_ok DL) {KO : CalleesOk ρ}.
Implicit Types (m : mach) (s : symbolizer) (cs : list chunk).

#[local] Abbreviation handled := (handled DL ρ host_address).
#[local] Abbreviation processed := (processed DL ρ).

Lemma not_bool t : negb (is_bool t) = true → t ≠ IntTy 1.
Proof. intros H ->. done. Qed.

Lemma handled_intrinsic i id args ue s :
  kind i = CallInst (Intrinsic id) args ue → sx_below (fresh s) (symbolicExpressions s) →
  supported_intrinsic id args = true → handled i s.
Proof.
  intros K Hb H. pose proof (layout_ptr _ L) as Hptr.
  destruct id; try done; cbn in H; try (destruct args as [|a args]; [done|]).
  - apply handled_nothing; [unfold visit_before; by rewrite K|].
    intros e mem e' mem' R. unfold run_inst in R. rewrite K in R. by injection R as _ <-.
  - destruct args as [|b [|c [|]]]; try done. by eapply handled_copy_bytes.
  - destruct args as [|b [|c [|]]]; try done. by eapply handled_memset.
  - destruct args as [|b [|c [|]]]; try done. by eapply handled_copy_bytes.
  - apply handled_nothing; [unfold visit_before; by rewrite K|].
    intros e mem e' mem' R. unfold run_inst in R. rewrite K in R. by injection R as _ <-.
  - by eapply handled_expect.
  - destruct args; [|done]. by eapply handled_fabs.
  - by eapply handled_bswap.
  - destruct args as [|b [|]]; try done. by eapply handled_saturating.
  - destruct args as [|b [|]]; try done. by eapply handled_saturating.
  - destruct args as [|b [|]]; try done. by eapply handled_saturating.
  - destruct args as [|b [|]]; try done. by eapply handled_saturating.
  - destruct args as [|b [|]]; try done. by eapply handled_saturating.
  - destruct args as [|p [|]]; try done. apply andb_true_iff in H as [[Ca Hi]%andb_true_iff Hn].
    eapply handled_abs; try done; [by apply not_bool|]. intros E. by rewrite E in Hi.
Qed.

Lemma handled_silent i s :
  match kind i with
  | UncondBr | UnreachableInst | FPToSIInst _ | FPToUIInst _ | AllocaInst => True
  | _ => False
  end → handled i s.
Proof.
  intros H. apply handled_nothing.
  { unfold visit_before, visitCastInst. by destruct (kind i). }
  intros e mem e' mem' R. unfold run_inst in R.
  destruct (kind i); try done; repeat case_match; by simplify_eq.
Qed.

Lemma supported_handled i s :
  supported DL i = true → is_function_call i = false → sx_below (fresh s) (symbolicExpressions s) →
  handled i s.
Proof.
  intros H Hcall Hb. unfold is_function_call in Hcall. pose proof (layout_ptr _ L) as Hptr.
  unfold supported in H.
  destruct (kind i) as [op a b|a|c t f|p a b|v| |c ct lo g| |f args ue| |p|v p|p l|a|a|a|a|a|a|a|a|a|a
    |a|a| |inc|g v l|g l|c l| | | |] eqn:K; try done.
  - apply andb_true_iff in H as [[Ha Hc]%andb_true_iff Hop]. eapply handled_binary; try done.
    intros E%is_bool_spec. by rewrite E in Hop.
  - by eapply handled_fneg.
  - apply andb_true_iff in H as [Hc%is_bool_spec Hf]. by eapply handled_select.
  - apply andb_true_iff in H as [[Ha Hc]%andb_true_iff Hok]. by eapply handled_cmp.
  - by eapply handled_return.
  - apply handled_silent. by rewrite K.
  - apply andb_true_iff in H as [Hc%is_bool_spec Hf]. by eapply handled_branch.
  - destruct f; try done. by eapply handled_intrinsic.
  - apply handled_silent. by rewrite K.
  - apply bool_decide_eq_true in H. by eapply handled_load.
  - by eapply handled_store.
  - apply andb_true_iff in H as [Hp%is_pointer_spec Hi]. by eapply handled_gep.
  - apply andb_true_iff in H as [Ha%is_pointer_spec Ht%is_pointer_spec]. by eapply handled_bitcast.
  - apply andb_true_iff in H as [Ha Ht]. by eapply handled_trunc.
  - apply is_word_spec in H. eapply handled_ptr_int; try done. by left.
  - apply andb_true_iff in H as [Ha%is_word_spec Ht]. eapply handled_ptr_int; try done. right.
    split; [done|]. destruct (type i); try done. by apply Z.eqb_eq in Ht as ->.
  - apply andb_true_iff in H as [Ha Hn%not_bool]. by eapply (handled_int_to_fp DL ρ Hptr host_address i a true).
  - apply andb_true_iff in H as [Ha Hn%not_bool]. by eapply (handled_int_to_fp DL ρ Hptr host_address i a false).
  - eapply handled_fp_to_fp; try done. by left.
  - eapply handled_fp_to_fp; try done. by right.
  - apply handled_silent. by rewrite K.
  - apply handled_silent. by rewrite K.
  - apply andb_true_iff in H as [[Hi Ha]%andb_true_iff Ht].
    destruct (getType a) as [w| | | | |] eqn:Ta; try done.
    eapply (handled_extension DL ρ Hptr host_address i a true w); try done. by rewrite Ta.
  - apply andb_true_iff in H as [[Hi Ha]%andb_true_iff Ht].
    destruct (getType a) as [w| | | | |] eqn:Ta; try done.
    eapply (handled_extension DL ρ Hptr host_address i a false w); try done. by rewrite Ta.
  - by eapply handled_switch.
  - apply handled_silent. by rewrite K.
Qed.

(** ** Sequences of instructions *)

(** Code after an instruction: none after a terminator. *)
Lemma processed_one i s :
  supported DL i = true → sx_below (fresh s) (symbolicExpressions s) →
  symbolicExpressions s !! name i = None →
  ∃ ps qs s', visit DL host_address i s = Ok tt s' ∧ Forall plain_item (flatten ps) ∧
    Forall plain_item qs ∧ (is_function_call i = false → qs = []) ∧
    processed [i] s (ps ++ (CItem <$> Orig i :: qs)) s'.
Proof.
  intros Hi Hb Hn.
  assert (is_function_call i = true ∨ is_function_call i = false) as [Hc|Hc] by (destruct (is_function_call i); tauto).
  - assert (∃ f args ue, kind i = CallInst (FunctionCall f) args ue) as (f&args&ue&K).
    { unfold is_function_call in Hc. destruct (kind i); try done. destruct f; try done. by eexists _, _, _. }
    unfold supported in Hi. rewrite K in Hi. by eapply processed_call.
  - destruct (handled_processed DL ρ host_address i s) as (ps&s1&E&Hp&P); try done.
    { by apply supported_handled. }
    exists ps, [], s1. by split_and!.
Qed.

(** Every instruction of [l] is covered and defines a variable of its own,
    which has no expression yet. *)
Definition well_formed (l : list inst) (sx : gmap nat (option nat)) : bool :=
  forallb (supported DL) l && bool_decide (NoDup (name <$> l)) &&
  forallb (λ i, bool_decide (sx !! name i = None)) l.

Lemma well_formed_spec l sx :
  well_formed l sx = true ↔ Forall (λ i, supported DL i = true) l ∧ NoDup (name <$> l) ∧
    Forall (λ i, sx !! name i = None) l.
Proof.
  unfold well_formed. rewrite !andb_true_iff, bool_decide_eq_true.
  rewrite !forallb_forall, !Forall_forall.
  setoid_rewrite bool_decide_eq_true. setoid_rewrite list_elem_of_In. tauto.
Qed.

(** The pass has visited the instructions one by one. *)
Inductive visits : list inst → symbolizer → list chunk → symbolizer → Prop :=
| visits_nil s : sx_below (fresh s) (symbolicExpressions s) → visits [] s [] s
| visits_cons i l s ps qs s1 cs s2 :
    sx_below (fresh s) (symbolicExpressions s) → visit DL host_address i s = Ok tt s1 →
    Forall plain_item (flatten ps) → Forall plain_item qs → (is_function_call i = false → qs = []) →
    processed [i] s (ps ++ (CItem <$> Orig i :: qs)) s1 → visits l s1 cs s2 →
    visits (i :: l) s ((ps ++ (CItem <$> Orig i :: qs)) ++ cs) s2.

Lemma visits_processed l s cs s' : visits l s cs s' → processed l s cs s'.
Proof.
  induction 1 as [s Hb|i l s ps qs s1 cs s2 _ _ _ _ _ P _ IH]; [by apply processed_nil|].
  by apply (processed_app DL ρ [i] l s _ s1).
Qed.

Lemma visits_run l s cs s' : visits l s cs s' → visit_all DL host_address l s = Ok tt s'.
Proof.
  induction 1 as [s Hb|i l s ps qs s1 cs s2 _ E _ _ _ _ _ IH]; [done|]. cbn.
  by rewrite (bind_Ok _ _ _ _ _ E).
Qed.

Lemma visits_app_inv l1 l2 s cs s' :
  visits (l1 ++ l2) s cs s' →
  ∃ cs1 s1 cs2, cs = cs1 ++ cs2 ∧ visits l1 s cs1 s1 ∧ visits l2 s1 cs2 s'.
Proof.
  revert s cs. induction l1 as [|i l1 IH]; intros s cs V.
  { exists [], s, cs. split_and!; [done| |done]. constructor. by inversion V. }
  inversion V as [|? ? ? ps qs s1 cs0 ? Hb E Hp Hq Hc P V']; subst.
  apply IH in V' as (cs1&s2&cs2&->&V1&V2).
  exists ((ps ++ (CItem <$> Orig i :: qs)) ++ cs1), s2, cs2.
  split_and!; [by rewrite <-!app_assoc|by eapply visits_cons|done].
Qed.

Lemma visit_all_visits l s :
  well_formed l (symbolicExpressions s) = true → sx_below (fresh s) (symbolicExpressions s) →
  ∃ cs s', visits l s cs s'.
Proof.
  rewrite well_formed_spec. revert s. induction l as [|i l IH]; intros s (Hs&ND&Hf) Hb.
  { exists [], s. by constructor. }
  cbn [fmap list_fmap] in ND. apply NoDup_cons in ND as [Hni ND].
  apply Forall_cons in Hs as [Hi Hs]. apply Forall_cons in Hf as [Hfi Hf].
  destruct (processed_one i s Hi Hb Hfi) as (ps&qs&s1&E1&Hp&Hq&Hqs&P1).
  destruct (IH s1) as (cs2&s2&V2).
  { split_and!; [done..|]. apply Forall_forall. intros j Hj.
    rewrite (processed_frame _ _ _ _ _ _ P1).
    - by apply (proj1 (Forall_forall _ _) Hf).
    - intros [Hij|Hij%elem_of_nil]%elem_of_cons; [|done]. apply Hni. rewrite <-Hij.
      by apply list_elem_of_fmap_2. }
  { apply P1. }
  eexists _, s2. by eapply visits_cons.
Qed.
End simulation.
