(* ===== verification/FunctionSpec.v ===== *)
(** * Instrumented functions

    [instrumentFunction] of compiler/Pass.cpp for functions of blocks of
    instructions covered by SymbolizerSpec.v, with phi nodes: the pass succeeds,
    and the code that it leaves is, block by block, the finished phi nodes, the
    notification and the converted code of the instructions.  The prologue
    fetches the expressions of the arguments. *)

From S2P Require Import Prelude Smt Z3Api Interface ByteSeq BitArrays Arith SimpleBackend.
From S2P Require Import SimpleSpec PathConstraints State Shadow Memory Dispatch Symbolizer.
From S2P Require Import SymbolizerSem Cfg ShortCircuit Computations Simulation Phi Visitors.
From S2P Require Import VisitEffects VisitMemory Processed VisitCall SymbolizerSpec Interface.

#[local] Open Scope Z_scope.

(** ** The prologue *)
Fixpoint parameter_items (n : nat) (k : Z) (args : list (nat * bool)) : list item :=
  match args with
  | [] => []
  | (_, true) :: args' => parameter_items n (k + 1) args'
  | (_, false) :: args' =>
      Call n getParameterExpression [AInt (u8 k)] :: parameter_items (S n) (k + 1) args'
  end.

Fixpoint parameter_map (n : nat) (args : list (nat * bool)) (sx : gmap nat (option nat))
    : gmap nat (option nat) :=
  match args with
  | [] => sx
  | (_, true) :: args' => parameter_map n args' sx
  | (x, false) :: args' => parameter_map (S n) args' (<[x := Some n]> sx)
  end.

Fixpoint parameter_next (n : nat) (args : list (nat * bool)) : nat :=
  match args with
  | [] => n
  | (_, true) :: args' => parameter_next n args'
  | (_, false) :: args' => parameter_next (S n) args'
  end.

(** The arguments that get expressions. *)
Definition symbolic_args (f : function) : list (nat * bool) :=
  if bool_decide (fn_name f = "main"%string) then [] else fn_args f.

(** Blocks of covered instructions, every variable defined once, and no phi nodes
    in the entry block. *)
Definition phis_of (b : basic_block) : list inst := (split_phis (instructions b)).1.
Definition rest_of (b : basic_block) : list inst := (split_phis (instructions b)).2.

Definition supported_block (DL : DataLayout) (b : basic_block) : bool :=
  block_shape b && forallb (supported DL) (rest_of b).

Definition supported_function (DL : DataLayout) (f : function) : bool :=
  negb (bool_decide (fn_name f = kSymCtorName)) && forallb (supported_block DL) (blocks f) &&
  bool_decide (phis_of (fn_entry f) = []) &&
  bool_decide (NoDup ((fn_args f).*1 ++ (blocks f ≫= defs))).

Lemma split_phis_app l : (split_phis l).1 ++ (split_phis l).2 = l.
Proof.
  induction l as [|i l IH]; [done|]. cbn. destruct (kind i); try done.
  destruct (split_phis l) as [phis rest]. cbn in *. by rewrite IH.
Qed.

Lemma instructions_split b : instructions b = phis_of b ++ rest_of b.
Proof. symmetry. apply split_phis_app. Qed.

Lemma defs_split b : defs b = (name <$> phis_of b) ++ (name <$> rest_of b).
Proof. unfold defs. by rewrite (instructions_split b), fmap_app. Qed.

Lemma supported_block_spec DL b :
  supported_block DL b = true ↔ forallb is_phi_inst (phis_of b) = true ∧
    (∃ lb t, rest_of b = lb ++ [t] ∧ is_terminator t = true ∧
       Forall (λ i, is_terminator i = false) lb) ∧ Forall (λ i, supported DL i = true) (rest_of b).
Proof.
  unfold supported_block, block_shape, phis_of, rest_of.
  destruct (split_phis (instructions b)) as [phis rest]. cbn [fst snd].
  assert (forallb (supported DL) rest = true ↔ Forall (λ i, supported DL i = true) rest) as Es.
  { rewrite forallb_forall, Forall_forall. by setoid_rewrite list_elem_of_In. }
  rewrite !andb_true_iff, Es. split.
  - intros [[[Hp Ht] Hl] Hs]. split_and!; [done| |done].
    destruct (last rest) as [t|] eqn:E; [|done]. apply last_Some in E as (lb&->).
    exists lb, t. split_and!; [done..|]. rewrite removelast_last in Hl.
    apply Forall_forall. intros i Hi%list_elem_of_In.
    by apply (proj1 (forallb_forall _ _) Hl), negb_true_iff in Hi.
  - intros (Hp&(lb&t&->&Ht&Hl)&Hs). rewrite last_snoc, removelast_last. split_and!; try done.
    apply forallb_forall. intros i Hi%list_elem_of_In.
    by rewrite (proj1 (Forall_forall _ _) Hl i Hi).
Qed.

Section functions.
Context {Z3I : Z3} {ZL : Z3Laws Z3I} {KC : Calls} {KI : ICalls} {FR : Frame}.
Context (DL : DataLayout) (ρ : RunInput) (host_address : nat → Z) (L : layout_ok DL) {KO : CalleesOk ρ}.
Implicit Types (m : mach) (s : symbolizer) (cs : list chunk) (args : list (nat * bool)).

Lemma get_parameters_run k args s :
  get_parameters k args s =
    Ok tt (set_expressions (parameter_map (fresh s) args (symbolicExpressions s))
             (upd_code (parameter_items (fresh s) k args) (parameter_next (fresh s) args) s)).
Proof.
  revert k s. induction args as [|[x []] args IH]; intros k s.
  - unfold upd_code. cbn. rewrite app_nil_r. by destruct s.
  - cbn. unfold bind, ret. by rewrite IH.
  - cbn [get_parameters]. unfold bind at 1 2. rewrite (gen_call _ _ (fresh s) s eq_refl).
    unfold modify, bind. rewrite IH. unfold upd_code. cbn. by rewrite <-app_assoc.
Qed.

Lemma parameter_next_le n args : (n ≤ parameter_next n args)%nat.
Proof. revert n. induction args as [|[x []] args IH]; intros n; cbn; [lia|apply IH|]. specialize (IH (S n)). lia. Qed.

Lemma parameter_names n k args r :
  r ∈ code_names (parameter_items n k args) → (r < parameter_next n args)%nat.
Proof.
  revert n k. induction args as [|[x []] args IH]; intros n k; [by intros ?%elem_of_nil|apply IH|].
  cbn. intros [->|H]%elem_of_cons; [|by eapply IH].
  pose proof (parameter_next_le (S n) args). lia.
Qed.

Lemma parameter_map_below n args sx :
  sx_below n sx → sx_below (parameter_next n args) (parameter_map n args sx).
Proof.
  revert n sx. induction args as [|[x []] args IH]; intros n sx H; [done|by apply IH|].
  apply IH. intros y r. destruct (decide (y = x)) as [->|].
  - rewrite lookup_insert_eq. intros [= <-]. lia.
  - rewrite lookup_insert_ne by done. intros Hy. specialize (H _ _ Hy). lia.
Qed.

Lemma parameter_map_dom n args sx x :
  x ∉ args.*1 → parameter_map n args sx !! x = sx !! x.
Proof.
  revert n sx. induction args as [|[y []] args IH]; intros n sx H; [done|..];
    cbn in H; rewrite not_elem_of_cons in H; cbn; rewrite IH by tauto; [done|].
  apply lookup_insert_ne. naive_solver.
Qed.

(** The calling convention: the parameter expressions are null or have the
    values of the arguments. *)
Definition arguments_agree (k : Z) args m : Prop :=
  ∀ i x u c h, args !! i = Some (x, u) → cenv m !! x = Some c →
    g_function_arguments (rts m) !! Z.to_nat (u8 (k + Z.of_nat i)) = Some (Some h) →
    rep ρ (rt_backend (rts m)) h (sem_value c).

Definition agree_all (sx : gmap nat (option nat)) m : Prop :=
  ∀ x r c, sx !! x = Some (Some r) → cenv m !! x = Some c → agrees ρ m (Some r) (sem_value c).

Lemma agree_all_agree (sx : gmap nat (option nat)) l m :
  agree_all sx m → flags_set l m → agree ρ sx l m.
Proof. intros H Hf. split; [|done]. intros x r c Hx _ Hc. by eapply H. Qed.

Lemma arguments_agree_cons k x u args m :
  arguments_agree k ((x, u) :: args) m → arguments_agree (k + 1) args m.
Proof.
  intros H i y v c h Hi Hc Hh. apply (H (S i) y v c h Hi Hc). rewrite <-Hh. do 3 f_equal. lia.
Qed.

Lemma exec_parameters n k args sx m :
  sx_below n sx → consistent ρ (rts m) → agree_all sx m → arguments_agree k args m →
  wp (exec_code DL (parameter_items n k args)) m (λ _ m', cenv m' = cenv m ∧ rts m' = rts m ∧
    agree_all (parameter_map n args sx) m').
Proof.
  revert n k sx m. induction args as [|[x u] args IH]; intros n k sx m Hb C A Ha.
  { by apply exec_nil. }
  pose proof (arguments_agree_cons _ _ _ _ _ Ha) as Ha'. destruct u; [by apply IH|].
  cbn [parameter_items parameter_map].
  set (e := default None (g_function_arguments (rts m) !! Z.to_nat (u8 k))).
  apply exec_cons. eapply exec_call; [constructor; [apply arg_int|constructor]|].
  exists e, (rts m). split.
  { cbn. unfold _sym_get_parameter_expression, gets. do 4 f_equal.
    unfold u8, wrap. by rewrite Z.mod_mod by done. }
  set (m1 := set_reg_mach n (RExpr e) (rts m) m).
  eapply wp_impl; [apply (IH (S n) (k + 1) (<[x := Some n]> sx) m1); try done|done].
  - intros y r. destruct (decide (y = x)) as [->|].
    + rewrite lookup_insert_eq. intros [= <-]. lia.
    + rewrite lookup_insert_ne by done. intros Hy. specialize (Hb _ _ Hy). lia.
  - intros y r c. destruct (decide (y = x)) as [->|].
    + rewrite lookup_insert_eq. intros [= <-] Hc. exists e. split; [apply set_reg_read|].
      intros h Eh. apply (Ha 0%nat x false c h); [done|done|].
      rewrite Z.add_0_r. subst e. by destruct (_ !! _) as [[]|]; cbn in *; simplify_eq.
    + rewrite lookup_insert_ne by done. intros Hy Hc.
      destruct (A y r c Hy Hc) as (o&Eo&Ho). exists o. split; [|done]. rewrite <-Eo.
      unfold read_expr. cbn. rewrite lookup_insert_ne; [done|].
      specialize (Hb _ _ Hy). lia.
Qed.

Definition prologue (f : function) : list item :=
  Call 0 notifyBasicBlock [getTargetPreferredInt DL host_address (block_id (fn_entry f))] ::
  parameter_items 1 0 (symbolic_args f).

(** The variables that have an expression when the block is visited. *)
Definition argument_map (f : function) : gmap nat (option nat) :=
  parameter_map 1 (symbolic_args f) ∅.

Definition after_prologue (f : function) : symbolizer :=
  set_expressions (argument_map f)
    (upd_code (prologue f) (parameter_next 1 (symbolic_args f)) new_symbolizer).

Lemma prologue_run f (k : M symbolizer unit) :
  (insertBasicBlockNotification DL host_address (block_id (fn_entry f)) ;;;
   symbolizeFunctionArguments (fn_name f) (fn_args f) ;;; k) new_symbolizer =
  k (after_prologue f).
Proof.
  assert (symbolizeFunctionArguments (fn_name f) (fn_args f) =
          get_parameters 0 (symbolic_args f)) as ->.
  { unfold symbolizeFunctionArguments, symbolic_args. by case_bool_decide. }
  unfold insertBasicBlockNotification, bind at 1 2.
  rewrite (gen_call _ _ 0%nat new_symbolizer eq_refl).
  unfold bind, ret. by rewrite get_parameters_run.
Qed.

Lemma after_prologue_below f : sx_below (fresh (after_prologue f)) (argument_map f).
Proof. apply parameter_map_below. intros x r H. by rewrite lookup_empty in H. Qed.

Lemma exec_prologue f m l :
  consistent ρ (rts m) → arguments_agree 0 (fn_args f) m → flags_set l m →
  wp (exec_code DL (prologue f)) m (λ _ m', cenv m' = cenv m ∧ rts m' = rts m ∧
    agree ρ (argument_map f) l m').
Proof.
  intros C A Hf. enough (wp (exec_code DL (prologue f)) m (λ _ m', cenv m' = cenv m ∧ rts m' = rts m ∧
    agree_all (argument_map f) m')) as W.
  { eapply wp_impl; [by apply exec_keeps_flags|]. intros _ m' [(?&?&?) Hk]. split_and!; [done..|].
    apply agree_all_agree; [done|]. by eapply flags_set_kept. }
  apply exec_cons. eapply exec_call; [constructor; [apply arg_int|constructor]|].
  exists None, (rts m). split; [done|].
  set (m1 := set_reg_mach 0 (RExpr None) (rts m) m).
  assert (arguments_agree 0 (symbolic_args f) m) as A'.
  { unfold symbolic_args. case_bool_decide; [|done]. intros i x u c h Hi. by rewrite lookup_nil in Hi. }
  eapply wp_impl; [apply (exec_parameters 1 0 (symbolic_args f) ∅ m1); try done|].
  intros _ m' (E1&E2&A1). by split_and!.
Qed.

(** The code in front of the prologue initialises the flags. *)
Definition initialises (ini l : list item) : Prop :=
  Forall (λ it, ∃ f, it = StoreFlag f false) ini ∧ ∀ f, reads f l → StoreFlag f false ∈ ini.

Lemma exec_initialisation ini l m :
  initialises ini l →
  wp (exec_code DL ini) m (λ _ m', cenv m' = cenv m ∧ rts m' = rts m ∧ regs m' = regs m ∧ flags_set l m').
Proof.
  intros [Hi Hl]. enough (wp (exec_code DL ini) m (λ _ m', cenv m' = cenv m ∧ rts m' = rts m ∧
    regs m' = regs m ∧ ∀ f, StoreFlag f false ∈ ini → is_Some (flags m' !! f))) as W.
  { eapply wp_impl; [exact W|]. intros _ m' (?&?&?&H). split_and!; try done. intros f Hf. auto. }
  clear Hl. revert m. induction Hi as [|it ini (f&->) _ IH]; intros m.
  { apply exec_nil. split_and!; [done..|]. by intros f ?%elem_of_nil. }
  apply exec_cons. exists tt, (flag_mach f false m). split; [done|].
  eapply wp_impl; [apply exec_keeps_flags, IH|]. intros _ m' [(E1&E2&E3&H) Hk]. split_and!; [done..|].
  intros f' [[= ->]|Hf]%elem_of_cons; [|by apply H]. apply Hk. cbn. rewrite lookup_insert_eq. by eexists.
Qed.

Lemma agree_erase E (sx : gmap nat (option nat)) l m : agree ρ sx l m → agree ρ (erase_map E sx) l m.
Proof. intros [A F]. split; [|done]. intros x r c [Hx _]%erase_map_lookup. by apply A. Qed.

(** ** Blocks *)

(** What is in front of the body of a block. *)
Definition notification (n : nat) (b : basic_block) : item :=
  Call n notifyBasicBlock [getTargetPreferredInt DL host_address (block_id b)].

Definition head_length (b : basic_block) : nat := length (phis_of b).

Definition after_head (b : basic_block) s : symbolizer :=
  upd_code [notification (fresh s + head_length b) b] (S (fresh s + head_length b))
    (after_phis (phis_of b) s).

Lemma instrument_block_run b s cs s' :
  forallb is_phi_inst (phis_of b) = true → visits DL ρ host_address (rest_of b) (after_head b s) cs s' →
  instrument_block DL host_address b s = Ok tt s'.
Proof.
  intros Hp V. unfold instrument_block, phis_of, rest_of in *.
  destruct (split_phis (instructions b)) as [phis rest] eqn:Es. cbn [fst snd] in *.
  rewrite (bind_Ok _ _ _ _ _ (visit_phis_run DL host_address phis s Hp)).
  assert (insertBasicBlockNotification DL host_address (block_id b) (after_phis phis s) =
    Ok tt (after_head b s)) as E.
  { unfold insertBasicBlockNotification, after_head, head_length, phis_of. rewrite Es. cbn [fst].
    by rewrite (bind_Ok _ _ _ _ _ (gen_call _ _ (fresh s + length phis)%nat (after_phis phis s) eq_refl)). }
  rewrite (bind_Ok _ _ _ _ _ E). by eapply visits_run.
Qed.

(** A block that the pass has visited: the states before and after, and what has
    been appended for the part after the phi nodes. *)
Record segment : Type := {
  sg_block : basic_block;
  sg_before : symbolizer;
  sg_chunks : list chunk;
  sg_after : symbolizer;
}.

Definition seg_ok (g : segment) : Prop :=
  supported_block DL (sg_block g) = true ∧
  visits DL ρ host_address (rest_of (sg_block g)) (after_head (sg_block g) (sg_before g))
    (sg_chunks g) (sg_after g).

Inductive chain : symbolizer → list segment → symbolizer → Prop :=
| chain_nil s : chain s [] s
| chain_cons g l s : seg_ok g → chain (sg_after g) l s → chain (sg_before g) (g :: l) s.

Lemma chain_cons_inv g l s s' :
  chain s (g :: l) s' → s = sg_before g ∧ seg_ok g ∧ chain (sg_after g) l s'.
Proof. intros C. by inversion C. Qed.

Lemma chain_app s l1 l2 s' :
  chain s (l1 ++ l2) s' ↔ ∃ s1, chain s l1 s1 ∧ chain s1 l2 s'.
Proof.
  split.
  - revert s. induction l1 as [|g l1 IH]; intros s H; [exists s; by split; [constructor|]|].
    inversion H as [|? ? ? Hg H']; subst. apply IH in H' as (s1&?&?). exists s1. by split; [constructor|].
  - intros (s1&H1&H2). induction H1 as [|g l1 s Hg _ IH]; [done|]. constructor; auto.
Qed.

(** The unfinished code of a block, its registered computations, and the
    expressions of its phi nodes. *)
Definition seg_code (g : segment) : list item :=
  phi_code unfinished (fresh (sg_before g)) (phis_of (sg_block g)) ++
  notification (fresh (sg_before g) + head_length (sg_block g)) (sg_block g) :: flatten (sg_chunks g).

Definition seg_phis (g : segment) : list (nat * phi_record) :=
  numbered (fresh (sg_before g)) (phis_of (sg_block g)).

(** What the pass has added between two states. *)
Record grown s (its : list item) (us : list SymbolicComputation) (ph : list (nat * phi_record))
    (ns : list nat) s' : Prop := {
  grown_code : code s' = code s ++ its;
  grown_uses : expressionUses s' = expressionUses s ++ us;
  grown_phis : phiNodes s' = phiNodes s ++ ph.*2;
  grown_entry : initialised its s s';
  grown_le : (fresh s ≤ fresh s')%nat;
  grown_below : sx_below (fresh s') (symbolicExpressions s');
  grown_frame x : x ∉ ns → symbolicExpressions s' !! x = symbolicExpressions s !! x;
  grown_names : Forall (λ p, symbolicExpressions s' !! phi_name p.2 = Some (Some p.1) ∧
    phi_name p.2 ∈ ns ∧ (fresh s ≤ p.1 < fresh s')%nat) ph;
  grown_nodup : NoDup ph.*1;
}.

Lemma grown_refl s : sx_below (fresh s) (symbolicExpressions s) → grown s [] [] [] [] s.
Proof. intros Hb. split; rewrite ?app_nil_r; try done; [by apply initialised_same|constructor]. Qed.

Lemma grown_trans s l1 u1 p1 n1 s1 l2 u2 p2 n2 s2 :
  NoDup (n1 ++ n2) → grown s l1 u1 p1 n1 s1 → grown s1 l2 u2 p2 n2 s2 →
  grown s (l1 ++ l2) (u1 ++ u2) (p1 ++ p2) (n1 ++ n2) s2.
Proof.
  intros (_&Hd&_)%NoDup_app [A1 A2 A3 A4 A5 A6 A7 A8 A9] [B1 B2 B3 B4 B5 B6 B7 B8 B9].
  split; try done; try lia.
  - by rewrite B1, A1, app_assoc.
  - by rewrite B2, A2, app_assoc.
  - by rewrite B3, A3, fmap_app, app_assoc.
  - by eapply initialised_trans.
  - intros x Hx. rewrite elem_of_app in Hx. rewrite B7, A7; tauto.
  - apply Forall_app. split.
    + eapply Forall_impl; [exact A8|]. intros p (E&Hp&Hr). rewrite B7 by auto.
      rewrite elem_of_app. split_and!; [done|by left|lia..].
    + eapply Forall_impl; [exact B8|]. intros p (E&Hp&Hr).
      rewrite elem_of_app. split_and!; [done|by right|lia..].
  - rewrite fmap_app. apply NoDup_app. split_and!; [done| |done].
    intros r (p&->&Hp)%list_elem_of_fmap (q&E&Hq)%list_elem_of_fmap.
    destruct (proj1 (Forall_forall _ _) A8 p Hp) as (_&_&?).
    destruct (proj1 (Forall_forall _ _) B8 q Hq) as (_&_&?). lia.
Qed.

Lemma grown_processed l s cs s' :
  processed DL ρ l s cs s' → grown s (flatten cs) (comps cs) [] (name <$> l) s'.
Proof.
  intros P. pose proof (chunks_ok_le _ _ _ (processed_chunks _ _ _ _ _ _ P)).
  split; try done; try apply P.
  - rewrite app_nil_r. apply P.
  - constructor.
Qed.

Lemma phi_map_frame n phis (sx : gmap nat (option nat)) x :
  x ∉ name <$> phis → phi_map n phis sx !! x = sx !! x.
Proof.
  revert n sx. induction phis as [|i phis IH]; intros n sx; [done|]. cbn.
  intros [Hx Hn]%not_elem_of_cons. rewrite IH by done. by apply lookup_insert_ne.
Qed.

Lemma phi_map_below n phis (sx : gmap nat (option nat)) :
  sx_below n sx → sx_below (n + length phis) (phi_map n phis sx).
Proof.
  revert n sx. induction phis as [|i phis IH]; intros n sx Hb; cbn; [by rewrite Nat.add_0_r|].
  rewrite Nat.add_succ_r. apply (IH (S n)). intros x r.
  destruct (decide (x = name i)) as [->|]; [rewrite lookup_insert_eq; intros [= <-]; lia|].
  rewrite lookup_insert_ne by done. intros Hx. specialize (Hb _ _ Hx). lia.
Qed.

Lemma phi_map_numbered n phis (sx : gmap nat (option nat)) :
  NoDup (name <$> phis) →
  Forall (λ p, phi_map n phis sx !! phi_name p.2 = Some (Some p.1) ∧
    phi_name p.2 ∈ name <$> phis ∧ (n ≤ p.1 < n + length phis)%nat) (numbered n phis).
Proof.
  revert n sx. induction phis as [|i phis IH]; intros n sx; [constructor|].
  cbn [fmap list_fmap]. intros [Hi ND]%NoDup_cons. cbn [numbered length seq zip phi_map].
  constructor.
  - cbn. rewrite phi_map_frame by done. rewrite lookup_insert_eq.
    split_and!; [done|by left|lia..].
  - eapply Forall_impl; [apply (IH (S n) (<[name i := Some n]> sx) ND)|].
    cbn. intros p (E&Hp&Hr). split_and!; [done|by right|lia..].
Qed.

Lemma numbered_fst n phis : (numbered n phis).*1 = seq n (length phis).
Proof. unfold numbered, phi_records. rewrite fst_zip; [done|]. by rewrite length_seq, length_fmap. Qed.

Lemma numbered_snd n phis : (numbered n phis).*2 = phi_records phis.
Proof.
  unfold numbered. rewrite snd_zip; [done|]. unfold phi_records. by rewrite length_seq, length_fmap.
Qed.

Lemma no_reads_phis mk n phis :
  (∀ n i, mk n i = [] ∨ ∃ inc, mk n i = [PhiExpr n inc]) → no_reads (phi_code mk n phis) = true.
Proof.
  intros Hmk. revert n. induction phis as [|i phis IH]; intros n; [done|]. cbn [phi_code].
  unfold no_reads in *. rewrite forallb_app. cbn [forallb]. rewrite IH.
  by destruct (Hmk n i) as [->|(inc&->)].
Qed.

Lemma unfinished_shape n i : unfinished n i = [] ∨ ∃ inc, unfinished n i = [PhiExpr n inc].
Proof. right. by eexists. Qed.

Lemma finished_shape sx E n i : finished sx E n i = [] ∨ ∃ inc, finished sx E n i = [PhiExpr n inc].
Proof. unfold finished. case_decide; [by left|right; by eexists]. Qed.

Lemma grown_head b s :
  sx_below (fresh s) (symbolicExpressions s) → NoDup (name <$> phis_of b) →
  grown s (phi_code unfinished (fresh s) (phis_of b) ++ [notification (fresh s + head_length b) b])
    [] (numbered (fresh s) (phis_of b)) (name <$> phis_of b) (after_head b s).
Proof.
  intros Hb ND. split; cbn; rewrite ?app_nil_r, ?numbered_snd; try done.
  - by rewrite app_assoc.
  - apply initialised_same; [|done]. unfold no_reads. rewrite forallb_app.
    fold (no_reads (phi_code unfinished (fresh s) (phis_of b))). by rewrite no_reads_phis by apply unfinished_shape.
  - lia.
  - intros x r Hx. pose proof (phi_map_below _ (phis_of b) _ Hb x r Hx). unfold head_length. lia.
  - intros x Hx. by apply phi_map_frame.
  - eapply Forall_impl; [by apply phi_map_numbered|].
    intros p (E&Hp&Hr). unfold head_length. split_and!; [exact E|exact Hp|lia..].
  - rewrite numbered_fst. apply NoDup_seq.
Qed.

Lemma grown_segment g :
  seg_ok g → sx_below (fresh (sg_before g)) (symbolicExpressions (sg_before g)) →
  NoDup (defs (sg_block g)) →
  grown (sg_before g) (seg_code g) (comps (sg_chunks g)) (seg_phis g) (defs (sg_block g)) (sg_after g).
Proof.
  intros [_ V] Hb ND. rewrite defs_split in ND |- *. pose proof ND as (NDp&_&_)%NoDup_app.
  pose proof (grown_trans _ _ _ _ _ _ _ _ _ _ _ ND (grown_head (sg_block g) _ Hb NDp)
    (grown_processed _ _ _ _ (visits_processed _ _ _ _ _ _ _ V))) as G.
  rewrite app_nil_r, <-app_assoc in G. exact G.
Qed.

Lemma grown_chain s segs s' :
  chain s segs s' → sx_below (fresh s) (symbolicExpressions s) →
  NoDup (segs ≫= λ g, defs (sg_block g)) →
  grown s (segs ≫= seg_code) (segs ≫= λ g, comps (sg_chunks g)) (segs ≫= seg_phis)
    (segs ≫= λ g, defs (sg_block g)) s'.
Proof.
  induction 1 as [s|g segs s' Hg _ IH]; intros Hb ND; [by apply grown_refl|].
  cbn in ND. pose proof ND as (ND1&_&ND2)%NoDup_app.
  pose proof (grown_segment g Hg Hb ND1) as G. eapply grown_trans; [exact ND|exact G|].
  apply IH; [apply G|exact ND2].
Qed.

(** The pass visits all blocks. *)
Lemma instrument_blocks_run l s :
  Forall (λ b, supported_block DL b = true) l → sx_below (fresh s) (symbolicExpressions s) →
  NoDup (l ≫= defs) → (∀ x, x ∈ l ≫= defs → symbolicExpressions s !! x = None) →
  ∃ segs s', instrument_blocks DL host_address l s = Ok tt s' ∧ chain s segs s' ∧
    sg_block <$> segs = l.
Proof.
  intros Hl. revert s. induction Hl as [|b l Hb _ IH]; intros s Hs ND Hn.
  { exists [], s. by split_and!; [|constructor|]. }
  cbn [mbind list_bind] in ND, Hn. pose proof ND as (ND1&Hd&ND2)%NoDup_app.
  pose proof (proj1 (supported_block_spec _ _) Hb) as (Hp&_&Hr).
  pose proof ND1 as ND1'. rewrite defs_split in ND1'. pose proof ND1' as (NDp&Hdp&NDr)%NoDup_app.
  pose proof (grown_head b s Hs NDp) as G.
  destruct (visit_all_visits DL ρ host_address L (rest_of b) (after_head b s)) as (cs&s1&V).
  { apply well_formed_spec. split_and!; [done..|]. apply Forall_forall. intros i Hi.
    apply (list_elem_of_fmap_2 name) in Hi. rewrite (grown_frame _ _ _ _ _ _ G).
    - apply Hn, elem_of_app. left. rewrite defs_split. apply elem_of_app. by right.
    - intros Hx. by apply (Hdp _ Hx). }
  { apply G. }
  set (g := {| sg_block := b; sg_before := s; sg_chunks := cs; sg_after := s1 |}).
  assert (seg_ok g) as Hg by done. pose proof (grown_segment g Hg Hs ND1) as Gg.
  destruct (IH s1) as (segs&s'&E&C&Eb); [apply Gg|done| |].
  { intros x Hx. rewrite (grown_frame _ _ _ _ _ _ Gg); [apply Hn, elem_of_app; by right|].
    intros Hxb. by apply (Hd x Hxb). }
  exists (g :: segs), s'. split_and!; [|by apply (chain_cons g)|cbn; by rewrite Eb].
  cbn [instrument_blocks]. by rewrite (bind_Ok _ _ _ _ _ (instrument_block_run b s cs s1 Hp V)).
Qed.

(** ** The finished code *)
Definition final_head (sx : gmap nat (option nat)) (E : gset nat) (g : segment) : list item :=
  phi_code (finished sx E) (fresh (sg_before g)) (phis_of (sg_block g)) ++
  [notification (fresh (sg_before g) + head_length (sg_block g)) (sg_block g)].

Definition seg_final (sx : gmap nat (option nat)) (E : gset nat) (g : segment) : list chunk :=
  (CItem <$> final_head sx E g) ++ (erase_chunk E <$> sg_chunks g).

(** The function after all blocks have been visited. *)
Record visited_function (f : function) (cs : list chunk) (s : symbolizer) (segs : list segment)
    (s' : symbolizer) : Prop := {
  vf_entry : visits DL ρ host_address (instructions (fn_entry f)) (after_prologue f) cs s;
  vf_chain : chain s segs s';
  vf_blocks : sg_block <$> segs = fn_blocks f;
  vf_names : NoDup (name <$> instructions (fn_entry f)) ∧
             NoDup (segs ≫= λ g, defs (sg_block g));
}.

Definition all_phis (segs : list segment) : list (nat * phi_record) := segs ≫= seg_phis.

Definition all_erased (segs : list segment) (s' : symbolizer) : gset nat :=
  erased (symbolicExpressions s') (all_phis segs).

Definition all_chunks (cs : list chunk) (segs : list segment) (s' : symbolizer) : list chunk :=
  let E := all_erased segs s' in
  (erase_chunk E <$> cs) ++ (segs ≫= seg_final (symbolicExpressions s') E).

Lemma chain_below s segs s' :
  chain s segs s' → sx_below (fresh s) (symbolicExpressions s) →
  NoDup (segs ≫= λ g, defs (sg_block g)) → sx_below (fresh s') (symbolicExpressions s').
Proof. intros C Hb ND. by eapply grown_below, grown_chain. Qed.

Section finish.
Context (s s' : symbolizer) (segs : list segment).
Context (C : chain s segs s') (Hb : sx_below (fresh s) (symbolicExpressions s)).
Context (ND : NoDup (segs ≫= λ g, defs (sg_block g))).

Lemma chain_at A g B :
  segs = A ++ g :: B → chain s A (sg_before g) ∧ seg_ok g ∧ chain (sg_after g) B s' ∧
    NoDup (A ≫= λ g, defs (sg_block g)) ∧ NoDup (defs (sg_block g)) ∧
    NoDup (B ≫= λ g, defs (sg_block g)).
Proof.
  intros E. pose proof C as C'. pose proof ND as ND'. rewrite E in C', ND'.
  rewrite bind_app in ND'. cbn in ND'. apply NoDup_app in ND' as (?&_&(?&_&?)%NoDup_app).
  apply chain_app in C' as (s1&CA&CB). inversion CB; subst. by split_and!.
Qed.

Lemma erased_range r :
  r ∈ all_erased segs s' → (fresh s ≤ r)%nat ∧ ∀ A g B, segs = A ++ g :: B →
    (r < fresh (after_head (sg_block g) (sg_before g)) ∨ fresh (sg_after g) ≤ r)%nat.
Proof.
  intros Hr%erased_sub. pose proof (grown_chain s segs s' C Hb ND) as G.
  unfold all_phis in Hr. apply list_elem_of_fmap in Hr as (p&->&Hp). split.
  { destruct (proj1 (Forall_forall _ _) (grown_names _ _ _ _ _ _ G) p Hp) as (_&_&?). lia. }
  intros A g B E. destruct (chain_at A g B E) as (CA&Hg&CB&NA&Ng&NB).
  rewrite E, bind_app in Hp. cbn in Hp. rewrite !elem_of_app in Hp.
  pose proof (grown_chain _ _ _ CA Hb NA) as GA.
  pose proof (grown_segment g Hg (grown_below _ _ _ _ _ _ GA) Ng) as Gg.
  pose proof (grown_chain _ _ _ CB (grown_below _ _ _ _ _ _ Gg) NB) as GB.
  destruct Hp as [Hp|[Hp|Hp]].
  - destruct (proj1 (Forall_forall _ _) (grown_names _ _ _ _ _ _ GA) p Hp) as (_&_&?). cbn. lia.
  - left. apply (list_elem_of_fmap_2 fst) in Hp. unfold seg_phis in Hp.
    rewrite numbered_fst in Hp. apply elem_of_seq in Hp. cbn. unfold head_length. lia.
  - destruct (proj1 (Forall_forall _ _) (grown_names _ _ _ _ _ _ GB) p Hp) as (_&_&?). lia.
Qed.

Lemma seg_avoids A g B :
  segs = A ++ g :: B →
  avoids (all_erased segs s') (fresh (after_head (sg_block g) (sg_before g))) (fresh (sg_after g)).
Proof. intros E r Hr Hin. destruct (proj2 (erased_range r Hr) A g B E); lia. Qed.

Lemma processed_not_phi l s1 cs s2 : processed DL ρ l s1 cs s2 → Forall not_phi (flatten cs).
Proof.
  intros P. eapply Forall_impl; [apply (processed_items _ _ _ _ _ _ P)|].
  intros it [?%plain_not_phi|(i&->&_)]; done.
Qed.

Lemma final_head_flatten sx E g :
  flatten (seg_final sx E g) = final_head sx E g ++ flatten (erase_chunk E <$> sg_chunks g).
Proof. unfold seg_final. by rewrite flatten_app, flatten_items. Qed.

Lemma finalized_segment A g B :
  segs = A ++ g :: B →
  finalized (symbolicExpressions s') (all_phis segs) (seg_code g) =
    flatten (seg_final (symbolicExpressions s') (all_erased segs s') g).
Proof.
  intros E. destruct (chain_at A g B E) as (_&[_ V]&_).
  pose proof (visits_processed _ _ _ _ _ _ _ V) as P.
  unfold seg_code. change (notification ?n ?b :: ?l) with ([notification n b] ++ l).
  rewrite !finalized_app, final_head_flatten. unfold final_head. rewrite <-app_assoc.
  f_equal; [|f_equal].
  - apply finalized_phis.
    + apply (grown_nodup _ _ _ _ _ _ (grown_chain s segs s' C Hb ND)).
    + intros p Hp. unfold all_phis. rewrite E, bind_app. cbn. rewrite !elem_of_app. by right; left.
  - by apply finalized_plain; repeat constructor.
  - rewrite finalized_plain by by eapply processed_not_phi.
    symmetry. eapply flatten_erase; [apply P|by apply (seg_avoids A g B)].
Qed.

Lemma finalized_segments B :
  (∃ A, segs = A ++ B) → finalized (symbolicExpressions s') (all_phis segs) (B ≫= seg_code) =
    flatten (B ≫= seg_final (symbolicExpressions s') (all_erased segs s')).
Proof.
  induction B as [|g B IH]; intros (A&E); [apply erase_codes_nil|].
  cbn [mbind list_bind]. rewrite finalized_app, flatten_app, (finalized_segment A g B E). f_equal.
  apply IH. exists (A ++ [g]). by rewrite <-app_assoc.
Qed.

Lemma chunks_ok_silent lo l : Forall (λ it, call_names it = []) l → chunks_ok lo (CItem <$> l) lo.
Proof.
  induction 1 as [|it l Hit _ IH]; [done|]. exists lo. split_and!; [done| |done].
  cbn. rewrite Hit. constructor.
Qed.

Lemma phi_code_silent sx E n phis : Forall (λ it, call_names it = []) (phi_code (finished sx E) n phis).
Proof.
  revert n. induction phis as [|i phis IH]; intros n; [constructor|]. cbn. apply Forall_app. split.
  - unfold finished. case_decide; by repeat constructor.
  - constructor; [done|apply IH].
Qed.

Lemma chunks_ok_segment g sx E :
  seg_ok g → chunks_ok (fresh (sg_before g)) (seg_final sx E g) (fresh (sg_after g)).
Proof.
  intros [_ V]. pose proof (visits_processed _ _ _ _ _ _ _ V) as P.
  unfold seg_final, final_head. rewrite fmap_app, <-app_assoc.
  eapply chunks_ok_app; [apply chunks_ok_silent, phi_code_silent|].
  exists (fresh (after_head (sg_block g) (sg_before g))). split_and!.
  - cbn. lia.
  - cbn. repeat constructor; lia.
  - apply chunks_ok_erase, P.
Qed.
End finish.

Lemma chunks_ok_segments s segs s' sx E :
  chain s segs s' → chunks_ok (fresh s) (segs ≫= seg_final sx E) (fresh s').
Proof.
  induction 1 as [s|g segs s' Hg _ IH]; [done|].
  eapply chunks_ok_app; [by apply chunks_ok_segment|exact IH].
Qed.

Lemma comps_segments segs sx E :
  comps (segs ≫= seg_final sx E) = segs ≫= λ g, comps (sg_chunks g).
Proof.
  induction segs as [|g segs IH]; [done|]. cbn [mbind list_bind]. rewrite comps_app, IH. f_equal.
  unfold seg_final. rewrite comps_app, comps_erase.
  assert (∀ l, comps (CItem <$> l) = []) as -> by (intros l; by induction l). done.
Qed.

(** ** [instrumentFunction] *)
Lemma supported_function_spec f :
  supported_function DL f = true → fn_name f ≠ kSymCtorName ∧
    Forall (λ b, supported_block DL b = true) (blocks f) ∧
    rest_of (fn_entry f) = instructions (fn_entry f) ∧
    NoDup ((fn_args f).*1 ++ (blocks f ≫= defs)).
Proof.
  unfold supported_function. rewrite !andb_true_iff, negb_true_iff, !bool_decide_eq_true.
  rewrite bool_decide_eq_false. intros [[[Hn Hb] Hp] ND]. split_and!; [done| | |done].
  - apply Forall_forall. intros b Hb'%list_elem_of_In. by apply (proj1 (forallb_forall _ _) Hb).
  - by rewrite (instructions_split (fn_entry f)), Hp.
Qed.

Lemma argument_map_fresh f x :
  NoDup ((fn_args f).*1 ++ (blocks f ≫= defs)) → x ∈ blocks f ≫= defs → argument_map f !! x = None.
Proof.
  intros (_&Hd&_)%NoDup_app Hx. unfold argument_map. rewrite parameter_map_dom; [done|].
  intros Ha. apply (Hd x); [|done]. revert Ha. unfold symbolic_args.
  case_bool_decide; [by intros ?%elem_of_nil|done].
Qed.

Lemma segments_defs segs : (sg_block <$> segs) ≫= defs = segs ≫= λ g, defs (sg_block g).
Proof. induction segs as [|g segs IH]; [done|]. cbn. by rewrite <-IH. Qed.

Lemma visit_function f :
  supported_function DL f = true →
  ∃ cs s segs s', visited_function f cs s segs s' ∧
    (instrument_entry DL host_address f ;;; instrument_blocks DL host_address (fn_blocks f))
      new_symbolizer = Ok tt s'.
Proof.
  intros (Hn&Hb&Hr&ND)%supported_function_spec.
  pose proof (λ x, argument_map_fresh f x ND) as Hfresh.
  apply NoDup_app in ND as (_&_&ND). unfold blocks in *. cbn [mbind list_bind] in ND.
  pose proof ND as (ND1&Hd&ND2)%NoDup_app. apply Forall_cons in Hb as [Hb1 Hb2].
  destruct (visit_all_visits DL ρ host_address L (instructions (fn_entry f)) (after_prologue f))
    as (cs&s1&V).
  { apply well_formed_spec. split_and!; [|done|].
    - rewrite <-Hr. by apply supported_block_spec.
    - apply Forall_forall. intros i Hi. apply Hfresh. apply elem_of_app. left.
      by apply list_elem_of_fmap_2. }
  { apply after_prologue_below. }
  pose proof (grown_processed _ _ _ _ (visits_processed _ _ _ _ _ _ _ V)) as G.
  destruct (instrument_blocks_run (fn_blocks f) s1) as (segs&s'&E&C&Eb); [done|apply G|done| |].
  { intros x Hx. rewrite (grown_frame _ _ _ _ _ _ G).
    - apply Hfresh, elem_of_app. by right.
    - intros Hx1. by apply (Hd x Hx1). }
  exists cs, s1, segs, s'. split.
  - split; try done. split; [done|]. by rewrite <-Eb, segments_defs in ND2.
  - assert (instrument_entry DL host_address f new_symbolizer = Ok tt s1) as Ee.
    { unfold instrument_entry. rewrite prologue_run. by apply (visits_run _ _ _ _ _ _ _ V). }
    by rewrite (bind_Ok _ _ _ _ _ Ee).
Qed.

Lemma parameter_items_map g n k args : map_uses g <$> parameter_items n k args = parameter_items n k args.
Proof.
  revert n k. induction args as [|[x []] args IH]; intros n k; [done|apply IH|]. cbn. by rewrite IH.
Qed.

Lemma prologue_finalized sx ps f : finalized sx ps (prologue f) = prologue f.
Proof.
  rewrite finalized_plain.
  - unfold prologue. cbn [fmap list_fmap]. by rewrite parameter_items_map.
  - constructor; [done|]. generalize 1%nat at 1. generalize 0 at 1.
    induction (symbolic_args f) as [|[x []] args IH]; intros k n; [constructor|apply IH|].
    by constructor.
Qed.

Lemma prologue_names f r : r ∈ code_names (prologue f) → (r < fresh (after_prologue f))%nat.
Proof.
  intros Hr. cbn in Hr. pose proof (parameter_next_le 1 (symbolic_args f)).
  apply elem_of_cons in Hr as [->|Hr]; [cbn; lia|by apply parameter_names in Hr].
Qed.

(** *** The flags *)

(** The code at the start of a function. *)
Lemma exec_start f ini m l :
  initialises ini l → consistent ρ (rts m) → arguments_agree 0 (fn_args f) m →
  wp (exec_code DL (ini ++ prologue f)) m (λ _ m', cenv m' = cenv m ∧ rts m' = rts m ∧
    agree ρ (argument_map f) l m').
Proof.
  intros Hi C A. apply exec_app. eapply wp_impl; [by apply exec_initialisation|].
  intros [] m0 (E0&Er0&_&Hf0). rewrite <-E0, <-Er0. apply exec_prologue; [by rewrite Er0| |done].
  intros i x u c h Hi' Hc. rewrite E0 in Hc. rewrite Er0. by eapply A.
Qed.

Lemma initialises_sub ini l l' : (∀ f, reads f l' → reads f l) → initialises ini l → initialises ini l'.
Proof. intros Hl [Hi H]. split; [done|]. intros f Hf. by apply H, Hl. Qed.

Lemma reads_items f cs : reads f (items cs) → reads f (flatten cs).
Proof.
  unfold reads, items, flatten. intros (d&(c&Hd&Hc)%list_elem_of_bind). exists d.
  apply list_elem_of_bind. exists c. split; [|done]. destruct c; [done|by apply elem_of_nil in Hd].
Qed.

Lemma reads_flatten f cs : reads f (flatten cs) ↔ ∃ d, CItem (LoadFlag d f) ∈ cs.
Proof.
  unfold reads, flatten. setoid_rewrite list_elem_of_bind. split.
  - intros (d&c&Hd&Hc). exists d. destruct c as [it|[[? ?]|] sx ks]; cbn in Hd.
    + apply list_elem_of_singleton in Hd as <-. done.
    + by apply list_elem_of_singleton in Hd.
    + by apply list_elem_of_fmap in Hd as (k&?&_).
  - intros (d&Hd). exists d, (CItem (LoadFlag d f)). split; [by left|done].
Qed.

Lemma reads_erase f E cs : reads f (flatten (erase_chunk E <$> cs)) → reads f (flatten cs).
Proof.
  rewrite !reads_flatten. intros (d&([[] |]&Ec&Hc)%list_elem_of_fmap); try done.
  injection Ec as <- <-. by eexists.
Qed.

Lemma reads_segment f sx E g : reads f (flatten (seg_final sx E g)) → reads f (seg_code g).
Proof.
  rewrite final_head_flatten, reads_app. intros [H|H%reads_erase].
  - exfalso. revert H. apply no_reads_spec. unfold final_head, no_reads. rewrite forallb_app.
    fold (no_reads (phi_code (finished sx E) (fresh (sg_before g)) (phis_of (sg_block g)))).
    by rewrite no_reads_phis by apply finished_shape.
  - unfold seg_code. rewrite reads_app. right. destruct H as (d&Hd). exists d. by right.
Qed.

Lemma reads_segments f sx E segs :
  reads f (flatten (segs ≫= seg_final sx E)) → reads f (segs ≫= seg_code).
Proof.
  induction segs as [|g segs IH]; [done|]. cbn [mbind list_bind].
  rewrite flatten_app, !reads_app. intros [H%reads_segment|H]; auto.
Qed.

Lemma reads_chunks f cs segs s' :
  reads f (flatten (all_chunks cs segs s')) → reads f (flatten cs ++ (segs ≫= seg_code)).
Proof.
  unfold all_chunks. rewrite flatten_app, !reads_app. intros [H%reads_erase|H%reads_segments]; auto.
Qed.

(** The code of the instrumented function. *)
Record instrumented (f : function) (cs : list chunk) (s : symbolizer) (segs : list segment)
    (s' : symbolizer) (ini code' : list item) (n' : nat) : Prop := {
  ins_visited : visited_function f cs s segs s';
  ins_initialises : initialises ini (flatten (all_chunks cs segs s'));
  ins_converted :
    converted DL ρ (items (all_chunks cs segs s')) (fresh s') (all_chunks cs segs s') code' n';
}.

Lemma instrument_run f :
  supported_function DL f = true →
  ∃ cs s segs s1 ini code' n' s', symbolizeFunction DL host_address f new_symbolizer = Ok tt s' ∧
    function_code s' = ini ++ prologue f ++ code' ∧ instrumented f cs s segs s1 ini code' n'.
Proof.
  intros Hf. destruct (visit_function f Hf) as (cs&s&segs&s1&VF&E).
  pose proof VF as [V C Eb [NDe NDb]].
  pose proof (visits_processed _ _ _ _ _ _ _ V) as P. pose proof (grown_processed _ _ _ _ P) as G1.
  pose proof (grown_chain s segs s1 C (grown_below _ _ _ _ _ _ G1) NDb) as G2.
  set (E0 := all_erased segs s1). set (sx := symbolicExpressions s1).
  set (s2 := set_expressions ∅ (set_code (prologue f ++ flatten (all_chunks cs segs s1)) s1)).
  assert (finalizePHINodes s1 = Ok tt s2) as Ef.
  { rewrite (finalize_run sx (all_phis segs) s1 eq_refl).
    - unfold s2. do 3 f_equal. rewrite (grown_code _ _ _ _ _ _ G2), (grown_code _ _ _ _ _ _ G1).
      cbn [after_prologue upd_code code new_symbolizer set_expressions set_code set_fresh app].
      rewrite <-app_assoc, !finalized_app, prologue_finalized. f_equal. unfold all_chunks.
      rewrite flatten_app. f_equal.
      + rewrite finalized_plain by by eapply processed_not_phi. symmetry.
        eapply flatten_erase; [apply P|]. intros r Hr.
        pose proof (erased_range s s1 segs C (grown_below _ _ _ _ _ _ G1) NDb r Hr) as [? _]. lia.
      + eapply finalized_segments; [exact C|apply G1|done|by exists []].
    - eapply Forall_impl; [apply (grown_names _ _ _ _ _ _ G2)|]. by intros p [? _].
    - rewrite (grown_phis _ _ _ _ _ _ G2), (grown_phis _ _ _ _ _ _ G1). done. }
  destruct (shortCircuitUses_converts DL ρ (layout_ptr DL L) (items (all_chunks cs segs s1)) []
    (fresh (after_prologue f)) (fresh s1) (all_chunks cs segs s1) (prologue f) s2)
    as (code'&n'&Es&Cv).
  { eapply chunks_ok_app; [by apply chunks_ok_erase, P|by apply (chunks_ok_segments s)]. }
  { done. }
  { intros r Hr. left. by apply prologue_names. }
  { by intros r ?%elem_of_nil. }
  { by rewrite app_nil_r. }
  { intros r Hr. rewrite !existsb_app, Hr. by rewrite orb_true_r. }
  exists cs, s, segs, s1, (entry s1), code', n', (set_fresh n' (set_code (prologue f ++ code' ++ []) s2)).
  split_and!; [|by unfold function_code; cbn; rewrite app_nil_r|].
  2: { split; [done| |done].
       destruct (initialised_trans _ _ _ _ _ (grown_entry _ _ _ _ _ _ G1) (grown_entry _ _ _ _ _ _ G2))
         as (ini&Ei&Hi&Hl).
       cbn in Ei. rewrite app_nil_r in Ei. rewrite Ei. split; [done|]. intros fl Hfl%reads_chunks. by apply Hl. }
  unfold symbolizeFunction.
  unfold bind at 1. unfold bind at 1 in E.
  destruct (instrument_entry DL host_address f new_symbolizer) as [[] s3|]; [|done].
  rewrite (bind_Ok _ _ _ _ _ E), (bind_Ok _ _ _ _ _ Ef).
  unfold shortCircuitExpressionUses, bind, get.
  assert (expressionUses s2 = comps (all_chunks cs segs s1)) as ->; [|by rewrite Es].
  unfold all_chunks. rewrite comps_app, comps_erase, comps_segments.
  change (expressionUses s2) with (expressionUses s1).
  by rewrite (grown_uses _ _ _ _ _ _ G2), (grown_uses _ _ _ _ _ _ G1).
Qed.
End functions.
