(* ===== verification/CfgSpec.v ===== *)
(** * Blocks of instrumented functions

    The code that [instrumentFunction] of compiler/Pass.cpp leaves is cut into
    the blocks of the original function at the terminators, and running the
    body of a block computes what the original instructions compute and, for a
    return, leaves the expression of the value for the caller. *)

From S2P Require Import Prelude Smt Z3Api Interface ByteSeq BitArrays Arith SimpleBackend.
From S2P Require Import SimpleSpec PathConstraints State Shadow Memory Dispatch Symbolizer.
From S2P Require Import SymbolizerSem Cfg ShortCircuit Computations Simulation Phi Visitors.
From S2P Require Import VisitEffects VisitMemory Processed VisitCall SymbolizerSpec FunctionSpec Interface.

#[local] Open Scope Z_scope.

(** ** Lists *)
Lemma app_cons_cases {A} (l1 : list A) x l2 k1 y k2 :
  l1 ++ x :: l2 = k1 ++ y :: k2 →
  (l1 = k1 ∧ x = y ∧ l2 = k2) ∨ (∃ c, k1 = l1 ++ x :: c ∧ l2 = c ++ y :: k2) ∨
  (∃ c, l1 = k1 ++ y :: c ∧ k2 = c ++ x :: l2).
Proof.
  revert k1. induction l1 as [|z l1 IH]; intros [|w k1]; cbn; intros E; injection E as -> E.
  - by left.
  - right; left. by exists k1.
  - right; right. by exists l1.
  - apply IH in E as [(->&->&->)|[(c&->&->)|(c&->&->)]].
    + by left.
    + right; left. by exists c.
    + right; right. by exists c.
Qed.

Lemma app_cut_cases {A} (l1 : list A) x l2 k1 k2 :
  l1 ++ x :: l2 = k1 ++ k2 →
  (∃ c, l1 = k1 ++ c ∧ k2 = c ++ x :: l2) ∨ (∃ c, k1 = l1 ++ x :: c ∧ l2 = c ++ k2).
Proof.
  revert k1. induction l1 as [|z l1 IH]; intros [|w k1]; cbn; intros E.
  - left. by exists [].
  - injection E as -> E. right. by exists k1.
  - left. by exists (z :: l1).
  - injection E as -> E. apply IH in E as [(c&->&->)|(c&->&->)]; [left|right]; by exists c.
Qed.

Lemma find_block_zip {A B} b (ks : list nat) (l : list A) (l' : list B) x :
  find_block b (zip ks l) = Some x → length l = length ks → length l' = length ks →
  ∃ i y, ks !! i = Some b ∧ l !! i = Some x ∧ l' !! i = Some y ∧ find_block b (zip ks l') = Some y.
Proof.
  revert l l'. induction ks as [|k ks IH]; intros [|a l] [|a' l']; try done; cbn.
  intros E [= Hl] [= Hl']. destruct (Nat.eqb_spec k b) as [->|Hk].
  - injection E as ->. exists 0%nat, a'. by split_and!.
  - destruct (IH l l' E Hl Hl') as (i&y&?&?&?&?). exists (S i), y. by split_and!.
Qed.

Lemma body_of_zip f : body_of f = zip (block_id <$> blocks f) (blocks f).
Proof. unfold body_of. induction (blocks f) as [|b l IH]; [done|]. cbn. by rewrite IH. Qed.

(** ** Cutting code into blocks *)
Definition no_terminator (it : item) : Prop :=
  match it with Orig i => is_terminator i = false | _ => True end.

Lemma plain_no_terminator it : plain_item it → no_terminator it.
Proof. by destruct it. Qed.

Lemma split_block q t l :
  Forall no_terminator q → is_terminator t = true →
  split_blocks (q ++ Orig t :: l) = (q ++ [Orig t]) :: split_blocks l.
Proof.
  intros Hq Ht. induction Hq as [|it q Hit _ IH]; cbn.
  - by rewrite Ht.
  - cbn in IH. rewrite IH. destruct it; try done. cbn in Hit. by rewrite Hit.
Qed.

Definition ends_block (p : list item) : Prop :=
  ∃ q t, p = q ++ [Orig t] ∧ Forall no_terminator q ∧ is_terminator t = true.

Lemma split_blocks_concat ps : Forall ends_block ps → split_blocks (concat ps) = ps.
Proof.
  induction 1 as [|p ps (q&t&->&Hq&Ht) _ IH]; [done|]. cbn [concat].
  rewrite <-app_assoc. cbn [app]. by rewrite split_block, IH.
Qed.

Lemma split_phi_code mk n phis it l :
  (∀ n i, mk n i = [] ∨ ∃ inc, mk n i = [PhiExpr n inc]) → forallb is_phi_inst phis = true →
  split_phi_items (it :: l) = ([], it :: l) →
  split_phi_items (phi_code mk n phis ++ it :: l) = (phi_code mk n phis, it :: l).
Proof.
  intros Hmk. revert n. induction phis as [|i phis IH]; intros n; [done|]. cbn [forallb].
  intros [Hi Hp]%andb_prop Hit. specialize (IH (S n) Hp Hit). cbn [phi_code].
  destruct (Hmk n i) as [->|(inc&->)]; cbn [app split_phi_items]; by rewrite Hi, IH.
Qed.

Section cfg.
Context {Z3I : Z3} {ZL : Z3Laws Z3I} {KC : Calls} {KI : ICalls} {FR : Frame}.
Context (DL : DataLayout) (ρ : RunInput) (host_address : nat → Z) (L : layout_ok DL) {KO : CalleesOk ρ}.
Implicit Types (m : mach) (s : symbolizer) (cs : list chunk) (sx : gmap nat (option nat)).

Lemma null_items_plain n ops : Forall plain_item (null_items n ops).
Proof. revert n. induction ops as [|o ops IH]; intros n; by constructor. Qed.

Lemma and_items_plain n a l : Forall plain_item (and_items n a l).
Proof. revert n a. induction l as [|c l IH]; intros n a; by constructor. Qed.

(** Conversion adds no instructions of the program. *)
Lemma converted_shape T n cs code n' :
  converted DL ρ T n cs code n' → Forall (λ it, plain_item it ∨ it ∈ items cs) code.
Proof.
  induction 1 as [n|n it cs code n' _ IH|n g sx ks cs code1 n1 code2 n' _ Hc _ IH]; [constructor|..].
  - constructor; [right; by left|]. eapply Forall_impl; [exact IH|].
    intros it' [?|?]; [by left|right; by right].
  - apply Forall_app. split; [|exact IH].
    destruct Hc as (used&fs&la&_&->&_). unfold shortcut_code.
    assert (∀ l, Forall plain_item l → Forall (λ it, plain_item it ∨ it ∈ items (CComp g sx ks :: cs)) l)
      as Hw.
    { intros l Hl. eapply Forall_impl; [exact Hl|]. by left. }
    apply Hw. destruct g as [[c flag]|]; [by repeat constructor|]. cbn [enclose]. repeat apply Forall_app_2.
    + apply null_items_plain.
    + apply and_items_plain.
    + constructor; [done|]. destruct used; by repeat constructor.
Qed.

Lemma items_erase E cs : items (erase_chunk E <$> cs) = map_uses (erase E) <$> items cs.
Proof. induction cs as [|[it|g sx ks] cs IH]; cbn; [done|f_equal; exact IH|exact IH]. Qed.

Lemma items_flatten cs it : it ∈ items cs → it ∈ flatten cs.
Proof.
  intros (c&Hit&Hc)%list_elem_of_bind. apply list_elem_of_bind. exists c. split; [|done].
  destruct c; [done|by apply elem_of_nil in Hit].
Qed.

Lemma terminator_no_call t : is_terminator t = true → is_function_call t = false.
Proof. unfold is_terminator, is_function_call. by destruct (kind t). Qed.

(** The converted code of a block ends with its terminator. *)
Lemma body_shape E T n lb t s cs s' code n' :
  visits DL ρ host_address (lb ++ [t]) s cs s' → is_terminator t = true →
  Forall (λ i, is_terminator i = false) lb →
  converted DL ρ T n (erase_chunk E <$> cs) code n' →
  ∃ q, code = q ++ [Orig t] ∧ Forall no_terminator q.
Proof.
  intros V Ht Hl Cv. apply visits_app_inv in V as (cs1&s1&cs2&->&V1&V2).
  inversion V2 as [|? ? ? ps qs s2 cs0 ? _ _ Hp _ Hqs _ V0]; subst. inversion V0; subst.
  rewrite (Hqs (terminator_no_call t Ht)) in Cv.
  rewrite app_nil_r, !fmap_app in Cv.
  apply converted_app_inv in Cv as (code1&n1&code2&->&_&Cv1&Cv2).
  apply converted_app_inv in Cv2 as (code3&n2&code4&->&_&Cv3&Cv4).
  apply (converted_items_inv DL ρ _ _ [Orig t]) in Cv4 as [-> _].
  exists (code1 ++ code3). split; [by rewrite app_assoc|]. apply Forall_app. split.
  - eapply Forall_impl; [by eapply converted_shape|]. intros it [?|Hit]; [by apply plain_no_terminator|].
    rewrite items_erase in Hit. apply list_elem_of_fmap in Hit as (it0&->&Hit%items_flatten).
    pose proof (processed_items _ _ _ _ _ _ (visits_processed _ _ _ _ _ _ _ V1)) as Hi.
    destruct (proj1 (Forall_forall _ _) Hi it0 Hit) as [Hpl|(i&->&Hin)].
    + by destruct it0.
    + by apply (proj1 (Forall_forall _ _) Hl).
  - eapply Forall_impl; [by eapply converted_shape|]. intros it [?|Hit]; [by apply plain_no_terminator|].
    rewrite items_erase in Hit. apply list_elem_of_fmap in Hit as (it0&->&Hit%items_flatten).
    pose proof (proj1 (Forall_forall _ _) Hp it0 Hit). by destruct it0.
Qed.

(** ** Running the body of a block *)

(** The expression left for the caller is null or has the returned value. *)
Definition return_ok (l : location) m : Prop :=
  ∀ c h, l = Done (Some c) → g_return_value (rts m) = Some h →
    rep ρ (rt_backend (rts m)) h (sem_value c).

Lemma converted_items_only T n cs code n' :
  comps cs = [] → converted DL ρ T n cs code n' → code = flatten cs.
Proof.
  revert n code. induction cs as [|[it|g sx ks] l IH]; intros n code Hc Cv; inversion Cv; subst;
    [done| |done]. cbn. f_equal. by eapply IH.
Qed.

(** The code of a return instruction stores the expression of the value. *)
Lemma exec_return i v n0 sx cs T code n n' m c :
  kind i = ReturnInst (Some v) →
  flatten cs = [Call n0 setReturnExpression [AExpr (sym_lookup sx v)]; Orig i] →
  comps cs = [] → converted DL ρ T n cs code n' →
  agree ρ sx (flatten cs ++ T) m → eval_operand DL (cenv m) v = Some c →
  wp (exec_code DL code) m (λ _ m', return_ok (Done (Some c)) m').
Proof.
  intros K Ef Ec Cv A Ev. rewrite (converted_items_only _ _ _ _ _ Ec Cv), Ef. rewrite Ef in A.
  destruct (agree_operand DL ρ _ _ m v c A) as (o&Eo&Ho); [|done|].
  { intros r Hr. unfold uses. cbn. rewrite Hr. cbn. unfold uses_expr.
    by rewrite bool_decide_eq_true_2. }
  apply exec_cons. eapply exec_call; [by constructor; [by apply arg_expr|constructor]|].
  apply wp_bind. eexists _, _. split; [reflexivity|]. apply wp_ret.
  set (m1 := set_reg_mach _ _ _ m). apply exec_cons. exists tt, (m1). split.
  { cbn [exec_item]. rewrite exec_orig_plain by (unfold is_function_call; by rewrite K).
    unfold exec_plain, run_inst. rewrite K.
    change (cenv m1) with (cenv m). rewrite Ev. unfold m1, set_reg_mach. cbn. by destruct m. }
  apply exec_nil. intros c' h [= <-]. cbn. intros E. by apply Ho.
Qed.

Lemma visit_return i v s :
  kind i = ReturnInst (Some v) →
  visit DL host_address i s = Ok tt (upd_code
    [Call (fresh s) setReturnExpression [AExpr (sym_lookup (symbolicExpressions s) v)]; Orig i]
    (S (fresh s)) s).
Proof.
  intros K. unfold visit. rewrite K. unfold bind at 1, visit_before. rewrite K.
  unfold visitReturnInst, bind at 1, get.
  assert (getSymbolicExpressionOrNull s v = sym_lookup (symbolicExpressions s) v) as ->
    by apply getSymbolicExpression_lookup.
  rewrite (bind_Ok _ _ _ _ _ (gen_call _ _ (fresh s) s eq_refl)).
  unfold emit, modify, upd_code, set_fresh, set_code. cbn. by rewrite <-app_assoc.
Qed.

Lemma run_terminator t e mem e' mem' :
  is_terminator t = true → run_inst DL t e mem = Some (e', mem') → e' = e ∧ mem' = mem.
Proof.
  unfold is_terminator, run_inst. destruct (kind t); try done; intros _; repeat case_match;
    intros; simplify_eq; done.
Qed.

Lemma exec_terminator t s cs s' E T n code n' m e' mem' :
  visits DL ρ host_address [t] s cs s' → is_terminator t = true → avoids E (fresh s) (fresh s') →
  converted DL ρ T n (erase_chunk E <$> cs) code n' →
  agree ρ (erase_map E (symbolicExpressions s)) (flatten (erase_chunk E <$> cs) ++ T) m →
  run_inst DL t (cenv m) (memory (rts m)) = Some (e', mem') →
  ∀ v c, kind t = ReturnInst (Some v) → eval_operand DL e' v = Some c →
    wp (exec_code DL code) m (λ _ m', return_ok (Done (Some c)) m').
Proof.
  intros V Ht HE Cv A R v c K Ev. destruct (run_terminator _ _ _ _ _ Ht R) as [-> _].
  pose proof (visits_processed _ _ _ _ _ _ _ V) as P. pose proof (visits_run _ _ _ _ _ _ _ V) as Er.
  cbn [visit_all] in Er. unfold bind, ret in Er. rewrite (visit_return t v s K) in Er.
  injection Er as <-.
  pose proof (processed_code _ _ _ _ _ _ P) as Ec. apply app_inv_head in Ec.
  pose proof (processed_uses _ _ _ _ _ _ P) as Eu. cbn in Eu.
  rewrite <-(app_nil_r (expressionUses s)) in Eu at 1. apply app_inv_head in Eu.
  eapply (exec_return t v (fresh s) (erase_map E (symbolicExpressions s))); [exact K| | |exact Cv|exact A|exact Ev].
  - rewrite (flatten_erase E _ _ _ (processed_chunks _ _ _ _ _ _ P) HE), <-Ec.
    cbn. by rewrite sym_lookup_erase.
  - by rewrite comps_erase.
Qed.

Lemma exec_body lb t s cs s' E T n code n' m e' mem' :
  visits DL ρ host_address (lb ++ [t]) s cs s' → is_terminator t = true →
  avoids E (fresh s) (fresh s') →
  converted DL ρ T n (erase_chunk E <$> cs) code n' → (fresh s' ≤ n)%nat → consistent ρ (rts m) →
  agree ρ (erase_map E (symbolicExpressions s)) (flatten (erase_chunk E <$> cs) ++ T) m →
  run_insts DL (lb ++ [t]) (cenv m) (memory (rts m)) = Some (e', mem') →
  wp (exec_code DL code) m (λ _ m', cenv m' = e' ∧ memory (rts m') = mem' ∧
    consistent ρ (rts m') ∧ agree ρ (erase_map E (symbolicExpressions s')) T m' ∧
    frames (fresh s) (fresh s') n m m' ∧
    ∀ v c, kind t = ReturnInst (Some v) → eval_operand DL e' v = Some c → return_ok (Done (Some c)) m').
Proof.
  intros V Ht HE Cv Hn C A R. apply visits_app_inv in V as (cs1&s1&cs2&->&V1&V2).
  pose proof (visits_processed _ _ _ _ _ _ _ V1) as P1. pose proof (visits_processed _ _ _ _ _ _ _ V2) as P2.
  pose proof (chunks_ok_le _ _ _ (processed_chunks _ _ _ _ _ _ P1)).
  pose proof (chunks_ok_le _ _ _ (processed_chunks _ _ _ _ _ _ P2)).
  rewrite fmap_app in Cv, A. apply converted_app_inv in Cv as (code1&n1&code2&->&Hn1&Cv1&Cv2).
  rewrite run_insts_app in R.
  destruct (run_insts DL lb (cenv m) (memory (rts m))) as [[e1 mem1]|] eqn:R1; [|done].
  assert (avoids E (fresh s1) (fresh s')) as HE2 by (apply (avoids_sub E (fresh s) (fresh s')); done || lia).
  apply exec_app. eapply wp_impl; [eapply (processed_sim _ _ _ _ _ _ P1 E _ n code1 n1 m)|]; try done.
  { apply (avoids_sub E (fresh s) (fresh s')); done || lia. }
  { lia. }
  { by rewrite app_assoc, <-flatten_app. }
  intros [] m1 (<-&<-&C1&A1&F1). pose proof R as R2. cbn [run_insts] in R.
  destruct (run_inst DL t (cenv m1) (memory (rts m1))) as [[e2 mem2]|] eqn:Rt; [|done].
  injection R as <- <-.
  assert (wp (exec_code DL code2) m1 (λ _ m', cenv m' = e2 ∧ memory (rts m') = mem2 ∧
    consistent ρ (rts m') ∧ agree ρ (erase_map E (symbolicExpressions s')) T m' ∧
    frames (fresh s) (fresh s') n m m')) as W.
  { eapply wp_impl; [eapply (processed_sim _ _ _ _ _ _ P2 E T n1 code2 n' m1); done || lia|].
    intros _ m2 (?&?&?&?&F2). split_and!; try done.
    by apply (frames_trans ρ (fresh s) (fresh s1) (fresh s') n n1 m m1 m2). }
  destruct W as (a&m2&E2&H2). exists a, m2. split; [done|].
  destruct H2 as (?&?&?&?&?). split_and!; try done. intros v c K Ev.
  destruct (exec_terminator t s1 cs2 s' E T n1 code2 n' m1 e2 mem2 V2 Ht HE2 Cv2 A1 Rt v c K Ev)
    as (a3&m3&E3&HR). rewrite E2 in E3. injection E3 as <- <-. exact HR.
Qed.
End cfg.
