(* ===== verification/CfgSim.v ===== *)
(** * The simulation along the control flow

    The invariant of an instrumented function between two blocks, its
    preservation by every block, and the simulation of whole runs. *)

From S2P Require Import Prelude Smt Z3Api Interface ByteSeq BitArrays Arith SimpleBackend.
From S2P Require Import SimpleSpec PathConstraints State Shadow Memory Dispatch Symbolizer.
From S2P Require Import SymbolizerSem Cfg ShortCircuit Computations Simulation Phi Visitors.
From S2P Require Import VisitEffects VisitMemory Processed VisitCall SymbolizerSpec FunctionSpec CfgSpec Interface.

#[local] Open Scope Z_scope.

Lemma enter_lookup scope b (e : gmap nat cval) x c :
  enter scope b e !! x = Some c ↔ e !! x = Some c ∧ x ∈ scope b.
Proof. unfold enter. by rewrite map_lookup_filter_Some. Qed.

Section phis.
Context {Z3I : Z3} {ZL : Z3Laws Z3I} {KC : Calls} {KI : ICalls} {FR : Frame}.
Context (DL : DataLayout) (ρ : RunInput).
Implicit Types (m : mach) (sx : gmap nat (option nat)).

Lemma incoming_from_map {A B} (g : A → B) prev (l : list (A * nat)) :
  incoming_from prev ((λ p, (g p.1, p.2)) <$> l) = g <$> incoming_from prev l.
Proof. induction l as [|[v b] l IH]; [done|]. cbn. by destruct (b =? prev)%nat. Qed.

Lemma incoming_from_elem {A} prev (l : list (A * nat)) v :
  incoming_from prev l = Some v → (v, prev) ∈ l.
Proof.
  induction l as [|[w b] l IH]; [done|]. cbn. destruct (Nat.eqb_spec b prev) as [->|].
  - intros [= ->]. by left.
  - intros H. right. auto.
Qed.

Lemma run_phi_some prev e i c :
  run_phi DL prev e i = Some c → ∃ v, incoming_from prev (incoming_of i) = Some v ∧
    eval_operand DL e v = Some c.
Proof.
  unfold run_phi, incoming_of. destruct (kind i); try done.
  destruct (incoming_from prev incoming) as [v|]; [|done].
  destruct (eval_operand DL e v) as [c'|] eqn:E; [|done].
  intros H. apply checked_some in H as [-> _]. by exists v.
Qed.

Lemma exec_phi_items_app prev m0 l1 l2 m (Q : unit → mach → Prop) :
  wp (exec_phi_items DL prev m0 l1) m (λ _ m', wp (exec_phi_items DL prev m0 l2) m' Q) →
  wp (exec_phi_items DL prev m0 (l1 ++ l2)) m Q.
Proof.
  revert m. induction l1 as [|it l1 IH]; intros m.
  { by intros (a&m'&[= <- <-]&H). }
  cbn. intros (a&m'&E&H). apply wp_bind. unfold bind in E.
  destruct (exec_phi_item DL prev m0 it m) as [[] m1|] eqn:E1; [|done].
  exists tt, m1. split; [done|]. apply IH. by exists a, m'.
Qed.

(** What the phi nodes for expressions rely on: the expressions [sxF] of the
    incoming values agree with them at the end of the block before. *)
Definition incoming_agree prev (sxF : gmap nat (option nat)) E m0 (n : nat) (i : inst) : Prop :=
  n ∉ E → ∀ v c, incoming_from prev (incoming_of i) = Some v →
    eval_operand DL (cenv m0) v = Some c → agreesv ρ m0 (erase E (sym_lookup sxF v)) c.

Lemma exec_phi_pair prev sxF E m0 n i c m :
  rts m = rts m0 → incoming_agree prev sxF E m0 n i → run_phi DL prev (cenv m0) i = Some c →
  wp (exec_phi_items DL prev m0 (finished sxF E n i ++ [Orig i])) m (λ _ m',
    cenv m' = <[name i := c]> (cenv m) ∧ rts m' = rts m ∧ flags m' = flags m ∧
    (∀ r, r ≠ n → regs m' !! r = regs m !! r) ∧ (n ∉ E → agreesv ρ m' (Some n) c)).
Proof.
  intros Er Hin Ei. destruct (run_phi_some _ _ _ _ Ei) as (v&Hv&Ev).
  set (var m := {| regs := regs m; flags := flags m; cenv := <[name i := c]> (cenv m); rts := rts m |}).
  assert (∀ m1, exec_phi_items DL prev m0 [Orig i] m1 = Ok tt (var m1)) as Ho.
  { intros m1. cbn. by rewrite Ei. }
  unfold finished. destruct (decide (n ∈ E)) as [Hn|Hn]; cbn [app].
  { exists tt, (var m). by split_and!. }
  destruct (Hin Hn v c Hv Ev) as (o&Eo&Hrep).
  exists tt, (var {| regs := <[n := RExpr o]> (regs m); flags := flags m; cenv := cenv m; rts := rts m |}). split.
  { cbn [exec_phi_items exec_phi_item].
    rewrite (incoming_from_map (λ v, erase E (sym_lookup sxF v))), Hv. cbn [fmap option_fmap option_map].
    rewrite Eo. unfold bind at 1, set_reg, modify. apply Ho. }
  split_and!; [done..| |].
  - intros r Hr. cbn. by apply lookup_insert_ne.
  - intros _. exists o. split; [cbn; by rewrite lookup_insert_eq|]. cbn. by rewrite Er.
Qed.

(** The phi nodes of a block, on the state [m0] at the end of the block before. *)
Lemma exec_phis prev sxF E m0 l phis : ∀ n sx m e,
  sx_below n sx → agree ρ (erase_map E sx) l m → rts m = rts m0 →
  (∀ k i, phis !! k = Some i → incoming_agree prev sxF E m0 (n + k) i) →
  run_phis DL prev (cenv m0) phis (cenv m) = Some e →
  wp (exec_phi_items DL prev m0 (phi_code (finished sxF E) n phis)) m (λ _ m', cenv m' = e ∧
    rts m' = rts m0 ∧ flags m' = flags m ∧ agree ρ (erase_map E (phi_map n phis sx)) l m' ∧
    ∀ r, ¬ (n ≤ r < n + length phis)%nat → regs m' !! r = regs m !! r).
Proof.
  induction phis as [|i phis IH]; intros n sx m e Hb A Er Hin R.
  { injection R as <-. exists tt, m. by split_and!. }
  cbn [run_phis] in R. destruct (run_phi DL prev (cenv m0) i) as [c|] eqn:Ei; [|done].
  cbn [phi_code phi_map]. change (Orig i :: ?l) with ([Orig i] ++ l). rewrite app_assoc.
  apply exec_phi_items_app. eapply wp_impl; [eapply exec_phi_pair; [exact Er| |exact Ei]|].
  { rewrite <-(Nat.add_0_r n). by apply Hin. }
  intros [] m1 (Ec&Er1&Ef1&Hr1&Hn). eapply wp_impl; [eapply (IH (S n) (<[name i := Some n]> sx) m1 e)|].
  - intros x r. destruct (decide (x = name i)) as [->|].
    + rewrite lookup_insert_eq. intros [= <-]. lia.
    + rewrite lookup_insert_ne by done. intros Hx. specialize (Hb _ _ Hx). lia.
  - split; [|intros fl Hfl; rewrite Ef1; by apply (proj2 A)].
    intros x r c' [Hx HrE]%erase_map_lookup Hu Hc. rewrite Ec in Hc.
    destruct (decide (x = name i)) as [->|Hne].
    + rewrite lookup_insert_eq in Hx. rewrite lookup_insert_eq in Hc. injection Hx as <-. injection Hc as <-. by apply Hn.
    + rewrite lookup_insert_ne in Hx by done. rewrite lookup_insert_ne in Hc by done.
      destruct (proj1 A x r c') as (o&Eo&Ho); [by apply erase_map_lookup|done..|].
      exists o. rewrite Er1. split; [|done]. rewrite <-Eo. unfold read_expr. rewrite Hr1; [done|].
      specialize (Hb _ _ Hx). lia.
  - by rewrite Er1.
  - intros k j Hk. rewrite Nat.add_succ_comm. by apply (Hin (S k)).
  - by rewrite Ec.
  - intros [] m2 (E2&Er2&Ef2&A2&Hr2). split_and!; [done..|congruence|done|]. intros r Hr. cbn [length] in Hr.
    rewrite Hr2, Hr1; [done|lia..].
Qed.
End phis.

Section simulation.
Context {Z3I : Z3} {ZL : Z3Laws Z3I} {KC : Calls} {KI : ICalls} {FR : Frame}.
Context (DL : DataLayout) (ρ : RunInput) (host_address : nat → Z) (L : layout_ok DL) {KO : CalleesOk ρ}.
Context (successors : nat → list nat) (scope : nat → gset nat).
Context (f : function) (cs : list chunk) (s : symbolizer) (segs : list segment) (s' : symbolizer)
        (ini code' : list item) (n' : nat).
Context (I : instrumented DL ρ host_address f cs s segs s' ini code' n').
Context (ND : NoDup ((fn_args f).*1 ++ (blocks f ≫= defs))).
Context (Hscope : forallb (scope_ok successors scope f) (blocks f) = true).
Implicit Types (m : mach) (g : segment) (A B : list segment).

#[local] Abbreviation E := (all_erased segs s').
#[local] Abbreviation sxF := (symbolicExpressions s').
#[local] Abbreviation T := (items (all_chunks DL host_address cs segs s')).
#[local] Abbreviation final := (seg_final DL host_address sxF E).
#[local] Abbreviation rest B := (flatten (B ≫= final) ++ T).
#[local] Abbreviation seg_ok := (seg_ok DL ρ host_address).
#[local] Abbreviation chain := (chain DL ρ host_address).
#[local] Abbreviation id g := (block_id (sg_block g)).
#[local] Abbreviation lo g := (fresh (sg_before g)).
#[local] Abbreviation hi g := (fresh (sg_after g)).

(** ** Facts about the blocks *)
Lemma visited : visited_function DL ρ host_address f cs s segs s'.
Proof. apply I. Qed.

Lemma all_chained : chain s segs s'.
Proof. apply visited. Qed.

Lemma segs_nodup : NoDup (segs ≫= λ g, defs (sg_block g)).
Proof. apply visited. Qed.

Lemma entry_processed : processed DL ρ (instructions (fn_entry f)) (after_prologue DL host_address f) cs s.
Proof. eapply visits_processed, visited. Qed.

Lemma entry_below : sx_below (fresh s) (symbolicExpressions s).
Proof. apply entry_processed. Qed.

Lemma segment_block g : g ∈ segs → sg_block g ∈ blocks f.
Proof.
  intros Hg. right. rewrite <-(vf_blocks _ _ _ _ _ _ _ _ visited). by apply list_elem_of_fmap_2.
Qed.

Lemma chain_fun s0 A s1 s2 : chain s0 A s1 → chain s0 A s2 → s1 = s2.
Proof.
  intros C. revert s2. induction C as [|g l s1 Hg _ IH]; intros s2 C2; inversion C2; subst; [done|auto].
Qed.

Lemma cut_chain A B sc : segs = A ++ B → chain s A sc → chain sc B s'.
Proof.
  intros Es C. pose proof all_chained as C0. rewrite Es in C0.
  apply chain_app in C0 as (sc'&C1&C2). by rewrite (chain_fun _ _ _ _ C C1).
Qed.

Lemma cut_nodup A B : segs = A ++ B →
  NoDup (A ≫= λ g, defs (sg_block g)) ∧ NoDup (B ≫= λ g, defs (sg_block g)) ∧
  ∀ x, x ∈ A ≫= (λ g, defs (sg_block g)) → x ∉ B ≫= (λ g, defs (sg_block g)).
Proof.
  intros Es. pose proof segs_nodup as H. rewrite Es, bind_app in H. apply NoDup_app in H as (?&?&?).
  by split_and!.
Qed.

Lemma cut_grown A B sc : segs = A ++ B → chain s A sc →
  grown s (A ≫= seg_code DL host_address) (A ≫= λ g, comps (sg_chunks g)) (A ≫= seg_phis)
    (A ≫= λ g, defs (sg_block g)) sc.
Proof.
  intros Es C. eapply grown_chain; [exact C|apply entry_below|by apply (cut_nodup A B)].
Qed.

Lemma rest_grown A B sc : segs = A ++ B → chain s A sc →
  grown sc (B ≫= seg_code DL host_address) (B ≫= λ g, comps (sg_chunks g)) (B ≫= seg_phis)
    (B ≫= λ g, defs (sg_block g)) s'.
Proof.
  intros Es C. eapply grown_chain; [by eapply cut_chain|by eapply grown_below, cut_grown|].
  by apply (cut_nodup A B).
Qed.

Lemma segment_at A g B : segs = A ++ g :: B →
  chain s A (sg_before g) ∧ seg_ok g ∧ chain s (A ++ [g]) (sg_after g) ∧ NoDup (defs (sg_block g)) ∧
  (fresh s ≤ lo g)%nat ∧ (S (lo g + head_length (sg_block g)) ≤ hi g)%nat ∧ (hi g ≤ fresh s')%nat.
Proof.
  intros Es. destruct (chain_at DL ρ host_address s s' segs all_chained segs_nodup A g B Es)
    as (CA&Hg&CB&NA&Ng&NB).
  assert (chain s (A ++ [g]) (sg_after g)) as CA'.
  { apply chain_app. exists (sg_before g). split; [done|]. constructor; [done|constructor]. }
  pose proof (cut_grown A (g :: B) _ Es CA) as G1.
  assert (segs = (A ++ [g]) ++ B) as Es' by by rewrite <-app_assoc.
  pose proof (rest_grown (A ++ [g]) B _ Es' CA') as G2.
  destruct Hg as [Hs V]. pose proof (chunks_ok_le _ _ _ (processed_chunks _ _ _ _ _ _ (visits_processed _ _ _ _ _ _ _ V))).
  split_and!; try done; [apply G1|apply G2].
Qed.

(** Different blocks own different expressions. *)
Lemma segments_disjoint A g B A2 g2 B2 r :
  segs = A ++ g :: B → segs = A2 ++ g2 :: B2 →
  (lo g ≤ r < hi g)%nat → (lo g2 ≤ r < hi g2)%nat → g = g2.
Proof.
  assert (∀ A g C g2 B2, segs = A ++ g :: C ++ g2 :: B2 → (hi g ≤ lo g2)%nat) as H.
  { clear A g B A2 g2 B2 r. intros A g C g2 B2 Es.
    destruct (segment_at A g (C ++ g2 :: B2) Es) as (_&_&C1&_).
    assert (segs = (A ++ [g]) ++ C ++ g2 :: B2) as Es1 by by rewrite <-app_assoc.
    pose proof (cut_chain _ _ _ Es1 C1) as C2. apply chain_app in C2 as (sc&C3&C4).
    apply chain_cons_inv in C4 as (->&_&_). eapply grown_le, grown_chain; [exact C3| |].
    - by eapply grown_below, cut_grown.
    - apply (cut_nodup (A ++ [g]) (C ++ g2 :: B2)) in Es1 as (_&N&_).
      rewrite bind_app in N. by apply NoDup_app in N as (?&_). }
  intros E1 E2 H1 H2. rewrite E1 in E2.
  apply app_cons_cases in E2 as [(_&?&_)|[(C&->&->)|(C&->&->)]]; [done|..].
  - specialize (H A g C g2 B2 E1). lia.
  - rewrite <-app_assoc in E1. specialize (H A2 g2 C g B E1). lia.
Qed.

(** ** Dominance *)
Lemma scope_defs g x : g ∈ segs → x ∈ defs (sg_block g) → x ∉ scope (id g).
Proof.
  intros Hg%segment_block Hx. pose proof (proj1 (forallb_forall _ _) Hscope) as H.
  apply list_elem_of_In, H in Hg. unfold scope_ok in Hg.
  apply andb_prop in Hg as [[Hg _]%andb_prop _].
  apply list_elem_of_In in Hx. apply (proj1 (forallb_forall _ _) Hg) in Hx.
  by apply bool_decide_eq_true in Hx.
Qed.

Lemma scope_operands g i t y :
  g ∈ segs → i ∈ blocks f ≫= instructions → is_phi_inst i = false → name i ∈ scope (id g) →
  Local t y ∈ operands i → y ∈ scope (id g).
Proof.
  intros Hg%segment_block Hi Hp Hn Hv. pose proof (proj1 (forallb_forall _ _) Hscope) as H.
  apply list_elem_of_In, H in Hg. unfold scope_ok in Hg.
  apply andb_prop in Hg as [[_ Hg]%andb_prop _]. apply list_elem_of_In in Hi.
  apply (proj1 (forallb_forall _ _) Hg) in Hi. rewrite Hp, bool_decide_eq_false_2 in Hi by tauto.
  apply list_elem_of_In in Hv. apply (proj1 (forallb_forall _ _) Hi) in Hv. cbn in Hv.
  by apply bool_decide_eq_true in Hv.
Qed.

Lemma not_entry b c : b ∈ block_id <$> blocks f → c ∈ successors b → c ≠ block_id (fn_entry f).
Proof.
  intros (b'&->&Hb)%list_elem_of_fmap Hc ->. pose proof (proj1 (forallb_forall _ _) Hscope) as H.
  apply list_elem_of_In, H in Hb. unfold scope_ok in Hb. apply andb_prop in Hb as [_ Hb].
  by apply bool_decide_eq_true in Hb.
Qed.

(** A variable that dominates a block has an expression from another block. *)
Definition outside (x r : nat) : Prop :=
  ∀ A g B, segs = A ++ g :: B → x ∈ scope (id g) → ¬ (lo g ≤ r < hi g)%nat.

Lemma segs_elem A g B : segs = A ++ g :: B → g ∈ segs.
Proof. intros ->. apply elem_of_app. right. by left. Qed.

Lemma outside_own A g B x r :
  segs = A ++ g :: B → x ∈ defs (sg_block g) → (lo g ≤ r < hi g)%nat → outside x r.
Proof.
  intros Es Hx Hr A2 g2 B2 Es2 Hs Hr2.
  rewrite <-(segments_disjoint A g B A2 g2 B2 r Es Es2 Hr Hr2) in Hs.
  by apply (scope_defs g x (segs_elem _ _ _ Es) Hx).
Qed.

Lemma phi_map_cases n phis (sx : gmap nat (option nat)) x r :
  phi_map n phis sx !! x = Some (Some r) →
  sx !! x = Some (Some r) ∨ x ∈ name <$> phis ∧ (n ≤ r < n + length phis)%nat.
Proof.
  revert n sx. induction phis as [|i phis IH]; intros n sx; [by left|]. cbn.
  intros [H|[Hx Hr]]%IH; [|right; split; [by right|lia]].
  destruct (decide (x = name i)) as [->|].
  - rewrite lookup_insert_eq in H. injection H as <-. right. split; [by left|lia].
  - left. by rewrite lookup_insert_ne in H.
Qed.

Lemma rest_not_phi g i : seg_ok g → i ∈ rest_of (sg_block g) → is_phi_inst i = false.
Proof.
  intros [Hs _] Hi. apply supported_block_spec in Hs as (_&_&Hs).
  apply (proj1 (Forall_forall _ _) Hs) in Hi. unfold supported, is_phi_inst in *. by destruct (kind i).
Qed.

Lemma outside_segment A g B :
  segs = A ++ g :: B → sourced outside (symbolicExpressions (sg_before g)) →
  sourced outside (symbolicExpressions (sg_after g)).
Proof.
  intros Es Hs. destruct (segment_at A g B Es) as (_&Hg&_&_&_&Hle&_). pose proof Hg as [_ V].
  assert (∀ x r, x ∈ defs (sg_block g) → (lo g ≤ r < hi g)%nat → outside x r) as Hown.
  { intros x r. by apply (outside_own A g B). }
  apply (processed_sourced _ _ _ _ _ _ (visits_processed _ _ _ _ _ _ _ V)).
  - split.
    + intros i r Hi Hr. apply Hown; [|cbn in Hr; lia]. rewrite defs_split. apply elem_of_app. right.
      by apply list_elem_of_fmap_2.
    + intros i t y r Hi Hv Hy A2 g2 B2 Es2 Hn. apply (Hy A2 g2 B2 Es2).
      apply (scope_operands g2 i t y); try done; [by eapply segs_elem| |by eapply rest_not_phi].
      apply list_elem_of_bind. exists (sg_block g). split.
      * rewrite instructions_split. apply elem_of_app. by right.
      * by eapply segment_block, segs_elem.
  - intros x r Hx. apply phi_map_cases in Hx as [Hx|[Hx Hr]]; [by apply Hs|].
    apply Hown; [rewrite defs_split; apply elem_of_app; by left|]. unfold head_length in Hle. lia.
Qed.

Lemma outside_entry : sourced outside (symbolicExpressions s).
Proof.
  intros x r Hx%entry_below A g B Es _. destruct (segment_at A g B Es) as (_&_&_&_&Hle&_). lia.
Qed.

Lemma outside_cut A : ∀ B sc, segs = A ++ B → chain s A sc → sourced outside (symbolicExpressions sc).
Proof.
  induction A as [|g A IH] using rev_ind; intros B sc Es C.
  { assert (sc = s) as -> by by inversion C. apply outside_entry. }
  rewrite <-app_assoc in Es. apply chain_app in C as (s1&C1&C2).
  apply chain_cons_inv in C2 as (->&Hg&C3).
  assert (sc = sg_after g) as -> by by inversion C3. apply (outside_segment A g B Es). by apply (IH (g :: B)).
Qed.

(** ** The invariant between blocks

    At every cut of the list of blocks, the expressions of the variables defined
    before the cut, as far as the code after it or a phi node uses them, agree
    with the variables. *)
Definition inv m : Prop := ∀ A B sc, segs = A ++ B → chain s A sc →
  agree ρ (erase_map E (symbolicExpressions sc)) (rest B) m.

Lemma run_insts_frame l e mem e' mem' x :
  run_insts DL l e mem = Some (e', mem') → x ∉ name <$> l → e' !! x = e !! x.
Proof.
  revert e mem. induction l as [|i l IH]; intros e mem; [by intros [= <- <-]|]. cbn.
  destruct (run_inst DL i e mem) as [[e1 mem1]|] eqn:R; [|done].
  intros H [Hx Hl]%not_elem_of_cons. rewrite (IH _ _ H Hl). by eapply run_inst_frame.
Qed.

Lemma run_phis_frame prev e0 l e e' x :
  run_phis DL prev e0 l e = Some e' → x ∉ name <$> l → e' !! x = e !! x.
Proof.
  revert e. induction l as [|i l IH]; intros e; [by intros [= <-]|]. cbn.
  destruct (run_phi DL prev e0 i) as [c|]; [|done].
  intros H [Hx Hl]%not_elem_of_cons. rewrite (IH _ H Hl). by apply lookup_insert_ne.
Qed.

Lemma first_defined A g B sc x r :
  segs = A ++ g :: B → x ∈ defs (sg_block g) →
  (∀ x, x ∈ segs ≫= (λ g, defs (sg_block g)) → symbolicExpressions s !! x = None) →
  ∀ A2 B2, segs = A2 ++ B2 → chain s A2 sc → symbolicExpressions sc !! x = Some (Some r) →
  ∃ C, A2 = A ++ g :: C ∧ B = C ++ B2 ∧ symbolicExpressions (sg_after g) !! x = Some (Some r).
Proof.
  intros Es Hx new_variable A2 B2 Es2 C2 Hr. pose proof Es2 as E0. rewrite Es in E0.
  apply app_cut_cases in E0 as [(C&->&->)|(C&->&->)].
  - rewrite <-app_assoc in Es. pose proof (cut_nodup A2 (C ++ g :: B) Es) as (_&_&Hd).
    rewrite (grown_frame _ _ _ _ _ _ (cut_grown A2 (C ++ g :: B) sc Es C2)) in Hr.
    + rewrite new_variable in Hr; [done|]. rewrite Es, !bind_app. cbn. rewrite !elem_of_app. by right; right; left.
    + intros Hin. apply (Hd x Hin). rewrite bind_app. cbn. rewrite !elem_of_app. by right; left.
  - exists C. split_and!; [done..|]. rewrite <-Hr.
    change (g :: C) with ([g] ++ C) in C2. rewrite app_assoc in C2.
    apply chain_app in C2 as (s1&C3&C4).
    destruct (segment_at A g (C ++ B2) Es) as (_&_&CA&_).
    rewrite (chain_fun _ _ _ _ C3 CA) in C4.
    assert (segs = (A ++ [g]) ++ C ++ B2) as Es3 by by rewrite <-app_assoc.
    pose proof (cut_nodup _ _ Es3) as (_&N&Hd). rewrite bind_app in N. apply NoDup_app in N as (N&_).
    symmetry. eapply grown_frame; [eapply grown_chain; [exact C4| |exact N]|].
    + by eapply grown_below, cut_grown.
    + intros Hin. apply (Hd x); rewrite bind_app; [|apply elem_of_app; by left].
      cbn. rewrite app_nil_r. apply elem_of_app. by right.
Qed.

Lemma blocks_defs : blocks f ≫= defs = defs (fn_entry f) ++ (segs ≫= λ g, defs (sg_block g)).
Proof. unfold blocks. cbn. by rewrite <-(vf_blocks _ _ _ _ _ _ _ _ visited), segments_defs. Qed.

Lemma new_variable x : x ∈ segs ≫= (λ g, defs (sg_block g)) → symbolicExpressions s !! x = None.
Proof.
  intros Hx. rewrite (grown_frame _ _ _ _ _ _ (grown_processed _ _ _ _ _ _ entry_processed)).
  - eapply argument_map_fresh; [done|exact ND|]. rewrite blocks_defs. apply elem_of_app. by right.
  - intros He. pose proof ND as H. rewrite blocks_defs in H.
    apply NoDup_app in H as (_&_&(_&Hd&_)%NoDup_app). by apply (Hd x).
Qed.

(** A block that computes its own variables right restores the invariant. *)
Lemma inv_restored A g B n m m' :
  segs = A ++ g :: B → (fresh s' ≤ n)%nat → inv m →
  (∀ x c, x ∉ defs (sg_block g) → cenv m' !! x = Some c → cenv m !! x = Some c ∧ x ∈ scope (id g)) →
  frames (lo g) (hi g) n m m' → flags_kept m m' →
  agree ρ (erase_map E (symbolicExpressions (sg_after g))) (rest B) m' → inv m'.
Proof.
  intros Es Hn HI Henv [X F] Hk A1 A2 B2 sc Es2 C2.
  split; [|eapply flags_set_kept; [exact Hk|by apply (HI A2 B2 sc)]].
  intros x r c [Hx HrE]%erase_map_lookup Hu Hc.
  destruct (decide (x ∈ defs (sg_block g))) as [Hd|Hd].
  - destruct (first_defined A g B sc x r Es Hd new_variable A2 B2 Es2 C2 Hx) as (C&->&->&Hx').
    apply (proj1 A1 x r c); [by apply erase_map_lookup| |done].
    rewrite uses_app in Hu |- *. destruct Hu as [Hu|Hu]; [left|by right].
    rewrite bind_app, flatten_app, uses_app. by right.
  - destruct (Henv x c Hd Hc) as [Hc0 Hs].
    destruct (proj1 (HI A2 B2 sc Es2 C2) x r c) as (o&Eo&Ho); [by apply erase_map_lookup|done..|].
    exists o. split.
    + rewrite <-Eo. unfold read_expr. rewrite F; [done|].
      pose proof (outside_cut A2 B2 sc Es2 C2 x r Hx A g B Es Hs).
      pose proof (grown_below _ _ _ _ _ _ (cut_grown A2 B2 sc Es2 C2) x r Hx).
      pose proof (grown_le _ _ _ _ _ _ (rest_grown A2 B2 sc Es2 C2)). unfold owned. lia.
    + intros h Eh. eapply rep_mono; [exact X|by apply Ho].
Qed.

(** *** Entering a block *)
Lemma head_item_used A g B it :
  segs = A ++ g :: B → it ∈ final_head DL host_address sxF E g → it ∈ T.
Proof.
  intros Es Hit. unfold items. apply list_elem_of_bind. exists (CItem it). split; [by left|].
  unfold all_chunks. apply elem_of_app. right. apply list_elem_of_bind. exists g.
  split; [|by eapply segs_elem]. unfold seg_final. apply elem_of_app. left.
  by apply list_elem_of_fmap_2.
Qed.

Lemma phi_code_elem mk n phis k i it :
  phis !! k = Some i → it ∈ mk (n + k)%nat i → it ∈ phi_code mk n phis.
Proof.
  revert n k. induction phis as [|j phis IH]; intros n k; [done|]. cbn [phi_code].
  rewrite elem_of_app, elem_of_cons. destruct k as [|k]; cbn.
  - intros [= ->]. rewrite Nat.add_0_r. by left.
  - intros Hk Hit. right; right. eapply (IH (S n) k Hk). by rewrite Nat.add_succ_comm.
Qed.

Lemma incoming_agrees A g B prev m k i :
  segs = A ++ g :: B → inv m → phis_of (sg_block g) !! k = Some i →
  incoming_agree DL ρ prev sxF E m (lo g + k) i.
Proof.
  intros Es HI Hk HnE v c Hv Ev. rewrite <-sym_lookup_erase.
  eapply agree_operand; [apply (HI segs [] s'); [by rewrite app_nil_r|apply all_chained]| |exact Ev].
  intros r Hr. cbn [mbind list_bind flatten app]. unfold uses. apply existsb_exists.
  set (it := PhiExpr (lo g + k) ((λ p, (erase E (sym_lookup sxF p.1), p.2)) <$> incoming_of i)).
  exists it. split.
  - apply list_elem_of_In, (head_item_used A g B); [done|]. unfold final_head. apply elem_of_app. left.
    eapply phi_code_elem; [exact Hk|]. unfold finished. rewrite decide_False by done. by left.
  - cbn. apply existsb_exists. exists (Some r, prev). split; [|by apply bool_decide_eq_true].
    apply list_elem_of_In, list_elem_of_fmap. exists (v, prev). cbn.
    rewrite <-sym_lookup_erase, Hr. split; [done|by apply incoming_from_elem].
Qed.

(** After the phi nodes and the notification. *)
Lemma exec_head A g B prev m e1 :
  segs = A ++ g :: B → consistent ρ (rts m) → inv m →
  run_phis DL prev (cenv m) (phis_of (sg_block g)) (enter scope (id g) (cenv m)) = Some e1 →
  wp (enter_block scope (id g) ;;;
      exec_phi_items DL prev m (phi_code (finished sxF E) (lo g) (phis_of (sg_block g))) ;;;
      exec_item DL (notification DL host_address (lo g + head_length (sg_block g)) (sg_block g))) m
    (λ _ m', cenv m' = e1 ∧ rts m' = rts m ∧ flags m' = flags m ∧
      agree ρ (erase_map E (symbolicExpressions (after_head DL host_address (sg_block g) (sg_before g))))
        (rest (g :: B)) m' ∧
      ∀ r, ¬ (lo g ≤ r < S (lo g + head_length (sg_block g)))%nat → regs m' !! r = regs m !! r).
Proof.
  intros Es C HI R. destruct (segment_at A g B Es) as (CA&Hg&_).
  pose proof (grown_below _ _ _ _ _ _ (cut_grown A (g :: B) _ Es CA)) as Hb.
  set (m1 := {| regs := regs m; flags := flags m; cenv := enter scope (id g) (cenv m); rts := rts m |}).
  apply wp_bind. exists tt, m1. split; [done|]. apply wp_bind.
  eapply wp_impl; [apply (exec_phis DL ρ prev sxF E m (rest (g :: B)) (phis_of (sg_block g)) (lo g)
    (symbolicExpressions (sg_before g)) m1 e1); [exact Hb| |done| |exact R]|].
  - split; [|by apply (HI A (g :: B) (sg_before g) Es CA)].
    intros x r c Hx Hu Hc. cbn in Hc. apply enter_lookup in Hc as [Hc _].
    by apply (proj1 (HI A (g :: B) (sg_before g) Es CA) x r c).
  - intros k i Hk. by eapply incoming_agrees.
  - intros [] m2 (E2&Er2&Ef2&A2&Hr2). eapply exec_call; [constructor; [apply arg_int|constructor]|].
    exists None, (rts m2). split; [done|]. split_and!; [done..| |].
    + eapply (agree_kept ρ _ (lo g + head_length (sg_block g)) _ _ m2); [|by apply covers_sub|done|done|by intros ?| |exact A2].
      * intros x r [Hx _]%erase_map_lookup. by apply (phi_map_below _ (phis_of (sg_block g)) _ Hb) in Hx.
      * intros r Hr. cbn. apply lookup_insert_ne. lia.
    + intros r Hr. cbn. unfold head_length in *. rewrite lookup_insert_ne by lia.
      rewrite Hr2; [done|lia].
Qed.

(** *** A block *)
Lemma split_head g code :
  forallb is_phi_inst (phis_of (sg_block g)) = true →
  split_phi_items (final_head DL host_address sxF E g ++ code) =
    (phi_code (finished sxF E) (lo g) (phis_of (sg_block g)),
     notification DL host_address (lo g + head_length (sg_block g)) (sg_block g) :: code).
Proof.
  intros Hp. unfold final_head. rewrite <-app_assoc. cbn [app].
  apply split_phi_code; [apply finished_shape|done|done].
Qed.

Lemma run_block_some b prev e mem l e' mem' :
  run_block DL successors scope b prev e mem = Some (l, e', mem') →
  ∃ e1 t, run_phis DL prev e (phis_of b) (enter scope (block_id b) e) = Some e1 ∧
    run_insts DL (rest_of b) e1 mem = Some (e', mem') ∧ last (rest_of b) = Some t ∧
    next DL successors (block_id b) t e' = Some l.
Proof.
  unfold run_block, phis_of, rest_of. destruct (split_phis (instructions b)) as [phis rest]. cbn [fst snd].
  destruct (run_phis _ _ _ _ _) as [e1|]; [|done].
  destruct (run_insts DL rest e1 mem) as [[e2 mem2]|] eqn:R; [|done].
  destruct (last rest) as [t|]; [|done]. destruct (next _ _ _ t e2) as [l2|] eqn:N; [|done].
  intros [= -> -> ->]. by exists e1, t.
Qed.

Lemma block_env b prev e mem l e' mem' x c :
  run_block DL successors scope b prev e mem = Some (l, e', mem') →
  x ∉ defs b → e' !! x = Some c → e !! x = Some c ∧ x ∈ scope (block_id b).
Proof.
  intros (e1&t&R1&R2&_)%run_block_some. rewrite defs_split, not_elem_of_app. intros [H1 H2] Hc.
  rewrite (run_insts_frame _ _ _ _ _ _ R2 H2), (run_phis_frame _ _ _ _ _ _ R1 H1) in Hc.
  by apply enter_lookup in Hc.
Qed.

Lemma next_done b t e l :
  next DL successors b t e = Some l → ∀ c, l = Done (Some c) →
  ∃ v, kind t = ReturnInst (Some v) ∧ eval_operand DL e v = Some c.
Proof.
  unfold next. intros H c ->.
  assert (∀ o : option nat, match o with
    | Some i => At b <$> (successors b !! i) | None => None end ≠ Some (Done (Some c))) as Hn.
  { intros [i|]; [|done]. by destruct (successors b !! i). }
  destruct (kind t); try (by apply Hn in H). destruct v as [v|]; [|done]. exists v. split; [done|].
  destruct (eval_operand DL e v); [by injection H as ->|done].
Qed.

(** What a run of a block or of several establishes. *)
Definition reaches m (l : location) (e' : gmap nat cval) (mem' : Z → Z) (l' : location) m' : Prop :=
  l' = l ∧ cenv m' = e' ∧ memory (rts m') = mem' ∧ consistent ρ (rts m') ∧ return_ok ρ l m' ∧
  bext (rt_backend (rts m)) (rt_backend (rts m')).

Lemma exec_tail b body q t m0 m e' mem' l (Q : mach → Prop) :
  body = q ++ [Orig t] → next DL successors b t e' = Some l →
  wp (exec_code DL body) m (λ _ m', cenv m' = e' ∧ memory (rts m') = mem' ∧ consistent ρ (rts m') ∧
    bext (rt_backend (rts m0)) (rt_backend (rts m')) ∧ Q m' ∧ ∀ v c, kind t = ReturnInst (Some v) → eval_operand DL e' v = Some c →
      return_ok ρ (Done (Some c)) m') →
  wp (exec_code DL body ;;;
      m <- get ;;
      match last body with
      | Some (Orig t) => match next DL successors b t (cenv m) with
                         | Some l => ret l
                         | None => fail (Undefined "original program")
                         end
      | _ => fail (Undefined "no terminator")
      end) m (λ l' m', reaches m0 l e' mem' l' m' ∧ Q m').
Proof.
  intros -> Hl W. apply wp_bind. eapply wp_impl; [exact W|].
  intros [] m1 (Ee&Em&C1&X&HQ&Hret). apply wp_bind. exists m1, m1. split; [done|].
  rewrite last_snoc, Ee, Hl. apply wp_ret. split; [|done]. split_and!; try done.
  intros c h El. destruct (next_done _ _ _ _ Hl c El) as (v&K&Ev). by eapply Hret.
Qed.

Lemma exec_segment A g B code n n2 prev m l e' mem' :
  segs = A ++ g :: B → converted DL ρ (rest B) n (erase_chunk E <$> sg_chunks g) code n2 →
  (fresh s' ≤ n)%nat → consistent ρ (rts m) → inv m →
  run_block DL successors scope (sg_block g) prev (cenv m) (memory (rts m)) = Some (l, e', mem') →
  wp (exec_block DL successors scope (id g) prev (final_head DL host_address sxF E g ++ code)) m
    (λ l' m', reaches m l e' mem' l' m' ∧ inv m').
Proof.
  intros Es Cv Hn C HI R. destruct (segment_at A g B Es) as (CA&Hg&_&_&Hlo&Hlm&Hhi).
  destruct (run_block_some _ _ _ _ _ _ _ R) as (e1&t&R1&R2&Ht&Hl).
  pose proof Hg as [Hs V]. pose proof (proj1 (supported_block_spec _ _) Hs) as (Hp&(lb&t'&Eb&Htt&Hlb)&_).
  rewrite Eb, last_snoc in Ht. injection Ht as ->. rewrite Eb in V.
  destruct (body_shape DL ρ host_address E (rest B) n lb t (after_head DL host_address (sg_block g) (sg_before g))
    (sg_chunks g) (sg_after g) code n2 V Htt Hlb Cv) as (q&Eq&_).
  destruct (exec_head A g B prev m e1 Es C HI R1) as (u&m1&E1&Ec&Er&Ef&A1&F1).
  apply bind_inv in E1 as (u1&m2&E1&E2). apply bind_inv in E2 as (u2&m3&E2&E3).
  unfold exec_block. rewrite split_head by done. apply wp_bind. exists m, m. split; [done|].
  apply wp_bind. exists u1, m2. split; [exact E1|]. apply wp_bind. exists u2, m3. split; [exact E2|].
  set (note := notification _ _ _ _) in *.
  apply (exec_tail (id g) (note :: code) (note :: q) t m m3 e' mem' l inv); [by rewrite Eq|exact Hl|].
  apply exec_cons. exists u, m1. split; [exact E3|].
  rewrite Eb in R2.
  eapply wp_impl; [apply exec_keeps_flags; eapply (exec_body DL ρ host_address lb t _ (sg_chunks g) (sg_after g) E (rest B) n code n2 m1
    e' mem' V Htt); [by apply (seg_avoids DL ρ host_address s s' segs all_chained entry_below segs_nodup A g B)|
    exact Cv|lia|by rewrite Er| |by rewrite Ec, Er]|].
  { eapply agree_sub; [|exact A1]. apply covers_sub. intros it. cbn [mbind list_bind].
    rewrite flatten_app, final_head_flatten, !elem_of_app. tauto. }
  intros [] m4 [(Ee&Em&C4&A4&[X4 F4]&Hret) Hk]. rewrite Er in X4. split_and!; try done.
  apply (inv_restored A g B n m m4 Es Hn HI); [| |intros fl Hfl; apply Hk; by rewrite Ef|exact A4].
  - intros x c Hx Hc. rewrite Ee in Hc. by eapply block_env.
  - split; [done|]. intros r Hr. rewrite F4, F1; [done|..]; unfold owned, head_length in *;
      cbn in *; lia.
Qed.

(** ** The blocks of the instrumented function *)
Inductive block_codes : nat → list segment → list (list item) → Prop :=
| block_codes_nil n : block_codes n [] []
| block_codes_cons n g B code n2 l :
    converted DL ρ (rest B) n (erase_chunk E <$> sg_chunks g) code n2 → block_codes n2 B l →
    block_codes n (g :: B) ((final_head DL host_address sxF E g ++ code) :: l).

Lemma converted_blocks B : ∀ n code n2,
  converted DL ρ T n (B ≫= final) code n2 → ∃ l, block_codes n B l ∧ code = concat l.
Proof.
  induction B as [|g B IH]; intros n code n2 Cv.
  { exists []. split; [constructor|]. by inversion Cv. }
  cbn [mbind list_bind] in Cv. apply converted_app_inv in Cv as (code1&n1&code2&->&_&Cv1&Cv2).
  unfold seg_final in Cv1 at 2. apply converted_app_inv in Cv1 as (head&n3&body&->&_&Cv3&Cv4).
  apply converted_items_inv in Cv3 as [-> ->].
  destruct (IH _ _ _ Cv2) as (l&Hl&->). exists ((final_head DL host_address sxF E g ++ body) :: l).
  split; [by econstructor|]. cbn. by rewrite <-app_assoc.
Qed.

Lemma block_codes_lookup n B l j g :
  block_codes n B l → B !! j = Some g → ∃ A B' n1 code n2, B = A ++ g :: B' ∧ (n ≤ n1)%nat ∧
    converted DL ρ (rest B') n1 (erase_chunk E <$> sg_chunks g) code n2 ∧
    l !! j = Some (final_head DL host_address sxF E g ++ code).
Proof.
  intros H. revert j. induction H as [n|n g' B code n2 l Cv _ IH]; intros [|j]; try done; cbn.
  - intros [= ->]. exists [], B, n, code, n2. by split_and!.
  - intros (A&B'&n1&code1&n3&->&Hn&Cv'&Hl)%IH. exists (g' :: A), B', n1, code1, n3.
    pose proof (converted_le _ _ _ _ _ _ _ Cv). split_and!; [done|lia|done..].
Qed.

Lemma block_codes_length n B l : block_codes n B l → length l = length B.
Proof. induction 1; cbn; congruence. Qed.

Lemma phi_code_no_terminator mk n phis :
  (∀ n i, mk n i = [] ∨ ∃ inc, mk n i = [PhiExpr n inc]) → forallb is_phi_inst phis = true →
  Forall no_terminator (phi_code mk n phis).
Proof.
  intros Hmk. revert n. induction phis as [|i phis IH]; intros n; [constructor|]. cbn [forallb].
  intros [Hi Hp]%andb_prop. cbn [phi_code]. apply Forall_app. split.
  - destruct (Hmk n i) as [->|(inc&->)]; by repeat constructor.
  - constructor; [|by apply IH]. cbn. unfold is_phi_inst, is_terminator in *. by destruct (kind i).
Qed.

Lemma segment_ends g T0 n code n2 :
  seg_ok g → converted DL ρ T0 n (erase_chunk E <$> sg_chunks g) code n2 →
  ends_block (final_head DL host_address sxF E g ++ code).
Proof.
  intros [Hs V] Cv. pose proof (proj1 (supported_block_spec _ _) Hs) as (Hp&(lb&t&Eb&Htt&Hlb)&_).
  rewrite Eb in V.
  destruct (body_shape DL ρ host_address E T0 n lb t _ _ _ code n2 V Htt Hlb Cv) as (q&->&Hq).
  exists (final_head DL host_address sxF E g ++ q), t. split_and!; [by rewrite app_assoc| |done].
  unfold final_head. rewrite !Forall_app. split_and!; [|by repeat constructor|done].
  apply phi_code_no_terminator; [apply finished_shape|done].
Qed.

Lemma block_codes_inv n B l :
  block_codes n B l →
  match B with
  | [] => l = []
  | g :: B' => ∃ code n2 l', l = (final_head DL host_address sxF E g ++ code) :: l' ∧
      converted DL ρ (rest B') n (erase_chunk E <$> sg_chunks g) code n2 ∧ block_codes n2 B' l'
  end.
Proof. intros []; [done|]. by eexists _, _, _. Qed.

Lemma block_codes_end B : ∀ A n l, segs = A ++ B → block_codes n B l → Forall ends_block l.
Proof.
  induction B as [|g B IH]; intros A n l Es H; apply block_codes_inv in H; [rewrite H; constructor|].
  destruct H as (code&n2&l'&->&Cv&H'). constructor.
  - eapply segment_ends; [|exact Cv]. by apply (segment_at A g B Es).
  - eapply (IH (A ++ [g])); [by rewrite <-app_assoc|exact H'].
Qed.

Lemma entry_split : phis_of (fn_entry f) = [] → rest_of (fn_entry f) = instructions (fn_entry f).
Proof. intros Hp. by rewrite (instructions_split (fn_entry f)), Hp. Qed.

Lemma prologue_no_terminator : Forall no_terminator (prologue DL host_address f).
Proof.
  constructor; [done|]. generalize 1%nat at 1. generalize 0 at 1.
  induction (symbolic_args f) as [|[x []] args IH]; intros k n; [constructor|apply IH|by constructor].
Qed.

Context (Hentry : supported_block DL (fn_entry f) = true) (Hnophi : phis_of (fn_entry f) = []).

(** The code of the function, block by block. *)
Lemma code_blocks :
  ∃ code_e n_e l, code' = code_e ++ concat l ∧ (fresh s' ≤ n_e)%nat ∧
    converted DL ρ (rest segs) (fresh s') (erase_chunk E <$> cs) code_e n_e ∧ block_codes n_e segs l ∧
    split_blocks (ini ++ prologue DL host_address f ++ code') = (ini ++ prologue DL host_address f ++ code_e) :: l.
Proof.
  pose proof (ins_converted _ _ _ _ _ _ _ _ _ _ _ I) as Cv. unfold all_chunks in Cv at 2.
  apply converted_app_inv in Cv as (code_e&n_e&code_b&Ec&Hn&Cv1&Cv2).
  destruct (converted_blocks segs _ _ _ Cv2) as (l&Hl&Eb'). exists code_e, n_e, l.
  rewrite Ec, Eb'. split_and!; [done..|].
  pose proof (proj1 (supported_block_spec _ _) Hentry) as (_&(lb&t&Eb&Htt&Hlb)&_).
  pose proof (vf_entry _ _ _ _ _ _ _ _ visited) as V.
  rewrite entry_split in Eb by done. rewrite Eb in V.
  destruct (body_shape DL ρ host_address E _ _ lb t _ _ _ code_e n_e V Htt Hlb Cv1) as (q&Eq&Hq).
  rewrite Eq, <-!app_assoc.
  replace (ini ++ prologue DL host_address f ++ q ++ [Orig t] ++ concat l)
    with (concat ((ini ++ prologue DL host_address f ++ q ++ [Orig t]) :: l)) by (cbn [concat]; by rewrite <-!app_assoc).
  apply split_blocks_concat. constructor; [|by eapply (block_codes_end segs [])].
  exists (ini ++ prologue DL host_address f ++ q), t. split_and!; [by rewrite <-!app_assoc| |done].
  rewrite !Forall_app. split_and!; [|apply prologue_no_terminator|done].
  eapply Forall_impl; [apply (ins_initialises _ _ _ _ _ _ _ _ _ _ _ I)|]. by intros it (fl&->).
Qed.

(** ** The entry block *)
Lemma enter_arguments b m args k :
  arguments_agree ρ k args m →
  arguments_agree ρ k args {| regs := regs m; flags := flags m; cenv := enter scope b (cenv m); rts := rts m |}.
Proof. intros H i x u c h Hi [Hc _]%enter_lookup. by eapply H. Qed.

(** The flags that the code of the function reads. *)
Lemma flags_initialised : initialises ini (flatten (erase_chunk E <$> cs) ++ rest segs).
Proof.
  destruct (ins_initialises _ _ _ _ _ _ _ _ _ _ _ I) as [Hi Hl]. split; [done|].
  intros fl Hfl. apply Hl. unfold all_chunks. rewrite flatten_app.
  rewrite !reads_app in Hfl. rewrite reads_app. destruct Hfl as [?|[?|Hfl%reads_items]]; [by left|by right|].
  unfold all_chunks in Hfl. by rewrite flatten_app, reads_app in Hfl.
Qed.

(** Only arguments and the variables of the entry block have values after it. *)
Lemma inv_entry prev e mem l e' mem' m :
  (∀ x, is_Some (e !! x) → x ∈ (fn_args f).*1) →
  run_block DL successors scope (fn_entry f) prev e mem = Some (l, e', mem') → cenv m = e' →
  agree ρ (erase_map E (symbolicExpressions s)) (rest segs) m → inv m.
Proof.
  intros He R Ee A1 A2 B2 sc Es C2. apply (agree_sub ρ _ _ (rest B2)) in A1.
  2: { rewrite Es, bind_app, flatten_app. apply covers_sub. intros it. rewrite !elem_of_app. tauto. }
  split; [|apply A1]. intros x r c [Hx HrE]%erase_map_lookup Hu Hc.
  assert (x ∉ segs ≫= λ g, defs (sg_block g)) as Hn.
  { intros Hin. pose proof ND as H. rewrite blocks_defs in H.
    apply NoDup_app in H as (_&Ha&(_&Hd&_)%NoDup_app).
    assert (x ∉ defs (fn_entry f)) as Hxe by (intros ?; by apply (Hd x)).
    rewrite Ee in Hc. apply (block_env _ _ _ _ _ _ _ _ _ R Hxe) in Hc as [Hc _].
    apply (Ha x); [by apply He|]. apply elem_of_app. by right. }
  apply (proj1 A1 x r c); [|done..]. apply erase_map_lookup. split; [|done].
  rewrite <-(grown_frame _ _ _ _ _ _ (cut_grown A2 B2 sc Es C2)); [done|].
  intros Hin. apply Hn. rewrite Es, bind_app. apply elem_of_app. by left.
Qed.

Lemma entry_avoids : avoids E (fresh (after_prologue DL host_address f)) (fresh s).
Proof.
  intros r Hr Hin. destruct (erased_range DL ρ host_address s s' segs all_chained entry_below segs_nodup r Hr).
  lia.
Qed.

Lemma exec_entry code_e n_e prev m l e' mem' :
  converted DL ρ (rest segs) (fresh s') (erase_chunk E <$> cs) code_e n_e → consistent ρ (rts m) →
  arguments_agree ρ 0 (fn_args f) m → (∀ x, is_Some (cenv m !! x) → x ∈ (fn_args f).*1) →
  run_block DL successors scope (fn_entry f) prev (cenv m) (memory (rts m)) = Some (l, e', mem') →
  wp (exec_block DL successors scope (block_id (fn_entry f)) prev
        (ini ++ prologue DL host_address f ++ code_e)) m
    (λ l' m', reaches m l e' mem' l' m' ∧ inv m').
Proof.
  intros Cv C Ha He R. pose proof R as R0.
  apply run_block_some in R as (e1&t&R1&R2&Ht&Hl). rewrite Hnophi in R1. injection R1 as <-.
  pose proof (proj1 (supported_block_spec _ _) Hentry) as (_&(lb&t'&Eb&Htt&Hlb)&_).
  rewrite Eb, last_snoc in Ht. injection Ht as ->. rewrite Eb in R2.
  pose proof (vf_entry _ _ _ _ _ _ _ _ visited) as V. rewrite <-entry_split, Eb in V by done.
  destruct (body_shape DL ρ host_address E _ _ lb t _ _ _ code_e n_e V Htt Hlb Cv) as (q&Eq&_).
  destruct flags_initialised as [Hini Hfl]. unfold exec_block.
  assert (split_phi_items (ini ++ prologue DL host_address f ++ code_e) =
    ([], ini ++ prologue DL host_address f ++ code_e)) as ->.
  { by destruct Hini as [|it ini' (fl&->) _]. }
  apply wp_bind. exists m, m. split; [done|].
  set (m1 := {| regs := regs m; flags := flags m; cenv := enter scope (block_id (fn_entry f)) (cenv m); rts := rts m |}).
  apply wp_bind. exists tt, m1. split; [done|]. apply wp_bind. exists tt, m1. split; [done|].
  eapply wp_impl; [apply (exec_tail (block_id (fn_entry f)) _ (ini ++ prologue DL host_address f ++ q) t m m1 e' mem' l
    (λ m', agree ρ (erase_map E (symbolicExpressions s)) (rest segs) m'));
    [by rewrite Eq, <-!app_assoc|exact Hl|]|].
  - rewrite app_assoc. apply exec_app. eapply wp_impl; [by apply (exec_start DL ρ host_address f ini m1
      (flatten (erase_chunk E <$> cs) ++ rest segs)); [| |apply enter_arguments]|].
    intros _ m2 (E2&Er2&A2).
    change (enter scope _ (cenv m)) with (cenv m1) in R2. rewrite <-E2 in R2.
    eapply wp_impl; [eapply (exec_body DL ρ host_address lb t _ cs s E (rest segs) (fresh s') code_e n_e m2
      e' mem' V Htt entry_avoids Cv)|].
    + eapply grown_le, (rest_grown [] segs s); [done|constructor].
    + by rewrite Er2.
    + by apply agree_erase.
    + by rewrite Er2.
    + intros _ m3 (?&?&?&?&[X _]&?). rewrite Er2 in X. by split_and!.
  - intros l' m' [HR A1]. split; [exact HR|]. destruct HR as (_&Ee&_).
    by eapply inv_entry.
Qed.

(** ** Runs *)
Definition inside (l : location) : Prop :=
  match l with At _ cur => cur ≠ block_id (fn_entry f) | Done _ => True end.

Lemma next_inside b t e l :
  b ∈ block_id <$> blocks f → next DL successors b t e = Some l → inside l.
Proof.
  intros Hb H.
  assert (∀ o : option nat, match o with
    | Some i => At b <$> (successors b !! i) | None => None end = Some l → inside l) as Hi.
  { intros [i|]; [|done]. destruct (successors b !! i) as [c|] eqn:Es; [|done]. intros [= <-].
    apply list_elem_of_lookup_2 in Es. by eapply not_entry. }
  unfold next in H. destruct (kind t); try (by apply Hi in H). destruct v as [v|]; [|by injection H as <-].
  destruct (eval_operand DL e v); [by injection H as <-|done].
Qed.

Lemma run_block_inside b prev e mem l e' mem' :
  b ∈ blocks f → run_block DL successors scope b prev e mem = Some (l, e', mem') → inside l.
Proof.
  intros Hb (e1&t&_&_&_&Hl)%run_block_some. eapply next_inside; [|exact Hl].
  by apply list_elem_of_fmap_2.
Qed.

(** The block that control enters, in both functions. *)
Lemma inside_block n_e lc head cur b :
  block_codes n_e segs lc → cur ≠ block_id (fn_entry f) → find_block cur (body_of f) = Some b →
  ∃ A g B n1 code n2, segs = A ++ g :: B ∧ sg_block g = b ∧ id g = cur ∧ (n_e ≤ n1)%nat ∧
    converted DL ρ (rest B) n1 (erase_chunk E <$> sg_chunks g) code n2 ∧
    find_block cur (zip (block_id <$> blocks f) (head :: lc)) =
      Some (final_head DL host_address sxF E g ++ code).
Proof.
  intros Hc Hcur Hb. rewrite body_of_zip in Hb.
  pose proof (vf_blocks _ _ _ _ _ _ _ _ visited) as Ebs.
  destruct (find_block_zip cur _ _ (head :: lc) b Hb) as (i&y&Hk&Hi&Hy&Hf).
  { by rewrite length_fmap. }
  { cbn. rewrite (block_codes_length _ _ _ Hc), length_fmap, <-Ebs, length_fmap. done. }
  destruct i as [|j]; [cbn in Hk; congruence|]. cbn in Hi, Hy.
  rewrite list_lookup_fmap in Hk. cbn in Hk. rewrite Hi in Hk. injection Hk as Hk.
  change (fn_blocks f !! j = Some b) in Hi. rewrite <-Ebs, list_lookup_fmap in Hi.
  destruct (segs !! j) as [g|] eqn:Hg; [|done].
  injection Hi as Eg. destruct (block_codes_lookup _ _ _ _ _ Hc Hg) as (A&B&n1&code&n2&Es&Hn&Cv&Hl).
  exists A, g, B, n1, code, n2. split_and!; [done..|by rewrite Eg|done|done|].
  change (lc !! j = Some y) in Hy. rewrite Hf. congruence.
Qed.

Lemma exec_run n_e lc head k : ∀ l0 m l e' mem',
  block_codes n_e segs lc → (fresh s' ≤ n_e)%nat → inside l0 → consistent ρ (rts m) → inv m →
  return_ok ρ l0 m →
  run_blocks DL successors scope k f l0 (cenv m) (memory (rts m)) = Some (l, e', mem') →
  wp (exec_blocks DL successors scope k (zip (block_id <$> blocks f) (head :: lc)) l0) m
    (reaches m l e' mem').
Proof.
  induction k as [|k IH]; intros l0 m l e' mem' Hc Hn Hin C HI Hret R.
  { injection R as <- <- <-. by apply wp_ret. }
  destruct l0 as [prev cur|res]; [|injection R as <- <- <-; by apply wp_ret].
  cbn [run_blocks] in R. destruct (find_block cur (body_of f)) as [b|] eqn:Hb; [|done].
  destruct (inside_block n_e lc head cur b Hc Hin Hb) as (A&g&B&n1&code&n2&Es&Eg&Ei&Hn1&Cv&Hf).
  destruct (run_block DL successors scope b prev (cenv m) (memory (rts m))) as [[[l1 e1] mem1]|] eqn:R1; [|done].
  cbn [exec_blocks]. rewrite Hf. apply wp_bind. rewrite <-Ei.
  eapply wp_impl; [eapply (exec_segment A g B code n1 n2 prev m l1 e1 mem1 Es Cv); [lia|done..|by rewrite Eg]|].
  intros l1' m1 [(->&<-&<-&C1&Hret1&X1) HI1]. eapply wp_impl; [eapply IH; try done|].
  - eapply run_block_inside; [|exact R1]. rewrite <-Eg. by eapply segment_block, segs_elem.
  - intros l2 m2 (?&?&?&?&?&X2). split_and!; try done. by etransitivity.
Qed.

Lemma exec_from_start k m l e' mem' :
  consistent ρ (rts m) → arguments_agree ρ 0 (fn_args f) m →
  (∀ x, is_Some (cenv m !! x) → x ∈ (fn_args f).*1) →
  run_blocks DL successors scope k f (start f) (cenv m) (memory (rts m)) = Some (l, e', mem') →
  wp (exec_blocks DL successors scope k (code_of f (ini ++ prologue DL host_address f ++ code')) (start f)) m
    (reaches m l e' mem').
Proof.
  intros C Ha He R. destruct code_blocks as (code_e&n_e&lc&_&Hn&Cv&Hc&Es).
  destruct k as [|k]; [injection R as <- <- <-; by apply wp_ret|].
  unfold code_of. rewrite Es. unfold start in *. cbn [run_blocks exec_blocks] in *.
  unfold body_of, blocks in R |- *. cbn [fmap list_fmap find_block zip zip_with] in R |- *.
  rewrite Nat.eqb_refl in R |- *.
  destruct (run_block _ _ _ _ _ _ _) as [[[l1 e1] mem1]|] eqn:R1; [|done].
  apply wp_bind. eapply wp_impl; [by eapply exec_entry|].
  intros l1' m1 [(->&<-&<-&C1&Hret1&X1) HI1].
  eapply wp_impl; [eapply (exec_run n_e lc (ini ++ prologue DL host_address f ++ code_e) k); try done|].
  - eapply run_block_inside; [|exact R1]. by left.
  - intros l2 m2 (?&?&?&?&?&X2). split_and!; try done. by etransitivity.
Qed.
End simulation.
