(* ===== verification/Dominance.v ===== *)
(** * Keeping more variables

    Between blocks, the instrumented function may keep the values of variables
    that are out of scope: what it computes from the others stays the same. *)

From S2P Require Import Prelude Smt Z3Api SimpleBackend State Memory Dispatch Symbolizer.
From S2P Require Import SymbolizerSem Cfg Simulation.

#[local] Open Scope Z_scope.

Section dominance.
Context {Z3I : Z3} {KI : ICalls} {FR : Frame} (DL : DataLayout) (successors : nat → list nat) (scope scope' : nat → gset nat).
Context (Hscope : ∀ b, scope b ⊆ scope' b).
Implicit Types (m : mach) (e : gmap nat cval).

(** ** The original instructions *)
Lemma eval_operand_mono e e2 v c :
  e ⊆ e2 → eval_operand DL e v = Some c → eval_operand DL e2 v = Some c.
Proof.
  intros He. destruct v as [t x| | | | | |]; try done. cbn. destruct (e !! x) as [c'|] eqn:Ex; [|done].
  by rewrite (lookup_weaken _ _ _ _ Ex He).
Qed.

Lemma gep_offsets_mono e e2 l o :
  e ⊆ e2 → gep_offsets DL e l = Some o → gep_offsets DL e2 l = Some o.
Proof.
  intros He. revert o. induction l as [|i l IH]; [done|]. intros o. cbn.
  destruct (gep_offset DL e i) as [a|] eqn:Ei; [|done].
  assert (gep_offset DL e2 i = Some a) as ->.
  { destruct i as [|v t]; [done|]. cbn in *. destruct (eval_operand DL e v) eqn:Ev; [|done].
    by rewrite (eval_operand_mono _ _ _ _ He Ev). }
  destruct (gep_offsets DL e l) as [b|]; [|done]. by rewrite (IH b eq_refl).
Qed.

Lemma eval_operands_mono e e2 l vs :
  e ⊆ e2 → eval_operands DL e l = Some vs → eval_operands DL e2 l = Some vs.
Proof.
  intros He H%mapM_Some_1. apply mapM_Some_2. eapply Forall2_impl; [exact H|].
  intros v c. by apply eval_operand_mono.
Qed.

Lemma returned_mono i r e e2 e' :
  e ⊆ e2 → returned DL i r e = Some e' → ∃ e2', returned DL i r e2 = Some e2' ∧ e' ⊆ e2'.
Proof.
  intros He. unfold returned. destruct (type i), r as [v|]; try done;
    try (intros [= <-]; by exists e2); destruct (checked DL _ v) as [c|]; try done;
    intros [= <-]; eexists; (split; [reflexivity|by apply insert_mono]).
Qed.

Lemma call_mono {KC : Calls} i f l mem e e2 e' mem' :
  e ⊆ e2 →
  match eval_operands DL e l with
  | Some vs => match call f vs mem with
               | Some (r, m') => (λ e', (e', m')) <$> returned DL i r e
               | None => None
               end
  | None => None
  end = Some (e', mem') →
  ∃ e2', match eval_operands DL e2 l with
         | Some vs => match call f vs mem with
                      | Some (r, m') => (λ e', (e', m')) <$> returned DL i r e2
                      | None => None
                      end
         | None => None
         end = Some (e2', mem') ∧ e' ⊆ e2'.
Proof.
  intros He. destruct (eval_operands DL e l) as [vs|] eqn:Ev; [|done].
  rewrite (eval_operands_mono _ _ _ _ He Ev). destruct (call f vs mem) as [[r m1]|]; [|done].
  destruct (returned DL i r e) as [e1|] eqn:Er; [|done]. intros [= <- <-].
  destruct (returned_mono _ _ _ _ _ He Er) as (e2'&->&He2). by exists e2'.
Qed.

(** Cases on the operands of an instruction that has run. *)
Ltac cases_operands He :=
  repeat match goal with
  | H : context [gep_offsets DL ?e ?l] |- _ =>
      let E := fresh "E" in
      destruct (gep_offsets DL e l) eqn:E; [rewrite (gep_offsets_mono _ _ _ _ He E)|]; clear E
  | H : context [eval_operand DL ?e ?v] |- _ =>
      let E := fresh "E" in
      destruct (eval_operand DL e v) eqn:E; [rewrite (eval_operand_mono _ _ _ _ He E)|]; clear E
  end.

Ltac defines H Hdef He :=
  revert H; apply Hdef; clear Hdef; intros ? ?; cases_operands He; repeat (done || case_match); fail.
Ltac keeps H Hsame He :=
  cases_operands He; repeat (done || (apply Hsame; exact H) || case_match); fail.

Lemma run_inst_mono {KC : Calls} i e e2 mem e' mem' :
  e ⊆ e2 → run_inst DL i e mem = Some (e', mem') →
  ∃ e2', run_inst DL i e2 mem = Some (e2', mem') ∧ e' ⊆ e2'.
Proof.
  intros He H. unfold run_inst in *.
  assert (∀ v v2 : option cval, (∀ c, v = Some c → v2 = Some c) →
    match v with Some v => match checked DL (type i) v with
      Some v => Some (<[name i := v]> e, mem) | None => None end | None => None end = Some (e', mem') →
    ∃ e2', match v2 with Some v => match checked DL (type i) v with
      Some v => Some (<[name i := v]> e2, mem) | None => None end | None => None end = Some (e2', mem') ∧
      e' ⊆ e2') as Hdef.
  { intros [v|] v2 Hv; [|done]. rewrite (Hv v eq_refl). destruct (checked DL (type i) v) as [c|]; [|done].
    intros [= <- <-]. eexists. split; [done|]. by apply insert_mono. }
  assert (∀ mem2, Some (e, mem2) = Some (e', mem') →
    ∃ e2', Some (e2, mem2) = Some (e2', mem') ∧ e' ⊆ e2') as Hsame.
  { intros mem2 Hm. injection Hm as <- <-. exists e2. by split. }
  destruct (kind i); try done;
    try (defines H Hdef He); try (keeps H Hsame He).
  - destruct v; keeps H Hsame He.
  - destruct f as [id|f|]; [|by eapply call_mono|done].
    destruct id; try done; destruct args as [|? [|? [|? [|]]]]; try done;
      first [defines H Hdef He|keeps H Hsame He].
Qed.

Lemma next_mono b t e e2 l :
  e ⊆ e2 → next DL successors b t e = Some l → next DL successors b t e2 = Some l.
Proof.
  intros He H. unfold next, successor_index in *.
  destruct (kind t); try done; [destruct v; [|done]|..]; cases_operands He; done.
Qed.

Lemma run_phi_mono prev i e e2 c :
  e ⊆ e2 → run_phi DL prev e i = Some c → run_phi DL prev e2 i = Some c.
Proof.
  intros He H. unfold run_phi in *. destruct (kind i); try done.
  destruct (incoming_from prev incoming) as [v|]; [|done]. cases_operands He; done.
Qed.

Lemma enter_mono b e e2 : e ⊆ e2 → enter scope b e ⊆ enter scope' b e2.
Proof.
  intros He. apply map_subseteq_spec. intros x c. unfold enter.
  rewrite !map_lookup_filter_Some. cbn. intros [Hx Hb]. split; [by eapply lookup_weaken|].
  by apply (Hscope b).
Qed.

(** ** The generated code

    Whatever succeeds with the variables of a state succeeds with more. *)
Definition with_env e m : mach := {| regs := regs m; flags := flags m; cenv := e; rts := rts m |}.

Definition grows {A} (p : Prelude.M mach A) : Prop :=
  ∀ m a m' e2, p m = Ok a m' → cenv m ⊆ e2 →
    ∃ e2', p (with_env e2 m) = Ok a (with_env e2' m') ∧ cenv m' ⊆ e2'.

Lemma grows_ret {A} (a : A) : grows (ret a).
Proof. intros m b m' e2 [= <- <-] He. by exists e2. Qed.

Lemma grows_fail {A} (x : err) : grows (fail (A:=A) x).
Proof. by intros m b m' e2 ?. Qed.

Lemma grows_bind {A B} (p : Prelude.M mach A) (k : A → Prelude.M mach B) :
  grows p → (∀ a, grows (k a)) → grows (bind p k).
Proof.
  intros Hp Hk m b m' e2 (a&m1&E1&E2)%bind_inv He.
  destruct (Hp m a m1 e2 E1 He) as (e3&E3&He3). destruct (Hk a m1 b m' e3 E2 He3) as (e4&E4&He4).
  exists e4. split; [|done]. by rewrite (bind_Ok _ _ _ _ _ E3).
Qed.

(** Reading the part of the state that does not change. *)
Lemma grows_gets {A} (g : mach → Prelude.M mach A) :
  (∀ m, grows (g m)) → (∀ e m, g (with_env e m) = g m) → grows (bind get g).
Proof.
  intros Hg Heq m a m' e2 E He. unfold bind, get in *. rewrite Heq. by apply (Hg m).
Qed.

Lemma grows_get_expr x : grows (get_expr x).
Proof.
  apply grows_gets.
  - intros m. destruct (read_expr x m); [apply grows_ret|apply grows_fail].
  - done.
Qed.

Lemma grows_get_bit r : grows (get_bit r).
Proof.
  apply grows_gets.
  - intros m. destruct (regs m !! r) as [[]|]; [apply grows_fail|apply grows_ret|apply grows_fail].
  - done.
Qed.

Lemma grows_get_flag f : grows (get_flag f).
Proof.
  apply grows_gets.
  - intros m. destruct (flags m !! f); [apply grows_ret|apply grows_fail].
  - done.
Qed.

Lemma grows_set_flag f b : grows (set_flag f b).
Proof. intros m [] m' e2 [= <-] He. by exists e2. Qed.

Lemma grows_get_val v : grows (get_val DL v).
Proof.
  intros m c m' e2. unfold get_val, bind, get. destruct (eval_operand DL (cenv m) v) eqn:E; [|done].
  intros [= <- <-] He. exists e2. split; [|done]. cbn. by rewrite (eval_operand_mono _ _ _ _ He E).
Qed.

Lemma grows_get_int v : grows (get_int DL v).
Proof. apply grows_bind; [apply grows_get_val|]. intros []; [apply grows_ret|apply grows_fail]. Qed.

Lemma grows_set_reg r v : grows (set_reg r v).
Proof. intros m [] m' e2 [= <-] He. by exists e2. Qed.

Lemma grows_on_rt {A} (p : Prelude.M rt A) : grows (on_rt p).
Proof.
  intros m a m' e2. unfold on_rt, zoom. cbn. destruct (p (rts m)) as [a' t|]; [|done].
  intros [= <- <-] He. by exists e2.
Qed.

Ltac grow := repeat first
  [apply grows_get_expr|apply grows_get_bit|apply grows_get_flag|apply grows_set_flag|apply grows_get_val|apply grows_get_int
  |apply grows_set_reg|apply grows_on_rt|apply grows_ret|apply grows_fail
  |apply grows_bind; [|intros ?]|progress case_match].

Lemma grows_get_arg a : grows (get_arg DL a).
Proof. destruct a; cbn; grow. Qed.

Lemma grows_get_args l : grows (get_args DL l).
Proof. induction l; cbn; [grow|]. apply grows_bind; [apply grows_get_arg|]. intros v. by grow. Qed.

Lemma grows_plain i : grows (exec_plain DL i).
Proof.
  intros m [] m' e2. unfold exec_plain. destruct (run_inst DL i (cenv m) (memory (rts m))) as [[e' mem']|] eqn:R;
    [|done].
  intros [= <-] He. destruct (run_inst_mono _ _ _ _ _ _ He R) as (e2'&R2&He2).
  exists e2'. cbn. by rewrite R2.
Qed.

Lemma grows_leave_call i r :
  grows (s <- get ;; match returned DL i r (cenv s) with
                     | Some e => modify (λ s, {| regs := regs s; flags := flags s; cenv := e; rts := rts s |})
                     | None => fail (Undefined "original program")
                     end).
Proof.
  intros m [] m' e2. unfold bind, get. destruct (returned DL i r (cenv m)) as [e|] eqn:Er; [|done].
  intros [= <-] He. destruct (returned_mono _ _ _ _ _ He Er) as (e2'&E2&He2). exists e2'.
  cbn [with_env cenv]. by rewrite E2.
Qed.

Lemma grows_function_call i f l : grows (exec_function_call DL i f l).
Proof.
  intros m [] m' e2 E He. unfold exec_function_call in *. apply bind_inv in E as (m0&m1&E0&E).
  injection E0 as <- <-. destruct (eval_operands DL (cenv m) l) as [vs|] eqn:Ev; [|done].
  destruct (grows_bind (on_rt (icall f vs)) _ (grows_on_rt _) (grows_leave_call i) m tt m' e2 E He)
    as (e2'&E2&He2).
  exists e2'. split; [|done]. rewrite (bind_Ok get _ (with_env e2 m) _ _ eq_refl).
  cbn [with_env cenv]. by rewrite (eval_operands_mono _ _ _ _ He Ev).
Qed.

Lemma grows_orig i : grows (exec_orig DL i).
Proof.
  unfold exec_orig. destruct (kind i); try apply grows_plain.
  destruct f; [apply grows_plain|apply grows_function_call|apply grows_plain].
Qed.

Lemma grows_item it : grows (exec_item DL it).
Proof.
  revert it. fix IH 1. intros it.
  destruct it as [i|d g args| | | | | | | | |c on body|]; cbn [exec_item].
  - apply grows_orig.
  - apply grows_bind; [apply grows_get_args|]. intros vs. grow.
  - grow.
  - grow.
  - grow.
  - grow.
  - grow.
  - grow.
  - grow.
  - grow.
  - apply grows_bind; [apply grows_get_bit|]. intros b. destruct (Bool.eqb b on); [|apply grows_ret].
    induction body as [|it body IHb]; cbn [exec_list]; [apply grows_ret|].
    apply grows_bind; [apply IH|]. intros _. exact IHb.
  - grow.
Qed.

Lemma grows_code l : grows (exec_code DL l).
Proof.
  induction l as [|it l IH]; [apply grows_ret|]. apply grows_bind; [apply grows_item|]. by intros _.
Qed.

(** ** Blocks *)
Lemma exec_phi_item_mono prev m0 e0 it m m' e2 :
  cenv m0 ⊆ e0 → exec_phi_item DL prev m0 it m = Ok tt m' → cenv m ⊆ e2 →
  ∃ e2', exec_phi_item DL prev (with_env e0 m0) it (with_env e2 m) = Ok tt (with_env e2' m') ∧
    cenv m' ⊆ e2'.
Proof.
  intros H0 E He. destruct it; try done; cbn [exec_phi_item] in *.
  - destruct (run_phi DL prev (cenv m0) I) as [c|] eqn:R; [|done]. injection E as <-.
    cbn [with_env cenv]. rewrite (run_phi_mono _ _ _ _ _ H0 R). eexists. split; [reflexivity|].
    by apply insert_mono.
  - destruct (incoming_from prev incoming) as [x|]; [|done].
    assert (read_expr x (with_env e0 m0) = read_expr x m0) as -> by done.
    destruct (read_expr x m0); [|done]. by apply (grows_set_reg _ _ m tt m' e2).
Qed.

Lemma exec_phi_items_mono prev m0 e0 l : ∀ m m' e2,
  cenv m0 ⊆ e0 → exec_phi_items DL prev m0 l m = Ok tt m' → cenv m ⊆ e2 →
  ∃ e2', exec_phi_items DL prev (with_env e0 m0) l (with_env e2 m) = Ok tt (with_env e2' m') ∧
    cenv m' ⊆ e2'.
Proof.
  induction l as [|it l IH]; intros m m' e2 H0 E He; [injection E as <-; by exists e2|].
  cbn in *. apply bind_inv in E as ([]&m1&E1&E2).
  destruct (exec_phi_item_mono _ _ _ _ _ _ _ H0 E1 He) as (e3&E3&He3).
  destruct (IH _ _ _ H0 E2 He3) as (e4&E4&He4). exists e4. split; [|done].
  by rewrite (bind_Ok _ _ _ _ _ E3).
Qed.

Lemma grows_leave b (x : option item) :
  grows (m <- get ;;
    match x with
    | Some (Orig t) => match next DL successors b t (cenv m) with
                       | Some l => ret l
                       | None => fail (Undefined "original program")
                       end
    | _ => fail (Undefined "no terminator")
    end).
Proof.
  intros m l m' e2. unfold bind, get. destruct x as [[t| | | | | | | | | | |]|]; try done. cbn [with_env cenv].
  destruct (next DL successors b t (cenv m)) as [l1|] eqn:N; [|done]. intros [= <- <-] He.
  rewrite (next_mono _ _ _ _ _ He N). by exists e2.
Qed.

Lemma exec_block_mono b prev l m a m' e2 :
  exec_block DL successors scope b prev l m = Ok a m' → cenv m ⊆ e2 →
  ∃ e2', exec_block DL successors scope' b prev l (with_env e2 m) = Ok a (with_env e2' m') ∧
    cenv m' ⊆ e2'.
Proof.
  unfold exec_block. destruct (split_phi_items l) as [phis rest]. intros E He.
  unfold bind at 1, get at 1 in E. unfold bind at 1, get at 1.
  unfold bind at 1, enter_block at 1, modify in E. unfold bind at 1, enter_block at 1, modify.
  apply bind_inv in E as ([]&m1&E1&E).
  destruct (exec_phi_items_mono _ _ _ _ _ _ _ He E1 (enter_mono b _ _ He)) as (e3&E3&He3).
  rewrite (bind_Ok _ _ _ _ _ E3).
  refine (grows_bind (exec_code DL rest) _ (grows_code rest) (λ _, grows_leave b (last rest)) m1 a m' e3 E He3).
Qed.

Lemma exec_blocks_mono k code : ∀ l m l' m' e2,
  exec_blocks DL successors scope k code l m = Ok l' m' → cenv m ⊆ e2 →
  ∃ e2', exec_blocks DL successors scope' k code l (with_env e2 m) = Ok l' (with_env e2' m') ∧
    cenv m' ⊆ e2'.
Proof.
  induction k as [|k IH]; intros l m l' m' e2 E He; [injection E as <- <-; by exists e2|].
  destruct l as [prev cur|r]; [|injection E as <- <-; by exists e2].
  cbn [exec_blocks] in *. destruct (find_block cur code) as [b|]; [|done].
  apply bind_inv in E as (l1&m1&E1&E2). destruct (exec_block_mono _ _ _ _ _ _ _ E1 He) as (e3&E3&He3).
  rewrite (bind_Ok _ _ _ _ _ E3). by apply IH.
Qed.
End dominance.
