(* ===== verification/FunctionSim.v ===== *)
(** * Contracts of instrumented functions

    The simulation of CfgSim.v and Dominance.v put together with
    [instrument_run] for the code that [instrumentFunction] of compiler/Pass.cpp
    leaves: for whole runs, for the first instructions of a function, and for
    functions of one block that return a value. *)

From S2P Require Import Prelude Smt Z3Api Interface ByteSeq BitArrays Arith SimpleBackend.
From S2P Require Import SimpleSpec PathConstraints State Shadow Memory Dispatch Symbolizer.
From S2P Require Import SymbolizerSem Cfg ShortCircuit Computations Simulation Phi Visitors.
From S2P Require Import VisitEffects VisitMemory Processed VisitCall SymbolizerSpec FunctionSpec CfgSpec CfgSim.
From S2P Require Import Dominance Interface.

#[local] Open Scope Z_scope.

Section functions.
Context {Z3I : Z3} {ZL : Z3Laws Z3I} {KC : Calls} {KI : ICalls} {FR : Frame}.
Context (DL : DataLayout) (ρ : RunInput) (host_address : nat → Z) (L : layout_ok DL) {KO : CalleesOk ρ}.
Implicit Types (m : mach).

(** ** Whole runs *)
Lemma exec_function successors (scope scope' : nat → gset nat) f s' k m l e' mem' :
  supported_function DL f = true → forallb (scope_ok successors scope f) (blocks f) = true →
  (∀ b, scope b ⊆ scope' b) →
  symbolizeFunction DL host_address f new_symbolizer = Ok tt s' →
  consistent ρ (rts m) → arguments_agree ρ 0 (fn_args f) m →
  (∀ x, is_Some (cenv m !! x) → x ∈ (fn_args f).*1) →
  run_blocks DL successors scope k f (start f) (cenv m) (memory (rts m)) = Some (l, e', mem') →
  wp (exec_blocks DL successors scope' k (code_of f (function_code s')) (start f)) m (λ l' m', l' = l ∧
    e' ⊆ cenv m' ∧ memory (rts m') = mem' ∧ consistent ρ (rts m') ∧ return_ok ρ l m' ∧
    bext (rt_backend (rts m)) (rt_backend (rts m'))).
Proof.
  intros Hf Hs Hsub Ei C Ha He R.
  destruct (instrument_run DL ρ host_address L f Hf) as (cs&s&segs&s1&ini&code'&n'&s''&Ei'&Es&Ins).
  rewrite Ei in Ei'. injection Ei' as <-. rewrite Es.
  pose proof (supported_function_spec DL f Hf) as (_&Hb&Hr&ND). apply Forall_cons in Hb as [Hb _].
  assert (phis_of (fn_entry f) = []) as Hp.
  { pose proof (instructions_split (fn_entry f)) as Hi. rewrite Hr in Hi.
    by apply (app_inv_tail (instructions (fn_entry f)) [] _) in Hi. }
  destruct (exec_from_start DL ρ host_address successors scope f cs s segs s1 ini code' n' Ins ND Hs Hb Hp
    k m l e' mem' C Ha He R) as (l'&m1&E1&(->&Ee&Em&C1&Hret&X)).
  destruct (exec_blocks_mono DL successors scope scope' Hsub k _ _ _ _ _ (cenv m) E1) as (e2&E2&He2); [done|].
  exists l, (with_env e2 m1). assert (with_env (cenv m) m = m) as <- by by destruct m.
  split; [exact E2|]. by rewrite <-Ee.
Qed.

(** ** The first instructions of a function *)

(** The code of the entry block can be cut at every instruction. *)
Lemma exec_first f l1 l2 s' :
  supported_function DL f = true → instructions (fn_entry f) = l1 ++ l2 →
  symbolizeFunction DL host_address f new_symbolizer = Ok tt s' →
  ∃ code1 code2, function_code s' = code1 ++ code2 ∧ ∀ m e' mem',
    consistent ρ (rts m) → arguments_agree ρ 0 (fn_args f) m →
    run_insts DL l1 (cenv m) (memory (rts m)) = Some (e', mem') →
    wp (exec_code DL code1) m (λ _ m', cenv m' = e' ∧ memory (rts m') = mem' ∧
      consistent ρ (rts m')).
Proof.
  intros Hf El Ei.
  destruct (instrument_run DL ρ host_address L f Hf) as (cs&s&segs&s1&ini&code'&n'&s''&Ei'&Es&Ins).
  rewrite Ei in Ei'. injection Ei' as <-. destruct Ins as [VF Hini Cv].
  pose proof VF as [V C _ [_ NDb]]. rewrite El in V.
  apply visits_app_inv in V as (cs1&s2&cs2&->&V1&V2).
  pose proof (visits_processed _ _ _ _ _ _ _ V1) as P1. pose proof (visits_processed _ _ _ _ _ _ _ V2) as P2.
  pose proof (chunks_ok_le _ _ _ (processed_chunks _ _ _ _ _ _ P1)).
  pose proof (chunks_ok_le _ _ _ (processed_chunks _ _ _ _ _ _ P2)).
  pose proof (grown_chain DL ρ host_address s segs s1 C (processed_below _ _ _ _ _ _ P2) NDb) as G.
  pose proof (grown_le _ _ _ _ _ _ G).
  unfold all_chunks in Cv at 2. rewrite fmap_app, <-app_assoc in Cv.
  apply converted_app_inv in Cv as (code1&n1&code2&->&_&Cv1&_).
  exists ((ini ++ prologue DL host_address f) ++ code1), code2. split; [by rewrite Es, <-!app_assoc|].
  intros m e' mem' Cm A R. apply exec_app.
  eapply wp_impl; [apply (exec_start DL ρ host_address f ini m (flatten (erase_chunk (all_erased segs s1) <$> cs1) ++
    flatten ((erase_chunk (all_erased segs s1) <$> cs2) ++ (segs ≫= seg_final DL host_address (symbolicExpressions s1) (all_erased segs s1))) ++
    items (all_chunks DL host_address (cs1 ++ cs2) segs s1))); [|done..]|].
  { eapply initialises_sub; [|exact Hini]. intros fl. unfold all_chunks at 2. rewrite fmap_app.
    rewrite !flatten_app, !reads_app. intros [?|[[?|?]|Hit%reads_items]]; [tauto..|].
    unfold all_chunks in Hit. by rewrite fmap_app, !flatten_app, !reads_app in Hit. }
  intros [] m1 (E1&Er&A1).
  eapply wp_impl; [eapply (processed_sim _ _ _ _ _ _ P1 (all_erased segs s1) _ (fresh s1) code1 n1 m1 e' mem')|].
  - intros r Hr Hin.
    destruct (erased_range DL ρ host_address s s1 segs C (processed_below _ _ _ _ _ _ P2) NDb r Hr). lia.
  - exact Cv1.
  - lia.
  - by rewrite Er.
  - by apply agree_erase.
  - by rewrite E1, Er.
  - intros _ m' (?&?&?&_). by split_and!.
Qed.

(** ** Functions of one block that return a value *)
Lemma exec_straight f l i v s' m e' mem' c :
  supported_function DL f = true → fn_blocks f = [] → instructions (fn_entry f) = l ++ [i] →
  kind i = ReturnInst (Some v) →
  symbolizeFunction DL host_address f new_symbolizer = Ok tt s' →
  consistent ρ (rts m) → arguments_agree ρ 0 (fn_args f) m →
  run_insts DL l (cenv m) (memory (rts m)) = Some (e', mem') → eval_operand DL e' v = Some c →
  wp (exec_code DL (function_code s')) m (λ _ m', cenv m' = e' ∧
    ∀ h, g_return_value (rts m') = Some h → rep ρ (rt_backend (rts m')) h (sem_value c)).
Proof.
  intros Hf Hbl El K Ei Cm A R Ev.
  destruct (instrument_run DL ρ host_address L f Hf) as (cs&s&segs&s1&ini&code'&n'&s''&Ei'&Es&Ins).
  rewrite Ei in Ei'. injection Ei' as <-. destruct Ins as [VF Hini Cv].
  pose proof VF as [V C Eb _]. rewrite Hbl in Eb. apply fmap_nil_inv in Eb as ->.
  assert (s1 = s) as -> by by inversion C. rewrite El in V.
  unfold all_chunks in Cv. cbn [mbind list_bind] in Cv. rewrite app_nil_r in Cv.
  set (E := all_erased [] s) in *. rewrite Es, app_assoc. apply exec_app.
  eapply wp_impl; [apply (exec_start DL ρ host_address f ini m (flatten (erase_chunk E <$> cs) ++
    items (erase_chunk E <$> cs))); [|done..]|].
  { eapply initialises_sub; [|exact Hini]. intros fl. unfold all_chunks. cbn [mbind list_bind].
    rewrite app_nil_r, reads_app. by intros [?|?%reads_items]. }
  intros [] m1 (E1&Er&A1).
  assert (run_insts DL (l ++ [i]) (cenv m1) (memory (rts m1)) = Some (e', mem')) as R1.
  { rewrite run_insts_app, E1, Er, R. cbn. unfold run_inst. by rewrite K, Ev. }
  eapply wp_impl; [eapply (exec_body DL ρ host_address l i _ cs s E _ (fresh s) code' n' m1 e' mem' V)|].
  - unfold is_terminator. by rewrite K.
  - intros r Hr. by apply elem_of_empty in Hr.
  - exact Cv.
  - done.
  - by rewrite Er.
  - by apply agree_erase.
  - exact R1.
  - intros _ m2 (Ee&_&_&_&_&Hret). split; [done|]. intros h. by apply (Hret v c K Ev).
Qed.
End functions.
