(* ===== verification/Program.v ===== *)
(** * Programs of several functions

    Functions that call each other, and functions outside of the program that
    are not instrumented by the pass.  An activation of a function has variables
    of its own; the parameter and return slots of the library are shared.  The
    call depth [n] and the number [k] of blocks that an activation may run bound
    both programs alike. *)

From S2P Require Import Prelude Smt Z3Api Interface ByteSeq BitArrays Arith SimpleBackend.
From S2P Require Import SimpleSpec PathConstraints State Shadow Memory Dispatch Symbolizer.
From S2P Require Import SymbolizerSem Cfg ShortCircuit Computations Simulation Phi Visitors.
From S2P Require Import VisitMemory VisitCall SymbolizerSpec FunctionSpec CfgSpec FunctionSim Interface.

#[local] Open Scope Z_scope.

(** The functions by number, with the edges of their control-flow graphs and the
    variables that dominate each block. *)
Record program : Type := {
  functions : gmap nat function;
  edges : nat → nat → list nat;
  dominating : nat → nat → gset nat;
  (** Where the activation of a function keeps its variables on the stack; the
      first argument is the call depth that is left. *)
  stack : nat → nat → nat → option Z;
}.

Definition bind_args (F : function) (vs : list cval) : gmap nat cval :=
  list_to_map (zip (fn_args F).*1 vs).

Section programs.
Context (DL : DataLayout) (host_address : nat → Z) (P : program) (k : nat).

(** ** The original program *)
Definition run_activation {KC : Calls} {FR : Frame} (f : nat) (F : function) (vs : list cval) (mem : Z → Z)
    : option (option cval * (Z → Z)) :=
  if (length vs =? length (fn_args F))%nat then
    match run_blocks DL (edges P f) (dominating P f) k F (start F) (bind_args F vs) mem with
    | Some (Done r, _, mem') => Some (r, mem')
    | _ => None
    end
  else None.

(** Functions that are not part of the program are those of [KC]. *)
Fixpoint run_program {KC : Calls} (n : nat) : Calls :=
  match n with
  | O => λ _ _ _, None
  | S n' => λ f vs mem,
      match functions P !! f with
      | Some F => run_activation (KC := run_program n') (FR := stack P n' f) f F vs mem
      | None => call f vs mem
      end
  end.

(** ** The instrumented program

    It may keep variables besides those in scope. *)
Context (extra : nat → nat → gset nat) {Z3I : Z3}.

Definition kept (f b : nat) : gset nat := dominating P f b ∪ extra f b.

(** The code that the pass leaves; when LLVM's verifier rejects it, the compiler
    stops and there is no program to run. *)
Definition instrumented_code (F : function) : list item :=
  match symbolizeFunction DL host_address F new_symbolizer with
  | Ok _ s => function_code s
  | Err _ => []
  end.

Definition exec_activation {KI : ICalls} {FR : Frame} (f : nat) (F : function) (vs : list cval)
    : M (@rt simple_backend) (option cval) := λ t,
  if (length vs =? length (fn_args F))%nat then
    match exec_blocks DL (edges P f) (kept f) k (code_of F (instrumented_code F)) (start F)
            {| regs := ∅; flags := ∅; cenv := bind_args F vs; rts := t |} with
    | Ok (Done r) m => Ok r (rts m)
    | Ok (At _ _) _ => Err (Undefined "too many blocks")
    | Err e => Err e
    end
  else Err (Undefined "number of arguments").

Fixpoint exec_program {KI : ICalls} (n : nat) : ICalls :=
  match n with
  | O => λ _ _, fail (Undefined "call depth")
  | S n' => λ f vs,
      match functions P !! f with
      | Some F => exec_activation (KI := exec_program n') (FR := stack P n' f) f F vs
      | None => icall f vs
      end
  end.

(** ** Well-formed programs *)
Definition function_ok (f : nat) (F : function) : bool :=
  supported_function DL F && forallb (scope_ok (edges P f) (dominating P f) F) (blocks F).

Definition program_ok : Prop := map_Forall (λ f F, function_ok f F = true) (functions P).
End programs.

Lemma bind_args_lookup F vs x c :
  length vs = length (fn_args F) → NoDup (fn_args F).*1 → bind_args F vs !! x = Some c →
  ∃ i u, fn_args F !! i = Some (x, u) ∧ vs !! i = Some c.
Proof.
  intros Hl ND Hx. apply elem_of_list_to_map_2, elem_of_lookup_zip_with in Hx as (i&x'&c'&[= <- <-]&Hi&Hc).
  rewrite list_lookup_fmap in Hi. destruct (fn_args F !! i) as [[y u]|] eqn:E; [|done].
  injection Hi as ->. by exists i, u.
Qed.

Section simulation.
Context {Z3I : Z3} {ZL : Z3Laws Z3I} {KC : Calls} {KI : ICalls}.
Context (DL : DataLayout) (ρ : RunInput) (host_address : nat → Z) (L : layout_ok DL) {KO : CalleesOk ρ}.
Context (P : program) (k : nat) (extra : nat → nat → gset nat) (HP : program_ok DL P).

(** The slots that the caller has filled are those that the prologue reads. *)
Lemma bound_arguments F vs t :
  length vs = length (fn_args F) → NoDup (fn_args F).*1 → (length vs ≤ 256)%nat →
  parameters_ok ρ vs t →
  arguments_agree ρ 0 (fn_args F) {| regs := ∅; flags := ∅; cenv := bind_args F vs; rts := t |}.
Proof.
  intros Hl ND H256 Hp i x u c h Hi Hc Hh. cbn in Hc, Hh |- *.
  destruct (bind_args_lookup F vs x c Hl ND Hc) as (j&u'&Hj&Hv).
  assert (i = j) as <-.
  { eapply (NoDup_lookup _ i j x ND); rewrite list_lookup_fmap; [by rewrite Hi|by rewrite Hj]. }
  apply (Hp i c h Hv). etransitivity; [|exact Hh]. f_equal. apply lookup_lt_Some in Hv.
  unfold u8, wrap. rewrite Z.mod_small by lia. lia.
Qed.

(** A program keeps the contract of its functions. *)
Lemma program_callees n :
  CalleesOk ρ (KC := run_program DL P k n) (KI := exec_program DL host_address P k extra n).
Proof.
  induction n as [|n IH]; [done|]. intros f vs t r mem' Hc C Hp H256.
  unfold call, icall in *. cbn [run_program exec_program] in *.
  destruct (functions P !! f) as [F|] eqn:HF; [|by apply KO].
  pose proof (HP f F HF) as [Hs Hsc]%andb_prop. unfold run_activation in Hc. unfold exec_activation.
  destruct (Nat.eqb_spec (length vs) (length (fn_args F))) as [Hl|]; [|done].
  destruct (run_blocks _ _ _ _ _ _ _ _) as [[[[|res] e'] mem1]|] eqn:R; try done. injection Hc as -> ->.
  pose proof (supported_function_spec DL F Hs) as (_&_&_&(NDa&_&_)%NoDup_app).
  destruct (instrument_run (FR := stack P n f) DL ρ host_address L F Hs) as (_&_&_&_&_&_&_&s'&Ei&_).
  set (m := {| regs := ∅; flags := ∅; cenv := bind_args F vs; rts := t |}).
  destruct (exec_function (KC := run_program DL P k n)
    (KI := exec_program DL host_address P k extra n) (FR := stack P n f) (KO := IH) DL ρ host_address L (edges P f)
    (dominating P f) (kept P extra f) F s' k m (Done r) e' mem' Hs Hsc) as (l&m'&E&->&_&Em&C'&Hret&X); try done.
  - intros b. unfold kept. set_solver.
  - by apply bound_arguments.
  - intros x (c&Hx). destruct (bind_args_lookup F vs x c Hl NDa Hx) as (i&u&Hi&_).
    apply (list_elem_of_fmap_2 fst) with (x := (x, u)). by eapply list_elem_of_lookup_2.
  - unfold instrumented_code. rewrite Ei. exists r, (rts m'). unfold m in E. rewrite E. split; [done|].
    split_and!; try done. intros c h _ ->. by apply Hret.
Qed.
End simulation.
