(* ===== verification/Linking.v ===== *)
(** * Instrumented modules and the wrappers of the C library

    [instrumentModule] of compiler/Pass.cpp renames the functions of a module
    that the run-time library wraps, so that the linker resolves them to the
    wrappers of runtime/src/LibcWrappers.cpp, and adds the constructor that
    initialises the library.  The second part shows that the wrappers of memory
    functions meet the contract that instrumented code asks of the functions it
    calls, so that the theorems about programs hold of programs linked with
    them. *)

From S2P Require Import Prelude Smt Z3Api Interface ByteSeq BitArrays Arith SimpleBackend.
From S2P Require Import SimpleSpec State Shadow Memory LibcWrappers LibcSpec Dispatch Symbolizer.
From S2P Require Import SymbolizerSem ShortCircuit Simulation Interface.

#[local] Open Scope Z_scope.

(** ** Modules *)

(** The symbols of the functions, declared or defined, and the global
    constructors: name, priority, and the function that each calls. *)
Record module : Type := {
  symbols : gmap nat string;
  global_ctors : list (string * Z * string);
}.

(** [SYM(x)] of LibcWrappers.cpp. *)
Definition SYM (x : string) : string := x +:+ "_symbolized".

Definition instrumentModule (M : module) : bool * module :=
  (true, {| symbols := (λ name, if isInterceptedFunction name then SYM name else name) <$> symbols M;
            global_ctors := global_ctors M ++ [(kSymCtorName, 0, "_sym_initialize"%string)] |}).

(** ** Functions of the C library *)
Inductive libc_function : Type := Memcpy | Memmove | Bcopy | Memcmp | Bcmp | Bzero | Ntohl.

Definition libc_functions : list libc_function := [Memcpy; Memmove; Bcopy; Memcmp; Bcmp; Bzero; Ntohl].

Definition libc_name (F : libc_function) : string :=
  match F with
  | Memcpy => "memcpy" | Memmove => "memmove" | Bcopy => "bcopy" | Memcmp => "memcmp"
  | Bcmp => "bcmp" | Bzero => "bzero" | Ntohl => "ntohl"
  end.

(** The linker: the function with the symbol [x], under the names that the C
    library or the wrappers have. *)
Definition resolve (naming : string → string) (x : string) : option libc_function :=
  snd <$> list_find (λ F, naming (libc_name F) = x) libc_functions.

#[local] Abbreviation arg64 z := (CInt 64 z).

Definition region_ok (a n : Z) : bool := (0 <=? a) && (0 <=? n) && (a + n <? 2 ^ 64).

Lemma region_ok_spec a n : region_ok a n = true → region a n.
Proof. unfold region_ok, region. lia. Qed.

(** What the C library documents; [None] is undefined behaviour. *)
Definition libc_call (F : libc_function) (vs : list cval) (mem : Z → Z)
    : option (option cval * (Z → Z)) :=
  match F, vs with
  | Memcpy, [arg64 d; arg64 s; arg64 n] =>
      if region_ok d n && region_ok s n && ((d + n <=? s) || (s + n <=? d))
      then Some (Some (arg64 d), copy_bytes mem d s n) else None
  | Memmove, [arg64 d; arg64 s; arg64 n] =>
      if region_ok d n && region_ok s n then Some (Some (arg64 d), copy_bytes mem d s n) else None
  | Bcopy, [arg64 s; arg64 d; arg64 n] =>
      if region_ok d n && region_ok s n then Some (None, copy_bytes mem d s n) else None
  | (Memcmp | Bcmp), [arg64 a; arg64 b; arg64 n] =>
      if region_ok a n && region_ok b n
      then Some (Some (CInt 32 (wrap 32 (libc_memcmp mem a b (Z.to_nat n)))), mem) else None
  | Bzero, [arg64 a; arg64 n] =>
      if region_ok a n then Some (None, set_bytes mem a n 0) else None
  | Ntohl, [CInt 32 x] =>
      if (0 <=? x) && (x <? 2 ^ 32) then Some (Some (CInt 32 (of_be (rev (to_be 4 x)))), mem) else None
  | _, _ => None
  end.

Section linking.
Context {Z3I : Z3} (sym_addr : string → Z).

(** The wrappers of LibcWrappers.cpp, called with the same arguments. *)
Definition wrapper_call (F : libc_function) (vs : list cval) : M (@rt simple_backend) (option cval) :=
  match F, vs with
  | Memcpy, [arg64 d; arg64 s; arg64 n] => r <- SYM_memcpy sym_addr d s n ;; ret (Some (arg64 r))
  | Memmove, [arg64 d; arg64 s; arg64 n] => r <- SYM_memmove sym_addr d s n ;; ret (Some (arg64 r))
  | Bcopy, [arg64 s; arg64 d; arg64 n] => SYM_bcopy sym_addr s d n ;;; ret None
  | Memcmp, [arg64 a; arg64 b; arg64 n] =>
      r <- SYM_memcmp sym_addr a b n ;; ret (Some (CInt 32 (wrap 32 r)))
  | Bcmp, [arg64 a; arg64 b; arg64 n] =>
      r <- SYM_bcmp sym_addr a b n ;; ret (Some (CInt 32 (wrap 32 r)))
  | Bzero, [arg64 a; arg64 n] => SYM_bzero sym_addr a n ;;; ret None
  | Ntohl, [CInt 32 x] => r <- SYM_ntohl x ;; ret (Some (CInt 32 r))
  | _, _ => fail (Undefined "arguments of a library function")
  end.

(** Calls from a module: through the symbol of the function to the C library,
    or to the wrappers; other functions are those of [KC] and [KI]. *)
Definition linked_calls {KC : Calls} (M : module) : Calls := λ f vs mem,
  match symbols M !! f ≫= resolve id with
  | Some F => libc_call F vs mem
  | None => call f vs mem
  end.

Definition linked_icalls {KI : ICalls} (M : module) : ICalls := λ f vs,
  match symbols M !! f ≫= resolve SYM with
  | Some F => wrapper_call F vs
  | None => icall f vs
  end.
End linking.

(** ** Resolution *)
Lemma resolve_find naming F :
  (∀ F F', naming (libc_name F) = naming (libc_name F') → F = F') →
  resolve naming (naming (libc_name F)) = Some F.
Proof.
  intros Inj. unfold resolve. destruct (list_find _ _) as [[i F']|] eqn:E; cbn.
  - apply list_find_Some in E as (_&H%Inj&_). congruence.
  - apply list_find_None in E. rewrite Forall_forall in E. exfalso. apply (E F); [|done].
    destruct F; unfold libc_functions; set_solver.
Qed.

Lemma resolve_Some naming x F : resolve naming x = Some F → naming (libc_name F) = x.
Proof.
  unfold resolve. intros ([i F']&H&[= ->])%fmap_Some. by apply list_find_Some in H as (_&?&_).
Qed.

Lemma libc_name_inj F F' : libc_name F = libc_name F' → F = F'.
Proof. by destruct F, F'. Qed.

Lemma string_length_app x y : String.length (x +:+ y) = (String.length x + String.length y)%nat.
Proof. induction x as [|c x IH]; [done|]. change (S (String.length (x +:+ y)) = S (String.length x + String.length y)). by rewrite IH. Qed.

Lemma SYM_inj x y : SYM x = SYM y → x = y.
Proof.
  unfold SYM. intros E. pose proof (f_equal String.length E) as El. rewrite !string_length_app in El.
  revert y E El. induction x as [|c x IH]; intros [|c' y] E El; try (cbn in El; lia); [done|].
  injection E as -> E. f_equal. apply IH; [exact E|]. cbn in El. lia.
Qed.

(** A call of a function that is wrapped goes to the wrapper of the same
    function. *)
Lemma instrumentModule_resolve (M : module) f F :
  symbols M !! f ≫= resolve id = Some F →
  symbols (instrumentModule M).2 !! f ≫= resolve SYM = Some F.
Proof.
  intros (x&Hx&<-%resolve_Some)%bind_Some. cbn [instrumentModule snd symbols id] in *.
  rewrite lookup_fmap, Hx. cbn.
  assert (isInterceptedFunction (libc_name F) = true) as -> by (by destruct F; vm_compute).
  apply resolve_find. intros F1 F2 E. by apply libc_name_inj, SYM_inj.
Qed.

(** ** The contract *)
Section contract.
Context {Z3I : Z3} {ZL : Z3Laws Z3I} (ρ : RunInput) (sym_addr : string → Z).
Implicit Types (t : @rt simple_backend).

(** What a call that returns [r] and leaves the memory [mem'] has to
    establish. *)
Definition outcome t (r : option cval) (mem' : Z → Z) (r' : option cval) t' : Prop :=
  r' = r ∧ memory t' = mem' ∧ consistent ρ t' ∧ bext (rt_backend t) (rt_backend t') ∧
  ∀ c h, g_return_value t = None → r = Some c → g_return_value t' = Some h →
    rep ρ (rt_backend t') h (sem_value c).

(** The parameter slots hold null or the values of the arguments. *)
Lemma parameter_param vs t (j : nat) z :
  parameters_ok ρ vs t → vs !! j = Some (CInt 64 z) → 0 ≤ z < 2 ^ 64 → (j < 256)%nat →
  param ρ t (Z.of_nat j) 64 (u64 z).
Proof.
  intros Hp Hj Hz Hlt. unfold param. rewrite u64_small by done.
  assert (Z.to_nat (u8 (Z.of_nat j)) = j) as -> by (unfold u8, wrap; rewrite Z.mod_small; lia).
  destruct (g_function_arguments t !! j) as [[h|]|] eqn:E; try done. exact (Hp j _ h Hj E).
Qed.

Lemma length_ok a n : region_ok a n = true → 0 ≤ a < 2 ^ 64 ∧ 0 ≤ n < 2 ^ 64.
Proof. unfold region_ok. lia. Qed.

(** The three parameters of the memory functions. *)
Lemma three_params t x y n :
  parameters_ok ρ [CInt 64 x; CInt 64 y; CInt 64 n] t →
  region_ok x n = true → region_ok y n = true →
  param ρ t 0 64 (u64 x) ∧ param ρ t 1 64 (u64 y) ∧ param ρ t 2 64 (u64 n).
Proof.
  intros Hp [Hx Hn]%length_ok [Hy _]%length_ok.
  split_and!; [apply (parameter_param _ t 0 _ Hp)|apply (parameter_param _ t 1 _ Hp)|apply (parameter_param _ t 2 _ Hp)];
    done || lia.
Qed.

(** A wrapper that returns its first argument. *)
Lemma returns_first_outcome t d mem' r t' vs :
  parameters_ok ρ (CInt 64 d :: vs) t → returns_first ρ t d mem' r t' →
  outcome t (Some (CInt 64 d)) mem' (Some (CInt 64 r)) t'.
Proof.
  intros Hp (->&C'&W&Em&Hr&_). split_and!; try done; [apply W|].
  intros c h _ [= <-] Hh. eapply rep_mono; [apply W|]. apply (Hp 0%nat _ h eq_refl).
  rewrite Hr in Hh. unfold parameter in Hh. change (Z.to_nat (u8 0)) with 0%nat in Hh.
  by destruct (g_function_arguments t !! 0%nat) as [[h'|]|]; cbn in Hh; simplify_eq.
Qed.

(** A wrapper that leaves no expression. *)
Lemma null_outcome t r mem' t' :
  consistent ρ t' → wrapper_step t t' → memory t' = mem' → g_return_value t' = None →
  outcome t r mem' r t'.
Proof. intros C' W Em Er. split_and!; try done; [apply W|]. congruence. Qed.

Lemma compare_outcome t name a b n :
  region_ok a n = true → region_ok b n = true → consistent ρ t →
  parameters_ok ρ [CInt 64 a; CInt 64 b; CInt 64 n] t →
  wp (r <- compare sym_addr name a b n ;; ret (Some (CInt 32 (wrap 32 r)))) t
    (outcome t (Some (CInt 32 (wrap 32 (libc_memcmp (memory t) a b (Z.to_nat n))))) (memory t)).
Proof.
  intros Ra Rb C Hp. destruct (three_params _ _ _ _ Hp Ra Rb) as (P0&P1&P2).
  eapply wp_seq; [apply (compare_wp sym_addr ρ t name a b n C); try done; by apply region_ok_spec|].
  intros r' t' (->&C'&Em&Er&_&W). by apply wp_ret, null_outcome.
Qed.

Lemma ntohl_outcome t x :
  0 ≤ x < 2 ^ 32 → consistent ρ t → parameters_ok ρ [CInt 32 x] t →
  wp (r <- SYM_ntohl x ;; ret (Some (CInt 32 r))) t
    (outcome t (Some (CInt 32 (of_be (rev (to_be 4 x))))) (memory t)).
Proof.
  intros Hx C Hp. eapply wp_seq; [apply (SYM_ntohl_wp ρ t x C Hx)|].
  { unfold param. change (Z.to_nat (u8 0)) with 0%nat.
    destruct (g_function_arguments t !! 0%nat) as [[h|]|] eqn:E; try done. exact (Hp 0%nat _ h eq_refl E). }
  intros r t' (->&C'&Em&W&Hr). apply wp_ret. split_and!; try done; [apply W|].
  intros c h _ [= <-] Hh. rewrite Hh in Hr. exact Hr.
Qed.

(** Every wrapper does what the function does, and keeps the agreement. *)
Lemma wrapper_outcome F vs t r mem' :
  libc_call F vs (memory t) = Some (r, mem') → consistent ρ t → parameters_ok ρ vs t →
  wp (wrapper_call sym_addr F vs) t (outcome t r mem').
Proof.
  intros H C Hp. destruct F; cbn [libc_call] in H;
    repeat case_match; try done; simplify_eq; cbn [wrapper_call];
    repeat match goal with H : _ && _ = true |- _ => apply andb_true_iff in H as [? ?] end.
  - edestruct three_params as (P0&P1&P2); [exact Hp|done..|].
    eapply wp_seq; [apply (SYM_memcpy_wp sym_addr ρ t); try done; [by apply region_ok_spec..|lia]|].
    intros r1 t' Hr. apply wp_ret. by eapply returns_first_outcome.
  - edestruct three_params as (P0&P1&P2); [exact Hp|done..|].
    eapply wp_seq; [apply (SYM_memmove_wp sym_addr ρ t); try done; by apply region_ok_spec|].
    intros r1 t' Hr. apply wp_ret. by eapply returns_first_outcome.
  - edestruct three_params as (P0&P1&P2); [exact Hp|done..|].
    eapply wp_seq; [eapply (SYM_bcopy_wp sym_addr ρ t); try done; by apply region_ok_spec|].
    intros _ t' (C'&W&Em&Er). by apply wp_ret, null_outcome.
  - by apply compare_outcome.
  - by apply compare_outcome.
  - match goal with H : region_ok _ _ = true |- _ => pose proof (length_ok _ _ H) as [Ha Hn] end.
    eapply wp_seq; [apply (SYM_bzero_wp sym_addr ρ t); try done; [by apply region_ok_spec|..]|].
    + by apply (parameter_param _ t 0 _ Hp); [|lia..].
    + by apply (parameter_param _ t 1 _ Hp); [|lia..].
    + intros _ t' (C'&W&Em&Er). by apply wp_ret, null_outcome.
  - apply ntohl_outcome; [lia|done..].
Qed.

(** The functions of an instrumented module that are linked with the wrappers,
    provided that the module does not call wrappers by their own names. *)
Lemma linked_callees {KC : Calls} {KI : ICalls} {KO : CalleesOk ρ} (M : module) :
  map_Forall (λ _ x, resolve SYM x = None) (symbols M) →
  CalleesOk ρ (KC := linked_calls M) (KI := linked_icalls sym_addr (instrumentModule M).2).
Proof.
  intros HM f vs t r mem' H C Hp Hl. unfold call, icall, linked_calls, linked_icalls in *.
  destruct (symbols M !! f ≫= resolve id) as [F|] eqn:E.
  - rewrite (instrumentModule_resolve M f F E). by apply wrapper_outcome.
  - assert (symbols (instrumentModule M).2 !! f ≫= resolve SYM = None) as ->; [|by apply KO].
    cbn [instrumentModule snd symbols]. rewrite lookup_fmap.
    destruct (symbols M !! f) as [x|] eqn:Ex; [|done]. cbn in E |- *.
    destruct (isInterceptedFunction x); [|exact (HM f x Ex)].
    destruct (resolve SYM (SYM x)) as [F|] eqn:Es; [|done].
    apply resolve_Some, SYM_inj in Es. subst x.
    by destruct F.
Qed.
End contract.
