(* ===== verification/BranchReport.v ===== *)
(** * What a branch reports

    The code that the pass leaves for a conditional branch: when its kind asks
    for a report and the condition has an expression, the library is told which
    way the branch goes; the query that it logs is the one of PathConstraints.v. *)

From S2P Require Import Prelude Smt Z3Api Interface ByteSeq BitArrays Arith SimpleBackend.
From S2P Require Import SimpleSpec PathConstraints State Shadow Memory Dispatch Symbolizer.
From S2P Require Import SymbolizerSem ShortCircuit Computations Simulation Visitors VisitScalar.
From S2P Require Import VisitEffects Interface.

#[local] Open Scope Z_scope.

Section report.
Context {Z3I : Z3} {ZL : Z3Laws Z3I} {KC : Calls} {KI : ICalls} {FR : Frame}.
Context (DL : DataLayout) (ρ : RunInput) (host_address : nat → Z) (Hptr : ptrBits DL = 64).
Implicit Types (m : mach) (s : symbolizer).

(** ** When a branch reports *)

(** A branch that leaves a loop, or stays in it, reports in the first iteration
    only, unless it guards a loop; other branches always report. *)
Inductive reporting : Type := Always | FirstIteration | Never.

Definition branch_reporting (loop : option loop_query) (loop_guard : bool) : reporting :=
  match loop with
  | Some q => if xorb (S0In q) (S1In q) then if loop_guard then Never else FirstIteration else Always
  | None => Always
  end.

Definition branch_slot (ct : option string) s : Z :=
  match ct with Some t => ID s + check_slot t | None => ID s end.

(** The number that is reported. *)
Definition reported_slot (when : reporting) ct s : Z :=
  match when with FirstIteration => -1 | _ => branch_slot ct s end.

(** Whether a run of the code reports: the flag of the branch is [flag]. *)
Definition reports_now (when : reporting) (flag : nat) m : bool :=
  match when with
  | Always => true
  | FirstIteration => negb (default false (flags m !! flag))
  | Never => false
  end.

Definition flags_after (when : reporting) (flag : nat) (f : gmap nat bool) : gmap nat bool :=
  match when with FirstIteration => <[flag := true]> f | _ => f end.

(** ** The code *)

(** The report of the expression [o], called [call]; [n] is the test for null. *)
Definition push_args i c slot : list arg :=
  [AVal c; getTargetPreferredInt DL host_address (name i); AStr (locate i).1; AInt (u32 (locate i).2);
   AInt (u32 slot)].

Definition push_code (o : option nat) (call n : nat) (args : list arg) : list item :=
  match o with
  | None => []
  | Some r => [ICmpEqNull n (Some r);
               If n false [Call call pushPathConstraintWithLoc (AExpr (Some r) :: args)]]
  end.

Definition branch_items (when : reporting) (o : option nat) i c slot (k : nat) : list item :=
  match when with
  | Always => push_code o k (S k) (push_args i c slot) ++ [Orig i]
  | FirstIteration =>
      [LoadFlag (S k) k;
       If (S k) false (push_code o (S (S k)) (S (S (S k))) (push_args i c slot) ++ [StoreFlag k true]);
       Orig i]
  | Never => [Orig i]
  end.

(** One call with one expression among its arguments. *)
Definition one_computation (f : nat) (V : operand) : SymbolicComputation :=
  {| firstInstruction := Some f; lastInstruction := Some f;
     inputs := [{| concreteValue := V; user := f; operandIndex := 0 |}] |}.

Lemma short_circuit_call f fn V r rest post fi s :
  rewrite_list DL (one_computation f V) false fi (Call f fn (AExpr (Some r) :: rest) :: post) s =
  Ok tt (upd_code ([ICmpEqNull (fresh s) (Some r); If (fresh s) false [Call f fn (AExpr (Some r) :: rest)]] ++ post)
    (S (fresh s)) s).
Proof.
  set (seg := [Call f fn (AExpr (Some r) :: rest)]) in *.
  set (inp := {| concreteValue := V; user := f; operandIndex := 0 |}).
  assert (getSymbolicOperand seg inp = Some r) as Eo.
  { unfold getSymbolicOperand. cbn -[Nat.eqb decide]. by rewrite Nat.eqb_refl, decide_True. }
  assert (numUnknownConcreteness seg [inp] = 1%nat) as En.
  { unfold numUnknownConcreteness. rewrite filter_cons_True; [done|by rewrite Eo]. }
  assert (∀ x, check_arguments DL 1 seg [(inp, x)] = ret seg) as Ek.
  { intros x. cbn [check_arguments]. rewrite Eo. by rewrite bool_decide_eq_true_2. }
  assert (rename_result f f seg = seg) as Er by apply rename_result_id.
  cbn [rewrite_list firstInstruction lastInstruction one_computation defines split_after].
  rewrite Nat.eqb_refl. fold seg.
  assert (shortCircuit DL (one_computation f V) false seg s =
    Ok tt (upd_code [ICmpEqNull (fresh s) (Some r); If (fresh s) false seg] (S (fresh s)) s)) as E1.
  { unfold shortCircuit. cbn [inputs lastInstruction null_checks one_computation]. fold inp.
    rewrite Eo, En. destruct s as [? n ? ? ? ? ?].
    unfold bind, new_name, emit, in_block, get, modify, ret. cbn -[seg check_arguments rename_result].
    rewrite Ek. cbn -[seg rename_result]. rewrite Er. unfold upd_code, set_code, set_fresh. cbn.
    by rewrite <-app_assoc. }
  rewrite (bind_Ok _ _ _ _ _ E1), (gen_emit_all post (S (fresh s))) by done.
  unfold upd_code, set_code, set_fresh. cbn. by rewrite <-app_assoc.
Qed.

(** The finished code of a call that is followed by [post]. *)
Lemma short_circuit_one f fn V r rest post s :
  code s = Call f fn (AExpr (Some r) :: rest) :: post → r ≠ f → existsb (arg_uses f) rest = false →
  existsb (item_uses f) post = false →
  shortCircuitOne DL (one_computation f V) s =
  Ok tt (set_fresh (S (fresh s)) (set_code ([ICmpEqNull (fresh s) (Some r);
    If (fresh s) false [Call f fn (AExpr (Some r) :: rest)]] ++ post) s)).
Proof.
  intros Ec Hr Hu Hp. unfold shortCircuitOne, bind at 1, get. rewrite Ec.
  cbn [lastInstruction one_computation existsb item_uses arg_uses]. unfold uses_expr.
  rewrite bool_decide_eq_false_2 by congruence. rewrite Hu, Hp. cbn [orb].
  unfold bind at 1, modify. by rewrite short_circuit_call.
Qed.

Lemma in_block_run {A} (m : M symbolizer A) s a s1 :
  m (set_code [] s) = Ok a s1 → in_block m s = Ok (a, code s1) (set_code (code s) s1).
Proof. intros E. unfold in_block, bind, get, modify, ret. by rewrite E. Qed.

(** In the block of a loop's condition. *)
Lemma short_circuit_loop f fn V r rest seen flag i s :
  code s = [LoadFlag seen flag; If seen false [Call f fn (AExpr (Some r) :: rest); StoreFlag flag true]; Orig i] →
  r ≠ f → existsb (arg_uses f) rest = false →
  shortCircuitOne DL (one_computation f V) s =
  Ok tt (set_fresh (S (fresh s)) (set_code [LoadFlag seen flag;
    If seen false ([ICmpEqNull (fresh s) (Some r); If (fresh s) false [Call f fn (AExpr (Some r) :: rest)]] ++
      [StoreFlag flag true]); Orig i] s)).
Proof.
  intros Ec Hr Hu. unfold shortCircuitOne, bind at 1, get. rewrite Ec.
  cbn [lastInstruction one_computation existsb item_uses arg_uses]. unfold uses_expr.
  rewrite bool_decide_eq_false_2 by congruence. rewrite Hu. cbn [orb].
  unfold bind at 1, modify. remember [Call f fn (AExpr (Some r) :: rest); StoreFlag flag true] as body eqn:Eb.
  cbn [rewrite_list rewrite_item firstInstruction lastInstruction one_computation defines].
  unfold bind at 1, emit at 1, modify. subst body. unfold bind at 1.
  match goal with |- context [bind (in_block ?m) _ ?x] =>
    rewrite (bind_Ok (in_block m) _ x _ _ (in_block_run _ _ _ _ (short_circuit_call f fn V r rest [StoreFlag flag true] _ _)))
  end.
  done.
Qed.

(** ** A branch that is visited by itself, and finished *)
Lemma push_call_item i c slot s r d :
  sym_lookup (symbolicExpressions s) c = Some r →
  call_item (symbolicExpressions s) (push_call DL host_address i c slot d) =
  Call d pushPathConstraintWithLoc (AExpr (Some r) :: push_args i c slot).
Proof.
  intros Er. unfold push_call, call_item, push_arguments, push_args. destruct (locate i). cbn. by rewrite Er.
Qed.

Lemma push_computation i c slot d : comp_of [push_call DL host_address i c slot d] = one_computation d c.
Proof. unfold push_call, comp_of, call_ins, push_arguments. by destruct (locate i). Qed.

Lemma push_concrete i c slot s :
  all_concrete (symbolicExpressions s) (push_arguments DL host_address i c slot) =
  bool_decide (sym_lookup (symbolicExpressions s) c = None).
Proof.
  unfold push_arguments. destruct (locate i). cbn -[sym_lookup].
  by destruct (sym_lookup _ c).
Qed.

(** The computations of the branch are those that its visitor registers. *)
Lemma finish_one i s s1 c :
  visit DL host_address i s = Ok tt s1 → expressionUses s1 = [c] →
  (visit DL host_address i ;;; shortCircuitExpressionUses DL) s = shortCircuitUses DL [c] s1.
Proof.
  intros E Eu. rewrite (bind_Ok _ _ _ _ _ E). unfold shortCircuitExpressionUses, bind, get. by rewrite Eu.
Qed.

Lemma finish_none i s s1 :
  visit DL host_address i s = Ok tt s1 → expressionUses s1 = [] →
  (visit DL host_address i ;;; shortCircuitExpressionUses DL) s = Ok tt s1.
Proof.
  intros E Eu. rewrite (bind_Ok _ _ _ _ _ E). unfold shortCircuitExpressionUses, bind, get. by rewrite Eu.
Qed.

Lemma visit_branch i c ct lo g s s1 :
  kind i = CondBr c ct lo g → visit_before DL host_address i s = Ok tt s1 →
  visit DL host_address i s = Ok tt (set_code (code s1 ++ [Orig i]) s1).
Proof. intros K E. unfold visit. by rewrite K, (bind_Ok _ _ _ _ _ E). Qed.

Lemma visit_push i c ct lo g s :
  kind i = CondBr c ct lo g → branch_reporting lo g = Always →
  visit_before DL host_address i s =
  (r <- buildRuntimeCall pushPathConstraintWithLoc (push_arguments DL host_address i c (branch_slot ct s)) ;;
   registerOptional r None) (set_ID (u64 (ID s + 1)) s).
Proof.
  intros K W. unfold visit_before. rewrite K. unfold visitBranchInst.
  rewrite (bind_Ok _ _ _ (ID s) (set_ID (u64 (ID s + 1)) s)) by done.
  destruct lo as [q|]; [|done]. cbn in W. by destruct (xorb _ _), g.
Qed.

Lemma branch_code i c ct lo g s :
  kind i = CondBr c ct lo g → code s = [] → expressionUses s = [] →
  (∀ r, sym_lookup (symbolicExpressions s) c = Some r → (r < fresh s)%nat) →
  let when := branch_reporting lo g in
  ∃ s2, (visit DL host_address i ;;; shortCircuitExpressionUses DL) s = Ok tt s2 ∧
    code s2 = branch_items when (sym_lookup (symbolicExpressions s) c) i c (reported_slot when ct s) (fresh s) ∧
    entry s2 = match when with FirstIteration => [StoreFlag (fresh s) false] | _ => [] end ++ entry s.
Proof.
  intros K Ec Eu Hr. cbv zeta. destruct (branch_reporting lo g) eqn:W.
  - (* every time *)
    pose proof (visit_push i c ct lo g s K W) as Ev. rewrite push_run, push_concrete in Ev.
    set (s0 := set_ID (u64 (ID s + 1)) s) in *.
    change (symbolicExpressions s0) with (symbolicExpressions s) in Ev. cbn [reported_slot].
    destruct (sym_lookup (symbolicExpressions s) c) as [r|] eqn:Er.
    + rewrite bool_decide_eq_false_2, push_call_item with (s := s) (r := r) in Ev by done.
      specialize (Hr r eq_refl). eexists. split; [|split].
      * rewrite (finish_one i s _ _ (visit_branch _ _ _ _ _ _ _ K Ev) ltac:(cbn; by rewrite Eu, push_computation)).
        cbn [shortCircuitUses]. erewrite bind_Ok; [done|]. eapply short_circuit_one; [cbn; by rewrite Ec|cbn; lia|done..].
      * done.
      * done.
    + rewrite bool_decide_eq_true_2 in Ev by done. eexists. split; [|split].
      * by rewrite (finish_none i s _ (visit_branch _ _ _ _ _ _ _ K Ev)).
      * cbn. by rewrite Ec.
      * done.
  - (* the first time *)
    set (s0 := set_ID (u64 (ID s + 1)) s).
    assert (visit_before DL host_address i s = Ok tt (after_loop DL host_address i c s0)) as Ev.
    { unfold visit_before. rewrite K. unfold visitBranchInst. rewrite (bind_Ok _ _ _ (ID s) s0) by done.
      destruct lo as [q|]; [|done]. cbn in W. destruct (xorb _ _), g; try done. apply visit_loop_run. }
    unfold after_loop in Ev. rewrite push_concrete in Ev.
    change (symbolicExpressions s0) with (symbolicExpressions s) in Ev.
    destruct (sym_lookup (symbolicExpressions s) c) as [r|] eqn:Er.
    + rewrite bool_decide_eq_false_2, push_call_item with (s := s) (r := r) in Ev by done.
      specialize (Hr r eq_refl). eexists. split; [|split].
      * rewrite (finish_one i s _ _ (visit_branch _ _ _ _ _ _ _ K Ev) ltac:(cbn; by rewrite Eu, push_computation)).
        cbn [shortCircuitUses]. erewrite bind_Ok; [done|].
        eapply short_circuit_loop; [cbn; by rewrite Ec|cbn; lia|done..].
      * done.
      * done.
    + rewrite bool_decide_eq_true_2 in Ev by done. eexists. split; [|split].
      * by rewrite (finish_none i s _ (visit_branch _ _ _ _ _ _ _ K Ev)).
      * cbn. by rewrite Ec.
      * done.
  - (* never *)
    set (s0 := set_ID (u64 (ID s + 1)) s).
    assert (visit_before DL host_address i s = Ok tt s0) as Ev.
    { unfold visit_before. rewrite K. unfold visitBranchInst. rewrite (bind_Ok _ _ _ (ID s) s0) by done.
      destruct lo as [q|]; [|done]. cbn in W. by destruct (xorb _ _), g. }
    eexists. split; [|split].
    + by rewrite (finish_none i s _ (visit_branch _ _ _ _ _ _ _ K Ev)).
    + cbn. by rewrite Ec.
    + done.
Qed.

(** ** Running it *)

(** What the library logs for the condition: nothing when it has no expression
    at run time. *)
Definition logs (e : option ast) (b : bool) i slot (s s' : state) : Prop :=
  match e with
  | None => same_log s s'
  | Some h => reports h b (locate i).1 (sgn 32 (u32 (locate i).2)) (sgn 32 (u32 slot)) s s'
  end.

Lemma exec_push_code o call n i c slot m z e :
  (∀ r, o = Some r → r ≠ n) → plain_file i = true → consistent ρ (rts m) →
  eval_operand DL (cenv m) c = Some (CInt 1 z) → read_expr o m = Some e →
  (∀ h, e = Some h → Z3_eval ρ h = VBool (negb (z =? 0))) →
  wp (exec_code DL (push_code o call n (push_args i c slot))) m (λ _ m', consistent ρ (rts m') ∧
    cenv m' = cenv m ∧ flags m' = flags m ∧ memory (rts m') = memory (rts m) ∧
    logs e (negb (z =? 0)) i slot (rt_backend (rts m)) (rt_backend (rts m'))).
Proof.
  intros Hn Hf C Hc Ee Hh. destruct o as [r|]; [|injection Ee as <-; by apply exec_nil].
  unfold plain_file in Hf. apply negb_true_iff in Hf.
  destruct (eval_int DL Hptr _ _ _ _ Hc) as (_&Hz&_).
  set (m1 := set_reg_mach n (RBit (bool_decide (e = None))) (rts m) m).
  apply exec_cons. exists tt, m1. split; [cbn; unfold get_expr, bind, get; by rewrite Ee|].
  assert (regs m1 !! n = Some (RBit (bool_decide (e = None)))) as B by (cbn; by rewrite lookup_insert_eq).
  apply exec_cons. destruct e as [h|].
  - apply exec_if_true; [exact B|]. apply exec_cons.
    assert (read_expr (Some r) m1 = Some (Some h)) as Eh.
    { rewrite <-Ee. eapply (read_expr_step ρ (λ x : nat, x = n)); [by apply set_reg_step|].
      intros x [= <-]. by apply Hn. }
    eapply (exec_call DL m1 _ _ _ [VExpr (Some h); VInt z; VInt (wrap (ptrBits DL) (host_address (name i)));
      VStr (locate i).1; VInt (u32 (locate i).2); VInt (u32 slot)]).
    { constructor; [by apply arg_expr|]. constructor; [by eapply arg_val|]. repeat constructor. }
    apply wp_bind. eapply (wp_backend ρ (rts m) (rts m)); [apply evolves_refl, C| |].
    { rewrite (int1_bool z Hz) at 1. apply push_returns; [apply C|by apply Hh|exact Hf]. }
    intros [] t Ev St _ Hrep. apply wp_ret, exec_nil, exec_nil.
    split_and!; [by eapply evolves_consistent|done|done|by apply rt_step_memory|exact Hrep].
  - apply exec_if_false; [exact B|]. apply exec_nil. by split_and!.
Qed.

Lemma exec_branch_inst i c ct lo g m z :
  kind i = CondBr c ct lo g → eval_operand DL (cenv m) c = Some (CInt 1 z) → exec_orig DL i m = Ok tt m.
Proof.
  intros K Hc. unfold exec_orig, exec_plain. rewrite K. unfold bind, get, run_inst. rewrite K, Hc, set_memory_id.
  by destruct m.
Qed.

(** A branch reports the direction that it takes, when its kind asks for it and
    the condition has an expression; a loop's condition sets its flag. *)
Lemma branch_reports i c ct lo g s m z e :
  kind i = CondBr c ct lo g → code s = [] → expressionUses s = [] →
  (∀ r, sym_lookup (symbolicExpressions s) c = Some r → (r < fresh s)%nat) → plain_file i = true →
  consistent ρ (rts m) → eval_operand DL (cenv m) c = Some (CInt 1 z) →
  read_expr (sym_lookup (symbolicExpressions s) c) m = Some e →
  (∀ h, e = Some h → Z3_eval ρ h = VBool (negb (z =? 0))) →
  let when := branch_reporting lo g in
  (when = FirstIteration → is_Some (flags m !! fresh s)) →
  ∃ s2, (visit DL host_address i ;;; shortCircuitExpressionUses DL) s = Ok tt s2 ∧
    entry s2 = match when with FirstIteration => [StoreFlag (fresh s) false] | _ => [] end ++ entry s ∧
    wp (exec_code DL (code s2)) m (λ _ m', consistent ρ (rts m') ∧ cenv m' = cenv m ∧
      memory (rts m') = memory (rts m) ∧ flags m' = flags_after when (fresh s) (flags m) ∧
      logs (if reports_now when (fresh s) m then e else None) (negb (z =? 0)) i (reported_slot when ct s)
        (rt_backend (rts m)) (rt_backend (rts m'))).
Proof.
  intros K Ec Eu Hr Hf C Hc Ee Hh when Hflag.
  destruct (branch_code i c ct lo g s K Ec Eu Hr) as (s2&E&Es2&Een). exists s2. split; [exact E|].
  split; [exact Een|]. rewrite Es2. clear E Es2 Een s2. fold when.
  set (k := fresh s) in *. set (o := sym_lookup (symbolicExpressions s) c) in *.
  destruct when; cbn [branch_items reports_now flags_after reported_slot].
  - apply exec_app.
    eapply wp_impl; [eapply (exec_push_code o k (S k) i c (branch_slot ct s) m z e); try done|].
    { intros r Er. specialize (Hr r Er). lia. }
    intros [] m1 (C1&E1&F1&M1&L1). apply exec_cons. exists tt, m1.
    split; [eapply exec_branch_inst; [exact K|by rewrite E1]|]. apply exec_nil. by split_and!.
  - destruct (Hflag eq_refl) as [b Hb]. rewrite Hb. cbn [default].
    set (m1 := set_reg_mach (S k) (RBit b) (rts m) m).
    apply exec_cons. exists tt, m1. split; [cbn; unfold get_flag, bind, get; by rewrite Hb|].
    assert (regs m1 !! S k = Some (RBit b)) as B by (cbn; by rewrite lookup_insert_eq).
    apply exec_cons. destruct b; cbn [negb].
    + apply exec_if_false; [exact B|]. apply exec_cons. exists tt, m1.
      split; [by eapply exec_branch_inst|]. apply exec_nil. split_and!; try done. cbn. symmetry.
      by apply insert_id.
    + apply exec_if_true; [exact B|]. apply exec_app.
      eapply wp_impl; [eapply (exec_push_code o (S (S k)) (S (S (S k))) i c (-1) m1 z e); try done|].
      * intros r Er. specialize (Hr r Er). lia.
      * rewrite <-Ee. eapply (read_expr_step ρ (λ x : nat, x = S k)); [by apply set_reg_step|].
        intros x Ex. specialize (Hr x Ex). lia.
      * intros [] m2 (C2&E2&F2&M2&L2). apply exec_cons. exists tt, (flag_mach k true m2). split; [done|].
        apply exec_nil, exec_cons. exists tt, (flag_mach k true m2).
        split; [eapply exec_branch_inst; [exact K|cbn; by rewrite E2]|]. apply exec_nil.
        split_and!; try done. cbn. by rewrite F2.
  - apply exec_cons. exists tt, m. split; [by eapply exec_branch_inst|]. by apply exec_nil.
Qed.
End report.
