(* ===== verification/Ieee.v ===== *)
(** * Floating-point formats of LLVM

    The IEEE interchange formats and [bfloat] as bit patterns, and the
    operations of LLVM's [APFloat] that compiler/FPOverflow.cpp uses, with
    their documented meaning (IEEE 754, rounding to nearest even).  Numbers are
    those of the standard library's [SpecFloat]. *)

From S2P Require Import Prelude Smt.
From Stdlib Require Export SpecFloat.

#[local] Open Scope Z_scope.

Inductive fltSemantics : Type := IEEEhalf | BFloat | IEEEsingle | IEEEdouble | IEEEquad.

#[global] Instance fltSemantics_eq_dec : EqDecision fltSemantics.
Proof. solve_decision. Defined.

Section format.
Variable (sem : fltSemantics).

(** Size in bits and precision; the exponent takes what is left but for the
    sign. *)
Definition flt_width : Z :=
  match sem with IEEEhalf | BFloat => 16 | IEEEsingle => 32 | IEEEdouble => 64 | IEEEquad => 128 end.
Definition flt_prec : Z :=
  match sem with IEEEhalf => 11 | BFloat => 8 | IEEEsingle => 24 | IEEEdouble => 53 | IEEEquad => 113 end.
Definition flt_emax : Z :=
  match sem with
  | IEEEhalf => 16 | BFloat | IEEEsingle => 128 | IEEEdouble => 1024 | IEEEquad => 16384
  end.
(** The exponent of the smallest number. *)
Definition flt_emin : Z := 3 - flt_emax - flt_prec.

(** The bits of the mantissa, and the exponent field of all ones. *)
Definition flt_unit : Z := 2 ^ (flt_prec - 1).
Definition flt_special : Z := 2 * flt_emax - 1.

Definition flt_valid (f : spec_float) : bool := valid_binary flt_prec flt_emax f.

(** The number with a given bit pattern. *)
Definition flt_of_bits (bits : Z) : spec_float :=
  let m := bits mod flt_unit in
  let e := (bits / flt_unit) mod (2 * flt_emax) in
  let s := negb (bits / flt_unit / (2 * flt_emax) =? 0) in
  if e =? flt_special then (if m =? 0 then S754_infinity s else S754_nan)
  else if e =? 0 then
    match m with Zpos p => S754_finite s p flt_emin | _ => S754_zero s end
  else match m + flt_unit with
       | Zpos p => S754_finite s p (flt_emin + e - 1)
       | _ => S754_nan
       end.

(** The sign, exponent field and mantissa field as a bit pattern. *)
Definition flt_pack (s : bool) (e m : Z) : Z :=
  ((if s then 1 else 0) * (2 * flt_emax) + e) * flt_unit + m.

(** The bit pattern of a number; that of "not a number" is the quiet one. *)
Definition flt_to_bits (f : spec_float) : Z :=
  match f with
  | S754_zero s => flt_pack s 0 0
  | S754_infinity s => flt_pack s flt_special 0
  | S754_nan => flt_pack false flt_special (flt_unit / 2)
  | S754_finite s p e =>
      if Zpos p <? flt_unit then flt_pack s 0 (Zpos p)
      else flt_pack s (e - flt_emin + 1) (Zpos p - flt_unit)
  end.

(** ** [APFloat] *)
Definition flt_round (m e : Z) (s : bool) : spec_float := binary_normalize flt_prec flt_emax m e s.

(** [convert(sem, rmNearestTiesToEven, ...)]. *)
Definition convert (f : spec_float) : spec_float :=
  match f with
  | S754_finite s p e => flt_round (if s then Zneg p else Zpos p) e s
  | _ => f
  end.

Definition getLargest : spec_float :=
  S754_finite false (Z.to_pos (2 ^ flt_prec - 1)) (flt_emax - flt_prec).
Definition getSmallest : spec_float := S754_finite false 1 flt_emin.
Definition flt_add (x y : spec_float) : spec_float := SFadd flt_prec flt_emax x y.
Definition flt_sub (x y : spec_float) : spec_float := SFsub flt_prec flt_emax x y.
Definition flt_mul (x y : spec_float) : spec_float := SFmul flt_prec flt_emax x y.
Definition flt_div (x y : spec_float) : spec_float := SFdiv flt_prec flt_emax x y.

(** The remainder of [fmod]: exact, with the sign of the dividend. *)
Definition flt_rem (x y : spec_float) : spec_float :=
  match x, y with
  | S754_nan, _ | _, S754_nan | S754_infinity _, _ | _, S754_zero _ => S754_nan
  | S754_zero s, _ => S754_zero s
  | S754_finite _ _ _, S754_infinity _ => x
  | S754_finite s p e, S754_finite _ q d =>
      let k := Z.min e d in
      match (Zpos p * 2 ^ (e - k)) mod (Zpos q * 2 ^ (d - k)) with
      | 0 => S754_zero s
      | r => flt_round (if s then - r else r) k s
      end
  end.
End format.

(** ** Bit patterns and numbers *)
Section facts.
Variable (sem : fltSemantics).

Lemma flt_unit_pos : 0 < flt_unit sem.
Proof. by destruct sem. Qed.
Lemma flt_emax_pos : 1 < flt_emax sem.
Proof. by destruct sem. Qed.
Lemma flt_prec_unit : 2 ^ flt_prec sem = 2 * flt_unit sem.
Proof. by destruct sem. Qed.
Lemma flt_sizes : 2 ^ flt_width sem = 2 * (2 * flt_emax sem) * flt_unit sem.
Proof. by destruct sem. Qed.
Lemma flt_exponents : flt_emax sem - flt_prec sem = flt_emin sem + 2 * flt_emax sem - 3.
Proof. by destruct sem. Qed.
Lemma flt_nan_field : 0 < flt_unit sem / 2 < flt_unit sem.
Proof. by destruct sem. Qed.

Lemma digits2_bound m : 2 ^ (Zpos (digits2_pos m) - 1) ≤ Zpos m < 2 ^ Zpos (digits2_pos m).
Proof.
  induction m as [m IH|m IH|]; [..|done]; cbn [digits2_pos]; rewrite Pos2Z.inj_succ;
    (replace (Z.succ (Zpos (digits2_pos m)) - 1) with (Z.succ (Zpos (digits2_pos m) - 1)) by lia);
    rewrite !Z.pow_succ_r by lia; lia.
Qed.

(** Subnormal and normal numbers. *)
Lemma bounded_cases m e :
  bounded (flt_prec sem) (flt_emax sem) m e = true ↔
  (Zpos m < flt_unit sem ∧ e = flt_emin sem) ∨
  (flt_unit sem ≤ Zpos m < 2 * flt_unit sem ∧
   flt_emin sem ≤ e ≤ flt_emax sem - flt_prec sem).
Proof.
  pose proof (digits2_bound m) as D. set (d := Zpos (digits2_pos m)) in *.
  assert (1 ≤ d) by lia. assert (1 ≤ flt_prec sem) by (by destruct sem).
  assert (flt_emin sem ≤ flt_emax sem - flt_prec sem) by (by destruct sem).
  unfold bounded, canonical_mantissa, fexp. fold d.
  change (SpecFloat.emin (flt_prec sem) (flt_emax sem)) with (flt_emin sem).
  rewrite andb_true_iff, Z.eqb_eq, Z.leb_le. rewrite <-flt_prec_unit. unfold flt_unit.
  assert (d < flt_prec sem ↔ Zpos m < 2 ^ (flt_prec sem - 1)) as Hd1.
  { split; intros.
    - pose proof (pow2_le d (flt_prec sem - 1)). lia.
    - destruct (decide (flt_prec sem ≤ d)); [|lia].
      pose proof (pow2_le (flt_prec sem - 1) (d - 1)). lia. }
  assert (d ≤ flt_prec sem ↔ Zpos m < 2 ^ flt_prec sem) as Hd2.
  { split; intros.
    - pose proof (pow2_le d (flt_prec sem)). lia.
    - destruct (decide (flt_prec sem < d)); [|lia].
      pose proof (pow2_le (flt_prec sem) (d - 1)). lia. }
  lia.
Qed.

Lemma flt_unpack s e m :
  0 ≤ e < 2 * flt_emax sem → 0 ≤ m < flt_unit sem →
  let b := flt_pack sem s e m in
  b mod flt_unit sem = m ∧ (b / flt_unit sem) mod (2 * flt_emax sem) = e ∧
  negb (b / flt_unit sem / (2 * flt_emax sem) =? 0) = s.
Proof.
  intros He Hm b. pose proof flt_emax_pos as HE.
  assert (b / flt_unit sem = (if s then 1 else 0) * (2 * flt_emax sem) + e) as Hd.
  { symmetry. apply (Zdiv_unique _ _ _ m); unfold b, flt_pack; lia. }
  split; [|rewrite Hd; split].
  - symmetry. apply (Zmod_unique _ _ ((if s then 1 else 0) * (2 * flt_emax sem) + e)); [lia|].
    unfold b, flt_pack. lia.
  - symmetry. by apply (Zmod_unique _ _ (if s then 1 else 0)); [|lia].
  - rewrite (Z.div_add_l _ _ e) by lia. rewrite (Z.div_small e) by lia. by destruct s.
Qed.

Lemma flt_bits_roundtrip f :
  flt_valid sem f = true → flt_of_bits sem (flt_to_bits sem f) = f.
Proof.
  pose proof flt_unit_pos as Hu. pose proof flt_emax_pos as HE. pose proof flt_nan_field as Hn.
  pose proof flt_exponents as HX.
  intros V. destruct f as [s|s| |s p e]; cbn -[flt_pack Z.div].
  - destruct (flt_unpack s 0 0) as (E1&E2&E3); [lia..|]. unfold flt_of_bits.
    rewrite E1, E2, E3. unfold flt_special. replace (0 =? 2 * flt_emax sem - 1) with false by lia.
    done.
  - destruct (flt_unpack s (flt_special sem) 0) as (E1&E2&E3); [unfold flt_special; lia..|].
    unfold flt_of_bits. by rewrite E1, E2, E3, Z.eqb_refl.
  - destruct (flt_unpack false (flt_special sem) (flt_unit sem / 2)) as (E1&E2&E3);
      [unfold flt_special; lia..|].
    unfold flt_of_bits. rewrite E1, E2, Z.eqb_refl.
    by replace (flt_unit sem / 2 =? 0) with false by lia.
  - apply bounded_cases in V. unfold flt_special in *.
    destruct (Z.ltb_spec (Zpos p) (flt_unit sem)) as [Hp|Hp].
    + destruct (flt_unpack s 0 (Zpos p)) as (E1&E2&E3); [lia..|]. unfold flt_of_bits.
      rewrite E1, E2, E3. unfold flt_special.
      replace (0 =? 2 * flt_emax sem - 1) with false by lia. cbn. f_equal. lia.
    + destruct (flt_unpack s (e - flt_emin sem + 1) (Zpos p - flt_unit sem)) as (E1&E2&E3);
        [lia..|]. unfold flt_of_bits.
      rewrite E1, E2, E3. unfold flt_special.
      replace (e - flt_emin sem + 1 =? 2 * flt_emax sem - 1) with false by lia.
      replace (e - flt_emin sem + 1 =? 0) with false by lia.
      replace (Zpos p - flt_unit sem + flt_unit sem) with (Zpos p) by lia. f_equal. lia.
Qed.

Lemma flt_to_bits_bound f :
  flt_valid sem f = true → 0 ≤ flt_to_bits sem f < 2 ^ flt_width sem.
Proof.
  pose proof flt_unit_pos as Hu. pose proof flt_emax_pos as HE. pose proof flt_nan_field as Hn.
  pose proof flt_exponents as HX. pose proof flt_sizes as HS.
  assert (∀ s e m, 0 ≤ e < 2 * flt_emax sem → 0 ≤ m < flt_unit sem →
    0 ≤ flt_pack sem s e m < 2 ^ flt_width sem) as B.
  { intros s e m ??. rewrite HS. unfold flt_pack. destruct s; nia. }
  unfold flt_valid. intros V. destruct f as [s|s| |s p e]; cbn -[flt_pack Z.div];
    unfold flt_special; [apply B; lia..|].
  apply bounded_cases in V. destruct (Z.ltb_spec (Zpos p) (flt_unit sem)); apply B; lia.
Qed.

Lemma flt_of_bits_valid b : flt_valid sem (flt_of_bits sem b) = true.
Proof.
  pose proof flt_unit_pos as Hu. pose proof flt_emax_pos as HE. pose proof flt_exponents as HX.
  unfold flt_of_bits. set (m := b mod flt_unit sem).
  set (e := (b / flt_unit sem) mod (2 * flt_emax sem)).
  assert (0 ≤ m < flt_unit sem) by (apply Z.mod_pos_bound; lia).
  assert (0 ≤ e < 2 * flt_emax sem) by (apply Z.mod_pos_bound; lia).
  unfold flt_special. destruct (Z.eqb_spec e (2 * flt_emax sem - 1)); [by destruct (m =? 0)|].
  destruct (Z.eqb_spec e 0).
  - destruct m; [done| |done]. cbn. apply bounded_cases. lia.
  - destruct (m + flt_unit sem) eqn:E; [lia| |lia]. cbn. apply bounded_cases. lia.
Qed.

(** Only infinity is above the largest number. *)
Lemma above_largest f :
  flt_valid sem f = true → SFltb (getLargest sem) f = bool_decide (f = S754_infinity false).
Proof.
  intros V. pose proof flt_unit_pos as Hu.
  pose proof flt_emax_pos as HE. pose proof flt_exponents as HX.
  assert (Zpos (Z.to_pos (2 ^ flt_prec sem - 1)) = 2 * flt_unit sem - 1) as EL by (by destruct sem).
  unfold getLargest, SFltb. set (M := Z.to_pos _) in *.
  destruct f as [[]|[]| |[] p e]; try done. cbn.
  apply bounded_cases in V. destruct (Z.compare_spec (flt_emax sem - flt_prec sem) e); [|lia|done].
  change (Pos.compare_cont Datatypes.Eq M p) with (Zpos M ?= Zpos p).
  destruct (Z.compare_spec (Zpos M) (Zpos p)); [done|lia|done].
Qed.
End facts.
