(* ===== verification/Ir.v ===== *)
(** * The part of LLVM IR that the overflow checker uses

    LLVM is not part of the repository; this file states what its language
    reference says of the instructions that compiler/Overflow.cpp inserts:
    functions as control-flow graphs, two's-complement integer instructions,
    undefined results of division, and the [IRBuilder] calls that append
    instructions to a block.  Instructions the checker does not look at are
    opaque transformers of the program's state. *)

From S2P Require Import Prelude Smt Ieee.

#[local] Open Scope Z_scope.

Inductive operand : Type :=
| OVar (x : nat)
| OConst (w z : Z).

Inductive opcode : Type := Add | Sub | Mul | UDiv | SDiv | And | Or | OtherOp (n : nat).

(** The flags of integer instructions: the result is poison if it leaves the
    unsigned ([nuw]) or the signed range ([nsw]), or if a division that is
    marked [exact] has a remainder. *)
Record int_flags : Type := { nuw : bool; nsw : bool; exact : bool }.

Definition no_flags : int_flags := {| nuw := false; nsw := false; exact := false |}.

Inductive fopcode : Type := FAdd | FSub | FMul | FDiv | FRem.

(** The fast-math flags that matter here. *)
Record fmf : Type := { nnan : bool; ninf : bool }.

(** The predicates of floating-point comparisons that are inserted, all of
    them ordered. *)
Inductive fcmp : Type := OEQ | OGT | OLT.

Inductive icmp : Type := EQ | NE | SGT | SLT | UGT | ULT.

Inductive rhs : Type :=
| RBin (op : opcode) (flags : int_flags) (a b : operand)
| RFBin (op : fopcode) (sem : fltSemantics) (flags : fmf) (a b : operand)
| RICmp (p : icmp) (a b : operand)
| RFCmp (p : fcmp) (sem : fltSemantics) (a b : operand)
| RSelect (c a b : operand)
| ROther (n : nat).

(** [res] is the SSA name of the result and [ty] its width in bits.  A
    floating-point value is its bit pattern. *)
Record instr : Type := { res : nat; ty : Z; body : rhs }.

(** Branches carry the "symros.check" metadata, if any. *)
Inductive terminator : Type :=
| Br (target : nat)
| CondBr (c : operand) (t f : nat) (tag : option string)
| TOther (n : nat).

Record block : Type := { instrs : list instr; term : option terminator }.

(** A function: its blocks, and the first unused block and SSA names. *)
Record func : Type := { blocks : gmap nat block; next_block : nat; next_var : nat }.

#[global] Instance opcode_eq_dec : EqDecision opcode.
Proof. solve_decision. Defined.

(** ** [IRBuilder] and [BasicBlock] *)
#[local] Abbreviation M := (M func).

Definition empty_block : block := {| instrs := []; term := None |}.

Definition CreateBB : M nat := λ f,
  Ok (next_block f) {| blocks := <[next_block f := empty_block]> (blocks f);
                       next_block := S (next_block f); next_var := next_var f |}.

Definition set_block (b : nat) (bl : block) : M unit := modify (λ f,
  {| blocks := <[b := bl]> (blocks f); next_block := next_block f; next_var := next_var f |}).

Definition get_block (b : nat) : M block :=
  f <- get ;;
  match blocks f !! b with
  | Some bl => ret bl
  | None => fail (Undefined "no such block")
  end.

(** Append an instruction to block [b]. *)
Definition emit (b : nat) (w : Z) (r : rhs) : M operand :=
  bl <- get_block b ;;
  f <- get ;;
  modify (λ f,
    {| blocks := <[b := {| instrs := instrs bl ++ [{| res := next_var f; ty := w; body := r |}];
                           term := term bl |}]> (blocks f);
       next_block := next_block f; next_var := S (next_var f) |}) ;;;
  ret (OVar (next_var f)).

Definition set_term (b : nat) (t : option terminator) : M unit :=
  bl <- get_block b ;; set_block b {| instrs := instrs bl; term := t |}.

(** The type of an operand: that of the instruction that defines it, for
    variables; [types] gives it. *)
Definition CreateBin (op : opcode) (b : nat) (w : Z) (x y : operand) : M operand :=
  emit b w (RBin op no_flags x y).
Definition CreateICmp (p : icmp) (b : nat) (x y : operand) : M operand :=
  emit b 1 (RICmp p x y).
Definition CreateFCmp (p : fcmp) (b : nat) (sem : fltSemantics) (x y : operand) : M operand :=
  emit b 1 (RFCmp p sem x y).
(** [ConstantFP::get(type, value)]. *)
Definition ConstantFP (sem : fltSemantics) (f : spec_float) : operand :=
  OConst (flt_width sem) (flt_to_bits sem f).
Definition CreateSelect (b : nat) (w : Z) (c x y : operand) : M operand :=
  emit b w (RSelect c x y).
Definition CreateBr (b target : nat) : M unit := set_term b (Some (Br target)).
Definition CreateCondBr (b : nat) (c : operand) (t f : nat) (tag : string) : M unit :=
  set_term b (Some (CondBr c t f (Some tag))).

(** [splitBasicBlock(NextInst)]: the instructions from index [i] on and the
    terminator move to a new block, to which [b] branches. *)
Definition splitBasicBlock (b i : nat) : M nat :=
  bl <- get_block b ;;
  c <- CreateBB ;;
  set_block c {| instrs := drop i (instrs bl); term := term bl |} ;;;
  set_block b {| instrs := take i (instrs bl); term := Some (Br c) |} ;;;
  ret c.

(** ** Instructions and their positions

    A pass holds instructions by address, of which the name of the result
    serves as the model. *)

(** [instructions(F)]; [layout] is the order of the blocks. *)
Definition instructions (layout : list nat) (f : func) : list nat :=
  layout ≫= λ b, match blocks f !! b with Some bl => res <$> instrs bl | None => [] end.

Fixpoint find_instr (x : nat) (l : list (nat * block)) : option (nat * nat) :=
  match l with
  | [] => None
  | (b, bl) :: l' =>
      match list_find (λ i, res i = x) (instrs bl) with
      | Some (i, _) => Some (b, i)
      | None => find_instr x l'
      end
  end.

(** The block in which an instruction is now, and its index. *)
Definition locate (x : nat) (f : func) : option (nat * nat) :=
  find_instr x (map_to_list (blocks f)).

(** Visiting instructions one after the other. *)
Definition visit_instr (visit : nat → nat → M unit) (x : nat) : M unit :=
  f <- get ;;
  match locate x f with
  | Some (b, i) => visit b i
  | None => fail (Undefined "use of an erased instruction")
  end.

Fixpoint visit_all (visit : nat → nat → M unit) (l : list nat) : M unit :=
  match l with
  | [] => ret tt
  | x :: l' => visit_instr visit x ;;; visit_all visit l'
  end.

(** [InstVisitor::visit] for a visitor of binary operators. *)
Definition visit_binary (visitBinaryOperator : nat → nat → M unit) (b i : nat) : M unit :=
  bl <- get_block b ;;
  match instrs bl !! i with
  | Some {| body := RBin _ _ _ _ |} | Some {| body := RFBin _ _ _ _ _ |} => visitBinaryOperator b i
  | Some _ => ret tt
  | None => fail (Undefined "no such instruction")
  end.

(** ** Semantics *)
Section semantics.
(** The effect of opaque instructions on the rest of the program's state. *)
Context {world : Type}.
Definition venv : Type := nat → option (Z * Z).
Context (other_sem : nat → venv → world → option ((Z * Z) * world)).

Definition operand_val (e : venv) (o : operand) : option (Z * Z) :=
  match o with OVar x => e x | OConst w z => Some (w, wrap w z) end.

(** [None]: the behaviour is undefined (LLVM Language Reference: division by
    zero and overflow of a signed division), or not modelled. *)
Definition bin_sem (op : opcode) (w a b : Z) : option Z :=
  match op with
  | Add => Some (wrap w (a + b))
  | Sub => Some (wrap w (a - b))
  | Mul => Some (wrap w (a * b))
  | UDiv => if b =? 0 then None else Some (a / b)
  | SDiv => if (b =? 0) || ((sgn w a =? - 2 ^ (w - 1)) && (sgn w b =? -1)) then None
            else Some (wrap w (Z.quot (sgn w a) (sgn w b)))
  | And => Some (Z.land a b)
  | Or => Some (Z.lor a b)
  | OtherOp _ => None
  end.

(** The exact results of an operation, signed and unsigned. *)
Definition exact_result (op : opcode) (a b : Z) : Z :=
  match op with Sub => a - b | Mul => a * b | _ => a + b end.

(** Whether a flag makes the result poison. *)
Definition flag_poison (op : opcode) (flags : int_flags) (w a b : Z) : bool :=
  match op with
  | Add | Sub | Mul =>
      let u := exact_result op a b in
      let z := exact_result op (sgn w a) (sgn w b) in
      (nuw flags && negb ((0 <=? u) && (u <? 2 ^ w))) ||
      (nsw flags && negb ((- 2 ^ (w - 1) <=? z) && (z <? 2 ^ (w - 1))))
  | UDiv => exact flags && negb (a mod b =? 0)
  | SDiv => exact flags && negb (Z.rem (sgn w a) (sgn w b) =? 0)
  | And | Or | OtherOp _ => false
  end.

(** Poison is not a value of the model: a branch on it is undefined, and the
    checkers branch on every result that they check. *)
Definition int_sem (op : opcode) (flags : int_flags) (w a b : Z) : option Z :=
  if flag_poison op flags w a b then None else bin_sem op w a b.

Definition icmp_sem (p : icmp) (w a b : Z) : bool :=
  match p with
  | EQ => a =? b
  | NE => negb (a =? b)
  | SGT => sgn w b <? sgn w a
  | SLT => sgn w a <? sgn w b
  | UGT => b <? a
  | ULT => a <? b
  end.

Definition fcmp_sem (p : fcmp) (x y : spec_float) : bool :=
  match p with OEQ => SFeqb x y | OGT => SFltb y x | OLT => SFltb x y end.

(** A result that a flag excludes, like an excluded operand, makes the
    instruction's value poison, which is not modelled. *)
Definition excluded (flags : fmf) (x : spec_float) : bool :=
  match x with
  | S754_nan => nnan flags
  | S754_infinity _ => ninf flags
  | _ => false
  end.

Definition fbin_sem (op : fopcode) (sem : fltSemantics) (flags : fmf) (a b : Z) : option Z :=
  let x := flt_of_bits sem a in
  let y := flt_of_bits sem b in
  let r := match op with
           | FAdd => flt_add sem x y
           | FSub => flt_sub sem x y
           | FMul => flt_mul sem x y
           | FDiv => flt_div sem x y
           | FRem => flt_rem sem x y
           end in
  if excluded flags x || excluded flags y || excluded flags r then None
  else Some (flt_to_bits sem r).

Definition bool_bit (b : bool) : Z := if b then 1 else 0.

Definition rhs_sem (e : venv) (s : world) (r : rhs) : option ((Z * Z) * world) :=
  match r with
  | RBin op flags x y =>
      match operand_val e x, operand_val e y with
      | Some (w, a), Some (w', b) =>
          if w =? w' then (λ v, ((w, v), s)) <$> int_sem op flags w a b else None
      | _, _ => None
      end
  | RFBin op sem flags x y =>
      match operand_val e x, operand_val e y with
      | Some (w, a), Some (w', b) =>
          if (w =? flt_width sem) && (w' =? flt_width sem)
          then (λ v, ((w, v), s)) <$> fbin_sem op sem flags a b else None
      | _, _ => None
      end
  | RFCmp p sem x y =>
      match operand_val e x, operand_val e y with
      | Some (w, a), Some (w', b) =>
          if (w =? flt_width sem) && (w' =? flt_width sem)
          then Some ((1, bool_bit (fcmp_sem p (flt_of_bits sem a) (flt_of_bits sem b))), s)
          else None
      | _, _ => None
      end
  | RICmp p x y =>
      match operand_val e x, operand_val e y with
      | Some (w, a), Some (w', b) =>
          if w =? w' then Some ((1, bool_bit (icmp_sem p w a b)), s) else None
      | _, _ => None
      end
  | RSelect c x y =>
      match operand_val e c, operand_val e x, operand_val e y with
      | Some (_, b), Some vx, Some vy => Some ((if b =? 0 then vy else vx), s)
      | _, _, _ => None
      end
  | ROther n => other_sem n e s
  end.

Definition bind_var (e : venv) (x : nat) (v : Z * Z) : venv :=
  λ y, if (y =? x)%nat then Some v else e y.

Fixpoint exec_instrs (l : list instr) (e : venv) (s : world) : option (venv * world) :=
  match l with
  | [] => Some (e, s)
  | i :: l' =>
      match rhs_sem e s (body i) with
      | Some (v, s') => exec_instrs l' (bind_var e (res i) v) s'
      | None => None
      end
  end.

(** A step: a whole block and the jump at its end, with the branch decision
    that the instrumentation sees. *)
Inductive block_step (f : func) :
    nat * venv * world → option (string * bool) → nat * venv * world → Prop :=
| step_br b bl e s e' s' t :
    blocks f !! b = Some bl → exec_instrs (instrs bl) e s = Some (e', s') →
    term bl = Some (Br t) → block_step f (b, e, s) None (t, e', s')
| step_cond b bl e s e' s' c t t' tag w v :
    blocks f !! b = Some bl → exec_instrs (instrs bl) e s = Some (e', s') →
    term bl = Some (CondBr c t t' tag) → operand_val e' c = Some (w, v) →
    block_step f (b, e, s) ((λ name, (name, negb (v =? 0))) <$> tag)
      ((if v =? 0 then t' else t), e', s').

(** A run and the decisions taken on the way. *)
Inductive block_steps (f : func) :
    nat * venv * world → list (string * bool) → nat * venv * world → Prop :=
| steps_refl c : block_steps f c [] c
| steps_step c1 c2 c3 ev l :
    block_step f c1 ev c2 → block_steps f c2 l c3 →
    block_steps f c1 (match ev with Some x => x :: l | None => l end) c3.

Lemma int_sem_no_flags op w a b : int_sem op no_flags w a b = bin_sem op w a b.
Proof. unfold int_sem. by destruct op. Qed.

Lemma exec_instrs_app l k e s :
  exec_instrs (l ++ k) e s =
  match exec_instrs l e s with Some (e', s') => exec_instrs k e' s' | None => None end.
Proof.
  revert e s. induction l as [|i l IH]; intros e s; cbn; [done|].
  destruct (rhs_sem e s (body i)) as [[v s']|]; [apply IH|done].
Qed.
End semantics.
