(* ===== verification/Lockstep.v ===== *)
(** * Building a block and running it in lockstep

    Reasoning about code that a pass generates with [IRBuilder]: every call
    appends an instruction whose value is known, so that a chain of blocks can
    be run while it is built.  Shared by the integer and the floating-point
    overflow checker. *)

From S2P Require Import Prelude Smt Ieee Ir.

#[local] Open Scope Z_scope.
#[local] Abbreviation M := (M func).

(** ** Building and running a block in lockstep *)
Section lockstep.
Context {world : Type} (other_sem : nat → venv → world → option ((Z * Z) * world)).
Implicit Types (f : func) (e : venv) (s : world) (o : operand).

(** [o] is defined in [f] and has value [v]. *)
Definition holds f e o (v : Z * Z) : Prop :=
  match o with OVar x => (x < next_var f)%nat | OConst _ _ => True end ∧
  operand_val e o = Some v.

(** Only block [bb] differs. *)
Definition frame (bb : nat) f f' : Prop :=
  next_block f' = next_block f ∧ (next_var f ≤ next_var f')%nat ∧
  ∀ b, b ≠ bb → blocks f' !! b = blocks f !! b.

(** Block [bb], under construction, takes the environment [e0] to [e]. *)
Definition building bb e0 s f e : Prop :=
  ∃ code, blocks f !! bb = Some {| instrs := code; term := None |} ∧
    exec_instrs other_sem code e0 s = Some (e, s).

Definition ext bb f e f' e' : Prop :=
  frame bb f f' ∧ ∀ o v, holds f e o v → holds f' e' o v.

(** [m] appends to block [bb] instructions that compute [v]. *)
Definition gen bb e0 s (m : M operand) f e (v : Z * Z) : Prop :=
  ∃ o f' e', m f = Ok o f' ∧ building bb e0 s f' e' ∧ ext bb f e f' e' ∧ holds f' e' o v.

Lemma frame_trans bb f1 f2 f3 : frame bb f1 f2 → frame bb f2 f3 → frame bb f1 f3.
Proof.
  intros (A1&B1&C1) (A2&B2&C2). split_and!; [congruence|lia|]. intros b Hb. by rewrite C2, C1.
Qed.

Lemma ext_trans bb f1 e1 f2 e2 f3 e3 : ext bb f1 e1 f2 e2 → ext bb f2 e2 f3 e3 → ext bb f1 e1 f3 e3.
Proof. intros [? H1] [? H2]. split; [by eapply frame_trans|auto]. Qed.

Lemma holds_const f e w z : holds f e (OConst w z) (w, wrap w z).
Proof. done. Qed.

Lemma holds_next f f' e o v : (next_var f ≤ next_var f')%nat → holds f e o v → holds f' e o v.
Proof. intros ? [H ?]. split; [|done]. destruct o; [lia|done]. Qed.

Lemma gen_bind bb e0 s m (k : operand → M operand) f e v u :
  gen bb e0 s m f e v →
  (∀ o f' e', building bb e0 s f' e' → ext bb f e f' e' → holds f' e' o v →
     gen bb e0 s (k o) f' e' u) →
  gen bb e0 s (bind m k) f e u.
Proof.
  intros (o&f1&e1&E&B1&X1&H1) Hk. destruct (Hk o f1 e1 B1 X1 H1) as (o2&f2&e2&E2&B2&X2&H2).
  exists o2, f2, e2. rewrite (bind_Ok _ _ _ _ _ E). split_and!; try done. by eapply ext_trans.
Qed.

Lemma gen_ret_bind {A} bb e0 s (a : A) (m : M A) k f e v :
  m f = Ok a f → gen bb e0 s (k a) f e v → gen bb e0 s (bind m k) f e v.
Proof.
  intros E (o&f1&e1&E1&H). exists o, f1, e1. by rewrite (bind_Ok _ _ _ _ _ E).
Qed.

Lemma gen_emit bb e0 s w r f e v :
  building bb e0 s f e → rhs_sem other_sem e s r = Some (v, s) → gen bb e0 s (emit bb w r) f e v.
Proof.
  intros (code&Hb&Hx) Hr. unfold gen, emit, get_block, bind, get, modify. rewrite Hb. cbn.
  eexists _, _, (bind_var e (next_var f) v). split; [done|]. split; [|split; [split|]].
  - exists (code ++ [{| res := next_var f; ty := w; body := r |}]). cbn.
    rewrite lookup_insert_eq. split; [done|].
    rewrite exec_instrs_app, Hx. cbn. by rewrite Hr.
  - split_and!; cbn; [done|lia|]. intros b Hne. by rewrite lookup_insert_ne.
  - intros o u [Ho Hv]. split; cbn; [destruct o; [lia|done]|].
    destruct o as [x|]; [|done]. cbn in *. unfold bind_var.
    by replace (x =? next_var f)%nat with false by (symmetry; apply Nat.eqb_neq; lia).
  - split; cbn; [lia|]. unfold bind_var. by rewrite Nat.eqb_refl.
Qed.

Section values.
Context (bb : nat) (e0 : venv) (s : world) (f : func) (e : venv).
Context (B : building bb e0 s f e).

Lemma gen_icmp p x y a b w :
  holds f e x (w, a) → holds f e y (w, b) →
  gen bb e0 s (CreateICmp p bb x y) f e (1, bool_bit (icmp_sem p w a b)).
Proof.
  intros [_ Hx] [_ Hy]. apply gen_emit; [done|]. cbn. by rewrite Hx, Hy, Z.eqb_refl.
Qed.

Lemma gen_bin op t x y a b v w :
  holds f e x (w, a) → holds f e y (w, b) → bin_sem op w a b = Some v →
  gen bb e0 s (CreateBin op bb t x y) f e (w, v).
Proof.
  intros [_ Hx] [_ Hy] Hv. apply gen_emit; [done|]. cbn. by rewrite Hx, Hy, Z.eqb_refl, int_sem_no_flags, Hv.
Qed.

Lemma gen_and x y p q t :
  holds f e x (1, bool_bit p) → holds f e y (1, bool_bit q) →
  gen bb e0 s (CreateBin And bb t x y) f e (1, bool_bit (p && q)).
Proof. intros. eapply gen_bin; [done..|]. by destruct p, q. Qed.

Lemma gen_or x y p q t :
  holds f e x (1, bool_bit p) → holds f e y (1, bool_bit q) →
  gen bb e0 s (CreateBin Or bb t x y) f e (1, bool_bit (p || q)).
Proof. intros. eapply gen_bin; [done..|]. by destruct p, q. Qed.

Lemma gen_select c x y t p u v w :
  holds f e c (1, bool_bit p) → holds f e x (w, u) → holds f e y (w, v) →
  gen bb e0 s (CreateSelect bb t c x y) f e (w, if p then u else v).
Proof.
  intros [_ Hc] [_ Hx] [_ Hy]. apply gen_emit; [done|]. cbn. rewrite Hc, Hx, Hy.
  by destruct p.
Qed.

Lemma gen_add x y t a b w :
  holds f e x (w, a) → holds f e y (w, b) →
  gen bb e0 s (CreateBin Add bb t x y) f e (w, wrap w (a + b)).
Proof. intros. by eapply gen_bin. Qed.
Lemma gen_sub x y t a b w :
  holds f e x (w, a) → holds f e y (w, b) →
  gen bb e0 s (CreateBin Sub bb t x y) f e (w, wrap w (a - b)).
Proof. intros. by eapply gen_bin. Qed.
Lemma gen_mul x y t a b w :
  holds f e x (w, a) → holds f e y (w, b) →
  gen bb e0 s (CreateBin Mul bb t x y) f e (w, wrap w (a * b)).
Proof. intros. by eapply gen_bin. Qed.
End values.

Lemma gen_eq bb e0 s m f e v u : gen bb e0 s m f e v → v = u → gen bb e0 s m f e u.
Proof. by intros ? ->. Qed.
End lockstep.

Create HintDb ir.
#[export] Hint Resolve gen_icmp gen_and gen_or gen_select gen_add gen_sub gen_mul holds_const : ir.
#[export] Hint Resolve gen_bin | 20 : ir.

(** The next instruction: its value is found in the database, and what was
    known of the operands is carried over. *)
Ltac gen_step n :=
  eapply gen_bind;
  [solve [eauto with ir]
  |let f := fresh "f" in let e := fresh "e" in let B := fresh "B" in
   let X := fresh "X" in let H := fresh "H" in
   intros n f e B X H;
   repeat match goal with
   | Y : holds ?f0 ?e0 _ _, X : ext _ ?f0 ?e0 _ _ |- _ => apply (proj2 X) in Y
   end; clear X].

(** ** The chain of checks *)
Section chain.
Context {world : Type} (other_sem : nat → venv → world → option ((Z * Z) * world)).

(** Block [bb] of [f], run from [e], ends in a check with outcome [v] and
    continues in [t]. *)
Definition check_block (f : func) (bb : nat) (e : venv) (s : world) (tag : string)
    (v : bool) (t : nat) (e' : venv) : Prop :=
  ∃ code c, blocks f !! bb = Some {| instrs := code; term := Some (CondBr c t t (Some tag)) |} ∧
    exec_instrs other_sem code e s = Some (e', s) ∧
    operand_val e' c = Some (1, bool_bit v).

Lemma check_block_step f bb e s tag v t e' :
  check_block f bb e s tag v t e' →
  block_step other_sem f (bb, e, s) (Some (tag, v)) (t, e', s).
Proof.
  intros (code&c&Hb&Hx&Hc).
  pose proof (step_cond other_sem f bb _ e s e' s c t t (Some tag) 1 (bool_bit v) Hb Hx eq_refl Hc) as H.
  by destruct v.
Qed.

Lemma check_block_frame f f' b bb e s tag v t e' :
  frame b f f' → bb ≠ b → check_block f bb e s tag v t e' → check_block f' bb e s tag v t e'.
Proof. intros (_&_&F) ? (code&c&Hb&H). exists code, c. by rewrite F. Qed.

(** Build a check in the empty block [bb]. *)
Lemma build_check {B} bb m t tag (k : M B) f e s v :
  blocks f !! bb = Some empty_block →
  (building other_sem bb e s f e → gen other_sem bb e s m f e (1, bool_bit v)) →
  ∃ f' e', (c <- m ;; CreateCondBr bb c t t tag ;;; k) f = k f' ∧
    ext bb f e f' e' ∧ check_block f' bb e s tag v t e'.
Proof.
  intros Hb Hm. destruct Hm as (o&f1&e1&E1&(code&Hb1&Hx)&[(F1&F2&F3) X]&Ho&Hv).
  { exists []. done. }
  eexists _, e1. rewrite (bind_Ok _ _ _ _ _ E1).
  unfold CreateCondBr, set_term, set_block, get_block, seq, bind, get, modify. rewrite Hb1. cbn.
  split; [done|]. split.
  - split; [split_and!; cbn; [done|done|]|].
    + intros b Hne. rewrite lookup_insert_ne by done. auto.
    + intros o' v' H. by apply X in H as [? ?].
  - exists code, o. cbn. by rewrite lookup_insert_eq.
Qed.
(** ** The setup of the chain *)
Definition put_block (b : nat) (bl : block) (f : func) : func :=
  {| blocks := <[b := bl]> (blocks f); next_block := next_block f; next_var := next_var f |}.
Definition add_block (f : func) : func :=
  {| blocks := <[next_block f := empty_block]> (blocks f);
     next_block := S (next_block f); next_var := next_var f |}.

Lemma get_block_ok b bl f : blocks f !! b = Some bl → get_block b f = Ok bl f.
Proof. intros H. unfold get_block, bind, get. by rewrite H. Qed.

Lemma set_term_ok b t bl f :
  blocks f !! b = Some bl →
  set_term b t f = Ok tt (put_block b {| instrs := instrs bl; term := t |} f).
Proof.
  intros H. unfold set_term. by rewrite (bind_Ok _ _ _ _ _ (get_block_ok _ _ _ H)).
Qed.

Lemma splitBasicBlock_ok b i bl f :
  blocks f !! b = Some bl → (∀ c, (next_block f ≤ c)%nat → blocks f !! c = None) →
  splitBasicBlock b i f = Ok (next_block f)
    (put_block b {| instrs := take i (instrs bl); term := Some (Br (next_block f)) |}
      (put_block (next_block f) {| instrs := drop i (instrs bl); term := term bl |}
        (add_block f))).
Proof.
  intros H _. unfold splitBasicBlock.
  by rewrite (bind_Ok _ _ _ _ _ (get_block_ok _ _ _ H)).
Qed.

Lemma add_blocks_lookup k f c :
  blocks (Nat.iter k add_block f) !! c =
  if decide (next_block f ≤ c < k + next_block f)%nat then Some empty_block else blocks f !! c.
Proof.
  assert (∀ j, next_block (Nat.iter j add_block f) = j + next_block f)%nat as N.
  { induction j; cbn; [done|]. by f_equal. }
  induction k as [|k IH]; cbn -[Nat.iter]; [by rewrite decide_False by lia|].
  change (Nat.iter (S k) add_block f) with (add_block (Nat.iter k add_block f)). cbn -[Nat.iter].
  rewrite N, lookup_insert, IH. repeat case_decide; done || lia.
Qed.

(** The function after the setup: [n] continues the block, [n + 1] to [n + k]
    are empty and the original block jumps to the first of them. *)
Record set_up (k : nat) (f : func) (b i : nat) (bl : block) (f1 : func) : Prop := {
  setup_origin : blocks f1 !! b =
    Some {| instrs := take (S i) (instrs bl); term := Some (Br (S (next_block f))) |};
  setup_cont : blocks f1 !! next_block f =
    Some {| instrs := drop (S i) (instrs bl); term := term bl |};
  setup_empty c : (next_block f < c ≤ k + next_block f)%nat → blocks f1 !! c = Some empty_block;
  setup_other c : c ≠ b → (c < next_block f)%nat → blocks f1 !! c = blocks f !! c;
  setup_none c : (k + next_block f < c)%nat → blocks f1 !! c = None;
  setup_var : next_var f1 = next_var f;
  setup_next : next_block f1 = (S k + next_block f)%nat;
}.

Lemma set_up_ok k f b i bl :
  blocks f !! b = Some bl → (∀ c, (next_block f ≤ c)%nat → blocks f !! c = None) →
  set_up k f b i bl
    (put_block b {| instrs := take (S i) (instrs bl); term := Some (Br (S (next_block f))) |}
      (Nat.iter k add_block
        (put_block b {| instrs := take (S i) (instrs bl); term := None |}
          (put_block b {| instrs := take (S i) (instrs bl); term := Some (Br (next_block f)) |}
            (put_block (next_block f) {| instrs := drop (S i) (instrs bl); term := term bl |}
              (add_block f)))))).
Proof.
  intros Hb Hn.
  assert (b < next_block f)%nat as Hlt.
  { destruct (decide (b < next_block f)%nat); [done|]. rewrite Hn in Hb; [done|lia]. }
  split; cbn -[Nat.iter].
  - by rewrite lookup_insert_eq.
  - rewrite lookup_insert_ne by lia. rewrite add_blocks_lookup. cbn.
    rewrite decide_False by lia. repeat (rewrite lookup_insert_ne by lia).
    by rewrite lookup_insert_eq.
  - intros c Hc. rewrite lookup_insert_ne by lia. rewrite add_blocks_lookup. cbn.
    by rewrite decide_True by lia.
  - intros c Hc Hlc. rewrite lookup_insert_ne by done. rewrite add_blocks_lookup. cbn.
    rewrite decide_False by lia. by repeat (rewrite lookup_insert_ne by lia).
  - intros c Hc. rewrite lookup_insert_ne by lia. rewrite add_blocks_lookup. cbn.
    rewrite decide_False by lia. repeat (rewrite lookup_insert_ne by lia). apply Hn. lia.
  - by induction k.
  - induction k as [|k IH]; cbn; [done|]. by f_equal.
Qed.

(** A run, and the blocks it goes through. *)
Inductive visits (f : func) :
    nat * venv * world → list (string * bool) → list nat → nat * venv * world → Prop :=
| visits_nil c : visits f c [] [] c
| visits_cons b e s ev c l vs c' :
    block_step other_sem f (b, e, s) ev c → visits f c l vs c' →
    visits f (b, e, s) (match ev with Some x => x :: l | None => l end) (b :: vs) c'.

Lemma visits_steps f c l vs c' : visits f c l vs c' → block_steps other_sem f c l c'.
Proof. induction 1; [constructor|by eapply steps_step]. Qed.

(** Building the rest of the chain, [K], and then running it from block [bb]
    to block [n] takes the decisions [l]; only the blocks [todo] change, and
    operands keep their values. *)
Definition runs (n : nat) (s : world) (K : M unit) (f : func) (e : venv) (bb : nat)
    (l : list (string * bool)) (todo : list nat) : Prop :=
  ∃ f' e' vs, K f = Ok tt f' ∧ visits f' (bb, e, s) l vs (n, e', s) ∧ vs ⊆ todo ∧
    (∀ c, c ∉ todo → blocks f' !! c = blocks f !! c) ∧
    ∀ o v, holds f e o v → holds f' e' o v.

Section runs.
Context (n : nat) (s : world) (bb : nat) (m : M operand) (t : nat) (tag : string) (v : bool).
Context (f : func) (e : venv) (l : list (string * bool)) (todo : list nat).
Context (Hbb : blocks f !! bb = Some empty_block) (Hnew : bb ∉ todo).
Context (Hm : building other_sem bb e s f e → gen other_sem bb e s m f e (1, bool_bit v)).

Lemma runs_check K :
  (∀ f' e', (∀ c, c ≠ bb → blocks f' !! c = blocks f !! c) →
     (∀ o u, holds f e o u → holds f' e' o u) → runs n s K f' e' t l todo) →
  runs n s (c <- m ;; CreateCondBr bb c t t tag ;;; K) f e bb ((tag, v) :: l) (bb :: todo).
Proof.
  intros HK. destruct (build_check bb m t tag K f e s v Hbb Hm) as (f1&e1&E&[(N&V&F) X]&C).
  destruct (HK f1 e1 F X) as (f2&e2&vs&E2&St&V2&S2&X2).
  exists f2, e2, (bb :: vs). rewrite E. split_and!; [done|..].
  - apply (visits_cons f2 bb e s (Some (tag, v)) (t, e1, s)); [|done].
    apply check_block_step. destruct C as (code&c&Hc&?). exists code, c. by rewrite S2.
  - set_solver.
  - intros c Hc. apply not_elem_of_cons in Hc as [??]. rewrite S2, F; done.
  - auto.
Qed.

(** A block that no branch reaches. *)
Lemma runs_unreached K b0 :
  (∀ f', (∀ c, c ≠ bb → blocks f' !! c = blocks f !! c) →
     (∀ o u, holds f e o u → holds f' e o u) → runs n s K f' e b0 l todo) →
  runs n s (c <- m ;; CreateCondBr bb c t t tag ;;; K) f e b0 l (bb :: todo).
Proof.
  intros HK. destruct (build_check bb m t tag K f e s v Hbb Hm) as (f1&e1&E&[(N&V&F) X]&C).
  destruct (HK f1 F) as (f2&e2&vs&E2&St&V2&S2&X2).
  { intros o u. by apply holds_next. }
  exists f2, e2, vs. rewrite E. split_and!; [done|done|set_solver| |].
  - intros c Hc. apply not_elem_of_cons in Hc as [??]. rewrite S2, F; done.
  - intros o u Ho. by apply X2, (holds_next f).
Qed.
End runs.

Lemma runs_done n s f e : runs n s (ret tt) f e n [] [].
Proof. exists f, e, []. split_and!; [done|constructor|done|done|done]. Qed.

Lemma runs_ext n s K K' f e bb l todo :
  K f = K' f → runs n s K' f e bb l todo → runs n s K f e bb l todo.
Proof. intros E (f'&e'&vs&H). exists f', e', vs. by rewrite E. Qed.

Lemma runs_last n s bb m tag v f e :
  blocks f !! bb = Some empty_block →
  (building other_sem bb e s f e → gen other_sem bb e s m f e (1, bool_bit v)) →
  runs n s (c <- m ;; CreateCondBr bb c n n tag) f e bb [(tag, v)] [bb].
Proof.
  intros Hbb Hm. apply (runs_ext _ _ _ (c <- m ;; CreateCondBr bb c n n tag ;;; ret tt)).
  - unfold bind. destruct (m f) as [o f1|]; [|done].
    by destruct (CreateCondBr bb o n n tag f1) as [[] ?|].
  - apply (runs_check _ _ _ _ _ _ v); [done|set_solver|done|]. intros. apply runs_done.
Qed.

(** ** What an inserted chain of checks amounts to *)

(** The function after a chain has been inserted behind instruction [i] of
    block [b]: the block ends there, [next_block f] continues it, the chain
    starts in the block after that, the other blocks are as before. *)
Record inserted (f : func) (b i : nat) (bl : block) (f' : func) : Prop := {
  inserted_origin : blocks f' !! b =
    Some {| instrs := take (S i) (instrs bl); term := Some (Br (S (next_block f))) |};
  inserted_cont : blocks f' !! next_block f =
    Some {| instrs := drop (S i) (instrs bl); term := term bl |};
  inserted_other c : c ≠ b → (c < next_block f)%nat → blocks f' !! c = blocks f !! c;
}.

(** The chain, run with variables [e], takes the decisions [l] and leaves the
    variables of [f] and the rest of the state alone. *)
Definition checked (f f' : func) (e : venv) (s : world) (l : list (string * bool)) : Prop :=
  ∃ e' vs, visits f' (S (next_block f), e, s) l vs (next_block f, e', s) ∧
    Forall (λ c, next_block f < c)%nat vs ∧
    ∀ o v, holds f e o v → operand_val e' o = Some v.

Lemma set_up_inserted k f b i bl f1 f' todo :
  blocks f !! b = Some bl → (∀ c, (next_block f ≤ c)%nat → blocks f !! c = None) →
  set_up k f b i bl f1 → Forall (λ c, next_block f < c)%nat todo →
  (∀ c, c ∉ todo → blocks f' !! c = blocks f1 !! c) → inserted f b i bl f'.
Proof.
  intros Hb Hn U Ht S. rewrite Forall_forall in Ht.
  assert (b < next_block f)%nat as Hlt.
  { destruct (decide (b < next_block f)%nat); [done|]. rewrite Hn in Hb; [done|lia]. }
  split.
  - rewrite S; [apply (setup_origin _ _ _ _ _ _ U)|]. intros H%Ht. lia.
  - rewrite S; [apply (setup_cont _ _ _ _ _ _ U)|]. intros H%Ht. lia.
  - intros c Hc Hl. rewrite S; [by apply (setup_other _ _ _ _ _ _ U)|]. intros H%Ht. lia.
Qed.

Lemma runs_checked k f b i bl f1 e s V l todo :
  blocks f !! b = Some bl → (∀ c, (next_block f ≤ c)%nat → blocks f !! c = None) →
  set_up k f b i bl f1 → Forall (λ c, next_block f < c)%nat todo →
  runs (next_block f) s (λ _, V) f1 e (S (next_block f)) l todo →
  ∃ f', V = Ok tt f' ∧ inserted f b i bl f' ∧ checked f f' e s l.
Proof.
  intros Hb Hn U Ht (f'&e'&vs&E&St&Hv&S&X). exists f'. split_and!; [done| |].
  - by eapply set_up_inserted.
  - exists e', vs. split_and!; [done| |].
    + rewrite Forall_forall in *. eauto.
    + intros o v Ho. apply (holds_next _ f1) in Ho.
      * by apply X in Ho as [_ ?].
      * by rewrite (setup_var _ _ _ _ _ _ U).
Qed.

Lemma checked_runs f b i bl f' e s e1 s1 l :
  inserted f b i bl f' → exec_instrs other_sem (take (S i) (instrs bl)) e s = Some (e1, s1) →
  checked f f' e1 s1 l →
  ∃ e2, block_steps other_sem f' (b, e, s) l (next_block f, e2, s1) ∧
    ∀ o v, holds f e1 o v → operand_val e2 o = Some v.
Proof.
  intros I Hx (e2&vs&St&_&X). exists e2. split; [|done].
  apply (steps_step other_sem f' _ (S (next_block f), e1, s1) _ None); [|by eapply visits_steps].
  by eapply step_br; [apply (inserted_origin _ _ _ _ _ I)|exact Hx|].
Qed.
End chain.

(** The next check of a chain: its block is empty, its condition is the lemma's. *)
Ltac frames := repeat match goal with
  | S : ∀ c, c ≠ _ → blocks ?f !! c = _ |- blocks ?f !! _ = _ => rewrite S by lia; clear S
  end.
Ltac unbuilt := frames; match goal with
  | E : ∀ c, _ → _ !! c = Some empty_block |- _ => apply E; lia
  end.
Ltac fresh_block := rewrite !elem_of_cons, elem_of_nil; lia.
Tactic Notation "run_check" constr(v) uconstr(lem) :=
  apply (runs_check _ _ _ _ _ _ _ v); [unbuilt|fresh_block|intros ?; eapply lem; eauto 10|intros].
