(* ===== verification/OverflowChecker.v ===== *)
(** * The overflow checker

    Models compiler/Overflow.cpp: for every 32-bit addition, subtraction,
    multiplication and division, [visitBinaryOperator] splits the block after
    the instruction and inserts a chain of blocks that branch on overflow and
    on exceptional results, both successors of each branch being the same; the
    tag of the branch tells the symbolic executor which error to look for. *)

From S2P Require Import Prelude Smt Ir.

#[local] Open Scope Z_scope.
#[local] Abbreviation M := (M func).

(** The data members; they have no initialisers. *)
Record checker : Type := {
  sementic_threshold : option Z;
  sementic_tolerance : option Z;
}.

Definition new_checker : checker :=
  {| sementic_threshold := None; sementic_tolerance := None |}.

Definition setSementicTolerance (tolerance : Z) (c : checker) : checker :=
  {| sementic_threshold := Some tolerance; sementic_tolerance := sementic_tolerance c |}.

Definition setSementicThreshold (threshold : Z) (c : checker) : checker :=
  {| sementic_threshold := Some threshold; sementic_tolerance := sementic_tolerance c |}.

(** Reading an [int] member, and [int] arithmetic. *)
Definition read_int (v : option Z) : M Z :=
  match v with
  | Some z => ret z
  | None => fail (Undefined "read of an uninitialised member")
  end.

Definition int_result (z : Z) : M Z :=
  if (- 2 ^ 31 <=? z) && (z <? 2 ^ 31) then ret z
  else fail (Undefined "signed integer overflow").

(** ** The conditions; [bb] is the block of the builder, [w] the width of the
    operands *)
Section conditions.
Variables (bb : nat) (w : Z).

Definition INT_MAX_V : operand := OConst w (2 ^ (w - 1) - 1).
Definition INT_MIN_V : operand := OConst w (- 2 ^ (w - 1)).
Definition ZERO : operand := OConst w 0.

Definition getAddOverflowCondition (a b : operand) : M operand :=
  b_gt_0 <- CreateICmp SGT bb b ZERO ;;
  intmax_minus_b <- CreateBin Sub bb w INT_MAX_V b ;;
  a_gt_intmax_minus_b <- CreateICmp SGT bb a intmax_minus_b ;;
  pos_overflow <- CreateBin And bb 1 b_gt_0 a_gt_intmax_minus_b ;;
  b_lt_0 <- CreateICmp SLT bb b ZERO ;;
  intmin_minus_b <- CreateBin Sub bb w INT_MIN_V b ;;
  a_lt_intmin_minus_b <- CreateICmp SLT bb a intmin_minus_b ;;
  neg_overflow <- CreateBin And bb 1 b_lt_0 a_lt_intmin_minus_b ;;
  signed_overflow <- CreateBin Or bb 1 pos_overflow neg_overflow ;;
  unsigned_sum <- CreateBin Add bb w a b ;;
  unsigned_overflow <- CreateICmp ULT bb unsigned_sum a ;;
  CreateBin Or bb 1 signed_overflow unsigned_overflow.

Definition getSubOverflowCondition (a b : operand) : M operand :=
  b_lt_0 <- CreateICmp SLT bb b ZERO ;;
  intmax_plus_b <- CreateBin Add bb w INT_MAX_V b ;;
  a_gt_intmax_plus_b <- CreateICmp SGT bb a intmax_plus_b ;;
  pos_overflow <- CreateBin And bb 1 b_lt_0 a_gt_intmax_plus_b ;;
  b_gt_0 <- CreateICmp SGT bb b ZERO ;;
  intmin_plus_b <- CreateBin Add bb w INT_MIN_V b ;;
  a_lt_intmin_plus_b <- CreateICmp SLT bb a intmin_plus_b ;;
  neg_overflow <- CreateBin And bb 1 b_gt_0 a_lt_intmin_plus_b ;;
  signed_overflow <- CreateBin Or bb 1 pos_overflow neg_overflow ;;
  unsigned_overflow <- CreateICmp ULT bb a b ;;
  CreateBin Or bb 1 signed_overflow unsigned_overflow.

Definition UINT_MAX_V : operand := OConst w (2 ^ w - 1).

Definition getMulOverflowCondition (a b : operand) : M operand :=
  a_ne_0 <- CreateICmp NE bb a ZERO ;;
  prod <- CreateBin Mul bb w a b ;;
  safe_a <- CreateSelect bb w a_ne_0 a (OConst w 1) ;;
  div <- CreateBin SDiv bb w prod safe_a ;;
  div_ne_b <- CreateICmp NE bb div b ;;
  signed_overflow <- CreateBin And bb 1 a_ne_0 div_ne_b ;;
  b_ne_0 <- CreateICmp NE bb b ZERO ;;
  safe_b <- CreateSelect bb w b_ne_0 b (OConst w 1) ;;
  umax_div_b <- CreateBin UDiv bb w UINT_MAX_V safe_b ;;
  a_gt <- CreateICmp UGT bb a umax_div_b ;;
  unsigned_overflow <- CreateBin And bb 1 b_ne_0 a_gt ;;
  CreateBin Or bb 1 signed_overflow unsigned_overflow.

Definition getDividedByZeroCondition (b : operand) : M operand := CreateICmp EQ bb b ZERO.

Variable (ck : checker).

Definition getSementicSignedBoundCondition (result : operand) : M operand :=
  t <- read_int (sementic_threshold ck) ;;
  CreateICmp SGT bb result (OConst w t).

Definition getSementicUnsignedBoundCondition (result : operand) : M operand :=
  t <- read_int (sementic_threshold ck) ;;
  CreateICmp UGT bb result (OConst w t).

Definition getSementicSignedMinusBoundCondition (result : operand) : M operand :=
  t <- read_int (sementic_threshold ck) ;;
  m <- int_result (- t) ;;
  CreateICmp SLT bb result (OConst w m).

Definition getSementicMaxBoundCondition (result : operand) : M operand :=
  t <- read_int (sementic_tolerance ck) ;;
  CreateICmp UGT bb result (OConst w (u32 (4294967294 - t))).

Definition getSementicMinBoundCondition (result : operand) : M operand :=
  t <- read_int (sementic_tolerance ck) ;;
  CreateICmp ULT bb result (OConst w t).

Definition getSementicSignedMaxBoundCondition (result : operand) : M operand :=
  t <- read_int (sementic_tolerance ck) ;;
  m <- int_result (2147483646 - t) ;;
  CreateICmp SGT bb result (OConst w m).

Definition getSementicSignedMinBoundCondition (result : operand) : M operand :=
  t <- read_int (sementic_tolerance ck) ;;
  m <- int_result (-2147483647 + t) ;;
  CreateICmp SLT bb result (OConst w m).
End conditions.

(** ** [visitBinaryOperator] *)
Section visit.
(** Static types of the variables. *)
Context (types : nat → option Z).

Definition operand_type (o : operand) : option Z :=
  match o with OVar x => types x | OConst w _ => Some w end.

Definition checked_opcode (op : opcode) : bool :=
  match op with Add | Sub | Mul | UDiv | SDiv => true | _ => false end.

Definition overflow_tag (op : opcode) : string :=
  match op with
  | SDiv | UDiv => "int_divided_by_zero"
  | _ => "int_overflow"
  end.

Definition overflow_condition (bb : nat) (w : Z) (op : opcode) (a b : operand)
    : M (option operand) :=
  match op with
  | Add => c <- getAddOverflowCondition bb w a b ;; ret (Some c)
  | Sub => c <- getSubOverflowCondition bb w a b ;; ret (Some c)
  | Mul => c <- getMulOverflowCondition bb w a b ;; ret (Some c)
  | SDiv | UDiv => c <- getDividedByZeroCondition bb w b ;; ret (Some c)
  | _ => ret None
  end.

(** [i] is the index of the instruction in block [OriginBB]. *)
Definition visitBinaryOperator (ck : checker) (OriginBB i : nat) : M unit :=
  bl <- get_block OriginBB ;;
  match instrs bl !! i with
  | Some {| res := x; ty := w; body := RBin op _ a b |} =>
      if negb (bool_decide (operand_type a = Some 32) && bool_decide (operand_type b = Some 32))
      then ret tt
      else if negb (checked_opcode op) then ret tt
      else if bool_decide (instrs bl !! S i = None ∧ term bl = None) then ret tt
      else
        ContBB <- splitBasicBlock OriginBB (S i) ;;
        set_term OriginBB None ;;;
        OverflowCheckBB <- CreateBB ;;
        SignedBoundCheckBB <- CreateBB ;;
        UnsignedBoundCheckBB <- CreateBB ;;
        SignedMinusBoundCheckBB <- CreateBB ;;
        MaxBoundCheckBB <- CreateBB ;;
        MinBoundCheckBB <- CreateBB ;;
        SignedMaxBoundCheckBB <- CreateBB ;;
        SignedMinBoundCheckBB <- CreateBB ;;
        CreateBr OriginBB OverflowCheckBB ;;;
        OverflowCond <- overflow_condition OverflowCheckBB 32 op a b ;;
        match OverflowCond with
        | None => ret tt
        | Some OverflowCond =>
            let I := OVar x in
            CreateCondBr OverflowCheckBB OverflowCond SignedBoundCheckBB
              SignedBoundCheckBB (overflow_tag op) ;;;
            c <- getSementicSignedBoundCondition SignedBoundCheckBB w ck I ;;
            CreateCondBr SignedBoundCheckBB c UnsignedBoundCheckBB UnsignedBoundCheckBB
              "int_exceptional_signed_value" ;;;
            c <- getSementicUnsignedBoundCondition UnsignedBoundCheckBB w ck I ;;
            CreateCondBr UnsignedBoundCheckBB c SignedMinusBoundCheckBB
              SignedMinusBoundCheckBB "int_exceptional_unsigned_value" ;;;
            c <- getSementicSignedMinusBoundCondition SignedMinusBoundCheckBB w ck I ;;
            CreateCondBr SignedMinusBoundCheckBB c MaxBoundCheckBB MaxBoundCheckBB
              "int_exceptional_signed_minus_value" ;;;
            c <- getSementicMaxBoundCondition MaxBoundCheckBB w ck I ;;
            CreateCondBr MaxBoundCheckBB c SignedMaxBoundCheckBB SignedMaxBoundCheckBB
              "int_exceptional_max_value" ;;;
            c <- getSementicMinBoundCondition MinBoundCheckBB w ck I ;;
            CreateCondBr MinBoundCheckBB c SignedMaxBoundCheckBB SignedMaxBoundCheckBB
              "int_exceptional_min_value" ;;;
            c <- getSementicSignedMaxBoundCondition SignedMaxBoundCheckBB w ck I ;;
            CreateCondBr SignedMaxBoundCheckBB c SignedMinBoundCheckBB SignedMinBoundCheckBB
              "int_exceptional_signed_max_value" ;;;
            c <- getSementicSignedMinBoundCondition SignedMinBoundCheckBB w ck I ;;
            CreateCondBr SignedMinBoundCheckBB c ContBB ContBB
              "int_exceptional_signed_min_value"
        end
  (* The operands are not integers. *)
  | Some {| body := RFBin _ _ _ _ _ |} => ret tt
  | _ => fail (Undefined "not a binary operator")
  end.
End visit.
