(* ===== verification/OverflowSpec.v ===== *)
(** * What the overflow checks decide

    The conditions that compiler/Overflow.cpp builds, run while they are
    generated (Lockstep.v): each computes the overflow it tests for, and the
    blocks compose to a chain that runs from the checked instruction to the
    rest of its block without changing the program's variables. *)

From S2P Require Import Prelude Smt Ir Lockstep OverflowChecker.

#[local] Open Scope Z_scope.
#[local] Abbreviation M := (M func).

(** ** The conditions decide overflow *)
Definition add_overflows (w a b : Z) : bool :=
  negb ((- 2 ^ (w - 1) <=? sgn w a + sgn w b) && (sgn w a + sgn w b <? 2 ^ (w - 1))) ||
  (2 ^ w <=? a + b).
Definition sub_overflows (w a b : Z) : bool :=
  negb ((- 2 ^ (w - 1) <=? sgn w a - sgn w b) && (sgn w a - sgn w b <? 2 ^ (w - 1))) ||
  (a <? b).
Definition mul_overflows (w a b : Z) : bool :=
  negb ((- 2 ^ (w - 1) <=? sgn w a * sgn w b) && (sgn w a * sgn w b <? 2 ^ (w - 1))) ||
  (2 ^ w <=? a * b).

(** Guarded comparisons: the guard keeps the wrapped bound in range. *)
Section compare.
Context (w a b : Z).
Context (Hw : 1 < w) (Ha : 0 ≤ a < 2 ^ w) (Hb : 0 ≤ b < 2 ^ w).

Lemma sgn_zero : sgn w (wrap w 0) = 0.
Proof. rewrite sgn_wrap; [done|lia|]. pose proof (Z.pow_pos_nonneg 2 (w - 1)). lia. Qed.

Lemma icmp_guarded_sub k p :
  (p = SGT ∧ k = 2 ^ (w - 1) - 1 ∨ p = SLT ∧ k = - 2 ^ (w - 1)) →
  icmp_sem p w b (wrap w 0) && icmp_sem p w a (wrap w (wrap w k - b)) =
  icmp_sem p w b (wrap w 0) &&
    match p with SGT => k - sgn w b <? sgn w a | _ => sgn w a <? k - sgn w b end.
Proof.
  intros Hp. pose proof (sgn_bound w b). pose proof sgn_zero as Z0.
  replace (wrap w (wrap w k - b)) with (wrap w (k - sgn w b)).
  2: { rewrite <-(wrap_sgn w b) at 2 by lia. by rewrite wrap_sub. }
  destruct Hp as [[-> ->]|[-> ->]]; cbn; rewrite Z0.
  - destruct (Z.ltb_spec 0 (sgn w b)); [|done]. by rewrite sgn_wrap by lia.
  - destruct (Z.ltb_spec (sgn w b) 0); [|done]. by rewrite sgn_wrap by lia.
Qed.

Lemma icmp_guarded_add k p q :
  (p = SLT ∧ q = SGT ∧ k = 2 ^ (w - 1) - 1 ∨ p = SGT ∧ q = SLT ∧ k = - 2 ^ (w - 1)) →
  icmp_sem p w b (wrap w 0) && icmp_sem q w a (wrap w (wrap w k + b)) =
  icmp_sem p w b (wrap w 0) &&
    match p with SLT => k + sgn w b <? sgn w a | _ => sgn w a <? k + sgn w b end.
Proof.
  intros Hp. pose proof (sgn_bound w b). pose proof sgn_zero as Z0.
  replace (wrap w (wrap w k + b)) with (wrap w (k + sgn w b)).
  2: { rewrite <-(wrap_sgn w b) at 2 by lia. by rewrite wrap_add. }
  destruct Hp as [(->&->&->)|(->&->&->)]; cbn; rewrite Z0.
  - destruct (Z.ltb_spec (sgn w b) 0); [|done]. by rewrite sgn_wrap by lia.
  - destruct (Z.ltb_spec 0 (sgn w b)); [|done]. by rewrite sgn_wrap by lia.
Qed.

Lemma ult_sum : icmp_sem ULT w (wrap w (a + b)) a = (2 ^ w <=? a + b).
Proof.
  cbn. unfold wrap. destruct (Z.leb_spec (2 ^ w) (a + b)).
  - replace ((a + b) mod 2 ^ w) with (a + b - 2 ^ w); [lia|].
    apply (Zmod_unique _ _ 1); lia.
  - rewrite Z.mod_small by lia. lia.
Qed.

Lemma mod_eq_diff m u v : 0 < m → v mod m = u mod m → ∃ k, u = v + k * m.
Proof.
  intros Hm E. pose proof (Z.div_mod u m ltac:(lia)) as D1.
  pose proof (Z.div_mod v m ltac:(lia)) as D2. exists (u / m - v / m).
  rewrite E in D2. revert D1 D2. generalize (u / m) as q1, (v / m) as q2, (u mod m) as r. lia.
Qed.

(** The quotient of the wrapped product recovers [b] exactly when nothing was
    lost, and the division does not trap. *)
Lemma signed_product_check :
  a ≠ 0 → ¬ (sgn w a = -1 ∧ sgn w b = - 2 ^ (w - 1)) →
  bin_sem SDiv w (wrap w (a * b)) a =
    Some (wrap w (Z.quot (sgn w (wrap w (a * b))) (sgn w a))) ∧
  (wrap w (Z.quot (sgn w (wrap w (a * b))) (sgn w a)) = b ↔
   - 2 ^ (w - 1) ≤ sgn w a * sgn w b < 2 ^ (w - 1)).
Proof.
  intros Ha0 Htrap. rewrite wrap_mul_sgn by lia.
  assert (sgn w a ≠ 0) as Hsa0.
  { intros E. apply Ha0. by rewrite <-(wrap_sgn w a), E by lia. }
  pose proof (sgn_bound w a) as Ba. pose proof (sgn_bound w b) as Bb.
  pose proof (pow2_half w) as Hh. specialize (Ba ltac:(lia) Ha). specialize (Bb ltac:(lia) Hb).
  specialize (Hh ltac:(lia)). set (H := 2 ^ (w - 1)) in *. set (sa := sgn w a) in *. set (sb := sgn w b) in *.
  set (P := sgn w (wrap w (sa * sb))).
  assert (- H ≤ P < H) as HP by (apply sgn_bound; [lia|apply wrap_bound; lia]).
  assert (wrap w P = wrap w (sa * sb)) as EP.
  { unfold P. rewrite wrap_sgn; [done|lia|apply wrap_bound; lia]. }
  assert (∃ k, sa * sb = P + k * 2 ^ w) as [k Hk].
  { apply mod_eq_diff; [lia|done]. }
  assert (¬ (P = - H ∧ sa = -1)) as Hnt.
  { intros [E1 E2]. apply Htrap. split; [done|]. rewrite E2, E1, Hh in Hk.
    assert (k = 1) by nia. nia. }
  split.
  - cbn. replace (a =? 0) with false by lia. fold P sa H.
    replace ((P =? - H) && (sa =? -1)) with false by lia. done.
  - pose proof (Z.quot_rem P sa Hsa0) as Hqr.
    pose proof (Z.rem_bound_abs P sa Hsa0) as Hrb.
    split; intros Hq.
    + assert (P ÷ sa = sb) as Eq.
      { trans (sgn w (wrap w (P ÷ sa))); [|by rewrite Hq].
        symmetry. apply sgn_wrap; [lia|]. fold H. nia. }
      assert (k = 0) by nia. lia.
    + assert (k = 0) by nia. assert (P = sa * sb) as EPs by lia.
      rewrite EPs, (Z.mul_comm sa), Z.quot_mul by done. by apply wrap_sgn; lia.
Qed.

Lemma unsigned_product_check :
  b ≠ 0 → icmp_sem UGT w a ((2 ^ w - 1) / b) = (2 ^ w <=? a * b).
Proof.
  intros Hb0. cbn. destruct (Z.leb_spec (2 ^ w) (a * b)).
  - apply Z.ltb_lt, Z.div_lt_upper_bound; lia.
  - apply Z.ltb_ge, Z.div_le_lower_bound; lia.
Qed.
End compare.

Section conditions_ok.
Context {world : Type} (other_sem : nat → venv → world → option ((Z * Z) * world)).
Context (bb : nat) (e0 : venv) (s : world) (w a b : Z) (x y : operand).
Context (Hw : 1 < w) (Ha : 0 ≤ a < 2 ^ w) (Hb : 0 ≤ b < 2 ^ w).

#[local] Abbreviation generates m f e v := (gen other_sem bb e0 s m f e v).

Lemma add_condition_ok f e :
  building other_sem bb e0 s f e → holds f e x (w, a) → holds f e y (w, b) →
  generates (getAddOverflowCondition bb w x y) f e (1, bool_bit (add_overflows w a b)).
Proof.
  intros B Hx Hy. unfold getAddOverflowCondition, INT_MAX_V, INT_MIN_V, ZERO.
  gen_step v1. gen_step v2. gen_step v3. gen_step v4. gen_step v5. gen_step v6.
  gen_step v7. gen_step v8. gen_step v9. gen_step v10. gen_step v11.
  eapply gen_eq; [solve [eauto with ir]|]. do 2 f_equal.
  rewrite !icmp_guarded_sub, ult_sum by auto. cbn. rewrite sgn_zero by done.
  unfold add_overflows. pose proof (sgn_bound w a). pose proof (sgn_bound w b). lia.
Qed.

Lemma sub_condition_ok f e :
  building other_sem bb e0 s f e → holds f e x (w, a) → holds f e y (w, b) →
  generates (getSubOverflowCondition bb w x y) f e (1, bool_bit (sub_overflows w a b)).
Proof.
  intros B Hx Hy. unfold getSubOverflowCondition, INT_MAX_V, INT_MIN_V, ZERO.
  gen_step v1. gen_step v2. gen_step v3. gen_step v4. gen_step v5. gen_step v6.
  gen_step v7. gen_step v8. gen_step v9. gen_step v10.
  eapply gen_eq; [solve [eauto with ir]|]. do 2 f_equal.
  rewrite !icmp_guarded_add by auto. cbn. rewrite sgn_zero by done.
  unfold sub_overflows. pose proof (sgn_bound w a). pose proof (sgn_bound w b). lia.
Qed.
Lemma mul_condition_ok f e :
  ¬ (sgn w a = -1 ∧ sgn w b = - 2 ^ (w - 1)) →
  building other_sem bb e0 s f e → holds f e x (w, a) → holds f e y (w, b) →
  generates (getMulOverflowCondition bb w x y) f e (1, bool_bit (mul_overflows w a b)).
Proof.
  intros Htrap B Hx Hy. pose proof (Z.pow_le_mono_r 2 2 w ltac:(lia) ltac:(lia)) as H4.
  assert (wrap w 0 = 0) as W0 by (apply wrap_small; lia).
  assert (wrap w 1 = 1) as W1 by (apply wrap_small; lia).
  assert (wrap w (2 ^ w - 1) = 2 ^ w - 1) as Wm by (apply wrap_small; lia).
  set (sa := if icmp_sem NE w a (wrap w 0) then a else wrap w 1).
  set (sb := if icmp_sem NE w b (wrap w 0) then b else wrap w 1).
  assert (∃ q, bin_sem SDiv w (wrap w (a * b)) sa = Some q ∧
    (icmp_sem NE w a (wrap w 0) && icmp_sem NE w q b =
     negb ((- 2 ^ (w - 1) <=? sgn w a * sgn w b) && (sgn w a * sgn w b <? 2 ^ (w - 1)))))
    as (q&D1&E1).
  { unfold sa. cbn -[bin_sem]. rewrite W0, W1. destruct (Z.eqb_spec a 0) as [->|Ha0].
    - cbn -[bin_sem]. eexists. split; [|pose proof sgn_zero w; rewrite W0 in *; lia].
      cbn. replace (sgn w 1 =? -1) with false; [by rewrite andb_false_r|].
      unfold sgn. destruct (1 <? 2 ^ (w - 1)); lia.
    - destruct (signed_product_check w a b) as [D E]; [done..|].
      eexists. split; [exact D|]. cbn. lia. }
  assert (bin_sem UDiv w (wrap w (2 ^ w - 1)) sb = Some ((2 ^ w - 1) / sb)) as D2.
  { unfold sb. cbn. rewrite Wm, W0, W1. destruct (Z.eqb_spec b 0) as [|Hb0]; cbn; [done|].
    by apply Z.eqb_neq in Hb0 as ->. }
  unfold getMulOverflowCondition, UINT_MAX_V, ZERO.
  gen_step v1. gen_step v2. gen_step v3. gen_step v4. gen_step v5. gen_step v6.
  gen_step v7. gen_step v8. gen_step v9. gen_step v10. gen_step v11.
  eapply gen_eq; [solve [eauto with ir]|]. do 2 f_equal. rewrite E1. unfold mul_overflows.
  f_equal. unfold sb. cbn. rewrite W0. destruct (Z.eqb_spec b 0) as [->|Hb0]; cbn; [lia|].
  by apply unsigned_product_check.
Qed.

(** Where it is not decided: the inserted division overflows. *)
Lemma mul_condition_trap :
  bin_sem SDiv w (wrap w ((2 ^ w - 1) * 2 ^ (w - 1))) (2 ^ w - 1) = None.
Proof.
  pose proof (pow2_half w ltac:(lia)) as Hh. cbn.
  assert (sgn w (2 ^ w - 1) = -1) as ->.
  { unfold sgn. rewrite Hh. destruct (Z.ltb_spec (2 * 2 ^ (w - 1) - 1) (2 ^ (w - 1))); lia. }
  assert (wrap w ((2 ^ w - 1) * 2 ^ (w - 1)) = 2 ^ (w - 1)) as ->.
  { unfold wrap. symmetry. apply (Zmod_unique _ _ (2 ^ (w - 1) - 1)); nia. }
  assert (sgn w (2 ^ (w - 1)) = - 2 ^ (w - 1)) as ->.
  { unfold sgn. rewrite Z.ltb_irrefl. lia. }
  by rewrite Z.eqb_refl, orb_true_r.
Qed.
End conditions_ok.

(** ** The chain of checks *)
Section chain.
Context {world : Type} (other_sem : nat → venv → world → option ((Z * Z) * world)).

Section checks.
Context (thr tol : Z) (ck : checker).
Context (Hthr : sementic_threshold ck = Some thr) (Htol : sementic_tolerance ck = Some tol).
Context (Rthr : 0 ≤ thr < 2 ^ 31) (Rtol : 0 ≤ tol < 2 ^ 31).

(** The outcome of each check for result [r]. *)
Definition signed_bound (r : Z) : bool := thr <? sgn 32 r.
Definition unsigned_bound (r : Z) : bool := thr <? r.
Definition signed_minus_bound (r : Z) : bool := sgn 32 r <? - thr.
Definition max_bound (r : Z) : bool := 2 ^ 32 - 2 - tol <? r.
Definition min_bound (r : Z) : bool := r <? tol.
Definition signed_max_bound (r : Z) : bool := 2 ^ 31 - 2 - tol <? sgn 32 r.
Definition signed_min_bound (r : Z) : bool := sgn 32 r <? - 2 ^ 31 + 1 + tol.

Context (bb : nat) (e : venv) (s : world) (f : func) (x : operand) (r : Z).
Context (Hx : holds f e x (32, r)).

#[local] Abbreviation checks m v :=
  (building other_sem bb e s f e → gen other_sem bb e s m f e (1, bool_bit v)).

Lemma bound_check p k v :
  icmp_sem p 32 r (wrap 32 k) = v → checks (CreateICmp p bb x (OConst 32 k)) v.
Proof. intros <- B. by eapply gen_icmp; [|apply Hx|apply holds_const]. Qed.

Lemma int_result_ok z : - 2 ^ 31 ≤ z < 2 ^ 31 → int_result z f = Ok z f.
Proof.
  intros H. unfold int_result.
  by replace ((- 2 ^ 31 <=? z) && (z <? 2 ^ 31)) with true by lia.
Qed.

#[local] Ltac member H := rewrite H; cbn [read_int]; intros B; eapply gen_ret_bind; [done|]; revert B.
#[local] Ltac computed :=
  intros B; eapply gen_ret_bind; [apply int_result_ok; lia|]; revert B.

Lemma signed_bound_ok : checks (getSementicSignedBoundCondition bb 32 ck x) (signed_bound r).
Proof.
  unfold getSementicSignedBoundCondition. member Hthr. apply bound_check. cbn.
  by rewrite sgn_wrap by lia.
Qed.

Lemma unsigned_bound_ok :
  checks (getSementicUnsignedBoundCondition bb 32 ck x) (unsigned_bound r).
Proof.
  unfold getSementicUnsignedBoundCondition. member Hthr. apply bound_check. cbn.
  by rewrite wrap_small by lia.
Qed.

Lemma signed_minus_bound_ok :
  checks (getSementicSignedMinusBoundCondition bb 32 ck x) (signed_minus_bound r).
Proof.
  unfold getSementicSignedMinusBoundCondition. member Hthr. computed. apply bound_check. cbn.
  by rewrite sgn_wrap by lia.
Qed.

Lemma max_bound_ok : checks (getSementicMaxBoundCondition bb 32 ck x) (max_bound r).
Proof.
  unfold getSementicMaxBoundCondition. member Htol. apply bound_check. cbn.
  unfold u32, max_bound. rewrite Z.mod_small, wrap_small by lia. done.
Qed.

Lemma min_bound_ok : checks (getSementicMinBoundCondition bb 32 ck x) (min_bound r).
Proof.
  unfold getSementicMinBoundCondition. member Htol. apply bound_check. cbn.
  by rewrite wrap_small by lia.
Qed.

Lemma signed_max_bound_ok :
  checks (getSementicSignedMaxBoundCondition bb 32 ck x) (signed_max_bound r).
Proof.
  unfold getSementicSignedMaxBoundCondition. member Htol. computed. apply bound_check. cbn.
  by rewrite sgn_wrap by lia.
Qed.

Lemma signed_min_bound_ok :
  checks (getSementicSignedMinBoundCondition bb 32 ck x) (signed_min_bound r).
Proof.
  unfold getSementicSignedMinBoundCondition. member Htol. computed. apply bound_check. cbn.
  by rewrite sgn_wrap by lia.
Qed.
End checks.

(** Eight new blocks, given the first free one. *)
Lemma create_blocks {A} n (k : nat → nat → nat → nat → nat → nat → nat → nat → M A) f :
  next_block f = n →
  (b1 <- CreateBB ;; b2 <- CreateBB ;; b3 <- CreateBB ;; b4 <- CreateBB ;;
   b5 <- CreateBB ;; b6 <- CreateBB ;; b7 <- CreateBB ;; b8 <- CreateBB ;;
   k b1 b2 b3 b4 b5 b6 b7 b8) f =
  k n (1 + n)%nat (2 + n)%nat (3 + n)%nat (4 + n)%nat (5 + n)%nat (6 + n)%nat (7 + n)%nat
    (Nat.iter 8 add_block f).
Proof. by intros <-. Qed.

(** ** The condition of the first check *)
Definition overflow_truth (op : opcode) (a b : Z) : bool :=
  match op with
  | Add => add_overflows 32 a b
  | Sub => sub_overflows 32 a b
  | Mul => mul_overflows 32 a b
  | _ => b =? 0
  end.

(** The inserted division of the multiplication check is defined. *)
Definition check_defined (op : opcode) (a b : Z) : Prop :=
  op = Mul → ¬ (sgn 32 a = -1 ∧ sgn 32 b = - 2 ^ 31).

(** The generator of the first condition, for the opcodes that are checked. *)
Definition overflow_generator (bb : nat) (op : opcode) (x y : operand) : M operand :=
  match op with
  | Add => getAddOverflowCondition bb 32 x y
  | Sub => getSubOverflowCondition bb 32 x y
  | Mul => getMulOverflowCondition bb 32 x y
  | _ => getDividedByZeroCondition bb 32 y
  end.

Lemma overflow_condition_generator bb op x y :
  checked_opcode op = true →
  overflow_condition bb 32 op x y = (c <- overflow_generator bb op x y ;; ret (Some c)).
Proof. by destruct op. Qed.

Lemma overflow_condition_ok bb op x y a b s f e :
  checked_opcode op = true → 0 ≤ a < 2 ^ 32 → 0 ≤ b < 2 ^ 32 → check_defined op a b →
  holds f e x (32, a) → holds f e y (32, b) → building other_sem bb e s f e →
  gen other_sem bb e s (overflow_generator bb op x y) f e (1, bool_bit (overflow_truth op a b)).
Proof.
  intros Hop Ha Hb Hd Hx Hy B.
  assert (gen other_sem bb e s (getDividedByZeroCondition bb 32 y) f e (1, bool_bit (b =? 0))).
  { by eapply (gen_icmp other_sem bb e s f e B EQ y (ZERO 32)); [apply Hy|]. }
  destruct op; try done; cbn.
  - by apply add_condition_ok.
  - by apply sub_condition_ok.
  - apply mul_condition_ok; [lia|done|done|by apply Hd|done..].
Qed.

(** What the checks decide, in the order in which the instrumented program
    decides them. *)
Definition decisions (thr tol : Z) (op : opcode) (a b r : Z) : list (string * bool) :=
  [(overflow_tag op, overflow_truth op a b);
   ("int_exceptional_signed_value", signed_bound thr r);
   ("int_exceptional_unsigned_value", unsigned_bound thr r);
   ("int_exceptional_signed_minus_value", signed_minus_bound thr r);
   ("int_exceptional_max_value", max_bound tol r);
   ("int_exceptional_signed_max_value", signed_max_bound tol r);
   ("int_exceptional_signed_min_value", signed_min_bound tol r)].

Section visit_ok.
Context (types : nat → option Z) (thr tol : Z) (ck : checker).
Context (Hthr : sementic_threshold ck = Some thr) (Htol : sementic_tolerance ck = Some tol).
Context (Rthr : 0 ≤ thr < 2 ^ 31) (Rtol : 0 ≤ tol < 2 ^ 31).
Context (f : func) (b i x : nat) (bl : block) (op : opcode) (fl : int_flags) (o1 o2 : operand).
Context (Hb : blocks f !! b = Some bl) (Hn : ∀ c, (next_block f ≤ c)%nat → blocks f !! c = None).
Context (Hi : instrs bl !! i = Some {| res := x; ty := 32; body := RBin op fl o1 o2 |}).
Context (H1 : operand_type types o1 = Some 32) (H2 : operand_type types o2 = Some 32).
Context (Hop : checked_opcode op = true).
Context (Hnext : instrs bl !! S i ≠ None ∨ term bl ≠ None).

(** The part of the visitor up to the first check. *)
Lemma visit_setup :
  ∃ f1, set_up 8 f b i bl f1 ∧
    visitBinaryOperator types ck b i f =
    (let n := next_block f in
     c <- overflow_generator (1 + n) op o1 o2 ;;
     CreateCondBr (1 + n) c (2 + n) (2 + n) (overflow_tag op) ;;;
     c <- getSementicSignedBoundCondition (2 + n) 32 ck (OVar x) ;;
     CreateCondBr (2 + n) c (3 + n) (3 + n) "int_exceptional_signed_value" ;;;
     c <- getSementicUnsignedBoundCondition (3 + n) 32 ck (OVar x) ;;
     CreateCondBr (3 + n) c (4 + n) (4 + n) "int_exceptional_unsigned_value" ;;;
     c <- getSementicSignedMinusBoundCondition (4 + n) 32 ck (OVar x) ;;
     CreateCondBr (4 + n) c (5 + n) (5 + n) "int_exceptional_signed_minus_value" ;;;
     c <- getSementicMaxBoundCondition (5 + n) 32 ck (OVar x) ;;
     CreateCondBr (5 + n) c (7 + n) (7 + n) "int_exceptional_max_value" ;;;
     c <- getSementicMinBoundCondition (6 + n) 32 ck (OVar x) ;;
     CreateCondBr (6 + n) c (7 + n) (7 + n) "int_exceptional_min_value" ;;;
     c <- getSementicSignedMaxBoundCondition (7 + n) 32 ck (OVar x) ;;
     CreateCondBr (7 + n) c (8 + n) (8 + n) "int_exceptional_signed_max_value" ;;;
     c <- getSementicSignedMinBoundCondition (8 + n) 32 ck (OVar x) ;;
     CreateCondBr (8 + n) c n n "int_exceptional_signed_min_value")%nat f1.
Proof.
  assert (b < next_block f)%nat as Hlt.
  { destruct (decide (b < next_block f)%nat); [done|]. rewrite Hn in Hb; [done|lia]. }
  eexists. split; [by apply set_up_ok|].
  unfold visitBinaryOperator. rewrite (bind_Ok _ _ _ _ _ (get_block_ok _ _ _ Hb)), Hi.
  rewrite !bool_decide_true by done. cbn [negb andb]. rewrite Hop. cbn [negb].
  rewrite bool_decide_false by (intros [??]; by destruct Hnext).
  rewrite (bind_Ok _ _ _ _ _ (splitBasicBlock_ok b (S i) bl f Hb Hn)).
  erewrite bind_Ok; [|apply set_term_ok; cbn; by rewrite lookup_insert_eq]. cbn [instrs].
  rewrite (create_blocks (S (next_block f))) by done.
  unfold CreateBr. erewrite bind_Ok.
  2: { apply set_term_ok. cbn. repeat (rewrite lookup_insert_ne by lia).
       by rewrite lookup_insert_eq. }
  by rewrite (overflow_condition_generator _ _ _ _ Hop), bind_assoc.
Qed.

Lemma visit_inserts e1 s1 v1 v2 r :
  0 ≤ v1 < 2 ^ 32 → 0 ≤ v2 < 2 ^ 32 → check_defined op v1 v2 →
  holds f e1 o1 (32, v1) → holds f e1 o2 (32, v2) → holds f e1 (OVar x) (32, r) →
  ∃ f', visitBinaryOperator types ck b i f = Ok tt f' ∧ inserted f b i bl f' ∧
    checked other_sem f f' e1 s1 (decisions thr tol op v1 v2 r).
Proof.
  intros R1 R2 Hd Ho1 Ho2 Hr. destruct visit_setup as (f1&U&E). set (n := next_block f) in *.
  assert (∀ o v, holds f e1 o v → holds f1 e1 o v) as X1.
  { intros o v. apply holds_next. by rewrite (setup_var _ _ _ _ _ _ U). }
  pose proof (setup_empty _ _ _ _ _ _ U) as Emp. fold n in Emp.
  apply (runs_checked other_sem 8 f b i bl f1 e1 s1 _ _
    [1 + n; 2 + n; 3 + n; 4 + n; 5 + n; 6 + n; 7 + n; 8 + n]%nat); [done..| |].
  { fold n. repeat constructor; lia. }
  eapply runs_ext; [exact E|]. cbv zeta. fold n.
  run_check (overflow_truth op v1 v2) overflow_condition_ok.
  run_check (signed_bound thr r) signed_bound_ok.
  run_check (unsigned_bound thr r) unsigned_bound_ok.
  run_check (signed_minus_bound thr r) signed_minus_bound_ok.
  run_check (max_bound tol r) max_bound_ok.
  apply (runs_unreached _ _ _ _ _ _ _ (min_bound tol r));
    [unbuilt|fresh_block|apply min_bound_ok; eauto 10|intros].
  run_check (signed_max_bound tol r) signed_max_bound_ok.
  apply runs_last; [unbuilt|]. apply signed_min_bound_ok; eauto 10.
Qed.

Lemma visitBinaryOperator_runs e s s1 e1 v1 v2 r :
  exec_instrs other_sem (take (S i) (instrs bl)) e s = Some (e1, s1) →
  0 ≤ v1 < 2 ^ 32 → 0 ≤ v2 < 2 ^ 32 → check_defined op v1 v2 →
  holds f e1 o1 (32, v1) → holds f e1 o2 (32, v2) → holds f e1 (OVar x) (32, r) →
  ∃ f' e2,
    visitBinaryOperator types ck b i f = Ok tt f' ∧
    block_steps other_sem f' (b, e, s) (decisions thr tol op v1 v2 r)
      (next_block f, e2, s1) ∧
    blocks f' !! next_block f =
      Some {| instrs := drop (S i) (instrs bl); term := term bl |} ∧
    (∀ c, c ≠ b → (c < next_block f)%nat → blocks f' !! c = blocks f !! c) ∧
    (∀ o v, holds f e1 o v → operand_val e2 o = Some v).
Proof.
  intros Hx R1 R2 Hd Ho1 Ho2 Hr.
  destruct (visit_inserts e1 s1 v1 v2 r) as (f'&E&I&C); [done..|].
  destruct (checked_runs other_sem f b i bl f' e s e1 s1 _ I Hx C) as (e2&St&X).
  exists f', e2. split_and!; [done|done|by apply (inserted_cont _ _ _ _ _ I)|by eapply inserted_other|done].
Qed.
End visit_ok.
End chain.

(** ** Instructions left alone *)
Lemma visit_unchecked types ck b i f bl ins :
  blocks f !! b = Some bl → instrs bl !! i = Some ins →
  match body ins with
  | RBin op fl o1 o2 =>
      operand_type types o1 ≠ Some 32 ∨ operand_type types o2 ≠ Some 32 ∨
      checked_opcode op = false ∨ instrs bl !! S i = None ∧ term bl = None
  | RFBin _ _ _ _ _ => True
  | _ => False
  end → visitBinaryOperator types ck b i f = Ok tt f.
Proof.
  intros Hb Hi H. unfold visitBinaryOperator.
  rewrite (bind_Ok _ _ _ _ _ (get_block_ok _ _ _ Hb)), Hi.
  destruct ins as [x w [op fl o1 o2| | | | |]]; cbn in H; try done.
  repeat case_bool_decide; cbn; try done; destruct (checked_opcode op); cbn; try done.
  all: by destruct H as [?|[?|[?|?]]].
Qed.

(** ** The settings *)

(** The checkers that the passes can make. *)
Inductive configured : checker → Prop :=
| configured_new : configured new_checker
| configured_threshold z c : configured c → configured (setSementicThreshold z c)
| configured_tolerance z c : configured c → configured (setSementicTolerance z c).

Lemma configured_no_tolerance c : configured c → sementic_tolerance c = None.
Proof. by induction 1. Qed.

Lemma bind_not_Ok {S A B} (m : Prelude.M S A) (k : A → Prelude.M S B) s :
  (∀ a s', m s = Ok a s' → ∀ b s'', k a s' ≠ Ok b s'') → ∀ b s'', bind m k s ≠ Ok b s''.
Proof. intros H b s'' E. apply bind_inv in E as (y&t&E1&E2). by eapply H. Qed.

Lemma visit_no_tolerance types ck b i f bl x w op fl o1 o2 :
  sementic_tolerance ck = None →
  blocks f !! b = Some bl → instrs bl !! i = Some {| res := x; ty := w; body := RBin op fl o1 o2 |} →
  operand_type types o1 = Some 32 → operand_type types o2 = Some 32 →
  checked_opcode op = true → instrs bl !! S i ≠ None ∨ term bl ≠ None →
  ∀ f', visitBinaryOperator types ck b i f ≠ Ok tt f'.
Proof.
  intros Ht Hb Hi H1 H2 Hop Hnext. unfold visitBinaryOperator.
  rewrite (bind_Ok _ _ _ _ _ (get_block_ok _ _ _ Hb)), Hi, !bool_decide_true by done.
  rewrite bool_decide_false by (intros [??]; by destruct Hnext). cbn. rewrite Hop. cbn [negb].
  assert (∀ bb f0 c f1, overflow_condition bb 32 op o1 o2 f0 = Ok c f1 → c ≠ None) as Hc.
  { intros bb f0 c f1 E. destruct op; try done; by apply bind_inv in E as (?&?&_&[= <- _]). }
  do 10 (apply bind_not_Ok; intros ? ? _). apply bind_not_Ok; intros [] ? _.
  apply bind_not_Ok; intros c ? Ec. apply Hc in Ec. destruct c as [c|]; [|done].
  do 7 (apply bind_not_Ok; intros ? ? _). apply bind_not_Ok; intros ? f1 E.
  unfold getSementicMaxBoundCondition in E. by rewrite Ht in E.
Qed.
