(* ===== verification/Instrument.v ===== *)
(** * Inserting checks into a function

    What the overflow checkers have in common: a pass visits the instructions
    of a function one after the other and inserts a chain of checks behind some
    of them.  A run of the instrumented function is related to a run of the
    original in which the checked instructions report what their checks
    decide; the relation is proved for one visit and composed along the pass. *)

From S2P Require Import Prelude Smt Ieee Ir Lockstep.

#[local] Open Scope Z_scope.
#[local] Abbreviation M := (M func).

(** ** Names in use *)
Definition operand_below (k : nat) (o : operand) : Prop :=
  match o with OVar x => (x < k)%nat | OConst _ _ => True end.

Definition rhs_below (k : nat) (r : rhs) : Prop :=
  match r with
  | RBin _ _ a b | RICmp _ a b | RFBin _ _ _ a b | RFCmp _ _ a b =>
      operand_below k a ∧ operand_below k b
  | RSelect c a b => operand_below k c ∧ operand_below k a ∧ operand_below k b
  | ROther _ => True
  end.

Definition instr_below (k : nat) (i : instr) : Prop := (res i < k)%nat ∧ rhs_below k (body i).

Definition term_below (k : nat) (t : option terminator) : Prop :=
  match t with Some (CondBr c _ _ _) => operand_below k c | _ => True end.

Definition block_below (k : nat) (bl : block) : Prop :=
  Forall (instr_below k) (instrs bl) ∧ term_below k (term bl).

Section below.
Context (k l : nat) (Hkl : (k ≤ l)%nat).

Lemma operand_below_mono o : operand_below k o → operand_below l o.
Proof. destruct o; cbn; [lia|done]. Qed.
Lemma rhs_below_mono r : rhs_below k r → rhs_below l r.
Proof. destruct r; cbn; intuition auto using operand_below_mono. Qed.
Lemma instr_below_mono i : instr_below k i → instr_below l i.
Proof. intros [? ?]. split; [lia|by apply rhs_below_mono]. Qed.
Lemma term_below_mono t : term_below k t → term_below l t.
Proof. destruct t as [[]|]; cbn; auto using operand_below_mono. Qed.
Lemma block_below_mono bl : block_below k bl → block_below l bl.
Proof.
  intros [H ?]. split; [|by apply term_below_mono].
  eapply Forall_impl; [exact H|]. auto using instr_below_mono.
Qed.
End below.

(** A function whose names are all accounted for. *)
Record wf (f : func) : Prop := {
  wf_blocks c : (next_block f ≤ c)%nat → blocks f !! c = None;
  wf_below b bl : blocks f !! b = Some bl → block_below (next_var f) bl;
}.

Lemma wf_lt f b bl : wf f → blocks f !! b = Some bl → (b < next_block f)%nat.
Proof.
  intros W H. destruct (decide (b < next_block f)%nat); [done|].
  by rewrite (wf_blocks f W) in H by lia.
Qed.

(** ** Generated code, statically

    While the chain of a visit is built: only blocks above [n] change, their
    instructions have new names, [N] and above, and use names that exist. *)
Section generated.
Variables (n N : nat) (f0 : func).

Record growing (f : func) : Prop := {
  growing_next : next_block f = next_block f0;
  growing_old c : (c ≤ n)%nat → blocks f !! c = blocks f0 !! c;
  growing_var : (N ≤ next_var f)%nat;
  growing_new c : (n < c < next_block f0)%nat → ∃ bl, blocks f !! c = Some bl ∧
    block_below (next_var f) bl ∧ Forall (λ i, (N ≤ res i)%nat) (instrs bl);
  growing_none c : (next_block f0 ≤ c)%nat → blocks f !! c = None;
}.

(** [m] generates code in a function with [k] names and returns an operand that
    exists; [K] generates code. *)
Definition generates (k : nat) (m : M operand) : Prop :=
  ∀ f, growing f → (k ≤ next_var f)%nat → wp m f (λ o f', growing f' ∧
    ∃ k', (k ≤ k' ≤ next_var f')%nat ∧ operand_below k' o).

Definition completes (k : nat) (K : M unit) : Prop :=
  ∀ f, growing f → (k ≤ next_var f)%nat → wp K f (λ _ f', growing f' ∧ (k ≤ next_var f')%nat).

Lemma generates_ret k o : operand_below k o → generates k (ret o).
Proof. intros Ho f G Hk. apply wp_ret. split; [done|]. by exists k. Qed.

Lemma generates_bind k m K :
  generates k m → (∀ o k', (k ≤ k')%nat → operand_below k' o → generates k' (K o)) →
  generates k (bind m K).
Proof.
  intros Hm HK f G Hk. eapply wp_seq; [by apply Hm|].
  intros o f1 (G1&k1&?&Ho). eapply wp_impl; [eapply (HK o k1); [lia|done..|lia]|].
  intros o2 f2 (G2&k2&?&?). split; [done|]. exists k2. split; [lia|done].
Qed.

(** A computation that does not touch the function. *)
Lemma generates_pure {A} k (m : M A) a K :
  (∀ f, m f = Ok a f) → generates k (K a) → generates k (bind m K).
Proof. intros E H f G Hk. apply wp_bind. eapply wp_Ok; [apply E|]. by apply H. Qed.

Lemma growing_put f bb bl :
  growing f → (n < bb < next_block f0)%nat → block_below (next_var f) bl →
  Forall (λ i, (N ≤ res i)%nat) (instrs bl) → growing (put_block bb bl f).
Proof.
  intros [G1 G2 G3 G4 G5] Hbb B1 B2. split; cbn; try done.
  - intros c Hc. rewrite lookup_insert_ne by lia. auto.
  - intros c Hc. rewrite lookup_insert. case_decide as E; [|auto]. by exists bl.
  - intros c Hc. rewrite lookup_insert_ne by lia. auto.
Qed.

Lemma growing_name f : growing f →
  growing {| blocks := blocks f; next_block := next_block f; next_var := S (next_var f) |}.
Proof.
  intros [G1 G2 G3 G4 G5]. split; cbn; try done; [lia|].
  intros c Hc. destruct (G4 c Hc) as (bl&?&?&?). exists bl. split_and!; [done| |done].
  eapply block_below_mono; [|done]. lia.
Qed.

Lemma generates_emit k bb w r :
  (n < bb < next_block f0)%nat → rhs_below k r → generates k (emit bb w r).
Proof.
  intros Hbb Hr f G Hk. destruct (growing_new f G bb Hbb) as (bl&Hb&[B1 B2]&Hn).
  unfold emit, get_block. eexists _, _. unfold bind, get, modify. rewrite Hb. cbn.
  split; [done|]. split; [|exists (S (next_var f)); cbn; lia].
  apply (growing_put {| blocks := blocks f; next_block := next_block f; next_var := S (next_var f) |});
    [by apply growing_name|done|..].
  - split; cbn; [|by eapply term_below_mono; [|done]; lia].
    apply Forall_app; split; [eapply Forall_impl; [exact B1|]; intros ?; by apply instr_below_mono; lia|].
    constructor; [|done]. split; cbn; [lia|]. eapply rhs_below_mono; [|done]. lia.
  - apply Forall_app; split; [done|]. constructor; [|done]. cbn. apply (growing_var f G).
Qed.

Lemma completes_ret k : completes k (ret tt).
Proof. intros f G Hk. by apply wp_ret. Qed.

(** A check in block [bb]. *)
Lemma completes_check k bb m t tag K :
  (n < bb < next_block f0)%nat → generates k m →
  (∀ k', (k ≤ k')%nat → completes k' K) →
  completes k (c <- m ;; CreateCondBr bb c t t tag ;;; K).
Proof.
  intros Hbb Hm HK f G Hk. eapply wp_seq; [by apply Hm|]. intros o f1 (G1&k1&?&Ho).
  destruct (growing_new f1 G1 bb Hbb) as (bl&Hb&[B1 B2]&Hn).
  eapply wp_bind, wp_Ok; [apply set_term_ok, Hb|].
  eapply wp_impl; [apply (HK k1); [lia|..]|intros [] f2 [??]; split; [done|lia]].
  - apply growing_put; [done..| |done]. split; [done|]. cbn. eapply operand_below_mono; [|done]. lia.
  - cbn. lia.
Qed.

Lemma completes_last k bb m t tag :
  (n < bb < next_block f0)%nat → generates k m →
  completes k (c <- m ;; CreateCondBr bb c t t tag).
Proof.
  intros Hbb Hm f G Hk.
  destruct (completes_check k bb m t tag (ret tt) Hbb Hm (λ k' _, completes_ret k') f G Hk)
    as ([]&f'&E&HG).
  exists tt, f'. split; [|done]. rewrite <-E. unfold bind. destruct (m f) as [o f1|]; [|done].
  by destruct (CreateCondBr bb o t t tag f1) as [[] ?|].
Qed.
End generated.

(** The instrumented function, statically: a chain with new names. *)
Record extended (f : func) (b i : nat) (bl : block) (f' : func) : Prop := {
  extended_inserted : inserted f b i bl f';
  extended_wf : wf f';
  extended_var : (next_var f ≤ next_var f')%nat;
  extended_new c bl' ins : (next_block f < c)%nat → blocks f' !! c = Some bl' →
    ins ∈ instrs bl' → (next_var f ≤ res ins)%nat;
}.

Lemma growing_setup k f b i bl f1 :
  wf f → blocks f !! b = Some bl → set_up k f b i bl f1 →
  growing (next_block f) (next_var f) f1 f1.
Proof.
  intros W Hb U. split; [done|done| | |].
  - by rewrite (setup_var _ _ _ _ _ _ U).
  - intros c Hc. rewrite (setup_next _ _ _ _ _ _ U) in Hc. exists empty_block.
    split_and!; [apply (setup_empty _ _ _ _ _ _ U); lia|by repeat constructor|by constructor].
  - intros c Hc. rewrite (setup_next _ _ _ _ _ _ U) in Hc. apply (setup_none _ _ _ _ _ _ U). lia.
Qed.

Lemma growing_extended k f b i bl f1 f' :
  wf f → blocks f !! b = Some bl → set_up k f b i bl f1 →
  growing (next_block f) (next_var f) f1 f' → extended f b i bl f'.
Proof.
  intros W Hb U G. pose proof (wf_lt f b bl W Hb) as Hlt.
  pose proof (growing_old _ _ _ _ G) as Old. pose proof (growing_var _ _ _ _ G) as V.
  pose proof (setup_next _ _ _ _ _ _ U) as N1.
  assert (inserted f b i bl f') as I.
  { split.
    - rewrite Old by lia. apply (setup_origin _ _ _ _ _ _ U).
    - rewrite Old by lia. apply (setup_cont _ _ _ _ _ _ U).
    - intros c Hc Hl. rewrite Old by lia. by apply (setup_other _ _ _ _ _ _ U). }
  assert (∀ c bl', (next_block f < c)%nat → blocks f' !! c = Some bl' →
    block_below (next_var f') bl' ∧ Forall (λ i, (next_var f ≤ res i)%nat) (instrs bl')) as New.
  { intros c bl' Hc H. destruct (decide (c < next_block f1)%nat) as [Hl|Hl].
    - destruct (growing_new _ _ _ _ G c) as (bl2&E&?&?); [lia|]. by simplify_eq.
    - by rewrite (growing_none _ _ _ _ G c) in H by lia. }
  split; [done| |done|].
  - split.
    + intros c Hc. apply (growing_none _ _ _ _ G). rewrite <-(growing_next _ _ _ _ G). done.
    + intros c bl' H. destruct (decide (next_block f < c)%nat); [by apply (New c)|].
      destruct (wf_below f W b bl Hb) as [B1 B2].
      assert (Forall (instr_below (next_var f')) (instrs bl)) as B1'.
      { eapply Forall_impl; [exact B1|]. intros ?. by apply instr_below_mono. }
      destruct (decide (c = b)) as [->|]; [|destruct (decide (c = next_block f)) as [->|]].
      * rewrite (inserted_origin _ _ _ _ _ I) in H. injection H as <-. split; [|done].
        by apply Forall_take.
      * rewrite (inserted_cont _ _ _ _ _ I) in H. injection H as <-. split.
        { by apply Forall_drop. }
        eapply term_below_mono; [exact V|done].
      * rewrite (inserted_other _ _ _ _ _ I) in H by (done || lia).
        eapply block_below_mono; [exact V|]. by apply (wf_below f W c).
  - intros c bl' ins Hc H Hi. destruct (New c bl' Hc H) as [_ F].
    rewrite Forall_forall in F. by apply F.
Qed.

(** What a visit that inserts a chain has to generate. *)
Lemma completes_extended k f b i bl f1 V K :
  wf f → blocks f !! b = Some bl → set_up k f b i bl f1 → V = K f1 →
  completes (next_block f) (next_var f) f1 (next_var f) K →
  ∃ f', V = Ok tt f' ∧ extended f b i bl f'.
Proof.
  intros W Hb U -> HK. destruct (HK f1) as ([]&f'&E&G&_).
  - by eapply growing_setup.
  - by rewrite (setup_var _ _ _ _ _ _ U).
  - exists f'. split; [done|]. by eapply growing_extended.
Qed.

(** ** The instructions of [IRBuilder] *)
Section builder.
Context (n N : nat) (f0 : func) (k bb : nat) (Hbb : (n < bb < next_block f0)%nat).
Context (x y : operand) (Hx : operand_below k x) (Hy : operand_below k y).

Lemma generates_icmp p : generates n N f0 k (CreateICmp p bb x y).
Proof. by apply generates_emit. Qed.
Lemma generates_fcmp p sem : generates n N f0 k (CreateFCmp p bb sem x y).
Proof. by apply generates_emit. Qed.
Lemma generates_bin op w : generates n N f0 k (CreateBin op bb w x y).
Proof. by apply generates_emit. Qed.
Lemma generates_select c w : operand_below k c → generates n N f0 k (CreateSelect bb w c x y).
Proof. intros. by apply generates_emit. Qed.
End builder.

Lemma operand_below_const k w z : operand_below k (OConst w z).
Proof. done. Qed.
Lemma operand_below_fp k sem g : operand_below k (ConstantFP sem g).
Proof. done. Qed.

Create HintDb gen.
#[export] Hint Resolve generates_icmp generates_fcmp generates_bin generates_select : gen.
#[export] Hint Extern 2 ((_ < _)%nat ∧ (_ < _)%nat) => lia : gen.
#[export] Hint Resolve operand_below_const operand_below_fp generates_ret : gen.

(** Names that exist keep existing. *)
Ltac carry_names k L :=
  repeat match goal with
  | Y : operand_below ?j _ |- _ => assert_fails (constr_eq j k); apply (operand_below_mono j k L) in Y
  end; clear L.

(** The next instruction, computation, check. *)
Ltac gen_name :=
  eapply generates_bind;
  [solve [eauto with gen]
  |let o := fresh "o" in let k := fresh "k" in let L := fresh "L" in let H := fresh "H" in
   intros o k L H; carry_names k L].
Ltac gen_names :=
  repeat first [solve [eauto with gen] | gen_name | eapply generates_pure; [done|]].
Ltac gen_check :=
  eapply completes_check;
  [lia|solve [gen_names]
  |let k := fresh "k" in let L := fresh "L" in intros k L; carry_names k L].
