(* ===== verification/Reporting.v ===== *)
(** * Runs in which instructions report

    The specification of an instrumentation pass: in a run of the original
    function, an instruction whose checks have not been inserted yet reports
    what they would decide.  A visit trades the report of one instruction for
    the decisions of a chain of blocks; the pass trades all of them. *)

From S2P Require Import Prelude Smt Ieee Ir Lockstep Instrument.

#[local] Open Scope Z_scope.

Definition report : Type := list (string * bool).

Section reporting.
Context {world : Type} (other_sem : nat → venv → world → option ((Z * Z) * world)).
(** What an instruction reports once it has been executed; [None]: the checks
    have undefined behaviour. *)
Context (reports : instr → venv → option report).

(** ** Runs *)
Section runs.
Variable (pending : nat → bool).

Definition reported (i : instr) (e : venv) : option report :=
  if pending (res i) then reports i e else Some [].

Fixpoint exec_reporting (l : list instr) (e : venv) (s : world)
    : option (venv * world * report) :=
  match l with
  | [] => Some (e, s, [])
  | i :: l' =>
      match rhs_sem other_sem e s (body i) with
      | Some (v, s') =>
          let e' := bind_var e (res i) v in
          match reported i e', exec_reporting l' e' s' with
          | Some d, Some (e2, s2, ds) => Some (e2, s2, d ++ ds)
          | _, _ => None
          end
      | None => None
      end
  end.

(** A run from the start of a block to the end of the function, which is a
    terminator that is no branch; branches with a tag report, too. *)
Inductive reporting_run (f : func) :
    nat * venv * world → report → nat * venv * world → Prop :=
| run_end b bl e s e' s' l r :
    blocks f !! b = Some bl → exec_reporting (instrs bl) e s = Some (e', s', l) →
    term bl = Some (TOther r) → reporting_run f (b, e, s) l (r, e', s')
| run_jump b bl e s e' s' l t k z :
    blocks f !! b = Some bl → exec_reporting (instrs bl) e s = Some (e', s', l) →
    term bl = Some (Br t) → reporting_run f (t, e', s') k z →
    reporting_run f (b, e, s) (l ++ k) z
| run_branch b bl e s e' s' l c t t' tag w v k z :
    blocks f !! b = Some bl → exec_reporting (instrs bl) e s = Some (e', s', l) →
    term bl = Some (CondBr c t t' tag) → operand_val e' c = Some (w, v) →
    reporting_run f (if v =? 0 then t' else t, e', s') k z →
    reporting_run f (b, e, s)
      (l ++ match tag with Some name => (name, negb (v =? 0)) :: k | None => k end) z.

Lemma exec_reporting_app l k e s :
  exec_reporting (l ++ k) e s =
  match exec_reporting l e s with
  | Some (e1, s1, d) =>
      match exec_reporting k e1 s1 with
      | Some (e2, s2, ds) => Some (e2, s2, d ++ ds)
      | None => None
      end
  | None => None
  end.
Proof.
  revert e s. induction l as [|i l IH]; intros e s; cbn.
  - by destruct (exec_reporting k e s) as [[[??]?]|].
  - destruct (rhs_sem other_sem e s (body i)) as [[v s']|]; [|done].
    destruct (reported i _) as [d|]; [|done]. rewrite IH.
    destruct (exec_reporting l _ s') as [[[e1 s1] d1]|]; [|done].
    destruct (exec_reporting k e1 s1) as [[[e2 s2] d2]|]; [|done]. by rewrite (assoc_L (++)).
Qed.

(** Instructions that do not report. *)
Lemma exec_reporting_silent l e s e' s' :
  Forall (λ i, pending (res i) = false) l → exec_instrs other_sem l e s = Some (e', s') →
  exec_reporting l e s = Some (e', s', []).
Proof.
  revert e s. induction l as [|i l IH]; intros e s Hl; cbn; [congruence|].
  apply Forall_cons in Hl as [Hi Hl]. unfold reported. rewrite Hi.
  destruct (rhs_sem other_sem e s (body i)) as [[v s1]|]; [|done].
  intros H. by rewrite (IH _ _ Hl H).
Qed.

Lemma exec_reporting_instrs l e s e' s' d :
  exec_reporting l e s = Some (e', s', d) → exec_instrs other_sem l e s = Some (e', s').
Proof.
  revert e s d. induction l as [|i l IH]; intros e s d; cbn; [congruence|].
  destruct (rhs_sem other_sem e s (body i)) as [[v s1]|]; [|done].
  destruct (reported i _) as [d1|]; [|done].
  destruct (exec_reporting l _ s1) as [[[e1 s2] d2]|] eqn:E; [|done].
  intros [= -> -> _]. by eapply IH.
Qed.

(** Through blocks that do not report. *)
Lemma visits_reporting f c l vs c' k z :
  visits other_sem f c l vs c' →
  Forall (λ b, ∀ bl i, blocks f !! b = Some bl → i ∈ instrs bl → pending (res i) = false) vs →
  reporting_run f c' k z → reporting_run f c (l ++ k) z.
Proof.
  induction 1 as [c|b e s ev c l vs c' St V IH]; intros Hs Hk; [done|].
  apply Forall_cons in Hs as [Hb Hs]. specialize (IH Hs Hk).
  inversion St as [? bl ??? s1 t E X T|? bl ??? s1 cond t t' tag w v E X T Hv]; subst.
  - apply (run_jump f b bl e s e' s1 [] t); [done| |done|done].
    apply exec_reporting_silent; [|done]. apply Forall_forall. eauto.
  - pose proof (run_branch f b bl e s e' s1 [] cond t t' tag w v (l ++ k) z E) as R.
    destruct tag as [name|]; (eapply R; [|done..|exact IH]);
      (apply exec_reporting_silent; [|done]); apply Forall_forall; eauto.
Qed.
End runs.

Lemma exec_reporting_ext P Q l e s :
  Forall (λ i, P (res i) = Q (res i)) l → exec_reporting P l e s = exec_reporting Q l e s.
Proof.
  revert e s. induction l as [|i l IH]; intros e s; [done|]. intros [Hi Hl]%Forall_cons. cbn.
  unfold reported. rewrite Hi. destruct (rhs_sem other_sem e s (body i)) as [[v s1]|]; [|done].
  by rewrite IH.
Qed.

(** ** More variables *)

(** [e2] has the variables below [k] that [e1] has. *)
Definition env_le (k : nat) (e1 e2 : venv) : Prop :=
  ∀ x v, (x < k)%nat → e1 x = Some v → e2 x = Some v.

Lemma env_le_refl k e : env_le k e e.
Proof. by intros x v. Qed.
Lemma env_le_trans k e1 e2 e3 : env_le k e1 e2 → env_le k e2 e3 → env_le k e1 e3.
Proof. intros H1 H2 x v ??. auto. Qed.
Lemma env_le_mono k l e1 e2 : (k ≤ l)%nat → env_le l e1 e2 → env_le k e1 e2.
Proof. intros ? H x v ??. apply H; [lia|done]. Qed.

Lemma env_le_bind k e1 e2 x v : env_le k e1 e2 → env_le k (bind_var e1 x v) (bind_var e2 x v).
Proof. intros H y u Hy. unfold bind_var. destruct (y =? x)%nat; [done|]. by apply H. Qed.

Lemma operand_val_le k e1 e2 o v :
  env_le k e1 e2 → operand_below k o → operand_val e1 o = Some v → operand_val e2 o = Some v.
Proof. destruct o; cbn; [|done]. auto. Qed.

(** ** The interface of a checker

    [n0] is the number of names of the program; the instructions that the pass
    does not know depend on the variables that the program has.  A visit of
    an instruction, of which the pass needs it to be [typed], leaves the
    function alone when the instruction has nothing to report, and otherwise
    inserts a chain that decides what it reports. *)
Class Checks (n0 : nat) (typed : instr → Prop) (visit : nat → nat → M func unit) : Prop := {
  checks_other k e1 e2 s v :
    env_le n0 e1 e2 → other_sem k e1 s = Some v → other_sem k e2 s = Some v;
  checks_mono k i e1 e2 d :
    env_le k e1 e2 → instr_below k i → reports i e1 = Some d → reports i e2 = Some d;
  checks_visit f b i bl ins :
    wf f → blocks f !! b = Some bl → instrs bl !! i = Some ins → term bl ≠ None → typed ins →
    (visit b i f = Ok tt f ∧ ∀ e d, reports ins e = Some d → d = []) ∨
    ∃ f', visit b i f = Ok tt f' ∧ extended f b i bl f' ∧
      ∀ e s d, reports ins e = Some d → checked other_sem f f' e s d;
}.

Context {n0 : nat} {typed : instr → Prop} {visit : nat → nat → M func unit}.
Context {C : Checks n0 typed visit}.

Lemma rhs_sem_le k e1 e2 s r v :
  (n0 ≤ k)%nat → env_le k e1 e2 → rhs_below k r →
  rhs_sem other_sem e1 s r = Some v → rhs_sem other_sem e2 s r = Some v.
Proof.
  intros Hk L. assert (∀ o u, operand_below k o → operand_val e1 o = Some u →
    operand_val e2 o = Some u) as Ho by eauto using operand_val_le.
  destruct r as [op nf a b|op sem fl a b|p a b|p sem a b|c a b|n]; cbn -[operand_val].
  5: intros (H1&H2&H3). 6: intros _; apply checks_other; by eapply env_le_mono.
  1-4: intros [H1 H2].
  all: repeat match goal with
    | |- match operand_val ?e ?o with Some _ => _ | None => _ end = _ → _ =>
        let E := fresh in destruct (operand_val e o) as [[??]|] eqn:E; [|done];
        apply Ho in E; [rewrite E|done]
    end; done.
Qed.

Lemma exec_reporting_le P k l e1 e2 s e1' s' d :
  (n0 ≤ k)%nat → env_le k e1 e2 → Forall (instr_below k) l →
  exec_reporting P l e1 s = Some (e1', s', d) →
  ∃ e2', exec_reporting P l e2 s = Some (e2', s', d) ∧ env_le k e1' e2'.
Proof.
  intros Hk. revert e1 e2 s d. induction l as [|i l IH]; intros e1 e2 s d L; cbn.
  { intros _ [= -> -> <-]. eauto. }
  intros [Hi Hl]%Forall_cons.
  destruct (rhs_sem other_sem e1 s (body i)) as [[v s1]|] eqn:E; [|done].
  apply (rhs_sem_le k e1 e2) in E as ->; [|done|done|apply Hi].
  pose proof (env_le_bind k e1 e2 (res i) v L) as L'.
  destruct (reported P i (bind_var e1 (res i) v)) as [d1|] eqn:E1; [|done].
  assert (reported P i (bind_var e2 (res i) v) = Some d1) as ->.
  { unfold reported in *. destruct (P (res i)); [|done]. by eapply checks_mono. }
  destruct (exec_reporting P l _ s1) as [[[e3 s3] d3]|] eqn:E2; [|done].
  intros [= -> -> <-]. destruct (IH _ _ _ _ L' Hl E2) as (e4&E4&L4). exists e4. by rewrite E4.
Qed.

(** Ends of runs that the instrumented program cannot tell apart: the same
    terminator and state, and the variables below [k]. *)
Definition same_end (k : nat) (z z' : nat * venv * world) : Prop :=
  z.1.1 = z'.1.1 ∧ env_le k z.1.2 z'.1.2 ∧ z.2 = z'.2.

Lemma same_end_refl k z : same_end k z z.
Proof. split_and!; [done|apply env_le_refl|done]. Qed.

(** ** One visit *)
Section visit.
Context (f f' : func) (b i : nat) (bl : block) (ins : instr) (P Q : nat → bool).
Context (W : wf f) (Hn0 : (n0 ≤ next_var f)%nat).
Context (Hb : blocks f !! b = Some bl) (Hi : instrs bl !! i = Some ins).
Context (X : extended f b i bl f').
Context (HP : ∀ y, P y = true → (y < next_var f)%nat).
Context (Px : P (res ins) = true) (HQ : ∀ y, Q y = P y && negb (y =? res ins)%nat).
Context (Uniq : ∀ c bl' j ins', blocks f !! c = Some bl' → instrs bl' !! j = Some ins' →
  res ins' = res ins → c = b ∧ j = i).
Context (Chk : ∀ e s d, reports ins e = Some d → checked other_sem f f' e s d).

Lemma visited_others c bl' l e s :
  blocks f !! c = Some bl' → (∀ j ins', l !! j = Some ins' → ∃ j', instrs bl' !! j' = Some ins' ∧
    (c = b → j' ≠ i)) → exec_reporting P l e s = exec_reporting Q l e s.
Proof.
  intros Hc Hl. apply exec_reporting_ext, Forall_lookup. intros j ins' Hj.
  destruct (Hl j ins' Hj) as (j'&Hj'&Hne). rewrite HQ.
  destruct (Nat.eqb_spec (res ins') (res ins)) as [E|]; [|by rewrite andb_true_r].
  destruct (Uniq _ _ _ _ Hc Hj' E). by destruct Hne.
Qed.

Lemma checked_instr_below : instr_below (next_var f) ins.
Proof.
  destruct (wf_below f W b bl Hb) as [B _]. rewrite Forall_lookup in B. by eapply B.
Qed.

(** The code up to the checked instruction, and its report. *)
Lemma exec_checked e s e1 s1 d :
  exec_reporting P (take (S i) (instrs bl)) e s = Some (e1, s1, d) →
  ∃ d0 dx, d = d0 ++ dx ∧ exec_reporting Q (take (S i) (instrs bl)) e s = Some (e1, s1, d0) ∧
    reports ins e1 = Some dx.
Proof.
  rewrite (take_S_r _ _ _ Hi), !exec_reporting_app.
  rewrite <-(visited_others b bl (take i (instrs bl))); [|done|].
  2: { intros j ins' [Hj ?]%lookup_take_Some. exists j. split; [done|lia]. }
  destruct (exec_reporting P (take i (instrs bl)) e s) as [[[e0 s0] d0]|]; [|done]. cbn.
  destruct (rhs_sem other_sem e0 s0 (body ins)) as [[v s2]|]; [|done].
  unfold reported. rewrite HQ, Px, Nat.eqb_refl. cbn.
  destruct (reports ins (bind_var e0 (res ins) v)) as [dx|] eqn:E; [|done].
  intros [= <- <- <-]. rewrite app_nil_r. exists d0, dx. by rewrite app_nil_r.
Qed.

Lemma checked_env e1 e2 dx s1 :
  env_le (next_var f) e1 e2 → reports ins e1 = Some dx →
  ∃ em, env_le (next_var f) e1 em ∧
    ∀ k z, reporting_run Q f' (next_block f, em, s1) k z →
           reporting_run Q f' (S (next_block f), e2, s1) (dx ++ k) z.
Proof.
  intros L R. apply (checks_mono (next_var f) _ e1 e2) in R; [|done|apply checked_instr_below].
  destruct (Chk e2 s1 dx R) as (em&vs&V&F&Hv). exists em. split.
  - intros x v Hx E. apply (Hv (OVar x) v). split; [done|]. cbn. by apply L.
  - intros k z. apply (visits_reporting _ _ _ _ _ _ _ _ V). eapply Forall_impl; [exact F|].
    intros c Hc bl' ins' Hbl Hins. pose proof (extended_new _ _ _ _ _ X _ _ _ Hc Hbl Hins) as N.
    rewrite HQ. destruct (P (res ins')) eqn:E; [|done]. apply HP in E. lia.
Qed.

(** A block of the original, in the instrumented function: the last block of
    what has become of it has its terminator. *)
Lemma block_simulates c blc e s e' s' d e2 :
  blocks f !! c = Some blc → exec_reporting P (instrs blc) e s = Some (e', s', d) →
  env_le (next_var f) e e2 →
  ∃ c' bl' em sm d1 d2 e2', d = d1 ++ d2 ∧ blocks f' !! c' = Some bl' ∧ term bl' = term blc ∧
    exec_reporting Q (instrs bl') em sm = Some (e2', s', d2) ∧ env_le (next_var f) e' e2' ∧
    ∀ k z, reporting_run Q f' (c', em, sm) k z → reporting_run Q f' (c, e2, s) (d1 ++ k) z.
Proof.
  intros Hc Ex L. destruct (wf_below f W c blc Hc) as [Bl _].
  pose proof (extended_inserted _ _ _ _ _ X) as I.
  destruct (decide (c = b)) as [->|Hne].
  - assert (blc = bl) as -> by congruence.
    rewrite <-(take_drop (S i) (instrs bl)), exec_reporting_app in Ex.
    destruct (exec_reporting P (take (S i) (instrs bl)) e s) as [[[e1 s1] da]|] eqn:E1; [|done].
    destruct (exec_reporting P (drop (S i) (instrs bl)) e1 s1) as [[[e3 s3] db]|] eqn:E2; [|done].
    injection Ex as -> -> <-. apply exec_checked in E1 as (d0&dx&->&E1&R).
    apply (exec_reporting_le Q (next_var f) _ e e2) in E1 as (e1'&E1&L1);
      [|done|done|by apply Forall_take].
    destruct (checked_env e1 e1' dx s1 L1 R) as (em&Lm&Run).
    rewrite (visited_others b bl) in E2; [|done|].
    2: { intros j ins'. rewrite lookup_drop. intros Hj. exists (S i + j)%nat. split; [done|lia]. }
    apply (exec_reporting_le Q (next_var f) _ e1 em) in E2 as (e2'&E2&L2);
      [|done|done|by apply Forall_drop].
    eexists _, _, em, s1, (d0 ++ dx), db, e2'.
    split_and!; [done|apply (inserted_cont _ _ _ _ _ I)|done|done|done|].
    intros k z Hk. rewrite <-(assoc_L (++)).
    eapply run_jump; [apply (inserted_origin _ _ _ _ _ I)|done|done|]. by apply Run.
  - rewrite (visited_others c blc) in Ex; [|done|by eauto].
    apply (exec_reporting_le Q (next_var f) _ e e2) in Ex as (e2'&E2&L2); [|done..].
    exists c, blc, e2, s, [], d, e2'. split_and!; [done| |done|done|done|done].
    rewrite (inserted_other _ _ _ _ _ I); [done..|]. by eapply wf_lt.
Qed.

Lemma visit_simulates q d z :
  reporting_run P f q d z → ∀ e2, env_le (next_var f) q.1.2 e2 →
  ∃ z', reporting_run Q f' (q.1.1, e2, q.2) d z' ∧ same_end (next_var f) z z'.
Proof.
  induction 1 as [c blc e s e' s' l r Hc Ex T|c blc e s e' s' l t k z Hc Ex T Run IH
    |c blc e s e' s' l o t t' tag w v k z Hc Ex T Hv Run IH]; cbn; intros e2 L;
    destruct (block_simulates _ _ _ _ _ _ _ _ Hc Ex L)
      as (c'&bl'&em&sm&d1&d2&e2'&->&Hc'&T'&Ex'&L'&Pre); rewrite T in T'.
  - exists (r, e2', s'). split; [|done]. by eapply Pre, run_end.
  - destruct (IH e2' L') as (z'&Run'&Z). exists z'. split; [|done].
    rewrite <-(assoc_L (++)). by eapply Pre, run_jump.
  - destruct (IH e2' L') as (z'&Run'&Z). exists z'. split; [|done].
    rewrite <-(assoc_L (++)). eapply Pre, run_branch; [done..| |exact Run'].
    eapply operand_val_le; [exact L'| |done].
    destruct (wf_below f W c blc Hc) as [_ B]. by rewrite T in B.
Qed.
End visit.

(** An instruction that has nothing to report. *)
Lemma silent_exec P Q x l e s e' s' d :
  (∀ y, Q y = P y && negb (y =? x)%nat) →
  Forall (λ i, res i = x → ∀ e d, reports i e = Some d → d = []) l →
  exec_reporting P l e s = Some (e', s', d) → exec_reporting Q l e s = Some (e', s', d).
Proof.
  intros HQ. revert e s d. induction l as [|i l IH]; intros e s d; [done|].
  intros [Hi Hl]%Forall_cons. cbn. destruct (rhs_sem other_sem e s (body i)) as [[v s1]|]; [|done].
  destruct (reported P i _) as [d1|] eqn:E; [|done].
  assert (reported Q i (bind_var e (res i) v) = Some d1) as ->.
  { unfold reported in *. rewrite HQ. destruct (P (res i)); [|done]. cbn.
    destruct (Nat.eqb_spec (res i) x) as [Ei|]; [|done]. by rewrite (Hi Ei _ _ E). }
  destruct (exec_reporting P l _ s1) as [[[e1 s2] d2]|] eqn:E2; [|done].
  intros [= -> -> <-]. by rewrite (IH _ _ _ Hl E2).
Qed.

Lemma silent_simulates P Q x f q d z :
  (∀ y, Q y = P y && negb (y =? x)%nat) →
  (∀ b bl ins, blocks f !! b = Some bl → ins ∈ instrs bl → res ins = x →
     ∀ e d, reports ins e = Some d → d = []) →
  reporting_run P f q d z → reporting_run Q f q d z.
Proof.
  intros HQ Hs. assert (∀ b bl e s e' s' d, blocks f !! b = Some bl →
    exec_reporting P (instrs bl) e s = Some (e', s', d) →
    exec_reporting Q (instrs bl) e s = Some (e', s', d)) as Hex.
  { intros b bl e s e' s' d' Hb. apply (silent_exec P Q x); [done|]. apply Forall_forall.
    intros i Hi Ei. by eapply Hs. }
  induction 1; [eapply run_end|eapply run_jump|eapply run_branch]; eauto.
Qed.

(** ** The pass *)

(** Instruction [x] waits for its visit: it is at one position of [f], in a
    block with a terminator. *)
Record ready (f : func) (x b i : nat) (bl : block) (ins : instr) : Prop := {
  ready_block : blocks f !! b = Some bl;
  ready_instr : instrs bl !! i = Some ins;
  ready_name : res ins = x;
  ready_term : term bl ≠ None;
  ready_typed : typed ins;
  ready_unique c bl' j ins' : blocks f !! c = Some bl' → instrs bl' !! j = Some ins' →
    res ins' = x → c = b ∧ j = i;
}.

Lemma find_instr_ok x b i (l : list (nat * block)) bl ins :
  (b, bl) ∈ l → instrs bl !! i = Some ins → res ins = x →
  (∀ c bl' j ins', (c, bl') ∈ l → instrs bl' !! j = Some ins' → res ins' = x → c = b ∧ j = i) →
  find_instr x l = Some (b, i).
Proof.
  induction l as [|[c bl'] l IH]; [by intros ?%elem_of_nil|]. intros Hin Hi Hx U. cbn.
  destruct (list_find (λ i, res i = x) (instrs bl')) as [[j ins']|] eqn:E.
  - apply list_find_Some in E as (Ej&Hj&_).
    destruct (U c bl' j ins') as [-> ->]; [by left|done..].
  - apply elem_of_cons in Hin as [[= <- <-]|Hin].
    + apply list_find_None in E. rewrite Forall_lookup in E. by destruct (E i ins).
    + apply IH; [done..|]. intros ?????. eapply U; by right.
Qed.

Lemma ready_locate f x b i bl ins : ready f x b i bl ins → locate x f = Some (b, i).
Proof.
  intros R. eapply find_instr_ok; [..|].
  - apply elem_of_map_to_list, (ready_block _ _ _ _ _ _ R).
  - apply (ready_instr _ _ _ _ _ _ R).
  - apply (ready_name _ _ _ _ _ _ R).
  - intros c bl' j ins' Hc%elem_of_map_to_list. by apply (ready_unique _ _ _ _ _ _ R).
Qed.

Lemma ready_below f x b i bl ins : wf f → ready f x b i bl ins → (x < next_var f)%nat.
Proof.
  intros W R. destruct (wf_below f W b bl (ready_block _ _ _ _ _ _ R)) as [B _].
  rewrite Forall_lookup in B. rewrite <-(ready_name _ _ _ _ _ _ R).
  apply (B i ins), (ready_instr _ _ _ _ _ _ R).
Qed.

(** The other instructions that wait stay the same, in one place. *)
Lemma ready_extended f f' x b i bl ins y c j bl' ins' :
  wf f → ready f x b i bl ins → ready f y c j bl' ins' → x ≠ y → extended f b i bl f' →
  ∃ c' j' bl2, ready f' y c' j' bl2 ins'.
Proof.
  intros W Rx Ry Hxy X. pose proof (extended_inserted _ _ _ _ _ X) as I.
  pose proof (ready_below _ _ _ _ _ _ W Ry) as Hy.
  destruct Rx as [Hb Hi Nx _ _ _]. destruct Ry as [Hc Hj Ny Ty Oy Uy].
  pose proof (wf_lt _ _ _ W Hb). pose proof (wf_lt _ _ _ W Hc).
  assert (∀ d bl2 k ins2, blocks f' !! d = Some bl2 → instrs bl2 !! k = Some ins2 → res ins2 = y →
    (d ≠ b ∧ d = c ∧ k = j) ∨ (d = b ∧ c = b ∧ k = j ∧ (j ≤ i)%nat) ∨
    (d = next_block f ∧ c = b ∧ (S i + k = j)%nat)) as Uf'.
  { intros d bl2 k ins2 Hd Hk Nk. destruct (decide (next_block f < d)%nat) as [Hlt|Hlt].
    - pose proof (extended_new _ _ _ _ _ X d bl2 ins2 Hlt Hd (list_elem_of_lookup_2 _ _ _ Hk)). lia.
    - destruct (decide (d = next_block f)) as [->|]; [|destruct (decide (d = b)) as [->|]].
      + rewrite (inserted_cont _ _ _ _ _ I) in Hd. injection Hd as <-. cbn in Hk.
        rewrite lookup_drop in Hk. destruct (Uy _ _ _ _ Hb Hk Nk). auto.
      + rewrite (inserted_origin _ _ _ _ _ I) in Hd. injection Hd as <-. cbn in Hk.
        apply lookup_take_Some in Hk as [Hk ?]. destruct (Uy _ _ _ _ Hb Hk Nk). subst.
        right; left. split_and!; [done..|lia].
      + rewrite (inserted_other _ _ _ _ _ I) in Hd by (done || lia).
        left. split; [done|]. by eapply Uy. }
  destruct (decide (c = b)) as [->|Hne]; [assert (bl' = bl) as -> by congruence; assert (j ≠ i) by congruence;
    destruct (decide (j < i)%nat)|].
  - exists b, j, {| instrs := take (S i) (instrs bl); term := Some (Br (S (next_block f))) |}.
    split; cbn; [apply (inserted_origin _ _ _ _ _ I)|by rewrite lookup_take_lt by lia|done..|].
    intros d bl2 k ins2 Hd Hk Nk. destruct (Uf' d bl2 k ins2 Hd Hk Nk) as [?|[?|?]]; lia.
  - exists (next_block f), (j - S i)%nat, {| instrs := drop (S i) (instrs bl); term := term bl |}.
    split; cbn; [apply (inserted_cont _ _ _ _ _ I)| |done..|].
    { rewrite lookup_drop, <-Hj. f_equal. lia. }
    intros d bl2 k ins2 Hd Hk Nk. destruct (Uf' d bl2 k ins2 Hd Hk Nk) as [?|[?|?]]; lia.
  - exists c, j, bl'. split; [by rewrite (inserted_other _ _ _ _ _ I)|done..|].
    intros d bl2 k ins2 Hd Hk Nk. destruct (Uf' d bl2 k ins2 Hd Hk Nk) as [?|[?|?]]; lia.
Qed.

(** The visit of a waiting instruction takes its report over. *)
Lemma visit_step f x b i bl ins P Q :
  wf f → (n0 ≤ next_var f)%nat → ready f x b i bl ins →
  (∀ y, P y = true → (y < next_var f)%nat) → P x = true →
  (∀ y, Q y = P y && negb (y =? x)%nat) →
  ∃ f1, visit_instr visit x f = Ok tt f1 ∧ wf f1 ∧ (next_var f ≤ next_var f1)%nat ∧
    (∀ y c j bl' ins', x ≠ y → ready f y c j bl' ins' → ∃ c' j' bl2, ready f1 y c' j' bl2 ins') ∧
    ∀ q d z, reporting_run P f q d z →
      ∃ z1, reporting_run Q f1 q d z1 ∧ same_end (next_var f) z z1.
Proof.
  intros W Hn R HP Px HQ. pose proof R as [Hb Hi Nx Hterm Ht Hu].
  assert (visit_instr visit x f = visit b i f) as ->.
  { unfold visit_instr, bind, get. by rewrite (ready_locate _ _ _ _ _ _ R). }
  destruct (checks_visit f b i bl ins W Hb Hi Hterm Ht) as [[E S]|(f1&E&X&Chk)].
  - exists f. split_and!; [done|done|done|by eauto|].
    intros q d z Run. exists z. split; [|apply same_end_refl].
    apply (silent_simulates P Q x); [done| |done].
    intros c bl' ins' Hc (j&Hj)%list_elem_of_lookup_1 E2.
    destruct (Hu _ _ _ _ Hc Hj E2) as [-> ->]. by simplify_eq.
  - exists f1. split_and!; [done|apply (extended_wf _ _ _ _ _ X)|apply (extended_var _ _ _ _ _ X)|..].
    + intros y c j bl' ins' Hne Ry. by apply (ready_extended f f1 x b i bl ins y c j bl' ins').
    + intros [[c e] s] d z Run.
      apply (visit_simulates f f1 b i bl ins P Q W Hn Hb Hi X HP) with (c, e, s) d z e in Run;
        [done|by rewrite Nx|by rewrite Nx| |done|apply env_le_refl].
      intros c' bl' j ins' Hc Hj E2. apply (Hu c' bl' j ins' Hc Hj). congruence.
Qed.

(** The pass on a function: what is left to report before the visits is what
    the branches of the instrumented function decide. *)
Lemma pass_simulates l f :
  wf f → (n0 ≤ next_var f)%nat → NoDup l →
  Forall (λ x, ∃ b i bl ins, ready f x b i bl ins) l →
  ∃ f', visit_all visit l f = Ok tt f' ∧ ∀ q d z,
    reporting_run (λ y, bool_decide (y ∈ l)) f q d z →
    ∃ z', reporting_run (λ _, false) f' q d z' ∧ same_end (next_var f) z z'.
Proof.
  revert f. induction l as [|x l IH]; intros f W Hn Hd Hl.
  { exists f. split; [done|]. intros q d z Run. exists z. split; [|apply same_end_refl].
    apply (silent_simulates (λ y, bool_decide (y ∈ [])) _ (next_var f));
      [|intros b bl ins Hb Hi E|exact Run].
    - intros y. by rewrite bool_decide_false by apply not_elem_of_nil.
    - destruct (wf_below f W b bl Hb) as [B _]. rewrite Forall_forall in B.
      destruct (B ins Hi). lia. }
  apply NoDup_cons in Hd as [Hx Hd]. rewrite Forall_forall in Hl.
  destruct (Hl x) as (b&i&bl&ins&R); [by left|].
  destruct (visit_step f x b i bl ins (λ y, bool_decide (y ∈ x :: l)) (λ y, bool_decide (y ∈ l)))
    as (f1&E&W1&V&Rdy&Sim1); [done|done|done| | | |].
  { intros y (c&j&bl'&ins'&Ry)%bool_decide_eq_true%Hl. by eapply ready_below. }
  { apply bool_decide_true. by left. }
  { intros y. destruct (Nat.eqb_spec y x) as [->|]; cbn [negb].
    - by rewrite andb_false_r, bool_decide_eq_false.
    - rewrite andb_true_r. apply bool_decide_ext. rewrite elem_of_cons. naive_solver. }
  destruct (IH f1) as (f'&E'&Sim); [done|lia|done| |].
  { apply Forall_forall. intros y Hy. destruct (Hl y) as (c&j&bl'&ins'&Ry); [by right|].
    destruct (Rdy y c j bl' ins') as (c'&j'&bl2&R2); [congruence|done|]. by exists c', j', bl2, ins'. }
  exists f'. split; [cbn; by rewrite (bind_Ok _ _ _ _ _ E)|].
  intros q d z Run. destruct (Sim1 _ _ _ Run) as (z1&Run1&T1&L1&S1).
  destruct (Sim _ _ _ Run1) as (z'&Run'&T2&L2&S2). exists z'. split; [done|].
  split_and!; [congruence| |congruence]. eapply env_le_trans; [exact L1|]. by eapply env_le_mono.
Qed.
End reporting.
