(* ===== verification/FPOverflow.v ===== *)
(** * The floating-point overflow checker

    Models compiler/FPOverflow.cpp: behind every floating-point operation that
    may give infinities or NaNs, [visitBinaryOperator] inserts a chain of
    blocks that branch on overflow, division by zero and exceptional results,
    both successors of each branch being the same. *)

From S2P Require Import Prelude Ieee Ir.

#[local] Open Scope Z_scope.
#[local] Abbreviation M := (M func).

(** The data members, of type [double]; they have no initialisers. *)
Record fp_checker : Type := {
  sementic_threshold : option spec_float;
  sementic_tolerance : option spec_float;
}.

Definition new_fp_checker : fp_checker :=
  {| sementic_threshold := None; sementic_tolerance := None |}.

Definition setSementicThreshold (threshold : spec_float) (c : fp_checker) : fp_checker :=
  {| sementic_threshold := Some threshold; sementic_tolerance := sementic_tolerance c |}.

Definition setSementicTolerance (tolerance : spec_float) (c : fp_checker) : fp_checker :=
  {| sementic_threshold := sementic_threshold c; sementic_tolerance := Some tolerance |}.

Definition read_double (v : option spec_float) : M spec_float :=
  match v with
  | Some f => ret f
  | None => fail (Undefined "read of an uninitialised member")
  end.

(** ** The conditions; [bb] is the block of the builder, [sem] the type of the
    operands.  [ConstantFP::get] of a [double] converts it to that type. *)
Section conditions.
Variables (bb : nat) (sem : fltSemantics).

Definition getOverflowCond (result : operand) : M operand :=
  let PosInf := ConstantFP sem (S754_infinity false) in
  let NegInf := ConstantFP sem (S754_infinity true) in
  IsPosInf <- CreateFCmp OEQ bb sem result PosInf ;;
  IsNegInf <- CreateFCmp OEQ bb sem result NegInf ;;
  CreateBin Or bb 1 IsPosInf IsNegInf.

Definition getDividedByZeroCondition (divisor : operand) (is_div : bool) : M operand :=
  if negb is_div then ret (OConst 1 0)
  else CreateFCmp OEQ bb sem divisor (ConstantFP sem (S754_zero false)).

Variable (ck : fp_checker).

Definition getSementicBoundCondition (result : operand) : M operand :=
  t <- read_double (sementic_threshold ck) ;;
  CreateFCmp OGT bb sem result (ConstantFP sem (convert sem t)).

Definition getSementicMinusBoundCondition (result : operand) : M operand :=
  t <- read_double (sementic_threshold ck) ;;
  CreateFCmp OLT bb sem result (ConstantFP sem (convert sem (SFopp t))).

Definition getSemnticMaxBoundCondition (result : operand) : M operand :=
  let MaxValue := getLargest sem in
  t <- read_double (sementic_tolerance ck) ;;
  let Tolerance := convert sem t in
  CreateFCmp OGT bb sem result (ConstantFP sem (flt_sub sem MaxValue Tolerance)).

Definition getSementicMinBoundCondition (result : operand) : M operand :=
  let MinValue := getSmallest sem in
  t <- read_double (sementic_tolerance ck) ;;
  let Tolerance := convert sem t in
  CreateFCmp OLT bb sem result (ConstantFP sem (flt_add sem MinValue Tolerance)).

(** Declared and defined, but never called. *)
Definition getSementicToleranceCondition (result : operand) : M operand :=
  t <- read_double (sementic_tolerance ck) ;;
  let Tolerance := convert sem t in
  let NegTolerance := SFopp Tolerance in
  LT <- CreateFCmp OLT bb sem result (ConstantFP sem Tolerance) ;;
  GT <- CreateFCmp OGT bb sem result (ConstantFP sem NegTolerance) ;;
  CreateBin And bb 1 LT GT.
End conditions.

(** ** [visitBinaryOperator]; [i] is the index of the instruction in block
    [OriginBB].  Operands have the type of the result. *)
Definition is_fdiv (op : fopcode) : bool := match op with FDiv => true | _ => false end.

Definition visitBinaryOperator (ck : fp_checker) (OriginBB i : nat) : M unit :=
  bl <- get_block OriginBB ;;
  match instrs bl !! i with
  (* The type is not a floating-point type. *)
  | Some {| body := RBin _ _ _ _ |} => ret tt
  | Some {| res := x; body := RFBin op sem flags a b |} =>
      if nnan flags && ninf flags then ret tt
      else if bool_decide (instrs bl !! S i = None ∧ term bl = None) then ret tt
      else
        ContBB <- splitBasicBlock OriginBB (S i) ;;
        set_term OriginBB None ;;;
        OverflowCheckBB <- CreateBB ;;
        DividedByZeroCheckBB <- CreateBB ;;
        BoundCheckBB <- CreateBB ;;
        MinusBoundCheckBB <- CreateBB ;;
        MaxBoundCheckBB <- CreateBB ;;
        MinBoundCheckBB <- CreateBB ;;
        CreateBr OriginBB OverflowCheckBB ;;;
        let I := OVar x in
        c <- getOverflowCond OverflowCheckBB sem I ;;
        CreateCondBr OverflowCheckBB c BoundCheckBB BoundCheckBB "fp_overflow" ;;;
        c <- getSementicBoundCondition BoundCheckBB sem ck I ;;
        CreateCondBr BoundCheckBB c DividedByZeroCheckBB DividedByZeroCheckBB
          "fp_exceptional_value" ;;;
        c <- getDividedByZeroCondition DividedByZeroCheckBB sem b (is_fdiv op) ;;
        CreateCondBr DividedByZeroCheckBB c MinusBoundCheckBB MinusBoundCheckBB
          "fp_divided_by_zero" ;;;
        c <- getSementicMinusBoundCondition MinusBoundCheckBB sem ck I ;;
        CreateCondBr MinusBoundCheckBB c MaxBoundCheckBB MaxBoundCheckBB
          "fp_exceptional_minus_value" ;;;
        c <- getSemnticMaxBoundCondition MaxBoundCheckBB sem ck I ;;
        CreateCondBr MaxBoundCheckBB c MinBoundCheckBB MinBoundCheckBB
          "fp_exceptional_max_value" ;;;
        c <- getSementicMinBoundCondition MinBoundCheckBB sem ck I ;;
        CreateCondBr MinBoundCheckBB c ContBB ContBB "fp_exceptional_min_value"
  | _ => fail (Undefined "not a binary operator")
  end.
