(* ===== verification/FPOverflowSpec.v ===== *)
(** * What the floating-point checks decide

    The conditions of compiler/FPOverflow.cpp, run while they are generated,
    and the chain that they form; [fp_checks] shows that the visitor meets the
    interface of a checker (Reporting.v). *)

From S2P Require Import Prelude Smt Ieee Ir Lockstep Instrument Reporting FPOverflow.

#[local] Open Scope Z_scope.
#[local] Abbreviation M := (M func).

Definition is_infinite (x : spec_float) : bool :=
  match x with S754_infinity _ => true | _ => false end.
Definition is_zero (x : spec_float) : bool :=
  match x with S754_zero _ => true | _ => false end.

(** The constants that the conditions compare with. *)
Section constants.
Context (sem : fltSemantics) (thr tol : spec_float).
Definition upper_bound : spec_float := convert sem thr.
Definition lower_bound : spec_float := convert sem (SFopp thr).
Definition near_largest : spec_float := flt_sub sem (getLargest sem) (convert sem tol).
Definition near_smallest : spec_float := flt_add sem (getSmallest sem) (convert sem tol).

(** The rounded settings are numbers of the format, as rounding gives them. *)
Definition settings_valid : bool :=
  flt_valid sem upper_bound && flt_valid sem lower_bound &&
  flt_valid sem near_largest && flt_valid sem near_smallest.

(** What the checks decide about a result [r] of an operation with second
    operand [y], in the order in which they run. *)
Definition fp_decisions (op : fopcode) (y r : spec_float) : report :=
  [("fp_overflow", is_infinite r);
   ("fp_exceptional_value", SFltb upper_bound r);
   ("fp_divided_by_zero", is_fdiv op && is_zero y);
   ("fp_exceptional_minus_value", SFltb r lower_bound);
   ("fp_exceptional_max_value", SFltb near_largest r);
   ("fp_exceptional_min_value", SFltb r near_smallest)].
End constants.

(** ** The conditions *)
Section conditions_ok.
Context {world : Type} (other_sem : nat → venv → world → option ((Z * Z) * world)).
Context (bb : nat) (e0 : venv) (s : world) (sem : fltSemantics).

Lemma holds_fp f e g :
  flt_valid sem g = true → holds f e (ConstantFP sem g) (flt_width sem, flt_to_bits sem g).
Proof.
  intros V%flt_to_bits_bound. split; [done|]. cbn. by rewrite wrap_small.
Qed.

Lemma gen_fcmp p f e x g bits :
  building other_sem bb e0 s f e → flt_valid sem g = true →
  holds f e x (flt_width sem, bits) →
  gen other_sem bb e0 s (CreateFCmp p bb sem x (ConstantFP sem g)) f e
    (1, bool_bit (fcmp_sem p (flt_of_bits sem bits) g)).
Proof.
  intros B V [_ Hx]. apply gen_emit; [done|]. cbn [rhs_sem]. rewrite Hx.
  destruct (holds_fp f e g V) as [_ ->]. rewrite Z.eqb_refl. cbn [andb].
  by rewrite flt_bits_roundtrip.
Qed.

Context (f : func) (e : venv) (B : building other_sem bb e0 s f e).
Context (x : operand) (bits : Z) (Hx : holds f e x (flt_width sem, bits)).

Lemma overflow_cond_ok :
  gen other_sem bb e0 s (getOverflowCond bb sem x) f e
    (1, bool_bit (is_infinite (flt_of_bits sem bits))).
Proof.
  unfold getOverflowCond. eapply gen_bind; [by apply gen_fcmp|]. intros o1 f1 e1 B1 X1 H1.
  eapply gen_bind; [apply gen_fcmp; [done|done|by apply X1]|]. intros o2 f2 e2 B2 X2 H2.
  eapply gen_eq; [by eapply gen_or; [|apply X2|]|]. do 2 f_equal.
  by destruct (flt_of_bits sem bits) as [|[]| |[]].
Qed.

Lemma zero_cond_ok is_div :
  gen other_sem bb e0 s (getDividedByZeroCondition bb sem x is_div) f e
    (1, bool_bit (is_div && is_zero (flt_of_bits sem bits))).
Proof.
  destruct is_div; cbn.
  - eapply gen_eq; [by apply gen_fcmp|]. do 2 f_equal.
    by destruct (flt_of_bits sem bits) as [|[]| |[]].
  - exists (OConst 1 0), f, e. split_and!; [done|done|split; [|done]|done].
    split_and!; [done|lia|done].
Qed.

Context (thr tol : spec_float) (ck : fp_checker) (V : settings_valid sem thr tol = true).
Context (Hthr : sementic_threshold ck = Some thr) (Htol : sementic_tolerance ck = Some tol).

#[local] Ltac member H p g :=
  rewrite H; cbn [read_double]; eapply gen_ret_bind; [done|];
  refine (gen_fcmp p f e x g bits B _ Hx);
  unfold settings_valid in V; rewrite !andb_true_iff in V; tauto.

Lemma upper_cond_ok :
  gen other_sem bb e0 s (getSementicBoundCondition bb sem ck x) f e
    (1, bool_bit (SFltb (upper_bound sem thr) (flt_of_bits sem bits))).
Proof. unfold getSementicBoundCondition. member Hthr OGT (upper_bound sem thr). Qed.
Lemma lower_cond_ok :
  gen other_sem bb e0 s (getSementicMinusBoundCondition bb sem ck x) f e
    (1, bool_bit (SFltb (flt_of_bits sem bits) (lower_bound sem thr))).
Proof. unfold getSementicMinusBoundCondition. member Hthr OLT (lower_bound sem thr). Qed.
Lemma max_cond_ok :
  gen other_sem bb e0 s (getSemnticMaxBoundCondition bb sem ck x) f e
    (1, bool_bit (SFltb (near_largest sem tol) (flt_of_bits sem bits))).
Proof. unfold getSemnticMaxBoundCondition. member Htol OGT (near_largest sem tol). Qed.
Lemma min_cond_ok :
  gen other_sem bb e0 s (getSementicMinBoundCondition bb sem ck x) f e
    (1, bool_bit (SFltb (flt_of_bits sem bits) (near_smallest sem tol))).
Proof. unfold getSementicMinBoundCondition. member Htol OLT (near_smallest sem tol). Qed.
End conditions_ok.

(** ** The visitor *)
Section visit.
Context {world : Type} (other_sem : nat → venv → world → option ((Z * Z) * world)).
Context (thr tol : spec_float) (ck : fp_checker).
Context (Hthr : sementic_threshold ck = Some thr) (Htol : sementic_tolerance ck = Some tol).

(** Six new blocks, given the first free one. *)
Lemma create_six {A} n (k : nat → nat → nat → nat → nat → nat → M A) f :
  next_block f = n →
  (b1 <- CreateBB ;; b2 <- CreateBB ;; b3 <- CreateBB ;; b4 <- CreateBB ;;
   b5 <- CreateBB ;; b6 <- CreateBB ;; k b1 b2 b3 b4 b5 b6) f =
  k n (1 + n)%nat (2 + n)%nat (3 + n)%nat (4 + n)%nat (5 + n)%nat (Nat.iter 6 add_block f).
Proof. by intros <-. Qed.

Context (f : func) (b i x : nat) (w : Z) (bl : block) (op : fopcode) (sem : fltSemantics).
Context (flags : fmf) (o1 o2 : operand).
Context (W : wf f) (Hb : blocks f !! b = Some bl).
Context (Hi : instrs bl !! i = Some {| res := x; ty := w; body := RFBin op sem flags o1 o2 |}).
Context (Hfl : nnan flags && ninf flags = false) (Hterm : term bl ≠ None).

Lemma fp_visit_setup :
  ∃ f1, set_up 6 f b i bl f1 ∧
    visitBinaryOperator ck b i f =
    (let n := next_block f in
     c <- getOverflowCond (1 + n) sem (OVar x) ;;
     CreateCondBr (1 + n) c (3 + n) (3 + n) "fp_overflow" ;;;
     c <- getSementicBoundCondition (3 + n) sem ck (OVar x) ;;
     CreateCondBr (3 + n) c (2 + n) (2 + n) "fp_exceptional_value" ;;;
     c <- getDividedByZeroCondition (2 + n) sem o2 (is_fdiv op) ;;
     CreateCondBr (2 + n) c (4 + n) (4 + n) "fp_divided_by_zero" ;;;
     c <- getSementicMinusBoundCondition (4 + n) sem ck (OVar x) ;;
     CreateCondBr (4 + n) c (5 + n) (5 + n) "fp_exceptional_minus_value" ;;;
     c <- getSemnticMaxBoundCondition (5 + n) sem ck (OVar x) ;;
     CreateCondBr (5 + n) c (6 + n) (6 + n) "fp_exceptional_max_value" ;;;
     c <- getSementicMinBoundCondition (6 + n) sem ck (OVar x) ;;
     CreateCondBr (6 + n) c n n "fp_exceptional_min_value")%nat f1.
Proof.
  pose proof (wf_blocks f W) as Hn. pose proof (wf_lt f b bl W Hb) as Hlt.
  eexists. split; [by apply set_up_ok|].
  unfold visitBinaryOperator. rewrite (bind_Ok _ _ _ _ _ (get_block_ok _ _ _ Hb)), Hi, Hfl.
  rewrite bool_decide_false by (by intros [_ ?]).
  rewrite (bind_Ok _ _ _ _ _ (splitBasicBlock_ok b (S i) bl f Hb Hn)).
  erewrite bind_Ok; [|apply set_term_ok; cbn; by rewrite lookup_insert_eq]. cbn [instrs].
  rewrite (create_six (S (next_block f))) by done.
  unfold CreateBr. erewrite bind_Ok; [|apply set_term_ok; cbn;
    repeat (rewrite lookup_insert_ne by lia); by rewrite lookup_insert_eq].
  reflexivity.
Qed.

Lemma generates_zero_cond n N f0 k bb o is_div :
  (n < bb < next_block f0)%nat → operand_below k o →
  generates n N f0 k (getDividedByZeroCondition bb sem o is_div).
Proof. intros. destruct is_div; cbn; auto with gen. Qed.
#[local] Hint Resolve generates_zero_cond : gen.

Lemma fp_visit_extended : ∃ f', visitBinaryOperator ck b i f = Ok tt f' ∧ extended f b i bl f'.
Proof.
  destruct fp_visit_setup as (f1&U&E).
  destruct (wf_below f W b bl Hb) as [B _]. rewrite Forall_lookup in B.
  destruct (B _ _ Hi) as [Hx [_ Ho]]. cbn in Hx.
  assert (operand_below (next_var f) (OVar x)) as Hr by done.
  pose proof (setup_next _ _ _ _ _ _ U) as N1.
  eapply completes_extended; [done..|exact E|]. cbv zeta.
  unfold getOverflowCond, getSementicBoundCondition, getSementicMinusBoundCondition,
    getSemnticMaxBoundCondition, getSementicMinBoundCondition.
  rewrite Hthr, Htol. cbn [read_double].
  do 5 gen_check. apply completes_last; [lia|]. gen_names.
Qed.

Context (V : settings_valid sem thr tol = true).

Lemma fp_visit_inserts e s v2 r :
  holds f e o2 (flt_width sem, v2) → holds f e (OVar x) (flt_width sem, r) →
  ∃ f', visitBinaryOperator ck b i f = Ok tt f' ∧ inserted f b i bl f' ∧
    checked other_sem f f' e s
      (fp_decisions sem thr tol op (flt_of_bits sem v2) (flt_of_bits sem r)).
Proof.
  intros H2 Hr. destruct fp_visit_setup as (f1&U&E). set (n := next_block f) in *.
  assert (∀ o v, holds f e o v → holds f1 e o v) as X1.
  { intros o v. apply holds_next. by rewrite (setup_var _ _ _ _ _ _ U). }
  apply X1 in H2, Hr. clear X1. pose proof (setup_empty _ _ _ _ _ _ U) as Emp. fold n in Emp.
  apply (runs_checked other_sem 6 f b i bl f1 e s _ _ [1 + n; 3 + n; 2 + n; 4 + n; 5 + n; 6 + n]%nat);
    [done|by apply wf_blocks|done| |].
  { fold n. repeat constructor; lia. }
  eapply runs_ext; [exact E|]. cbv zeta. fold n. unfold fp_decisions.
  run_check (is_infinite (flt_of_bits sem r)) overflow_cond_ok.
  run_check (SFltb (upper_bound sem thr) (flt_of_bits sem r)) upper_cond_ok.
  run_check (is_fdiv op && is_zero (flt_of_bits sem v2)) zero_cond_ok.
  run_check (SFltb (flt_of_bits sem r) (lower_bound sem thr)) lower_cond_ok.
  run_check (SFltb (near_largest sem tol) (flt_of_bits sem r)) max_cond_ok.
  apply runs_last; [unbuilt|]. intros ?. eapply min_cond_ok; eauto 10.
Qed.
End visit.

(** ** The interface *)
Section reports.
Context (thr tol : spec_float).

(** What an instruction reports: operations without both fast-math flags, the
    decisions about their result; other instructions, nothing. *)
Definition fp_reports (i : instr) (e : venv) : option report :=
  match body i with
  | RFBin op sem flags a b =>
      if nnan flags && ninf flags then Some []
      else match operand_val e b, e (res i) with
           | Some (w, y), Some (w', r) =>
               if (w =? flt_width sem) && (w' =? flt_width sem)
               then Some (fp_decisions sem thr tol op (flt_of_bits sem y) (flt_of_bits sem r))
               else None
           | _, _ => None
           end
  | _ => Some []
  end.

Lemma visit_binary_ok visit f b i bl ins :
  blocks f !! b = Some bl → instrs bl !! i = Some ins →
  visit_binary visit b i f =
  match body ins with RBin _ _ _ _ | RFBin _ _ _ _ _ => visit b i f | _ => Ok tt f end.
Proof.
  intros Hb Hi. unfold visit_binary. rewrite (bind_Ok _ _ _ _ _ (get_block_ok _ _ _ Hb)), Hi.
  by destruct ins as [x w []].
Qed.

Context {world : Type} (other_sem : nat → venv → world → option ((Z * Z) * world)).
Context (n0 : nat) (other_mono : ∀ k e1 e2 s v,
  env_le n0 e1 e2 → other_sem k e1 s = Some v → other_sem k e2 s = Some v).
Context (ck : fp_checker) (V : ∀ sem, settings_valid sem thr tol = true).
Context (Hthr : sementic_threshold ck = Some thr) (Htol : sementic_tolerance ck = Some tol).

Lemma fp_reports_mono k i e1 e2 d :
  env_le k e1 e2 → instr_below k i → fp_reports i e1 = Some d → fp_reports i e2 = Some d.
Proof.
  intros L [Hx Hr]. unfold fp_reports. destruct (body i) as [| op sem flags a b | | | |]; try done.
  destruct (nnan flags && ninf flags); [done|]. destruct Hr as [_ Hb].
  destruct (operand_val e1 b) as [[w y]|] eqn:E1; [|done].
  destruct (e1 (res i)) as [[w' r]|] eqn:E2; [|done].
  by rewrite (operand_val_le _ _ _ _ _ L Hb E1), (L _ _ Hx E2).
Qed.

Lemma fp_visit f b i bl ins :
  wf f → blocks f !! b = Some bl → instrs bl !! i = Some ins → term bl ≠ None →
  let visit := visit_binary (visitBinaryOperator ck) in
  (visit b i f = Ok tt f ∧ ∀ e d, fp_reports ins e = Some d → d = []) ∨
  ∃ f', visit b i f = Ok tt f' ∧ extended f b i bl f' ∧
    ∀ e (s : world) d, fp_reports ins e = Some d → checked other_sem f f' e s d.
Proof.
  intros W Hb Hi Ht visit. subst visit. rewrite (visit_binary_ok _ _ _ _ _ _ Hb Hi).
  unfold fp_reports. destruct ins as [x w [|op sem flags a c| | | |]]; cbn;
    try (left; split; [|by intros ?? [= <-]]); try done.
  { unfold visitBinaryOperator. by rewrite (bind_Ok _ _ _ _ _ (get_block_ok _ _ _ Hb)), Hi. }
  destruct (nnan flags && ninf flags) eqn:Hfl.
  { left. split; [|by intros ?? [= <-]].
    unfold visitBinaryOperator. by rewrite (bind_Ok _ _ _ _ _ (get_block_ok _ _ _ Hb)), Hi, Hfl. }
  right. destruct (fp_visit_extended thr tol ck Hthr Htol f b i x w bl op sem flags a c)
    as (f'&E&X); [done..|]. exists f'. split_and!; [done|done|]. intros e s d.
  destruct (operand_val e c) as [[w1 y]|] eqn:E1; [|done].
  destruct (e x) as [[w2 r]|] eqn:E2; [|done].
  destruct (Z.eqb_spec w1 (flt_width sem)) as [->|]; [|done].
  destruct (Z.eqb_spec w2 (flt_width sem)) as [->|]; [|done]. intros [= <-].
  destruct (wf_below f W b bl Hb) as [B _]. rewrite Forall_lookup in B.
  destruct (B _ _ Hi) as [Hx [_ Hc]]. cbn in Hx.
  destruct (fp_visit_inserts other_sem thr tol ck Hthr Htol f b i x w bl op sem flags a c
    W Hb Hi Hfl Ht (V sem) e s y r) as (f2&E'&_&C); [|done|].
  { split; [by destruct c|done]. }
  rewrite E in E'. by injection E' as <-.
Qed.

#[export] Instance fp_checks :
  Checks other_sem fp_reports n0 (λ _, True) (visit_binary (visitBinaryOperator ck)).
Proof.
  split; [done|exact fp_reports_mono|]. intros f b i bl ins W Hb Hi Ht _. by apply fp_visit.
Qed.
End reports.
