(* ===== verification/Passes.v ===== *)
(** * The passes that run the overflow checkers

    Models the function passes of compiler/Pass.cpp that apply the checkers of
    OverflowChecker.v and FPOverflow.v, those of the legacy pass manager
    ([runOnFunction]) and those of the new one ([run]).  [layout] is the order
    of the blocks of the function. *)

From S2P Require Import Prelude Ieee Ir.
From S2P Require OverflowChecker FPOverflow.

#[local] Open Scope Z_scope.
#[local] Abbreviation M := (M func).

(** All instructions are collected before the first one is visited. *)
Definition visit_instructions (visitBinaryOperator : nat → nat → M unit) (layout : list nat)
    : M unit :=
  f <- get ;; visit_all (visit_binary visitBinaryOperator) (instructions layout f).

(** The literals [100.0] and [1e-5], of type [double]. *)
Definition double_100 : spec_float := S754_finite false 7036874417766400 (-46).
Definition double_1em5 : spec_float := S754_finite false 5902958103587057 (-69).

Module OverflowCheckerLegacyPass.
Definition checker : OverflowChecker.checker :=
  OverflowChecker.setSementicTolerance 10
    (OverflowChecker.setSementicThreshold 10 OverflowChecker.new_checker).
Definition runOnFunction (types : nat → option Z) (layout : list nat) : M bool :=
  visit_instructions (OverflowChecker.visitBinaryOperator types checker) layout ;;; ret true.
End OverflowCheckerLegacyPass.

Module FPOverflowCheckerLegacyPass.
Definition checker : FPOverflow.fp_checker :=
  FPOverflow.setSementicTolerance double_1em5
    (FPOverflow.setSementicThreshold double_100 FPOverflow.new_fp_checker).
Definition runOnFunction (layout : list nat) : M bool :=
  visit_instructions (FPOverflow.visitBinaryOperator checker) layout ;;; ret true.
End FPOverflowCheckerLegacyPass.

(** What a pass of the new manager says about the analyses. *)
Inductive PreservedAnalyses : Type := preserved_none | preserved_all.

Module OverflowCheckerPass.
Definition checker : OverflowChecker.checker :=
  OverflowChecker.setSementicThreshold 100 OverflowChecker.new_checker.
Definition run (types : nat → option Z) (layout : list nat) : M PreservedAnalyses :=
  visit_instructions (OverflowChecker.visitBinaryOperator types checker) layout ;;;
  ret preserved_none.
End OverflowCheckerPass.

Module FPOverflowCheckerPass.
Definition checker : FPOverflow.fp_checker :=
  FPOverflow.setSementicThreshold double_100 FPOverflow.new_fp_checker.
Definition run (layout : list nat) : M PreservedAnalyses :=
  visit_instructions (FPOverflow.visitBinaryOperator checker) layout ;;; ret preserved_none.
End FPOverflowCheckerPass.
