(* ===== verification/PassSpec.v ===== *)
(** * The passes meet the specification of instrumentation

    The integer checker meets the interface of Reporting.v, too, and the passes
    visit every instruction of a function exactly once. *)

From S2P Require Import Prelude Smt Ieee Ir Lockstep OverflowSpec Instrument Reporting FPOverflowSpec.
From S2P Require Import Passes OverflowChecker.

#[local] Open Scope Z_scope.
#[local] Abbreviation M := (M func).

(** ** The integer checker *)
Section integer.
Context (types : nat → option Z) (thr tol : Z) (ck : checker).
Context (Hthr : sementic_threshold ck = Some thr) (Htol : sementic_tolerance ck = Some tol).
Context (Rthr : 0 ≤ thr < 2 ^ 31) (Rtol : 0 ≤ tol < 2 ^ 31).

Definition is_checked (op : opcode) (a b : operand) : bool :=
  bool_decide (operand_type types a = Some 32) && bool_decide (operand_type types b = Some 32) &&
  checked_opcode op.

(** The operands of a 32-bit instruction are words, and the multiplication of
    the condition does not trap. *)
Definition operands_ok (op : opcode) (a b : Z) : bool :=
  (0 <=? a) && (a <? 2 ^ 32) && (0 <=? b) && (b <? 2 ^ 32) &&
  negb (bool_decide (op = Mul) && (sgn 32 a =? -1) && (sgn 32 b =? - 2 ^ 31)).

Definition int_reports (i : instr) (e : venv) : option report :=
  match body i with
  | RBin op fl a b =>
      if negb (is_checked op a b) then Some []
      else match operand_val e a, operand_val e b, e (res i) with
           | Some (w1, v1), Some (w2, v2), Some (w, r) =>
               if (w1 =? 32) && (w2 =? 32) && (w =? 32) && operands_ok op v1 v2
               then Some (decisions thr tol op v1 v2 r) else None
           | _, _, _ => None
           end
  | _ => Some []
  end.

(** An instruction on 32-bit operands gives a 32-bit result. *)
Definition int_typed (i : instr) : Prop :=
  match body i with
  | RBin op _ a _ => operand_type types a = Some 32 → ty i = 32
  | _ => True
  end.

Lemma operands_ok_spec op a b :
  operands_ok op a b = true → 0 ≤ a < 2 ^ 32 ∧ 0 ≤ b < 2 ^ 32 ∧ check_defined op a b.
Proof.
  unfold operands_ok, check_defined. rewrite !andb_true_iff, negb_true_iff. intros H.
  split_and!; [lia..|]. intros -> [E1 E2].
  destruct H as [_ H]. by rewrite E1, E2, bool_decide_true in H by done.
Qed.

Section visit.
Context (f : func) (b i x : nat) (bl : block) (op : opcode) (fl : int_flags) (o1 o2 : operand).
Context (W : wf f) (Hb : blocks f !! b = Some bl).
Context (Hi : instrs bl !! i = Some {| res := x; ty := 32; body := RBin op fl o1 o2 |}).
Context (H1 : operand_type types o1 = Some 32) (H2 : operand_type types o2 = Some 32).
Context (Hop : checked_opcode op = true) (Hterm : term bl ≠ None).

Lemma generates_overflow n N f0 k bb a c :
  (n < bb < next_block f0)%nat → operand_below k a → operand_below k c →
  generates n N f0 k (overflow_generator bb op a c).
Proof.
  intros. destruct op; cbn; unfold getAddOverflowCondition, getSubOverflowCondition,
    getMulOverflowCondition, getDividedByZeroCondition, INT_MAX_V, INT_MIN_V, UINT_MAX_V, ZERO;
    solve [gen_names].
Qed.
#[local] Hint Resolve generates_overflow : gen.

Lemma int_result_ret z : - 2 ^ 31 ≤ z < 2 ^ 31 → int_result z = ret z.
Proof. intros H. unfold int_result. by replace (_ && _) with true by lia. Qed.

Lemma int_visit_extended :
  ∃ f', visitBinaryOperator types ck b i f = Ok tt f' ∧ extended f b i bl f'.
Proof.
  destruct (visit_setup types ck f b i x bl op fl o1 o2 Hb (wf_blocks f W) Hi H1 H2 Hop)
    as (f1&U&E); [by right|].
  destruct (wf_below f W b bl Hb) as [B _]. rewrite Forall_lookup in B.
  destruct (B _ _ Hi) as [Hx [Ho1 Ho2]]. cbn in Hx.
  assert (operand_below (next_var f) (OVar x)) as Hr by done.
  pose proof (setup_next _ _ _ _ _ _ U) as N1.
  assert (∀ A z (K : Z → M A), - 2 ^ 31 ≤ z < 2 ^ 31 → bind (int_result z) K = K z) as Er.
  { intros A z K Hz. by rewrite int_result_ret. }
  eapply completes_extended; [done..|exact E|]. cbv zeta.
  unfold getSementicSignedBoundCondition, getSementicUnsignedBoundCondition,
    getSementicSignedMinusBoundCondition, getSementicMaxBoundCondition,
    getSementicMinBoundCondition, getSementicSignedMaxBoundCondition,
    getSementicSignedMinBoundCondition.
  rewrite Hthr, Htol. cbn [read_int].
  change (bind (ret ?z) ?K) with (K z). cbv beta. rewrite !Er by lia.
  do 7 gen_check. apply completes_last; [lia|]. gen_names.
Qed.
End visit.

Section checks.
Context {world : Type} (other_sem : nat → venv → world → option ((Z * Z) * world)).
Context (n0 : nat) (other_mono : ∀ k e1 e2 s v,
  env_le n0 e1 e2 → other_sem k e1 s = Some v → other_sem k e2 s = Some v).

Lemma int_reports_mono k i e1 e2 d :
  env_le k e1 e2 → instr_below k i → int_reports i e1 = Some d → int_reports i e2 = Some d.
Proof.
  intros L [Hx Hr]. unfold int_reports. destruct (body i) as [op fl a b| | | | |]; try done.
  destruct (negb (is_checked op a b)); [done|]. destruct Hr as [Ha Hb].
  destruct (operand_val e1 a) as [[wa va]|] eqn:E1; [|done].
  destruct (operand_val e1 b) as [[wb vb]|] eqn:E2; [|done].
  destruct (e1 (res i)) as [[wr r]|] eqn:E3; [|done].
  by rewrite (operand_val_le _ _ _ _ _ L Ha E1), (operand_val_le _ _ _ _ _ L Hb E2), (L _ _ Hx E3).
Qed.

Lemma int_visit f b i bl ins :
  wf f → blocks f !! b = Some bl → instrs bl !! i = Some ins → term bl ≠ None → int_typed ins →
  let visit := visit_binary (visitBinaryOperator types ck) in
  (visit b i f = Ok tt f ∧ ∀ e d, int_reports ins e = Some d → d = []) ∨
  ∃ f', visit b i f = Ok tt f' ∧ extended f b i bl f' ∧
    ∀ e (s : world) d, int_reports ins e = Some d → checked other_sem f f' e s d.
Proof.
  intros W Hb Hi Ht Hty visit. subst visit. rewrite (visit_binary_ok _ _ _ _ _ _ Hb Hi).
  unfold int_reports, int_typed in *. destruct ins as [x w [op nf a c|op sem fl a c| | | |]]; cbn in *;
    try (left; split; [|by intros ?? [= <-]]); try done.
  2: { by eapply visit_unchecked. }
  destruct (is_checked op a c) eqn:Hck; cbn.
  2: { left. split; [|by intros ?? [= <-]]. eapply visit_unchecked; [done..|]. cbn.
       unfold is_checked in Hck. repeat case_bool_decide; cbn in Hck; tauto. }
  unfold is_checked in Hck. rewrite !andb_true_iff, !bool_decide_eq_true in Hck.
  destruct Hck as [[H1 H2] Hop]. rewrite Hty in Hi by done. right.
  destruct (int_visit_extended f b i x bl op nf a c W Hb Hi H1 H2 Hop Ht) as (f'&E&X).
  exists f'. split_and!; [done|done|]. intros e s d.
  destruct (operand_val e a) as [[wa va]|] eqn:E1; [|done].
  destruct (operand_val e c) as [[wc vc]|] eqn:E2; [|done].
  destruct (e x) as [[wr r]|] eqn:E3; [|done].
  destruct (Z.eqb_spec wa 32) as [->|]; [|done]. destruct (Z.eqb_spec wc 32) as [->|]; [|done].
  destruct (Z.eqb_spec wr 32) as [->|]; [|done].
  destruct (operands_ok op va vc) eqn:Hok; [|done]. intros [= <-].
  apply operands_ok_spec in Hok as (R1&R2&Hd).
  destruct (wf_below f W b bl Hb) as [B _]. rewrite Forall_lookup in B.
  destruct (B _ _ Hi) as [Hx [Ha Hc]]. cbn in Hx.
  destruct (visit_inserts other_sem types thr tol ck Hthr Htol Rthr Rtol f b i x bl op nf a c Hb
    (wf_blocks f W) Hi H1 H2 Hop (or_intror Ht) e s va vc r R1 R2 Hd) as (f2&E'&_&C).
  - split; [by destruct a|done].
  - split; [by destruct c|done].
  - done.
  - rewrite E in E'. by injection E' as <-.
Qed.

#[export] Instance int_checks :
  Checks other_sem int_reports n0 int_typed (visit_binary (visitBinaryOperator types ck)).
Proof. split; [done|exact int_reports_mono|exact int_visit]. Qed.
End checks.
End integer.

(** ** All instructions of a function *)

(** What the passes rely on: the blocks and the instructions are listed once,
    each block ends in a terminator, and instructions are well typed. *)
Record function_ok (typed : instr → Prop) (layout : list nat) (f : func) : Prop := {
  ok_wf : wf f;
  ok_layout : NoDup layout;
  ok_blocks b : b ∈ layout ↔ is_Some (blocks f !! b);
  ok_names : NoDup (instructions layout f);
  ok_term b bl : blocks f !! b = Some bl → term bl ≠ None;
  ok_typed b bl i : blocks f !! b = Some bl → i ∈ instrs bl → typed i;
}.

(** Where a name occurs once, it has one position. *)
Lemma bind_position {A B} (g : A → list B) (l : list A) a b i j x :
  NoDup l → NoDup (l ≫= g) → a ∈ l → b ∈ l → g a !! i = Some x → g b !! j = Some x →
  a = b ∧ i = j.
Proof.
  intros Hl H. induction l as [|c l IH]; [by intros ?%elem_of_nil|]. cbn in H.
  apply NoDup_app in H as (H1&H2&H3). apply NoDup_cons in Hl as [Hc Hl].
  assert (∀ d k, d ∈ l → g d !! k = Some x → x ∈ l ≫= g) as In.
  { intros d k Hd Hk. apply list_elem_of_bind. exists d. split; [|done].
    by eapply list_elem_of_lookup_2. }
  intros [->|Ha]%elem_of_cons [->|Hb]%elem_of_cons Hi Hj.
  - split; [done|]. eapply NoDup_lookup; [exact H1|done..].
  - destruct (H2 x); [by eapply list_elem_of_lookup_2|by eapply In].
  - destruct (H2 x); [by eapply list_elem_of_lookup_2|by eapply In].
  - by apply IH.
Qed.

Lemma instructions_ready typed layout f x :
  function_ok typed layout f → x ∈ instructions layout f →
  ∃ b i bl ins, ready (typed:=typed) f x b i bl ins.
Proof.
  intros [W HL HB HN HT HY] (b&Hx&Hb)%list_elem_of_bind.
  destruct (blocks f !! b) as [bl|] eqn:E; [|by apply elem_of_nil in Hx].
  apply list_elem_of_fmap in Hx as (ins&->&Hi). apply list_elem_of_lookup in Hi as [i Hi].
  exists b, i, bl, ins. split; [done..|by eapply HT|by eapply HY, list_elem_of_lookup_2|].
  intros c bl' j ins' Hc Hj En.
  apply (bind_position (λ b, match blocks f !! b with Some bl => res <$> instrs bl | None => [] end)
    layout c b j i (res ins) HL HN).
  - apply HB. by rewrite Hc.
  - done.
  - by rewrite Hc, list_lookup_fmap, Hj, <-En.
  - by rewrite E, list_lookup_fmap, Hi.
Qed.

Section pass.
Context {world : Type} (other_sem : nat → venv → world → option ((Z * Z) * world)).
Context {reports : instr → venv → option report} {n0 : nat} {typed : instr → Prop}.
Context {visitBinaryOperator : nat → nat → M unit}.
Context {C : Checks other_sem reports n0 typed (visit_binary visitBinaryOperator)}.

Lemma pass_refines layout f :
  function_ok typed layout f → (n0 ≤ next_var f)%nat →
  ∃ f', visit_instructions visitBinaryOperator layout f = Ok tt f' ∧ ∀ q d z,
    reporting_run other_sem reports (λ _, true) f q d z →
    ∃ z', reporting_run other_sem reports (λ _, false) f' q d z' ∧ same_end (next_var f) z z'.
Proof.
  intros F Hn. destruct (pass_simulates other_sem reports (instructions layout f) f)
    as (f'&E&Sim); [apply F|done|apply F| |].
  { apply Forall_forall. intros x. by apply instructions_ready. }
  exists f'. split; [done|]. intros q d z Run. apply Sim. clear Sim E.
  assert (∀ b bl, blocks f !! b = Some bl → Forall (λ i,
    true = bool_decide (res i ∈ instructions layout f)) (instrs bl)) as Hall.
  { intros b bl Hb. apply Forall_forall. intros i Hi. symmetry. apply bool_decide_eq_true.
    apply list_elem_of_bind. exists b. rewrite Hb. split; [by apply list_elem_of_fmap_2|].
    apply (ok_blocks _ _ _ F). by rewrite Hb. }
  induction Run as [b bl e s e' s' l r Hb Ex|b bl e s e' s' l t k z Hb Ex|
    b bl e s e' s' l c t t' tag w v k z Hb Ex];
    rewrite (exec_reporting_ext _ _ _ (λ y, bool_decide (y ∈ instructions layout f))) in Ex by eauto;
    [eapply run_end|eapply run_jump|eapply run_branch]; eauto.
Qed.
End pass.

(** ** Checkers without a tolerance *)
Lemma fp_visit_no_tolerance ck b i f bl x w op sem flags o1 o2 :
  FPOverflow.sementic_tolerance ck = None → blocks f !! b = Some bl →
  instrs bl !! i = Some {| res := x; ty := w; body := RFBin op sem flags o1 o2 |} →
  nnan flags && ninf flags = false → term bl ≠ None →
  ∀ f', FPOverflow.visitBinaryOperator ck b i f ≠ Ok tt f'.
Proof.
  intros Ht Hb Hi Hfl Hterm. unfold FPOverflow.visitBinaryOperator.
  rewrite (bind_Ok _ _ _ _ _ (get_block_ok _ _ _ Hb)), Hi, Hfl.
  rewrite bool_decide_false by (by intros [_ ?]).
  do 17 (apply bind_not_Ok; intros ? ? _). apply bind_not_Ok; intros ? f1 E.
  unfold FPOverflow.getSemnticMaxBoundCondition in E. by rewrite Ht in E.
Qed.

(** A pass does not get past an instruction that it cannot visit. *)
Lemma visit_all_stuck visit l f :
  Forall (λ x, visit_instr visit x f = Ok tt f ∨ ∀ f', visit_instr visit x f ≠ Ok tt f') l →
  Exists (λ x, ∀ f', visit_instr visit x f ≠ Ok tt f') l →
  ∀ f', visit_all visit l f ≠ Ok tt f'.
Proof.
  induction l as [|x l IH]; [by intros _ ?%Exists_nil|].
  intros [Hx Hl]%Forall_cons Hex. cbn. apply bind_not_Ok. intros [] f1 E [].
  destruct Hx as [Hx|Hx]; [|by destruct (Hx f1)]. rewrite Hx in E. injection E as <-.
  apply Exists_cons in Hex as [Hex|Hex]; [by destruct (Hex f)|by apply IH].
Qed.

Lemma visit_instr_ready typed V f x b i bl ins :
  ready (typed:=typed) f x b i bl ins →
  visit_instr (visit_binary V) x f =
  match body ins with RBin _ _ _ _ | RFBin _ _ _ _ _ => V b i f | _ => Ok tt f end.
Proof.
  intros R. unfold visit_instr, bind, get. rewrite (ready_locate _ _ _ _ _ _ R).
  eapply visit_binary_ok; [apply (ready_block _ _ _ _ _ _ R)|apply (ready_instr _ _ _ _ _ _ R)].
Qed.

(** A function with an instruction to check, which the pass cannot visit. *)
Lemma pass_stuck typed V layout f (checked : instr → Prop) :
  function_ok typed layout f →
  (∀ b i bl ins, blocks f !! b = Some bl → instrs bl !! i = Some ins → term bl ≠ None →
     match body ins with RBin _ _ _ _ | RFBin _ _ _ _ _ => True | _ => False end →
     (V b i f = Ok tt f ∧ ¬ checked ins) ∨ ∀ f', V b i f ≠ Ok tt f') →
  (∀ ins, checked ins →
     match body ins with RBin _ _ _ _ | RFBin _ _ _ _ _ => True | _ => False end) →
  (∃ b bl ins, blocks f !! b = Some bl ∧ ins ∈ instrs bl ∧ checked ins) →
  ∀ f', visit_instructions V layout f ≠ Ok tt f'.
Proof.
  intros F HV Hc (b&bl&ins&Hb&Hin&Hck). unfold visit_instructions. cbn [bind get].
  assert (∀ x, x ∈ instructions layout f → ∃ b i bl ins, ready (typed:=typed) f x b i bl ins) as R
    by (intros x; by apply instructions_ready).
  assert (res ins ∈ instructions layout f) as Hx.
  { apply list_elem_of_bind. exists b. rewrite Hb. split; [by apply list_elem_of_fmap_2|].
    apply (ok_blocks _ _ _ F). by rewrite Hb. }
  apply visit_all_stuck; [apply Forall_forall|apply Exists_exists].
  - intros x (c&j&bl'&ins'&Rx)%R. rewrite (visit_instr_ready _ _ _ _ _ _ _ _ Rx).
    destruct Rx as [Hc' Hj _ Ht _ _]. specialize (HV c j bl' ins' Hc' Hj Ht).
    destruct (body ins'); try (by left); destruct (HV I) as [[? _]|?]; auto.
  - exists (res ins). split; [done|]. destruct (R _ Hx) as (c&j&bl'&ins'&Rx).
    rewrite (visit_instr_ready _ _ _ _ _ _ _ _ Rx). destruct Rx as [Hc' Hj En Ht _ U].
    apply list_elem_of_lookup in Hin as [k Hk]. destruct (U b bl k ins Hb Hk eq_refl) as [-> ->].
    assert (ins' = ins) as -> by congruence. specialize (HV c j bl' ins Hc' Hj Ht).
    specialize (Hc ins Hck). destruct (body ins); try done; destruct (HV I) as [[_ ?]|?]; done.
Qed.

(** ** The passes whose checkers have no tolerance *)
Definition int_checked (types : nat → option Z) (i : instr) : Prop :=
  match body i with RBin op fl a b => is_checked types op a b = true | _ => False end.
Definition fp_checked (i : instr) : Prop :=
  match body i with RFBin _ _ flags _ _ => nnan flags && ninf flags = false | _ => False end.
Definition has_instr (P : instr → Prop) (f : func) : Prop :=
  ∃ b bl ins, blocks f !! b = Some bl ∧ ins ∈ instrs bl ∧ P ins.

Lemma int_pass_stuck types ck typed layout f :
  sementic_tolerance ck = None → function_ok typed layout f → has_instr (int_checked types) f →
  ∀ f', visit_instructions (visitBinaryOperator types ck) layout f ≠ Ok tt f'.
Proof.
  intros Ht F. apply (pass_stuck typed _ _ _ _ F).
  - intros b i bl [x w r] Hb Hi Hterm. unfold int_checked, is_checked. cbn.
    destruct r as [op nf a c|op sem fl a c| | | |]; try done; intros _.
    + destruct (decide (operand_type types a = Some 32)); [|left].
      * destruct (decide (operand_type types c = Some 32)); [|left].
        { destruct (checked_opcode op) eqn:Hop; [right|left].
          - by eapply (visit_no_tolerance types ck b i f bl x w op nf a c); auto.
          - rewrite andb_false_r. split; [|done].
            eapply visit_unchecked; [done..|]. cbn. auto. }
        rewrite (bool_decide_false (operand_type types c = _)), andb_false_r by done.
        split; [|done]. eapply visit_unchecked; [done..|]. cbn. auto.
      * rewrite bool_decide_false by done. split; [|done].
        eapply visit_unchecked; [done..|]. cbn. auto.
    + left. split; [|tauto]. by eapply visit_unchecked.
  - intros [x w r]. by destruct r.
Qed.

Lemma fp_pass_stuck ck typed layout f :
  FPOverflow.sementic_tolerance ck = None → function_ok typed layout f → has_instr fp_checked f →
  ∀ f', visit_instructions (FPOverflow.visitBinaryOperator ck) layout f ≠ Ok tt f'.
Proof.
  intros Ht F. apply (pass_stuck typed _ _ _ _ F).
  - intros b i bl [x w r] Hb Hi Hterm. unfold fp_checked. cbn.
    destruct r as [op nf a c|op sem fl a c| | | |]; try done; intros _.
    + left. split; [|tauto]. unfold FPOverflow.visitBinaryOperator.
      by rewrite (bind_Ok _ _ _ _ _ (get_block_ok _ _ _ Hb)), Hi.
    + destruct (nnan fl && ninf fl) eqn:Hfl; [left|right].
      * split; [|done]. unfold FPOverflow.visitBinaryOperator.
        by rewrite (bind_Ok _ _ _ _ _ (get_block_ok _ _ _ Hb)), Hi, Hfl.
      * by eapply fp_visit_no_tolerance.
  - intros [x w r]. by destruct r.
Qed.

(** A function of two blocks. *)
Definition two_blocks (b0 b1 : block) (names : nat) : func :=
  {| blocks := {[0%nat := b0; 1%nat := b1]}; next_block := 2; next_var := names |}.

Lemma two_blocks_ok (typed : instr → Prop) b0 b1 names :
  block_below names b0 → block_below names b1 → NoDup (res <$> instrs b0 ++ instrs b1) →
  term b0 ≠ None → term b1 ≠ None → Forall typed (instrs b0 ++ instrs b1) →
  function_ok typed [0; 1]%nat (two_blocks b0 b1 names).
Proof.
  intros B0 B1 ND T0 T1 HT. apply Forall_app in HT as [HT0 HT1].
  assert (∀ b bl, blocks (two_blocks b0 b1 names) !! b = Some bl →
    (b = 0%nat ∧ bl = b0) ∨ (b = 1%nat ∧ bl = b1)) as Inv.
  { intros b bl. cbn. intros [[<- <-]|[_ [<- <-]%lookup_singleton_Some]]%lookup_insert_Some; auto. }
  split.
  - split.
    + intros c Hc. cbn in Hc |- *. rewrite lookup_insert_ne by lia.
      by rewrite lookup_singleton_ne by lia.
    + by intros b bl [[-> ->]|[-> ->]]%Inv.
  - repeat constructor; set_solver.
  - intros b. rewrite !elem_of_cons. split.
    + intros [->|[->|?%elem_of_nil]]; [by eexists..|done].
    + intros [bl [[-> ->]|[-> ->]]%Inv]; auto.
  - change (NoDup ((res <$> instrs b0) ++ (res <$> instrs b1) ++ [])).
    by rewrite app_nil_r, <-fmap_app.
  - by intros b bl [[-> ->]|[-> ->]]%Inv.
  - intros b bl i Hb Hi. apply Inv in Hb as [[-> ->]|[-> ->]];
      rewrite Forall_forall in *; auto.
Qed.
