(* ===== verification/Pipeline.v ===== *)
(** * Passes and their order

    The rest of compiler/Pass.cpp, with compiler/Unroll.cpp and
    compiler/Main.cpp: the lowering of calls that precedes instrumentation, the
    entry points of the passes in both pass managers, loop unrolling, and the
    order in which the passes are registered.  LLVM's own transformations are
    arguments. *)

From S2P Require Import Prelude Smt Z3Api Interface Symbolizer Linking Passes.

#[local] Open Scope Z_scope.

(** ** Lowering *)

(** What an instruction calls, before lowering: LLVM's intrinsics have names. *)
Inductive called : Type :=
| NoCall
| NoCallee                     (** through a pointer *)
| CalledIntrinsic (id : string)
| CalledFunction
| CalledAsm.

Section lowering.
Context (LLVM_VERSION_MAJOR : Z).

(** The cases of the [switch], with the condition under which they are
    compiled. *)
Definition lowered_intrinsics : list (string * bool) := [
  ("expect", true); ("ctpop", true); ("ctlz", true); ("cttz", true); ("prefetch", true);
  ("pcmarker", true); ("dbg_declare", true); ("dbg_label", true); ("annotation", true);
  ("ptr_annotation", true); ("assume", true);
  ("experimental_noalias_scope_decl", (11 <? LLVM_VERSION_MAJOR)%Z); ("var_annotation", true);
  ("sqrt", true); ("log", true); ("log2", true); ("log10", true); ("exp", true); ("exp2", true);
  ("pow", true); ("sin", true); ("cos", true); ("floor", true); ("ceil", true); ("trunc", true);
  ("round", true); ("roundeven", (10 <? LLVM_VERSION_MAJOR)%Z); ("copysign", true);
  ("flt_rounds", (LLVM_VERSION_MAJOR <? 16)%Z); ("get_rounding", (16 <=? LLVM_VERSION_MAJOR)%Z);
  ("invariant_start", true); ("lifetime_start", true); ("invariant_end", true);
  ("lifetime_end", true)]%string.

Definition canLower (c : called) : bool :=
  match c with
  | CalledIntrinsic id => existsb (λ p, bool_decide (p.1 = id) && p.2) lowered_intrinsics
  | _ => false
  end.

Context {I Target SubTarget Lowering : Type} (target_of : I → called).
(** [IntrinsicLowering::LowerIntrinsicCall]: the instructions that replace the
    call. *)
Context (LowerIntrinsicCall : I → list I).
(** The target of the module, its options for the function, and what it does to
    inline assembly. *)
Context (lookupTarget : option Target) (getSubtargetImpl : Target → option SubTarget).
Context (getTargetLowering : SubTarget → option Lowering) (ExpandInlineAsm : Lowering → I → list I).

Definition liftInlineAssembly (CI : I) : list I :=
  match lookupTarget with
  | None => [CI]
  | Some target =>
      match getSubtargetImpl target with
      | None => [CI]
      | Some subTarget =>
          match getTargetLowering subTarget with
          | None => [CI]
          | Some targetLowering => ExpandInlineAsm targetLowering CI
          end
      end
  end.

(** The first loop of [instrumentFunction], over the instructions collected
    before it. *)
Definition lower_instruction (i : I) : list I :=
  match target_of i with
  | NoCall => [i]
  | c => if canLower c then LowerIntrinsicCall i
         else match c with CalledAsm => liftInlineAssembly i | _ => [i] end
  end.

Definition lower_calls (l : list I) : list I := l ≫= lower_instruction.

(** A function without calls to lower is left alone, and afterwards there is
    none. *)
Lemma lower_calls_unchanged l :
  Forall (λ i, canLower (target_of i) = false ∧ target_of i ≠ CalledAsm) l → lower_calls l = l.
Proof.
  unfold lower_calls. induction 1 as [|i l [H1 H2] _ IH]; [done|]. rewrite bind_cons, IH.
  unfold lower_instruction. by destruct (target_of i); rewrite ?H1.
Qed.

Lemma lower_calls_done l :
  (∀ i, Forall (λ j, canLower (target_of j) = false) (LowerIntrinsicCall i)) →
  (∀ t i, Forall (λ j, canLower (target_of j) = false) (ExpandInlineAsm t i)) →
  Forall (λ j, canLower (target_of j) = false) (lower_calls l).
Proof.
  intros HL HE. apply Forall_bind, Forall_forall. intros i _.
  change (Forall (λ j, canLower (target_of j) = false) (lower_instruction i)).
  unfold lower_instruction, liftInlineAssembly.
  assert (canLower (target_of i) = false → Forall (λ j, canLower (target_of j) = false) [i]) as H1
    by (intros; by constructor).
  destruct (target_of i) as [| |id| |]; try exact (H1 eq_refl).
  - destruct (canLower (CalledIntrinsic id)) eqn:Hc; [apply HL|by apply H1].
  - cbn [canLower]. repeat case_match; first [exact (H1 eq_refl)|apply HE].
Qed.
End lowering.

(** ** Loop unrolling *)
Section unrolling.
(** The loops, and what LLVM knows of them in a state of the function. *)
Context {Loop State : Type} (getLoopPreheader : State → Loop → bool) (num_blocks : State → Loop → Z).
(** [llvm::UnrollLoop] with the option [Count]; whether it modified the function. *)
Context (UnrollLoop : Z → Loop → State → bool * State).

Fixpoint unroll_loops (loops : list Loop) (Changed : bool) (s : State) : bool * State :=
  match loops with
  | [] => (Changed, s)
  | L :: loops' =>
      if negb (getLoopPreheader s L) then unroll_loops loops' Changed s
      else if 20 <? num_blocks s L then unroll_loops loops' Changed s
      else let r := UnrollLoop 2 L s in unroll_loops loops' (Changed || r.1) r.2
  end.

(** [Unroll::unroll] on the loops in preorder. *)
Definition unroll (loops : list Loop) (s : State) : bool * State := unroll_loops loops false s.

Definition UnrollPass_run (loops : list Loop) (s : State) : PreservedAnalyses * State :=
  let r := unroll loops s in (if r.1 then preserved_none else preserved_all, r.2).

(** Loops with a preheader and at most twenty blocks are unrolled. *)
Definition candidate (s : State) (L : Loop) : bool := getLoopPreheader s L && (num_blocks s L <=? 20).

Lemma unroll_loops_changed loops c s : c = true → (unroll_loops loops c s).1 = true.
Proof.
  revert c s. induction loops as [|L l IH]; intros c s ->; [done|]. cbn.
  destruct (negb _); [by apply IH|]. destruct (20 <? _); by apply IH.
Qed.

Lemma unroll_nothing loops s : forallb (λ L, negb (candidate s L)) loops = true → unroll loops s = (false, s).
Proof.
  unfold unroll. induction loops as [|L l IH]; [done|]. cbn. rewrite andb_true_iff. intros [H Hl].
  unfold candidate in H. destruct (getLoopPreheader s L); cbn in *; [|by apply IH].
  destruct (Z.ltb_spec 20 (num_blocks s L)); [by apply IH|]. lia.
Qed.

(** If the analyses are reported as preserved, no loop has been modified. *)
Lemma unroll_preserves loops s :
  (∀ L s, (UnrollLoop 2 L s).1 = false → (UnrollLoop 2 L s).2 = s) →
  (UnrollPass_run loops s).1 = preserved_all → (UnrollPass_run loops s).2 = s.
Proof.
  intros HU. unfold UnrollPass_run, unroll. cbn. destruct (unroll_loops loops false s).1 eqn:E; [done|].
  intros _. revert s E. induction loops as [|L l IH]; intros s E; [done|]. cbn in *.
  destruct (negb _); [by apply IH|]. destruct (20 <? _); [by apply IH|].
  destruct (UnrollLoop 2 L s) as [[] s'] eqn:Eu; cbn in *.
  - by rewrite unroll_loops_changed in E.
  - specialize (HU L s). rewrite Eu in HU. cbn in HU. rewrite HU in * by done. by apply IH.
Qed.
End unrolling.

(** ** The Symbolizer as a pass *)

(** Without loop information. *)
Definition forget_loop (i : inst) : inst :=
  {| name := name i; type := type i; loc := loc i;
     kind := match kind i with CondBr c t _ g => CondBr c t None g | k => k end |}.
Definition forget_block (b : basic_block) : basic_block :=
  {| block_id := block_id b; instructions := forget_loop <$> instructions b |}.
Definition forget_loops (f : function) : function :=
  {| fn_name := fn_name f; fn_args := fn_args f; fn_entry := forget_block (fn_entry f);
     fn_blocks := forget_block <$> fn_blocks f |}.

Section symbolize.
Context (DL : DataLayout) (host_address : nat → Z) `{Verifier}.

Definition SymbolizeLegacyPass_doInitialization : module → bool * module := instrumentModule.
Definition SymbolizeLegacyPass_runOnFunction (f : function) : M symbolizer bool :=
  instrumentFunction DL host_address (forget_loops f).

(** [run] on a function and on a module. *)
Definition SymbolizePass_run (f : function) : M symbolizer PreservedAnalyses :=
  changed <- instrumentFunction DL host_address f ;;
  ret (if changed then preserved_none else preserved_all).
Definition SymbolizePass_run_module (M : module) : PreservedAnalyses * module :=
  let r := instrumentModule M in (if r.1 then preserved_none else preserved_all, r.2).
End symbolize.

Definition OverflowCheckerPass_run_module (M : module) : PreservedAnalyses * module := (preserved_all, M).
Definition FPOverflowCheckerPass_run_module (M : module) : PreservedAnalyses * module := (preserved_all, M).

(** ** Registration *)
Inductive pass : Type := Scalarizer | LowerAtomic | OverflowCheckerP | FPOverflowCheckerP | SymbolizeP | UnrollP.

#[export] Instance pass_eq_dec : EqDecision pass.
Proof. solve_decision. Defined.

(** The passes on a function in the legacy manager; the passes on the module at
    the start of the pipeline of the new manager, and those on functions before
    the vectorizer. *)
Definition addSymbolizeLegacyPass (PM : list pass) : list pass :=
  PM ++ [Scalarizer; LowerAtomic; OverflowCheckerP; FPOverflowCheckerP; SymbolizeP].
Definition PipelineStart (PM : list pass) : list pass :=
  PM ++ [OverflowCheckerP; FPOverflowCheckerP; SymbolizeP].
Definition VectorizerStart (PM : list pass) : list pass :=
  PM ++ [Scalarizer; LowerAtomic; OverflowCheckerP; FPOverflowCheckerP; SymbolizeP].

(** The passes on the module. *)
Definition run_module (p : pass) (M : module) : module :=
  match p with
  | OverflowCheckerP => (OverflowCheckerPass_run_module M).2
  | FPOverflowCheckerP => (FPOverflowCheckerPass_run_module M).2
  | SymbolizeP => (SymbolizePass_run_module M).2
  | _ => M
  end.

(** At the start of the pipeline the module is instrumented exactly once. *)
Lemma pipeline_start_module (M : module) :
  foldl (λ M p, run_module p M) M (PipelineStart []) = (instrumentModule M).2.
Proof. done. Qed.

(** Both managers run the same passes on a function, the Symbolizer last, after
    the checks have been inserted; neither runs the unrolling pass. *)
Lemma function_passes PM :
  VectorizerStart PM = addSymbolizeLegacyPass PM ∧
  last (VectorizerStart PM) = Some SymbolizeP ∧
  (UnrollP ∉ PM → UnrollP ∉ VectorizerStart PM).
Proof.
  split; [done|]. split; [by apply last_app_Some; left|]. unfold VectorizerStart.
  rewrite not_elem_of_app. intros H. split; [done|]. by apply (bool_decide_unpack _).
Qed.
