(* ===== verification/Scenarios.v ===== *)
(** * Concrete states

    States of the simple backend over syntax trees ([Z3Api.Term]) in which the
    hypotheses of the theorems hold: the state that [_sym_initialize] reaches
    in an empty environment, and states that hold given constants.  Used by
    the examples that follow the theorems. *)

From S2P Require Import Prelude Smt Z3Api SimpleBackend SimpleSpec Config State Shadow Memory.
From S2P Require Import LibcWrappers LibcSpec Startup Interface.

#[local] Open Scope Z_scope.

#[local] Existing Instances Term.term_z3 Term.term_z3_laws.

(** An input of letters "A". *)
#[export] Instance letters : RunInput | 100 := λ _, 65.

Definition no_env : string → option string := λ _, None.

(** A program whose memory is zero. *)
Definition blank : @rt simple_backend := program_start (λ _, 0) (λ _, None).

Lemma no_env_ok : env_ok no_env.
Proof. by split_and!. Qed.

Lemma blank_started (ρ : RunInput) :
  ∃ s, _sym_initialize no_env blank = Ok tt s ∧ consistent ρ s ∧
    memory s = (λ _, 0) ∧ inputs_read (rt_backend s) 0 ∧ inputFileDescriptor s = 0 ∧
    inputOffset s = 0.
Proof.
  destruct (sym_initialize_ok no_env (λ _, 0) (λ _, None) ρ) as ([]&s&E&C&Hm&Hc&Hi&Ho&Hr&_).
  - exact no_env_ok.
  - intros a. by unfold ByteSeq.is_byte.
  - exists s. split_and!; try done. rewrite Hi. by rewrite Hc.
Qed.

(** No expression has been passed as an argument. *)
Lemma blank_arguments s :
  _sym_initialize no_env blank = Ok tt s → g_function_arguments s = replicate 256 None.
Proof.
  assert (match _sym_initialize no_env blank with
          | Ok _ s => g_function_arguments s = replicate 256 None | Err _ => False end) as H.
  { vm_compute. reflexivity. }
  intros E. by rewrite E in H.
Qed.

Lemma no_arguments (ρ : RunInput) (s : @rt simple_backend) n i w v :
  g_function_arguments s = replicate n None → param ρ s i w v.
Proof.
  intros H. unfold param. rewrite H. destruct (replicate n None !! Z.to_nat _) as [e|] eqn:E; [|done].
  by apply lookup_replicate in E as [-> _].
Qed.

(** Constants of given widths, in any state. *)
Definition fits (c : Z * Z) : Prop := 0 < c.1 < 2 ^ 8 ∧ 0 ≤ c.2 < 2 ^ c.1 ∧ c.2 < 2 ^ 64.

Definition hold (ρ : RunInput) (s : @bstate simple_backend) (h : @handle simple_backend) (c : Z * Z) : Prop :=
  rep ρ s h (VBV c.1 c.2).

Lemma constant_in (ρ : RunInput) (s : @bstate simple_backend) c :
  binv s → fits c → ∃ h s', binv s' ∧ bext s s' ∧ hold ρ s' h c.
Proof.
  intros I (Hw&Hx&Hl). destruct (build_integer_spec ρ s c.2 c.1 I Hw) as (e&s'&_&I'&X&h&_&Hh).
  exists h, s'. split_and!; try done. unfold hold. by rewrite u64_small, wrap_small in Hh by lia.
Qed.

Lemma constants_in (ρ : RunInput) (s : @bstate simple_backend) l :
  binv s → Forall fits l → ∃ hs s', binv s' ∧ bext s s' ∧ Forall2 (hold ρ s') hs l.
Proof.
  intros I Hl. revert s I. induction Hl as [|c l Hc _ IH]; intros s I.
  { exists [], s. split_and!; [done|reflexivity|constructor]. }
  destruct (constant_in ρ s c I Hc) as (h&s1&I1&X1&Hh).
  destruct (IH s1 I1) as (hs&s2&I2&X2&Hhs). exists (h :: hs), s2. split_and!; [done|..].
  - by etransitivity.
  - constructor; [|done]. by eapply rep_mono.
Qed.

(** The initialised program with constants in its registers. *)
Lemma blank_constants (ρ : RunInput) l :
  Forall fits l → ∃ s hs, consistent ρ s ∧ Forall2 (hold ρ (rt_backend s)) hs l ∧
    memory s = (λ _, 0) ∧ inputFileDescriptor s = 0 ∧ inputOffset s = 0 ∧
    (∃ n, 0 ≤ n ∧ inputs_read (rt_backend s) n).
Proof.
  intros Hl. destruct (blank_started ρ) as (s&_&C&Hm&Hr&Hf&Ho).
  destruct (constants_in ρ (rt_backend s) l) as (hs&b&I&X&Hh); [apply C|done|].
  destruct (inputs_read_mono _ _ _ X Hr) as (n&?&?).
  exists (set_backend b s), hs. split_and!; try done; [|by exists n].
  eapply mem_step_consistent; [exact C|]. by constructor.
Qed.

Lemma constants (ρ : RunInput) l :
  Forall fits l → ∃ (s : @bstate simple_backend) hs, binv s ∧ Forall2 (hold ρ s) hs l.
Proof.
  intros Hl. destruct (blank_constants ρ l Hl) as (s&hs&[[??] _]&?&_). by exists (rt_backend s), hs.
Qed.


(** Two letters are read to address 4096, with any backend. *)
Lemma two_letters_read {B : Backend} {BS : BackendSpec B} {IS : InputSpec B BS} (s : rt) :
  consistent letters s → memory s = (λ _, 0) → inputs_read (rt_backend s) 0 →
  ∃ s', mem_step letters s s' ∧ consistent letters s' ∧ is_Some (shadow_at s' 4096) ∧
    memory s' = store (λ _, 0) 4096 [65; 65].
Proof.
  intros C Hm Hr. destruct (make_symbolic_wp letters s 4096 2 0 0) as ([]&s1&E1&v&Ev&Hv&_);
    [apply C|done|done|done|done|done|].
  assert (mem_step letters s (set_memory (store (memory s) 4096 [65; 65]) s1)) as St.
  { eapply (step_input letters s 4096 [65; 65] 0 0); try done.
    intros j x Hj. destruct j as [|[|[]]]; by simplify_eq Hj; intros <-. }
  exists (set_memory (store (memory s) 4096 [65; 65]) s1). split_and!; [done|..].
  - by eapply mem_step_consistent.
  - change (is_Some (shadow_at s1 4096)). destruct Ev as (_&_&->); [|done].
    unfold filled. rewrite decide_True by done.
    by destruct (Hv (4096 - 4096) ltac:(done)) as (h&->&_).
  - cbn. by rewrite Hm.
Qed.

Lemma blank_read :
  ∃ s s', _sym_initialize no_env blank = Ok tt s ∧ mem_step letters s s' ∧
    consistent letters s' ∧ is_Some (shadow_at s' 4096) ∧
    memory s' = store (λ _, 0) 4096 [65; 65].
Proof.
  destruct (blank_started letters) as (s&E&C&Hm&Hr&_).
  destruct (two_letters_read s C Hm Hr) as (s'&?&?&?&?). by exists s, s'.
Qed.
