(* ===== verification/RuntimeProps.v ===== *)
(** * What the run-time library guarantees: memory

    The theorems about shadow memory, symbolic input, garbage collection,
    initialisation and the wrappers of the C library, each followed by an
    example that applies it in a concrete state. *)

From S2P Require Import Prelude Smt Z3Api SimpleBackend SimpleSpec ByteSeq BitArrays Config.
From S2P Require Import State Shadow Memory GarbageCollection LibcWrappers LibcSpec Startup.
From S2P Require Import Scenarios Interface.

#[local] Open Scope Z_scope.
#[local] Existing Instances Term.term_z3 Term.term_z3_laws.

(** ** Shadow memory *)

(** C9. From start-up on, whatever sequence of memory operations, symbolic
    inputs and expression building the instrumented program performs, every
    shadow expression evaluates, on the actual input, to the byte of memory
    that it shadows. *)
Theorem run_time_agreement `{ZL : Z3Laws} getenv mem cells (ρ : RunInput) s s' :
  env_ok getenv → (∀ a, is_byte (mem a)) →
  _sym_initialize getenv (program_start mem cells) = Ok tt s →
  rtc (mem_step ρ) s s' →
  ∀ a h, valid a → shadow_at s' a = Some h → Z3_eval ρ h = VBV 8 (memory s' a).
Proof.
  intros He Hm E St a h Ha Hh.
  destruct (sym_initialize_ok getenv mem cells ρ He Hm) as ([]&s0&E0&C&_).
  assert (s0 = s) as -> by congruence.
  by apply (consistent_expr ρ s' a h (mem_steps_consistent ρ s s' C St)) in Hh as [_ ?].
Qed.

(** C11. Reading an integer of [len] bytes returns null when the region is
    concrete, and otherwise an expression whose value is the integer in memory,
    in either byte order; memory and the agreement of shadow and memory are unchanged. *)
Theorem read_memory_value {B : Backend} {BS : BackendSpec B} ρ (s : rt) a len le :
  consistent ρ s → region a len → 0 < len →
  ∃ e s', _sym_read_memory a len le s = Ok e s' ∧ consistent ρ s' ∧ memory s' = memory s ∧
    match e with
    | None => concrete s a len
    | Some h => ¬ concrete s a len ∧ rep ρ (rt_backend s') h (mem_value le (mem_bytes s a len))
    end.
Proof. exact (read_consistent ρ s a len le). Qed.

(** C12. An expression written to memory and read back with the same width and
    byte order keeps its value, and the shadow of every other byte is
    untouched. *)
Theorem write_read_roundtrip {B : Backend} {BS : BackendSpec B} ρ (s : rt) a xs le h :
  shadow_inv ρ s → region a (Z.of_nat (length xs)) → xs ≠ [] → Forall is_byte xs →
  nbits xs < 2 ^ 32 → rep ρ (rt_backend s) h (mem_value le xs) →
  ∃ h' s', (_sym_write_memory a (Z.of_nat (length xs)) (Some h) le ;;;
            _sym_read_memory a (Z.of_nat (length xs)) le) s = Ok (Some h') s' ∧
    rep ρ (rt_backend s') h' (mem_value le xs) ∧
    ∀ b, valid b → ¬ (a ≤ b < a + Z.of_nat (length xs)) → shadow_at s' b = shadow_at s b.
Proof.
  intros Inv R Hne Hb Hn Hh.
  destruct (write_memory_wp ρ s a xs le h Inv R Hne Hb Hn Hh) as ([]&s1&E1&v&Ev1&Hv).
  pose proof (written_bytes_at ρ s s1 a xs v R Ev1 Hv) as Hat.
  destruct (read_memory_wp ρ s1 a xs le (evolves_inv _ _ _ _ Ev1) R Hne Hat) as (e&s2&E2&Ev2&He).
  pose proof (written_not_concrete ρ s s1 a xs v R Ev1 Hv Hne) as Hc.
  destruct e as [h'|]; [|by destruct Hc].
  exists h', s2. rewrite (bind_Ok _ _ _ _ _ E1). split_and!; [done|apply He|].
  destruct Ev1 as (_&_&Sh1), Ev2 as (_&_&Sh2).
  intros b Vb Hb'. rewrite Sh2, Sh1 by done. unfold filled. by rewrite decide_False.
Qed.

Lemma run_time_agreement_witness :
  ∃ s s', _sym_initialize no_env blank = Ok tt s ∧ rtc (mem_step letters) s s' ∧
    is_Some (shadow_at s' 4096) ∧
    ∀ a h, valid a → shadow_at s' a = Some h → Z3_eval letters h = VBV 8 (memory s' a).
Proof.
  destruct blank_read as (s&s'&E&St&_&Hs&_). exists s, s'. split_and!; [done|by apply rtc_once|done|].
  apply (run_time_agreement no_env (λ _, 0) (λ _, None) letters s s').
  - exact no_env_ok.
  - intros a. by unfold is_byte.
  - exact E.
  - by apply rtc_once.
Defined.

Lemma read_memory_value_witness :
  ∃ s h s', _sym_read_memory 4096 2 true s = Ok (Some h) s' ∧
    rep letters (rt_backend s') h (VBV 16 (65 * 256 + 65)).
Proof.
  destruct blank_read as (s0&s&_&_&C&[h0 Hs]&Hm).
  destruct (read_memory_value letters s 4096 2 true) as ([h|]&s'&E&_&_&He); [done|done|done|..].
  - exists s, h, s'. split; [done|]. destruct He as [_ He].
    by replace (mem_value true (mem_bytes s 4096 2)) with (VBV 16 (65 * 256 + 65)) in He
      by (unfold mem_bytes; by rewrite Hm).
  - specialize (He 0 ltac:(done)). change (4096 + 0) with 4096 in He. by rewrite Hs in He.
Defined.

Lemma write_read_roundtrip_witness :
  ∃ s h h' s', (_sym_write_memory 4095 2 (Some h) true ;;; _sym_read_memory 4095 2 true) s =
      Ok (Some h') s' ∧ rep letters (rt_backend s') h' (VBV 16 4660).
Proof.
  destruct (blank_constants letters [(16, 4660)]) as (s&hs&C&Hh&_); [by repeat constructor|].
  inversion Hh as [|h ? ? ? Hh1]; subst.
  destruct (write_read_roundtrip letters s 4095 [52; 18] true h) as (h'&s'&E&He&_);
    [apply C|done|done|by repeat constructor|done|exact Hh1|].
  by exists s, h, h', s'.
Defined.

(** C13. [_sym_memmove] always returns and moves the shadow like the bytes, for
    overlapping regions as well: every byte of the destination gets the old
    shadow of its source byte, every other byte keeps its own. *)
Theorem memmove_copies_shadow {B : Backend} {BS : BackendSpec B} ρ (s : rt) dest src len :
  shadow_inv ρ s → region src len → region dest len →
  ∃ s', _sym_memmove dest src len s = Ok tt s' ∧ shadow_inv ρ s' ∧ memory s' = memory s ∧
    ∀ b, valid b → shadow_at s' b =
      if decide (dest ≤ b < dest + len) then shadow_at s (src + (b - dest)) else shadow_at s b.
Proof.
  intros Inv Rs Rd. destruct (memmove_wp ρ s dest src len Inv Rs Rd) as ([]&s'&E&St&I&Sh).
  exists s'. split_and!; [done|done|by apply rt_step_memory|exact Sh].
Qed.

Lemma memmove_copies_shadow_witness :
  ∃ s s', is_Some (shadow_at s 4096) ∧ _sym_memmove 4097 4096 2 s = Ok tt s' ∧
    shadow_at s' 4097 = shadow_at s 4096.
Proof.
  destruct blank_read as (_&s&_&_&C&Hs&_).
  destruct (memmove_copies_shadow letters s 4097 4096 2) as (s'&E&_&_&Sh); [apply C|done|done|].
  exists s, s'. split_and!; [done|done|]. rewrite Sh by done. by rewrite decide_True.
Defined.

(** C20. [isConcrete] always returns and answers exactly whether no byte of the
    region has a shadow expression, also when the region spans pages without
    shadow. *)
Theorem isConcrete_decides {B : Backend} {BS : BackendSpec B} ρ (s : rt) a len :
  shadow_inv ρ s → region a len →
  ∃ b s', isConcrete a len s = Ok b s' ∧ b = bool_decide (concrete s a len) ∧
    shadow_inv ρ s' ∧ ∀ x, valid x → shadow_at s' x = shadow_at s x.
Proof.
  intros Inv R. destruct (isConcrete_wp ρ s a len Inv R) as (b&s'&E&(_&I&Sh)&Hb).
  exists b, s'. split_and!; [done| |done|done].
  destruct b; symmetry; [by apply bool_decide_eq_true, Hb|].
  apply bool_decide_eq_false. intros Hc. by apply Hb in Hc.
Qed.

Lemma isConcrete_decides_witness :
  ∃ s s', isConcrete 0 4096 s = Ok (bool_decide (concrete s 0 4096)) s'.
Proof.
  destruct blank_read as (_&s&_&_&C&_).
  destruct (isConcrete_decides letters s 0 4096) as (b&s'&E&->&_); [apply C|done|].
  by exists s, s'.
Defined.

(** C19. [_sym_make_symbolic], called for the next [len] bytes of the input,
    returns; afterwards byte [a + j] is shadowed by the variable of input byte
    [o + j], no other shadow has changed, and the input is known up to
    [o + len]. *)
Theorem make_symbolic_input_bytes {B : Backend} {BS : BackendSpec B} {IS : InputSpec B BS}
    ρ (s : rt) a len o n :
  shadow_inv ρ s → region a len → len < 2 ^ 31 → inputs_read (rt_backend s) n →
  0 ≤ o ≤ n → o + len < 2 ^ 64 →
  ∃ s', _sym_make_symbolic a len o s = Ok tt s' ∧
    (∀ j, 0 ≤ j < len → ∃ h, shadow_at s' (a + j) = Some h ∧
       rep ρ (rt_backend s') h (VBV 8 (wrap 8 (ρ (input_name (Z.to_nat (o + j))))))) ∧
    (∀ b, valid b → ¬ (a ≤ b < a + len) → shadow_at s' b = shadow_at s b) ∧
    inputs_read (rt_backend s') (Z.max n (o + len)).
Proof.
  intros Inv R Hi Hn Ho Hol.
  destruct (make_symbolic_wp ρ s a len o n Inv R Hi Hn Ho Hol) as ([]&s'&E&v&(_&_&Sh)&Hv&Hin).
  destruct R as (?&?&?). exists s'. split_and!; [done|..|done].
  - intros j Hj. rewrite Sh by (unfold valid; lia). unfold filled. rewrite decide_True by lia.
    destruct (Hv j Hj) as (h&Eh&Hh). exists h. replace (a + j - a) with j by lia. done.
  - intros b Vb Hb. rewrite Sh by done. unfold filled. by rewrite decide_False.
Qed.

Lemma make_symbolic_input_bytes_witness :
  ∃ s s' h, _sym_make_symbolic 4096 2 0 s = Ok tt s' ∧ shadow_at s' 4097 = Some h ∧
    rep letters (rt_backend s') h (VBV 8 65).
Proof.
  destruct (blank_started letters) as (s&_&C&_&Hr&_).
  destruct (make_symbolic_input_bytes letters s 4096 2 0 0) as (s'&E&H&_);
    [apply C|done|done|done|done|done|].
  destruct (H 1) as (h&Hs&Hh); [done|]. by exists s, s', h.
Defined.

(** ** Garbage collection *)

(** C18. A collection returns; below the threshold it changes nothing, from the
    threshold on it keeps exactly the recorded expressions that are found in a
    registered region or in shadow memory.  The shadow and its agreement with memory are
    unchanged, and no expression of the shadow is forgotten. *)
Theorem collect_garbage_keeps_shadow `{ZL : Z3Laws} (ρ : RunInput) (s : @rt simple_backend) :
  consistent ρ s →
  ∃ s', _sym_collect_garbage s = Ok tt s' ∧ consistent ρ s' ∧ shadow_at s' = shadow_at s ∧
    (∀ a h, shadow_at s a = Some h → h ∈ collectReachableExpressions s) ∧
    let kept := allocatedExpressions (rt_backend s' : state) in
    let old := allocatedExpressions (rt_backend s : state) in
    ∀ h, h ∈ kept ↔ h ∈ old ∧
      (Z.of_nat (size old) < garbageCollectionThreshold (g_config s) ∨
       h ∈ collectReachableExpressions s).
Proof.
  intros C. destruct (collect_garbage_returns s) as (b&E&_&Ha&_).
  destruct (collect_garbage_consistent ρ s _ C E) as (C'&Sh&_).
  exists (set_backend b s). split_and!; [done|done|done|..].
  - intros a h. by apply shadow_reachable, C.
  - intros kept old h. subst kept old. cbn. rewrite Ha. case_match eqn:Ht; [|rewrite elem_of_filter];
      [apply Z.ltb_lt in Ht|apply Z.ltb_ge in Ht]; split; intuition lia.
Qed.

Lemma collect_garbage_keeps_shadow_witness :
  ∃ s s', is_Some (shadow_at s 4096) ∧ _sym_collect_garbage s = Ok tt s' ∧
    shadow_at s' = shadow_at s.
Proof.
  destruct blank_read as (_&s&_&_&C&Hs&_).
  destruct (collect_garbage_keeps_shadow letters s C) as (s'&E&_&Sh&_). by exists s, s'.
Defined.

(** ** Start-up and configuration *)

(** C25. [_sym_initialize] either throws, exactly when an environment variable
    is malformed or file and memory input are requested together ([env_ok]), or
    reaches a state in which the configuration is the one of [config_of], no input
    byte has been requested, standard input is the symbolic file exactly if the
    configured input is [StdinInput], and the agreement of shadow and memory
    holds; a second call does nothing.  This is what the code does, which differs
    from docs/Configuration.txt in two cases: the conflict and malformed variables
    are reported also if symbolic input is switched off, and an empty
    SYMCC_INPUT_FILE does not select standard input (see C36). *)
Theorem initialize_establishes `{ZL : Z3Laws} getenv mem cells (ρ : RunInput) :
  (∀ a, is_byte (mem a)) →
  match _sym_initialize getenv (program_start mem cells) with
  | Ok _ s =>
      env_ok getenv ∧ g_config s = config_of getenv default_config ∧ memory s = mem ∧
      inputs_read (rt_backend s) 0 ∧ consistent ρ s ∧
      inputFileDescriptor s = (if decide (input (g_config s) = StdinInput) then 0 else -1) ∧
      ∀ getenv', _sym_initialize getenv' s = Ok tt s
  | Err e => ¬ env_ok getenv ∧ ∃ msg, e = Throw msg
  end.
Proof.
  intros Hm. destruct (decide (env_ok getenv)) as [He|He].
  - destruct (sym_initialize_ok getenv mem cells ρ He Hm) as ([]&s&->&C&?&?&?&?&?&_).
    split_and!; try done. intros getenv'. apply sym_initialize_once, C.
  - destruct (sym_initialize_error getenv mem cells He) as [msg ->]. by split; [|exists msg].
Qed.

Lemma initialize_establishes_witness :
  (∀ a : Z, is_byte 0) ∧
  match _sym_initialize no_env (program_start (λ _, 0) (λ _, None)) with
  | Ok _ s => g_config s = config_of no_env default_config
  | Err _ => False
  end.
Proof.
  assert (∀ a : Z, is_byte 0) as H0 by (intros a; by unfold is_byte). split; [exact H0|].
  pose proof (initialize_establishes no_env (λ _, 0) (λ _, None) letters H0) as H.
  destruct (_sym_initialize _ _); [by destruct H as (_&?&_)|].
  destruct H as [H _]. by destruct H, no_env_ok.
Defined.

(** C34. [loadConfig] accepts exactly the well-formed environments, for which it
    sets every option to what its variable says (flags without regard to case,
    later variables overriding earlier ones) and leaves the others at their
    defaults; it throws on all others.  In two cases docs/Configuration.txt says
    otherwise: an empty SYMCC_INPUT_FILE, which is documented to select standard
    input, selects input from a file with the empty name; and with
    SYMCC_NO_SYMBOLIC_INPUT=1, which is documented to make the code ignore the
    other variables for input, it still throws if SYMCC_INPUT_FILE is set and
    SYMCC_MEMORY_INPUT is 1. *)
Theorem loadConfig_result getenv c :
  (∀ f, input c ≠ FileInput f) →
  (if decide (env_ok getenv) then loadConfig getenv c = Ok tt (config_of getenv c)
   else ∃ msg, loadConfig getenv c = Err (Throw msg)) ∧
  (getenv "SYMCC_INPUT_FILE" = Some ""%string → getenv "SYMCC_NO_SYMBOLIC_INPUT" = None →
   env_ok getenv → input (config_of getenv c) = FileInput "") ∧
  (∀ f, getenv "SYMCC_NO_SYMBOLIC_INPUT" = Some "1"%string → getenv "SYMCC_INPUT_FILE" = Some f →
   getenv "SYMCC_MEMORY_INPUT" = Some "1"%string → ∃ msg, loadConfig getenv c = Err (Throw msg)).
Proof.
  intros Hc. destruct (loadConfig_spec getenv c Hc) as [Hok Herr]. split_and!.
  - case_decide; auto.
  - intros Hf Hn (_&_&_&Hm&_). unfold config_of, input_of, flag_var in *. cbn [input].
    rewrite Hf, Hn in *. rewrite decide_False by done.
    rewrite decide_False; [done|]. intros E. by specialize (Hm E).
  - intros f _ Hf Hm. apply Herr. intros (_&_&_&H&_). rewrite Hf in H. unfold flag_var in H.
    rewrite Hm in H. by specialize (H eq_refl).
Qed.

Lemma loadConfig_result_witness :
  (∀ f, input default_config ≠ FileInput f) ∧
  loadConfig (λ n, if decide (n = "SYMCC_GC_THRESHOLD") then Some " 0042x" else
                   if decide (n = "SYMCC_NO_SYMBOLIC_INPUT") then Some "YES" else None)
    default_config =
  Ok tt (with_garbageCollectionThreshold 42 (with_input NoInput default_config)).
Proof.
  split; [done|].
  pose proof (loadConfig_result
    (λ n, if decide (n = "SYMCC_GC_THRESHOLD") then Some " 0042x" else
          if decide (n = "SYMCC_NO_SYMBOLIC_INPUT") then Some "YES" else None)
    default_config ltac:(done)) as [H _].
  case_decide as He; [exact H|]. destruct He. split_and!; try done.
  intros v. cbn. intros [= <-]. by exists 42.
Defined.

(** C35. Setting the collection threshold from a decimal number of up to twenty
    digits stores exactly that number if the type can hold it, and throws
    otherwise. *)
Theorem threshold_roundtrip n c :
  0 ≤ n < 10 ^ 20 →
  load_threshold (decimal n) c =
    if n <? 2 ^ 64 then Ok tt (with_garbageCollectionThreshold n c)
    else Err (Throw "The GC threshold must be between 0 and 18446744073709551615").
Proof. intros H. unfold load_threshold. rewrite stoul_decimal by done. by destruct (n <? 2 ^ 64). Qed.

Lemma threshold_roundtrip_witness :
  load_threshold "18446744073709551615" default_config =
    Ok tt (with_garbageCollectionThreshold 18446744073709551615 default_config) ∧
  load_threshold "18446744073709551616" default_config =
    Err (Throw "The GC threshold must be between 0 and 18446744073709551615").
Proof.
  split.
  - exact (threshold_roundtrip 18446744073709551615 default_config ltac:(lia)).
  - exact (threshold_roundtrip 18446744073709551616 default_config ltac:(lia)).
Defined.

(** ** Wrappers of the C library *)

(** C26. The wrapper of [read], when the call delivers the bytes [xs]: it returns
    their number, memory is that after the call and agrees with the shadow; bytes
    of the symbolic file are shadowed by the variables of the next bytes of the
    input and advance the input position, bytes of other files have no shadow any
    more, and the shadow of other addresses does not change ([received]). *)
Theorem SYM_read_agreement {B : Backend} {BS : BackendSpec B} {IS : InputSpec B BS}
    sym_addr ρ (s : rt) fd buf nbyte xs :
  consistent ρ s → Forall is_byte xs → region buf (Z.of_nat (length xs)) →
  param ρ s 1 64 (u64 buf) → param ρ s 2 64 (u64 nbyte) → arrival ρ s fd xs →
  ∃ s', SYM_read sym_addr fd buf nbyte (Some xs) s = Ok (Z.of_nat (length xs)) s' ∧
    consistent ρ s' ∧ memory s' = store (memory s) buf xs ∧ g_return_value s' = None ∧
    inputOffset s' = (if fd =? inputFileDescriptor s
                      then inputOffset s + Z.of_nat (length xs) else inputOffset s) ∧
    received ρ s fd buf (Z.of_nat (length xs)) s'.
Proof.
  intros C Hb R P1 P2 A.
  destruct (SYM_read_wp sym_addr ρ s fd buf nbyte xs C Hb R P1 P2 A)
    as (r&s'&E&->&C'&_&Hm&Hr&Ho&Hs). by exists s'.
Qed.

Lemma SYM_read_agreement_witness :
  ∃ s s', SYM_read (λ _, 0) 0 4096 10 (Some [65; 65]) s = Ok 2 s' ∧
    consistent letters s' ∧ memory s' 4097 = 65 ∧ inputOffset s' = 2 ∧
    is_Some (shadow_at s' 4097).
Proof.
  destruct (blank_started letters) as (s&E&C&Hm&Hr&Hf&Ho).
  pose proof (blank_arguments s E) as Ha.
  destruct (SYM_read_agreement (λ _, 0) letters s 0 4096 10 [65; 65])
    as (s'&Er&C'&Hm'&_&Ho'&Hs').
  - exact C.
  - by repeat constructor.
  - done.
  - by eapply no_arguments.
  - by eapply no_arguments.
  - intros _. rewrite Ho. split_and!; try done; [|by exists 0].
    intros j x Hj. destruct j as [|[|[]]]; by simplify_eq Hj; intros <-.
  - exists s, s'. split_and!; [done|done|by rewrite Hm'|by rewrite Ho', Hf, Ho|].
    destruct Hs' as [Hs' _]. specialize (Hs' 1 ltac:(done)). rewrite Hf in Hs'.
    destruct Hs' as (h&Hh&_). by exists h.
Defined.

(** The wrapper of [memmove] returns its first argument with the
    expression that was passed for it, moves the bytes, and keeps the agreement
    of shadow and memory, for overlapping regions as well. *)
Theorem SYM_memmove_agreement {B : Backend} {BS : BackendSpec B}
    sym_addr ρ (s : rt) dest src n :
  consistent ρ s → region src n → region dest n →
  param ρ s 0 64 (u64 dest) → param ρ s 1 64 (u64 src) → param ρ s 2 64 (u64 n) →
  ∃ s', SYM_memmove sym_addr dest src n s = Ok dest s' ∧ consistent ρ s' ∧
    memory s' = copy_bytes (memory s) dest src n ∧ g_return_value s' = parameter s 0.
Proof.
  intros C Rs Rd P0 P1 P2.
  destruct (SYM_memmove_wp sym_addr ρ s dest src n C Rs Rd P0 P1 P2) as (r&s'&E&->&C'&_&Hm&Hr&_).
  by exists s'.
Qed.

Lemma SYM_memmove_agreement_witness :
  ∃ s s', SYM_memmove (λ _, 0) 4097 4096 2 s = Ok 4097 s' ∧ consistent letters s'.
Proof.
  destruct (blank_started letters) as (s&E&C&_). pose proof (blank_arguments s E) as Ha.
  destruct (SYM_memmove_agreement (λ _, 0) letters s 4097 4096 2) as (s'&Em&C'&_);
    [done|done|done|by eapply no_arguments..|].
  by exists s, s'.
Defined.

(** C27. The condition that the comparison wrappers ([memcmp], [bcmp]) push:
    [all_equal] returns an expression that is true exactly when the two regions
    are equal, that is when [memcmp] returns 0, whichever bytes are symbolic;
    neither memory nor shadow change. *)
Theorem all_equal_decides_memcmp {B : Backend} {BS : BackendSpec B} ρ (s : rt) a b n :
  consistent ρ s → region a n → region b n → 0 < n →
  ∃ h s', all_equal a b n s = Ok (Some h) s' ∧
    rep ρ (rt_backend s') h (VBool (libc_memcmp (memory s) a b (Z.to_nat n) =? 0)) ∧
    memory s' = memory s ∧ ∀ x, valid x → shadow_at s' x = shadow_at s x.
Proof.
  intros C Ra Rb Hn.
  destruct (all_equal_wp ρ s a b n C Ra Rb s Hn) as (e&s'&E&(St&_&Sh)&h&->&Hh).
  { apply evolves_refl, C. }
  exists h, s'. split_and!; [done|done|by apply rt_step_memory|done].
Qed.

Lemma all_equal_decides_memcmp_witness :
  ∃ s h s', all_equal 4095 4096 2 s = Ok (Some h) s' ∧
    rep letters (rt_backend s') h (VBool false).
Proof.
  destruct blank_read as (_&s&_&_&C&_&Hm).
  destruct (all_equal_decides_memcmp letters s 4095 4096 2) as (h&s'&E&Hh&_); [done..|].
  rewrite Hm in Hh. by exists s, h, s'.
Defined.

(** The wrapper of [ntohl] (on a little-endian host) returns the bytes of
    its argument in reverse order, and the expression it returns has that
    value; it is null only if the argument's expression is. *)
Theorem SYM_ntohl_value {B : Backend} {BS : BackendSpec B} ρ (s : rt) netlong :
  consistent ρ s → 0 ≤ netlong < 2 ^ 32 → param ρ s 0 32 netlong →
  ∃ s', SYM_ntohl netlong s = Ok (of_be (rev (to_be 4 netlong))) s' ∧ consistent ρ s' ∧
    match g_return_value s' with
    | Some h => rep ρ (rt_backend s') h (VBV 32 (of_be (rev (to_be 4 netlong))))
    | None => parameter s 0 = None
    end.
Proof.
  intros C R P. destruct (SYM_ntohl_wp ρ s netlong C R P) as (r&s'&E&->&C'&_&_&Hr). by exists s'.
Qed.

Lemma SYM_ntohl_value_witness :
  ∃ s s' h, SYM_ntohl 305419896 s = Ok 2018915346 s' ∧ g_return_value s' = Some h ∧
    rep letters (rt_backend s') h (VBV 32 2018915346).
Proof.
  destruct (blank_constants letters [(32, 305419896)]) as (s0&hs&C0&Hh&_); [by repeat constructor|].
  inversion Hh as [|h ? ? ? Hh1]; subst.
  set (s := set_calls None [Some h] s0).
  destruct (SYM_ntohl_value letters s 305419896) as (s'&E&_&Hr); [exact C0|done|exact Hh1|].
  destruct (g_return_value s') as [h'|] eqn:Er; [|done]. by exists s, s', h'.
Defined.

(** The program [memset(4096, 456, 1)], whose second argument, an [int], is
    symbolic. *)
Definition memset_program : M (@rt simple_backend) unit :=
  _sym_initialize no_env ;;;
  e <- backend (_sym_build_integer 456 32) ;;
  _sym_set_parameter_expression 1 e ;;;
  SYM_memset (λ _, 0) 4096 456 1 ;;;
  ret tt.

(** The wrapper of [memset] stores the 32-bit expression of its [int]
    argument as the shadow of each byte: after the call the byte in memory is
    the low byte of the argument while its shadow is the whole argument, so
    that the agreement of shadow and memory and the widths that later reads rely on are lost. *)
Theorem memset_stores_wide_expression :
  match memset_program blank with
  | Ok _ s => memory s 4096 = 200 ∧
      ∃ h, shadow_at s 4096 = Some h ∧ ∀ ρ, Z3_eval ρ h = VBV 32 456
  | Err _ => False
  end.
Proof.
  assert (match memset_program blank with
    | Ok _ s => bool_decide (memory s 4096 = 200) &&
        bool_decide (shadow_at s 4096 = Some (Z3_mk_numeral 456 (SBV 32)))
    | Err _ => false end = true) as H by (vm_compute; reflexivity).
  destruct (memset_program blank) as [[] s|]; [|done].
  apply andb_true_iff in H as [H1%bool_decide_eq_true H2%bool_decide_eq_true].
  split; [done|]. by eexists.
Qed.
