(* ===== verification/BackendProps.v ===== *)
(** * What the run-time library guarantees: expressions

    The theorems about the handlers of LLVM instructions, the builders for
    byte arrays and for saturating and checked arithmetic, and the path
    constraints of the simple backend, each followed by an example that
    applies it to concrete expressions. *)

From S2P Require Import Prelude Smt Z3Api SimpleBackend SimpleSpec ByteSeq BitArrays Arith.
From S2P Require Import PathConstraints Dispatch Scenarios Interface.
From Stdlib Require Import SpecFloat.

#[local] Open Scope Z_scope.
#[local] Existing Instances Term.term_z3 Term.term_z3_laws.

(** Two constants of width [w] for the examples. *)
Lemma two_constants (ρ : RunInput) w x y :
  fits (w, x) → fits (w, y) →
  ∃ (s : @bstate simple_backend) a b, binv s ∧ rep ρ s a (VBV w x) ∧ rep ρ s b (VBV w y).
Proof.
  intros Fx Fy. destruct (constants ρ [(w, x); (w, y)]) as (s&hs&I&Hh).
  { constructor; [done|]. constructor; [done|]. constructor. }
  inversion Hh as [|a ? ? l Ha Hl]; subst. inversion Hl as [|b ? ? l' Hb _]; subst.
  by exists s, a, b.
Qed.

Lemma one_constant (ρ : RunInput) w x :
  fits (w, x) → ∃ (s : @bstate simple_backend) a, binv s ∧ rep ρ s a (VBV w x).
Proof. intros F. destruct (two_constants ρ w x x F F) as (s&a&_&?&?&_). by exists s, a. Qed.

(** ** The handlers of LLVM instructions *)

(** C15. For every integer operation of LLVM and every width, the run-time
    function that the compiler pass selects returns a registered expression
    that evaluates to the result of the instruction, whenever that result is
    defined; no reference count is left changed. *)
Theorem binary_handler_value `{ZL : Z3Laws} ρ op (h : handler_fn) w x y r a b s :
  SimpleBackend.binv s → 0 < w → 0 ≤ x < 2 ^ w → 0 ≤ y < 2 ^ w →
  Z3_eval ρ a = llvm_value w x → Z3_eval ρ b = llvm_value w y →
  binary_handler (w =? 1) op = Some h → int_binary op w x y = Some r →
  ∃ e s', h (Some a) (Some b) s = Ok (Some e) s' ∧ Z3_eval ρ e = llvm_value w r ∧
    alive e s' ∧ balanced s s' ∧ SimpleBackend.binv s'.
Proof.
  intros I Hw Hx Hy Ha Hb Hh Hr.
  destruct (binary_handler_makes ρ op h w x y r a b s) as (?&s'&E&I'&X&e&->&?&?); [done..|].
  by exists e, s'.
Qed.

Lemma binary_handler_value_witness :
  ∃ (s : state) a b e s', build_binary B_signed_div (Some a) (Some b) s = Ok (Some e) s' ∧
    Z3_eval letters e = VBV 8 253.
Proof.
  destruct (two_constants letters 8 249 2) as (s&a&b&[I _]&[_ Ha]&[_ Hb]); [done..|].
  destruct (binary_handler_value letters SDiv (build_binary B_signed_div) 8 249 2 253 a b s)
    as (e&s'&E&He&_); [done..|].
  by exists s, a, b, e, s'.
Defined.

(** C23. The handler of every [icmp] predicate returns an expression that is true
    exactly when the comparison holds of the operands; for operands of type i1,
    which the library represents as Booleans, this covers equality and
    inequality. *)
Theorem int_comparison_value `{ZL : Z3Laws} ρ p w x y r a b s :
  SimpleBackend.binv s → Z3_eval ρ a = llvm_value w x → Z3_eval ρ b = llvm_value w y →
  0 ≤ x < 2 ^ w → 0 ≤ y < 2 ^ w →
  (w = 1 → p ∈ [ICMP_EQ; ICMP_NE]) → int_compare p w x y = Some r →
  ∃ e s', comparisonHandlers p (Some a) (Some b) s = Ok (Some e) s' ∧
    Z3_eval ρ e = VBool r ∧ alive e s' ∧ balanced s s' ∧ SimpleBackend.binv s'.
Proof.
  intros I Ha Hb Hx Hy Hp Hr.
  destruct (int_compare_makes ρ p w x y r a b s) as (?&s'&E&I'&X&e&->&?&?); [done..|].
  by exists e, s'.
Qed.

Lemma int_comparison_value_witness :
  ∃ (s : state) a b e s', comparisonHandlers ICMP_SLT (Some a) (Some b) s = Ok (Some e) s' ∧
    Z3_eval letters e = VBool true.
Proof.
  destruct (two_constants letters 8 249 2) as (s&a&b&[I _]&[_ Ha]&[_ Hb]); [done..|].
  destruct (int_comparison_value letters ICMP_SLT 8 249 2 true a b s) as (e&s'&E&He&_); [done..|].
  by exists s, a, b, e, s'.
Defined.

(** Two floating-point numbers for the examples. *)
Lemma two_floats (ρ : RunInput) x y :
  ∃ (s : state) a b, SimpleBackend.binv s ∧ Z3_eval ρ a = VFP true (fp_convert true x) ∧
    Z3_eval ρ b = VFP true (fp_convert true y).
Proof.
  destruct (constants ρ []) as (s&_&[I _]&_); [done|].
  exists s, (Z3_mk_fpa_numeral_double x true), (Z3_mk_fpa_numeral_double y true).
  split; [done|]. by rewrite !Z3_fpa_numeral_eval.
Qed.

(** C22. The handler of every [fcmp] predicate returns an expression that is true
    exactly when the IEEE comparison holds, for operands that are not numbers
    included; the exception is "ordered and not equal", which this covers for
    comparable operands only. *)
Theorem float_comparison_value `{ZL : Z3Laws} ρ p d x y r a b s :
  SimpleBackend.binv s → Z3_eval ρ a = VFP d x → Z3_eval ρ b = VFP d y →
  (p = FCMP_ONE → SFcompare x y ≠ None) → float_compare p x y = Some r →
  ∃ e s', comparisonHandlers p (Some a) (Some b) s = Ok (Some e) s' ∧
    Z3_eval ρ e = VBool r ∧ alive e s' ∧ balanced s s' ∧ SimpleBackend.binv s'.
Proof.
  intros I Ha Hb Hp Hr.
  destruct (float_compare_makes ρ p d x y r a b s) as (?&s'&E&I'&X&e&->&?&?); [done..|].
  by exists e, s'.
Qed.

Lemma float_comparison_value_witness :
  ∃ (s : state) a b e s', comparisonHandlers FCMP_ULT (Some a) (Some b) s = Ok (Some e) s' ∧
    Z3_eval letters e = VBool true.
Proof.
  destruct (two_floats letters S754_nan (S754_zero true)) as (s&a&b&I&Ha&Hb).
  destruct (float_comparison_value letters FCMP_ULT true S754_nan (S754_zero true) true a b s)
    as (e&s'&E&He&_); [done..|].
  by exists s, a, b, e, s'.
Defined.

(** "Ordered and not equal" is built as the negation of "ordered and equal",
    so that it is true of operands one of which is not a number, where the
    predicate is false. *)
Theorem ordered_not_equal_on_nan `{ZL : Z3Laws} ρ d x y a b s :
  SimpleBackend.binv s → Z3_eval ρ a = VFP d x → Z3_eval ρ b = VFP d y →
  SFcompare x y = None →
  float_compare FCMP_ONE x y = Some false ∧
  ∃ e s', comparisonHandlers FCMP_ONE (Some a) (Some b) s = Ok (Some e) s' ∧
    Z3_eval ρ e = VBool true.
Proof.
  intros I Ha Hb Hn. split; [cbn; by rewrite Hn|].
  destruct (compares_makes ρ s I _ _ (ordered_not_equal_compares ρ a b d x y s Ha Hb))
    as (?&s'&E&_&_&e&->&_&He).
  exists e, s'. split; [done|]. rewrite He. unfold SFeqb. by rewrite Hn.
Qed.

Lemma ordered_not_equal_on_nan_witness :
  ∃ (s : state) a b e s', comparisonHandlers FCMP_ONE (Some a) (Some b) s = Ok (Some e) s' ∧
    Z3_eval letters e = VBool true.
Proof.
  destruct (two_floats letters S754_nan (S754_zero true)) as (s&a&b&I&Ha&Hb).
  destruct (ordered_not_equal_on_nan letters true S754_nan (S754_zero true) a b s)
    as (_&e&s'&E&He); [done..|].
  by exists s, a, b, e, s'.
Defined.

(** ** Byte arrays *)

(** C16. [_sym_build_insert] replaces the bytes of [l] from offset [off] by those
    of [k], in the byte order of the target, and keeps all others. *)
Theorem insert_replaces_bytes {B : Backend} {BS : BackendSpec B} ρ (s : bstate) a b l k off le :
  binv s → Forall is_byte l → Forall is_byte k →
  rep ρ s a (bytes_value l) → rep ρ s b (bytes_value k) → nbits l < 2 ^ 32 →
  (off + length k ≤ length l)%nat →
  (le = true → 8 < nbits k → nbits k mod 16 = 0) →
  builds ρ (_sym_build_insert (Some a) (Some b) (Z.of_nat off) le) s
    (bytes_value (take off l ++
                  (if le && (8 <? nbits k) then rev k else k) ++
                  drop (off + length k) l)).
Proof. exact (build_insert_bytes ρ s a b l k off le). Qed.

Lemma insert_replaces_bytes_witness :
  ∃ (s : @bstate simple_backend) a b,
    builds letters (_sym_build_insert (Some a) (Some b) 1 true) s (bytes_value [1; 8; 7; 4]).
Proof.
  destruct (constants letters [(32, of_be [1; 2; 3; 4]); (16, of_be [7; 8])])
    as (s&hs&I&Hh); [by repeat constructor|].
  inversion Hh as [|a ? ? l Ha Hl]; subst. inversion Hl as [|b ? ? l' Hb _]; subst.
  exists s, a, b.
  by apply (insert_replaces_bytes letters s a b [1; 2; 3; 4] [7; 8] 1 true);
    first [by repeat constructor|done|cbn; lia].
Defined.

(** C21. [_sym_build_extract] returns the bytes [off] to [off + len - 1], reversed
    for little-endian data. *)
Theorem extract_selects_bytes {B : Backend} {BS : BackendSpec B} ρ (s : bstate) a l off len le :
  binv s → Forall is_byte l → rep ρ s a (bytes_value l) → nbits l < 2 ^ 32 →
  (0 < len)%nat → (off + len ≤ length l)%nat →
  builds ρ (_sym_build_extract (Some a) (Z.of_nat off) (Z.of_nat len) le) s
    (bytes_value (if le then rev (take len (drop off l)) else take len (drop off l))).
Proof. exact (build_extract_bytes ρ s a l off len le). Qed.

Lemma extract_selects_bytes_witness :
  ∃ (s : @bstate simple_backend) a,
    builds letters (_sym_build_extract (Some a) 1 2 true) s (bytes_value [3; 2]).
Proof.
  destruct (one_constant letters 32 (of_be [1; 2; 3; 4])) as (s&a&I&Ha); [done|].
  exists s, a.
  by apply (extract_selects_bytes letters s a [1; 2; 3; 4] 1 2 true);
    first [by repeat constructor|done|cbn; lia].
Defined.

(** ** Arithmetic *)

(** C28. The result of [_sym_build_add_overflow] and [_sym_build_sub_overflow] for
    operands of [n] bytes, below 256 bits, is the in-memory image of LLVM's pair:
    the wrapped sum or difference in the byte order of the target, and a flag
    byte that is 1 exactly when the exact result is not representable.  The
    exception are little-endian targets with an odd number of bytes, that is 8
    bits in particular: there both functions fail the assertion of
    [_sym_build_bswap]. *)
Theorem add_sub_overflow_pair {B : Backend} {BS : BackendSpec B}
    ρ (s : bstate) a b n x y (sg le : bool) :
  let w := 8 * Z.of_nat n in
  binv s → rep ρ s a (VBV w x) → rep ρ s b (VBV w y) → w < 2 ^ 8 →
  let pair r z := bytes_value (overflow_bytes (to_be n (wrap w r))
                    (if sg then soverflows w z else uoverflows w r) le) in
  let add := _sym_build_add_overflow (Some a) (Some b) sg le in
  let sub := _sym_build_sub_overflow (Some a) (Some b) sg le in
  if le && Nat.odd n
  then add s = Err (Assert "bswap is not applicable") ∧
       sub s = Err (Assert "bswap is not applicable")
  else builds ρ add s (pair (x + y) (sgn w x + sgn w y)) ∧
       builds ρ sub s (pair (x - y) (sgn w x - sgn w y)).
Proof.
  intros w I Ha Hb Hw pair add sub. destruct (le && Nat.odd n) eqn:E.
  - apply andb_true_iff in E as [-> Hn].
    split; [by apply (add_overflow_misaligned ρ s a b n x y)|by apply (sub_overflow_misaligned ρ s a b n x y)].
  - pose proof (even_if_little_endian _ _ E). split; [by apply add_overflow_ok|by apply sub_overflow_ok].
Qed.

Lemma add_sub_overflow_pair_witness :
  ∃ (s : @bstate simple_backend) a b,
    builds letters (_sym_build_add_overflow (Some a) (Some b) false true) s
      (bytes_value [1; 0; 1; 0]) ∧
    builds letters (_sym_build_sub_overflow (Some a) (Some b) false true) s
      (bytes_value [253; 255; 0; 0]).
Proof.
  destruct (two_constants letters 16 65535 2) as (s&a&b&I&Ha&Hb); [done..|].
  exists s, a, b. by apply (add_sub_overflow_pair letters s a b 2 65535 2 false true).
Defined.

(** C32. The result of [_sym_build_mul_overflow] for operands of [n] bytes, below
    256 bits, is the wrapped product and a flag.  The signed flag is exact; the
    unsigned one looks at the top bit of the double-width product only, so it has
    no false alarms but misses every overflow below half of the double width's
    range.  On little-endian targets with an odd number of bytes, that is 8 bits
    in particular, the function fails the assertion of [_sym_build_bswap]. *)
Theorem mul_overflow_pair {B : Backend} {BS : BackendSpec B}
    ρ (s : bstate) a b n x y (sg le : bool) :
  let w := 8 * Z.of_nat n in
  binv s → rep ρ s a (VBV w x) → rep ρ s b (VBV w y) → w < 2 ^ 8 →
  let flag := if sg then soverflows w (sgn w x * sgn w y) else 2 ^ (2 * w - 1) <=? x * y in
  let mul := _sym_build_mul_overflow (Some a) (Some b) sg le in
  (if le && Nat.odd n then mul s = Err (Assert "bswap is not applicable")
   else builds ρ mul s (bytes_value (overflow_bytes (to_be n (wrap w (x * y))) flag le))) ∧
  (sg = false → flag = true → uoverflows w (x * y) = true).
Proof.
  intros w I Ha Hb Hw flag mul. split.
  { destruct (le && Nat.odd n) eqn:E.
    - apply andb_true_iff in E as [-> Hn]. by apply (mul_overflow_misaligned ρ s a b n x y).
    - pose proof (even_if_little_endian _ _ E). by apply mul_overflow_ok. }
  intros -> Hf. apply rep_bits in Ha as [? ?], Hb as [? ?]. subst flag. cbn in Hf.
  apply Z.leb_le in Hf. unfold uoverflows.
  assert (2 ^ w ≤ 2 ^ (2 * w - 1)) by (apply Z.pow_le_mono_r; lia). lia.
Qed.

Lemma mul_overflow_pair_witness :
  ∃ (s : @bstate simple_backend) a b, uoverflows 8 (16 * 16) = true ∧
    builds letters (_sym_build_mul_overflow (Some a) (Some b) false false) s
      (bytes_value [0; 0]).
Proof.
  destruct (two_constants letters 8 16 16) as (s&a&b&I&Ha&Hb); [done..|].
  exists s, a, b. split; [done|].
  by apply (mul_overflow_pair letters s a b 1 16 16 false false).
Defined.

(** C29. The signed saturating builders compute the exact sum or difference
    clamped to the signed range, for every width below 64. *)
Theorem signed_saturation {B : Backend} {BS : BackendSpec B} ρ (s : bstate) a b w x y :
  binv s → rep ρ s a (VBV w x) → rep ρ s b (VBV w y) → w ≤ 63 →
  let clamped z := VBV w (wrap w (Z.max (- 2 ^ (w - 1)) (Z.min (2 ^ (w - 1) - 1) z))) in
  builds ρ (_sym_build_sadd_sat (Some a) (Some b)) s (clamped (sgn w x + sgn w y)) ∧
  builds ρ (_sym_build_ssub_sat (Some a) (Some b)) s (clamped (sgn w x - sgn w y)).
Proof. intros I Ha Hb Hw clamped. split; [by apply sadd_sat_ok|by apply ssub_sat_ok]. Qed.

Lemma signed_saturation_witness :
  ∃ (s : @bstate simple_backend) a b,
    builds letters (_sym_build_sadd_sat (Some a) (Some b)) s (VBV 8 127) ∧
    builds letters (_sym_build_ssub_sat (Some a) (Some b)) s (VBV 8 0).
Proof.
  destruct (two_constants letters 8 100 100) as (s&a&b&I&Ha&Hb); [done..|].
  exists s, a, b. by apply (signed_saturation letters s a b 8 100 100).
Defined.

(** C39. The unsigned saturating builders compute the exact sum or difference
    clamped to the unsigned range, for operands of up to 63 bits. *)
Theorem unsigned_saturation {B : Backend} {BS : BackendSpec B} ρ (s : bstate) a b w x y :
  binv s → rep ρ s a (VBV w x) → rep ρ s b (VBV w y) → w ≤ 63 →
  builds ρ (_sym_build_uadd_sat (Some a) (Some b)) s (VBV w (Z.min (2 ^ w - 1) (x + y))) ∧
  builds ρ (_sym_build_usub_sat (Some a) (Some b)) s (VBV w (Z.max 0 (x - y))).
Proof.
  intros I Ha Hb Hw. pose proof (rep_bits _ _ _ _ _ Ha) as [? ?].
  pose proof (rep_bits _ _ _ _ _ Hb) as [_ ?]. split.
  - eapply builds_eq; [by apply uadd_sat_ok|]. unfold usat, clamp. f_equal. lia.
  - eapply builds_eq; [apply usub_sat_ok; [done|exact Ha|exact Hb|lia]|].
    unfold usat, clamp. f_equal. lia.
Qed.

Lemma unsigned_saturation_witness :
  ∃ (s : @bstate simple_backend) a b,
    builds letters (_sym_build_uadd_sat (Some a) (Some b)) s (VBV 8 255) ∧
    builds letters (_sym_build_usub_sat (Some a) (Some b)) s (VBV 8 0).
Proof.
  destruct (two_constants letters 8 100 200) as (s&a&b&I&Ha&Hb); [done..|].
  exists s, a, b. by apply (unsigned_saturation letters s a b 8 100 200).
Defined.

(** At the width of 64 bits the saturating additions do not return: the
    mask of the largest integer shifts a 64-bit word by 64, which C++ leaves
    undefined. *)
Theorem saturation_undefined_at_64 {B : Backend} {BS : BackendSpec B} ρ (s : bstate) a b x :
  binv s → rep ρ s a (VBV 64 x) →
  _sym_build_sadd_sat (Some a) b s = Err (Undefined "shift count out of range") ∧
  _sym_build_ssub_sat (Some a) b s = Err (Undefined "shift count out of range") ∧
  _sym_build_uadd_sat (Some a) b s = Err (Undefined "shift count out of range").
Proof.
  intros I Ha. destruct (bits_helper_spec ρ s a 64 x I Ha) as (?&s1&E1&I1&X1&->).
  destruct (buildMinSignedInt_ok ρ s1 64 I1) as (m&s2&E2&_); [lia|].
  split_and!.
  - unfold _sym_build_sadd_sat. rewrite (bind_Ok _ _ _ _ _ E1), (bind_Ok _ _ _ _ _ E2).
    apply bind_Err, (buildMax_undefined s2 64). lia.
  - unfold _sym_build_ssub_sat. rewrite (bind_Ok _ _ _ _ _ E1), (bind_Ok _ _ _ _ _ E2).
    apply bind_Err, (buildMax_undefined s2 64). lia.
  - unfold _sym_build_uadd_sat. rewrite (bind_Ok _ _ _ _ _ E1).
    apply bind_Err, (buildMax_undefined s1 64). lia.
Qed.

Lemma saturation_undefined_at_64_witness :
  ∃ (s : @bstate simple_backend) a, rep letters s a (VBV 64 5) ∧
    _sym_build_uadd_sat (Some a) (Some a) s = Err (Undefined "shift count out of range").
Proof.
  destruct (one_constant letters 64 5) as (s&a&I&Ha); [done|].
  exists s, a. split; [done|]. by apply (saturation_undefined_at_64 letters s a (Some a) 5).
Defined.

(** The signed saturating left shift computes the exact shift clamped to the
    signed range. *)
Theorem signed_shift_saturation {B : Backend} {BS : BackendSpec B} ρ (s : bstate) a b w x y :
  binv s → rep ρ s a (VBV w x) → rep ρ s b (VBV w y) → w ≤ 63 → 0 ≤ y < w →
  builds ρ (_sym_build_sshl_sat (Some a) (Some b)) s
    (VBV w (wrap w (Z.max (- 2 ^ (w - 1)) (Z.min (2 ^ (w - 1) - 1) (sgn w x * 2 ^ y))))).
Proof. exact (sshl_sat_ok ρ s a b w x y). Qed.

Lemma signed_shift_saturation_witness :
  ∃ (s : @bstate simple_backend) a b,
    builds letters (_sym_build_sshl_sat (Some a) (Some b)) s (VBV 8 128).
Proof.
  destruct (two_constants letters 8 200 3) as (s&a&b&I&Ha&Hb); [done..|].
  exists s, a, b. by apply (signed_shift_saturation letters s a b 8 200 3).
Defined.

(** C33. The unsigned saturating left shift detects overflow with the signed
    test.  For operands of up to 63 bits it saturates exactly when the shift
    overflows as a signed one, which agrees with the unsigned meaning if the
    operand's top bit is clear and the shifted value stays in the lower half or
    leaves the range, and is wrong for instance for 1 shifted by 7 in 8 bits,
    which it saturates.  For operands of 64 bits and more it has undefined
    behaviour: the mask of the largest number shifts a 64-bit word by the width. *)
Theorem unsigned_shift_saturation {B : Backend} {BS : BackendSpec B} ρ (s : bstate) a b w x y :
  binv s → rep ρ s a (VBV w x) → rep ρ s b (VBV w y) → w < 2 ^ 8 → 0 ≤ y < w →
  let shl := _sym_build_ushl_sat (Some a) (Some b) in
  let result := if soverflows w (sgn w x * 2 ^ y) then 2 ^ w - 1 else wrap w (x * 2 ^ y) in
  (if w <=? 63 then builds ρ shl s (VBV w result)
   else shl s = Err (Undefined "shift count out of range")) ∧
  (x < 2 ^ (w - 1) → x * 2 ^ y < 2 ^ (w - 1) ∨ 2 ^ w ≤ x * 2 ^ y →
   result = Z.min (2 ^ w - 1) (x * 2 ^ y)).
Proof.
  intros I Ha Hb Hw Hy shl result. split.
  { destruct (Z.leb_spec w 63); [by apply ushl_sat_ok|].
    eapply (ushl_sat_undefined ρ); [exact I|exact Ha|exact Hb|lia|done]. }
  intros Hx Hr.
  pose proof (rep_bits _ _ _ _ _ Ha) as [? ?]. pose proof (pow2_half w ltac:(lia)) as Hh.
  subst result. unfold sgn. rewrite (proj2 (Z.ltb_lt _ _) Hx).
  assert (0 ≤ x * 2 ^ y) by (apply Z.mul_nonneg_nonneg; [lia|apply Z.pow_nonneg; lia]).
  unfold soverflows. destruct Hr as [Hr|Hr].
  - replace ((- 2 ^ (w - 1) <=? x * 2 ^ y) && (x * 2 ^ y <? 2 ^ (w - 1))) with true by lia.
    cbn. rewrite wrap_small by lia. lia.
  - replace ((- 2 ^ (w - 1) <=? x * 2 ^ y) && (x * 2 ^ y <? 2 ^ (w - 1))) with false by lia.
    cbn. lia.
Qed.

Lemma unsigned_shift_saturation_witness :
  ∃ (s : @bstate simple_backend) a b, Z.min (2 ^ 8 - 1) (1 * 2 ^ 7) = 128 ∧
    builds letters (_sym_build_ushl_sat (Some a) (Some b)) s (VBV 8 255).
Proof.
  destruct (two_constants letters 8 1 7) as (s&a&b&I&Ha&Hb); [done..|].
  exists s, a, b. split; [done|]. by apply (unsigned_shift_saturation letters s a b 8 1 7).
Defined.

(** ** Path constraints *)

(** C17. Outside of string comparisons, pushing a constraint that the solver does
    not decide returns, leaves solver, recorded expressions and references as
    they were, and logs one query: the assertions in force and an expression
    that is true of exactly the inputs for which the branch goes the way that
    was taken. *)
Theorem path_constraint_query `{ZL : Z3Laws} c taken site file line slot (s : state) :
  SimpleBackend.binv s → undecided c → Z3_get_sort c = SBool → strstr file target = false →
  ∃ k s', _sym_push_path_constraint_with_loc (Some c) taken site file line slot s = Ok tt s' ∧
    balanced (add_log {| q_slot := slot; q_taken := taken; q_file := file; q_line := line;
                         q_smt := assertions s ++ [k] |} s) s' ∧
    ∀ ρ b, Z3_eval ρ c = VBool b → Z3_eval ρ k = VBool (Bool.eqb b (negb (taken =? 0))).
Proof.
  intros I U Hs Hf. destruct (negation_exists c Hs) as [n N].
  destruct (with_loc_plain c n taken site line slot file s I U N Hf) as (s'&E&X).
  exists (if taken =? 0 then n else Z3_simplify c), s'. split_and!; [done|exact X|].
  intros ρ b Hb. destruct (taken =? 0); cbn.
  - rewrite (negation_eval ρ c n b) by done. by destruct b.
  - rewrite Z3_simplify_eval, Hb. by destruct b.
Qed.

(** A Boolean input variable. *)
Definition flag_variable (name : string) : ast := Z3_mk_const name SBool.

Lemma path_constraint_query_witness :
  ∃ (s : state) k s', _sym_push_path_constraint_with_loc (Some (flag_variable "x")) 0 1
      "main.c" 7 2 s = Ok tt s' ∧ Z3_eval letters k = VBool false.
Proof.
  destruct (constants letters []) as (s&_&[I _]&_); [done|].
  destruct (path_constraint_query (flag_variable "x") 0 1 "main.c" 7 2 s)
    as (k&s'&E&_&Hk); [done|by split|done|done|].
  exists s, k, s'. split; [done|]. by apply (Hk letters true).
Defined.

(** C38. A constraint that simplifies to a constant is not logged: if the branch
    taken agrees with the constant, the call returns and leaves the solver, the
    log and all references as they were; otherwise it fails the assertion. *)
Theorem path_constraint_decided `{ZL : Z3Laws} c (b : bool) taken site file line slot (s : state) :
  SimpleBackend.binv s → Z3_simplify c = (if b then g_true else g_false) →
  if Bool.eqb b (negb (taken =? 0)) then
    ∃ s', _sym_push_path_constraint_with_loc (Some c) taken site file line slot s = Ok tt s' ∧
      balanced s s'
  else _sym_push_path_constraint_with_loc (Some c) taken site file line slot s =
       Err (Assert "We have taken an impossible branch").
Proof. exact (with_loc_decided c b taken site file line slot s). Qed.

Lemma path_constraint_decided_witness :
  ∃ s : state, _sym_push_path_constraint_with_loc (Some g_true) 0 1 "main.c" 7 2 s =
    Err (Assert "We have taken an impossible branch").
Proof.
  destruct (constants letters []) as (s&_&[I _]&_); [done|]. exists s.
  exact (path_constraint_decided g_true true 0 1 "main.c" 7 2 s I eq_refl).
Defined.

(** At the size check of a string comparison nothing is asserted or logged;
    the constraint and its negation are stored for the character comparisons,
    without a reference of their own, and the scope that was opened stays open. *)
Theorem string_size_check_leaks_scope `{ZL : Z3Laws} c taken site file slot (s : state) :
  SimpleBackend.binv s → undecided c → Z3_get_sort c = SBool → strstr file target = true →
  ∃ n s', _sym_push_path_constraint_with_loc (Some c) taken site file
            string_size_check_line slot s = Ok tt s' ∧
    negation c n ∧ solver s' = [] :: solver s ∧ log s' = log s ∧
    string_eq_constraints s' = [n] ∧ string_not_eq_constraints s' = [Z3_simplify c] ∧
    string_taken s' = negb (taken =? 1) ∧
    ∀ o, surplus o s' = surplus o s.
Proof.
  intros I U Hs Hf. destruct (negation_exists c Hs) as [n N].
  destruct (with_loc_size_check c n taken site string_size_check_line slot file s I U N Hf eq_refl)
    as (s'&E&X1&X2&X3).
  exists n, s'. split_and!; [exact E|exact N|by rewrite X3..|].
  intros o. apply X1.
Qed.

Lemma string_size_check_leaks_scope_witness :
  ∃ (s s' : state), _sym_push_path_constraint_with_loc (Some (flag_variable "x")) 0 1
      "lib/symros_string.hpp" 13 2 s = Ok tt s' ∧ solver s' = [] :: solver s.
Proof.
  destruct (constants letters []) as (s&_&[I _]&_); [done|].
  destruct (string_size_check_leaks_scope (flag_variable "x") 0 1 "lib/symros_string.hpp" 2 s)
    as (n&s'&E&_&Hs&_); [done|by split|done|done|].
  by exists s, s'.
Defined.




