(* ===== verification/QsymProps.v ===== *)
(** * What the QSYM backend guarantees

    The theorems about runtime/src/backends/qsym/Runtime.cpp, each followed by
    an example over the syntax trees of QsymSpec.v. *)

From S2P Require Import Prelude Smt ByteSeq Config State Shadow Memory GarbageCollection.
From S2P Require Import Scenarios Qsym QsymSpec Interface.

#[local] Open Scope Z_scope.
#[local] Existing Instances qsym_backend.

(** C10. With the QSYM backend, too, the agreement between shadow memory and
    program memory holds: from initialisation on, whatever sequence of memory
    operations, symbolic inputs and expression building the program performs,
    the library holds a pointer to every shadow expression, and the expression
    has the value of the byte that it shadows. *)
Theorem qsym_agreement {Q : Qsym} {QL : QsymLaws Q} getenv is_directory w mem cells ρ s s' :
  env_ok getenv → (∀ a, is_byte (mem a)) →
  input (config_of getenv default_config) ≠ NoInput →
  is_directory (outputDir (config_of getenv default_config)) = true →
  _sym_initialize getenv is_directory (program_start w mem cells) = Ok tt s →
  rtc (mem_step ρ) s s' →
  ∀ a h, valid a → shadow_at s' a = Some h →
    ∃ r, allocatedExpressions (rt_backend s') !! h = Some r ∧ ref_get r = h ∧
      ref_eval ρ r = VBV 8 (memory s' a).
Proof.
  intros He Hm Hi Hd E St a h Ha Hh.
  destruct (initialize_ok ρ getenv is_directory w mem cells He Hm Hi Hd) as ([]&s0&E0&C&_).
  assert (s0 = s) as -> by congruence.
  pose proof (mem_steps_consistent ρ s s' C St) as C'.
  destruct (consistent_expr ρ s' a h C' Ha Hh) as (r&Er&Hr). exists r. split_and!; [done| |done].
  by apply (proj1 (proj1 C')).
Qed.

(** C24. A garbage collection of the QSYM backend returns; below the threshold
    it changes nothing, otherwise it drops exactly the pointers to expressions
    that neither a registered region nor shadow memory holds; the shadow stays
    in agreement with memory. *)
Theorem qsym_garbage {Q : Qsym} {QL : QsymLaws Q} ρ (s : rt) :
  consistent ρ s → ∃ s' : rt, _sym_collect_garbage s = Ok tt s' ∧ consistent ρ s' ∧
    shadow_at s' = shadow_at s ∧ memory s' = memory s ∧
    ∀ h, allocatedExpressions (rt_backend s') !! h =
      (if bool_decide (Z.of_nat (size (allocatedExpressions (rt_backend s)))
                         < garbageCollectionThreshold (g_config s)) ||
          bool_decide (h ∈ collectReachableExpressions s)
       then allocatedExpressions (rt_backend s) !! h else None).
Proof.
  intros C. destruct (collect_ok ρ s C) as (s'&E&C'&Hs&Hm&A). exists s'. split_and!; try done.
  intros h. rewrite A. destruct (Z.ltb_spec (Z.of_nat (size (allocatedExpressions (rt_backend s))))
    (garbageCollectionThreshold (g_config s))) as [Hlt|Hge].
  { by rewrite bool_decide_eq_true_2. }
  rewrite bool_decide_eq_false_2 by lia. cbn [orb]. case_bool_decide as Hh.
  - destruct (allocatedExpressions (rt_backend s) !! h) as [r|] eqn:Er.
    + by apply map_lookup_filter_Some.
    + apply map_lookup_filter_None. by left.
  - apply map_lookup_filter_None. right. intros r _ H. by apply Hh.
Qed.

(** ** Examples *)
Import Trees.

Definition blank_trees : @rt qsym_backend := program_start (tt : @world tree_qsym) (λ _, 0) (λ _, None).

Lemma trees_started :
  ∃ s, _sym_initialize no_env (λ _, true) blank_trees = Ok tt s ∧ consistent letters s ∧
    memory s = (λ _, 0) ∧ inputs_read (rt_backend s) 0.
Proof.
  destruct (initialize_ok letters no_env (λ _, true) (tt : @world tree_qsym) (λ _, 0) (λ _, None))
    as ([]&s&E&C&Hm&_&Hr); [exact no_env_ok|intros a; by unfold is_byte|done|done|by exists s].
Qed.

Lemma qsym_agreement_witness :
  ∃ s s' h, _sym_initialize no_env (λ _, true) blank_trees = Ok tt s ∧
    shadow_at s' 4096 = Some h ∧
    ∃ r, allocatedExpressions (rt_backend s') !! h = Some r ∧ ref_get r = h ∧
      ref_eval letters r = VBV 8 65.
Proof.
  destruct trees_started as (s&E&C&Hm&Hr).
  destruct (two_letters_read s C Hm Hr) as (s'&St&_&[h Hh]&Hm').
  exists s, s', h. split; [exact E|]. split; [exact Hh|].
  assert (VBV 8 65 = VBV 8 (memory s' 4096)) as ->; [by rewrite Hm'|].
  apply (qsym_agreement no_env (λ _, true) (tt : @world tree_qsym) (λ _, 0) (λ _, None) letters s s').
  - exact no_env_ok.
  - intros a. by unfold is_byte.
  - vm_compute. discriminate.
  - reflexivity.
  - exact E.
  - by apply rtc_once.
  - done.
  - exact Hh.
Defined.

Lemma qsym_garbage_witness :
  ∃ s s' : @rt qsym_backend, is_Some (shadow_at s 4096) ∧ _sym_collect_garbage s = Ok tt s' ∧
    consistent letters s' ∧ shadow_at s' = shadow_at s.
Proof.
  destruct trees_started as (s&_&C&Hm&Hr).
  destruct (two_letters_read s C Hm Hr) as (s1&_&C1&Hh&_).
  destruct (qsym_garbage letters s1 C1) as (s2&E2&C2&Hs&_).
  exists s1, s2. split; [exact Hh|]. split; [exact E2|]. split; [exact C2|exact Hs].
Defined.
