(* ===== verification/CompilerProps.v ===== *)
(** * What the overflow checker guarantees

    The theorems about the instrumentation of compiler/Overflow.cpp, each
    followed by an example that applies it to a small function. *)

From S2P Require Import Prelude Smt Ir Lockstep OverflowChecker OverflowSpec.

#[local] Open Scope Z_scope.

(** With both settings stored, which no pass of the repository does (see
    [tolerance_never_set]), instrumenting a 32-bit addition, subtraction,
    multiplication or division gives a function in which the instruction is followed by seven checks, run
    in this order whatever they decide: overflow (or division by zero), result
    above the threshold as a signed and as an unsigned number, below minus the
    threshold, and within the tolerance of the largest unsigned, the largest
    signed and the smallest signed number.  Each check decides exactly that;
    then the rest of the block runs with all variables of the program
    unchanged, and the other blocks are as before.  (The eighth check, for
    small unsigned results, is built but never reached.) *)
Theorem overflow_checks_run {world : Type}
    (other_sem : nat → venv → world → option ((Z * Z) * world))
    types thr tol ck f b i x bl op fl o1 o2 e s s1 e1 v1 v2 r :
  sementic_threshold ck = Some thr → sementic_tolerance ck = Some tol →
  0 ≤ thr < 2 ^ 31 → 0 ≤ tol < 2 ^ 31 →
  blocks f !! b = Some bl → (∀ c, (next_block f ≤ c)%nat → blocks f !! c = None) →
  instrs bl !! i = Some {| res := x; ty := 32; body := RBin op fl o1 o2 |} →
  operand_type types o1 = Some 32 → operand_type types o2 = Some 32 →
  checked_opcode op = true → instrs bl !! S i ≠ None ∨ term bl ≠ None →
  exec_instrs other_sem (take (S i) (instrs bl)) e s = Some (e1, s1) →
  0 ≤ v1 < 2 ^ 32 → 0 ≤ v2 < 2 ^ 32 → check_defined op v1 v2 →
  holds f e1 o1 (32, v1) → holds f e1 o2 (32, v2) → holds f e1 (OVar x) (32, r) →
  ∃ f' e2,
    visitBinaryOperator types ck b i f = Ok tt f' ∧
    block_steps other_sem f' (b, e, s)
      [(overflow_tag op, overflow_truth op v1 v2);
       ("int_exceptional_signed_value", thr <? sgn 32 r);
       ("int_exceptional_unsigned_value", thr <? r);
       ("int_exceptional_signed_minus_value", sgn 32 r <? - thr);
       ("int_exceptional_max_value", 2 ^ 32 - 2 - tol <? r);
       ("int_exceptional_signed_max_value", 2 ^ 31 - 2 - tol <? sgn 32 r);
       ("int_exceptional_signed_min_value", sgn 32 r <? - 2 ^ 31 + 1 + tol)]
      (next_block f, e2, s1) ∧
    blocks f' !! next_block f =
      Some {| instrs := drop (S i) (instrs bl); term := term bl |} ∧
    (∀ c, c ≠ b → (c < next_block f)%nat → blocks f' !! c = blocks f !! c) ∧
    (∀ o v, holds f e1 o v → operand_val e2 o = Some v).
Proof. intros. by eapply visitBinaryOperator_runs. Qed.

(** [x2 = add i32 x0, x1; ...] *)
Definition sum_block : block :=
  {| instrs := [{| res := 2; ty := 32; body := RBin Add no_flags (OVar 0) (OVar 1) |}];
     term := Some (TOther 0) |}.
Definition sum_function : func := {| blocks := {[0%nat := sum_block]}; next_block := 1; next_var := 3 |}.
Definition sum_arguments : venv := λ x,
  match x with O => Some (32, 2147483647) | 1%nat => Some (32, 1) | _ => None end.
Definition all_32 : nat → option Z := λ _, Some 32.
Definition no_other (_ : nat) (_ : venv) (_ : unit) : option ((Z * Z) * unit) := None.
Definition configured_checker : checker :=
  {| sementic_threshold := Some 1000; sementic_tolerance := Some 10 |}.

Lemma overflow_checks_run_witness :
  ∃ f' e2, visitBinaryOperator all_32 configured_checker 0 0 sum_function = Ok tt f' ∧
    block_steps no_other f' (0%nat, sum_arguments, tt)
      [("int_overflow", true);
       ("int_exceptional_signed_value", false);
       ("int_exceptional_unsigned_value", true);
       ("int_exceptional_signed_minus_value", true);
       ("int_exceptional_max_value", false);
       ("int_exceptional_signed_max_value", false);
       ("int_exceptional_signed_min_value", true)] (1%nat, e2, tt).
Proof.
  destruct (overflow_checks_run no_other all_32 1000 10 configured_checker sum_function 0 0 2
    sum_block Add no_flags (OVar 0) (OVar 1) sum_arguments tt tt
    (bind_var sum_arguments 2 (32, 2147483648)) 2147483647 1 2147483648)
    as (f'&e2&E&St&_).
  - reflexivity.
  - reflexivity.
  - lia.
  - lia.
  - reflexivity.
  - intros c Hc. unfold sum_function. cbn in *. by rewrite lookup_singleton_ne by lia.
  - reflexivity.
  - reflexivity.
  - reflexivity.
  - reflexivity.
  - by right.
  - reflexivity.
  - lia.
  - lia.
  - intros H. discriminate H.
  - split; cbn; [lia|reflexivity].
  - split; cbn; [lia|reflexivity].
  - split; cbn; [lia|reflexivity].
  - exists f', e2. split; [exact E|exact St].
Defined.

(** C30. The conditions of additions and subtractions, appended to any block under
    construction, compute exactly whether the exact result leaves the signed or
    the unsigned range. *)
Theorem add_sub_conditions_exact {world : Type}
    (other_sem : nat → venv → world → option ((Z * Z) * world))
    bb e0 (s : world) w a b x y f e :
  1 < w → 0 ≤ a < 2 ^ w → 0 ≤ b < 2 ^ w →
  building other_sem bb e0 s f e → holds f e x (w, a) → holds f e y (w, b) →
  let leaves z u := negb ((- 2 ^ (w - 1) <=? z) && (z <? 2 ^ (w - 1))) ||
                    negb ((0 <=? u) && (u <? 2 ^ w)) in
  gen other_sem bb e0 s (getAddOverflowCondition bb w x y) f e
    (1, bool_bit (leaves (sgn w a + sgn w b) (a + b))) ∧
  gen other_sem bb e0 s (getSubOverflowCondition bb w x y) f e
    (1, bool_bit (leaves (sgn w a - sgn w b) (a - b))).
Proof.
  intros Hw Ha Hb B Hx Hy leaves. split.
  - eapply gen_eq; [by apply (add_condition_ok other_sem bb e0 s w a b)|].
    do 2 f_equal. unfold add_overflows, leaves. f_equal. lia.
  - eapply gen_eq; [by apply (sub_condition_ok other_sem bb e0 s w a b)|].
    do 2 f_equal. unfold sub_overflows, leaves. f_equal. lia.
Qed.

(** An empty block under construction. *)
Definition empty_function : func :=
  {| blocks := {[0%nat := empty_block]}; next_block := 1; next_var := 2 |}.

Lemma add_sub_conditions_exact_witness :
  building no_other 0 sum_arguments tt empty_function sum_arguments ∧
  gen no_other 0 sum_arguments tt (getAddOverflowCondition 0 32 (OVar 0) (OVar 1))
    empty_function sum_arguments (1, 1) ∧
  gen no_other 0 sum_arguments tt (getSubOverflowCondition 0 32 (OVar 0) (OVar 1))
    empty_function sum_arguments (1, 0).
Proof.
  assert (building no_other 0 sum_arguments tt empty_function sum_arguments) as B by by exists [].
  split; [exact B|].
  apply (add_sub_conditions_exact no_other 0 sum_arguments tt 32 2147483647 1);
    [done..|exact B|split; cbn; [lia|done]|split; cbn; [lia|done]].
Defined.

(** C31. The condition of multiplications computes exactly whether the product
    leaves the signed or the unsigned range, unless the operands are -1 and the
    smallest number: then the signed division of the product by -1, which the
    condition contains, has undefined behaviour. *)
Theorem mul_condition_exact_or_traps {world : Type}
    (other_sem : nat → venv → world → option ((Z * Z) * world))
    bb e0 (s : world) w a b x y f e :
  1 < w → 0 ≤ a < 2 ^ w → 0 ≤ b < 2 ^ w →
  building other_sem bb e0 s f e → holds f e x (w, a) → holds f e y (w, b) →
  (¬ (sgn w a = -1 ∧ sgn w b = - 2 ^ (w - 1)) →
   gen other_sem bb e0 s (getMulOverflowCondition bb w x y) f e
     (1, bool_bit (negb ((- 2 ^ (w - 1) <=? sgn w a * sgn w b) &&
                         (sgn w a * sgn w b <? 2 ^ (w - 1))) || (2 ^ w <=? a * b)))) ∧
  (sgn w a = -1 → sgn w b = - 2 ^ (w - 1) → bin_sem SDiv w (wrap w (a * b)) a = None).
Proof.
  intros Hw Ha Hb B Hx Hy. split.
  - intros Ht. by apply mul_condition_ok.
  - intros Ea Eb. pose proof (pow2_half w ltac:(lia)) as Hh.
    assert (0 < 2 ^ (w - 1)) by (apply Z.pow_pos_nonneg; lia).
    unfold sgn in Ea, Eb. replace a with (2 ^ w - 1) by (destruct (a <? 2 ^ (w - 1)); lia).
    replace b with (2 ^ (w - 1)) by (destruct (b <? 2 ^ (w - 1)); lia).
    by apply mul_condition_trap.
Qed.

Lemma mul_condition_exact_or_traps_witness :
  gen no_other 0 sum_arguments tt (getMulOverflowCondition 0 32 (OVar 1) (OVar 0))
    empty_function sum_arguments (1, 0) ∧
  sgn 32 4294967295 = -1 ∧
  bin_sem SDiv 32 (wrap 32 (4294967295 * 2147483648)) 4294967295 = None.
Proof.
  assert (building no_other 0 sum_arguments tt empty_function sum_arguments) as B by by exists [].
  split; [|split; [reflexivity|]].
  - apply (mul_condition_exact_or_traps no_other 0 sum_arguments tt 32 1 2147483647);
      [lia|lia|lia|exact B|split; cbn; [lia|reflexivity]|split; cbn; [lia|reflexivity]|].
    intros [H _]. discriminate H.
  - set (e := bind_var (bind_var sum_arguments 0 (32, 4294967295)) 1 (32, 2147483648)).
    apply (mul_condition_exact_or_traps no_other 0 e tt 32 4294967295 2147483648
      (OVar 0) (OVar 1) empty_function e);
      [lia|lia|lia|by exists []|split; cbn; [lia|reflexivity]|split; cbn; [lia|reflexivity]
      |reflexivity|reflexivity].
Defined.

(** However the passes configure a checker, instrumenting an instruction
    reads the tolerance before anything has been stored in it:
    [setSementicTolerance] sets the threshold instead, and the members have no
    initialisers. *)
Theorem tolerance_never_set types ck b i f bl x w op fl o1 o2 :
  configured ck →
  blocks f !! b = Some bl → instrs bl !! i = Some {| res := x; ty := w; body := RBin op fl o1 o2 |} →
  operand_type types o1 = Some 32 → operand_type types o2 = Some 32 →
  checked_opcode op = true → instrs bl !! S i ≠ None ∨ term bl ≠ None →
  ∀ f', visitBinaryOperator types ck b i f ≠ Ok tt f'.
Proof. intros Hc. apply visit_no_tolerance, configured_no_tolerance, Hc. Qed.

Lemma tolerance_never_set_witness :
  configured (setSementicTolerance 10 (setSementicThreshold 1000 new_checker)) ∧
  ∀ f', visitBinaryOperator all_32
    (setSementicTolerance 10 (setSementicThreshold 1000 new_checker)) 0 0 sum_function ≠ Ok tt f'.
Proof.
  assert (configured (setSementicTolerance 10 (setSementicThreshold 1000 new_checker))) as C.
  { repeat constructor. }
  split; [exact C|].
  apply (tolerance_never_set all_32 _ 0 0 sum_function sum_block 2 32 Add no_flags (OVar 0) (OVar 1));
    [exact C|reflexivity..|by right].
Defined.
