(* ===== verification/PassProps.v ===== *)
(** * What the instrumentation passes guarantee

    The theorems about the function passes of compiler/Pass.cpp that insert
    checks, and about the bounds that the floating-point checks compare with,
    each followed by an example over a small function. *)

From S2P Require Import Prelude Smt Ieee Ir Lockstep OverflowSpec Instrument Reporting.
From S2P Require Import FPOverflowSpec Passes PassSpec.
From S2P Require OverflowChecker FPOverflow.

#[local] Open Scope Z_scope.

(** The settings of the passes are numbers in every format. *)
Lemma pass_settings_valid sem : settings_valid sem double_100 double_1em5 = true.
Proof. by destruct sem; vm_compute. Qed.

(** C7. The floating-point overflow pass returns on every function, and the
    function that it makes is a refinement of the original in which every
    floating-point operation (but those with the flags nnan and ninf) reports,
    when it has been executed, whether the result is infinite, above 100, a
    division by zero, below -100, beyond the largest number less 1e-5, below
    the smallest number plus 1e-5: for any control flow, a run of the original
    with these reports is a run of the instrumented function in which the
    inserted branches decide the same in the same order, and which ends at the
    same terminator with the same state and variables. *)
Theorem fp_pass_refines {world : Type}
    (other_sem : nat → venv → world → option ((Z * Z) * world)) layout f :
  (∀ k e1 e2 s v, env_le (next_var f) e1 e2 →
     other_sem k e1 s = Some v → other_sem k e2 s = Some v) →
  function_ok (λ _, True) layout f →
  ∃ f', FPOverflowCheckerLegacyPass.runOnFunction layout f = Ok true f' ∧ ∀ q d z,
    reporting_run other_sem (fp_reports double_100 double_1em5) (λ _, true) f q d z →
    ∃ z', reporting_run other_sem (fp_reports double_100 double_1em5) (λ _, false) f' q d z' ∧
      same_end (next_var f) z z'.
Proof.
  intros Hother F.
  pose proof (fp_checks double_100 double_1em5 other_sem (next_var f) Hother
    FPOverflowCheckerLegacyPass.checker pass_settings_valid eq_refl eq_refl) as C.
  destruct (pass_refines other_sem layout f F (le_n _)) as (f'&E&Sim).
  exists f'. split; [|done]. unfold FPOverflowCheckerLegacyPass.runOnFunction.
  by rewrite (bind_Ok _ _ _ _ _ E).
Qed.

(** [x2 = fdiv double x0, x1; br 1] and [x3 = fadd double x2, 1.0; ret]. *)
Definition double_operation (op : fopcode) (x : nat) (a b : operand) : instr :=
  {| res := x; ty := 64; body := RFBin op IEEEdouble {| nnan := false; ninf := false |} a b |}.
Definition quotient_function : func := two_blocks
  {| instrs := [double_operation FDiv 2 (OVar 0) (OVar 1)]; term := Some (Br 1) |}
  {| instrs := [double_operation FAdd 3 (OVar 2) (OConst 64 4607182418800017408)];
     term := Some (TOther 0) |} 4.
(** 3.0 and 0.0. *)
Definition quotient_arguments : venv := λ x,
  match x with O => Some (64, 4613937818241073152) | 1%nat => Some (64, 0) | _ => None end.
Definition no_opaque (_ : nat) (_ : venv) (_ : unit) : option ((Z * Z) * unit) := None.

Lemma fp_pass_refines_witness :
  ∃ f' z', FPOverflowCheckerLegacyPass.runOnFunction [0; 1]%nat quotient_function = Ok true f' ∧
    reporting_run no_opaque (fp_reports double_100 double_1em5) (λ _, false) f'
      (0%nat, quotient_arguments, tt)
      [("fp_overflow", true); ("fp_exceptional_value", true); ("fp_divided_by_zero", true);
       ("fp_exceptional_minus_value", false); ("fp_exceptional_max_value", true);
       ("fp_exceptional_min_value", false);
       ("fp_overflow", true); ("fp_exceptional_value", true); ("fp_divided_by_zero", false);
       ("fp_exceptional_minus_value", false); ("fp_exceptional_max_value", true);
       ("fp_exceptional_min_value", false)] z'.
Proof.
  destruct (fp_pass_refines no_opaque [0; 1]%nat quotient_function) as (f'&E&Sim).
  - intros k e1 e2 s v _ H. exact H.
  - apply two_blocks_ok; [repeat constructor; cbn; lia..| |done|done|by repeat constructor].
    vm_compute. repeat constructor; set_solver.
  - destruct (Sim (0%nat, quotient_arguments, tt)
      ([("fp_overflow", true); ("fp_exceptional_value", true); ("fp_divided_by_zero", true);
        ("fp_exceptional_minus_value", false); ("fp_exceptional_max_value", true);
        ("fp_exceptional_min_value", false)] ++
       [("fp_overflow", true); ("fp_exceptional_value", true); ("fp_divided_by_zero", false);
        ("fp_exceptional_minus_value", false); ("fp_exceptional_max_value", true);
        ("fp_exceptional_min_value", false)])
      (0%nat, bind_var (bind_var quotient_arguments 2 (64, 9218868437227405312))
        3 (64, 9218868437227405312), tt)) as (z'&Run&_).
    + eapply (run_jump _ _ _ _ _ _ _ _ _ _ _ 1); [reflexivity|vm_compute; reflexivity|reflexivity|].
      eapply run_end; [reflexivity|vm_compute; reflexivity|reflexivity].
    + exists f', z'. split; [exact E|exact Run].
Defined.

(** C36. The conditions that the floating-point pass of the legacy manager
    generates with its tolerance of 1e-5, appended to any block under
    construction: the tolerance vanishes in the largest number of every format,
    so the condition near the largest number holds exactly for positive
    infinity; and the "smallest number" is the smallest positive one, so the
    condition near it holds for every negative number and for both zeros. *)
Theorem fp_tolerance_bounds {world : Type}
    (other_sem : nat → venv → world → option ((Z * Z) * world))
    bb e0 (s : world) sem x bits f e :
  building other_sem bb e0 s f e → holds f e x (flt_width sem, bits) →
  let r := flt_of_bits sem bits in
  gen other_sem bb e0 s
    (FPOverflow.getSemnticMaxBoundCondition bb sem FPOverflowCheckerLegacyPass.checker x) f e
    (1, bool_bit (bool_decide (r = S754_infinity false))) ∧
  (SFleb r (S754_zero false) = true →
   gen other_sem bb e0 s
     (FPOverflow.getSementicMinBoundCondition bb sem FPOverflowCheckerLegacyPass.checker x) f e (1, 1)).
Proof.
  intros B Hx r. assert (near_largest sem double_1em5 = getLargest sem) as EL by (by destruct sem; vm_compute).
  assert (∃ m e, near_smallest sem double_1em5 = S754_finite false m e) as (m&z&ES).
  { destruct sem; vm_compute; by eexists _, _. }
  pose proof (pass_settings_valid sem) as V. split.
  - eapply gen_eq; [by eapply max_cond_ok|]. by rewrite EL, above_largest by apply flt_of_bits_valid.
  - intros Hr. eapply gen_eq; [by eapply min_cond_ok|]. rewrite ES. subst r.
    by destruct (flt_of_bits sem bits) as [|[]| |[]].
Qed.

(** On -1.0. *)
Definition empty_fp_function : func :=
  {| blocks := {[0%nat := empty_block]}; next_block := 1; next_var := 1 |}.
Definition minus_one : venv := λ x, if (x =? 0)%nat then Some (64, 13830554455654793216) else None.

Lemma fp_tolerance_bounds_witness :
  building no_opaque 0 minus_one tt empty_fp_function minus_one ∧
  gen no_opaque 0 minus_one tt
    (FPOverflow.getSemnticMaxBoundCondition 0 IEEEdouble FPOverflowCheckerLegacyPass.checker (OVar 0))
    empty_fp_function minus_one (1, 0) ∧
  gen no_opaque 0 minus_one tt
    (FPOverflow.getSementicMinBoundCondition 0 IEEEdouble FPOverflowCheckerLegacyPass.checker (OVar 0))
    empty_fp_function minus_one (1, 1).
Proof.
  assert (building no_opaque 0 minus_one tt empty_fp_function minus_one) as B by by exists [].
  split; [exact B|].
  destruct (fp_tolerance_bounds no_opaque 0 minus_one tt IEEEdouble (OVar 0) 13830554455654793216
    empty_fp_function minus_one B) as [H1 H2]; [split; cbn; [lia|reflexivity]|].
  split; [exact H1|]. apply H2. vm_compute. reflexivity.
Defined.

(** The integer overflow pass, run with a checker whose two settings have been
    stored (which no pass of the repository does, see
    [tolerance_undefined_in_passes]), refines a function in the same sense: every 32-bit addition,
    subtraction, multiplication and division reports what its seven checks
    decide, and the instrumented function takes these decisions, for any
    control flow.  (No run is claimed where the condition of a multiplication
    has undefined behaviour.) *)
Theorem int_pass_refines {world : Type}
    (other_sem : nat → venv → world → option ((Z * Z) * world)) types thr tol ck layout f :
  OverflowChecker.sementic_threshold ck = Some thr →
  OverflowChecker.sementic_tolerance ck = Some tol →
  0 ≤ thr < 2 ^ 31 → 0 ≤ tol < 2 ^ 31 →
  (∀ k e1 e2 s v, env_le (next_var f) e1 e2 →
     other_sem k e1 s = Some v → other_sem k e2 s = Some v) →
  function_ok (int_typed types) layout f →
  ∃ f', visit_instructions (OverflowChecker.visitBinaryOperator types ck) layout f = Ok tt f' ∧
    ∀ q d z, reporting_run other_sem (int_reports types thr tol) (λ _, true) f q d z →
    ∃ z', reporting_run other_sem (int_reports types thr tol) (λ _, false) f' q d z' ∧
      same_end (next_var f) z z'.
Proof.
  intros Hthr Htol Rthr Rtol Hother F.
  pose proof (int_checks types thr tol ck Hthr Htol Rthr Rtol other_sem (next_var f) Hother) as C.
  exact (pass_refines other_sem layout f F (le_n _)).
Qed.

(** [x2 = add i32 x0, x1; x3 = icmp sgt x2, 0; br x3, 0, 1], a loop that is
    left when the sum overflows, and [x4 = udiv x2, x1; ret]. *)
Definition sum_loop : func := two_blocks
  {| instrs := [{| res := 2; ty := 32; body := RBin Add no_flags (OVar 0) (OVar 1) |};
                {| res := 3; ty := 1; body := RICmp SGT (OVar 2) (OConst 32 0) |}];
     term := Some (CondBr (OVar 3) 0 1 None) |}
  {| instrs := [{| res := 4; ty := 32; body := RBin UDiv no_flags (OVar 2) (OVar 1) |}];
     term := Some (TOther 0) |} 5.
Definition loop_arguments : venv := λ x,
  match x with O => Some (32, 2147483647) | 1%nat => Some (32, 1) | _ => None end.
Definition words (_ : nat) : option Z := Some 32.
Definition set_checker : OverflowChecker.checker :=
  {| OverflowChecker.sementic_threshold := Some 1000; OverflowChecker.sementic_tolerance := Some 10 |}.
(** The decisions about the result 2^31. *)
Definition loop_reports : report :=
  [("int_exceptional_signed_value", false); ("int_exceptional_unsigned_value", true);
   ("int_exceptional_signed_minus_value", true); ("int_exceptional_max_value", false);
   ("int_exceptional_signed_max_value", false); ("int_exceptional_signed_min_value", true)].

Lemma sum_loop_ok : function_ok (int_typed words) [0; 1]%nat sum_loop.
Proof.
  apply two_blocks_ok; [repeat constructor; cbn; lia..| |done|done|by repeat constructor].
  vm_compute. repeat constructor; set_solver.
Qed.

Lemma int_pass_refines_witness :
  ∃ f' z', visit_instructions (OverflowChecker.visitBinaryOperator words set_checker) [0; 1]%nat
      sum_loop = Ok tt f' ∧
    reporting_run no_opaque (int_reports words 1000 10) (λ _, false) f'
      (0%nat, loop_arguments, tt)
      (("int_overflow", true) :: loop_reports ++ ("int_divided_by_zero", false) :: loop_reports) z'.
Proof.
  destruct (int_pass_refines no_opaque words 1000 10 set_checker [0; 1]%nat sum_loop) as (f'&E&Sim).
  - reflexivity.
  - reflexivity.
  - lia.
  - lia.
  - intros k e1 e2 s v _ H. exact H.
  - exact sum_loop_ok.
  - destruct (Sim (0%nat, loop_arguments, tt)
      ((("int_overflow", true) :: loop_reports) ++ ("int_divided_by_zero", false) :: loop_reports)
      (0%nat, bind_var (bind_var (bind_var loop_arguments 2 (32, 2147483648)) 3 (1, 0))
        4 (32, 2147483648), tt)) as (z'&Run&_).
    + eapply (run_branch _ _ _ _ _ _ _ _ _ _ _ (OVar 3) 0 1 None 1 0);
        [reflexivity|vm_compute; reflexivity|reflexivity|reflexivity|].
      eapply run_end; [reflexivity|vm_compute; reflexivity|reflexivity].
    + exists f', z'. split; [exact E|exact Run].
Defined.

(** C40. The other passes, as they configure their checkers, have undefined
    behaviour on every function with an instruction to check: the tolerance is
    read before it has been stored.  The integer pass of the legacy manager
    stores it in the wrong member, those of the new manager do not store it. *)
Theorem tolerance_undefined_in_passes types typed layout f :
  function_ok typed layout f →
  (has_instr (int_checked types) f → ∀ a f',
     OverflowCheckerLegacyPass.runOnFunction types layout f ≠ Ok a f') ∧
  (has_instr (int_checked types) f → ∀ a f', OverflowCheckerPass.run types layout f ≠ Ok a f') ∧
  (has_instr fp_checked f → ∀ a f', FPOverflowCheckerPass.run layout f ≠ Ok a f').
Proof.
  intros F. split_and!; intros Hi; apply bind_not_Ok; intros [] f1 E;
    [destruct (int_pass_stuck types OverflowCheckerLegacyPass.checker typed layout f eq_refl F Hi _ E)
    |destruct (int_pass_stuck types OverflowCheckerPass.checker typed layout f eq_refl F Hi _ E)
    |destruct (fp_pass_stuck FPOverflowCheckerPass.checker typed layout f eq_refl F Hi _ E)].
Qed.

Lemma tolerance_undefined_in_passes_witness :
  (∀ a f', OverflowCheckerLegacyPass.runOnFunction words [0; 1]%nat sum_loop ≠ Ok a f') ∧
  (∀ a f', OverflowCheckerPass.run words [0; 1]%nat sum_loop ≠ Ok a f') ∧
  (∀ a f', FPOverflowCheckerPass.run [0; 1]%nat quotient_function ≠ Ok a f').
Proof.
  assert (has_instr (int_checked words) sum_loop) as Hs.
  { exists 0%nat. eexists _, _. split; [reflexivity|]. split; [left|reflexivity]. }
  assert (has_instr fp_checked quotient_function) as Hq.
  { exists 0%nat. eexists _, _. split; [reflexivity|]. split; [left|reflexivity]. }
  assert (function_ok (λ _, True) [0; 1]%nat quotient_function) as F.
  { apply two_blocks_ok; [repeat constructor; cbn; lia..| |done|done|by repeat constructor].
    vm_compute. repeat constructor; set_solver. }
  split_and!.
  - exact (proj1 (tolerance_undefined_in_passes words _ _ _ sum_loop_ok) Hs).
  - exact (proj1 (proj2 (tolerance_undefined_in_passes words _ _ _ sum_loop_ok)) Hs).
  - exact (proj2 (proj2 (tolerance_undefined_in_passes words _ _ _ F)) Hq).
Defined.
