(* ===== verification/SymbolizerProps.v ===== *)
(** * What the Symbolizer guarantees

    The theorems about compiler/Symbolizer.cpp and [instrumentFunction] of
    compiler/Pass.cpp, each followed by an example that applies it to a
    concrete function on x86-64. *)

From S2P Require Import Prelude Smt Z3Api SimpleBackend SimpleSpec ByteSeq BitArrays Dispatch.
From S2P Require Import State Shadow Memory Symbolizer SymbolizerSem Cfg ShortCircuit Computations.
From S2P Require Import Simulation VisitMemory SymbolizerSpec FunctionSpec CfgSpec FunctionSim Program.
From S2P Require Import Config LibcSpec Startup.
From S2P Require Import Scenarios Interface.

#[local] Open Scope Z_scope.
#[local] Existing Instances Term.term_z3 Term.term_z3_laws.

(** ** Programs *)

(** C1. An instrumented program does what the original program does.  Take a call
    of a function, with any call depth and number of blocks per activation for
    which the original program returns, where functions of the program may call
    each other, themselves, and other functions that keep the contract
    [CalleesOk].  The instrumented program, started in a state of the library
    whose shadow and parameter slots agree with the program, returns the same
    value and leaves the same memory; every expression in the shadow again has
    the value of the byte that it shadows, all expressions from before are still
    valid, and the expression left for the caller, if the slot was empty, is null
    or has the returned value.  The instrumented program may keep variables that
    are out of scope ([extra]). *)
Theorem program_simulates `{ZL : Z3Laws} {KC : Calls} {KI : ICalls} DL (ρ : RunInput) {KO : CalleesOk ρ}
    host_address P k extra n f vs t r mem' :
  layout_ok DL → program_ok DL P →
  run_program DL P k n f vs (memory t) = Some (r, mem') →
  consistent ρ t → parameters_ok ρ vs t → (length vs ≤ 256)%nat →
  wp (exec_program DL host_address P k extra n f vs) t (λ r' t', r' = r ∧ memory t' = mem' ∧
    consistent ρ t' ∧ bext (rt_backend t) (rt_backend t') ∧
    ∀ c h, g_return_value t = None → r = Some c → g_return_value t' = Some h →
      rep ρ (rt_backend t') h (sem_value c)).
Proof. intros L HP. by apply (program_callees DL ρ host_address L P k extra HP n). Qed.

(** C2. From start-up to the end of the program: when the environment is well
    formed, initialisation and the instrumented program return what the original
    program returns, for every input [ρ], with the same memory; at the end every
    expression in the shadow has the value of its byte, every constraint of every
    query that has been logged holds for [ρ], and the expression of the result
    has the value of the result. *)
Theorem run_from_start `{ZL : Z3Laws} {KC : Calls} {KI : ICalls} DL (ρ : RunInput) {KO : CalleesOk ρ}
    host_address P k extra n f vs getenv mem cells r mem' :
  layout_ok DL → program_ok DL P → env_ok getenv → (∀ a, is_byte (mem a)) → (length vs ≤ 256)%nat →
  run_program DL P k n f vs mem = Some (r, mem') →
  wp (_sym_initialize getenv ;;; exec_program DL host_address P k extra n f vs)
    (program_start mem cells) (λ r' s, r' = r ∧ memory s = mem' ∧
      (∀ a h, valid a → shadow_at s a = Some h → Z3_eval ρ h = VBV 8 (mem' a)) ∧
      (∀ q a, q ∈ log (rt_backend s) → a ∈ q_smt q → Z3_eval ρ a = VBool true) ∧
      (∀ c h, r = Some c → g_return_value s = Some h → Z3_eval ρ h = sem_value c)).
Proof.
  intros L HP He Hm Hv R. eapply wp_seq; [by apply (sym_initialize_ok getenv mem cells ρ)|].
  intros _ s (C&Es&_&_&_&_&Hr&Ha).
  eapply wp_impl; [apply (program_callees DL ρ host_address L P k extra HP n f vs s r mem'); [|done| |done]|].
  - by rewrite Es.
  - intros j c h _ Hh. rewrite Ha in Hh. by apply lookup_replicate in Hh as [? _].
  - intros r' s' (->&<-&C'&_&Hret). split_and!; try done.
    + intros a h Hva Hh. by apply (consistent_expr ρ s' a h C') in Hh as [_ ?].
    + intros q a Hq Haq. destruct C' as [[[_ [[Hl _] _]] _] _]. rewrite Forall_forall in Hl.
      specialize (Hl q Hq). unfold query_holds in Hl. rewrite Forall_forall in Hl. by apply Hl.
    + intros c h Hc Hh. by apply (Hret c h Hr Hc Hh).
Qed.

(** ** Functions *)

(** C14. The pass handles every function of covered instructions, of any number
    of blocks and with phi nodes: no assertion of the Symbolizer fails, no case is
    unhandled and no operand is missing.  What remains is the last assertion,
    about LLVM's verifier, which is not modelled: when it accepts the code, the
    function is reported as changed and has this code; when it rejects the code,
    that assertion, and no other, fails. *)
Theorem instrument_succeeds `{ZL : Z3Laws} `{Verifier} DL host_address f :
  layout_ok DL → supported_function DL f = true →
  ∃ s', symbolizeFunction DL host_address f new_symbolizer = Ok tt s' ∧
    instrumentFunction DL host_address f new_symbolizer =
      if verifyFunction f (function_code s')
      then Err (Assert "SymbolizePass produced invalid bitcode") else Ok true s'.
Proof.
  intros L Hf. destruct (instrument_run (FR := no_frame) (KO := no_callees (λ _, 0)) DL (λ _, 0) host_address L f Hf)
    as (_&_&_&_&_&_&_&s'&E&_). exists s'. split; [exact E|]. apply instrumentFunction_run; [|exact E].
  by apply supported_function_spec in Hf as [? _].
Qed.

(** C6. An instrumented function of several blocks, with loops, phi nodes and
    calls, does what the original function does.  Take any [k] blocks of a run
    of the original function in which every block refers only to variables that
    dominate it ([scope]).  The instrumented function, started with the library
    in a state whose shadow and argument expressions agree with the program,
    returns from the corresponding [k] blocks, has taken the same path, computed
    the same variables and memory, keeps every expression in the shadow equal to
    the byte it shadows, and if the function has returned, leaves for its caller
    an expression that is null or has the returned value. *)
Theorem function_simulates `{ZL : Z3Laws} `{Verifier} {KC : Calls} {KI : ICalls} {FR : Frame} DL (ρ : RunInput) {KO : CalleesOk ρ}
    host_address successors (scope extra : nat → gset nat) f s' k m l e' mem' :
  layout_ok DL → supported_function DL f = true →
  forallb (scope_ok successors scope f) (blocks f) = true →
  instrumentFunction DL host_address f new_symbolizer = Ok true s' →
  consistent ρ (rts m) → arguments_agree ρ 0 (fn_args f) m →
  (∀ x, is_Some (cenv m !! x) → x ∈ (fn_args f).*1) →
  run_blocks DL successors scope k f (start f) (cenv m) (memory (rts m)) = Some (l, e', mem') →
  wp (exec_blocks DL successors (λ b, scope b ∪ extra b) k (code_of f (function_code s')) (start f)) m
    (λ l' m', l' = l ∧ e' ⊆ cenv m' ∧ memory (rts m') = mem' ∧ consistent ρ (rts m') ∧
      return_ok ρ l m').
Proof.
  intros L Hf Hs E%instrumentFunction_symbolized C A He R.
  eapply wp_impl; [eapply (exec_function DL ρ host_address L successors scope); try done; set_solver|].
  intros l' m' (?&?&?&?&?&_). by split_and!.
Qed.

(** Wherever the first instructions of an instrumented function are cut, the
    code of the first part, run with the library from any state in which the
    shadow and the arguments' expressions agree with the program, always returns,
    has computed the same variables and memory as the original instructions, and
    again leaves every expression in the shadow with the value of the byte that
    it shadows. *)
Theorem instrument_simulates `{ZL : Z3Laws} `{Verifier} {KC : Calls} {KI : ICalls} {FR : Frame} DL (ρ : RunInput) {KO : CalleesOk ρ}
    host_address f l1 l2 s' :
  layout_ok DL → supported_function DL f = true → instructions (fn_entry f) = l1 ++ l2 →
  instrumentFunction DL host_address f new_symbolizer = Ok true s' →
  ∃ code1 code2, function_code s' = code1 ++ code2 ∧ ∀ m e' mem',
    consistent ρ (rts m) → arguments_agree ρ 0 (fn_args f) m →
    run_insts DL l1 (cenv m) (memory (rts m)) = Some (e', mem') →
    wp (exec_code DL code1) m (λ _ m', cenv m' = e' ∧ memory (rts m') = mem' ∧
      consistent ρ (rts m')).
Proof. intros L Hf El E%instrumentFunction_symbolized. by eapply exec_first. Qed.

(** The calling convention is kept: when the expressions passed for the
    arguments are null or have their values, the expression that an
    instrumented function of one block leaves for its caller is null or has the
    returned value. *)
Theorem instrument_returns `{ZL : Z3Laws} `{Verifier} {KC : Calls} {KI : ICalls} {FR : Frame} DL (ρ : RunInput) {KO : CalleesOk ρ}
    host_address f l i v s' m e' mem' c :
  layout_ok DL → supported_function DL f = true → fn_blocks f = [] →
  instructions (fn_entry f) = l ++ [i] → kind i = ReturnInst (Some v) →
  instrumentFunction DL host_address f new_symbolizer = Ok true s' →
  consistent ρ (rts m) → arguments_agree ρ 0 (fn_args f) m →
  run_insts DL l (cenv m) (memory (rts m)) = Some (e', mem') → eval_operand DL e' v = Some c →
  wp (exec_code DL (function_code s')) m (λ _ m', cenv m' = e' ∧
    ∀ h, g_return_value (rts m') = Some h → rep ρ (rt_backend (rts m')) h (sem_value c)).
Proof.
  intros L Hf Hb El K E%instrumentFunction_symbolized C A R Ev. by eapply (exec_straight DL ρ host_address L f l i v s').
Qed.

#[local] Existing Instances no_calls no_icalls no_callees no_frame.

(** ** An example *)

(** A verifier that checks that no two calls have one name. *)
#[export] Instance name_check : Verifier := λ _ code,
  negb (bool_decide (NoDup (omap (λ it, match it with Call d _ _ => Some d | _ => None end) code))).

(** The layout of types on x86-64: natural alignment. *)
Definition align_to (a n : Z) : Z := (n + a - 1) / a * a.

Fixpoint alignment (t : ty) : Z :=
  match t with
  | IntTy w => if w <=? 8 then 1 else if w <=? 16 then 2 else if w <=? 32 then 4
               else if w <=? 64 then 8 else 16
  | FloatTy d => if d then 8 else 4
  | PointerTy => 8
  | StructTy ts => fold_right (λ t a, Z.max (alignment t) a) 1 ts
  | ArrayTy _ t => alignment t
  | VoidTy => 1
  end.

Fixpoint alloc_size (t : ty) : Z :=
  match t with
  | IntTy w => align_to (alignment t) ((w + 7) / 8)
  | FloatTy d => if d then 8 else 4
  | PointerTy => 8
  | StructTy ts =>
      align_to (alignment t) (fold_left (λ n t, align_to (alignment t) n + alloc_size t) ts 0)
  | ArrayTy n t => n * alloc_size t
  | VoidTy => 0
  end.

Definition element_offset (ts : list ty) (i : nat) : Z :=
  align_to (default 1 (alignment <$> ts !! i))
    (fold_left (λ n t, align_to (alignment t) n + alloc_size t) (take i ts) 0).

Definition x86_64 : DataLayout := {|
  ptrBits := 64;
  dl_little_endian := true;
  getElementOffset := element_offset;
  getTypeStoreSize t := match t with IntTy w => (w + 7) / 8 | _ => alloc_size t end;
  getTypeAllocSize := alloc_size;
|}.

Lemma x86_64_ok : layout_ok x86_64.
Proof.
  split; [done|]. intros [w| | | | |] n; try done; cbn; [|by intros [= <-]].
  destruct (Z.eqb_spec w 1) as [->|]; [by intros [= <-]|].
  destruct (Z.ltb_spec 0 w); [|done]. destruct (Z.eqb_spec (w mod 8) 0) as [E|]; [|done].
  intros [= <-]. rewrite Z2Nat.id by (apply Z.div_pos; lia).
  rewrite (Z.div_mod w 8) at 1 by lia. rewrite E, Z.add_0_r, Z.mul_comm, Z.div_add_l by lia.
  by rewrite Z.add_0_r.
Qed.

(** [i32 f(i32 a, i32 b, i32 *p) { c = a + b; if (c < a) ...; p[1] = c; return c ^ *p; }] *)
Definition i32 : nat → operand := Local (IntTy 32).
Definition at_line (n : nat) (t : ty) (k : inst_kind) : inst :=
  {| name := n; type := t; loc := [("f.c"%string, 1)]; kind := k |}.

Definition sample_body : list inst := [
  at_line 3 (IntTy 32) (BinaryOperator Add (i32 0) (i32 1));
  at_line 4 (IntTy 1) (CmpInst ICMP_ULT (i32 3) (i32 0));
  at_line 5 (IntTy 32) (SelectInst (Local (IntTy 1) 4) (i32 3) (i32 1));
  at_line 6 PointerTy (GetElementPtrInst (Local PointerTy 2)
                         [SequentialIndex (ConstantInt 64 1) (IntTy 32)]);
  at_line 7 VoidTy (StoreInst (i32 5) (Local PointerTy 6));
  at_line 8 (IntTy 32) (LoadInst (Local PointerTy 6));
  at_line 9 (IntTy 32) (BinaryOperator Xor (i32 8) (i32 0))].

Definition sample_return : inst := at_line 10 VoidTy (ReturnInst (Some (i32 9))).

Definition sample_function : function := {|
  fn_name := "f"; fn_args := [(0%nat, false); (1%nat, false); (2%nat, false)];
  fn_entry := {| block_id := 11; instructions := sample_body ++ [sample_return] |};
  fn_blocks := [] |}.

(** The arguments are 5, 2 ^ 32 - 1 and the address 4096; the first two are symbolic. *)
Definition sample_arguments : gmap nat cval :=
  {[0%nat := CInt 32 5; 1%nat := CInt 32 4294967295; 2%nat := CInt 64 4096]}.

Definition sample_results : option (gmap nat cval * (Z → Z)) :=
  run_insts x86_64 sample_body sample_arguments (λ _, 0).

Lemma sample_called (ρ : RunInput) :
  ∃ m, consistent ρ (rts m) ∧ arguments_agree ρ 0 (fn_args sample_function) m ∧
    cenv m = sample_arguments ∧ memory (rts m) = (λ _, 0) ∧
    g_function_arguments (rts m) !! 0%nat ≠ Some None.
Proof.
  destruct (blank_constants ρ [(32, 5); (32, 4294967295)]) as (s&hs&C&Hh&Hm&_).
  { by repeat constructor. }
  inversion Hh as [|h1 ? l ? R1 Hl]; subst. inversion Hl as [|h2 ? l' ? R2 Hl']; subst.
  inversion Hl'; subst. cbn in R1, R2.
  exists {| regs := ∅; flags := ∅; cenv := sample_arguments; rts := set_calls None [Some h1; Some h2; None] s |}.
  split_and!; try done.
  intros i x u c h Hi Hc Hg. destruct i as [|[|[|]]]; try done.
  - injection Hi as <- <-. injection Hc as <-. injection Hg as <-. exact R1.
  - injection Hi as <- <-. injection Hc as <-. injection Hg as <-. exact R2.
Qed.

Definition sample_instrumented : symbolizer :=
  match instrumentFunction x86_64 (λ _, 0) sample_function new_symbolizer with
  | Ok _ s => s
  | Err _ => new_symbolizer
  end.

Definition sample_result : gmap nat cval * (Z → Z) := default (∅, λ _, 0) sample_results.

Lemma instrument_succeeds_witness :
  supported_function x86_64 sample_function = true ∧
  ∃ s', instrumentFunction x86_64 (λ _, 0) sample_function new_symbolizer = Ok true s'.
Proof.
  assert (supported_function x86_64 sample_function = true) as Hf by (vm_compute; reflexivity).
  split; [exact Hf|].
  destruct (instrument_succeeds x86_64 (λ _, 0) sample_function x86_64_ok Hf) as (s'&E&Ev).
  exists s'. rewrite Ev. vm_compute in E. injection E as <-. vm_compute. reflexivity.
Defined.

Lemma instrument_simulates_witness :
  ∃ code1 code2 m, function_code sample_instrumented = code1 ++ code2 ∧
    g_function_arguments (rts m) !! 0%nat ≠ Some None ∧
    sample_result.1 !! 9%nat = Some (CInt 32 1) ∧
    wp (exec_code x86_64 code1) m (λ _ m', cenv m' = sample_result.1 ∧
      memory (rts m') = sample_result.2 ∧ consistent letters (rts m')).
Proof.
  destruct (instrument_simulates x86_64 letters (λ _, 0) sample_function sample_body [sample_return]
    sample_instrumented) as (code1&code2&E&H).
  - exact x86_64_ok.
  - vm_compute. reflexivity.
  - reflexivity.
  - vm_compute. reflexivity.
  - destruct (sample_called letters) as (m&C&A&Ee&Em&Hs).
    exists code1, code2, m. split; [exact E|]. split; [exact Hs|].
    split; [vm_compute; reflexivity|].
    apply H; [exact C|exact A|]. rewrite Ee, Em. vm_compute. reflexivity.
Defined.

Lemma instrument_returns_witness :
  ∃ m, g_function_arguments (rts m) !! 0%nat ≠ Some None ∧
    wp (exec_code x86_64 (function_code sample_instrumented)) m (λ _ m', cenv m' = sample_result.1 ∧
      ∀ h, g_return_value (rts m') = Some h → rep letters (rt_backend (rts m')) h (VBV 32 1)).
Proof.
  destruct (sample_called letters) as (m&C&A&Ee&Em&Hs). exists m. split; [exact Hs|].
  apply (instrument_returns x86_64 letters (λ _, 0) sample_function sample_body sample_return (i32 9)
    sample_instrumented m sample_result.1 sample_result.2 (CInt 32 1)).
  - exact x86_64_ok.
  - vm_compute. reflexivity.
  - reflexivity.
  - reflexivity.
  - reflexivity.
  - vm_compute. reflexivity.
  - exact C.
  - exact A.
  - rewrite Ee, Em. vm_compute. reflexivity.
  - vm_compute. reflexivity.
Defined.

(** ** A loop *)

(** [i32 g(i32 n) { i = 0; a = n; first = 1;
      do { b = a + n; j = i + 1; a = b; i = j; first = 0; } while (j < 3); return b; }] *)
Definition loop_function : function := {|
  fn_name := "g"; fn_args := [(0%nat, false)];
  fn_entry := {| block_id := 10; instructions := [at_line 1 VoidTy UncondBr] |};
  fn_blocks := [
    {| block_id := 20; instructions := [
         at_line 2 (IntTy 32) (PHINode [(ConstantInt 32 0, 10%nat); (i32 6, 20%nat)]);
         at_line 3 (IntTy 32) (PHINode [(i32 0, 10%nat); (i32 5, 20%nat)]);
         at_line 4 (IntTy 1) (PHINode [(ConstantInt 1 1, 10%nat); (ConstantInt 1 0, 20%nat)]);
         at_line 5 (IntTy 32) (BinaryOperator Add (i32 3) (i32 0));
         at_line 6 (IntTy 32) (BinaryOperator Add (i32 2) (ConstantInt 32 1));
         at_line 7 (IntTy 1) (CmpInst ICMP_ULT (i32 6) (ConstantInt 32 3));
         at_line 8 VoidTy (CondBr (Local (IntTy 1) 7) None (Some {| S0In := true; S1In := false |}) false)] |};
    {| block_id := 30; instructions := [at_line 9 VoidTy (ReturnInst (Some (i32 5)))] |}] |}.

Definition loop_successors (b : nat) : list nat :=
  match b with 10%nat => [20%nat] | 20%nat => [20%nat; 30%nat] | _ => [] end.

Definition loop_scope (b : nat) : gset nat :=
  match b with
  | 30%nat => list_to_set [0; 1; 2; 3; 4; 5; 6; 7; 8]%nat
  | _ => {[ 0%nat ]}
  end.

Definition loop_instrumented : symbolizer :=
  match instrumentFunction x86_64 (λ _, 0) loop_function new_symbolizer with
  | Ok _ s => s
  | Err _ => new_symbolizer
  end.

Definition loop_result : location * gmap nat cval * (Z → Z) :=
  default (Done None, ∅, λ _, 0) (run_blocks x86_64 loop_successors loop_scope 5 loop_function
    (start loop_function) {[0%nat := CInt 32 5]} (λ _, 0)).

Lemma loop_called (ρ : RunInput) :
  ∃ m, consistent ρ (rts m) ∧ arguments_agree ρ 0 (fn_args loop_function) m ∧
    cenv m = {[0%nat := CInt 32 5]} ∧ memory (rts m) = (λ _, 0) ∧
    g_function_arguments (rts m) !! 0%nat ≠ Some None.
Proof.
  destruct (blank_constants ρ [(32, 5)]) as (s&hs&C&Hh&Hm&_).
  { by repeat constructor. }
  inversion Hh as [|h1 ? l ? R1 Hl]; subst. inversion Hl; subst. cbn in R1.
  exists {| regs := ∅; flags := ∅; cenv := {[0%nat := CInt 32 5]}; rts := set_calls None [Some h1] s |}.
  split_and!; try done.
  intros i x u c h Hi Hc Hg. destruct i as [|]; [|done].
  injection Hi as <- <-. injection Hc as <-. injection Hg as <-. exact R1.
Qed.

(** The third phi node has no expression; the other two have.  The condition of
    the loop gets a flag. *)
Lemma function_simulates_witness :
  ∃ m, g_function_arguments (rts m) !! 0%nat ≠ Some None ∧
    loop_result.1.1 = Done (Some (CInt 32 20)) ∧
    length (filter (λ it, match it with PhiExpr _ _ => true | _ => false end = true)
              (code loop_instrumented)) = 2%nat ∧
    length (entry loop_instrumented) = 1%nat ∧
    wp (exec_blocks x86_64 loop_successors (λ b, loop_scope b ∪ list_to_set (seq 0 10)) 5
          (code_of loop_function (function_code loop_instrumented)) (start loop_function)) m
      (λ l m', l = loop_result.1.1 ∧ loop_result.1.2 ⊆ cenv m' ∧ memory (rts m') = loop_result.2 ∧
        consistent letters (rts m') ∧ return_ok letters loop_result.1.1 m').
Proof.
  destruct (loop_called letters) as (m&C&A&Ee&Em&Hs). exists m. split; [exact Hs|].
  do 3 (split; [vm_compute; reflexivity|]).
  apply (function_simulates x86_64 letters (λ _, 0) loop_successors loop_scope (λ _, list_to_set (seq 0 10))).
  - exact x86_64_ok.
  - vm_compute. reflexivity.
  - vm_compute. reflexivity.
  - vm_compute. reflexivity.
  - exact C.
  - exact A.
  - rewrite Ee. intros x (c&Hx). apply lookup_singleton_Some in Hx as [<- _]. by left.
  - rewrite Ee, Em. vm_compute. reflexivity.
Defined.

(** ** A recursive program *)

(** [u32 fact(u32 n) { switch (n) { case 0: return one(); default: return n * fact(n - 1); } }];
    [one] is not instrumented and returns 1. *)
Definition fact_function : function := {|
  fn_name := "fact"; fn_args := [(0%nat, false)];
  fn_entry := {| block_id := 10; instructions := [
    at_line 1 VoidTy (SwitchInst (i32 0) [0])] |};
  fn_blocks := [
    {| block_id := 20; instructions := [
         at_line 3 (IntTy 32) (BinaryOperator Sub (i32 0) (ConstantInt 32 1));
         at_line 4 (IntTy 32) (CallInst (FunctionCall 1) [i32 3] false);
         at_line 5 (IntTy 32) (BinaryOperator Mul (i32 0) (i32 4));
         at_line 6 VoidTy UncondBr] |};
    {| block_id := 40; instructions := [
         at_line 7 (IntTy 32) (CallInst (FunctionCall 2) [] false);
         at_line 8 VoidTy UncondBr] |};
    {| block_id := 30; instructions := [
         at_line 9 (IntTy 32) (PHINode [(i32 7, 40%nat); (i32 5, 20%nat)]);
         at_line 10 VoidTy (ReturnInst (Some (i32 9)))] |}] |}.

Definition fact_program : program := {|
  functions := {[1%nat := fact_function]};
  edges _ b := match b with 10 => [20; 40] | 20 | 40 => [30] | _ => [] end%nat;
  dominating _ b := match b with 10 => {[0]} | _ => {[0; 1]} end%nat;
  stack _ _ _ := None;
|}.

Definition one_call : Calls := λ f vs mem,
  match f, vs with 2%nat, [] => Some (Some (CInt 32 1), mem) | _, _ => None end.
Definition one_icall : ICalls := λ f vs,
  match f, vs with 2%nat, [] => ret (Some (CInt 32 1)) | _, _ => fail (Undefined "function") end.

Lemma one_callees ρ : CalleesOk ρ (KC := one_call) (KI := one_icall).
Proof.
  intros f vs t r mem' H C _ _. unfold call, icall, one_call, one_icall in *.
  destruct f as [|[|[|f]]]; try done. destruct vs; [|done]. injection H as <- <-.
  exists (Some (CInt 32 1)), t. split_and!; try done. intros c h E _ E'. congruence.
Qed.

Definition fact_result : option (option cval * (Z → Z)) :=
  run_program x86_64 fact_program 3 7 (KC := one_call) 1%nat [CInt 32 4] (λ _, 0).

Lemma program_simulates_witness :
  ∃ t h mem', g_function_arguments t !! 0%nat = Some (Some h) ∧
    fact_result = Some (Some (CInt 32 24), mem') ∧
    wp (exec_program x86_64 (λ _, 0) fact_program 3 (λ _ _, ∅) 7 (KI := one_icall) 1%nat [CInt 32 4]) t
      (λ r t', r = Some (CInt 32 24) ∧ memory t' = mem' ∧ consistent letters t' ∧
        bext (rt_backend t) (rt_backend t') ∧
        ∀ c h, g_return_value t = None → Some (CInt 32 24) = Some c → g_return_value t' = Some h →
          rep letters (rt_backend t') h (sem_value c)).
Proof.
  destruct (blank_constants letters [(32, 4)]) as (s&hs&C&Hh&Hm&_); [by repeat constructor|].
  inversion Hh as [|h1 ? l ? R1 Hl]; subst. inversion Hl; subst. cbn in R1.
  exists (set_calls None [Some h1] s), h1, (λ _, 0). split; [reflexivity|].
  split; [vm_compute; reflexivity|].
  apply (program_simulates (KC := one_call) (KO := one_callees letters) x86_64 letters).
  - exact x86_64_ok.
  - apply map_Forall_singleton. vm_compute. reflexivity.
  - cbn [memory set_calls]. rewrite Hm. vm_compute. reflexivity.
  - exact C.
  - intros [|j] c h Hc Hh1; [|done]. cbn in Hc, Hh1. injection Hc as <-. injection Hh1 as <-. exact R1.
  - cbn. lia.
Defined.

(** ** A program that reads input *)

(** [u32 f() { char c = first(); if (c < 70) return c; return 0; }]; [first] is not
    instrumented and returns the first byte of the input, which is 65, with its
    variable. *)
Definition input_function : function := {|
  fn_name := "f"; fn_args := [];
  fn_entry := {| block_id := 10; instructions := [
    at_line 1 (IntTy 8) (CallInst (FunctionCall 2) [] false);
    at_line 2 (IntTy 1) (CmpInst ICMP_ULT (Local (IntTy 8) 1) (ConstantInt 8 70));
    at_line 3 VoidTy (CondBr (Local (IntTy 1) 2) None None false)] |};
  fn_blocks := [
    {| block_id := 20; instructions := [
         at_line 4 (IntTy 32) (ZExtInst (Local (IntTy 8) 1));
         at_line 5 VoidTy (ReturnInst (Some (i32 4)))] |};
    {| block_id := 30; instructions := [
         at_line 6 VoidTy (ReturnInst (Some (ConstantInt 32 0)))] |}] |}.

Definition input_program : program := {|
  functions := {[1%nat := input_function]};
  edges _ b := match b with 10 => [20; 30] | _ => [] end%nat;
  dominating _ b := match b with 10 => ∅ | _ => {[1; 2]} end%nat;
  stack _ _ _ := None;
|}.

Definition first_call : Calls := λ f vs mem,
  match f, vs with 2%nat, [] => Some (Some (CInt 8 65), mem) | _, _ => None end.
Definition first_icall : ICalls := λ f vs,
  match f, vs with
  | 2%nat, [] =>
      e <- backend (_sym_get_input_byte 0 65) ;;
      _sym_set_return_expression e ;;; ret (Some (CInt 8 65))
  | _, _ => fail (Undefined "function")
  end.

Lemma first_callees : CalleesOk letters (KC := first_call) (KI := first_icall).
Proof.
  intros f vs t r mem' H C _ _. unfold call, icall, first_call, first_icall in *.
  destruct f as [|[|[|f]]]; try done. destruct vs; [|done]. injection H as <- <-.
  pose proof C as [[[_ [_ (k&Hk)]] _] _]. apply wp_bind.
  eapply (wp_backend letters t t); [apply evolves_refl, C| |].
  { apply (get_input_byte_spec letters (rt_backend t) k 0 65); [apply C|exact Hk|].
    split; [done|apply Hk]. }
  intros e t1 Ev1 St _ [(h&->&Hh) _].
  pose proof (rt_step_memory _ _ St) as M1.
  assert (agrees letters (memory t) t1) as A1 by (eapply agrees_quiet; [by apply agrees_consistent|exact Ev1]).
  eapply wp_seq; [by apply (set_return_wp letters (memory t))|].
  intros _ t2 (A2&S2&M2&R2&_). apply wp_ret. split_and!; try done.
  - by rewrite M2.
  - apply agrees_consistent. by rewrite M2, M1.
  - etransitivity; [apply Ev1|apply S2].
  - intros c h' _ [= <-] Hh'. rewrite R2 in Hh'. injection Hh' as <-.
    eapply rep_mono; [apply S2|exact Hh].
Qed.

Definition input_run : M (@rt simple_backend) (option cval) :=
  _sym_initialize no_env ;;;
  exec_program x86_64 (λ _, 0) input_program 3 (λ _ _, ∅) 2 (KI := first_icall) 1%nat [].

Lemma run_from_start_witness :
  ∃ s, input_run blank = Ok (Some (CInt 32 65)) s ∧ length (log (rt_backend s)) = 1%nat ∧
    (∀ q a, q ∈ log (rt_backend s) → a ∈ q_smt q → Z3_eval letters a = VBool true) ∧
    (∀ h, g_return_value s = Some h → Z3_eval letters h = VBV 32 65).
Proof.
  destruct (run_from_start (KC := first_call) (KO := first_callees) x86_64 letters (λ _, 0)
    input_program 3 (λ _ _, ∅) 2 1%nat [] no_env (λ _, 0) (λ _, None) (Some (CInt 32 65)) (λ _, 0))
    as (r&s&E&->&_&_&Hl&Hr).
  - exact x86_64_ok.
  - apply map_Forall_singleton. vm_compute. reflexivity.
  - exact no_env_ok.
  - intros a. by unfold is_byte.
  - cbn. lia.
  - vm_compute. reflexivity.
  - assert (match input_run blank with
            | Ok _ s => length (log (rt_backend s)) = 1%nat
            | Err _ => False end) as Hn by (vm_compute; reflexivity).
    exists s. unfold input_run, blank in *. rewrite E in Hn. split; [exact E|]. split; [exact Hn|].
    split; [exact Hl|]. intros h Hh. exact (Hr _ h eq_refl Hh).
Defined.
