(* ===== verification/LinkingProps.v ===== *)
(** * What the Symbolizer guarantees: linked programs and branches

    Programs of instrumented modules that are linked with the wrappers of the C
    library, what one conditional branch reports to the library, the sorts of
    the expressions that instrumented code builds, and the arguments of generated
    calls; each theorem is followed by an example on x86-64. *)

From S2P Require Import Prelude Smt Z3Api SimpleBackend SimpleSpec PathConstraints ByteSeq BitArrays.
From S2P Require Import State Shadow Memory LibcWrappers Dispatch Symbolizer SymbolizerSem Typing.
From S2P Require Import Cfg ShortCircuit Computations Simulation VisitMemory VisitEffects SymbolizerSpec FunctionSpec CfgSpec.
From S2P Require Import FunctionSim Program Linking BranchReport Signatures Generated Scenarios SymbolizerProps Interface.

#[local] Open Scope Z_scope.
#[local] Existing Instances Term.term_z3 Term.term_z3_laws.

(** ** Linking *)

(** C3. Linking with the wrappers of memcpy, memmove, bcopy, memcmp, bcmp, bzero
    and ntohl is transparent.  A program whose module [M] names these functions is
    run with the functions of the C library; the instrumented program, whose
    module has been renamed by [instrumentModule], is run with the wrappers that
    the linker finds for the new names.  It returns the same value and memory, the
    shadow agrees with memory at the end, and the expression of the result has the
    value of the result.  The module must not name other functions that are
    wrapped, and not call wrappers by their own names; the remaining functions are
    those that are not renamed, and keep the contract [CalleesOk].  (The wrappers
    of functions that read input are the subject of RuntimeProps.v; the wrapper of
    memset does not keep the contract.) *)
Theorem linked_program_simulates `{ZL : Z3Laws} {KC : Calls} {KI : ICalls} DL (ρ : RunInput)
    {KO : CalleesOk ρ} sym_addr host_address P M k extra n f vs t r mem' :
  layout_ok DL → program_ok DL P → map_Forall (λ _ x, resolve SYM x = None) (symbols M) →
  map_Forall (λ _ x, isInterceptedFunction x = true → is_Some (resolve id x)) (symbols M) →
  run_program DL P k n (KC := linked_calls M) f vs (memory t) = Some (r, mem') →
  consistent ρ t → parameters_ok ρ vs t → (length vs ≤ 256)%nat →
  wp (exec_program DL host_address P k extra n
        (KI := linked_icalls sym_addr (instrumentModule M).2) f vs) t
    (λ r' t', r' = r ∧ memory t' = mem' ∧ consistent ρ t' ∧
      ∀ c h, g_return_value t = None → r = Some c → g_return_value t' = Some h →
        rep ρ (rt_backend t') h (sem_value c)).
Proof.
  intros L HP HM _ R C Hp Hl. pose proof (linked_callees ρ sym_addr M HM) as KO'.
  eapply wp_impl; [by apply (program_callees (KO := KO') DL ρ host_address L P k extra HP n)|].
  intros r' t' (->&Em&C'&_&Hr). by split_and!.
Qed.

(** [u8 f(u8 c) { u8 p[4]; p[0] = c; memmove(p + 1, p, 2); return p[1]; }]; the array is
    kept at address 4096. *)
Definition i8 : nat → operand := Local (IntTy 8).
Definition move_function : function := {|
  fn_name := "f"; fn_args := [(0%nat, false)];
  fn_entry := {| block_id := 10; instructions := [
    at_line 1 PointerTy AllocaInst;
    at_line 2 VoidTy (StoreInst (i8 0) (Local PointerTy 1));
    at_line 3 PointerTy (GetElementPtrInst (Local PointerTy 1) [SequentialIndex (ConstantInt 64 1) (IntTy 8)]);
    at_line 4 PointerTy (CallInst (FunctionCall 2) [Local PointerTy 3; Local PointerTy 1; ConstantInt 64 2] false);
    at_line 5 (IntTy 8) (LoadInst (Local PointerTy 3));
    at_line 6 VoidTy (ReturnInst (Some (i8 5)))] |};
  fn_blocks := [] |}.

Definition move_program : program := {|
  functions := {[1%nat := move_function]};
  edges _ _ := [];
  dominating _ _ := {[0%nat]};
  stack _ _ x := if (x =? 1)%nat then Some 4096 else None;
|}.

Definition move_module : module := {|
  symbols := {[1%nat := "f"%string; 2%nat := "memmove"%string]};
  global_ctors := [];
|}.

#[local] Existing Instances no_calls no_icalls no_callees no_frame.

Definition move_arguments : list cval := [CInt 8 7].

Definition move_memory : Z → Z :=
  match run_program x86_64 move_program 1 2 (KC := linked_calls move_module) 1%nat move_arguments
          (λ _, 0) with
  | Some (_, mem) => mem
  | None => λ _, 0
  end.

Lemma linked_program_simulates_witness :
  ∃ t h, g_function_arguments t !! 0%nat = Some (Some h) ∧
    symbols (instrumentModule move_module).2 !! 2%nat = Some "memmove_symbolized"%string ∧
    wp (exec_program x86_64 (λ _, 0) move_program 1 (λ _ _, ∅) 2
          (KI := linked_icalls (λ _, 0) (instrumentModule move_module).2) 1%nat move_arguments) t
      (λ r t', r = Some (CInt 8 7) ∧ memory t' = move_memory ∧ consistent letters t' ∧
        ∀ c h', g_return_value t = None → Some (CInt 8 7) = Some c → g_return_value t' = Some h' →
          rep letters (rt_backend t') h' (sem_value c)).
Proof.
  destruct (blank_constants letters [(8, 7)]) as (s&hs&C&Hh&Hm&_); [by repeat constructor|].
  inversion Hh as [|h1 ? l ? R1 Hl]; subst. inversion Hl; subst. cbn in R1.
  exists (set_calls None [Some h1] s), h1. split; [reflexivity|]. split; [vm_compute; reflexivity|].
  apply (linked_program_simulates (KC := no_calls) (KO := no_callees letters) x86_64 letters (λ _, 0)
    (λ _, 0) move_program move_module).
  - exact x86_64_ok.
  - apply map_Forall_singleton. vm_compute. reflexivity.
  - apply map_Forall_insert_2; [vm_compute; reflexivity|].
    apply map_Forall_singleton. vm_compute. reflexivity.
  - apply map_Forall_insert_2; [done|]. apply map_Forall_singleton. intros _. by exists Memmove.
  - cbn [memory set_calls]. rewrite Hm. vm_compute. reflexivity.
  - exact C.
  - intros [|j] c h Hc Hh1; [|done]. cbn in Hc, Hh1. injection Hc as <-. injection Hh1 as <-. exact R1.
  - cbn. lia.
Defined.

(** ** Branches *)

(** C4. What the code of a conditional branch reports.  Take the branch by itself,
    outside of the class for strings: a Symbolizer without other code visits it
    and finishes the code.  A branch that is not the condition of a loop reports
    in every run; the condition of a loop only while a flag of the function, which
    starts as false, is unset, and it sets the flag, whether or not the condition
    has an expression; the branch that guards a loop never reports.  To report
    is: when the condition has no expression, at compile time or at run time, the
    log and the solver stay as they are; otherwise, unless the expression
    simplifies to a constant, the log gets exactly one query, with the source line
    of the branch and its number ([-1] for loops), for the inputs on which the
    condition has the value that it has now.  Memory and the variables of the
    program are left alone. *)
Theorem branch_reports_direction `{ZL : Z3Laws} {KC : Calls} {KI : ICalls} {FR : Frame} DL (ρ : RunInput)
    host_address i c ct lo g s m z e :
  ptrBits DL = 64 → kind i = CondBr c ct lo g → code s = [] → expressionUses s = [] →
  (∀ r, sym_lookup (symbolicExpressions s) c = Some r → (r < fresh s)%nat) → plain_file i = true →
  consistent ρ (rts m) → eval_operand DL (cenv m) c = Some (CInt 1 z) →
  read_expr (sym_lookup (symbolicExpressions s) c) m = Some e →
  (∀ h, e = Some h → Z3_eval ρ h = VBool (negb (z =? 0))) →
  let when := branch_reporting lo g in
  (when = FirstIteration → is_Some (flags m !! fresh s)) →
  ∃ s2, (visit DL host_address i ;;; shortCircuitExpressionUses DL) s = Ok tt s2 ∧
    entry s2 = match when with FirstIteration => [StoreFlag (fresh s) false] | _ => [] end ++ entry s ∧
    wp (exec_code DL (code s2)) m (λ _ m', consistent ρ (rts m') ∧ cenv m' = cenv m ∧
      memory (rts m') = memory (rts m) ∧ flags m' = flags_after when (fresh s) (flags m) ∧
      match (if reports_now when (fresh s) m then e else None) with
      | None => same_log (rt_backend (rts m)) (rt_backend (rts m'))
      | Some h => reports h (negb (z =? 0)) (locate i).1 (sgn 32 (u32 (locate i).2))
                    (sgn 32 (u32 (reported_slot when ct s))) (rt_backend (rts m)) (rt_backend (rts m'))
      end).
Proof. intros Hptr. by apply branch_reports. Qed.

(** The branch [if (x)] in line 1 of f.c, which is taken, and the condition [x] of
    a loop. *)
Definition branch_inst : inst := at_line 9 VoidTy (CondBr (Local (IntTy 1) 7) None None false).
Definition loop_inst : inst :=
  at_line 9 VoidTy (CondBr (Local (IntTy 1) 7) None (Some {| S0In := true; S1In := false |}) false).
Definition branch_symbolizer : symbolizer := {|
  ID := 3; fresh := 1; code := []; entry := []; symbolicExpressions := {[7%nat := Some 0%nat]};
  phiNodes := []; expressionUses := [] |}.
Definition x_variable : ast := Z3_mk_const "x" SBool.
Definition branch_machine (seen : bool) (t : @rt simple_backend) : mach := {|
  regs := {[0%nat := RExpr (Some x_variable)]}; flags := {[1%nat := seen]};
  cenv := {[7%nat := CInt 1 1]}; rts := t |}.
Definition finished (i : inst) : option symbolizer :=
  match (visit x86_64 (λ _, 0) i ;;; shortCircuitExpressionUses x86_64) branch_symbolizer with
  | Ok _ s2 => Some s2
  | Err _ => None
  end.

Lemma branch_reports_direction_witness :
  ∃ sb sl t, finished branch_inst = Some sb ∧ finished loop_inst = Some sl ∧
    (∀ slot i s2, (slot, i, s2) = (3, branch_inst, sb) ∨ (slot, i, s2) = (-1, loop_inst, sl) →
      wp (exec_code x86_64 (code s2)) (branch_machine false t) (λ _ m',
      ∃ k, log (rt_backend (rts m')) = log (rt_backend t) ++
        [{| q_slot := slot; q_taken := 1; q_file := "f.c"; q_line := 1;
            q_smt := assertions (rt_backend t) ++ [k] |}] ∧ Z3_eval letters k = VBool true)) ∧
    wp (exec_code x86_64 (code sl)) (branch_machine true t) (λ _ m',
      same_log (rt_backend t) (rt_backend (rts m'))).
Proof.
  destruct (blank_started letters) as (t&_&C&_).
  assert (∀ r, sym_lookup (symbolicExpressions branch_symbolizer) (Local (IntTy 1) 7) = Some r →
    (r < fresh branch_symbolizer)%nat) as Hr by (intros r Hr; vm_compute in Hr; injection Hr as <-; vm_compute; lia).
  assert (∀ h, Some x_variable = Some h → Z3_eval letters h = VBool true) as Hh by (intros h [= <-]; reflexivity).
  pose proof (λ lo seen, branch_reports_direction x86_64 letters (λ _, 0)
    (at_line 9 VoidTy (CondBr (Local (IntTy 1) 7) None lo false)) (Local (IntTy 1) 7) None lo false
    branch_symbolizer (branch_machine seen t) 1 (Some x_variable) eq_refl eq_refl eq_refl eq_refl Hr eq_refl
    C eq_refl eq_refl Hh (λ _, ex_intro _ seen eq_refl)) as H.
  destruct (H None false) as (sb&Eb&_&ab&mb&Xb&_&_&_&_&Rb).
  destruct (H (Some {| S0In := true; S1In := false |}) false) as (sl&El&_&al&ml&Xl&_&_&_&_&Rl).
  destruct (H (Some {| S0In := true; S1In := false |}) true) as (sl'&El'&_&al'&ml'&Xl'&_&_&_&_&Rl').
  assert (sl' = sl) as -> by congruence. exists sb, sl, t.
  split; [unfold finished, branch_inst; by rewrite Eb|]. split; [unfold finished, loop_inst; by rewrite El|]. split.
  - intros slot i s2 [E|E]; injection E as -> -> ->.
    + exists ab, mb. split; [exact Xb|]. destruct Rb as [_ [[_ Hu]|(_&k&Ek&Hk)]]; [by destruct Hu|].
      exists k. split; [exact Ek|]. exact (Hk letters true eq_refl).
    + exists al, ml. split; [exact Xl|]. destruct Rl as [_ [[_ Hu]|(_&k&Ek&Hk)]]; [by destruct Hu|].
      exists k. split; [exact Ek|]. exact (Hk letters true eq_refl).
  - exists al', ml'. split; [exact Xl'|]. exact Rl'.
Defined.

(** ** Sorts *)

(** C5. A call of a builder that is well sorted is accepted by the solver library,
    whatever the values of its arguments are, and returns an expression of the
    announced sort, which is kept alive; no reference count is left changed. *)
Theorem builder_typing `{ZL : Z3Laws} f args τ (s : state) :
  SimpleBackend.binv s → result_sort f args = Some τ →
  ∃ m h s', builder_call f args = Some m ∧ m s = Ok (Some h) s' ∧ Z3_get_sort h = τ ∧
    alive h s' ∧ balanced s s' ∧ SimpleBackend.binv s'.
Proof.
  intros I H. destruct (builder_sorted f args τ s I H) as (m&E&e&s'&Em&I'&X&h&->&Ha&Hs).
  by exists m, h, s'.
Qed.

Lemma builder_typing_witness :
  ∃ (s : state) m h s', builder_call (comparisonHandler ICMP_ULT)
      [VExpr (Some (Z3_mk_const "x" (SBV 8))); VExpr (Some (Z3_mk_numeral 70 (SBV 8)))] = Some m ∧
    m s = Ok (Some h) s' ∧ Z3_get_sort h = SBool.
Proof.
  destruct (constants letters []) as (s&_&[I _]&_); [done|].
  destruct (builder_typing (comparisonHandler ICMP_ULT)
    [VExpr (Some (Z3_mk_const "x" (SBV 8))); VExpr (Some (Z3_mk_numeral 70 (SBV 8)))] SBool s)
    as (m&h&s'&E&Em&Hs&_); [exact I|vm_compute; reflexivity|].
  by exists s, m, h, s'.
Defined.

(** ** Declarations *)

(** C8. Generated calls and the declarations of the library.  For every function
    that LLVM accepts as well typed, whatever its instructions are, aggregates,
    indirect branches and intrinsics included: when the pass returns, every call
    in the finished code, on the slow paths of short-circuited computations too,
    has as many arguments as the type that the call is made with, each of its
    type; the arguments that were null expressions are still expressions after
    they have been replaced, and constants for parameters of 1 and 8 bits are in
    range.  This type is also the one in the declaration of the function in the
    module, except for reports of path constraints: their function is declared
    with three parameters, because the library asks for it with these first, and
    no report, which has six arguments, matches the declaration. *)
Theorem instrument_well_typed `{Verifier} DL host_address f s' :
  8 < ptrBits DL → well_typed_function f → instrumentFunction DL host_address f new_symbolizer = Ok true s' →
  typed_code DL (function_code s') ∧
  Forall (λ c, declared_call DL c ↔ c.1.2 ≠ pushPathConstraintWithLoc) (flat_map calls_of (function_code s')).
Proof.
  intros Hptr Hf E%instrumentFunction_symbolized.
  assert (typed_code DL (function_code s')) as Ht by by eapply function_typed.
  split; [exact Ht|]. eapply Forall_impl; [exact Ht|]. intros c. apply typed_call_declared.
Qed.

(** A function that loads a structure, replaces a field by a sum and branches on
    the result of an intrinsic. *)
Definition pair_type : ty := StructTy [IntTy 8; IntTy 16].
Definition aggregate_function : function := {|
  fn_name := "update"; fn_args := [(1%nat, false)];
  fn_entry := {| block_id := 20; instructions := [
    at_line 2 pair_type (LoadInst (Local PointerTy 1));
    at_line 3 (IntTy 8) (ExtractValueInst (Local pair_type 2) [0%nat]);
    at_line 4 (IntTy 8) (BinaryOperator Add (Local (IntTy 8) 3) (i8 1));
    at_line 5 pair_type (InsertValueInst (Local pair_type 2) (Local (IntTy 8) 4) [0%nat]);
    at_line 6 VoidTy (StoreInst (Local pair_type 5) (Local PointerTy 1));
    at_line 7 (IntTy 8) (CallInst (Intrinsic I_fshl) [Local (IntTy 8) 3; Local (IntTy 8) 4; i8 3] false);
    at_line 8 (IntTy 1) (CmpInst ICMP_ULT (i8 7) (i8 3));
    at_line 9 VoidTy (CondBr (Local (IntTy 1) 8) None None false)] |};
  fn_blocks := [] |}.

Lemma instrument_well_typed_witness :
  ∃ s', instrumentFunction x86_64 (λ _, 0) aggregate_function new_symbolizer = Ok true s' ∧
    let calls := flat_map calls_of (function_code s') in
    length calls = 24%nat ∧ Forall (typed_call x86_64) calls ∧
    ∃ c, c ∈ calls ∧ c.1.2 = pushPathConstraintWithLoc ∧ ¬ declared_call x86_64 c.
Proof.
  destruct (instrumentFunction x86_64 (λ _, 0) aggregate_function new_symbolizer) as [[] s'|e] eqn:E;
    [|exfalso; by vm_compute in E..].
  exists s'. split; [done|].
  destruct (instrument_well_typed x86_64 (λ _, 0) aggregate_function s') as [Ht Hd]; [done| |exact E|].
  { repeat constructor; by vm_compute. }
  assert (existsb (λ c, match c.1.2 with pushPathConstraintWithLoc => true | _ => false end)
    (flat_map calls_of (function_code s')) = true) as Hp
    by (vm_compute in E; injection E as <-; vm_compute; reflexivity).
  split; [vm_compute in E; injection E as <-; vm_compute; reflexivity|]. split; [exact Ht|].
  apply existsb_exists in Hp as (c&Hc%list_elem_of_In&Hf). exists c.
  assert (c.1.2 = pushPathConstraintWithLoc) as Ef by by destruct c.1.2.
  split; [exact Hc|]. split; [exact Ef|]. rewrite Forall_forall in Hd. intros H%(Hd c Hc). exact (H Ef).
Defined.
